(* ===== verification/_CoqProject ===== *)
-Q . S2P
Prelude.v
ThreadPool.v
ValueLocker.v
FutureWait.v
Memory.v
Buffer.v
BufferView.v
RpcTypes.v
BigEndian.v
TransferMessage.v
TransferMessageFacts.v
Ownership.v
OwnershipFacts.v
Event.v
EventFacts.v
Future.v
FutureFacts.v
FutureLife.v
FutureLifeFacts.v
FutureLifeSafety.v
FutureLifetime.v
FutureOrder.v
FutureReclaim.v
Timer.v
MemPipe.v
MemPipeFacts.v
MemPipeEnv.v
Connection.v
ConnectionFacts.v
Service.v
ServiceFacts.v
SortTuple.v
OrderedLock.v
OrderedLockFacts.v
Connector.v
ConnectorFacts.v
Endpoint.v
EndpointFacts.v
Server.v
ServerRun.v
Client.v
TcpPipe.v
TcpPipeFacts.v
TcpStream.v
TcpRoundTrip.v
TcpServerEnv.v
TcpServerEnvFacts.v
TcpClientEnv.v
TcpClientEnvFacts.v
WinOperation.v
WinReadFacts.v
WinPipe.v
WinPipeFacts.v
WinPipeDrain.v
WinWorker.v
WinEnv.v
WinEnvFacts.v
CppTypes.v
CppTypesFacts.v
FutureTypes.v
TupleUtils.v
Wrappers.v
Pipe.v
MemPipeLaws.v
TcpPipeLaws.v
WinPair.v
WinPairFacts.v
WinPairReads.v
WinPipeLaws.v
PipeFifo.v
ConnectionEffects.v
RpcSystem.v
RpcSystemLemmas.v
RpcSystemFacts.v
RpcEndToEnd.v
RpcQuiescence.v
RpcRun.v
App.v
