(* ===== verification/Prelude.v ===== *)
(** * Verification of the C++ libraries common-lib and rpc-lib

    [rpc-lib] is an asynchronous, symmetric RPC library on Protocol Buffers;
    [common-lib] has the buffers, futures, timers, tuple utilities and locks it
    is built from.  Paths below are relative to [src/common-lib/common-lib]
    (CL) and [src/rpc-lib/rpc-lib] (RL).

    ** The program and how its parts interact

    A client or server endpoint (RL [client-endpoint.h], [server-endpoint.h])
    asks a connector (RL [internal/connector]) for connections.  The connector
    gets a pipe endpoint from a pipe environment (RL [pipe]), runs the
    handshake of the authenticator (RL [authenticator]) over it and makes a
    connection (RL [internal/connection]).  A call of a generated stub goes to
    the channel (RL [internal/channel]), which encodes a transfer message (RL
    [internal/transfer-message]) and gives it to the connection; the connection
    writes it to the pipe and keeps the promise of the call in its request map
    until the response with the same number is read, a timer expires, the write
    fails or the connection ends.  The peer's connection hands the message to
    the service (RL [internal/service]), which runs the method and answers.
    Pipes are in memory (RL [pipe/memory-pipe]), over TCP (RL
    [pipe/tcp-pipe]) or named pipes of Windows (RL [pipe/win-pipe]).
    Everything that waits is a future (CL [thread/future]) whose callbacks run
    as tasks of a thread pool.

    ** Files

    - [Prelude]: exceptions, the program monad [prog] (a store, exceptions,
      undefined behaviour), machine integers with explicit wrap-around,
      counting of occurrences, invariants of reachable states.
    - [Memory], [Buffer], [BufferView]: the heap and CL [utils/buffer.h],
      [buffer-view.h], [cbuffer-view.h] with their iterators; a byte that was
      never written is indeterminate, and a bad access is [UB].
    - [RpcTypes]: the enumerations, constants and the configuration of RL.
    - [BigEndian]: the reference codec of integers.
    - [TransferMessage], [TransferMessageFacts]: RL [internal/transfer-message]
      over the heap; failing assertions are [UB].  Parsers of byte lists are the
      specification the heap programs are proved against.
    - [Ownership], [OwnershipFacts]: the types that own a value, CL
      [memory/unique-ptr2.h] with its allocator, [utils/function.h],
      [thread/thread-pool/thread-pool-task.h], [utils/value-proxy.h], and
      [unique_handle] of win-lib, over a store of objects.
    - [Wrappers]: [type_wrapper], [type_qualifiers_cast], [do_on_destruct] and
      [enable_shared_from_this_manual_set].
    - [CppTypes], [CppTypesFacts]: a syntax of C++ types and the functions of CL
      [mpl] on it, with what the compiler rejects.
    - [FutureTypes]: which callbacks the methods of futures accept, the types of
      the futures they give and which values they can store; [ftuple].
    - [TupleUtils]: CL [utils/internal/tuple-utils] over objects that are copied
      and moved from.
    - [Event], [EventFacts]: [event] with [spinlock] and a condition variable
      (CL [synchronization]).
    - [ValueLocker]: [value_locker] and its [locked_value] (CL
      [synchronization]).
    - [ThreadPool]: [basic_thread_pool] (CL [thread/thread-pool]) with its
      workers, work guard and [stop].
    - [Future], [FutureFacts]: controllers, [then]/[catched]/[finally],
      flattening, promises, and the pool whose tasks run in any order.
    - [FutureWait]: [wait], [wait_for] and [get] with the mutexes and the
      condition variable of a controller.
    - [FutureLife], [FutureLifeFacts], [FutureLifeSafety], [FutureLifetime]: who
      owns the controllers and value states of the futures, when weak pointers
      expire, and what a [locked_fvalue] gives access to, objects of the
      application included.  [FutureOrder], [FutureReclaim]: rules under which an
      application makes no cycle of owners, and what is destroyed then.
    - [Timer]: [multiple_timer] and [periodic_timer] over waits of asio.
    - [MemPipe], [MemPipeFacts], [MemPipeEnv]: [mem_buffer], the two ends of a
      memory pipe, their environment.
    - [TcpPipe], [TcpPipeFacts], [TcpStream], [TcpRoundTrip]:
      [tcp_pipe_endpoint], its queues, framing and partial transfers.
    - [TcpServerEnv], [TcpServerEnvFacts], [TcpClientEnv], [TcpClientEnvFacts]:
      [tcp_pipe_server_env] and [tcp_pipe_client_env], that accept and connect
      sockets.
    - [WinOperation], [WinReadFacts]: the reading and writing operations of
      Windows pipes (RL [pipe/win-pipe/win-pipe-operations]).
    - [WinPipe], [WinPipeFacts], [WinPipeDrain]: [win_pipe_endpoint] with the
      threads and packets of [win_pipe_iocp_owner]; [WinWorker]: [iocp] of
      win-lib and the life of the owner with its worker and two pools.
    - [WinEnv], [WinEnvFacts]: [win_pipe_server_env], [win_pipe_client_env] and
      their operations.
    - [Connection], [ConnectionFacts]: the connection with its request map,
      receive loop, timers and watcher, and the transport below it.
    - [Service], [ServiceFacts]: channel, service, controllers, closure guards:
      one remote call from the caller's message to its result.
    - [SortTuple]: the three tuple sorts (CL [mpl], [utils/internal/tuple-utils]).
    - [OrderedLock], [OrderedLockFacts]: [ordered_lock] as programs over shared
      mutexes or references to them, a program logic for them, and threads that
      interleave.
    - [Connector], [ConnectorFacts]: server and client connectors, handshake.
    - [Endpoint], [EndpointFacts]: the endpoint objects of clients and servers.
    - [Server], [ServerRun], [Client]: [server_endpoint] and [client_endpoint]
      composed with their connectors, from construction to destruction.
    - [Pipe]: the interface [ipipe_endpoint] as a class of operations with laws;
      [MemPipeLaws] and [TcpPipeLaws]: the memory pipe and two connected TCP
      endpoints are instances; [WinPair], [WinPairFacts], [WinPairReads],
      [WinPipeLaws]: so are two Windows endpoints with the system between them;
      [PipeFifo]: what every instance promises.
    - [ConnectionEffects]: bounds on what each operation of a connection does.
    - [RpcSystem]: two endpoints with channels, connections and services over a
      pipe; [RpcSystemLemmas], [RpcSystemFacts], [RpcEndToEnd], [RpcQuiescence]:
      its invariants and the end-to-end theorems; [RpcRun]: a call over the
      memory pipe.
    - [App]: the console program of [src/example/rpc-example], its grammar of
      commands and its loop.

    Each operation of the code is a definition of the same name in the Module
    of its class; a class is a record of its members.  Where code runs under a
    mutex, the critical section is one step; what other threads, sockets,
    timers and the pool may do is a step relation [step], and invariants hold
    of every state reachable by it.  Promises are numbers, and a log records
    each completion, so that completing one twice or never is visible.

    ** What the theorems show

    - C1 to C3, remote calls end to end, over any pipe and any interleaving: a
      call that completes with [ok] was run once by the service of the peer and
      returns what the method computes; nothing is served twice; over a pipe that
      loses nothing no call is left when nothing is left to do.
    - C4, pipes: the memory pipe, the TCP pipe and the Windows pipe refine a FIFO
      channel.
    - C5 to C7, the wire format: encoding and decoding are inverse
      ([response_roundtrip] for responses), the checks and readers are safe on any
      bytes a peer sends, errors leak no memory.
    - C8, types that own a value: programs over variables of such a type refine
      a specification that knows values only: nothing leaks, nothing is destroyed
      twice; [owners_give_access] adds what access to a variable gives.
    - C9, types: chains of callbacks that the assertions of futures accept are
      well typed inside exactly when the values can be stored, and a future holds
      a future only where the application put it; [function_types_computed]: the
      traits of functions find the signature of every callable.
    - [Buffer], [BufferView] and [TupleUtils] also prove that accesses are
      checked, that copies are independent, that iteration visits every byte
      once, that views alias their buffer, and that rebuilding tuples moves each
      element once.
    - C10, events: mutual exclusion, no lost wake-up.  [sections_are_atomic]: what
      is done through a [locked_value] is one step for the other threads.
    - C11 to C14, futures: a future settles once, has one producer until then
      and delivers every callback; the pool always drains; continuations keep
      their contracts.
    - C15 to C17, the lifetime of futures: pointers point to objects that exist,
      the weak pointers of callbacks find their controllers, locked values are
      alive and locked once, and futures that are let go of are settled and
      destroyed, of an application whose callbacks return futures in order;
      [owners_refine_futures]: the futures with owners refine those of [Future];
      [finally_own_chain_leaks]: the cycle a callback of [finally] can make that
      does not keep to the order; [outside_objects_are_not_kept]: a reference to
      an object of the application is as good as the object.
    - C18, waiting: no thread sleeps through a result, and it gets what was
      stored; [deadline_in_range]: the deadline does not overflow.
    - C19, the thread pool: no worker is lost to an exception, and [stop] returns
      after a bounded number of steps, when every accepted task has run once.
    - C20, timers: at most one callback, none after a cancellation that came in
      time; [periodic_stop]: stopping ends.
    - C21, C22, the memory pipe: promises complete once; the environment pairs
      clients and servers; [mem_no_lost_wakeup] and [mem_fifo] are about the
      inside of one buffer.
    - C23, C24, the TCP environments: each promise is completed exactly once,
      or there is a handler or a timer that is going to.
    - C25, C26, the TCP pipe: however the stream is cut up the reader gets the
      writer's messages; promises complete once and none is stranded.
    - C27 to C30, Windows pipes: a message is read whole however it is
      cut into chunks; each promise gets at most one result and somebody is
      going to give it; a closed endpoint comes to rest with nothing pending;
      the environments answer each request once.  [owner_life]: the destructor of
      the owner never waits for good.
    - C31 to C33, connections: every request completes exactly once and none is
      forgotten; the watcher ends exactly the silent connections;
      [response_completes] is the step of a response.
    - C34, services: the service answers anything with one well-formed response;
      [remote_call_computes] is one call without a connection.
    - C35, C36, sorting and locks: the sorts agree and sort, and the one through
      references rejects the empty tuple; threads that use
      ordered locks cannot deadlock, and a lock takes all or nothing
      ([ordered_lock_all_or_nothing]); over references this holds where they give
      each mutex one order ([ordered_refs_no_deadlock]), and only there
      ([disagreeing_refs_deadlock]).
    - C37, connectors: exactly one pipe listens; [server_connector_reports] and
      [handshake_connects] are the rounds of reports and the handshake.
    - C38, C39, the whole server and the whole client: every connection of an
      accepted client is reported once, and its end once, also when the server is
      destroyed; while the client is alive connect futures give disconnect futures
      exactly for handshakes that connected, and these are completed once.
      [server_reports_connections] and [client_disconnects_once] are the parts of
      the endpoint objects.
    - C40, the example: the command loop is the session of a grammar, exceptions
      of the calls included.

    ** Parameters, bounds and fuel

    Protobuf is the class [TransferMessage.Proto] with the laws [ProtoLaws]; the
    application's authenticator is the class [Connector.Authenticator] with
    [AuthenticatorLaws]; the methods of a service are a function.  In the example
    Boost's [trim] and [starts_with] and the results of calls are functions.  Each has a
    concrete instance, used in the witnesses.  The pipe of the end-to-end
    theorems is the class [Pipe] with the laws [PipeLaws] or [LosslessPipe], and
    has three instances.  The thread pool, asio's timers
    and sockets are the nondeterminism of the step relations; [ThreadPool] has
    the documented behaviour of an [io_context].  So is Windows: pipes are in
    message mode, a message is there for the reader from some time between
    [WriteFile] and its completion on, a [ReadFile] that reports
    [ERROR_MORE_DATA] at once is followed by no packet, and
    [ERROR_OPERATION_ABORTED] comes only after [CancelIo] or [CloseHandle].

    Numbers of requests, operations and timers have 64 bits and wrap; where a
    theorem needs them not to, it has the bound as a hypothesis, or the steps do.
    The definitions use fuel in these places: the traversal of a buffer by its iterators,
    where more than its length is proved enough, [Future.drain], where
    [FutureFacts.measure] is, [FutureLife.deref] with [target] and [place_of], where the number
    of value states is, [App.scan], where the length of the line is, and [FunctionTraits.traits_of], where two are,
    since [operator()] is a member function.  All other recursion is structural or by
    Equations.

    ** What is not modelled

    Strands, which forward to asio and are queues run in order;
    [is_lvalue_static_castable] and the detection of members of lockable types,
    which ask the compiler; constructors of tuple elements that throw;
    exceptions of the callbacks of an application in the connectors; and the
    text of the console messages of the example.  The lifetime of shared objects
    is modelled for futures, servers and clients; the pipes and environments
    keep themselves alive in their pending operations.  The next part to model is
    the composition of the example with the server and the clients. *)
From stdpp Require Export base tactics list gmap sets numbers option relations.
From Stdlib Require Export ZArith Lia.

#[global] Set Default Goal Selector "!".

(** ** Exceptions

    The standard exceptions the sources throw, and exceptions of
    application callbacks, which the library only transports. *)
Inductive exn : Type :=
| runtime_error
| logic_error
| out_of_range
| invalid_argument
| broken_promise
| promise_already_satisfied
| system_error
| bad_alloc
| bad_function_call
| bad_weak_ptr
| user_exn (n : nat).

#[global] Instance exn_eq_dec : EqDecision exn.
Proof. solve_decision. Defined.

(** ** Programs with a store, exceptions and undefined behaviour

    [Ok] is normal return, [Throw] a C++ exception (the store as it is when
    the exception leaves the call), [UB] undefined behaviour: a dereference
    outside of an allocation or a use of an indeterminate value. *)
Inductive outcome (S A : Type) : Type :=
| Ok (a : A) (s : S)
| Throw (e : exn) (s : S)
| UB.
Arguments Ok {_ _} _ _.
Arguments Throw {_ _} _ _.
Arguments UB {_ _}.

Definition prog (S A : Type) : Type := S → outcome S A.

Section prog.
Context {S : Type}.

Definition ret {A} (a : A) : prog S A := λ s, Ok a s.
Definition bind {A B} (m : prog S A) (k : A → prog S B) : prog S B := λ s,
  match m s with
  | Ok a s' => k a s'
  | Throw e s' => Throw e s'
  | UB => UB
  end.
Definition throw {A} (e : exn) : prog S A := λ s, Throw e s.
Definition undefined {A} : prog S A := λ _, UB.
Definition get : prog S S := λ s, Ok s s.
Definition put (s : S) : prog S unit := λ _, Ok tt s.
End prog.

Declare Scope prog_scope.
Delimit Scope prog_scope with prog.
Notation "'let!' x := m 'in' k" := (bind m (λ x, k))
  (at level 10, x name, m at level 100, k at level 200) : prog_scope.
Notation "m ';!' k" := (bind m (λ _, k))
  (at level 199, k at level 200, right associativity) : prog_scope.

(** ** Machine integers

    [size_t] and [uint64_t] have 64 bits (the x64 builds), [uint32_t] 32. *)
Definition wrap (w : Z) (x : Z) : Z := (x mod 2 ^ w)%Z.
Abbreviation u8 := (wrap 8).
Abbreviation u32 := (wrap 32).
Abbreviation u64 := (wrap 64).

Definition is_byte (b : Z) : Prop := (0 ≤ b < 256)%Z.
#[global] Instance is_byte_dec b : Decision (is_byte b).
Proof. unfold is_byte. apply _. Defined.

(** ** Automation *)
Create HintDb cl.

(** Splits the boolean tests and matches of a translated branch. *)
Ltac split_matches :=
  repeat (case_match; simplify_eq/=; try done).

Lemma wrap_small w x : (0 ≤ w)%Z → (0 ≤ x < 2 ^ w)%Z → wrap w x = x.
Proof. intros. apply Z.mod_small. lia. Qed.

Lemma wrap_range w x : (0 ≤ w)%Z → (0 ≤ wrap w x < 2 ^ w)%Z.
Proof. intros. apply Z.mod_pos_bound, Z.pow_pos_nonneg; lia. Qed.

(** ** Reachable states and sublists *)
Lemma rtc_invariant {A} (R : relation A) (P : A → Prop) x y :
  P x → (∀ a b, P a → R a b → P b) → rtc R x y → P y.
Proof. intros Hx Hs Hr. induction Hr; eauto. Qed.

Lemma Forall_sublist {A} (P : A → Prop) l1 l2 : l1 `sublist_of` l2 → Forall P l2 → Forall P l1.
Proof. intros Hs Hf. apply Forall_forall. intros x Hx. rewrite Forall_forall in Hf. by eapply Hf, elem_of_sublist. Qed.

Lemma filter_sublist {A} (P : A → Prop) `{!∀ x, Decision (P x)} l1 l2 :
  l1 `sublist_of` l2 → filter P l1 `sublist_of` filter P l2.
Proof.
  induction 1 as [|x l1 l2 _ IH|x l1 l2 _ IH]; [done|..]; rewrite ?(filter_cons _ x); case_decide; try done;
    by constructor.
Qed.

Lemma fmap_sublist {A B} (f : A → B) l1 l2 : l1 `sublist_of` l2 → f <$> l1 `sublist_of` f <$> l2.
Proof. induction 1; by constructor. Qed.

Lemma submseteq_NoDup {A} (l k : list A) : l ⊆+ k → NoDup k → NoDup l.
Proof.
  intros (l' & Hp & Hs)%submseteq_sublist_r Hk. rewrite Hp. revert Hk. clear Hp.
  induction Hs as [|x l1 l2 Hs IH|x l1 l2 _ IH]; [done|..]; rewrite ?NoDup_cons; [|by intros [_ ?]; auto].
  intros [Hx Hn]. split; [|auto]. intros Hin. by eapply Hx, elem_of_sublist.
Qed.

(** ** Counting occurrences *)
Definition occ (x : nat) (l : list nat) : nat := length (filter (x =.) l).

Lemma occ_nil x : occ x [] = 0.
Proof. done. Qed.
Lemma occ_app x l1 l2 : occ x (l1 ++ l2) = occ x l1 + occ x l2.
Proof. unfold occ. by rewrite filter_app, length_app. Qed.
Lemma occ_cons x y l : occ x (y :: l) = (if decide (x = y) then 1 else 0) + occ x l.
Proof. unfold occ. rewrite filter_cons. case_decide; simpl; lia. Qed.
Lemma occ_elem x l : x ∈ l → 1 ≤ occ x l.
Proof.
  intros (l1 & l2 & ->)%list_elem_of_split. rewrite occ_app, occ_cons, decide_True by done. lia.
Qed.

Lemma occ_not_elem x l : x ∉ l → occ x l = 0%nat.
Proof.
  induction l as [|y l IH]; [done|]. rewrite not_elem_of_cons. intros [Hn Hl].
  by rewrite occ_cons, decide_False, IH.
Qed.

Lemma occ_NoDup x l : NoDup l → (occ x l ≤ 1)%nat.
Proof.
  induction 1 as [|y l Hn _ IH]; [rewrite occ_nil; lia|]. rewrite occ_cons. case_decide as E; [|lia].
  subst y. rewrite occ_not_elem by done. lia.
Qed.
Lemma occ_pos x l : (1 ≤ occ x l)%nat → x ∈ l.
Proof.
  intros Ho. destruct (decide (x ∈ l)); [done|]. rewrite occ_not_elem in Ho by done. lia.
Qed.

Lemma occ_perm (l1 l2 : list nat) : l1 ≡ₚ l2 ↔ ∀ x, occ x l1 = occ x l2.
Proof.
  split.
  - induction 1 as [|x l l' _ IH|x y l|l l' l'' _ IH1 _ IH2]; intros z; [done|..].
    + rewrite !occ_cons. by rewrite IH.
    + rewrite !occ_cons. lia.
    + by rewrite IH1.
  - revert l2. induction l1 as [|x l1 IH]; intros l2 H.
    + destruct l2 as [|y l2]; [done|]. specialize (H y). rewrite occ_nil, occ_cons, decide_True in H by done. lia.
    + assert (x ∈ l2) as Hx.
      { destruct (decide (x ∈ l2)) as [|Hn]; [done|]. exfalso. specialize (H x). rewrite occ_cons, decide_True in H by done.
        rewrite (occ_not_elem x l2 Hn) in H. lia. }
      apply list_elem_of_split in Hx as (k1 & k2 & ->). rewrite <- Permutation_middle. f_equiv. apply IH.
      intros z. specialize (H z). rewrite occ_cons, !occ_app, occ_cons in H. rewrite occ_app. lia.
Qed.
#[global] Instance occ_proper x : Proper ((≡ₚ) ==> (=)) (occ x).
Proof. intros l1 l2 Hl. by apply occ_perm. Qed.
