(* ===== verification/ThreadPool.v ===== *)
(** * The thread pool

    [basic_thread_pool]: workers that run the handlers of an [io_context]
    until it is out of work, a work guard that keeps it from that, and [stop],
    which lets the guard go and joins the workers.  The [io_context] has its
    documented behaviour: a handler that was posted is run by one thread in
    [run], the context stops when it is out of work, and then every [run]
    returns.  An exception of a handler leaves [run]. *)
From S2P Require Import Prelude.
Local Open Scope nat_scope.

Module ThreadPool.
Section pool.
(** A task, the tasks it posts to the same pool and whether it throws. *)
Context {T : Type} (posts : T → list T) (throws : T → bool).

(** A worker at the test of its loop, when it starts and after the exception of
    a task; in [run]; running a task that still has to post [rest]; at its end. *)
Inductive worker : Type :=
| Testing
| Waiting
| Running (t : T) (rest : list T)
| Exited.

Inductive stop_state : Type := NotCalled | Joining | Done.
#[global] Instance stop_state_eq_dec : EqDecision stop_state.
Proof. solve_decision. Defined.

(** [accepted] and [refused] are the tasks posted before and after the context
    stopped, [ran] those that ended, in order. *)
Record pool : Type := mk {
  m_thread_num : nat;
  queue : list T;
  m_executor_work_guard : bool;
  stopped : bool;
  m_thread_group : list worker;
  m_join_threads : stop_state;
  accepted : list T;
  refused : list T;
  ran : list T
}.

Definition create (thread_num : nat) : pool :=
  mk thread_num [] true false (replicate thread_num Testing) NotCalled [] [] [].

Definition is_stopped (p : pool) : bool := stopped p.
Definition get_num (p : pool) : nat := m_thread_num p.

Definition post (t : T) (p : pool) : pool :=
  mk (m_thread_num p) (queue p ++ [t]) (m_executor_work_guard p) (stopped p) (m_thread_group p) (m_join_threads p)
     (if stopped p then accepted p else accepted p ++ [t])
     (if stopped p then refused p ++ [t] else refused p) (ran p).

Definition running (w : worker) : list T := match w with Running t _ => [t] | _ => [] end.
(** Work that is outstanding: the guard, and handlers in the queue or running. *)
Definition has_work (p : pool) : bool :=
  m_executor_work_guard p || negb (bool_decide (queue p = []))
  || negb (bool_decide (concat (running <$> m_thread_group p) = [])).
(** The context stops when it is out of work. *)
Definition check_work (p : pool) : pool :=
  mk (m_thread_num p) (queue p) (m_executor_work_guard p) (stopped p || negb (has_work p)) (m_thread_group p)
     (m_join_threads p) (accepted p) (refused p) (ran p).

Definition set_worker (i : nat) (w : worker) (p : pool) : pool :=
  mk (m_thread_num p) (queue p) (m_executor_work_guard p) (stopped p) (<[i := w]> (m_thread_group p))
     (m_join_threads p) (accepted p) (refused p) (ran p).
Definition with_queue (q : list T) (p : pool) : pool :=
  mk (m_thread_num p) q (m_executor_work_guard p) (stopped p) (m_thread_group p) (m_join_threads p)
     (accepted p) (refused p) (ran p).
Definition ended (t : T) (p : pool) : pool :=
  mk (m_thread_num p) (queue p) (m_executor_work_guard p) (stopped p) (m_thread_group p) (m_join_threads p)
     (accepted p) (refused p) (ran p ++ [t]).

(** [stop] until it joins the threads, and after. *)
Definition stop_begin (p : pool) : pool :=
  check_work (mk (m_thread_num p) (queue p) false (stopped p) (m_thread_group p) Joining
                 (accepted p) (refused p) (ran p)).
Definition stop_end (p : pool) : pool :=
  mk (m_thread_num p) (queue p) (m_executor_work_guard p) true (m_thread_group p) Done
     (accepted p) (refused p) (ran p).

(** What a worker does next; [run] may take any task of the queue. *)
Inductive worker_step (i : nat) (p : pool) : pool → Prop :=
| run_take q1 t q2 :
    m_thread_group p !! i = Some Waiting → stopped p = false → queue p = q1 ++ t :: q2 →
    worker_step i p (set_worker i (Running t (posts t)) (with_queue (q1 ++ q2) p))
| run_return :
    m_thread_group p !! i = Some Waiting → stopped p = true → worker_step i p (set_worker i Exited p)
| run_post t x rest :
    m_thread_group p !! i = Some (Running t (x :: rest)) →
    worker_step i p (post x (set_worker i (Running t rest) p))
| run_end t :
    m_thread_group p !! i = Some (Running t []) →
    worker_step i p (check_work (set_worker i (if throws t then Testing else Waiting) (ended t p)))
| loop_test :
    m_thread_group p !! i = Some Testing →
    worker_step i p (set_worker i (if stopped p then Exited else Waiting) p).

Inductive step (p : pool) : pool → Prop :=
| step_post t : step p (post t p)
| step_worker i p' : worker_step i p p' → step p p'
| step_stop : m_join_threads p = NotCalled → step p (stop_begin p)
| step_joined : m_join_threads p = Joining → (∀ w, w ∈ m_thread_group p → w = Exited) → step p (stop_end p).
End pool.
Arguments worker : clear implicits.
Arguments pool : clear implicits.
End ThreadPool.
Import ThreadPool.

(** ** Correctness *)
Section facts.
Context {T : Type} (posts : T → list T) (throws : T → bool).
Implicit Types (p : pool T).

Definition busy p : list T := concat (running <$> m_thread_group p).

(** A context that has stopped has only refused tasks in its queue and runs
    none; workers leave only a stopped context. *)
Record pool_pre p : Prop := {
  pi_tasks : accepted p ++ refused p ≡ₚ queue p ++ busy p ++ ran p;
  pi_stopped : stopped p = true → 0 < m_thread_num p → busy p = [] ∧ queue p ≡ₚ refused p;
  pi_open : stopped p = false → refused p = [] ∧ Exited ∉ m_thread_group p;
  pi_guard : m_executor_work_guard p = bool_decide (m_join_threads p = NotCalled);
  pi_called : m_join_threads p = NotCalled → stopped p = false;
  pi_num : length (m_thread_group p) = m_thread_num p;
  pi_done : m_join_threads p = Done → stopped p = true
}.
(** Between two steps a context that has not stopped has work. *)
Definition pool_inv p : Prop := pool_pre p ∧ (stopped p = false → has_work p = true).

Lemma busy_insert (l : list (worker T)) i w w' :
  l !! i = Some w →
  concat (running <$> <[i := w']> l) ++ running w ≡ₚ concat (running <$> l) ++ running w'.
Proof.
  revert i; induction l as [|x l IH]; intros [|i] H; simplify_eq/=.
  - solve_Permutation.
  - rewrite <-!app_assoc. by apply Permutation_app_head, IH.
Qed.

Lemma busy_running (l : list (worker T)) i t rest :
  l !! i = Some (Running t rest) → t ∈ concat (running <$> l).
Proof.
  revert i; induction l as [|x l IH]; intros [|i] H; simplify_eq/=; [by left|].
  apply elem_of_app; right. by eapply IH.
Qed.

Lemma worker_num p i w : pool_pre p → m_thread_group p !! i = Some w → 0 < m_thread_num p.
Proof. intros HI H%lookup_lt_Some. rewrite <-(pi_num _ HI). lia. Qed.

Lemma running_open p i t rest :
  pool_pre p → m_thread_group p !! i = Some (Running t rest) → stopped p = false.
Proof.
  intros HI H. destruct (stopped p) eqn:E; [exfalso|done].
  destruct (pi_stopped _ HI E (worker_num _ _ _ HI H)) as [Hb _].
  apply busy_running in H. unfold busy in Hb. rewrite Hb in H. set_solver.
Qed.

Lemma check_work_id p : has_work p = true → check_work p = p.
Proof. intros H. destruct p; unfold check_work; rewrite H; simpl. by rewrite orb_false_r. Qed.

Lemma has_work_iff p :
  has_work p = true ↔ m_executor_work_guard p = true ∨ queue p ≠ [] ∨ busy p ≠ [].
Proof.
  unfold has_work. rewrite !orb_true_iff, !negb_true_iff, !bool_decide_eq_false. tauto.
Qed.

Lemma no_work p :
  has_work p = false → m_executor_work_guard p = false ∧ queue p = [] ∧ busy p = [].
Proof.
  unfold has_work. rewrite !orb_false_iff, !negb_false_iff, !bool_decide_eq_true. tauto.
Qed.

Lemma check_work_inv p : pool_pre p → pool_inv (check_work p).
Proof.
  intros [Ht Hs Ho Hg Hc Hn Hd]. destruct (has_work p) eqn:E.
  { rewrite check_work_id by done. by split. }
  destruct (no_work _ E) as (Eg & Eq & Eb). unfold check_work. rewrite E. simpl.
  rewrite orb_true_r. split; [constructor|]; simpl; try done.
  - intros _ Hpos. split; [done|]. destruct (stopped p) eqn:Es; [by apply Hs|].
    destruct (Ho eq_refl) as [Hr _]. by rewrite Eq, Hr.
  - intros HN. rewrite Hg, HN in Eg. by rewrite bool_decide_eq_true_2 in Eg.
Qed.

(** A worker of a running context changes, and tasks move to it or from it. *)
Lemma move_pre p i w w' q acc a r :
  pool_pre p → a = accepted p ++ acc → m_thread_group p !! i = Some w → stopped p = false → w' ≠ Exited →
  (queue p ++ running w ++ ran p ++ acc ≡ₚ q ++ running w' ++ r) →
  pool_pre (mk (m_thread_num p) q (m_executor_work_guard p) (stopped p) (<[i := w']> (m_thread_group p))
              (m_join_threads p) a (refused p) r).
Proof.
  intros [Ht Hs Ho Hg Hc Hn Hd] -> Hi Es Hw Hp. constructor; simpl; try done.
  - pose proof (busy_insert _ _ _ w' Hi) as Hb. unfold busy in *; simpl.
    set (b := concat (running <$> m_thread_group p)) in *.
    set (b' := concat (running <$> <[i:=w']> (m_thread_group p))) in *.
    apply (inj (.++ running w)).
    trans ((accepted p ++ refused p) ++ acc ++ running w); [solve_Permutation|].
    rewrite Ht. trans (b ++ (queue p ++ running w ++ ran p ++ acc)); [solve_Permutation|].
    rewrite Hp. trans ((b ++ running w') ++ q ++ r); [solve_Permutation|].
    rewrite <-Hb. solve_Permutation.
  - by rewrite Es.
  - intros _. destruct (Ho Es) as [? Hex]. split; [done|].
    intros [j Hj]%list_elem_of_lookup. apply list_lookup_insert_Some in Hj as [(? & ? & ?)|[? Hj]]; [done|].
    apply Hex. by eapply list_elem_of_lookup_2.
  - by rewrite length_insert.
Qed.

Lemma post_inv t p : pool_inv p → pool_inv (post t p).
Proof.
  intros [[Ht Hs Ho Hg Hc Hn Hd] Hw]. unfold post. split; [constructor|]; simpl; try done.
  - unfold busy in *; simpl. destruct (stopped p); rewrite app_assoc in Ht |- *;
      [rewrite app_assoc|]; [trans ((accepted p ++ refused p) ++ [t])|trans ((accepted p ++ refused p) ++ [t])];
      try solve_Permutation; rewrite Ht; solve_Permutation.
  - intros Es Hpos. destruct (Hs Es Hpos) as [Hb Hq]. rewrite Es. split; [done|]. by rewrite Hq.
  - intros Es. rewrite Es. by apply Ho.
  - intros _. apply has_work_iff. right; left. simpl. by destruct (queue p).
Qed.

Lemma exit_inv p i w :
  pool_inv p → m_thread_group p !! i = Some w → stopped p = true → running w = [] →
  pool_inv (set_worker i Exited p).
Proof.
  intros [[Ht Hs Ho Hg Hc Hn Hd] _] Hi Es Hw. split; [|simpl; by rewrite Es].
  pose proof (busy_insert _ _ _ Exited Hi) as Hb. rewrite Hw in Hb. simpl in Hb. rewrite !app_nil_r in Hb.
  constructor; unfold busy in *; simpl; try done.
  - by rewrite Hb.
  - intros _ Hpos. destruct (Hs Es Hpos) as [Hb' Hq]. split; [|done].
    rewrite Hb' in Hb. by apply Permutation_nil_r.
  - by rewrite Es.
  - by rewrite length_insert.
Qed.

(** What a worker holds shows in the work of the context. *)
Lemma busy_set p i w w' :
  m_thread_group p !! i = Some w → running w = [] → running w' = [] →
  busy (set_worker i w' p) ≡ₚ busy p.
Proof.
  intros Hi Hw Hw'. pose proof (busy_insert _ _ _ w' Hi) as Hb. rewrite Hw, Hw', !app_nil_r in Hb. exact Hb.
Qed.

Lemma has_work_set p i w w' :
  m_thread_group p !! i = Some w → running w = [] → running w' = [] →
  has_work p = true → has_work (set_worker i w' p) = true.
Proof.
  intros Hi Hw Hw' Hh. pose proof (busy_set p i w w' Hi Hw Hw') as Hb.
  apply has_work_iff in Hh as [?|[?|Hn]]; apply has_work_iff; [by left|right; by left|right; right].
  intros He. rewrite He in Hb. by apply Permutation_nil_l in Hb.
Qed.

Lemma worker_inv i p p' : pool_inv p → worker_step posts throws i p p' → pool_inv p'.
Proof.
  intros HI. pose proof HI as [Hpre Hw]. destruct 1 as [q1 t q2 Hi Es Eq|Hi Es|t x rest Hi|t Hi|Hi].
  - split.
    + apply (move_pre p i Waiting _ _ []); rewrite ?app_nil_r; try done. rewrite Eq. simpl. solve_Permutation.
    + intros _. apply has_work_iff. do 2 right. unfold busy; simpl. intros Hb.
      assert (Hl : <[i := Running t (posts t)]> (m_thread_group p) !! i = Some (Running t (posts t)))
        by (apply list_lookup_insert_eq; by eapply lookup_lt_Some).
      apply busy_running in Hl. rewrite Hb in Hl. set_solver.
  - by eapply exit_inv.
  - pose proof (running_open _ _ _ _ Hpre Hi) as Es. split.
    + unfold post; simpl. rewrite Es. rewrite <-Es at 1.
      apply (move_pre p i (Running t (x :: rest)) _ _ [x]); try done. simpl. solve_Permutation.
    + intros _. apply has_work_iff. right; left. simpl. by destruct (queue p).
  - pose proof (running_open _ _ _ _ Hpre Hi) as Es. apply check_work_inv.
    apply (move_pre p i (Running t []) _ _ []); rewrite ?app_nil_r; try done; [by destruct (throws t)|].
    destruct (throws t); simpl; solve_Permutation.
  - destruct (stopped p) eqn:Es; [by eapply exit_inv|].
    split; [|intros _; eapply has_work_set; eauto].
    apply (move_pre p i Testing _ _ []); rewrite ?app_nil_r; done.
Qed.

Lemma create_inv n : pool_inv (create n).
Proof.
  split; [constructor|]; simpl; try done.
  - unfold busy; simpl. by induction n.
  - intros _. split; [done|]. intros [_ H]%elem_of_replicate_inv || (intros H; by apply elem_of_replicate_inv in H).
  - by rewrite length_replicate.
Qed.

Lemma all_exited_busy (l : list (worker T)) :
  (∀ w, w ∈ l → w = Exited) → concat (running <$> l) = [].
Proof.
  induction l as [|w l IH]; intros H; [done|]. simpl.
  rewrite (H w) by set_solver. apply IH. set_solver.
Qed.

Lemma pool_step_inv p p' : pool_inv p → step posts throws p p' → pool_inv p'.
Proof.
  intros HI. destruct 1 as [t|i p' Hs|Hj|Hj Hex].
  - by apply post_inv.
  - by eapply worker_inv.
  - destruct HI as [[Ht Hs Ho Hg Hc Hn Hd] _]. apply check_work_inv.
    constructor; simpl; try done.
  - destruct HI as [[Ht Hs Ho Hg Hc Hn Hd] _].
    assert (Es : 0 < m_thread_num p → stopped p = true).
    { intros Hpos. destruct (stopped p) eqn:Es; [done|]. destruct (Ho eq_refl) as [_ Hno].
      destruct (m_thread_group p) as [|w l] eqn:El; simpl in *; [lia|].
      exfalso. apply Hno. rewrite (Hex w); set_solver. }
    split; [constructor|]; simpl; try done; [|by rewrite Hg, Hj].
    intros _ Hpos. apply Hs; auto.
Qed.

Lemma pool_reachable_inv n p : rtc (step posts throws) (create n) p → pool_inv p.
Proof.
  intros H. remember (create n) as p0 eqn:E. assert (H0 : pool_inv p0) by (subst; apply create_inv).
  clear E. induction H; eauto using pool_step_inv.
Qed.

Lemma exited_or_not (l : list (worker T)) :
  (∀ w, w ∈ l → w = Exited) ∨ ∃ i w, l !! i = Some w ∧ w ≠ Exited.
Proof.
  induction l as [|w l [IH|(i & w' & Hi & Hne)]]; [left; set_solver| |right; by exists (S i), w'].
  destruct w; [by right; exists 0; eexists..|]. left. set_solver.
Qed.

(** While [stop] waits for the workers, a worker can go on or all have left. *)
Lemma joining_goes_on p :
  pool_inv p → m_join_threads p = Joining →
  (∀ w, w ∈ m_thread_group p → w = Exited) ∨ ∃ i p', worker_step posts throws i p p'.
Proof.
  intros [Hpre Hw] Hj.
  destruct (exited_or_not (m_thread_group p)) as [Hf|(i & w & Hi & Hne)]; [by left|right].
  destruct w as [| |t [|x rest]|]; [..|done].
  1,3,4: exists i; eexists; econstructor; eassumption.
  destruct (stopped p) eqn:Es; [by exists i; eexists; constructor|].
  specialize (Hw eq_refl). destruct (queue p) as [|t q] eqn:Eq.
  2:{ exists i. eexists. eapply (run_take _ _ _ _ []); eauto. }
  destruct (busy p) as [|t b] eqn:Eb.
  { unfold has_work, busy in *. rewrite (pi_guard _ Hpre), Hj, Eq, Eb in Hw. done. }
  assert (Hb : ∃ j t' r, m_thread_group p !! j = Some (Running t' r)).
  { unfold busy in Eb. clear -Eb. induction (m_thread_group p) as [|w l IH]; [done|].
    destruct w; simpl in Eb; try (destruct (IH Eb) as (j & t' & r & H); by exists (S j), t', r).
    by exists 0, t0, rest. }
  destruct Hb as (j & t' & [|x r] & Hr); exists j; eexists; econstructor; eassumption.
Qed.

(** When [stop] has returned nothing that was accepted is left. *)
Lemma pool_num n p : rtc (step posts throws) (create n) p → m_thread_num p = n.
Proof.
  intros Hr. remember (create n) as p0 eqn:E. assert (H0 : m_thread_num p0 = n) by (by subst).
  clear E. induction Hr as [|a b c Hs _ IH]; [done|]. apply IH. destruct Hs as [|? ? []| |]; done.
Qed.
Lemma pool_done_ran n p :
  rtc (step posts throws) (create n) p → 0 < n → m_join_threads p = Done → stopped p = true ∧ ran p ≡ₚ accepted p.
Proof.
  intros Hr Hn Hd. pose proof (pool_reachable_inv _ _ Hr) as [Hpre _]. pose proof (pool_num _ _ Hr) as Hnum.
  pose proof (pi_done _ Hpre Hd) as Es. split; [done|].
  destruct (pi_stopped _ Hpre Es) as [Hb Hq]; [by rewrite Hnum|].
  pose proof (pi_tasks _ Hpre) as Ht. rewrite Hb, Hq in Ht. simpl in Ht.
  apply (inj (.++ refused p)). rewrite Ht. solve_Permutation.
Qed.

(** ** [stop] comes to its end

    Every task leads to finitely many generations of tasks: [generation] bounds
    how many are still to come after it.  [cost] is the number of steps a
    waiting task leads to, the tasks that it posts included. *)
Section termination.
Context (generation : T → nat) (generations : ∀ t x, x ∈ posts t → generation x < generation t).

Fixpoint cost_at (n : nat) (t : T) : nat :=
  match n with
  | 0 => 3
  | S n => 3 + list_sum ((λ x, S (cost_at n x)) <$> posts t)
  end.
Definition cost (t : T) : nat := cost_at (generation t) t.

Lemma cost_at_enough n t : generation t ≤ n → cost_at n t = cost t.
Proof using generations.
  unfold cost. remember (generation t) as m eqn:Em. revert n t Em. induction m as [m IH] using lt_wf_ind. intros n t -> Hn.
  assert (∀ k, posts t = [] → cost_at k t = 3) as Hnil by (intros [|k] E; simpl; [|rewrite E]; done).
  destruct n as [|n]; [by replace (generation t) with 0 by lia|].
  destruct (generation t) as [|g] eqn:Eg.
  { rewrite (Hnil (S n)); [done|]. destruct (posts t) as [|x l] eqn:E; [done|].
    pose proof (generations t x) as Hx. rewrite E in Hx. specialize (Hx ltac:(left)). lia. }
  simpl. do 4 f_equal. apply list_fmap_ext. intros i x Hx%list_elem_of_lookup_2.
  pose proof (generations t x Hx). f_equal. rewrite (IH (generation x) ltac:(lia) n x), (IH (generation x) ltac:(lia) g x) by lia. done.
Qed.
Lemma cost_eq t : cost t = 3 + list_sum ((λ x, S (cost x)) <$> posts t).
Proof using generations.
  rewrite <- (cost_at_enough (S (generation t)) t) by lia. simpl. do 4 f_equal. apply list_fmap_ext.
  intros i x Hx%list_elem_of_lookup_2. rewrite cost_at_enough; [done|]. pose proof (generations t x Hx). lia.
Qed.

(** Steps until the worker is out of the pool or waits, and the work of all. *)
Definition worker_work (w : worker T) : nat :=
  match w with
  | Testing => 2
  | Waiting => 1
  | Running _ rest => 3 + list_sum ((λ x, S (cost x)) <$> rest)
  | Exited => 0
  end.
Definition work p : nat :=
  list_sum (cost <$> queue p) + list_sum (worker_work <$> m_thread_group p) +
  (if decide (m_join_threads p = Done) then 0 else 1).

Lemma work_insert (l : list (worker T)) i w w' :
  l !! i = Some w →
  list_sum (worker_work <$> <[i := w']> l) + worker_work w = list_sum (worker_work <$> l) + worker_work w'.
Proof.
  revert i; induction l as [|x l IH]; intros [|i] H; simplify_eq/=; [lia|]. specialize (IH _ H). lia.
Qed.

Lemma worker_step_work i p p' : worker_step posts throws i p p' → work p' < work p.
Proof using generations.
  destruct 1 as [q1 t q2 Hi Es Eq|Hi Es|t x rest Hi|t Hi|Hi]; unfold work; simpl.
  - pose proof (work_insert _ _ _ (Running t (posts t)) Hi) as Hw. simpl in Hw. rewrite Eq, !fmap_app, !list_sum_app. simpl.
    rewrite (cost_eq t). simpl in *. change (list_fmap T nat cost q2) with (cost <$> q2). lia.
  - pose proof (work_insert _ _ _ Exited Hi) as Hw. simpl in Hw. lia.
  - pose proof (work_insert _ _ _ (Running t rest) Hi) as Hw. simpl in Hw. change (list_fmap T nat (λ x, S (cost x)) rest) with ((λ x, S (cost x)) <$> rest) in Hw. rewrite fmap_app, list_sum_app. simpl. lia.
  - pose proof (work_insert _ _ _ (if throws t then Testing else Waiting) Hi) as Hw. destruct (throws t); simpl in Hw; lia.
  - pose proof (work_insert _ _ _ (if stopped p then Exited else Waiting) Hi) as Hw. destruct (stopped p); simpl in Hw; lia.
Qed.
End termination.

(** What the pool does by itself while [stop] waits: a step of a worker, or the
    return of [stop] once all workers have left; and a run of such steps with
    the tasks that other threads post meanwhile. *)
Inductive own_step p : pool T → Prop :=
| own_worker i p' : worker_step posts throws i p p' → own_step p p'
| own_joined : m_join_threads p = Joining → (∀ w, w ∈ m_thread_group p → w = Exited) → own_step p (stop_end p).
Inductive stop_run : nat → list T → pool T → pool T → Prop :=
| run_end_here p : stop_run 0 [] p p
| run_own n ts p p' p'' : own_step p p' → stop_run n ts p' p'' → stop_run (S n) ts p p''
| run_posted n ts t p p'' : stop_run n ts (post t p) p'' → stop_run n (t :: ts) p p''.

Lemma own_step_step p p' : own_step p p' → step posts throws p p'.
Proof. destruct 1; by econstructor. Qed.
Lemma stop_run_steps n ts p p' : stop_run n ts p p' → rtc (step posts throws) p p'.
Proof.
  induction 1 as [|n ts p p' p'' Hs _ IH|n ts t p p'' _ IH]; [done| |].
  - eapply rtc_l; [by apply own_step_step|done].
  - eapply rtc_l; [apply step_post|done].
Qed.
Lemma stop_run_called n ts p p' : stop_run n ts p p' → m_join_threads p ≠ NotCalled → m_join_threads p' ≠ NotCalled.
Proof.
  induction 1 as [|n ts p p' p'' Hs _ IH|n ts t p p'' _ IH]; [done| |]; intros Hj; apply IH; [|done].
  destruct Hs as [i p' []|]; done.
Qed.

Lemma stop_run_bounded generation n ts p p' :
  (∀ t x, x ∈ posts t → generation x < generation t) → stop_run n ts p p' →
  n ≤ work generation p + list_sum (cost generation <$> ts).
Proof.
  intros Hg. induction 1 as [|n ts p p' p'' Hs _ IH|n ts t p p'' _ IH]; [lia| |].
  - assert (work generation p' < work generation p); [|lia].
    destruct Hs as [i p' Hs|Hj Hex]; [by eapply worker_step_work|]. unfold work. simpl. rewrite Hj. simpl. lia.
  - unfold work in *. rewrite fmap_cons. simpl in *. rewrite fmap_app, list_sum_app in IH. simpl in IH. lia.
Qed.

(** Where nothing goes on all workers have left and [stop] has returned. *)
Lemma stop_rests n p :
  rtc (step posts throws) (create n) p → 0 < n → m_join_threads p ≠ NotCalled → (∀ p', ¬ own_step p p') →
  m_join_threads p = Done ∧ (∀ w, w ∈ m_thread_group p → w = Exited) ∧ ran p ≡ₚ accepted p.
Proof.
  intros Hr Hn Hj Hend. pose proof (pool_reachable_inv _ _ Hr) as HI.
  destruct (m_join_threads p) eqn:E; [done| |].
  - destruct (joining_goes_on p HI E) as [Hex|(i & p' & Hs)].
    + by destruct (Hend (stop_end p)); apply own_joined.
    + by destruct (Hend p'); eapply own_worker.
  - split; [done|]. split; [|by eapply pool_done_ran].
    intros w [i Hi]%list_elem_of_lookup. pose proof (pool_done_ran _ _ Hr Hn E) as [Es _].
    destruct w as [| |t [|x rest]|]; [..|done]; exfalso.
    + by eapply (Hend _), own_worker, loop_test.
    + by eapply (Hend _), own_worker, run_return.
    + by eapply (Hend _), own_worker, run_end.
    + by eapply (Hend _), own_worker, run_post.
Qed.

(** C19: Workers never leave the pool before [stop] is called, whatever the
    tasks throw, and every task is accepted.  While [stop] joins the workers, the
    pool comes to its end by itself: when tasks lead to finitely many
    generations of tasks, the steps of workers are bounded by the work there is
    and the work other threads post meanwhile, so that it can go on for ever
    in no way; and where nothing goes on, [stop] has returned.  Then every task
    that was posted before the context stopped, tasks posted by tasks included,
    has run exactly once. *)
Theorem pool_runs_every_task n p :
  rtc (step posts throws) (create n) p → 0 < n →
  (m_join_threads p = NotCalled →
     is_stopped p = false ∧ refused p = [] ∧ Exited ∉ m_thread_group p) ∧
  (m_join_threads p = Joining →
     (∀ generation, (∀ t x, x ∈ posts t → generation x < generation t) →
        ∀ k ts p', stop_run k ts p p' → k ≤ work generation p + list_sum (cost generation <$> ts)) ∧
     ∀ k ts p', stop_run k ts p p' → (∀ p'', ¬ own_step p' p'') →
        m_join_threads p' = Done ∧ (∀ w, w ∈ m_thread_group p' → w = Exited) ∧ ran p' ≡ₚ accepted p') ∧
  (m_join_threads p = Done → is_stopped p = true ∧ ran p ≡ₚ accepted p).
Proof.
  intros Hr Hn. pose proof (pool_reachable_inv _ _ Hr) as HI. pose proof HI as [Hpre _].
  split; [|split].
  - intros Hc. pose proof (pi_called _ Hpre Hc) as Es. split; [done|]. by apply (pi_open _ Hpre).
  - intros Hj. split; [intros; by eapply stop_run_bounded|]. intros k ts p' Hrun Hend.
    assert (rtc (step posts throws) (create n) p') as Hr' by (etrans; [done|by eapply stop_run_steps]).
    eapply stop_rests; [done|done| |done]. eapply stop_run_called; [done|by rewrite Hj].
  - by eapply pool_done_ran.
Qed.
End facts.

(** One worker; task 5 posts task 6, and both throw. *)
Definition demo_posts (t : nat) : list nat := if t =? 5 then [6] else [].
Definition demo_final : pool nat :=
  mk 1 [] false true [Exited] Done [5; 6] [] [5; 6].

Lemma demo_run : rtc (step demo_posts (λ _, true)) (create 1) demo_final.
Proof.
  eapply rtc_l; [by apply (step_post _ _ _ 5)|].
  eapply rtc_l; [eapply (step_worker _ _ _ 0), loop_test; reflexivity|].
  eapply rtc_l; [eapply (step_worker _ _ _ 0), (run_take _ _ _ _ [] 5 []); reflexivity|].
  eapply rtc_l; [eapply (step_worker _ _ _ 0), (run_post _ _ _ _ 5 6 []); reflexivity|].
  eapply rtc_l; [eapply (step_worker _ _ _ 0), (run_end _ _ _ _ 5); reflexivity|].
  eapply rtc_l; [by apply step_stop|].
  eapply rtc_l; [eapply (step_worker _ _ _ 0), loop_test; reflexivity|].
  eapply rtc_l; [eapply (step_worker _ _ _ 0), (run_take _ _ _ _ [] 6 []); reflexivity|].
  eapply rtc_l; [eapply (step_worker _ _ _ 0), (run_end _ _ _ _ 6); reflexivity|].
  eapply rtc_l; [eapply (step_worker _ _ _ 0), loop_test; reflexivity|].
  eapply rtc_l; [apply step_joined; [reflexivity|intros w; vm_compute; set_solver]|].
  reflexivity.
Qed.

(** [stop] was called while task 5 waits: it leads to one more generation. *)
Definition demo_joining : pool nat := stop_begin (post 5 (create 1)).
Definition demo_generation (t : nat) : nat := if t =? 5 then 1 else 0.
Lemma demo_joining_reachable : rtc (step demo_posts (λ _, true)) (create 1) demo_joining.
Proof.
  eapply rtc_l; [by apply (step_post _ _ _ 5)|]. eapply rtc_l; [by apply step_stop|]. reflexivity.
Qed.
Lemma demo_generations t x : x ∈ demo_posts t → demo_generation x < demo_generation t.
Proof.
  unfold demo_posts, demo_generation. destruct (Nat.eqb_spec t 5); [|by intros ?%elem_of_nil].
  intros ->%list_elem_of_singleton. simpl. lia.
Qed.

Lemma pool_runs_every_task_witness :
  (m_join_threads demo_final = Done ∧ is_stopped demo_final = true ∧ ran demo_final ≡ₚ accepted demo_final) ∧
  m_join_threads demo_joining = Joining ∧
  ∀ k p', stop_run demo_posts (λ _, true) k [] demo_joining p' → k ≤ 10.
Proof.
  split; [split; [reflexivity|]|split; [reflexivity|]].
  - apply (pool_runs_every_task demo_posts (λ _, true) 1 demo_final demo_run); [lia|reflexivity].
  - intros k p' Hk.
    apply (proj1 (proj1 (proj2 (pool_runs_every_task demo_posts (λ _, true) 1 demo_joining demo_joining_reachable
             ltac:(lia))) eq_refl) demo_generation demo_generations k [] p' Hk).
Defined.
