(* ===== verification/ValueLocker.v ===== *)
(** * Values behind a mutex

    [value_locker] gives a [locked_value], a reference to its value that keeps
    the mutex until it is destroyed: what a thread does through it is one
    section, which the other models take as one step. *)
From S2P Require Import Prelude.

Module ValueLocker.
Section locker.
Context {T : Type}.

(** An access through [operator->] or [operator*]: it may read and write. *)
Abbreviation access := (T → T).

(** A thread between its [lock] calls, with the accesses of its sections to
    come, or with a [locked_value] and the accesses left in the section
    [all]. *)
Inductive thread : Type :=
| Outside (sections : list (list access))
| Inside (all left : list access) (sections : list (list access)).

Record value_locker : Type := mk {
  m_mtx : option nat;
  m_val : T;
  threads : list thread
}.
Definition create (v : T) (ts : list (list (list access))) : value_locker := mk None v (Outside <$> ts).

Definition goto (i : nat) (t : thread) (l : value_locker) : value_locker :=
  mk (m_mtx l) (m_val l) (<[i := t]> (threads l)).
(** [lock], an access, and [~locked_value]. *)
Definition lock (i : nat) (l : value_locker) : option value_locker :=
  match threads l !! i, m_mtx l with
  | Some (Outside (s :: ss)), None => Some (goto i (Inside s s ss) (mk (Some i) (m_val l) (threads l)))
  | _, _ => None
  end.
Definition use (i : nat) (l : value_locker) : option value_locker :=
  match threads l !! i with
  | Some (Inside s (f :: fs) ss) => Some (goto i (Inside s fs ss) (mk (m_mtx l) (f (m_val l)) (threads l)))
  | _ => None
  end.
Definition unlock (i : nat) (l : value_locker) : option value_locker :=
  match threads l !! i with
  | Some (Inside _ [] ss) => Some (goto i (Outside ss) (mk None (m_val l) (threads l)))
  | _ => None
  end.

(** A step; the third argument is the section that it ends. *)
Inductive step (l : value_locker) : option (nat * list access) → value_locker → Prop :=
| step_lock i l' : lock i l = Some l' → step l None l'
| step_use i l' : use i l = Some l' → step l None l'
| step_unlock i s ss l' :
    threads l !! i = Some (Inside s [] ss) → unlock i l = Some l' → step l (Some (i, s)) l'.

(** A run with the sections that ended, in order. *)
Inductive run : value_locker → list (nat * list access) → value_locker → Prop :=
| run_nil l : run l [] l
| run_cons l o l1 h l2 : step l o l1 → run l1 h l2 → run l (option_list o ++ h) l2.
End locker.
Arguments thread : clear implicits.
Arguments value_locker : clear implicits.

(** ** The same threads with a section in one step *)
Section facts.
Context {T : Type}.
Implicit Types (l : value_locker T).

Definition perform (s : list (T → T)) (v : T) : T := foldl (λ v f, f v) v s.
Definition outside (t : thread T) : Prop := match t with Outside _ => True | _ => False end.

(** What is left of the sections of a thread. *)
Definition to_come (t : thread T) : list (list (T → T)) :=
  match t with Outside ss => ss | Inside s _ ss => s :: ss end.

(** Atomic sections: the value and the sections of each thread. *)
Inductive atomic : T * list (list (list (T → T))) → list (nat * list (T → T)) → T * list (list (list (T → T))) → Prop :=
| atomic_nil x : atomic x [] x
| atomic_cons v ts i s ss h x :
    ts !! i = Some (s :: ss) → atomic (perform s v, <[i := ss]> ts) h x → atomic (v, ts) ((i, s) :: h) x.

Lemma atomic_snoc x h v ts i s ss :
  atomic x h (v, ts) → ts !! i = Some (s :: ss) → atomic x (h ++ [(i, s)]) (perform s v, <[i := ss]> ts).
Proof.
  remember (v, ts) as y eqn:Ey. intros H Hi. revert Ey. induction H; intros ->; simpl; econstructor; eauto; constructor.
Qed.

(** The value when the section that is open began. *)
Definition represents v0 ts0 (h : list (nat * list (T → T))) l : Prop :=
  ∃ v, atomic (v0, ts0) h (v, to_come <$> threads l) ∧
  match m_mtx l with
  | None => m_val l = v ∧ ∀ i t, threads l !! i = Some t → outside t
  | Some i =>
      (∃ s done left ss, threads l !! i = Some (Inside s left ss) ∧ s = done ++ left ∧ m_val l = perform done v) ∧
      ∀ j t, j ≠ i → threads l !! j = Some t → outside t
  end.

Lemma represents_step v0 ts0 h l o l' :
  represents v0 ts0 h l → step l o l' → represents v0 ts0 (h ++ option_list o) l'.
Proof.
  intros (v & Ha & Hm) [i l1 Hs|i l1 Hs|i s ss l1 Ht Hs]; simpl; rewrite ?app_nil_r.
  - unfold lock in Hs. destruct (threads l !! i) as [[[|s ss]|]|] eqn:Ht; try done.
    destruct (m_mtx l); simplify_eq. destruct Hm as [Hv Ho]. exists v. split; simpl.
    + rewrite list_fmap_insert. simpl. rewrite list_insert_id; [done|]. by rewrite list_lookup_fmap, Ht.
    + split; [|intros j t Hne; rewrite list_lookup_insert_ne by done; by apply Ho].
      exists s, [], s, ss. by rewrite list_lookup_insert_eq by (by eapply lookup_lt_Some).
  - unfold use in Hs. destruct (threads l !! i) as [[|s [|f fs] ss]|] eqn:Ht; simplify_eq.
    destruct (m_mtx l) as [j|] eqn:Em; [|by destruct (proj2 Hm _ _ Ht)].
    destruct Hm as [(s' & dn & left & ss' & Hj & -> & Hv) Ho].
    destruct (decide (i = j)) as [->|Hne]; [|by destruct (Ho _ _ Hne Ht)].
    rewrite Hj in Ht. simplify_eq. exists v. split; simpl.
    + rewrite list_fmap_insert. simpl. rewrite list_insert_id; [done|]. by rewrite list_lookup_fmap, Hj.
    + split; [|intros k t Hk; rewrite list_lookup_insert_ne by done; by apply Ho].
      exists (dn ++ f :: fs), (dn ++ [f]), fs, ss.
      rewrite list_lookup_insert_eq by (by eapply lookup_lt_Some). rewrite <-app_assoc.
      split_and!; [done..|]. unfold perform in *. by rewrite foldl_app, Hv.
  - unfold unlock in Hs. rewrite Ht in Hs. simplify_eq.
    destruct (m_mtx l) as [j|] eqn:Em; [|by destruct (proj2 Hm _ _ Ht)].
    destruct Hm as [(s' & dn & left & ss' & Hj & -> & Hv) Ho].
    destruct (decide (i = j)) as [->|Hne]; [|by destruct (Ho _ _ Hne Ht)].
    rewrite Hj in Ht. simplify_eq. rewrite app_nil_r in *. exists (perform dn v). split; simpl.
    + rewrite list_fmap_insert. simpl. eapply atomic_snoc; [done|]. by rewrite list_lookup_fmap, Hj.
    + split; [done|]. intros k t [(-> & <- & _)|[Hk Hkt]]%list_lookup_insert_Some; [done|].
      apply (Ho k); [congruence|done].
Qed.

Lemma represents_run v0 ts0 h l h' l' :
  represents v0 ts0 h l → run l h' l' → represents v0 ts0 (h ++ h') l'.
Proof.
  intros Hp Hr. revert h Hp. induction Hr as [l|l o l1 h' l2 Hs Hr IH]; intros h Hp; [by rewrite app_nil_r|].
  rewrite app_assoc. by apply IH, (represents_step _ _ _ l).
Qed.

(** However the threads of a [value_locker] interleave their accesses, the
    sections that ended are a run in which each was one step, in the order in which
    they ended, and while no [locked_value] exists the value is the one of that
    run: no access of another thread falls into a section. *)
Theorem sections_are_atomic v ts h l :
  run (create v ts) h l →
  ∃ v', atomic (v, ts) h (v', to_come <$> threads l) ∧
    (m_mtx l = None → m_val l = v') ∧
    (∀ i j s a b s' a' b', threads l !! i = Some (Inside s a b) → threads l !! j = Some (Inside s' a' b') → i = j).
Proof.
  intros Hr. assert (represents v ts [] (create v ts)) as H0.
  { exists v. split; [|split; [done|]].
    - replace (to_come <$> threads (create v ts)) with ts; [constructor|].
      simpl. rewrite <-list_fmap_compose. symmetry. apply list_fmap_id.
    - simpl. intros i t. rewrite list_lookup_fmap. intros (x & _ & ->)%fmap_Some. done. }
  destruct (represents_run _ _ _ _ _ _ H0 Hr) as (v' & Ha & Hm). exists v'. simpl in Ha. split_and!; [done| |].
  - intros E. rewrite E in Hm. apply Hm.
  - intros i j s a b s' a' b' Hi Hj. destruct (m_mtx l) as [k|].
    + destruct Hm as [_ Ho]. destruct (decide (i = k)) as [->|Hne]; [|by destruct (Ho _ _ Hne Hi)].
      destruct (decide (j = k)) as [->|Hne]; [done|by destruct (Ho _ _ Hne Hj)].
    + destruct Hm as [_ Ho]. by destruct (Ho _ _ Hi).
Qed.
End facts.
End ValueLocker.
