(* ===== verification/FutureWait.v ===== *)
(** * Waiting for a future

    [wait], [wait_for] and [get] of a future controller block on its condition
    variable with two of its mutexes locked; a producer stores the result under
    one of the two and notifies.  Threads call these members of one controller;
    a step is an access to the shared state, so that every interleaving is a
    run.  That a controller has one producer is a theorem about the futures. *)
From S2P Require Import Prelude.

Module FutureWait.
(** What a member returned; an [fvalue] refers to the controller. *)
Inductive result : Type := RVoid | RBool (b : bool) | RFvalue | RThrow (e : exn).

Section wait.
Context {V : Type}.

(** [OpWaitFor immediate]: [timeout <= 0] or not. *)
Inductive op : Type :=
| OpWait | OpWaitFor (immediate : bool) | OpGet | OpSetValueState (v : V) | OpSetException (e : exn).

(** Where a thread is: the two locks of [ordered_lock], the test of the
    predicate, asleep; [expired] after a timeout; [LeaveWait] unlocks both. *)
Inductive pc : Type :=
| Idle
| LockVal (o : op) (expired : bool) | LockExc (o : op) (expired : bool) | Test (o : op) (expired : bool)
| Block (o : op) | Sleeping (o : op) | LeaveWait (o : op) (r : bool) | GetTest
| ValueLock (v : V) | ValueStore (v : V) | ValueLeave
| ExceptionLock (e : exn) | ExceptionStore (e : exn) | ExceptionLeave
| Notify | Returned (r : result).

(** [producing]: the producer was called. *)
Record controller : Type := mk {
  m_val_state : option V;
  m_exception : option exn;
  m_val_mtx : option nat;
  m_exception_mtx : option nat;
  threads : gmap nat pc;
  producing : bool
}.
Definition create : controller := mk None None None None ∅ false.

Definition pc_of (t : nat) (c : controller) : pc := default Idle (threads c !! t).
Definition goto (t : nat) (p : pc) (c : controller) : controller :=
  mk (m_val_state c) (m_exception c) (m_val_mtx c) (m_exception_mtx c) (<[t := p]> (threads c)) (producing c).
Definition with_val_mtx (m : option nat) (c : controller) : controller :=
  mk (m_val_state c) (m_exception c) m (m_exception_mtx c) (threads c) (producing c).
Definition with_exception_mtx (m : option nat) (c : controller) : controller :=
  mk (m_val_state c) (m_exception c) (m_val_mtx c) m (threads c) (producing c).

Definition is_ready (c : controller) : bool :=
  bool_decide (is_Some (m_val_state c)) || bool_decide (is_Some (m_exception c)).

Definition start (o : op) : pc :=
  match o with
  | OpSetValueState v => ValueLock v
  | OpSetException e => ExceptionLock e
  | _ => LockVal o false
  end.
Definition produces (o : op) : bool := match o with OpSetValueState _ | OpSetException _ => true | _ => false end.
Definition call (t : nat) (o : op) (c : controller) : option controller :=
  match pc_of t c with
  | Idle | Returned _ =>
      if produces o && producing c then None
      else Some (goto t (start o)
                   (mk (m_val_state c) (m_exception c) (m_val_mtx c) (m_exception_mtx c) (threads c)
                       (producing c || produces o)))
  | _ => None
  end.

(** Locking a mutex that is taken has no step. *)
Definition lock_val (t : nat) (next : pc) (c : controller) : option controller :=
  match m_val_mtx c with None => Some (goto t next (with_val_mtx (Some t) c)) | Some _ => None end.
Definition lock_exception (t : nat) (next : pc) (c : controller) : option controller :=
  match m_exception_mtx c with None => Some (goto t next (with_exception_mtx (Some t) c)) | Some _ => None end.
Definition unlock_both (c : controller) : controller := with_val_mtx None (with_exception_mtx None c).

Definition wake (p : pc) : pc := match p with Sleeping o => LockVal o false | p => p end.
Definition notify_all (c : controller) : controller :=
  mk (m_val_state c) (m_exception c) (m_val_mtx c) (m_exception_mtx c) (wake <$> threads c) (producing c).

Definition timed (o : op) : bool := match o with OpWaitFor _ => true | _ => false end.
Definition immediate (o : op) : bool := match o with OpWaitFor i => i | _ => false end.

(** What follows the wait. *)
Definition after_wait (o : op) (r : bool) : pc :=
  match o with OpGet => GetTest | OpWaitFor _ => Returned (RBool r) | _ => Returned RVoid end.

(** The next step of a thread; a woken thread locks both mutexes again and
    tests the predicate, for the last time after the timeout.  [get] reads
    [m_exception] without a lock. *)
Definition run (t : nat) (c : controller) : option controller :=
  match pc_of t c with
  | Idle | Returned _ | Sleeping _ => None
  | LockVal o ex => lock_val t (LockExc o ex) c
  | LockExc o ex => lock_exception t (Test o ex) c
  | Test o ex =>
      Some (goto t (if is_ready c then LeaveWait o true
                    else if ex || immediate o then LeaveWait o false else Block o) c)
  | Block o => Some (goto t (Sleeping o) (unlock_both c))
  | LeaveWait o r => Some (goto t (after_wait o r) (unlock_both c))
  | GetTest =>
      Some (goto t (Returned (match m_exception c with Some e => RThrow e | None => RFvalue end)) c)
  | ValueLock v => lock_val t (ValueStore v) c
  | ValueStore v =>
      Some (goto t ValueLeave
              (mk (Some v) (m_exception c) (m_val_mtx c) (m_exception_mtx c) (threads c) (producing c)))
  | ValueLeave => Some (goto t Notify (with_val_mtx None c))
  | ExceptionLock e => lock_exception t (ExceptionStore e) c
  | ExceptionStore e =>
      Some (goto t ExceptionLeave
              (mk (m_val_state c) (Some e) (m_val_mtx c) (m_exception_mtx c) (threads c) (producing c)))
  | ExceptionLeave => Some (goto t Notify (with_exception_mtx None c))
  | Notify => Some (goto t (Returned RVoid) (notify_all c))
  end.

(** A sleeping thread wakes up without a notification, or by its timeout. *)
Definition wake_up (t : nat) (expired : bool) (c : controller) : option controller :=
  match pc_of t c with
  | Sleeping o => if expired && negb (timed o) then None else Some (goto t (LockVal o expired) c)
  | _ => None
  end.

Inductive step (c : controller) : controller → Prop :=
| step_call t o c' : call t o c = Some c' → step c c'
| step_run t c' : run t c = Some c' → step c c'
| step_wake t expired c' : wake_up t expired c = Some c' → step c c'.
End wait.
Arguments op : clear implicits.
Arguments pc : clear implicits.
Arguments controller : clear implicits.

(** ** The deadline of [wait_for]

    Times are counts of nanoseconds in 64 bits, the timeout one of
    milliseconds; [longer t r] is the comparison of the two as [long double]
    seconds. *)
Section deadline.
Local Open Scope Z_scope.
Context (longer : Z → Z → bool).
Definition max_tp : Z := 2 ^ 63 - 1.
Definition in_rep (x : Z) : Prop := - 2 ^ 63 ≤ x < 2 ^ 63.
#[global] Instance in_rep_dec x : Decision (in_rep x) := _.
(** Signed arithmetic; [None] is an overflow. *)
Definition checked (x : Z) : option Z := if decide (in_rep x) then Some x else None.
Definition deadline (now timeout : Z) : option Z :=
  remaining ← checked (max_tp - now);
  if longer timeout remaining then Some max_tp
  else d ← checked (timeout * 1000000); checked (now + d).
End deadline.
End FutureWait.
Import FutureWait.

(** ** No wake-up is lost *)
Section facts.
Context {V : Type}.
Implicit Types (c : controller V) (p : pc V).

Definition holds_val p : bool :=
  match p with LockExc _ _ | Test _ _ | Block _ | LeaveWait _ _ | ValueStore _ | ValueLeave => true | _ => false end.
Definition holds_exception p : bool :=
  match p with Test _ _ | Block _ | LeaveWait _ _ | ExceptionStore _ | ExceptionLeave => true | _ => false end.
Definition is_sleeping p : bool := match p with Sleeping _ => true | _ => false end.
(** The producer: before the result is stored, and until it has notified. *)
Definition will_store p : bool :=
  match p with ValueLock _ | ValueStore _ | ExceptionLock _ | ExceptionStore _ => true | _ => false end.
Definition will_notify p : bool := match p with ValueLeave | ExceptionLeave | Notify => true | _ => false end.
(** What a thread knows of the result. *)
Definition knows (c : controller V) p : Prop :=
  match p with
  | Block _ => is_ready c = false
  | LeaveWait OpGet r => r = true ∧ is_ready c = true
  | LeaveWait (OpWaitFor _) r => r = true → is_ready c = true
  | LeaveWait _ r => r = true ∧ is_ready c = true
  | LockVal o ex | LockExc o ex | Test o ex => ex = true → timed o = true
  | GetTest | ValueLeave | ExceptionLeave | Notify | Returned RVoid => is_ready c = true
  | Returned (RBool r) => r = true → is_ready c = true
  | Returned RFvalue => is_Some (m_val_state c)
  | Returned (RThrow e) => m_exception c = Some e
  | _ => True
  end.

Record wait_inv c : Prop := {
  wi_val t : m_val_mtx c = Some t ↔ holds_val (pc_of t c) = true;
  wi_exc t : m_exception_mtx c = Some t ↔ holds_exception (pc_of t c) = true;
  wi_store t : will_store (pc_of t c) = true → is_ready c = false;
  wi_one t t' : will_store (pc_of t c) || will_notify (pc_of t c) = true →
                will_store (pc_of t' c) || will_notify (pc_of t' c) = true → t = t';
  wi_producing t : will_store (pc_of t c) || will_notify (pc_of t c) = true → producing c = true;
  wi_ready : is_ready c = true → producing c = true;
  wi_excl : m_val_state c = None ∨ m_exception c = None;
  wi_knows t : knows c (pc_of t c);
  wi_wake t : is_ready c = true → is_sleeping (pc_of t c) = true → ∃ t', will_notify (pc_of t' c) = true
}.

Lemma pc_of_insert t p c v e mv me pr t' :
  pc_of t' (mk v e mv me (<[t := p]> (threads c)) pr) = if decide (t' = t) then p else pc_of t' c.
Proof. unfold pc_of; simpl. case_decide; subst; [by rewrite lookup_insert_eq|by rewrite lookup_insert_ne]. Qed.

(** A thread keeps a mutex or stays without it, takes it or lets it go. *)
Definition mutex_ok (h : pc V → bool) (m m' : option nat) (t : nat) (old p : pc V) : Prop :=
  (m' = m ∧ h p = h old) ∨ (m = None ∧ m' = Some t ∧ h p = true) ∨ (h old = true ∧ h p = false ∧ m' = None).

Lemma mutex_insert (h : pc V → bool) m m' t p c v e mv me pr :
  (∀ t', m = Some t' ↔ h (pc_of t' c) = true) → mutex_ok h m m' t (pc_of t c) p →
  ∀ t', m' = Some t' ↔ h (pc_of t' (mk v e mv me (<[t := p]> (threads c)) pr)) = true.
Proof.
  intros Hm Ho t'. rewrite pc_of_insert. case_decide as Ht; subst;
    destruct Ho as [[-> Hp]|[(-> & -> & Hp)|(Hold & Hp & ->)]].
  - by rewrite Hm, Hp.
  - by rewrite Hp.
  - by rewrite Hp.
  - apply Hm.
  - rewrite <-Hm. split; [congruence|done].
  - apply Hm in Hold. rewrite <-Hm. split; congruence.
Qed.

(** The thread [t] moves to [p]; the result is stored or not. *)
Lemma move_still c t p mv me pr :
  wait_inv c →
  mutex_ok holds_val (m_val_mtx c) mv t (pc_of t c) p →
  mutex_ok holds_exception (m_exception_mtx c) me t (pc_of t c) p →
  (pr = producing c ∧ will_store p = will_store (pc_of t c) ∧ will_notify p = will_notify (pc_of t c) ∨
   producing c = false ∧ pr = true ∧ will_notify p = false) →
  knows c p → (is_sleeping p = true → is_ready c = false) →
  wait_inv (mk (m_val_state c) (m_exception c) mv me (<[t := p]> (threads c)) pr).
Proof.
  intros [Hv He Hs Ho Hp Hr Hx Hk Hw] Hmv Hme Hpr Hkp Hsl.
  assert (Hready : ∀ q, is_ready (mk (m_val_state c) (m_exception c) mv me q pr) = is_ready c) by done.
  assert (Hnp : producing c = false → ∀ t', will_store (pc_of t' c) = false ∧ will_notify (pc_of t' c) = false).
  { intros E t'. apply orb_false_iff, not_true_iff_false. intros ?%Hp. congruence. }
  constructor; simpl.
  - by apply (mutex_insert _ (m_val_mtx c)).
  - by apply (mutex_insert _ (m_exception_mtx c)).
  - intros t'. rewrite pc_of_insert, Hready. case_decide; [|by apply Hs]. intros Hq.
    destruct Hpr as [(_ & E & _)|(E & _)]; [apply (Hs t); congruence|].
    destruct (is_ready c) eqn:Er; [|done]. rewrite Hr in E by done. done.
  - intros t1 t2. rewrite !pc_of_insert. repeat case_decide; subst; try done.
    + destruct Hpr as [(_ & E1 & E2)|(E & _)]; [rewrite E1, E2; by apply Ho|].
      intros _. destruct (Hnp E t2) as [-> ->]. done.
    + destruct Hpr as [(_ & E1 & E2)|(E & _)]; [rewrite E1, E2; by apply Ho|].
      destruct (Hnp E t1) as [-> ->]. done.
    + apply Ho.
  - intros t'. rewrite pc_of_insert. destruct Hpr as [(-> & E1 & E2)|(E & -> & _)]; [|done].
    case_decide; [rewrite E1, E2|]; apply Hp.
  - rewrite Hready. intros E%Hr. destruct Hpr as [(-> & _)|(? & _)]; congruence.
  - done.
  - intros t'. rewrite pc_of_insert. case_decide; [apply Hkp|apply Hk].
  - intros t'. rewrite pc_of_insert, Hready. intros E Hq. case_decide; [rewrite Hsl in E; done|].
    destruct (Hw t' E Hq) as [t2 H2]. exists t2. rewrite pc_of_insert. case_decide; [|done]. subst.
    destruct Hpr as [(_ & _ & ->)|(E' & _)]; [done|]. by rewrite Hr in E'.
Qed.

(** Others know nothing that storing a result makes wrong. *)
Lemma knows_store c c' p :
  is_ready c = false → is_ready c' = true → knows c p → (∀ o, p ≠ Block o) → knows c' p.
Proof.
  intros Hn Hr Hk Hb. destruct p as [| | | | | |o r| | | | | | | | |[| | |]]; simpl in *; try done.
  - by destruct (Hb o).
  - destruct o; intuition congruence.
  - unfold is_ready in Hn. destruct Hk as [v Hk]. rewrite Hk in Hn. done.
  - unfold is_ready in Hn. rewrite Hk in Hn. by destruct (m_val_state c).
Qed.

(** The producer [t] stores the result under one of the mutexes. *)
Lemma move_store c t p v e :
  wait_inv c → will_store (pc_of t c) = true → will_store p = false → will_notify p = true →
  holds_val p = holds_val (pc_of t c) → holds_exception p = holds_exception (pc_of t c) →
  (holds_val p = true ∨ holds_exception p = true) → is_sleeping p = false →
  (v = None ∨ e = None) → (is_Some v ∨ is_Some e) → (∀ c', is_ready c' = true → knows c' p) →
  wait_inv (mk v e (m_val_mtx c) (m_exception_mtx c) (<[t := p]> (threads c)) (producing c)).
Proof.
  intros [Hv He Hs Ho Hp Hr Hx Hk Hw] Hst Hns Hn Hhv Hhe Hh Hsl Hxe Hve Hkp.
  assert (Hready : is_ready (mk v e (m_val_mtx c) (m_exception_mtx c) (<[t := p]> (threads c)) (producing c)) = true).
  { unfold is_ready; simpl. apply orb_true_iff. by rewrite !bool_decide_eq_true. }
  assert (Hpt : producing c = true) by (apply (Hp t); by rewrite Hst).
  assert (Hone : ∀ t', will_store (pc_of t' c) || will_notify (pc_of t' c) = true → t' = t).
  { intros t' H'. apply Ho; [done|]. by rewrite Hst. }
  constructor; simpl; try done.
  - apply (mutex_insert _ (m_val_mtx c)); [done|by left].
  - apply (mutex_insert _ (m_exception_mtx c)); [done|by left].
  - intros t'. rewrite pc_of_insert. case_decide as Ht; [congruence|]. intros Hq. destruct Ht. apply Hone. by rewrite Hq.
  - intros t1 t2. rewrite !pc_of_insert. repeat case_decide; subst; try done.
    + intros _ ?%Hone. done.
    + intros ?%Hone _. done.
    + intros ->%Hone ->%Hone. done.
  - intros t'. rewrite pc_of_insert. case_decide as Ht; [by apply Hkp|].
    apply (knows_store c); [by apply (Hs t)|done|apply Hk|]. intros o Hb.
    destruct Hh as [Hh|Hh]; apply Ht.
    + assert (E1 : m_val_mtx c = Some t') by (apply Hv; by rewrite Hb).
      assert (E2 : m_val_mtx c = Some t) by (apply Hv; congruence). congruence.
    + assert (E1 : m_exception_mtx c = Some t') by (apply He; by rewrite Hb).
      assert (E2 : m_exception_mtx c = Some t) by (apply He; congruence). congruence.
  - intros t' _ _. exists t. rewrite pc_of_insert. by case_decide.
Qed.

Lemma pc_of_notify t c : pc_of t (notify_all c) = wake (pc_of t c).
Proof. unfold pc_of; simpl. rewrite lookup_fmap. by destruct (threads c !! t). Qed.

Lemma wake_same p :
  holds_val (wake p) = holds_val p ∧ holds_exception (wake p) = holds_exception p ∧
  will_store (wake p) = will_store p ∧ will_notify (wake p) = will_notify p ∧ is_sleeping (wake p) = false.
Proof. by destruct p. Qed.

Lemma move_notify c t :
  wait_inv c → pc_of t c = Notify → wait_inv (goto t (Returned RVoid) (notify_all c)).
Proof.
  intros [Hv He Hs Ho Hp Hr Hx Hk Hw] Ht. unfold goto; simpl.
  assert (Hpc : ∀ t', pc_of t' (mk (m_val_state c) (m_exception c) (m_val_mtx c) (m_exception_mtx c)
                        (<[t := Returned RVoid]> (wake <$> threads c)) (producing c))
                      = if decide (t' = t) then Returned RVoid else wake (pc_of t' c)).
  { intros t'. rewrite <-(pc_of_notify t' c). apply (pc_of_insert t (Returned RVoid) (notify_all c)). }
  assert (Hpt : producing c = true) by (apply (Hp t); by rewrite Ht).
  constructor; simpl; try done; intros t'; rewrite ?Hpc.
  - rewrite Hv. case_decide; subst; [by rewrite Ht|]. by rewrite (proj1 (wake_same _)).
  - rewrite He. case_decide; subst; [by rewrite Ht|]. by rewrite (proj1 (proj2 (wake_same _))).
  - case_decide; [done|]. rewrite (proj1 (proj2 (proj2 (wake_same _)))). apply Hs.
  - intros t2. rewrite Hpc. case_decide; [done|]. case_decide; [done|].
    destruct (wake_same (pc_of t' c)) as (_ & _ & -> & -> & _), (wake_same (pc_of t2 c)) as (_ & _ & -> & -> & _).
    apply Ho.
  - case_decide; [specialize (Hk t); by rewrite Ht in Hk|]. specialize (Hk t'). by destruct (pc_of t' c).
  - intros _. case_decide; [done|]. by destruct (wake_same (pc_of t' c)) as (_ & _ & _ & _ & ->).
Qed.

Lemma ready_result c :
  wait_inv c → is_ready c = true →
  match m_exception c with Some e => True | None => is_Some (m_val_state c) end.
Proof.
  intros HI Hr. unfold is_ready in Hr. destruct (m_exception c); [done|].
  apply orb_true_iff in Hr as [Hr|Hr]; by apply bool_decide_eq_true in Hr.
Qed.

(** Closes the conditions of [move_still]. *)
Ltac moves c t Ep :=
  apply (move_still c t); rewrite ?Ep; simpl; try done;
    first [by left; rewrite ?Ep|by right; left; rewrite ?Ep|by right; right; rewrite ?Ep|idtac].

Lemma wait_run_inv t c c' : wait_inv c → run t c = Some c' → wait_inv c'.
Proof.
  intros HI. pose proof (wi_knows _ HI t) as Hk. pose proof (wi_val _ HI t) as Hv. pose proof (wi_exc _ HI t) as He.
  unfold run, lock_val, lock_exception. destruct (pc_of t c) as [|o ex|o ex|o ex|o|o|o r| |v|v| |e|e| | |r] eqn:Ep;
    simpl in *; try done.
  - destruct (m_val_mtx c) eqn:Em; [done|]. intros [= <-]. moves c t Ep.
  - destruct (m_exception_mtx c) eqn:Em; [done|]. intros [= <-]. moves c t Ep.
  - intros [= <-]. destruct (is_ready c) eqn:Er; [|destruct (ex || immediate o) eqn:Ex]; moves c t Ep.
    + by destruct o.
    + destruct o, ex; simpl in *; try done; by specialize (Hk eq_refl).
  - intros [= <-]. moves c t Ep.
  - intros [= <-]. moves c t Ep; destruct o; try done; first [by left|by right; right|by apply Hk].
  - intros [= <-]. moves c t Ep. pose proof (ready_result _ HI Hk) as Hr. by destruct (m_exception c).
  - destruct (m_val_mtx c) eqn:Em; [done|]. intros [= <-]. moves c t Ep.
  - intros [= <-]. pose proof (wi_store _ HI t) as Hst. rewrite Ep in Hst. specialize (Hst eq_refl).
    unfold is_ready in Hst. apply orb_false_iff in Hst as [_ Hst%bool_decide_eq_false%eq_None_not_Some].
    apply (move_store c t); rewrite ?Ep; simpl; eauto.
  - intros [= <-]. moves c t Ep.
  - destruct (m_exception_mtx c) eqn:Em; [done|]. intros [= <-]. moves c t Ep.
  - intros [= <-]. pose proof (wi_store _ HI t) as Hst. rewrite Ep in Hst. specialize (Hst eq_refl).
    unfold is_ready in Hst. apply orb_false_iff in Hst as [Hst%bool_decide_eq_false%eq_None_not_Some _].
    apply (move_store c t); rewrite ?Ep; simpl; eauto.
  - intros [= <-]. moves c t Ep.
  - intros [= <-]. by apply move_notify.
Qed.

Lemma call_inv t o c c' : wait_inv c → call t o c = Some c' → wait_inv c'.
Proof.
  intros HI. unfold call. destruct (pc_of t c) as [| | | | | | | | | | | | | | |r] eqn:Ep; try done;
    (destruct (produces o && producing c) eqn:E; [done|]; intros [= <-];
     apply (move_still c t); rewrite ?Ep; [done|by left; destruct o|by left; destruct o| |by destruct o|by destruct o];
     destruct o; simpl in *; rewrite ?orb_false_r, ?orb_true_r; auto).
Qed.

Lemma wake_up_inv t ex c c' : wait_inv c → wake_up t ex c = Some c' → wait_inv c'.
Proof.
  intros HI. unfold wake_up. destruct (pc_of t c) eqn:Ep; try done. destruct (ex && negb (timed o)) eqn:E; [done|].
  intros [= <-]. apply (move_still c t); rewrite ?Ep; simpl; try done; try (by left).
  intros ->. by destruct (timed o).
Qed.

Lemma wait_reachable_inv c : rtc step create c → wait_inv c.
Proof.
  apply (rtc_invariant _ wait_inv).
  - constructor; try done; by left.
  - intros a b HI [t o c' Hs|t c' Hs|t ex c' Hs]; eauto using call_inv, wait_run_inv, wake_up_inv.
Qed.

(** Nothing is left to do but calls, timeouts and spurious wake-ups. *)
Definition quiet c : Prop := ∀ t, run t c = None.

Lemma quiet_free c : wait_inv c → quiet c → m_val_mtx c = None ∧ m_exception_mtx c = None.
Proof.
  intros HI Hq.
  assert (He : m_exception_mtx c = None).
  { destruct (m_exception_mtx c) as [t|] eqn:E; [|done]. apply (wi_exc _ HI) in E. specialize (Hq t).
    unfold run in Hq. by destruct (pc_of t c). }
  split; [|done]. destruct (m_val_mtx c) as [t|] eqn:E; [|done]. apply (wi_val _ HI) in E. specialize (Hq t).
  unfold run, lock_exception in Hq. rewrite He in Hq. by destruct (pc_of t c).
Qed.

Definition at_rest p : bool := match p with Idle | Returned _ => true | _ => false end.

Lemma quiet_waiters c t : wait_inv c → quiet c → at_rest (pc_of t c) = true ∨ is_sleeping (pc_of t c) = true.
Proof.
  intros HI Hq. destruct (quiet_free _ HI Hq) as [Ev Ee]. specialize (Hq t).
  unfold run, lock_val, lock_exception in Hq. rewrite Ev, Ee in Hq. destruct (pc_of t c); simpl; by auto.
Qed.

(** C18: Threads that wait for one future, in any order and with any timeouts and
    spurious wake-ups, and its producer: when the future is ready a thread sleeps
    only while the producer has yet to notify; when nothing is left to do, the
    mutexes are free, and every thread has returned if the future is ready and
    sleeps or has returned otherwise; a wait that returned, or returned true,
    found the future ready, and [get] returned the value or threw the exception
    that was stored. *)
Theorem waits_wake c :
  rtc step create c →
  (∀ t, is_ready c = true → is_sleeping (pc_of t c) = true → ∃ t', will_notify (pc_of t' c) = true) ∧
  (quiet c → m_val_mtx c = None ∧ m_exception_mtx c = None ∧
     ∀ t, at_rest (pc_of t c) = true ∨ is_ready c = false ∧ is_sleeping (pc_of t c) = true) ∧
  (∀ t r, pc_of t c = Returned r →
     match r with
     | RVoid | RBool true => is_ready c = true
     | RBool false => True
     | RFvalue => is_Some (m_val_state c) ∧ m_exception c = None
     | RThrow e => m_exception c = Some e ∧ m_val_state c = None
     end).
Proof.
  intros Hr. pose proof (wait_reachable_inv _ Hr) as HI. split_and!.
  - apply (wi_wake _ HI).
  - intros Hq. destruct (quiet_free _ HI Hq) as [Ev Ee]. split_and!; [done..|]. intros t.
    destruct (quiet_waiters _ t HI Hq) as [?|Hs]; [by left|right]. split; [|done].
    apply not_true_iff_false. intros Hready. destruct (wi_wake _ HI t Hready Hs) as [t' Hn].
    destruct (quiet_waiters _ t' HI Hq); by destruct (pc_of t' c).
  - intros t r E. pose proof (wi_knows _ HI t) as Hk. rewrite E in Hk. pose proof (wi_excl _ HI) as Hx.
    destruct r as [|[|]| |e]; simpl in Hk; auto.
    + split; [done|]. destruct Hx as [Hx|?]; [|done]. rewrite Hx in Hk. by destruct Hk.
    + split; [done|]. destruct Hx; congruence.
Qed.
End facts.

(** A thread waits in [get], sleeps and is woken by the producer. *)
Definition demo_get : controller nat :=
  mk (Some 7) None None None {[ 1 := Returned RFvalue; 2 := Returned RVoid ]} true.

(** A call of a member, or the next step of a thread. *)
Fixpoint schedule {V} (l : list (nat * option (op V))) (c : controller V) : option (controller V) :=
  match l with
  | [] => Some c
  | (t, o) :: l => c' ← (match o with Some o => call t o c | None => run t c end); schedule l c'
  end.

Lemma schedule_steps {V} l (c c' : controller V) : schedule l c = Some c' → rtc step c c'.
Proof.
  revert c. induction l as [|[t [o|]] l IH]; intros c; simpl; [by intros [= <-]|..];
    intros (c1 & H1 & H2)%bind_Some; (eapply rtc_l; [|by apply IH]); [by eapply step_call|by eapply step_run].
Qed.

Lemma demo_get_run : rtc step (create (V := nat)) demo_get.
Proof.
  apply (schedule_steps
    ([(1, Some OpGet)] ++ replicate 4 (1, None) ++ [(2, Some (OpSetValueState 7))] ++ replicate 4 (2, None)
     ++ replicate 5 (1, None))).
  vm_compute. reflexivity.
Qed.

Lemma waits_wake_witness :
  pc_of 1 demo_get = Returned RFvalue ∧ is_Some (m_val_state demo_get) ∧ m_exception demo_get = None.
Proof.
  split; [reflexivity|]. destruct (waits_wake demo_get demo_get_run) as (_ & _ & H).
  exact (H 1 RFvalue eq_refl).
Defined.

(** ** The deadline *)
Section deadline_facts.
Local Open Scope Z_scope.
Context (longer : Z → Z → bool).
(** A timeout that is not less than what remains compares so. *)
Hypothesis longer_spec : ∀ t r, r <= t * 1000000 → longer t r = true.

(** For every timeout above zero, and a clock that is not negative, nothing of the
    computation of the deadline overflows; the deadline is the time asked for or
    the last one of the clock, and never before the one asked for unless that is
    past the end of the clock. *)
Lemma deadline_in_range now timeout :
  in_rep now → in_rep timeout → 0 <= now → 0 < timeout →
  ∃ tp, deadline longer now timeout = Some tp ∧ now <= tp <= max_tp ∧
    (tp = now + timeout * 1000000 ∨ tp = max_tp) ∧ Z.min (now + timeout * 1000000) max_tp <= tp.
Proof.
  intros Hn Ht H0 H1.
  assert (Hc : ∀ x, in_rep x → checked x = Some x) by (intros x Hx; unfold checked; by rewrite decide_True).
  unfold deadline. unfold in_rep, max_tp in *. rewrite (Hc (2 ^ 63 - 1 - now)) by lia. simpl.
  destruct (longer timeout _) eqn:E; [exists (2 ^ 63 - 1); split; [done|lia]|].
  assert (timeout * 1000000 < 2 ^ 63 - 1 - now) as Hlt.
  { apply Z.nle_gt. intros Hle. by rewrite longer_spec in E. }
  rewrite (Hc (timeout * 1000000)) by lia. simpl. rewrite (Hc (now + _)) by lia. eexists. split; [done|]. lia.
Qed.
End deadline_facts.
