(* ===== verification/Memory.v ===== *)
(** * Memory: allocations, pointers and byte accesses

    The heap a [cl::buffer] allocates from.  An allocation is a list of
    cells; a cell is [None] while its value is indeterminate (the state of a
    byte after [new std::byte[n]]).  A pointer is null or an offset into an
    allocation.  Accesses outside of an allocation are undefined behaviour. *)
From S2P Require Import Prelude.
Local Open Scope Z_scope.
Local Open Scope prog_scope.

Module Memory.
Abbreviation heap := (gmap positive (list (option Z))).

Inductive pointer : Type :=
| Null
| Ptr (b : positive) (off : Z).

#[global] Instance pointer_eq_dec : EqDecision pointer.
Proof. solve_decision. Defined.

(** Pointer arithmetic; [nullptr + 0] is the only sum of a null pointer
    that is ever dereferenced nowhere, so null is absorbing. *)
Definition ptr_add (p : pointer) (n : Z) : pointer :=
  match p with
  | Null => Null
  | Ptr b off => Ptr b (off + n)
  end.

(** Difference of two pointers, defined inside one allocation. *)
Definition ptr_diff (p q : pointer) : option Z :=
  match p, q with
  | Null, Null => Some 0
  | Ptr b o, Ptr b' o' => if decide (b = b') then Some (o - o') else None
  | _, _ => None
  end.

Definition cell_at (h : heap) (p : pointer) : option (option Z) :=
  match p with
  | Null => None
  | Ptr b off => if decide (0 ≤ off) then h !! b ≫= λ cs, cs !! Z.to_nat off else None
  end.

(** Reading a byte as an object (its value may be indeterminate). *)
Definition load_cell (p : pointer) : prog heap (option Z) := λ h,
  match cell_at h p with Some c => Ok c h | None => UB end.

(** Reading a byte for its value. *)
Definition load (p : pointer) : prog heap Z := λ h,
  match cell_at h p with Some (Some v) => Ok v h | _ => UB end.

Definition store_cell (p : pointer) (c : option Z) : prog heap unit := λ h,
  match p with
  | Null => UB
  | Ptr b off =>
      match cell_at h p, h !! b with
      | Some _, Some cs => Ok tt (<[b := <[Z.to_nat off := c]> cs]> h)
      | _, _ => UB
      end
  end.
Definition store (p : pointer) (v : Z) : prog heap unit := store_cell p (Some v).

Definition fresh_loc (h : heap) : positive := fresh (dom h : gset positive).

(** [new std::byte[size]]: a fresh block of indeterminate bytes. *)
Definition alloc (size : Z) : prog heap pointer := λ h,
  let b := fresh_loc h in
  Ok (Ptr b 0) (<[b := replicate (Z.to_nat size) None]> h).

(** [delete[] p]: nothing for a null pointer, undefined unless [p] is the
    start of a live block. *)
Definition free (p : pointer) : prog heap unit := λ h,
  match p with
  | Null => Ok tt h
  | Ptr b off => if decide (off = 0 ∧ is_Some (h !! b)) then Ok tt (delete b h) else UB
  end.

(** [bytes_at h p bs]: the bytes [bs] are stored from [p] on. *)
Definition bytes_at (h : heap) (p : pointer) (bs : list Z) : Prop :=
  ∀ i x, bs !! i = Some x → cell_at h (ptr_add p (Z.of_nat i)) = Some (Some x).

(** ** Lemmas *)
Lemma ptr_add_0 p : ptr_add p 0 = p.
Proof. destruct p; simpl; f_equal; lia. Qed.

Lemma ptr_add_start b n : ptr_add (Ptr b 0) n = Ptr b n.
Proof. done. Qed.

Lemma ptr_add_add p m n : ptr_add (ptr_add p m) n = ptr_add p (m + n).
Proof. destruct p; simpl; f_equal; lia. Qed.

Lemma ptr_diff_add b o m n : ptr_diff (ptr_add (Ptr b o) m) (ptr_add (Ptr b o) n) = Some (m - n).
Proof. simpl. rewrite decide_True by done. f_equal. lia. Qed.

Lemma load_at h p bs i x :
  bytes_at h p bs → bs !! i = Some x → load (ptr_add p (Z.of_nat i)) h = Ok x h.
Proof. intros H Hi. unfold load. by rewrite (H _ _ Hi). Qed.

Lemma load_at_Z h p bs (i : Z) x :
  bytes_at h p bs → 0 ≤ i → bs !! Z.to_nat i = Some x → load (ptr_add p i) h = Ok x h.
Proof. intros H Hi Hx. rewrite <- (Z2Nat.id i) by done. by eapply load_at. Qed.

Lemma bytes_at_app h p bs1 bs2 :
  bytes_at h p (bs1 ++ bs2) ↔
  bytes_at h p bs1 ∧ bytes_at h (ptr_add p (Z.of_nat (length bs1))) bs2.
Proof.
  split.
  - intros H. split; intros i x Hi.
    + apply H. by apply lookup_app_l_Some.
    + rewrite ptr_add_add, <- Nat2Z.inj_add. apply H.
      rewrite lookup_app_r by lia. by replace (_ + i - _)%nat with i by lia.
  - intros [H1 H2] i x [Hi|[Hl Hi]]%lookup_app_Some.
    + by apply H1.
    + apply H2 in Hi. rewrite ptr_add_add in Hi.
      by replace (Z.of_nat (length bs1) + Z.of_nat (i - length bs1)) with (Z.of_nat i) in Hi by lia.
Qed.

(** A block whose first cells hold [bs]. *)
Lemma bytes_at_block (h : heap) b bs cs :
  h !! b = Some ((Some <$> bs) ++ cs) → bytes_at h (Ptr b 0) bs.
Proof.
  intros Hb i x Hi. simpl. rewrite decide_True by lia. rewrite Hb. simpl.
  rewrite Z.add_0_l, Nat2Z.id.
  apply lookup_app_l_Some. by rewrite list_lookup_fmap, Hi.
Qed.

Lemma bytes_at_nil h p : bytes_at h p [].
Proof. intros i x H. by rewrite lookup_nil in H. Qed.

Lemma fresh_loc_None (h : heap) : h !! fresh_loc h = None.
Proof. apply (not_elem_of_dom (D := gset positive)). unfold fresh_loc. apply is_fresh. Qed.

Lemma cell_at_block (h : heap) b cs (i : nat) :
  h !! b = Some cs → cell_at h (Ptr b (Z.of_nat i)) = cs !! i.
Proof. intros Hb. simpl. rewrite decide_True by lia. by rewrite Hb, Nat2Z.id. Qed.

(** Writing the next cell of a block that is filled from the left. *)
Lemma store_cell_next (h : heap) b pre (c c' : option Z) post :
  h !! b = Some (pre ++ c :: post) →
  store_cell (Ptr b (Z.of_nat (length pre))) c' h = Ok tt (<[b := pre ++ c' :: post]> h).
Proof.
  intros Hb. unfold store_cell. rewrite (cell_at_block _ _ _ _ Hb), Hb.
  rewrite list_lookup_middle by done. rewrite Nat2Z.id.
  by rewrite insert_app_r_alt, Nat.sub_diag by lia.
Qed.

(** Two stores of the same block collapse. *)
Lemma insert_twice (h : heap) b (x y : list (option Z)) : <[b := y]> (<[b := x]> h) = <[b := y]> h.
Proof. apply insert_insert_eq. Qed.
End Memory.
