(* ===== verification/Buffer.v ===== *)
(** * cl::buffer

    Models [common-lib/utils/buffer.h] and
    [common-lib/utils/internal/buffer/buffer.cpp]: an owning, movable byte
    array, its iterators and its comparison.  References returned by the
    source ([operator[]], [at], [operator*]) are modelled by the pointer
    they are bound to; reading or writing through them is [Memory.load] and
    [Memory.store]. *)
From S2P Require Import Prelude Memory.
Import Memory.
Local Open Scope Z_scope.
Local Open Scope prog_scope.

Module Buffer.
Record buffer : Type := mk { m_buffer : pointer; m_size : Z }.

(** ** Iterators *)
Record iterator : Type := It { it_buffer : pointer }.
Record const_iterator : Type := CIt { cit_buffer : pointer }.

Definition iterator_incr (it : iterator) : iterator := It (ptr_add (it_buffer it) 1).
(** The post-increment returns the previous position and leaves the next. *)
Definition iterator_incr_post (it : iterator) : iterator * iterator :=
  (It (it_buffer it), It (ptr_add (it_buffer it) 1)).
Definition iterator_decr (it : iterator) : iterator := It (ptr_add (it_buffer it) (-1)).
Definition iterator_decr_post (it : iterator) : iterator * iterator :=
  (It (it_buffer it), It (ptr_add (it_buffer it) (-1))).
Definition iterator_deref (it : iterator) : pointer := it_buffer it.
Definition iterator_eqb (it other : iterator) : bool :=
  bool_decide (it_buffer it = it_buffer other).
Definition iterator_neqb (it other : iterator) : bool := negb (iterator_eqb other it).
Definition iterator_add (it : iterator) (offset : Z) : iterator := It (ptr_add (it_buffer it) offset).
Definition iterator_sub (it : iterator) (offset : Z) : iterator := It (ptr_add (it_buffer it) (- offset)).
Definition iterator_diff (it other : iterator) : option Z := ptr_diff (it_buffer it) (it_buffer other).

Definition const_iterator_incr (it : const_iterator) : const_iterator := CIt (ptr_add (cit_buffer it) 1).
Definition const_iterator_incr_post (it : const_iterator) : const_iterator * const_iterator :=
  (CIt (cit_buffer it), CIt (ptr_add (cit_buffer it) 1)).
Definition const_iterator_decr (it : const_iterator) : const_iterator := CIt (ptr_add (cit_buffer it) (-1)).
Definition const_iterator_decr_post (it : const_iterator) : const_iterator * const_iterator :=
  (CIt (cit_buffer it), CIt (ptr_add (cit_buffer it) (-1))).
Definition const_iterator_deref (it : const_iterator) : pointer := cit_buffer it.
Definition const_iterator_eqb (it other : const_iterator) : bool :=
  bool_decide (cit_buffer it = cit_buffer other).
Definition const_iterator_neqb (it other : const_iterator) : bool := negb (const_iterator_eqb other it).
Definition const_iterator_add (it : const_iterator) (offset : Z) : const_iterator :=
  CIt (ptr_add (cit_buffer it) offset).
Definition const_iterator_sub (it : const_iterator) (offset : Z) : const_iterator :=
  CIt (ptr_add (cit_buffer it) (- offset)).
Definition const_iterator_diff (it other : const_iterator) : option Z :=
  ptr_diff (cit_buffer it) (cit_buffer other).

(** [std::reverse_iterator]: dereferences the element before its base. *)
Record reverse_iterator : Type := RIt { base : iterator }.
Definition reverse_deref (r : reverse_iterator) : pointer :=
  iterator_deref (iterator_decr (base r)).
Definition reverse_incr (r : reverse_iterator) : reverse_iterator := RIt (iterator_decr (base r)).
Definition reverse_neqb (r s : reverse_iterator) : bool := negb (iterator_eqb (base r) (base s)).

(** ** The buffer *)
Definition default : buffer := mk Null 0.

Definition create (size : Z) : prog heap buffer :=
  let! p := alloc size in ret (mk p size).

Definition destroy (b : buffer) : prog heap unit := free (m_buffer b).

(** Move construction swaps with a default buffer: the pair is (new, source after). *)
Definition move_construct (other : buffer) : buffer * buffer :=
  let this := default in
  (mk (m_buffer other) (m_size other), mk (m_buffer this) (m_size this)).

(** Move assignment swaps the two buffers: (target after, source after). *)
Definition move_assign (this other : buffer) : buffer * buffer :=
  (mk (m_buffer other) (m_size other), mk (m_buffer this) (m_size this)).

(** The loop [for(size_t i = 0; i < buf.m_size; ++i) buf.m_buffer[i] = m_buffer[i]]
    of [copy], from index [i] with [n] iterations left. *)
Fixpoint copy_loop (dst src : pointer) (i : Z) (n : nat) : prog heap unit :=
  match n with
  | O => ret tt
  | S n' =>
      let! c := load_cell (ptr_add src i) in
      store_cell (ptr_add dst i) c ;!
      copy_loop dst src (i + 1) n'
  end.

Definition copy (b : buffer) : prog heap buffer :=
  let! p := alloc (m_size b) in
  copy_loop p (m_buffer b) 0 (Z.to_nat (m_size b)) ;!
  ret (mk p (m_size b)).

Definition data (b : buffer) : pointer := m_buffer b.
Definition size (b : buffer) : Z := m_size b.
Definition index (b : buffer) (pos : Z) : pointer := ptr_add (m_buffer b) pos.
Definition to_bool (b : buffer) : bool := bool_decide (m_buffer b ≠ Null).
Definition at_ (b : buffer) (pos : Z) : prog heap pointer :=
  if decide (pos >= m_size b) then throw out_of_range else ret (index b pos).

Definition begin (b : buffer) : iterator := It (m_buffer b).
Definition end_ (b : buffer) : iterator := It (ptr_add (m_buffer b) (m_size b)).
Definition cbegin (b : buffer) : const_iterator := CIt (m_buffer b).
Definition cend (b : buffer) : const_iterator := CIt (ptr_add (m_buffer b) (m_size b)).
Definition rbegin (b : buffer) : reverse_iterator := RIt (It (ptr_add (m_buffer b) (m_size b))).
Definition rend (b : buffer) : reverse_iterator := RIt (It (m_buffer b)).

(** The comparison loop of [operator==], from index [i] with [n] iterations left. *)
Fixpoint equal_loop (lhs rhs : buffer) (i : Z) (n : nat) : prog heap bool :=
  match n with
  | O => ret true
  | S n' =>
      let! x := load (index lhs i) in
      let! y := load (index rhs i) in
      if decide (x ≠ y) then ret false else equal_loop lhs rhs (i + 1) n'
  end.

Definition equal (lhs rhs : buffer) : prog heap bool :=
  if decide (size lhs ≠ size rhs) then ret false
  else equal_loop lhs rhs 0 (Z.to_nat (size lhs)).

Definition not_equal (lhs rhs : buffer) : prog heap bool :=
  let! r := equal lhs rhs in ret (negb r).

(** A range [for] over the buffer: from [it], while [it != last], read and advance. *)
Fixpoint traverse (fuel : nat) (it last : iterator) : prog heap (list Z) :=
  match fuel with
  | O => ret []
  | S n =>
      if iterator_neqb it last then
        let! x := load (iterator_deref it) in
        let! xs := traverse n (iterator_incr it) last in
        ret (x :: xs)
      else ret []
  end.

Fixpoint traverse_reverse (fuel : nat) (it last : reverse_iterator) : prog heap (list Z) :=
  match fuel with
  | O => ret []
  | S n =>
      if reverse_neqb it last then
        let! x := load (reverse_deref it) in
        let! xs := traverse_reverse n (reverse_incr it) last in
        ret (x :: xs)
      else ret []
  end.

(** [owns h b bs]: [b] is the start of a block of [h] that holds exactly [bs]. *)
Definition owns (h : heap) (b : buffer) (bs : list Z) : Prop :=
  ∃ l, m_buffer b = Ptr l 0 ∧ h !! l = Some (Some <$> bs) ∧ m_size b = Z.of_nat (length bs).

(** ** Lemmas *)
Lemma owns_bytes_at h b bs : owns h b bs → bytes_at h (m_buffer b) bs.
Proof.
  intros (l & -> & Hl & _). eapply (bytes_at_block _ _ _ []). by rewrite app_nil_r.
Qed.

Lemma copy_loop_spec (h : heap) ld ls done rest :
  ld ≠ ls →
  h !! ls = Some (done ++ rest) →
  h !! ld = Some (done ++ replicate (length rest) None) →
  copy_loop (Ptr ld 0) (Ptr ls 0) (Z.of_nat (length done)) (length rest) h
    = Ok tt (<[ld := done ++ rest]> h).
Proof.
  intros Hne. revert h done. induction rest as [|c rest IH]; intros h done Hs Hd; simpl.
  - rewrite app_nil_r in *. unfold ret. f_equal. by rewrite insert_id.
  - unfold bind, load_cell. rewrite !Z.add_0_l.
    rewrite (cell_at_block _ _ _ _ Hs), list_lookup_middle by done. simpl in Hd.
    rewrite (store_cell_next _ _ _ _ _ _ Hd).
    replace (Z.of_nat (length done) + 1) with (Z.of_nat (length (done ++ [c])))
      by (rewrite length_app; simpl; lia).
    rewrite IH.
    + by rewrite insert_twice, <- app_assoc.
    + rewrite lookup_insert_ne by done. by rewrite <- app_assoc.
    + rewrite lookup_insert_eq. by rewrite <- app_assoc.
Qed.

Lemma copy_run (h : heap) b bs :
  owns h b bs →
  copy b h = Ok (mk (Ptr (fresh_loc h) 0) (Z.of_nat (length bs)))
                (<[fresh_loc h := Some <$> bs]> h).
Proof.
  intros (l & Hp & Hl & Hs). unfold copy, bind, alloc. rewrite Hp, Hs, Nat2Z.id.
  assert (l ≠ fresh_loc h) as Hne by (intros ->; by rewrite fresh_loc_None in Hl).
  pose proof (copy_loop_spec (<[fresh_loc h:=replicate (length bs) None]> h)
                (fresh_loc h) l [] (Some <$> bs)) as HC.
  rewrite length_fmap in HC. simpl in HC. rewrite Nat2Z.inj_0 in HC. rewrite HC; [|done|by rewrite lookup_insert_ne|by rewrite lookup_insert_eq].
  unfold ret. by rewrite insert_twice.
Qed.

Lemma equal_loop_spec h lhs rhs pre xs ys :
  length xs = length ys →
  bytes_at h (m_buffer lhs) (pre ++ xs) →
  (∀ i y, ys !! i = Some y → cell_at h (ptr_add (m_buffer rhs) (Z.of_nat (length pre + i))) = Some (Some y)) →
  equal_loop lhs rhs (Z.of_nat (length pre)) (length xs) h = Ok (bool_decide (xs = ys)) h.
Proof.
  revert pre ys. induction xs as [|x xs IH]; intros pre [|y ys] Hlen Hl Hr; try done; simpl.
  unfold bind, index. rewrite (load_at _ _ _ _ x Hl) by (by rewrite list_lookup_middle).
  unfold load. pose proof (Hr 0%nat y eq_refl) as Hy. rewrite Nat.add_0_r in Hy. rewrite Hy.
  destruct (decide (x ≠ y)) as [Hxy|Hxy%dec_stable].
  - unfold ret. by rewrite bool_decide_eq_false_2 by congruence.
  - subst y. replace (Z.of_nat (length pre) + 1) with (Z.of_nat (length (pre ++ [x])))
      by (rewrite length_app; simpl; lia).
    rewrite (IH (pre ++ [x]) ys).
    + f_equal. apply bool_decide_ext. naive_solver.
    + by injection Hlen.
    + by rewrite <- app_assoc.
    + intros i z Hz. rewrite length_app. simpl.
      replace (length pre + 1 + i)%nat with (length pre + S i)%nat by lia. by apply Hr.
Qed.

Lemma traverse_spec h b pre xs fuel :
  owns h b (pre ++ xs) → (length xs < fuel)%nat →
  traverse fuel (iterator_add (begin b) (Z.of_nat (length pre))) (end_ b) h = Ok xs h.
Proof.
  intros Ho. pose proof (owns_bytes_at _ _ _ Ho) as Hb.
  destruct Ho as (l & Hp & _ & Hs). revert pre fuel Hb Hs.
  induction xs as [|x xs IH]; intros pre [|fuel] Hb Hs Hf; simpl in Hf; try lia; simpl.
  - unfold iterator_neqb, iterator_eqb, iterator_add, end_, begin. simpl.
    rewrite Hs, app_nil_r, bool_decide_eq_true_2 by done. done.
  - unfold iterator_neqb, iterator_eqb, iterator_add, end_, begin. simpl.
    rewrite bool_decide_eq_false_2; simpl.
    2: { rewrite Hs, Hp, length_app. simpl. intros [=]. lia. }
    unfold bind, iterator_deref. simpl.
    rewrite (load_at _ _ _ _ x Hb) by (by rewrite list_lookup_middle).
    specialize (IH (pre ++ [x]) fuel). rewrite <- app_assoc in IH.
    unfold iterator_add, begin, end_ in IH. simpl in IH.
    unfold iterator_incr. simpl. rewrite ptr_add_add.
    replace (Z.of_nat (length pre) + 1) with (Z.of_nat (length (pre ++ [x])))
      by (rewrite length_app; simpl; lia).
    rewrite IH by (try done; lia). done.
Qed.

Lemma traverse_reverse_spec h b pre post fuel :
  owns h b (pre ++ post) → (length pre < fuel)%nat →
  traverse_reverse fuel (RIt (iterator_add (begin b) (Z.of_nat (length pre)))) (rend b) h
    = Ok (rev pre) h.
Proof.
  intros Ho. pose proof (owns_bytes_at _ _ _ Ho) as Hb. destruct Ho as (l & Hp & _ & _).
  revert post fuel Hb. induction pre as [|x pre IH] using rev_ind; intros post [|fuel] Hb Hf; simpl in Hf; try lia; simpl.
  - unfold reverse_neqb, iterator_eqb. simpl. rewrite ptr_add_0, bool_decide_eq_true_2 by done. done.
  - rewrite length_app in *. simpl in *. unfold reverse_neqb, iterator_eqb. simpl.
    rewrite bool_decide_eq_false_2; simpl.
    2: { rewrite Hp. simpl. intros [=]. lia. }
    unfold bind, reverse_deref, iterator_deref, iterator_decr. simpl. rewrite ptr_add_add.
    replace (Z.of_nat (length pre + 1) + -1) with (Z.of_nat (length pre)) by lia.
    rewrite <- app_assoc in Hb. simpl in Hb.
    rewrite (load_at _ _ _ _ x Hb) by (by rewrite list_lookup_middle).
    unfold reverse_incr, iterator_decr, iterator_add, begin in *. simpl in *. rewrite ptr_add_add.
    replace (Z.of_nat (length pre + 1) + -1) with (Z.of_nat (length pre)) by lia.
    rewrite (IH (x :: post)) by (try done; lia). by rewrite rev_unit.
Qed.
End Buffer.
