(* ===== verification/BufferView.v ===== *)
(** * cl::buffer_view and cl::cbuffer_view

    Models [common-lib/utils/buffer-view.h], [cbuffer-view.h] and
    [internal/buffer-view/*.cpp]: non-owning views of a byte range, mutable
    and constant.  A view aliases the memory of the buffer it is built from:
    a write through [BufferView.index] changes what the buffer reads. *)
From S2P Require Import Prelude Memory Buffer.
Import Memory.
Local Open Scope Z_scope.
Local Open Scope prog_scope.

Module BufferView.
Record buffer_view : Type := mk { m_buffer : pointer; m_size : Z }.
Record iterator : Type := It { it_buffer : pointer }.
Record const_iterator : Type := CIt { cit_buffer : pointer }.

Definition iterator_incr (it : iterator) : iterator := It (ptr_add (it_buffer it) 1).
Definition iterator_incr_post (it : iterator) : iterator * iterator :=
  (It (it_buffer it), It (ptr_add (it_buffer it) 1)).
Definition iterator_decr (it : iterator) : iterator := It (ptr_add (it_buffer it) (-1)).
Definition iterator_decr_post (it : iterator) : iterator * iterator :=
  (It (it_buffer it), It (ptr_add (it_buffer it) (-1))).
Definition iterator_deref (it : iterator) : pointer := it_buffer it.
Definition iterator_eqb (it other : iterator) : bool := bool_decide (it_buffer it = it_buffer other).
Definition iterator_neqb (it other : iterator) : bool := negb (iterator_eqb other it).
Definition iterator_add (it : iterator) (offset : Z) : iterator := It (ptr_add (it_buffer it) offset).
Definition iterator_sub (it : iterator) (offset : Z) : iterator := It (ptr_add (it_buffer it) (- offset)).
Definition iterator_diff (it other : iterator) : option Z := ptr_diff (it_buffer it) (it_buffer other).

Definition const_iterator_incr (it : const_iterator) : const_iterator := CIt (ptr_add (cit_buffer it) 1).
Definition const_iterator_incr_post (it : const_iterator) : const_iterator * const_iterator :=
  (CIt (cit_buffer it), CIt (ptr_add (cit_buffer it) 1)).
Definition const_iterator_decr (it : const_iterator) : const_iterator := CIt (ptr_add (cit_buffer it) (-1)).
Definition const_iterator_decr_post (it : const_iterator) : const_iterator * const_iterator :=
  (CIt (cit_buffer it), CIt (ptr_add (cit_buffer it) (-1))).
Definition const_iterator_deref (it : const_iterator) : pointer := cit_buffer it.
Definition const_iterator_eqb (it other : const_iterator) : bool := bool_decide (cit_buffer it = cit_buffer other).
Definition const_iterator_neqb (it other : const_iterator) : bool := negb (const_iterator_eqb other it).
Definition const_iterator_add (it : const_iterator) (offset : Z) : const_iterator := CIt (ptr_add (cit_buffer it) offset).
Definition const_iterator_sub (it : const_iterator) (offset : Z) : const_iterator := CIt (ptr_add (cit_buffer it) (- offset)).
Definition const_iterator_diff (it other : const_iterator) : option Z := ptr_diff (cit_buffer it) (cit_buffer other).

Definition default : buffer_view := mk Null 0.
Definition of_buffer (b : Buffer.buffer) : buffer_view := mk (Buffer.data b) (Buffer.size b).

Definition data (v : buffer_view) : pointer := m_buffer v.
Definition size (v : buffer_view) : Z := m_size v.
Definition index (v : buffer_view) (pos : Z) : pointer := ptr_add (m_buffer v) pos.
Definition to_bool (v : buffer_view) : bool := bool_decide (m_buffer v ≠ Null).
Definition at_ (v : buffer_view) (pos : Z) : prog heap pointer :=
  if decide (pos >= m_size v) then throw out_of_range else ret (index v pos).

Definition begin (v : buffer_view) : iterator := It (m_buffer v).
Definition end_ (v : buffer_view) : iterator := It (ptr_add (m_buffer v) (m_size v)).
Definition cbegin (v : buffer_view) : const_iterator := CIt (m_buffer v).
Definition cend (v : buffer_view) : const_iterator := CIt (ptr_add (m_buffer v) (m_size v)).

(** The comparison loop of [operator==], from index [i] with [n] iterations left. *)
Fixpoint equal_loop (lhs rhs : buffer_view) (i : Z) (n : nat) : prog heap bool :=
  match n with
  | O => ret true
  | S n' =>
      let! x := load (index lhs i) in
      let! y := load (index rhs i) in
      if decide (x ≠ y) then ret false else equal_loop lhs rhs (i + 1) n'
  end.

Definition equal (lhs rhs : buffer_view) : prog heap bool :=
  if decide (size lhs ≠ size rhs) then ret false
  else equal_loop lhs rhs 0 (Z.to_nat (size lhs)).

Definition not_equal (lhs rhs : buffer_view) : prog heap bool :=
  let! r := equal lhs rhs in ret (negb r).

(** [views h v bs]: the view covers exactly the bytes [bs] of the heap. *)
Definition views (h : heap) (v : buffer_view) (bs : list Z) : Prop :=
  bytes_at h (m_buffer v) bs ∧ m_size v = Z.of_nat (length bs).

Lemma views_of_buffer h b bs : Buffer.owns h b bs → views h (of_buffer b) bs.
Proof. intros Ho. split; [by apply Buffer.owns_bytes_at | by destruct Ho as (? & _ & _ & ?)]. Qed.

Lemma equal_loop_buffer lhs rhs i n h :
  equal_loop lhs rhs i n h
    = Buffer.equal_loop (Buffer.mk (m_buffer lhs) (m_size lhs))
                        (Buffer.mk (m_buffer rhs) (m_size rhs)) i n h.
Proof.
  revert i h. induction n as [|n IH]; intros i h; simpl; [done|].
  unfold bind, index, Buffer.index. simpl. repeat (case_match; try done).
Qed.

Lemma equal_run h v w xs ys :
  views h v xs → views h w ys → equal v w h = Ok (bool_decide (xs = ys)) h.
Proof.
  intros [Hv Hsv] [Hw Hsw]. unfold equal, size. rewrite Hsv, Hsw.
  case_decide as Hsz.
  - unfold ret. rewrite bool_decide_eq_false_2; [done | intros ->; lia].
  - rewrite Nat2Z.id, equal_loop_buffer.
    apply (Buffer.equal_loop_spec h _ _ [] xs ys); simpl; [lia | done | apply Hw].
Qed.
End BufferView.

Module CBufferView.
Record cbuffer_view : Type := mk { m_buffer : pointer; m_size : Z }.
(** [const_iterator] is an alias of [iterator] in this class. *)
Record iterator : Type := It { it_buffer : pointer }.

Definition iterator_incr (it : iterator) : iterator := It (ptr_add (it_buffer it) 1).
Definition iterator_incr_post (it : iterator) : iterator * iterator :=
  (It (it_buffer it), It (ptr_add (it_buffer it) 1)).
Definition iterator_decr (it : iterator) : iterator := It (ptr_add (it_buffer it) (-1)).
Definition iterator_decr_post (it : iterator) : iterator * iterator :=
  (It (it_buffer it), It (ptr_add (it_buffer it) (-1))).
Definition iterator_deref (it : iterator) : pointer := it_buffer it.
Definition iterator_eqb (it other : iterator) : bool := bool_decide (it_buffer it = it_buffer other).
Definition iterator_neqb (it other : iterator) : bool := negb (iterator_eqb other it).
Definition iterator_add (it : iterator) (offset : Z) : iterator := It (ptr_add (it_buffer it) offset).
Definition iterator_sub (it : iterator) (offset : Z) : iterator := It (ptr_add (it_buffer it) (- offset)).
Definition iterator_diff (it other : iterator) : option Z := ptr_diff (it_buffer it) (it_buffer other).

Definition default : cbuffer_view := mk Null 0.
Definition of_buffer (b : Buffer.buffer) : cbuffer_view := mk (Buffer.data b) (Buffer.size b).

Definition data (v : cbuffer_view) : pointer := m_buffer v.
Definition size (v : cbuffer_view) : Z := m_size v.
Definition index (v : cbuffer_view) (pos : Z) : pointer := ptr_add (m_buffer v) pos.
Definition to_bool (v : cbuffer_view) : bool := bool_decide (m_buffer v ≠ Null).
Definition at_ (v : cbuffer_view) (pos : Z) : prog heap pointer :=
  if decide (pos >= m_size v) then throw out_of_range else ret (index v pos).

Definition begin (v : cbuffer_view) : iterator := It (m_buffer v).
Definition end_ (v : cbuffer_view) : iterator := It (ptr_add (m_buffer v) (m_size v)).
Definition cbegin (v : cbuffer_view) : iterator := begin v.
Definition cend (v : cbuffer_view) : iterator := end_ v.

(** The comparison loop of [operator==], from index [i] with [n] iterations left. *)
Fixpoint equal_loop (lhs rhs : cbuffer_view) (i : Z) (n : nat) : prog heap bool :=
  match n with
  | O => ret true
  | S n' =>
      let! x := load (index lhs i) in
      let! y := load (index rhs i) in
      if decide (x ≠ y) then ret false else equal_loop lhs rhs (i + 1) n'
  end.

Definition equal (lhs rhs : cbuffer_view) : prog heap bool :=
  if decide (size lhs ≠ size rhs) then ret false
  else equal_loop lhs rhs 0 (Z.to_nat (size lhs)).

Definition not_equal (lhs rhs : cbuffer_view) : prog heap bool :=
  let! r := equal lhs rhs in ret (negb r).

(** [views h v bs]: the view covers exactly the bytes [bs] of the heap. *)
Definition views (h : heap) (v : cbuffer_view) (bs : list Z) : Prop :=
  bytes_at h (m_buffer v) bs ∧ m_size v = Z.of_nat (length bs).

Lemma cviews_of_buffer h b bs : Buffer.owns h b bs → views h (of_buffer b) bs.
Proof. intros Ho. split; [by apply Buffer.owns_bytes_at | by destruct Ho as (? & _ & _ & ?)]. Qed.

Lemma cequal_loop_buffer lhs rhs i n h :
  equal_loop lhs rhs i n h
    = Buffer.equal_loop (Buffer.mk (m_buffer lhs) (m_size lhs))
                        (Buffer.mk (m_buffer rhs) (m_size rhs)) i n h.
Proof.
  revert i h. induction n as [|n IH]; intros i h; simpl; [done|].
  unfold bind, index, Buffer.index. simpl. repeat (case_match; try done).
Qed.

Lemma cequal_run h v w xs ys :
  views h v xs → views h w ys → equal v w h = Ok (bool_decide (xs = ys)) h.
Proof.
  intros [Hv Hsv] [Hw Hsw]. unfold equal, size. rewrite Hsv, Hsw.
  case_decide as Hsz.
  - unfold ret. rewrite bool_decide_eq_false_2; [done | intros ->; lia].
  - rewrite Nat2Z.id, cequal_loop_buffer.
    apply (Buffer.equal_loop_spec h _ _ [] xs ys); simpl; [lia | done | apply Hw].
Qed.
End CBufferView.

(** ** Properties *)

(** [buffer::copy] returns a buffer with the same bytes in memory of its
    own: the source is intact and stays so when the copy is written to. *)
Theorem buffer_copy_independent h b bs :
  Buffer.owns h b bs →
  ∃ b' h', Buffer.copy b h = Ok b' h' ∧ Buffer.owns h' b' bs ∧ Buffer.owns h' b bs ∧
    ∀ pos x h'', store (Buffer.index b' pos) x h' = Ok tt h'' → Buffer.owns h'' b bs.
Proof.
  intros Ho. eexists _, _. split; [by apply Buffer.copy_run|].
  destruct Ho as (l & Hp & Hl & Hs).
  assert (l ≠ fresh_loc h) as Hne by (intros ->; by rewrite fresh_loc_None in Hl).
  split_and!.
  - exists (fresh_loc h). split_and!; [done|apply lookup_insert_eq|done].
  - exists l. split_and!; [done|by rewrite lookup_insert_ne|done].
  - intros pos x h'' Hst. exists l. split_and!; [done| |done].
    unfold store, store_cell, Buffer.index in Hst. simpl in Hst. repeat case_match; simplify_eq.
    rewrite !lookup_insert_ne by done. done.
Qed.

Lemma buffer_copy_independent_witness :
  ∃ b' h', Buffer.copy (Buffer.mk (Ptr 1 0) 2) {[ 1%positive := [Some 5; Some 6] ]} = Ok b' h' ∧
    Buffer.owns h' b' [5; 6].
Proof.
  destruct (buffer_copy_independent {[ 1%positive := [Some 5; Some 6] ]} (Buffer.mk (Ptr 1 0) 2) [5; 6])
    as (b' & h' & Hc & Ho & _).
  - exists 1%positive. split; [reflexivity|split; reflexivity].
  - exists b', h'. split; assumption.
Defined.

(** Iterating a buffer with its iterators visits its bytes in order, and
    with the reverse iterators in reverse order; the loop ends at [end()]. *)
Theorem buffer_iteration h b bs :
  Buffer.owns h b bs →
  Buffer.traverse (S (length bs)) (Buffer.begin b) (Buffer.end_ b) h = Ok bs h ∧
  Buffer.traverse_reverse (S (length bs)) (Buffer.rbegin b) (Buffer.rend b) h = Ok (rev bs) h.
Proof.
  intros Ho. split.
  - pose proof (Buffer.traverse_spec h b [] bs (S (length bs)) Ho) as HT.
    unfold Buffer.iterator_add in HT. simpl in HT. rewrite ptr_add_0 in HT. apply HT. lia.
  - pose proof (Buffer.traverse_reverse_spec h b bs [] (S (length bs))) as HT.
    rewrite app_nil_r in HT. unfold Buffer.rbegin. destruct Ho as (l & Hp & Hl & Hs).
    rewrite Hs. apply HT; [by exists l|lia].
Qed.

Lemma buffer_iteration_witness :
  Buffer.traverse 3 (Buffer.It (Ptr 1 0)) (Buffer.It (Ptr 1 2)) {[ 1%positive := [Some 5; Some 6] ]}
    = Ok [5; 6] {[ 1%positive := [Some 5; Some 6] ]}.
Proof.
  apply (buffer_iteration {[ 1%positive := [Some 5; Some 6] ]} (Buffer.mk (Ptr 1 0) 2) [5; 6]).
  exists 1%positive. split; [reflexivity|split; reflexivity].
Defined.

(** [operator==] of constant views decides equality of the viewed bytes;
    [at] throws [out_of_range] exactly outside of the view and
    otherwise refers to the byte at that position. *)
Theorem view_access h v w xs ys pos :
  CBufferView.views h v xs → CBufferView.views h w ys → 0 ≤ pos →
  CBufferView.equal v w h = Ok (bool_decide (xs = ys)) h ∧
  (let! p := CBufferView.at_ v pos in load p) h =
    match xs !! Z.to_nat pos with Some x => Ok x h | None => Throw out_of_range h end.
Proof.
  intros Hv Hw Hpos. split; [by apply CBufferView.cequal_run|].
  unfold bind, CBufferView.at_. rewrite (proj2 Hv). destruct Hv as [Hv _]. case_decide as Hge.
  - by rewrite lookup_ge_None_2 by lia.
  - destruct (lookup_lt_is_Some_2 xs (Z.to_nat pos)) as [x Hx]; [lia|]. rewrite Hx.
    unfold ret, CBufferView.index. by eapply load_at_Z.
Qed.

Lemma view_access_witness :
  CBufferView.equal (CBufferView.mk (Ptr 1 0) 1) (CBufferView.mk (Ptr 1 1) 1)
    {[ 1%positive := [Some 5; Some 5] ]} = Ok true {[ 1%positive := [Some 5; Some 5] ]}.
Proof.
  apply (view_access {[ 1%positive := [Some 5; Some 5] ]} (CBufferView.mk (Ptr 1 0) 1)
           (CBufferView.mk (Ptr 1 1) 1) [5] [5] 0).
  - split; [|reflexivity]. intros [|i] x Hx; [by simplify_eq/=|by rewrite lookup_cons_ne_0 in Hx].
  - split; [|reflexivity]. intros [|i] x Hx; [by simplify_eq/=|by rewrite lookup_cons_ne_0 in Hx].
  - lia.
Defined.

(** A [buffer_view] aliases its buffer: a byte written through the view
    is the byte the buffer owns afterwards, and nothing else changes. *)
Theorem view_write_through h b bs pos x :
  Buffer.owns h b bs → 0 ≤ pos < Z.of_nat (length bs) →
  ∃ h', store (BufferView.index (BufferView.of_buffer b) pos) x h = Ok tt h' ∧
    Buffer.owns h' b (<[Z.to_nat pos := x]> bs).
Proof.
  intros (l & Hp & Hl & Hs) Hpos. unfold BufferView.index, BufferView.of_buffer, Buffer.data. simpl.
  rewrite Hp, ptr_add_start. unfold store, store_cell.
  destruct (Z_of_nat_complete pos) as [n ->]; [lia|].
  rewrite (cell_at_block _ _ _ _ Hl), Hl, Nat2Z.id.
  destruct (lookup_lt_is_Some_2 (Some <$> bs) n) as [c ->]; [rewrite length_fmap; lia|].
  eexists. split; [done|]. exists l. split_and!; [done| |by rewrite length_insert].
  rewrite lookup_insert_eq. by rewrite list_fmap_insert.
Qed.

Lemma view_write_through_witness :
  ∃ h', store (BufferView.index (BufferView.of_buffer (Buffer.mk (Ptr 1 0) 2)) 1) 9
          {[ 1%positive := [Some 5; Some 6] ]} = Ok tt h' ∧ Buffer.owns h' (Buffer.mk (Ptr 1 0) 2) [5; 9].
Proof.
  apply (view_write_through {[ 1%positive := [Some 5; Some 6] ]} (Buffer.mk (Ptr 1 0) 2) [5; 6] 1 9).
  - exists 1%positive. split; [reflexivity|split; reflexivity].
  - simpl. lia.
Defined.
