(* ===== verification/RpcTypes.v ===== *)
(** * Result codes, message types and constants of rpc-lib

    Models [rpc-lib/types/*.h], [rpc-lib/pipe/pipe-op-res.h],
    [pipe-wait-res.h], [rpc-lib/consts.h] and the enumeration of
    [transfer-message.h].  The enumerations that travel as a byte have
    [unsigned char] as underlying type: a cast from a byte that no enumerator
    has is a value of the type ([unlisted]). *)
From stdpp Require Import strings.
From S2P Require Import Prelude.
Local Open Scope Z_scope.

Module PipeOpRes.
Inductive pipe_op_res : Type := success | canceled | failed | timeout.
#[global] Instance pipe_op_res_eq_dec : EqDecision pipe_op_res.
Proof. solve_decision. Defined.

Definition is_success (r : pipe_op_res) : bool := bool_decide (r = success).
Definition is_fail (r : pipe_op_res) : bool := negb (is_success r).
Definition to_string (r : pipe_op_res) : string :=
  match r with
  | success => "success"
  | failed => "failed"
  | canceled => "canceled"
  | timeout => "timeout"
  end.
End PipeOpRes.

Module PipeWaitRes.
Inductive pipe_wait_res : Type := success | canceled | timeout | failed.
#[global] Instance pipe_wait_res_eq_dec : EqDecision pipe_wait_res.
Proof. solve_decision. Defined.

Definition is_success (r : pipe_wait_res) : bool := bool_decide (r = success).
Definition is_fail (r : pipe_wait_res) : bool := negb (is_success r).
Definition to_string (r : pipe_wait_res) : string :=
  match r with
  | success => "success"
  | canceled => "canceled"
  | timeout => "timeout"
  | failed => "failed"
  end.
End PipeWaitRes.

Module RequestResult.
Inductive request_result : Type :=
| ok | unknown_error | timeout | canceled | failed | send_timeout | send_canceled | send_failed
| request_too_big | request_not_processed | invalid_response | response_parse_error | no_connection.
#[global] Instance request_result_eq_dec : EqDecision request_result.
Proof. solve_decision. Defined.

Definition is_success (rc : request_result) : bool := bool_decide (rc = ok).
Definition is_fail (rc : request_result) : bool := negb (is_success rc).
Definition to_string (rc : request_result) : string :=
  match rc with
  | ok => "ok"
  | timeout => "timeout"
  | canceled => "canceled"
  | failed => "failed"
  | send_timeout => "send_timeout"
  | send_canceled => "send_canceled"
  | send_failed => "send_failed"
  | request_too_big => "request_too_big"
  | request_not_processed => "request_not_processed"
  | invalid_response => "invalid_response"
  | response_parse_error => "response_parse_error"
  | no_connection => "no_connection"
  | unknown_error => "unknown_error"
  end.
End RequestResult.

Module ResponseResult.
Inductive response_result : Type :=
| ok | unknown_error | canceled | request_parse_error | response_too_big | not_implemented
| invalid_request | unlisted (b : Z).
#[global] Instance response_result_eq_dec : EqDecision response_result.
Proof. solve_decision. Defined.

Definition is_success (rc : response_result) : bool := bool_decide (rc = ok).
Definition is_fail (rc : response_result) : bool := negb (is_success rc).

(** [static_cast<std::byte>(rc)] and [static_cast<response_result>(byte)]. *)
Definition to_byte (rc : response_result) : Z :=
  match rc with
  | ok => 0 | unknown_error => 1 | canceled => 2 | request_parse_error => 3
  | response_too_big => 4 | not_implemented => 5 | invalid_request => 6 | unlisted b => b
  end.
Definition of_byte (b : Z) : response_result :=
  match b with
  | 0 => ok | 1 => unknown_error | 2 => canceled | 3 => request_parse_error
  | 4 => response_too_big | 5 => not_implemented | 6 => invalid_request | _ => unlisted b
  end.
Definition to_string (rc : response_result) : string :=
  match rc with
  | ok => "ok"
  | canceled => "canceled"
  | request_parse_error => "request_parse_error"
  | response_too_big => "response_too_big"
  | not_implemented => "not_implemented"
  | invalid_request => "invalid_request"
  | unknown_error => "unknown_error"
  | unlisted _ => "unknown_error"
  end.

(** The values the type has: every listed enumerator and the other bytes. *)
Definition valid (rc : response_result) : Prop :=
  match rc with unlisted b => 7 ≤ b < 256 | _ => True end.

Lemma of_to_byte rc : valid rc → of_byte (to_byte rc) = rc.
Proof.
  destruct rc as [| | | | | | |b]; try done. simpl. intros [Hlo Hhi].
  destruct b as [|p|p]; try lia. do 3 (destruct p; try done); lia.
Qed.
Lemma to_byte_is_byte rc : valid rc → is_byte (to_byte rc).
Proof. destruct rc; unfold is_byte; simpl; lia. Qed.
End ResponseResult.

Module MsgType.
Inductive transfer_msg_type : Type := req | res | ping | pong | unlisted (b : Z).
#[global] Instance transfer_msg_type_eq_dec : EqDecision transfer_msg_type.
Proof. solve_decision. Defined.

Definition to_byte (t : transfer_msg_type) : Z :=
  match t with req => 0 | res => 1 | ping => 2 | pong => 3 | unlisted b => b end.
Definition of_byte (b : Z) : transfer_msg_type :=
  match b with 0 => req | 1 => res | 2 => ping | 3 => pong | _ => unlisted b end.
End MsgType.

Module Consts.
Definition MaxTransferMessageSize : Z := 1024 * 1024 + 100.
Definition MaxRequestProtoSize : Z := 1024 * 1024.
Definition MaxResponseProtoSize : Z := 1024 * 1024.
End Consts.

(** [rpc-lib/types/config.h], in milliseconds. *)
Module Config.
Record config : Type := mk {
  handshake_timeout : Z;
  send_timeout : Z;
  recv_timeout : Z;
  check_connection_period : Z;
  ping_timeout : Z
}.
Definition default : config := mk 2000 2000 10000 1000 10000.
End Config.
