(* ===== verification/BigEndian.v ===== *)
(** * Big-endian numbers: the reference codec

    The specification of the byte order used by the transfer messages and by
    the TCP framing, with the lemmas both use. *)
From S2P Require Import Prelude.
Local Open Scope Z_scope.

Fixpoint be_encode (n : nat) (x : Z) : list Z :=
  match n with
  | O => []
  | S n' => (x / 256 ^ Z.of_nat n') mod 256 :: be_encode n' x
  end.

Fixpoint be_decode (bs : list Z) : Z :=
  match bs with
  | [] => 0
  | b :: bs' => b * 256 ^ Z.of_nat (length bs') + be_decode bs'
  end.

Lemma pow256_pos n : 0 < 256 ^ Z.of_nat n.
Proof. apply Z.pow_pos_nonneg; lia. Qed.

Lemma pow256_S n : 256 ^ Z.of_nat (S n) = 256 * 256 ^ Z.of_nat n.
Proof. rewrite Nat2Z.inj_succ, Z.pow_succ_r; lia. Qed.

Lemma pow256_pow2 n : 256 ^ Z.of_nat n = 2 ^ (8 * Z.of_nat n).
Proof. change 256 with (2 ^ 8). rewrite <- Z.pow_mul_r; lia. Qed.

Lemma length_be_encode n x : length (be_encode n x) = n.
Proof. induction n; simpl; auto. Qed.

Lemma be_encode_bytes n x : Forall is_byte (be_encode n x).
Proof.
  induction n; simpl; constructor; [|done].
  unfold is_byte. pose proof (Z.mod_pos_bound (x / 256 ^ Z.of_nat n) 256). lia.
Qed.

Lemma be_decode_encode n x : be_decode (be_encode n x) = x mod 256 ^ Z.of_nat n.
Proof.
  induction n as [|n IH]; [by rewrite Z.mod_1_r|].
  cbn [be_encode be_decode]. rewrite length_be_encode, IH, pow256_S.
  pose proof (pow256_pos n). rewrite (Z.mul_comm 256), Z.rem_mul_r by lia. lia.
Qed.

Lemma be_decode_range bs : Forall is_byte bs → 0 ≤ be_decode bs < 256 ^ Z.of_nat (length bs).
Proof.
  induction 1 as [|b bs Hb _ IH]; [done|]. cbn [be_decode length]. rewrite pow256_S.
  unfold is_byte in Hb. nia.
Qed.

Lemma be_decode_encode_id n x : 0 ≤ x < 256 ^ Z.of_nat n → be_decode (be_encode n x) = x.
Proof. intros. by rewrite be_decode_encode, Z.mod_small. Qed.

(** Appending a byte: the step of a big-endian reader. *)
Lemma lor_shift_byte a b k :
  0 ≤ k → is_byte b → Z.lor (a * 2 ^ (k + 8)) (b * 2 ^ k) = (a * 256 + b) * 2 ^ k.
Proof.
  intros Hk Hb. unfold is_byte in Hb.
  rewrite Z.pow_add_r, (Z.mul_comm (2 ^ k)), Z.mul_assoc by lia. change (2 ^ 8) with 256.
  rewrite <- !Z.shiftl_mul_pow2, <- Z.shiftl_lor by lia. f_equal.
  assert (Z.land (a * 256) b = 0) as Hl.
  { change 256 with (2 ^ 8). rewrite <- Z.shiftl_mul_pow2 by lia.
    apply Z.bits_inj'. intros n Hn. rewrite Z.land_spec, Z.bits_0.
    destruct (decide (n < 8)).
    - by rewrite Z.shiftl_spec_low.
    - rewrite <- (Z.mod_small b (2 ^ 8)), (Z.mod_pow2_bits_high b) by lia. by rewrite andb_false_r. }
  rewrite <- Z.lxor_lor, <- Z.add_nocarry_lxor by done. done.
Qed.

Lemma land_255 x : Z.land x 255 = x mod 256.
Proof. change 255 with (Z.ones 8). by rewrite Z.land_ones. Qed.

Lemma be_decode_app bs1 bs2 :
  be_decode (bs1 ++ bs2) = be_decode bs1 * 256 ^ Z.of_nat (length bs2) + be_decode bs2.
Proof.
  induction bs1 as [|b bs1 IH]; [simpl; lia|]. cbn [be_decode app].
  rewrite IH, length_app, Nat2Z.inj_add, Z.pow_add_r by lia. lia.
Qed.

Lemma be_encode_decode bs : Forall is_byte bs → be_encode (length bs) (be_decode bs) = bs.
Proof.
  assert (∀ n x y, be_encode n (x * 256 ^ Z.of_nat n + y) = be_encode n y) as Hlow.
  { induction n as [|n IH]; intros x y; [done|]. cbn [be_encode]. pose proof (pow256_pos n). rewrite pow256_S. f_equal.
    - replace (x * (256 * 256 ^ Z.of_nat n) + y) with (x * 256 * 256 ^ Z.of_nat n + y) by ring.
      by rewrite Z.div_add_l, Z.add_comm, Z.mod_add by lia.
    - replace (x * (256 * 256 ^ Z.of_nat n) + y) with (x * 256 * 256 ^ Z.of_nat n + y) by ring. apply IH. }
  induction 1 as [|b bs Hb Hbs IH]; [done|]. cbn [be_encode be_decode length]. rewrite Hlow, IH.
  pose proof (be_decode_range bs Hbs). pose proof (pow256_pos (length bs)).
  rewrite Z.div_add_l, (Z.div_small (be_decode bs)), Z.add_0_r, Z.mod_small by (unfold is_byte in Hb; lia). done.
Qed.
