(* ===== verification/TransferMessage.v ===== *)
(** * Transfer messages: the wire format

    Models [rpc-lib/internal/transfer-message/transfer-message.{h,cpp}]:
    building and parsing of request, response, ping and pong messages on the
    heap of [Memory].  Google protobuf is the parameter [Proto].  A failing
    [assert] is [UB], so a theorem that excludes [UB] also shows that the
    assertions hold. *)
From S2P Require Import Prelude Memory Buffer BufferView RpcTypes.
Import Memory.
Local Open Scope Z_scope.
Local Open Scope prog_scope.

(** The protobuf message interface used by the library. *)
Class Proto (Msg : Type) : Type := {
  ByteSizeLong : Msg → Z;
  (** The bytes [SerializeToArray] writes; [None] when serialization fails. *)
  serialize : Msg → option (list Z);
  (** The message [ParseFromArray] reads; [None] when it returns false. *)
  parse : list Z → option Msg;
  (** What [ParseFromArray] leaves in the message when it returns false. *)
  parse_rest : list Z → Msg
}.

(** What protobuf documents of it. *)
Class ProtoLaws (Msg : Type) `{Proto Msg} : Prop := {
  ByteSizeLong_nonneg m : 0 ≤ ByteSizeLong m;
  serialize_length m bs : serialize m = Some bs → Z.of_nat (length bs) = ByteSizeLong m;
  serialize_bytes m bs : serialize m = Some bs → Forall is_byte bs;
  parse_serialize m bs : serialize m = Some bs → parse bs = Some m
}.

Module TransferMessage.
Abbreviation cview := CBufferView.cbuffer_view.
Abbreviation buffer := Buffer.buffer.

Definition s_bits_in_byte : Z := 8.
Definition s_message_type_bytes_count : Z := 1.
Definition s_serialized_proto_message_size_bytes_count : Z := 4.
Definition s_message_number_bytes_count : Z := 8.
Definition s_method_idx_bytes_count : Z := 4.
Definition s_result_code_bytes_count : Z := 1.
Definition s_header_bytes_count : Z :=
  s_message_type_bytes_count + s_serialized_proto_message_size_bytes_count.
Definition s_req_trailer_bytes_count : Z :=
  s_message_number_bytes_count + s_method_idx_bytes_count.
Definition s_res_trailer_bytes_count : Z :=
  s_message_number_bytes_count + s_result_code_bytes_count.

Definition assert (P : Prop) `{Decision P} : prog heap unit :=
  if decide P then ret tt else undefined.

(** [size_t] subtraction. *)
Definition size_sub (a b : Z) : Z := u64 (a - b).

(** ** Big-endian numbers *)

(** The loop of both readers: index [i], [n] iterations left, width [w]. *)
Fixpoint to_uint_loop (w : Z) (bytes : cview) (i : Z) (n : nat) (ans : Z) : prog heap Z :=
  match n with
  | O => ret ans
  | S n' =>
      let offset := wrap w (wrap w (size_sub (size_sub (CBufferView.size bytes) i) 1) * s_bits_in_byte) in
      let! b := load (CBufferView.index bytes i) in
      let add_bits := wrap w (Z.shiftl b offset) in
      to_uint_loop w bytes (i + 1) n' (Z.lor ans add_bits)
  end.

Definition to_uint32_to_big_endian (bytes : cview) : prog heap Z :=
  assert (CBufferView.size bytes = 4) ;!
  to_uint_loop 32 bytes 0 (Z.to_nat (CBufferView.size bytes)) 0.

Definition to_uint64_big_endian (bytes : cview) : prog heap Z :=
  assert (CBufferView.size bytes = 8) ;!
  to_uint_loop 64 bytes 0 (Z.to_nat (CBufferView.size bytes)) 0.

(** The loop of both writers: element [i] of an array of [max_size] bytes. *)
Fixpoint from_uint_loop (max_size i : Z) (n : nat) (number : Z) : list Z :=
  match n with
  | O => []
  | S n' =>
      let offset := u32 (u32 (max_size - i - 1) * s_bits_in_byte) in
      Z.land (Z.shiftr number offset) 255 :: from_uint_loop max_size (i + 1) n' number
  end.

Definition from_uint32_to_big_endian (number : Z) : list Z := from_uint_loop 4 0 4 number.
Definition from_uint64_big_endian (number : Z) : list Z := from_uint_loop 8 0 8 number.

(** ** Reading *)
Definition extract_message_size (message : cview) : prog heap Z :=
  let begin := ptr_add (CBufferView.data message) s_message_type_bytes_count in
  to_uint32_to_big_endian (CBufferView.mk begin s_serialized_proto_message_size_bytes_count).

Definition is_request_buffer_valid (buff : cview) : prog heap bool :=
  if negb (CBufferView.to_bool buff) then ret false
  else if decide (CBufferView.size buff < s_header_bytes_count + s_req_trailer_bytes_count) then ret false
  else
    let! b0 := load (CBufferView.index buff 0) in
    if decide (MsgType.of_byte b0 ≠ MsgType.req) then ret false
    else
      let! n := extract_message_size buff in
      ret (bool_decide (n ≤ size_sub (size_sub (CBufferView.size buff) s_header_bytes_count)
                                     s_req_trailer_bytes_count)).

Definition is_response_buffer_valid (buff : cview) : prog heap bool :=
  if negb (CBufferView.to_bool buff) then ret false
  else if decide (CBufferView.size buff < s_header_bytes_count + s_res_trailer_bytes_count) then ret false
  else
    let! b0 := load (CBufferView.index buff 0) in
    if decide (MsgType.of_byte b0 ≠ MsgType.res) then ret false
    else
      let! n := extract_message_size buff in
      ret (bool_decide (n ≤ size_sub (size_sub (CBufferView.size buff) s_header_bytes_count)
                                     s_res_trailer_bytes_count)).

Definition get_transfer_msg_type (message : cview) : prog heap MsgType.transfer_msg_type :=
  if negb (CBufferView.to_bool message) || bool_decide (CBufferView.size message = 0)
  then throw runtime_error
  else let! b0 := load (CBufferView.index message 0) in ret (MsgType.of_byte b0).

Definition get_serialized_proto_message (message : cview) : prog heap cview :=
  if negb (CBufferView.to_bool message) then throw runtime_error
  else if decide (s_header_bytes_count > CBufferView.size message) then throw runtime_error
  else
    let! n := extract_message_size message in
    if decide (n > size_sub (CBufferView.size message) s_header_bytes_count) then throw runtime_error
    else
      let begin := ptr_add (CBufferView.data message) s_header_bytes_count in
      let! n' := extract_message_size message in
      ret (CBufferView.mk begin n').

Definition get_msg_number_req (message : cview) : prog heap Z :=
  let! valid := is_request_buffer_valid message in
  if negb valid then throw runtime_error
  else
    let! n := extract_message_size message in
    let begin := ptr_add (ptr_add (CBufferView.data message) s_header_bytes_count) n in
    to_uint64_big_endian (CBufferView.mk begin s_message_number_bytes_count).

Definition get_msg_method_idx_req (message : cview) : prog heap Z :=
  let! valid := is_request_buffer_valid message in
  if negb valid then throw runtime_error
  else
    let! n := extract_message_size message in
    let begin := ptr_add (ptr_add (ptr_add (CBufferView.data message) s_header_bytes_count) n)
                         s_message_number_bytes_count in
    to_uint32_to_big_endian (CBufferView.mk begin s_method_idx_bytes_count).

Definition get_msg_number_res (message : cview) : prog heap Z :=
  let! valid := is_response_buffer_valid message in
  if negb valid then throw runtime_error
  else
    let! n := extract_message_size message in
    let begin := ptr_add (ptr_add (CBufferView.data message) s_header_bytes_count) n in
    to_uint64_big_endian (CBufferView.mk begin s_message_number_bytes_count).

Definition get_msg_response_code_res (message : cview) : prog heap ResponseResult.response_result :=
  let! valid := is_response_buffer_valid message in
  if negb valid then throw runtime_error
  else
    let! n := extract_message_size message in
    let iter := ptr_add (ptr_add (ptr_add (CBufferView.data message) s_header_bytes_count) n)
                        s_message_number_bytes_count in
    let! b := load iter in
    ret (ResponseResult.of_byte b).

(** ** Writing *)

(** [for(i...) buff[pos++] = bytes[i]]: returns the position after. *)
Fixpoint fill_bytes (buff : buffer) (pos : Z) (bytes : list Z) : prog heap Z :=
  match bytes with
  | [] => ret pos
  | b :: bytes' => store (Buffer.index buff pos) b ;! fill_bytes buff (pos + 1) bytes'
  end.

Definition fill_message_type_byte (buff : buffer) (pos : Z) (type : MsgType.transfer_msg_type) : prog heap Z :=
  store (Buffer.index buff pos) (MsgType.to_byte type) ;! ret (pos + 1).

Definition fill_serialized_message_size_bytes (buff : buffer) (pos size : Z) : prog heap Z :=
  fill_bytes buff pos (from_uint32_to_big_endian size).

Definition fill_message_number_bytes (buff : buffer) (pos message_number : Z) : prog heap Z :=
  fill_bytes buff pos (from_uint64_big_endian message_number).

Definition fill_method_idx_bytes (buff : buffer) (pos method_idx : Z) : prog heap Z :=
  fill_bytes buff pos (from_uint32_to_big_endian method_idx).

Definition fill_response_result_bytes (buff : buffer) (pos : Z) (rc : ResponseResult.response_result) : prog heap Z :=
  store (Buffer.index buff pos) (ResponseResult.to_byte rc) ;! ret (pos + 1).

(** Stack unwinding destroys a local buffer. *)
Definition with_local {A} (b : buffer) (m : prog heap A) : prog heap A := λ h,
  match m h with
  | Throw e h' =>
      match Buffer.destroy b h' with Ok _ h'' => Throw e h'' | _ => UB end
  | r => r
  end.

Section proto.
Context {Msg : Type} `{Proto Msg}.

(** [SerializeToArray(p, capacity)]: writes the serialized bytes, or
    returns false when they do not fit or serialization fails. *)
Fixpoint store_bytes (p : pointer) (bs : list Z) : prog heap unit :=
  match bs with
  | [] => ret tt
  | b :: bs' => store p b ;! store_bytes (ptr_add p 1) bs'
  end.
Definition SerializeToArray (m : Msg) (p : pointer) (capacity : Z) : prog heap bool :=
  match serialize m with
  | None => ret false
  | Some bs =>
      if decide (Z.of_nat (length bs) ≤ capacity) then store_bytes p bs ;! ret true else ret false
  end.

Definition fill_serialized_message_bytes (buff : buffer) (pos : Z) (message : option Msg)
    (serialized_message_size : Z) : prog heap Z :=
  match message with
  | None => ret pos
  | Some m =>
      assert (size_sub (Buffer.size buff) pos >= serialized_message_size) ;!
      let! ok := SerializeToArray m (ptr_add (Buffer.data buff) pos)
                                  (size_sub (Buffer.size buff) pos) in
      if negb ok then throw runtime_error else ret (pos + serialized_message_size)
  end.

Definition is_request_proto_too_big (m : Msg) : bool :=
  bool_decide (ByteSizeLong m > Consts.MaxRequestProtoSize).
Definition is_response_proto_too_big (m : Msg) : bool :=
  bool_decide (ByteSizeLong m > Consts.MaxResponseProtoSize).

Definition create_transfer_msg_req (message_number method_idx : Z) (message : option Msg) : prog heap buffer :=
  let serialized_message_size := match message with Some m => ByteSizeLong m | None => 0 end in
  if decide (serialized_message_size > Consts.MaxRequestProtoSize) then throw runtime_error
  else
    let buf_size := u32 (s_header_bytes_count + u32 serialized_message_size + s_req_trailer_bytes_count) in
    let! ans := Buffer.create buf_size in
    with_local ans (
      let! pos := fill_message_type_byte ans 0 MsgType.req in
      let! pos := fill_serialized_message_size_bytes ans pos (u32 serialized_message_size) in
      let! pos := fill_serialized_message_bytes ans pos message (u32 serialized_message_size) in
      let! pos := fill_message_number_bytes ans pos message_number in
      let! pos := fill_method_idx_bytes ans pos method_idx in
      assert (pos = buf_size) ;!
      ret ans).

Definition create_transfer_msg_res (message_number : Z) (rc : ResponseResult.response_result)
    (message : option Msg) : prog heap buffer :=
  let serialized_message_size := match message with Some m => ByteSizeLong m | None => 0 end in
  if decide (serialized_message_size > Consts.MaxResponseProtoSize) then throw runtime_error
  else
    let buf_size := u32 (s_header_bytes_count + u32 serialized_message_size + s_res_trailer_bytes_count) in
    let! ans := Buffer.create buf_size in
    with_local ans (
      let! pos := fill_message_type_byte ans 0 MsgType.res in
      let! pos := fill_serialized_message_size_bytes ans pos (u32 serialized_message_size) in
      let! pos := fill_serialized_message_bytes ans pos message (u32 serialized_message_size) in
      let! pos := fill_message_number_bytes ans pos message_number in
      let! pos := fill_response_result_bytes ans pos rc in
      assert (pos = buf_size) ;!
      ret ans).
End proto.

Definition create_transfer_msg_ping : prog heap buffer :=
  let! b := Buffer.create 1 in
  store (Buffer.index b 0) (MsgType.to_byte MsgType.ping) ;! ret b.

Definition create_transfer_msg_pong : prog heap buffer :=
  let! b := Buffer.create 1 in
  store (Buffer.index b 0) (MsgType.to_byte MsgType.pong) ;! ret b.
End TransferMessage.
