(* ===== verification/TransferMessageFacts.v ===== *)
(** * Correctness of the wire format

    The readers return, on every buffer, what a parser on byte lists
    specifies, without undefined behaviour; the writers lay the message out
    as documented; parsing inverts building. *)
From S2P Require Import Prelude Memory Buffer BufferView RpcTypes BigEndian TransferMessage.
Import Memory TransferMessage.
Local Open Scope Z_scope.
Local Open Scope prog_scope.

(** ** Sub-views *)
Definition slice (k n : Z) (bs : list Z) : list Z := take (Z.to_nat n) (drop (Z.to_nat k) bs).

Lemma length_slice k n bs :
  0 ≤ k → 0 ≤ n → k + n ≤ Z.of_nat (length bs) → Z.of_nat (length (slice k n bs)) = n.
Proof. intros. unfold slice. rewrite length_take, length_drop. lia. Qed.

Lemma slice_bytes k n bs : Forall is_byte bs → Forall is_byte (slice k n bs).
Proof. intros. by apply Forall_take, Forall_drop. Qed.

Lemma slice_middle pre mid post k n :
  k = Z.of_nat (length pre) → n = Z.of_nat (length mid) → slice k n (pre ++ mid ++ post) = mid.
Proof.
  intros -> ->. unfold slice. rewrite !Nat2Z.id, drop_app_length.
  by rewrite take_app_length.
Qed.

Lemma views_slice h p bs k n :
  bytes_at h p bs → 0 ≤ k → 0 ≤ n → k + n ≤ Z.of_nat (length bs) →
  CBufferView.views h (CBufferView.mk (ptr_add p k) n) (slice k n bs).
Proof.
  intros Hb Hk Hn Hl. split; simpl.
  - intros i x Hi. rewrite ptr_add_add. replace (k + Z.of_nat i) with (Z.of_nat (Z.to_nat k + i)) by lia.
    apply Hb. unfold slice in Hi. apply lookup_take_Some in Hi as [Hi _].
    by rewrite lookup_drop in Hi.
  - symmetry. by apply length_slice.
Qed.

(** ** The numeric codec of the code is the reference codec *)
Lemma from_uint_loop_encode max_size n number :
  0 ≤ max_size ≤ 1024 → Z.of_nat n ≤ max_size →
  from_uint_loop max_size (max_size - Z.of_nat n) n number = be_encode n number.
Proof.
  intros Hm. induction n as [|n IH]; intros Hn; [done|]. cbn [from_uint_loop be_encode].
  rewrite <- IH by lia. f_equal; [|f_equal; lia].
  rewrite land_255. unfold s_bits_in_byte.
  rewrite (wrap_small 32 (_ - _ - 1)), wrap_small by lia.
  rewrite Z.shiftr_div_pow2 by lia. rewrite pow256_pow2. do 3 f_equal. lia.
Qed.

Lemma from_uint32_encode x : from_uint32_to_big_endian x = be_encode 4 x.
Proof. apply (from_uint_loop_encode 4 4); lia. Qed.

Lemma from_uint64_encode x : from_uint64_big_endian x = be_encode 8 x.
Proof. apply (from_uint_loop_encode 8 8); lia. Qed.

Lemma to_uint_loop_decode h v w pre xs :
  CBufferView.views h v (pre ++ xs) → Forall is_byte (pre ++ xs) →
  w = 8 * Z.of_nat (length (pre ++ xs)) → 32 ≤ w ≤ 64 →
  to_uint_loop w v (Z.of_nat (length pre)) (length xs) (be_decode pre * 256 ^ Z.of_nat (length xs)) h
    = Ok (be_decode (pre ++ xs)) h.
Proof.
  revert pre. induction xs as [|x xs IH]; intros pre [Hv Hs] Hb Hw Hr; cbn [to_uint_loop length].
  - rewrite app_nil_r in *. unfold ret. by rewrite Z.mul_1_r.
  - unfold bind, CBufferView.index, CBufferView.size.
    rewrite (load_at _ _ _ _ x Hv) by (by rewrite list_lookup_middle).
    assert (is_byte x) as Hx by (rewrite Forall_app, Forall_cons in Hb; tauto).
    rewrite length_app in Hw, Hs. simpl in Hw, Hs.
    assert (2 ^ 32 ≤ 2 ^ w) as Hw32 by (apply Z.pow_le_mono_r; lia).
    unfold size_sub, s_bits_in_byte. rewrite Hs.
    rewrite (wrap_small 64 (_ - Z.of_nat (length pre))), (wrap_small 64), !(wrap_small w (_ - 1)), (wrap_small w (_ * 8)) by lia.
    replace ((_ - 1) * 8) with (8 * Z.of_nat (length xs)) by lia.
    assert (0 ≤ x * 2 ^ (8 * Z.of_nat (length xs)) < 2 ^ w) as Hadd.
    { assert (2 ^ (8 + 8 * Z.of_nat (length xs)) ≤ 2 ^ w) as Hle by (apply Z.pow_le_mono_r; lia).
      rewrite Z.pow_add_r in Hle by lia. unfold is_byte in Hx.
      pose proof (Z.pow_pos_nonneg 2 (8 * Z.of_nat (length xs))). nia. }
    rewrite Z.shiftl_mul_pow2, wrap_small by lia.
    rewrite pow256_pow2. replace (8 * Z.of_nat (S (length xs))) with (8 * Z.of_nat (length xs) + 8) by lia.
    rewrite lor_shift_byte by (done || lia).
    specialize (IH (pre ++ [x])). rewrite <- app_assoc, length_app, be_decode_app in IH. simpl in IH.
    replace (Z.of_nat (length pre) + 1) with (Z.of_nat (length (pre ++ [x])))
      by (rewrite length_app; simpl; lia).
    rewrite Z.pow_1_r, Z.mul_1_r, Z.add_0_r, pow256_pow2 in IH. apply IH; [split|..]; try done.
    rewrite length_app. simpl. lia.
Qed.

Lemma to_uint32_run h v bs :
  CBufferView.views h v bs → Forall is_byte bs → Z.of_nat (length bs) = 4 →
  to_uint32_to_big_endian v h = Ok (be_decode bs) h.
Proof.
  intros Hv Hb Hl. unfold to_uint32_to_big_endian, assert, bind, CBufferView.size.
  rewrite (proj2 Hv), Hl, decide_True by done. unfold ret. rewrite <- Hl, Nat2Z.id.
  apply (to_uint_loop_decode h v 32 [] bs); simpl; try done; lia.
Qed.

Lemma to_uint64_run h v bs :
  CBufferView.views h v bs → Forall is_byte bs → Z.of_nat (length bs) = 8 →
  to_uint64_big_endian v h = Ok (be_decode bs) h.
Proof.
  intros Hv Hb Hl. unfold to_uint64_big_endian, assert, bind, CBufferView.size.
  rewrite (proj2 Hv), Hl, decide_True by done. unfold ret. rewrite <- Hl, Nat2Z.id.
  apply (to_uint_loop_decode h v 64 [] bs); simpl; try done; lia.
Qed.

(** ** The parser on byte lists *)
Definition proto_size (bs : list Z) : Z := be_decode (slice 1 4 bs).

(** A frame of the given type with a trailer of the given size is well formed. *)
Definition frame_valid (type : MsgType.transfer_msg_type) (trailer : Z) (bs : list Z) : bool :=
  bool_decide (5 + trailer ≤ Z.of_nat (length bs)) &&
  bool_decide (MsgType.of_byte <$> (bs !! 0%nat) = Some type) &&
  bool_decide (proto_size bs ≤ Z.of_nat (length bs) - 5 - trailer).
Definition req_valid : list Z → bool := frame_valid MsgType.req 12.
Definition res_valid : list Z → bool := frame_valid MsgType.res 9.

Lemma frame_valid_size type trailer bs :
  frame_valid type trailer bs = true → 5 + proto_size bs + trailer ≤ Z.of_nat (length bs).
Proof. unfold frame_valid. rewrite !andb_true_iff, !bool_decide_eq_true. lia. Qed.

Section readers.
Context (h : heap) (v : cview) (bs : list Z).
Hypothesis Hviews : CBufferView.views h v bs.
Hypothesis Hbytes : Forall is_byte bs.
Hypothesis Hsize : Z.of_nat (length bs) < 2 ^ 64.

Lemma to_bool_nonempty : (0 < length bs)%nat → CBufferView.to_bool v = true.
Proof using Hviews Hbytes Hsize.
  intros Hl. unfold CBufferView.to_bool. apply bool_decide_eq_true_2. intros Hn.
  destruct Hviews as [Hb _]. destruct bs as [|b bs']; [simpl in Hl; lia|].
  specialize (Hb 0%nat b eq_refl). by rewrite Hn in Hb.
Qed.

Lemma size_length : CBufferView.size v = Z.of_nat (length bs).
Proof using Hviews Hbytes Hsize. apply Hviews. Qed.

Lemma proto_size_nonneg : 0 ≤ proto_size bs.
Proof using Hbytes. apply be_decode_range. by apply slice_bytes. Qed.

Lemma extract_message_size_run :
  5 ≤ Z.of_nat (length bs) → extract_message_size v h = Ok (proto_size bs) h.
Proof using Hviews Hbytes Hsize.
  intros Hl. unfold extract_message_size. apply to_uint32_run.
  - apply views_slice; [apply Hviews | unfold s_message_type_bytes_count; lia..|].
    unfold s_message_type_bytes_count, s_serialized_proto_message_size_bytes_count. lia.
  - by apply slice_bytes.
  - apply length_slice; lia.
Qed.

Lemma load_first : (0 < length bs)%nat → ∃ b, bs !! 0%nat = Some b ∧ load (CBufferView.index v 0) h = Ok b h.
Proof using Hviews Hbytes Hsize.
  intros Hl. destruct (lookup_lt_is_Some_2 bs 0 Hl) as [b Hb]. exists b. split; [done|].
  by apply (load_at _ _ _ 0 b (proj1 Hviews)).
Qed.

(** Both validity tests compute [frame_valid]; they differ in type and trailer. *)
Lemma frame_valid_run type trailer :
  0 ≤ trailer ≤ 12 →
  (if negb (CBufferView.to_bool v) then ret false
   else if decide (CBufferView.size v < s_header_bytes_count + trailer) then ret false
   else
     let! b0 := load (CBufferView.index v 0) in
     if decide (MsgType.of_byte b0 ≠ type) then ret false
     else
       let! n := extract_message_size v in
       ret (bool_decide (n ≤ size_sub (size_sub (CBufferView.size v) s_header_bytes_count) trailer))) h
    = Ok (frame_valid type trailer bs) h.
Proof using Hviews Hbytes Hsize.
  intros Ht. unfold frame_valid. rewrite size_length.
  change s_header_bytes_count with 5.
  destruct (decide (length bs = 0%nat)) as [H0|H0].
  { rewrite (bool_decide_eq_false_2 (5 + trailer ≤ _)) by lia. simpl.
    destruct (CBufferView.to_bool v); simpl; [|done]. rewrite decide_True by lia. done. }
  rewrite to_bool_nonempty by lia. simpl. case_decide as Hlt.
  - by rewrite bool_decide_eq_false_2 by lia.
  - rewrite bool_decide_eq_true_2 by lia. simpl.
    destruct load_first as (b & Hb & HL); [lia|]. unfold bind at 1. rewrite HL, Hb. simpl.
    case_decide as Htype.
    + rewrite bool_decide_eq_false_2 by congruence. done.
    + rewrite Htype, bool_decide_eq_true_2 by done.
      unfold bind. rewrite extract_message_size_run by lia. unfold ret, size_sub.
      by rewrite (wrap_small 64 (_ - 5)), wrap_small by lia.
Qed.

Lemma is_request_buffer_valid_run : is_request_buffer_valid v h = Ok (req_valid bs) h.
Proof using Hviews Hbytes Hsize. apply (frame_valid_run MsgType.req 12). lia. Qed.

Lemma is_response_buffer_valid_run : is_response_buffer_valid v h = Ok (res_valid bs) h.
Proof using Hviews Hbytes Hsize. apply (frame_valid_run MsgType.res 9). lia. Qed.


Lemma get_transfer_msg_type_run :
  get_transfer_msg_type v h =
    match bs !! 0%nat with None => Throw runtime_error h | Some b => Ok (MsgType.of_byte b) h end.
Proof using Hviews Hbytes Hsize.
  unfold get_transfer_msg_type. rewrite size_length.
  destruct (decide (length bs = 0%nat)) as [H0|H0].
  - rewrite bool_decide_eq_true_2 by lia. rewrite orb_true_r. by rewrite lookup_ge_None_2 by lia.
  - rewrite to_bool_nonempty by lia. rewrite bool_decide_eq_false_2 by lia. simpl.
    destruct load_first as (b' & -> & HL); [lia|]. unfold bind. by rewrite HL.
Qed.

Lemma get_serialized_proto_message_run :
  get_serialized_proto_message v h =
    if bool_decide (5 ≤ Z.of_nat (length bs)) && bool_decide (5 + proto_size bs ≤ Z.of_nat (length bs))
    then Ok (CBufferView.mk (ptr_add (CBufferView.data v) 5) (proto_size bs)) h
    else Throw runtime_error h.
Proof using Hviews Hbytes Hsize.
  unfold get_serialized_proto_message. rewrite size_length. change s_header_bytes_count with 5.
  destruct (decide (length bs = 0%nat)) as [H0|H0].
  { rewrite (bool_decide_eq_false_2 (5 ≤ _)) by lia. simpl.
    destruct (CBufferView.to_bool v); simpl; [|done]. by rewrite decide_True by lia. }
  rewrite to_bool_nonempty by lia. simpl. case_decide as Hlt.
  - by rewrite bool_decide_eq_false_2 by lia.
  - rewrite bool_decide_eq_true_2 by lia. simpl.
    unfold bind. rewrite extract_message_size_run by lia. unfold size_sub.
    rewrite wrap_small by lia. case_decide as Hn.
    + by rewrite bool_decide_eq_false_2 by lia.
    + by rewrite bool_decide_eq_true_2, extract_message_size_run by lia.
Qed.

(** Reading a big-endian field of the trailer at [off] bytes past the payload. *)
Lemma trailer_field off n :
  0 ≤ off → 0 ≤ n → 5 + proto_size bs + off + n ≤ Z.of_nat (length bs) →
  CBufferView.views h
    (CBufferView.mk (ptr_add (ptr_add (ptr_add (CBufferView.data v) 5) (proto_size bs)) off) n)
    (slice (5 + proto_size bs + off) n bs).
Proof using Hviews Hbytes Hsize.
  intros. pose proof proto_size_nonneg.
  replace (ptr_add (ptr_add (ptr_add _ _) _) off)
    with (ptr_add (CBufferView.data v) (5 + proto_size bs + off))
    by (rewrite !ptr_add_add; f_equal; lia).
  apply views_slice; [apply Hviews|lia..].
Qed.

Lemma get_msg_number_req_run :
  get_msg_number_req v h =
    if req_valid bs then Ok (be_decode (slice (5 + proto_size bs) 8 bs)) h else Throw runtime_error h.
Proof using Hviews Hbytes Hsize.
  unfold get_msg_number_req, bind at 1. rewrite is_request_buffer_valid_run.
  destruct (req_valid bs) eqn:Hv; [|done]. apply frame_valid_size in Hv. simpl.
  pose proof proto_size_nonneg.
  unfold bind. rewrite extract_message_size_run by lia.
  pose proof (trailer_field 0 8) as HT. rewrite ptr_add_0, Z.add_0_r in HT.
  apply to_uint64_run; [apply HT; lia | by apply slice_bytes | apply length_slice; lia].
Qed.

Lemma get_msg_method_idx_req_run :
  get_msg_method_idx_req v h =
    if req_valid bs then Ok (be_decode (slice (5 + proto_size bs + 8) 4 bs)) h else Throw runtime_error h.
Proof using Hviews Hbytes Hsize.
  unfold get_msg_method_idx_req, bind at 1. rewrite is_request_buffer_valid_run.
  destruct (req_valid bs) eqn:Hv; [|done]. apply frame_valid_size in Hv. simpl.
  pose proof proto_size_nonneg.
  unfold bind. rewrite extract_message_size_run by lia.
  apply to_uint32_run; [apply (trailer_field 8 4); lia | by apply slice_bytes | apply length_slice; lia].
Qed.

Lemma get_msg_number_res_run :
  get_msg_number_res v h =
    if res_valid bs then Ok (be_decode (slice (5 + proto_size bs) 8 bs)) h else Throw runtime_error h.
Proof using Hviews Hbytes Hsize.
  unfold get_msg_number_res, bind at 1. rewrite is_response_buffer_valid_run.
  destruct (res_valid bs) eqn:Hv; [|done]. apply frame_valid_size in Hv. simpl.
  pose proof proto_size_nonneg.
  unfold bind. rewrite extract_message_size_run by lia.
  pose proof (trailer_field 0 8) as HT. rewrite ptr_add_0, Z.add_0_r in HT.
  apply to_uint64_run; [apply HT; lia | by apply slice_bytes | apply length_slice; lia].
Qed.

Lemma get_msg_response_code_res_run :
  get_msg_response_code_res v h =
    if res_valid bs
    then Ok (ResponseResult.of_byte (be_decode (slice (5 + proto_size bs + 8) 1 bs))) h
    else Throw runtime_error h.
Proof using Hviews Hbytes Hsize.
  unfold get_msg_response_code_res, bind at 1. rewrite is_response_buffer_valid_run.
  destruct (res_valid bs) eqn:Hv; [|done]. apply frame_valid_size in Hv. simpl.
  pose proof proto_size_nonneg.
  unfold bind. rewrite extract_message_size_run by lia.
  destruct (trailer_field 8 1) as [HT _]; try lia. simpl in HT.
  pose proof (length_slice (5 + proto_size bs + 8) 1 bs ltac:(lia) ltac:(lia) ltac:(lia)) as Hl.
  destruct (slice _ 1 bs) as [|b [|]] eqn:E; simpl in Hl; try lia.
  pose proof (load_at _ _ _ 0 b HT eq_refl) as HL. rewrite ptr_add_0 in HL.
  change s_message_number_bytes_count with 8. change s_header_bytes_count with 5. rewrite HL. simpl. unfold ret.
  by rewrite Z.mul_1_r, Z.add_0_r.
Qed.
End readers.

(** ** Writers *)

(** A block that is filled from the left with [pre], [n] cells still indeterminate. *)
Definition filled (b : positive) (pre : list Z) (n : nat) (h : heap) : heap :=
  <[b := (Some <$> pre) ++ replicate n None]> h.

Lemma create_filled sz h :
  Buffer.create sz h = Ok (Buffer.mk (Ptr (fresh_loc h) 0) sz) (filled (fresh_loc h) [] (Z.to_nat sz) h).
Proof. done. Qed.

Lemma filled_filled b pre n pre' n' h : filled b pre' n' (filled b pre n h) = filled b pre' n' h.
Proof. apply insert_twice. Qed.

Lemma store_filled b pre n x h :
  store (Ptr b (Z.of_nat (length pre))) x (filled b pre (S n) h) = Ok tt (filled b (pre ++ [x]) n h).
Proof.
  unfold store. rewrite <- (length_fmap Some pre).
  rewrite (store_cell_next _ _ _ None _ (replicate n None)) by apply lookup_insert_eq.
  unfold filled. by rewrite insert_twice, fmap_app, <- app_assoc.
Qed.

Lemma fill_bytes_filled b sz pre n bs h :
  fill_bytes (Buffer.mk (Ptr b 0) sz) (Z.of_nat (length pre)) bs (filled b pre (length bs + n) h)
    = Ok (Z.of_nat (length (pre ++ bs))) (filled b (pre ++ bs) n h).
Proof.
  revert pre. induction bs as [|x bs IH]; intros pre; cbn [fill_bytes store_bytes length Nat.add].
  - by rewrite app_nil_r.
  - unfold bind. change (Buffer.index _ _) with (Ptr b (Z.of_nat (length pre))). rewrite store_filled.
    specialize (IH (pre ++ [x])). rewrite length_app, <- app_assoc, Nat2Z.inj_add in IH. exact IH.
Qed.

Lemma store_bytes_filled b pre n bs h :
  store_bytes (Ptr b (Z.of_nat (length pre))) bs (filled b pre (length bs + n) h)
    = Ok tt (filled b (pre ++ bs) n h).
Proof.
  revert pre. induction bs as [|x bs IH]; intros pre; cbn [fill_bytes store_bytes length Nat.add].
  - by rewrite app_nil_r.
  - unfold bind. rewrite store_filled.
    change (ptr_add _ 1) with (Ptr b (Z.of_nat (length pre) + 1)).
    specialize (IH (pre ++ [x])). rewrite length_app, <- app_assoc, Nat2Z.inj_add in IH. exact IH.
Qed.

Section writers.
Context {Msg : Type} `{Proto Msg, !ProtoLaws Msg}.

(** The payload of a message: none for a null message. *)
Definition payload (message : option Msg) : option (list Z) :=
  match message with None => Some [] | Some m => serialize m end.
Definition payload_size (message : option Msg) : Z :=
  match message with None => 0 | Some m => ByteSizeLong m end.

Lemma payload_size_nonneg message : 0 ≤ payload_size message.
Proof. destruct message; simpl; [apply ByteSizeLong_nonneg | done]. Qed.

Lemma payload_length message bs :
  payload message = Some bs → Z.of_nat (length bs) = payload_size message.
Proof. destruct message; simpl; [apply serialize_length | by intros [= <-]]. Qed.

Lemma payload_bytes message bs : payload message = Some bs → Forall is_byte bs.
Proof. destruct message; simpl; [apply serialize_bytes | by intros [= <-]]. Qed.

Lemma fill_serialized_run b sz pre n message bs h :
  payload message = Some bs →
  sz = Z.of_nat (length pre + (length bs + n)) → sz < 2 ^ 64 →
  fill_serialized_message_bytes (Buffer.mk (Ptr b 0) sz) (Z.of_nat (length pre)) message
      (payload_size message) (filled b pre (length bs + n) h)
    = Ok (Z.of_nat (length (pre ++ bs))) (filled b (pre ++ bs) n h).
Proof.
  intros Hp Hsz Hlt. pose proof (payload_length _ _ Hp) as Hl.
  destruct message as [m|]; simpl in *.
  - unfold bind, assert, Buffer.size, size_sub. simpl.
    rewrite wrap_small by lia. rewrite decide_True by lia. unfold ret.
    unfold SerializeToArray. rewrite Hp, decide_True by lia.
    unfold bind. rewrite Z.add_0_l, store_bytes_filled. simpl.
    rewrite length_app. unfold ret. f_equal. lia.
  - injection Hp as <-. by rewrite app_nil_r.
Qed.

(** A message that cannot be serialized: nothing is written, an exception leaves. *)
Lemma fill_serialized_fail b sz pos m h :
  serialize m = None → 0 ≤ pos → pos + ByteSizeLong m ≤ sz → sz < 2 ^ 64 →
  fill_serialized_message_bytes (Buffer.mk (Ptr b 0) sz) pos (Some m) (ByteSizeLong m) h
    = Throw runtime_error h.
Proof.
  intros Hs Hpos Hle Hsz. pose proof (ByteSizeLong_nonneg m). simpl. unfold bind, assert, Buffer.size, size_sub. simpl.
  rewrite wrap_small by lia. rewrite decide_True by lia. unfold ret, SerializeToArray.
  by rewrite Hs.
Qed.

Definition req_frame (num idx : Z) (pl : list Z) : list Z :=
  [0] ++ be_encode 4 (Z.of_nat (length pl)) ++ pl ++ be_encode 8 num ++ be_encode 4 idx.
Definition res_frame (num : Z) (rc : ResponseResult.response_result) (pl : list Z) : list Z :=
  [1] ++ be_encode 4 (Z.of_nat (length pl)) ++ pl ++ be_encode 8 num ++ [ResponseResult.to_byte rc].

Lemma length_req_frame num idx pl : Z.of_nat (length (req_frame num idx pl)) = 17 + Z.of_nat (length pl).
Proof. unfold req_frame. rewrite !length_app, !length_be_encode. simpl. lia. Qed.
Lemma length_res_frame num rc pl : Z.of_nat (length (res_frame num rc pl)) = 14 + Z.of_nat (length pl).
Proof. unfold res_frame. rewrite !length_app, !length_be_encode. simpl. lia. Qed.

(** The part both constructors share: type byte, size field, payload, number. *)
Lemma fill_common {A} b sz type message pl num n h (k : Z → prog heap A) :
  payload message = Some pl → sz = Z.of_nat (13 + length pl + n) → sz < 2 ^ 32 →
  (let! pos := fill_message_type_byte (Buffer.mk (Ptr b 0) sz) 0 type in
   let! pos := fill_serialized_message_size_bytes (Buffer.mk (Ptr b 0) sz) pos (u32 (payload_size message)) in
   let! pos := fill_serialized_message_bytes (Buffer.mk (Ptr b 0) sz) pos message (u32 (payload_size message)) in
   let! pos := fill_message_number_bytes (Buffer.mk (Ptr b 0) sz) pos num in
   k pos) (filled b [] (Z.to_nat sz) h)
    = k (Z.of_nat (13 + length pl))
        (filled b ([MsgType.to_byte type] ++ be_encode 4 (Z.of_nat (length pl)) ++ pl ++ be_encode 8 num) n h).
Proof.
  intros Hp Hsz Hlt. pose proof (payload_length _ _ Hp) as Hl. rewrite <- Hl, wrap_small by lia.
  replace (Z.to_nat sz) with (S (4 + (length pl + (8 + n)))) by lia.
  unfold bind at 1, fill_message_type_byte at 1, bind at 1.
  change (Buffer.index _ 0) with (Ptr b (Z.of_nat (length (@nil Z)))). rewrite store_filled. unfold ret.
  unfold bind at 1, fill_serialized_message_size_bytes. rewrite from_uint32_encode.
  pose proof (fill_bytes_filled b sz [MsgType.to_byte type] (length pl + (8 + n)) (be_encode 4 (Z.of_nat (length pl))) h) as H4.
  rewrite length_be_encode in H4. simpl (Z.of_nat (length [_])) in H4. simpl ([] ++ [_]).
  change (0 + 1) with (Z.of_nat 1). rewrite H4. clear H4. unfold bind. rewrite Hl.
  rewrite fill_serialized_run; [|done|rewrite length_app, length_be_encode; simpl; lia|lia].
  unfold fill_message_number_bytes. rewrite from_uint64_encode, <- Hl.
  pose proof (fill_bytes_filled b sz (([MsgType.to_byte type] ++ be_encode 4 (Z.of_nat (length pl))) ++ pl) n (be_encode 8 num) h) as H8.
  rewrite length_be_encode in H8. rewrite H8. rewrite !length_app, !length_be_encode, <- !app_assoc.
  f_equal. simpl. lia.
Qed.

Lemma create_transfer_msg_req_run num idx message pl h :
  payload message = Some pl → payload_size message ≤ Consts.MaxRequestProtoSize →
  create_transfer_msg_req num idx message h
    = Ok (Buffer.mk (Ptr (fresh_loc h) 0) (17 + Z.of_nat (length pl)))
         (<[fresh_loc h := Some <$> req_frame num idx pl]> h).
Proof.
  intros Hp Hle. pose proof (payload_length _ _ Hp) as Hl. unfold Consts.MaxRequestProtoSize in Hle.
  unfold create_transfer_msg_req. fold (payload_size message).
  rewrite decide_False by (unfold Consts.MaxRequestProtoSize; lia).
  change s_header_bytes_count with 5. change s_req_trailer_bytes_count with 12.
  replace (u32 (5 + u32 (payload_size message) + 12)) with (Z.of_nat (13 + length pl + 4))
    by (rewrite (wrap_small 32 (payload_size message)), wrap_small; lia).
  unfold bind at 1. rewrite create_filled. unfold with_local.
  rewrite (fill_common (fresh_loc h) _ MsgType.req message pl num 4 h) by (done || lia).
  unfold bind, fill_method_idx_bytes. rewrite from_uint32_encode.
  set (pre := _ ++ _ : list Z).
  assert (length pre = (13 + length pl)%nat) as Hpre
    by (unfold pre; rewrite !length_app, !length_be_encode; simpl; lia).
  rewrite <- Hpre.
  pose proof (fill_bytes_filled (fresh_loc h) (Z.of_nat (length pre + 4)) pre 0 (be_encode 4 idx) h) as H4.
  rewrite length_be_encode in H4. change (4 + 0)%nat with 4%nat in H4. rewrite H4.
  unfold assert. rewrite decide_True by (rewrite length_app, length_be_encode; lia). unfold ret.
  unfold filled. rewrite app_nil_r. f_equal.
  - f_equal. lia.
  - f_equal. f_equal. unfold pre, req_frame. by rewrite <- !app_assoc.
Qed.

Lemma create_transfer_msg_res_run num rc message pl h :
  payload message = Some pl → payload_size message ≤ Consts.MaxResponseProtoSize →
  create_transfer_msg_res num rc message h
    = Ok (Buffer.mk (Ptr (fresh_loc h) 0) (14 + Z.of_nat (length pl)))
         (<[fresh_loc h := Some <$> res_frame num rc pl]> h).
Proof.
  intros Hp Hle. pose proof (payload_length _ _ Hp) as Hl. unfold Consts.MaxResponseProtoSize in Hle.
  unfold create_transfer_msg_res. fold (payload_size message).
  rewrite decide_False by (unfold Consts.MaxResponseProtoSize; lia).
  change s_header_bytes_count with 5. change s_res_trailer_bytes_count with 9.
  replace (u32 (5 + u32 (payload_size message) + 9)) with (Z.of_nat (13 + length pl + 1))
    by (rewrite (wrap_small 32 (payload_size message)), wrap_small; lia).
  unfold bind at 1. rewrite create_filled. unfold with_local.
  rewrite (fill_common (fresh_loc h) _ MsgType.res message pl num 1 h) by (done || lia).
  unfold bind at 1, fill_response_result_bytes, bind at 1.
  set (pre := _ ++ _ : list Z).
  assert (length pre = (13 + length pl)%nat) as Hpre
    by (unfold pre; rewrite !length_app, !length_be_encode; simpl; lia).
  rewrite <- Hpre. change (Buffer.index _ _) with (Ptr (fresh_loc h) (Z.of_nat (length pre))).
  rewrite store_filled. unfold bind, ret, assert. rewrite decide_True by lia. unfold ret.
  unfold filled. rewrite app_nil_r. f_equal.
  - f_equal. lia.
  - f_equal. f_equal. unfold pre, res_frame. by rewrite <- !app_assoc.
Qed.

(** A failing serialization leaves an exception and no allocation behind. *)
Lemma create_transfer_msg_req_fail num idx m h :
  serialize m = None → ByteSizeLong m ≤ Consts.MaxRequestProtoSize →
  create_transfer_msg_req num idx (Some m) h = Throw runtime_error h.
Proof.
  intros Hs Hle. pose proof (ByteSizeLong_nonneg m) as Hnn.
  unfold create_transfer_msg_req. rewrite decide_False by lia. unfold Consts.MaxRequestProtoSize in Hle.
  change s_header_bytes_count with 5. change s_req_trailer_bytes_count with 12.
  rewrite !(wrap_small 32 (ByteSizeLong m)), wrap_small by lia.
  unfold bind at 1. rewrite create_filled. unfold with_local.
  replace (Z.to_nat _) with (S (4 + (Z.to_nat (ByteSizeLong m) + 12))) by lia.
  unfold bind at 1, fill_message_type_byte at 1, bind at 1.
  change (Buffer.index _ 0) with (Ptr (fresh_loc h) (Z.of_nat (length (@nil Z)))).
  rewrite store_filled. unfold ret.
  unfold bind at 1, fill_serialized_message_size_bytes. rewrite from_uint32_encode.
  simpl ([] ++ [_]). change (0 + 1) with (Z.of_nat (length [0])).
  pose proof (fill_bytes_filled (fresh_loc h) (5 + ByteSizeLong m + 12) [0]
                (Z.to_nat (ByteSizeLong m) + 12) (be_encode 4 (ByteSizeLong m)) h) as H4.
  rewrite length_be_encode in H4. rewrite H4. clear H4.
  unfold bind. rewrite fill_serialized_fail;
    [|done|lia|rewrite length_app, length_be_encode; simpl; lia|lia].
  unfold Buffer.destroy, free. simpl.
  unfold filled. rewrite decide_True; [|by rewrite lookup_insert_eq].
  by rewrite delete_insert_id by apply fresh_loc_None.
Qed.

(** ** What the parser sees in a built frame *)
Lemma proto_size_frame t (pl rest : list Z) :
  Z.of_nat (length pl) < 2 ^ 32 →
  proto_size ([t] ++ be_encode 4 (Z.of_nat (length pl)) ++ rest) = Z.of_nat (length pl).
Proof.
  intros Hl. unfold proto_size. rewrite slice_middle by (by rewrite ?length_be_encode).
  apply be_decode_encode_id. simpl. lia.
Qed.

Lemma req_frame_valid num idx (pl : list Z) :
  Z.of_nat (length pl) < 2 ^ 32 → req_valid (req_frame num idx pl) = true.
Proof.
  intros Hl. unfold req_valid, frame_valid. rewrite length_req_frame.
  unfold req_frame. rewrite proto_size_frame by done.
  rewrite !andb_true_iff, !bool_decide_eq_true. split; [split; [lia|done]|lia].
Qed.

Lemma res_frame_valid num rc (pl : list Z) :
  Z.of_nat (length pl) < 2 ^ 32 → res_valid (res_frame num rc pl) = true.
Proof.
  intros Hl. unfold res_valid, frame_valid. rewrite length_res_frame.
  unfold res_frame. rewrite proto_size_frame by done.
  rewrite !andb_true_iff, !bool_decide_eq_true. split; [split; [lia|done]|lia].
Qed.

Lemma frame_number t (pl : list Z) num (rest : list Z) :
  Z.of_nat (length pl) < 2 ^ 32 → 0 ≤ num < 2 ^ 64 →
  let bs := [t] ++ be_encode 4 (Z.of_nat (length pl)) ++ pl ++ be_encode 8 num ++ rest in
  be_decode (slice (5 + proto_size bs) 8 bs) = num.
Proof.
  intros Hl Hn bs. unfold bs at 1. rewrite proto_size_frame by done. unfold bs.
  replace ([t] ++ _) with (([t] ++ be_encode 4 (Z.of_nat (length pl)) ++ pl) ++ be_encode 8 num ++ rest)
    by (by rewrite <- !app_assoc).
  rewrite slice_middle by (rewrite ?length_app, !length_be_encode; simpl; lia).
  apply be_decode_encode_id. simpl. lia.
Qed.

Lemma frame_tail t (pl : list Z) num (rest : list Z) :
  Z.of_nat (length pl) < 2 ^ 32 →
  let bs := [t] ++ be_encode 4 (Z.of_nat (length pl)) ++ pl ++ be_encode 8 num ++ rest in
  slice (5 + proto_size bs + 8) (Z.of_nat (length rest)) bs = rest.
Proof.
  intros Hl bs. unfold bs at 1. rewrite proto_size_frame by done. unfold bs.
  replace ([t] ++ _)
    with (([t] ++ be_encode 4 (Z.of_nat (length pl)) ++ pl ++ be_encode 8 num) ++ rest ++ [])
    by (by rewrite app_nil_r, <- !app_assoc).
  apply slice_middle; [rewrite !length_app, !length_be_encode; simpl; lia|done].
Qed.

Lemma frame_payload t (pl rest : list Z) :
  Z.of_nat (length pl) < 2 ^ 32 →
  let bs := [t] ++ be_encode 4 (Z.of_nat (length pl)) ++ pl ++ rest in
  slice 5 (proto_size bs) bs = pl.
Proof.
  intros Hl bs. unfold bs at 1. rewrite proto_size_frame by done. unfold bs.
  replace ([t] ++ _) with (([t] ++ be_encode 4 (Z.of_nat (length pl))) ++ pl ++ rest)
    by (by rewrite <- !app_assoc).
  apply slice_middle; [rewrite !length_app, !length_be_encode; simpl; lia|done].
Qed.

Lemma payload_view h v t pl rest :
  Z.of_nat (length pl) < 2 ^ 32 →
  let bs := [t] ++ be_encode 4 (Z.of_nat (length pl)) ++ pl ++ rest in
  CBufferView.views h v bs →
  CBufferView.views h (CBufferView.mk (ptr_add (CBufferView.data v) 5) (proto_size bs)) pl.
Proof.
  intros Hl bs [Hv _].
  pose proof (frame_payload t pl rest Hl : slice 5 (proto_size bs) bs = pl) as Hp.
  pose proof (proto_size_frame t pl (pl ++ rest) Hl : proto_size bs = _) as Hs.
  pose proof (views_slice h (CBufferView.data v) bs 5 (proto_size bs) Hv) as HV.
  rewrite Hp in HV. apply HV; [lia..|].
  rewrite Hs. unfold bs. rewrite !length_app, length_be_encode. simpl. lia.
Qed.

Lemma req_frame_bytes num idx pl : Forall is_byte pl → Forall is_byte (req_frame num idx pl).
Proof.
  intros. unfold req_frame. rewrite !Forall_app.
  repeat split; try apply be_encode_bytes; try done. by constructor.
Qed.
Lemma res_frame_bytes num rc pl :
  ResponseResult.valid rc → Forall is_byte pl → Forall is_byte (res_frame num rc pl).
Proof.
  intros. unfold res_frame. rewrite !Forall_app.
  repeat split; try apply be_encode_bytes; try done; constructor; try done.
  by apply ResponseResult.to_byte_is_byte.
Qed.
End writers.

(** A concrete message type: the raw bytes of the payload. *)
Module ByteProto.
Definition msg : Type := list Z.
#[global] Instance proto : Proto msg := {|
  ByteSizeLong m := Z.of_nat (length m);
  serialize m := if decide (Forall is_byte m) then Some m else None;
  parse bs := Some bs;
  parse_rest _ := []
|}.
#[global] Instance laws : ProtoLaws msg.
Proof. split; simpl; intros; try lia; case_decide; naive_solver. Qed.
End ByteProto.

(** ** Properties *)
Section properties.
Context {Msg : Type} `{Proto Msg, !ProtoLaws Msg}.

Definition safe {A} (m : prog heap A) (h : heap) : Prop :=
  (∃ a, m h = Ok a h) ∨ m h = Throw runtime_error h.

(** C5: parsing a built request returns what it was built from: the frame
    is valid, its type is [req], and message number, method index and
    payload are the arguments of [create_transfer_msg_req]. *)
Theorem request_roundtrip num idx message pl h :
  payload message = Some pl → payload_size message ≤ Consts.MaxRequestProtoSize →
  0 ≤ num < 2 ^ 64 → 0 ≤ idx < 2 ^ 32 →
  ∃ b h', create_transfer_msg_req num idx message h = Ok b h' ∧
    let v := CBufferView.of_buffer b in
    is_request_buffer_valid v h' = Ok true h' ∧
    get_transfer_msg_type v h' = Ok MsgType.req h' ∧
    get_msg_number_req v h' = Ok num h' ∧
    get_msg_method_idx_req v h' = Ok idx h' ∧
    ∃ pv, get_serialized_proto_message v h' = Ok pv h' ∧ CBufferView.views h' pv pl.
Proof.
  intros Hp Hle Hn Hi. pose proof (payload_length _ _ Hp) as Hl.
  assert (Z.of_nat (length pl) < 2 ^ 32) as Hl32 by (unfold Consts.MaxRequestProtoSize in Hle; lia).
  eexists _, _. split; [by apply create_transfer_msg_req_run|].
  set (h' := insert _ _ h). set (b := Buffer.mk _ _). intros v.
  pose proof (length_req_frame num idx pl) as Hlen.
  assert (CBufferView.views h' v (req_frame num idx pl)) as Hv.
  { apply CBufferView.cviews_of_buffer. exists (fresh_loc h).
    split_and!; [done | apply lookup_insert_eq | by rewrite Hlen]. }
  pose proof (req_frame_bytes num idx pl (payload_bytes _ _ Hp)) as Hb.
  assert (Z.of_nat (length (req_frame num idx pl)) < 2 ^ 64) as Hs by lia.
  pose proof (req_frame_valid num idx pl Hl32) as Hvalid.
  pose proof (frame_valid_size _ _ _ Hvalid) as Hfit.
  rewrite (is_request_buffer_valid_run _ _ _ Hv Hb Hs), (get_transfer_msg_type_run _ _ _ Hv Hb Hs),
    (get_msg_number_req_run _ _ _ Hv Hb Hs), (get_msg_method_idx_req_run _ _ _ Hv Hb Hs),
    (get_serialized_proto_message_run _ _ _ Hv Hb Hs), Hvalid.
  rewrite !bool_decide_eq_true_2 by lia. cbn [andb].
  split_and!; [done|done|f_equal; by apply frame_number| |].
  - f_equal. pose proof (frame_tail 0 pl num (be_encode 4 idx) Hl32) as Ht.
    rewrite length_be_encode in Ht. change (Z.of_nat 4) with 4 in Ht.
    unfold req_frame. rewrite Ht. apply be_decode_encode_id. simpl. lia.
  - eexists. split; [done|].
    by apply (payload_view _ _ 0 pl (be_encode 8 num ++ be_encode 4 idx)).
Qed.

(** Parsing a built response returns what it was built from; every
    result code, listed or not, survives the trip through its byte. *)
Theorem response_roundtrip num rc message pl h :
  payload message = Some pl → payload_size message ≤ Consts.MaxResponseProtoSize →
  0 ≤ num < 2 ^ 64 → ResponseResult.valid rc →
  ∃ b h', create_transfer_msg_res num rc message h = Ok b h' ∧
    let v := CBufferView.of_buffer b in
    is_response_buffer_valid v h' = Ok true h' ∧
    get_transfer_msg_type v h' = Ok MsgType.res h' ∧
    get_msg_number_res v h' = Ok num h' ∧
    get_msg_response_code_res v h' = Ok rc h' ∧
    ∃ pv, get_serialized_proto_message v h' = Ok pv h' ∧ CBufferView.views h' pv pl.
Proof.
  intros Hp Hle Hn Hrc. pose proof (payload_length _ _ Hp) as Hl.
  assert (Z.of_nat (length pl) < 2 ^ 32) as Hl32 by (unfold Consts.MaxResponseProtoSize in Hle; lia).
  eexists _, _. split; [by apply create_transfer_msg_res_run|].
  set (h' := insert _ _ h). set (b := Buffer.mk _ _). intros v.
  pose proof (length_res_frame num rc pl) as Hlen.
  assert (CBufferView.views h' v (res_frame num rc pl)) as Hv.
  { apply CBufferView.cviews_of_buffer. exists (fresh_loc h).
    split_and!; [done | apply lookup_insert_eq | by rewrite Hlen]. }
  pose proof (res_frame_bytes num rc pl Hrc (payload_bytes _ _ Hp)) as Hb.
  assert (Z.of_nat (length (res_frame num rc pl)) < 2 ^ 64) as Hs by lia.
  pose proof (res_frame_valid num rc pl Hl32) as Hvalid.
  pose proof (frame_valid_size _ _ _ Hvalid) as Hfit.
  rewrite (is_response_buffer_valid_run _ _ _ Hv Hb Hs), (get_transfer_msg_type_run _ _ _ Hv Hb Hs),
    (get_msg_number_res_run _ _ _ Hv Hb Hs), (get_msg_response_code_res_run _ _ _ Hv Hb Hs),
    (get_serialized_proto_message_run _ _ _ Hv Hb Hs), Hvalid.
  rewrite !bool_decide_eq_true_2 by lia. cbn [andb].
  split_and!; [done|done|f_equal; by apply frame_number| |].
  - f_equal. pose proof (frame_tail 1 pl num [ResponseResult.to_byte rc] Hl32) as Ht.
    change (Z.of_nat (length [_])) with 1 in Ht. unfold res_frame. rewrite Ht. simpl.
    rewrite Z.mul_1_r, Z.add_0_r. by apply ResponseResult.of_to_byte.
  - eexists. split; [done|].
    by apply (payload_view _ _ 1 pl (be_encode 8 num ++ [ResponseResult.to_byte rc])).
Qed.

(** C6: on every view of initialised bytes, whatever a peer sent, the
    readers return or throw [runtime_error]: no read leaves the buffer, no
    assertion fails and memory is unchanged; a payload view that is returned
    lies inside the message. *)
Theorem readers_safe v bs h :
  CBufferView.views h v bs → Forall is_byte bs → Z.of_nat (length bs) < 2 ^ 64 →
  safe (is_request_buffer_valid v) h ∧ safe (is_response_buffer_valid v) h ∧
  safe (get_transfer_msg_type v) h ∧ safe (get_msg_number_req v) h ∧
  safe (get_msg_method_idx_req v) h ∧ safe (get_msg_number_res v) h ∧
  safe (get_msg_response_code_res v) h ∧
  (get_serialized_proto_message v h = Throw runtime_error h ∨
   ∃ pv pl pre post, get_serialized_proto_message v h = Ok pv h ∧
     CBufferView.views h pv pl ∧ bs = pre ++ pl ++ post).
Proof.
  intros Hv Hb Hs. unfold safe.
  rewrite (is_request_buffer_valid_run _ _ _ Hv Hb Hs), (is_response_buffer_valid_run _ _ _ Hv Hb Hs),
    (get_transfer_msg_type_run _ _ _ Hv Hb Hs), (get_msg_number_req_run _ _ _ Hv Hb Hs),
    (get_msg_method_idx_req_run _ _ _ Hv Hb Hs), (get_msg_number_res_run _ _ _ Hv Hb Hs),
    (get_msg_response_code_res_run _ _ _ Hv Hb Hs), (get_serialized_proto_message_run _ _ _ Hv Hb Hs).
  split_and!; try (repeat case_match; eauto; fail).
  destruct (_ && _) eqn:E; [right|by left].
  rewrite andb_true_iff, !bool_decide_eq_true in E. pose proof (proto_size_nonneg _ Hb).
  eexists _, (slice 5 (proto_size bs) bs), (take 5 bs), (drop (Z.to_nat (proto_size bs)) (drop 5 bs)).
  split; [done|]. split; [apply views_slice; [apply Hv|lia..]|].
  unfold slice. by rewrite (take_drop (Z.to_nat (proto_size bs))), (take_drop 5).
Qed.

(** C7: a request that is too big or that protobuf cannot serialize makes
    the constructor throw and leaves no allocation behind; otherwise the
    buffer it returns fits in the transfer limit of the pipes. *)
Theorem create_request_errors num idx message h :
  (payload_size message > Consts.MaxRequestProtoSize ∨ payload message = None →
   create_transfer_msg_req num idx message h = Throw runtime_error h) ∧
  (payload_size message ≤ Consts.MaxRequestProtoSize → payload message ≠ None →
   ∃ b h', create_transfer_msg_req num idx message h = Ok b h' ∧
     17 ≤ Buffer.size b < Consts.MaxTransferMessageSize).
Proof.
  split.
  - intros Hor. destruct (decide (payload_size message > Consts.MaxRequestProtoSize)) as [Hbig|Hsmall].
    + unfold create_transfer_msg_req. fold (payload_size message). by rewrite decide_True.
    + destruct Hor as [|Hnone]; [done|]. destruct message as [m|]; [|done].
      apply create_transfer_msg_req_fail; simpl in *; [done|lia].
  - intros Hle Hsome. destruct (payload message) as [pl|] eqn:Hp; [|done].
    eexists _, _. split; [by apply create_transfer_msg_req_run|].
    pose proof (payload_length _ _ Hp). simpl. unfold Consts.MaxTransferMessageSize, Consts.MaxRequestProtoSize in *. lia.
Qed.
End properties.

Lemma request_roundtrip_witness :
  ∃ b h', create_transfer_msg_req 5 2 (Some ([7; 8; 9] : ByteProto.msg)) ∅ = Ok b h' ∧
    get_msg_number_req (CBufferView.of_buffer b) h' = Ok 5 h'.
Proof.
  destruct (request_roundtrip 5 2 (Some ([7; 8; 9] : ByteProto.msg)) [7; 8; 9] ∅)
    as (b & h' & Hc & _ & _ & Hn & _); [reflexivity|vm_compute; congruence|lia|lia|].
  exists b, h'. split; assumption.
Defined.

Lemma response_roundtrip_witness :
  ∃ b h', create_transfer_msg_res 5 (ResponseResult.unlisted 200) (Some ([7] : ByteProto.msg)) ∅ = Ok b h' ∧
    get_msg_response_code_res (CBufferView.of_buffer b) h' = Ok (ResponseResult.unlisted 200) h'.
Proof.
  destruct (response_roundtrip 5 (ResponseResult.unlisted 200) (Some ([7] : ByteProto.msg)) [7] ∅)
    as (b & h' & Hc & _ & _ & _ & Hr & _); [reflexivity|vm_compute; congruence|lia|simpl; lia|].
  exists b, h'. split; assumption.
Defined.

(** A hostile frame: a request header that announces 4 GiB of payload. *)
Definition hostile_frame : list Z := [0; 255; 255; 255; 255; 1; 2].

Lemma readers_safe_witness :
  safe (get_msg_number_req (CBufferView.mk (Ptr 1 0) 7)) {[ 1%positive := Some <$> hostile_frame ]}.
Proof.
  apply (readers_safe (CBufferView.mk (Ptr 1 0) 7) hostile_frame).
  - split; [|reflexivity]. apply (bytes_at_block _ 1 hostile_frame []). reflexivity.
  - unfold hostile_frame, is_byte. repeat constructor; lia.
  - simpl. lia.
Defined.

Lemma create_request_errors_witness :
  create_transfer_msg_req 0 0 (Some ([300] : ByteProto.msg)) ∅ = Throw runtime_error ∅.
Proof.
  apply (create_request_errors 0 0 (Some ([300] : ByteProto.msg)) ∅). right. reflexivity.
Defined.
