(* ===== verification/Ownership.v ===== *)
(** * Types that own a value

    [unique_ptr2] with [default_allocator], [function], [thread_pool_task],
    [value_proxy] and [unique_handle], translated to programs over a store of
    objects.  What they have in common is the class [Owner]: a variable is
    constructed, moved, assigned, copied where the type can be copied, and
    destroyed.  A machine runs such commands on variables; its specification
    knows values only and destroys a value when its last owner goes. *)
From S2P Require Import Prelude.

(** ** The store

    Objects are named by the value they were constructed with.  A cell is
    memory without an object, an object, or the control block and object of
    [make_shared] with its count of owners. *)
Inductive cell : Type := Raw | Object (v : nat) | Counted (v n : nat).
Record store : Type := Store { heap : gmap nat cell; next_addr : nat; destroyed : list nat }.
Abbreviation M := (prog store).

Definition set_cell (a : nat) (c : cell) (s : store) : store := Store (<[a := c]> (heap s)) (next_addr s) (destroyed s).
Definition free_cell (a : nat) (s : store) : store := Store (delete a (heap s)) (next_addr s) (destroyed s).
Definition bury (v : nat) (s : store) : store := Store (heap s) (next_addr s) (destroyed s ++ [v]).

(** [allocate] of [default_allocator]: memory, or [bad_alloc]; [deallocate]. *)
Definition allocate (fails : bool) : M nat := λ s,
  if fails then Throw bad_alloc s
  else Ok (next_addr s) (Store (<[next_addr s := Raw]> (heap s)) (S (next_addr s)) (destroyed s)).
Definition deallocate (a : nat) : M unit := λ s,
  match heap s !! a with Some _ => Ok tt (free_cell a s) | None => UB end.
(** Placement new, whose constructor may throw, and a call of a destructor. *)
Definition construct_at (a : nat) (throws : option exn) (v : nat) : M unit := λ s,
  match heap s !! a with
  | Some Raw => match throws with Some x => Throw x s | None => Ok tt (set_cell a (Object v) s) end
  | _ => UB
  end.
Definition destroy_at (a : nat) : M unit := λ s,
  match heap s !! a with Some (Object v) => Ok tt (bury v (set_cell a Raw s)) | _ => UB end.
Definition try_catch {A} (m : M A) (handler : exn → M A) : M A := λ s,
  match m s with Throw x s' => handler x s' | r => r end.

Open Scope prog_scope.

(** ** unique_ptr2 *)
Module UniquePtr2.
Record unique_ptr2 : Type := mk { m_alloc_memory : option nat; m_object : option nat }.
Definition null : unique_ptr2 := mk None None.

Definition reset (p : unique_ptr2) : M unique_ptr2 :=
  match m_alloc_memory p with
  | Some a =>
      match m_object p with
      | Some o => destroy_at o ;! deallocate a ;! ret null
      | None => undefined
      end
  | None => ret p
  end.
(** Both the constructor from the same type and the converting one. *)
Definition move_construct (other : unique_ptr2) : M (unique_ptr2 * unique_ptr2) :=
  ret (mk (m_alloc_memory other) (m_object other), null).
(** [operator=] for [this != &other]. *)
Definition move_assign (this other : unique_ptr2) : M (unique_ptr2 * unique_ptr2) :=
  let! _ := reset this in ret (mk (m_alloc_memory other) (m_object other), null).
Definition make_unique2 (no_memory : bool) (throws : option exn) (v : nat) : M unique_ptr2 :=
  let! a := allocate no_memory in
  try_catch (construct_at a throws v) (λ x, deallocate a ;! throw x) ;!
  ret (mk (Some a) (Some a)).
Definition get (p : unique_ptr2) : option nat := m_object p.
(** [operator*] and [operator->]. *)
Definition deref (p : unique_ptr2) : M nat := λ s,
  match m_object p ≫= (heap s !!.) with Some (Object v) => Ok v s | _ => UB end.
End UniquePtr2.

(** ** function *)
Module Function.
(** The callable is in the buffer, or the buffer has a pointer to it. *)
Inductive kind : Type := Small | Large.
Inductive buffer : Type := Indeterminate | Callable (v : nat) | Pointer (a : option nat).
Record function : Type := mk { call : option kind; move : option kind; destroy : option kind; m_buffer : buffer }.
Definition null : function := mk None None None Indeterminate.

(** The constructor from a callable: its copy may throw, and for a large one so may
    [new]. *)
Definition from_callable (k : kind) (no_memory : bool) (throws : option exn) (v : nat) : M function :=
  match k with
  | Small => match throws with Some x => throw x | None => ret (mk (Some Small) (Some Small) (Some Small) (Callable v)) end
  | Large =>
      let! a := allocate no_memory in
      try_catch (construct_at a throws v) (λ x, deallocate a ;! throw x) ;!
      ret (mk (Some Large) (Some Large) (Some Large) (Pointer (Some a)))
  end.

(** The functions the three pointers point to. *)
Definition do_destroy (k : kind) (b : buffer) : M unit :=
  match k, b with
  | Small, Callable v => λ s, Ok tt (bury v s)
  | Large, Pointer (Some a) => destroy_at a ;! deallocate a
  | Large, Pointer None => ret tt
  | _, _ => undefined
  end.
(** The target is left with the callable; the source has no object then. *)
Definition do_move (k : kind) (from : buffer) : M (buffer * buffer) :=
  match k, from with
  | Small, Callable v => ret (Callable v, Indeterminate)
  | Large, Pointer a => ret (Pointer a, Pointer None)
  | _, _ => undefined
  end.
Definition do_call (k : kind) (b : buffer) : M nat := λ s,
  match k, b with
  | Small, Callable v => Ok v s
  | Large, Pointer (Some a) => match heap s !! a with Some (Object v) => Ok v s | _ => UB end
  | _, _ => UB
  end.

(** [~function]. *)
Definition destruct (f : function) : M unit :=
  match destroy f with Some k => do_destroy k (m_buffer f) | None => ret tt end.
Definition move_construct (other : function) : M (function * function) :=
  match call other with
  | Some _ =>
      match move other with
      | Some k =>
          let! bs := do_move k (m_buffer other) in
          ret (mk (call other) (move other) (destroy other) bs.1, mk None None None bs.2)
      | None => undefined
      end
  | None => ret (null, other)
  end.
Definition move_assign (this other : function) : M (function * function) :=
  destruct this ;!
  let! bs := match move other with Some k => do_move k (m_buffer other) | None => ret (m_buffer this, m_buffer other) end in
  ret (mk (call other) (move other) (destroy other) bs.1, mk None None None bs.2).
Definition invoke (f : function) : M nat :=
  match call f with Some k => do_call k (m_buffer f) | None => throw bad_function_call end.
Definition is_valid (f : function) : bool := bool_decide (is_Some (call f)).
End Function.

(** ** thread_pool_task *)
Module ThreadPoolTask.
Record thread_pool_task : Type := mk { m_thread_pool : option nat; m_func : Function.function }.
Definition null : thread_pool_task := mk None Function.null.
Definition from_callable (pool : nat) (k : Function.kind) (no_memory : bool) (throws : option exn) (v : nat) : M thread_pool_task :=
  let! f := Function.from_callable k no_memory throws v in ret (mk (Some pool) f).
(** The defaulted members move the function and copy the pointer. *)
Definition destruct (t : thread_pool_task) : M unit := Function.destruct (m_func t).
Definition move_construct (other : thread_pool_task) : M (thread_pool_task * thread_pool_task) :=
  let! fs := Function.move_construct (m_func other) in
  ret (mk (m_thread_pool other) fs.1, mk (m_thread_pool other) fs.2).
Definition move_assign (this other : thread_pool_task) : M (thread_pool_task * thread_pool_task) :=
  let! fs := Function.move_assign (m_func this) (m_func other) in
  ret (mk (m_thread_pool other) fs.1, mk (m_thread_pool other) fs.2).
(** [exec]: the function that is posted, and the task without it. *)
Definition exec (t : thread_pool_task) : M (Function.function * thread_pool_task) :=
  if negb (Function.is_valid (m_func t)) then throw runtime_error
  else match m_thread_pool t with
       | None => throw logic_error
       | Some _ => let! fs := Function.move_construct (m_func t) in ret (fs.1, mk (m_thread_pool t) fs.2)
       end.
End ThreadPoolTask.

(** ** value_proxy *)
Module ValueProxy.
(** [Own]: the buffer has a [shared_ptr], [Ext]: the address of the referred
    object, which is not the proxy's. *)
Inductive kind : Type := Own | Ext.
Inductive buffer : Type := Indeterminate | SharedPtr (a : option nat) | Reference (r : option nat).
Record value_proxy : Type := mk {
  destroy : option kind; interpret : option kind; copy : option kind; move : option kind; m_buffer : buffer
}.
Definition null : value_proxy := mk None None None None Indeterminate.

(** [make_shared] allocates and constructs, or throws. *)
Definition own (throws : option exn) (v : nat) : M value_proxy := λ s,
  match throws with
  | Some x => Throw x s
  | None => Ok (mk (Some Own) (Some Own) (Some Own) (Some Own) (SharedPtr (Some (next_addr s))))
               (Store (<[next_addr s := Counted v 1]> (heap s)) (S (next_addr s)) (destroyed s))
  end.
Definition external (r : nat) : value_proxy := mk None (Some Ext) (Some Ext) (Some Ext) (Reference (Some r)).

(** [shared_ptr]: a copy counts, and the last destructor destroys the value. *)
Definition share (a : nat) : M unit := λ s,
  match heap s !! a with Some (Counted v n) => Ok tt (set_cell a (Counted v (S n)) s) | _ => UB end.
Definition unshare (a : nat) : M unit := λ s,
  match heap s !! a with
  | Some (Counted v (S (S n))) => Ok tt (set_cell a (Counted v (S n)) s)
  | Some (Counted v 1) => Ok tt (bury v (free_cell a s))
  | _ => UB
  end.

Definition do_destroy (k : kind) (b : buffer) : M unit :=
  match k, b with
  | Own, SharedPtr (Some a) => unshare a
  | Own, SharedPtr None => ret tt
  | _, _ => undefined
  end.
Definition do_copy (k : kind) (from : buffer) : M buffer :=
  match k, from with
  | Own, SharedPtr (Some a) => share a ;! ret (SharedPtr (Some a))
  | Own, SharedPtr None => ret (SharedPtr None)
  | Ext, Reference r => ret (Reference r)
  | _, _ => undefined
  end.
Definition do_move (k : kind) (from : buffer) : M (buffer * buffer) :=
  match k, from with
  | Own, SharedPtr a => ret (SharedPtr a, Indeterminate)
  | Ext, Reference r => ret (Reference r, Reference None)
  | _, _ => undefined
  end.

Definition is_valid (p : value_proxy) : bool := bool_decide (is_Some (interpret p)).
Definition destruct (p : value_proxy) : M unit :=
  match destroy p with Some k => do_destroy k (m_buffer p) | None => ret tt end.
Definition copy_construct (other : value_proxy) : M value_proxy :=
  if negb (is_valid other) then ret null
  else match copy other with
       | Some k =>
           let! b := do_copy k (m_buffer other) in
           ret (mk (destroy other) (interpret other) (copy other) (move other) b)
       | None => undefined
       end.
Definition copy_assign (this other : value_proxy) : M value_proxy :=
  destruct this ;!
  match copy other with
  | Some k =>
      let! b := do_copy k (m_buffer other) in
      ret (mk (destroy other) (interpret other) (copy other) (move other) b)
  | None => ret (mk None None None None (m_buffer this))
  end.
Definition move_construct (other : value_proxy) : M (value_proxy * value_proxy) :=
  if negb (is_valid other) then ret (null, other)
  else match move other with
       | Some k =>
           let! bs := do_move k (m_buffer other) in
           ret (mk (destroy other) (interpret other) (copy other) (move other) bs.1, mk None None None None bs.2)
       | None => undefined
       end.
Definition move_assign (this other : value_proxy) : M (value_proxy * value_proxy) :=
  destruct this ;!
  match move other with
  | Some k =>
      let! bs := do_move k (m_buffer other) in
      ret (mk (destroy other) (interpret other) (copy other) (move other) bs.1, mk None None None None bs.2)
  | None => ret (mk None None None None (m_buffer this), other)
  end.
(** The object referred to: the owned value, or the external object. *)
Definition to_underlying (p : value_proxy) : M (nat + nat) := λ s,
  match interpret p, m_buffer p with
  | Some Own, SharedPtr (Some a) => match heap s !! a with Some (Counted v _) => Ok (inl v) s | _ => UB end
  | Some Ext, Reference (Some r) => Ok (inr r) s
  | _, _ => UB
  end.
End ValueProxy.

(** ** unique_handle

    [None] is [Traits::invalid()]; a handle is open while its cell is an object,
    and [Traits::close] closes it. *)
Module UniqueHandle.
Record unique_handle : Type := mk { m_handle : option nat }.
Definition null : unique_handle := mk None.
(** A new handle of the system, wrapped by the constructor. *)
Definition open_handle (v : nat) : M unique_handle := λ s,
  Ok (mk (Some (next_addr s))) (Store (<[next_addr s := Object v]> (heap s)) (S (next_addr s)) (destroyed s)).
Definition close (h : nat) : M unit := destroy_at h ;! deallocate h.
Definition reset (h : option nat) (u : unique_handle) : M unique_handle :=
  if decide (m_handle u = h) then ret u
  else match m_handle u with Some a => close a ;! ret (mk h) | None => ret (mk h) end.
Definition destruct (u : unique_handle) : M unit := let! _ := reset None u in ret tt.
Definition move_construct (other : unique_handle) : M (unique_handle * unique_handle) :=
  ret (mk (m_handle other), null).
Definition move_assign (this other : unique_handle) : M (unique_handle * unique_handle) :=
  let! u := reset (m_handle other) this in ret (u, null).
Definition release (u : unique_handle) : option nat * unique_handle := (m_handle u, null).
Definition swap (u v : unique_handle) : unique_handle * unique_handle := (mk (m_handle v), mk (m_handle u)).
End UniqueHandle.

(** ** What the types have in common *)

(** Where a variable has its value: in itself, in a cell of the store, or it only
    refers to an object of someone else. *)
Inductive holding : Type := Inline (v : nat) | HeapAt (a : nat) | Refers (r : nat).
Inductive value : Type := Owned (v : nat) | External (r : nat).
#[global] Instance holding_eq_dec : EqDecision holding.
Proof. solve_decision. Defined.
#[global] Instance value_eq_dec : EqDecision value.
Proof. solve_decision. Defined.

(** [C] tells which constructor is used and whether it throws; [shared]: the
    cells have a count of owners. *)
Class Owner (T C : Type) : Type := {
  null_owner : T;
  o_construct : C → nat → M T;
  o_throws : C → option exn;
  o_value : C → nat → value;
  o_move_construct : T → M (T * T);
  o_move_assign : T → T → M (T * T);
  o_copy : option ((T → M T) * (T → T → M T));
  o_destruct : T → M unit;
  holds : T → option holding;
  shared : bool
}.

(** ** Programs over variables

    Every [operator=] of these types returns at once when both sides are the
    same object. *)
Inductive cmd (C : Type) : Type :=
| Default (x : nat)
| Construct (x : nat) (c : C) (v : nat)
| MoveConstruct (x y : nat)
| MoveAssign (x y : nat)
| CopyConstruct (x y : nat)
| CopyAssign (x y : nat)
| Destroy (x : nat).
Arguments Default {C}.
Arguments Construct {C}.
Arguments MoveConstruct {C}.
Arguments MoveAssign {C}.
Arguments CopyConstruct {C}.
Arguments CopyAssign {C}.
Arguments Destroy {C}.

Section machine.
Context {T C : Type} `{Owner T C}.

Definition exec (c : cmd C) (vs : gmap nat T) : M (gmap nat T) :=
  match c with
  | Default x => if decide (vs !! x = None) then ret (<[x := null_owner]> vs) else undefined
  | Construct x c v => λ s,
      match vs !! x, o_construct c v s with
      | None, Ok t s' => Ok (<[x := t]> vs) s'
      | None, Throw _ s' => Ok vs s'
      | _, _ => UB
      end
  | MoveConstruct x y =>
      match vs !! x, vs !! y with
      | None, Some t => let! ts := o_move_construct t in ret (<[x := ts.1]> (<[y := ts.2]> vs))
      | _, _ => undefined
      end
  | MoveAssign x y =>
      match vs !! x, vs !! y with
      | Some t, Some u =>
          if decide (x = y) then ret vs
          else let! ts := o_move_assign t u in ret (<[x := ts.1]> (<[y := ts.2]> vs))
      | _, _ => undefined
      end
  | CopyConstruct x y =>
      match o_copy, vs !! x, vs !! y with
      | Some (copy_construct, _), None, Some t => let! t' := copy_construct t in ret (<[x := t']> vs)
      | _, _, _ => undefined
      end
  | CopyAssign x y =>
      match o_copy, vs !! x, vs !! y with
      | Some (_, copy_assign), Some t, Some u =>
          if decide (x = y) then ret vs else let! t' := copy_assign t u in ret (<[x := t']> vs)
      | _, _, _ => undefined
      end
  | Destroy x =>
      match vs !! x with
      | Some t => o_destruct t ;! ret (delete x vs)
      | None => undefined
      end
  end.

Fixpoint run (cs : list (cmd C)) (vs : gmap nat T) : M (gmap nat T) :=
  match cs with
  | [] => ret vs
  | c :: cs' => let! vs' := exec c vs in run cs' vs'
  end.

(** ** Specification: variables have values; a value nobody has any more is
    destroyed *)
Record spec : Type := Spec { s_vars : gmap nat (option value); s_destroyed : list nat }.
Definition spec_init : spec := Spec ∅ [].
Definition held_values (vs : gmap nat (option value)) : list value := omap (λ o, o) (map_to_list vs).*2.
Definition drop_value (o : option value) (m : spec) : spec :=
  match o with
  | Some (Owned v) =>
      if decide (Owned v ∈ held_values (s_vars m)) then m else Spec (s_vars m) (s_destroyed m ++ [v])
  | _ => m
  end.
Definition fresh_value (v : nat) (m : spec) : bool :=
  bool_decide (Owned v ∉ held_values (s_vars m)) && bool_decide (v ∉ s_destroyed m).

(** [None]: the program is not one: a variable is used outside of its life. *)
Definition spec_exec (c : cmd C) (m : spec) : option spec :=
  match c with
  | Default x =>
      if decide (s_vars m !! x = None) then Some (Spec (<[x := None]> (s_vars m)) (s_destroyed m)) else None
  | Construct x c v =>
      if decide (s_vars m !! x = None) then
        if fresh_value v m then
          Some (match o_throws c with
                | Some _ => m
                | None => Spec (<[x := Some (o_value c v)]> (s_vars m)) (s_destroyed m)
                end)
        else None
      else None
  | MoveConstruct x y =>
      match s_vars m !! x, s_vars m !! y with
      | None, Some o => Some (Spec (<[x := o]> (<[y := None]> (s_vars m))) (s_destroyed m))
      | _, _ => None
      end
  | MoveAssign x y =>
      match s_vars m !! x, s_vars m !! y with
      | Some old, Some o =>
          if decide (x = y) then Some m
          else Some (drop_value old (Spec (<[x := o]> (<[y := None]> (s_vars m))) (s_destroyed m)))
      | _, _ => None
      end
  | CopyConstruct x y =>
      match o_copy, s_vars m !! x, s_vars m !! y with
      | Some _, None, Some o => Some (Spec (<[x := o]> (s_vars m)) (s_destroyed m))
      | _, _, _ => None
      end
  | CopyAssign x y =>
      match o_copy, s_vars m !! x, s_vars m !! y with
      | Some _, Some old, Some o =>
          if decide (x = y) then Some m else Some (drop_value old (Spec (<[x := o]> (s_vars m)) (s_destroyed m)))
      | _, _, _ => None
      end
  | Destroy x =>
      match s_vars m !! x with
      | Some old => Some (drop_value old (Spec (delete x (s_vars m)) (s_destroyed m)))
      | None => None
      end
  end.
Fixpoint spec_run (cs : list (cmd C)) (m : spec) : option spec :=
  match cs with
  | [] => Some m
  | c :: cs' => m' ← spec_exec c m; spec_run cs' m'
  end.
End machine.

Definition empty_store : store := Store ∅ 0 [].

(** ** The types *)
Record unique_ptr2_args : Type := UniquePtr2Args { up_no_memory : bool; up_throws : option exn }.
#[global] Instance unique_ptr2_owner : Owner UniquePtr2.unique_ptr2 unique_ptr2_args := {
  null_owner := UniquePtr2.null;
  o_construct := λ c, UniquePtr2.make_unique2 (up_no_memory c) (up_throws c);
  o_throws := λ c, if up_no_memory c then Some bad_alloc else up_throws c;
  o_value := λ _ v, Owned v;
  o_move_construct := UniquePtr2.move_construct;
  o_move_assign := UniquePtr2.move_assign;
  o_copy := None;
  o_destruct := λ p, let! _ := UniquePtr2.reset p in ret tt;
  holds := λ p, HeapAt <$> UniquePtr2.m_object p;
  shared := false
}.

Record function_args : Type := FunctionArgs { fn_kind : Function.kind; fn_no_memory : bool; fn_throws : option exn }.
Definition function_throws (c : function_args) : option exn :=
  match fn_kind c with Function.Large => if fn_no_memory c then Some bad_alloc else fn_throws c | Function.Small => fn_throws c end.
Definition function_holds (f : Function.function) : option holding :=
  match Function.destroy f, Function.m_buffer f with
  | Some _, Function.Callable v => Some (Inline v)
  | Some _, Function.Pointer (Some a) => Some (HeapAt a)
  | _, _ => None
  end.
#[global] Instance function_owner : Owner Function.function function_args := {
  null_owner := Function.null;
  o_construct := λ c, Function.from_callable (fn_kind c) (fn_no_memory c) (fn_throws c);
  o_throws := function_throws;
  o_value := λ _ v, Owned v;
  o_move_construct := Function.move_construct;
  o_move_assign := Function.move_assign;
  o_copy := None;
  o_destruct := Function.destruct;
  holds := function_holds;
  shared := false
}.

#[global] Instance thread_pool_task_owner : Owner ThreadPoolTask.thread_pool_task (nat * function_args) := {
  null_owner := ThreadPoolTask.null;
  o_construct := λ c, ThreadPoolTask.from_callable c.1 (fn_kind c.2) (fn_no_memory c.2) (fn_throws c.2);
  o_throws := λ c, function_throws c.2;
  o_value := λ _ v, Owned v;
  o_move_construct := ThreadPoolTask.move_construct;
  o_move_assign := ThreadPoolTask.move_assign;
  o_copy := None;
  o_destruct := ThreadPoolTask.destruct;
  holds := λ t, function_holds (ThreadPoolTask.m_func t);
  shared := false
}.

(** A proxy of a new value, whose construction may throw, or of an object. *)
Inductive value_proxy_args : Type := OwnedArg (throws : option exn) | ExternalArg (r : nat).
#[global] Instance value_proxy_owner : Owner ValueProxy.value_proxy value_proxy_args := {
  null_owner := ValueProxy.null;
  o_construct := λ c v, match c with
                        | OwnedArg throws => ValueProxy.own throws v
                        | ExternalArg r => ret (ValueProxy.external r)
                        end;
  o_throws := λ c, match c with OwnedArg throws => throws | ExternalArg _ => None end;
  o_value := λ c v, match c with OwnedArg _ => Owned v | ExternalArg r => External r end;
  o_move_construct := ValueProxy.move_construct;
  o_move_assign := ValueProxy.move_assign;
  o_copy := Some (ValueProxy.copy_construct, ValueProxy.copy_assign);
  o_destruct := ValueProxy.destruct;
  holds := λ p, match ValueProxy.interpret p, ValueProxy.m_buffer p with
                | Some _, ValueProxy.SharedPtr (Some a) => Some (HeapAt a)
                | Some _, ValueProxy.Reference (Some r) => Some (Refers r)
                | _, _ => None
                end;
  shared := true
}.

#[global] Instance unique_handle_owner : Owner UniqueHandle.unique_handle unit := {
  null_owner := UniqueHandle.null;
  o_construct := λ _, UniqueHandle.open_handle;
  o_throws := λ _, None;
  o_value := λ _ v, Owned v;
  o_move_construct := UniqueHandle.move_construct;
  o_move_assign := UniqueHandle.move_assign;
  o_copy := None;
  o_destruct := UniqueHandle.destruct;
  holds := λ u, HeapAt <$> UniqueHandle.m_handle u;
  shared := false
}.
