(* ===== verification/OwnershipFacts.v ===== *)
(** * Owners destroy every value exactly once

    Programs over the owning types have no undefined behaviour and do what their
    specification says: a value is with the variable it was moved to, and is
    destroyed when its last owner goes. *)
From S2P Require Import Prelude Ownership.
Open Scope prog_scope.

(** ** What a type has to satisfy *)
Definition release (h : option holding) (s : store) : store :=
  match h with
  | Some (Inline v) => bury v s
  | Some (HeapAt a) =>
      match heap s !! a with
      | Some (Object v) | Some (Counted v 1) => bury v (free_cell a s)
      | Some (Counted v (S n)) => set_cell a (Counted v n) s
      | _ => s
      end
  | _ => s
  end.
Definition retain (h : option holding) (s : store) : store :=
  match h with
  | Some (HeapAt a) =>
      match heap s !! a with Some (Counted v n) => set_cell a (Counted v (S n)) s | _ => s end
  | _ => s
  end.
Definition new_cell (sh : bool) (v : nat) : cell := if sh then Counted v 1 else Object v.
Definition fits (sh : bool) (c : cell) : Prop :=
  match c with Object _ => sh = false | Counted _ n => sh = true ∧ 0 < n | Raw => False end.
Definition valid (sh : bool) (s : store) (h : option holding) : Prop :=
  match h with Some (HeapAt a) => ∃ c, heap s !! a = Some c ∧ fits sh c | _ => True end.

Section laws.
Context (T C : Type) `{Owner T C}.

(** A variable [t] constructed from [c] and [v]. *)
Definition born (c : C) (v : nat) (s : store) (t : T) (s' : store) : Prop :=
  match holds t with
  | Some (Inline w) => w = v ∧ o_value c v = Owned v ∧ s' = s
  | Some (HeapAt a) =>
      a = next_addr s ∧ o_value c v = Owned v ∧ s' = Store (<[a := new_cell shared v]> (heap s)) (S a) (destroyed s)
  | Some (Refers r) => o_value c v = External r ∧ s' = s
  | None => False
  end.

Class OwnerLaws : Type := {
  wf_owner : T → Prop;
  law_null : wf_owner null_owner ∧ holds null_owner = None;
  law_construct c v s : heap s !! next_addr s = None →
    match o_throws c with
    | Some x => ∃ n, o_construct c v s = Throw x (Store (heap s) (next_addr s + n) (destroyed s))
    | None => ∃ t s', o_construct c v s = Ok t s' ∧ wf_owner t ∧ born c v s t s'
    end;
  law_move_construct t s : wf_owner t →
    ∃ t1 t2, o_move_construct t s = Ok (t1, t2) s ∧ wf_owner t1 ∧ wf_owner t2 ∧ holds t1 = holds t ∧ holds t2 = None;
  law_move_assign t u s : wf_owner t → wf_owner u → valid shared s (holds t) →
    (shared = false → holds t = holds u → holds t = None) →
    ∃ t1 t2, o_move_assign t u s = Ok (t1, t2) (release (holds t) s) ∧ wf_owner t1 ∧ wf_owner t2 ∧
             holds t1 = holds u ∧ holds t2 = None;
  law_copy cc ca : o_copy = Some (cc, ca) → shared = true ∧
    (∀ t s, wf_owner t → valid shared s (holds t) →
       ∃ t', cc t s = Ok t' (retain (holds t) s) ∧ wf_owner t' ∧ holds t' = holds t) ∧
    (∀ t u s, wf_owner t → wf_owner u → valid shared s (holds t) → valid shared (release (holds t) s) (holds u) →
       ∃ t', ca t u s = Ok t' (retain (holds u) (release (holds t) s)) ∧ wf_owner t' ∧ holds t' = holds u);
  law_no_refers t r : shared = false → holds t ≠ Some (Refers r);
  law_no_inline t v : shared = true → holds t ≠ Some (Inline v);
  law_destruct t s : wf_owner t → valid shared s (holds t) → o_destruct t s = Ok tt (release (holds t) s)
}.
End laws.
Arguments wf_owner {T C _ _}.
Arguments OwnerLaws T C {_}.

(** ** The types satisfy it *)
Lemma fits_object a s : valid false s (Some (HeapAt a)) → ∃ v, heap s !! a = Some (Object v).
Proof. intros (c & Hc & Hf). destruct c; [done|by eexists|by destruct Hf]. Qed.
Lemma destroy_deallocate a v s :
  heap s !! a = Some (Object v) → (destroy_at a ;! deallocate a) s = Ok tt (bury v (free_cell a s)).
Proof.
  intros Ha. unfold bind, destroy_at, deallocate. rewrite Ha. simpl. rewrite lookup_insert_eq.
  unfold free_cell, bury. simpl. by rewrite delete_insert_eq.
Qed.
(** An object is made in new memory, or the memory is given back. *)
Lemma make_object {A} no_memory throws v (k : nat → A) s :
  heap s !! next_addr s = None →
  (let! a := allocate no_memory in
   try_catch (construct_at a throws v) (λ x, deallocate a ;! throw x) ;! ret (k a)) s =
  match (if no_memory : bool then Some bad_alloc else throws) with
  | Some x => Throw x (Store (heap s) (next_addr s + if no_memory then 0 else 1) (destroyed s))
  | None => Ok (k (next_addr s)) (Store (<[next_addr s := Object v]> (heap s)) (S (next_addr s)) (destroyed s))
  end.
Proof.
  intros Hn. unfold bind, allocate, try_catch, construct_at, deallocate, throw, ret. destruct no_memory.
  - rewrite Nat.add_0_r. by destruct s.
  - simpl. rewrite lookup_insert_eq. destruct throws as [x|]; simpl.
    + rewrite lookup_insert_eq. unfold free_cell. simpl. rewrite delete_insert_id by done. by rewrite Nat.add_1_r.
    + unfold set_cell. simpl. by rewrite insert_insert_eq.
Qed.
Lemma bind_bind {S A B D} (m : prog S A) (k : A → prog S B) (k' : B → prog S D) s :
  bind (bind m k) k' s = bind m (λ a, bind (k a) k') s.
Proof. unfold bind. by destruct (m s). Qed.
Lemma bind_ok {S A B} (m : prog S A) (k : A → prog S B) a s s' : m s = Ok a s' → bind m k s = k a s'.
Proof. intros E. unfold bind. by rewrite E. Qed.

#[global] Instance unique_ptr2_laws : OwnerLaws UniquePtr2.unique_ptr2 unique_ptr2_args.
Proof.
  assert (∀ p s, UniquePtr2.m_alloc_memory p = UniquePtr2.m_object p → valid false s (holds p) →
            UniquePtr2.reset p s = Ok UniquePtr2.null (release (holds p) s)) as Hreset.
  { intros [[a|] o] s Hw Hv; simpl in Hw; subst o; [|done]. apply fits_object in Hv as [v Hv]. unfold UniquePtr2.reset. simpl.
    rewrite <- bind_bind, (bind_ok _ _ _ _ _ (destroy_deallocate a v s Hv)). by rewrite Hv. }
  exists (λ p, UniquePtr2.m_alloc_memory p = UniquePtr2.m_object p); try done.
  - intros [nm th] v s Hn. simpl. unfold UniquePtr2.make_unique2. rewrite make_object by done.
    destruct nm, th; try by eexists. eexists _, _. split; [done|]. by split.
  - intros t s Hw. by eexists _, _.
  - intros t u s Ht Hu Hv _. eexists _, _. simpl. unfold UniquePtr2.move_assign.
    rewrite (bind_ok _ _ _ _ _ (Hreset t s Ht Hv)). by split.
  - by intros [m [a|]] r _.
  - intros t s Ht Hv. simpl. by rewrite (bind_ok _ _ _ _ _ (Hreset t s Ht Hv)).
Defined.

Definition wf_function (f : Function.function) : Prop :=
  Function.call f = Function.destroy f ∧ Function.move f = Function.destroy f ∧
  match Function.destroy f with
  | None => True
  | Some Function.Small => ∃ v, Function.m_buffer f = Function.Callable v
  | Some Function.Large => ∃ a, Function.m_buffer f = Function.Pointer (Some a)
  end.
Lemma function_no_refers f r : function_holds f ≠ Some (Refers r).
Proof. by destruct f as [c m [d|] [|v|[a|]]]. Qed.
Lemma function_destruct f s :
  wf_function f → valid false s (function_holds f) → Function.destruct f s = Ok tt (release (function_holds f) s).
Proof.
  intros (_ & _ & Hw). destruct f as [c m [[]|] b]; simpl in Hw; [..|done].
  - destruct Hw as [v ->]. done.
  - destruct Hw as [a ->]. intros [v Hv]%fits_object.
    etrans; [exact (destroy_deallocate a v s Hv)|]. simpl. by rewrite Hv.
Qed.
Lemma function_move f s :
  wf_function f →
  ∃ f1 f2, Function.move_construct f s = Ok (f1, f2) s ∧ wf_function f1 ∧ wf_function f2 ∧
           function_holds f1 = function_holds f ∧ function_holds f2 = None.
Proof.
  intros (Hc & Hm & Hw). destruct f as [c m d b]. simpl in *. subst c m. unfold Function.move_construct. simpl.
  destruct d as [[]|]; [destruct Hw as [v ->]|destruct Hw as [a ->]|]; eexists _, _; (split; [done|]); repeat split; simpl; eauto.
Qed.
Lemma function_move_assign f g s :
  wf_function f → wf_function g → valid false s (function_holds f) →
  ∃ f1 g1, Function.move_assign f g s = Ok (f1, g1) (release (function_holds f) s) ∧ wf_function f1 ∧ wf_function g1 ∧
           function_holds f1 = function_holds g ∧ function_holds g1 = None.
Proof.
  intros Hf (Hc & Hm & Hw) Hv. unfold Function.move_assign. rewrite (bind_ok _ _ _ _ _ (function_destruct f s Hf Hv)).
  destruct g as [c m d b]. simpl in *. subst c m.
  destruct d as [[]|]; [destruct Hw as [v ->]|destruct Hw as [a ->]|]; eexists _, _; (split; [done|]); repeat split; simpl; eauto.
Qed.
Lemma function_construct c v s :
  heap s !! next_addr s = None →
  match function_throws c with
  | Some x => ∃ n, Function.from_callable (fn_kind c) (fn_no_memory c) (fn_throws c) v s =
                   Throw x (Store (heap s) (next_addr s + n) (destroyed s))
  | None => ∃ f s', Function.from_callable (fn_kind c) (fn_no_memory c) (fn_throws c) v s = Ok f s' ∧ wf_function f ∧
                    born Function.function function_args c v s f s'
  end.
Proof.
  intros Hn. destruct c as [[] nm th]; unfold function_throws; simpl.
  - destruct th as [x|]; [exists 0; rewrite Nat.add_0_r; by destruct s|]. eexists _, _. split; [done|]. repeat split; simpl; eauto.
  - rewrite make_object by done. destruct nm, th; try by eexists. eexists _, _. split; [done|]. repeat split; simpl; eauto.
Qed.
#[global] Instance function_laws : OwnerLaws Function.function function_args.
Proof.
  exists wf_function; try done.
  - apply function_construct.
  - intros t s. apply function_move.
  - intros t u s Ht Hu Hv _. by apply function_move_assign.
  - intros t r _. apply function_no_refers.
  - intros t s. apply function_destruct.
Defined.

#[global] Instance thread_pool_task_laws : OwnerLaws ThreadPoolTask.thread_pool_task (nat * function_args).
Proof.
  exists (λ t, wf_function (ThreadPoolTask.m_func t)); try done.
  - intros [pool c] v s Hn. pose proof (function_construct c v s Hn) as Hc. simpl. unfold ThreadPoolTask.from_callable.
    destruct (function_throws c).
    + destruct Hc as [n Hc]. exists n. unfold bind. by rewrite Hc.
    + destruct Hc as (f & s' & Hc & Hw & Hb). eexists _, s'. split; [by rewrite (bind_ok _ _ _ _ _ Hc)|]. by split.
  - intros t s (f1 & f2 & E & ?)%(function_move _ s). eexists _, _. simpl. unfold ThreadPoolTask.move_construct.
    by rewrite (bind_ok _ _ _ _ _ E).
  - intros t u s Ht Hu Hv _. destruct (function_move_assign _ _ _ Ht Hu Hv) as (f1 & f2 & E & ?).
    eexists _, _. simpl. unfold ThreadPoolTask.move_assign. by rewrite (bind_ok _ _ _ _ _ E).
  - intros t r _. apply function_no_refers.
  - intros t s. apply function_destruct.
Defined.

#[global] Instance unique_handle_laws : OwnerLaws UniqueHandle.unique_handle unit.
Proof.
  assert (∀ u h s, (UniqueHandle.m_handle u = h → h = None) → valid false s (holds u) →
            UniqueHandle.reset h u s = Ok (UniqueHandle.mk h) (release (holds u) s)) as Hreset.
  { intros [o] h s Hne Hv. unfold UniqueHandle.reset. simpl in *. case_decide as E; [subst o; by rewrite (Hne eq_refl)|].
    destruct o as [a|]; [|done]. simpl in *. apply fits_object in Hv as [v Hv].
    unfold UniqueHandle.close. rewrite (bind_ok _ _ _ _ _ (destroy_deallocate a v s Hv)). by rewrite Hv. }
  exists (λ _, True); try done.
  - intros c v s Hn. eexists _, _. split; [done|]. by split.
  - intros t s _. by eexists _, _.
  - intros t u s _ _ Hv Hne. simpl. unfold UniqueHandle.move_assign. eexists _, _.
    rewrite (bind_ok _ _ (UniqueHandle.mk (UniqueHandle.m_handle u)) s (release (holds t) s)); [by split|].
    apply Hreset; [|done]. intros E. destruct u as [[a|]]; [|done]. simpl in *.
    rewrite E in Hne. by specialize (Hne eq_refl eq_refl).
  - by intros [[a|]] r _.
  - intros t s _ Hv. simpl. unfold UniqueHandle.destruct. by rewrite (bind_ok _ _ _ _ _ (Hreset t None s (λ _, eq_refl) Hv)).
Defined.

Definition wf_value_proxy (p : ValueProxy.value_proxy) : Prop :=
  ValueProxy.copy p = ValueProxy.interpret p ∧ ValueProxy.move p = ValueProxy.interpret p ∧
  match ValueProxy.interpret p with
  | None => ValueProxy.destroy p = None
  | Some ValueProxy.Own => ValueProxy.destroy p = Some ValueProxy.Own ∧ ∃ a, ValueProxy.m_buffer p = ValueProxy.SharedPtr (Some a)
  | Some ValueProxy.Ext => ValueProxy.destroy p = None ∧ ∃ r, ValueProxy.m_buffer p = ValueProxy.Reference (Some r)
  end.
Lemma value_proxy_destruct p s :
  wf_value_proxy p → valid true s (holds p) → ValueProxy.destruct p s = Ok tt (release (holds p) s).
Proof.
  intros (_ & _ & Hw) Hv. destruct p as [d [[]|] c m b]; simpl in *; [destruct Hw as [-> [x ->]]..|by subst d].
  - destruct Hv as ([|v|v [|[|n]]] & Hc & Hf); [done..|by destruct Hf; lia| |].
    + unfold ValueProxy.destruct. simpl. unfold ValueProxy.unshare. by rewrite Hc.
    + unfold ValueProxy.destruct. simpl. unfold ValueProxy.unshare. by rewrite Hc.
  - done.
Qed.
Lemma value_proxy_do_copy k p s :
  wf_value_proxy p → ValueProxy.interpret p = Some k → valid true s (holds p) →
  ValueProxy.do_copy k (ValueProxy.m_buffer p) s = Ok (ValueProxy.m_buffer p) (retain (holds p) s).
Proof.
  intros (_ & _ & Hw) Hk Hv. destruct p as [d i c m b]. simpl in *. subst i. destruct k; destruct Hw as [-> [x ->]]; [|done].
  destruct Hv as ([|v|v n] & Hc & Hf); [done..|]. simpl. unfold bind, ValueProxy.share. by rewrite Hc.
Qed.
#[global] Instance value_proxy_laws : OwnerLaws ValueProxy.value_proxy value_proxy_args.
Proof.
  exists wf_value_proxy; try done.
  - intros [[x|]|r] v s Hn; simpl.
    + exists 0. rewrite Nat.add_0_r. by destruct s.
    + eexists _, _. split; [done|]. repeat split; simpl; eauto.
    + eexists _, _. split; [done|]. repeat split; simpl; eauto.
  - intros [d i c m b] s (Hc & Hm & Hw). simpl in *. subst c m. unfold ValueProxy.move_construct, ValueProxy.is_valid. simpl.
    destruct i as [[]|]; [destruct Hw as [-> [x ->]]..|]; eexists _, _; (split; [done|]); repeat split; simpl; eauto.
  - intros t [d i c m b] s Ht (Hc & Hm & Hw) Hv _. simpl in *. subst c m. unfold ValueProxy.move_assign. simpl.
    pose proof (value_proxy_destruct t s Ht Hv) as Hd.
    destruct i as [[]|]; [destruct Hw as [-> [x ->]]..|];
      eexists _, _; (split; [by rewrite (bind_ok _ _ _ _ _ Hd)|]); repeat split; simpl; eauto.
  - intros cc ca [= <- <-]. split_and!; [done|..].
    + intros t s Ht Hv. unfold ValueProxy.copy_construct, ValueProxy.is_valid. pose proof Ht as (Hc & Hm & Hw).
      destruct (ValueProxy.interpret t) as [k|] eqn:Hi; simpl.
      * rewrite Hc. eexists. erewrite bind_ok by by apply value_proxy_do_copy. split; [done|]. split; [|by simpl; rewrite Hi].
        unfold wf_value_proxy. simpl. by rewrite ?Hc, ?Hm, ?Hi.
      * exists ValueProxy.null. by rewrite Hi.
    + intros t u s Ht Hu Hv Hv'. unfold ValueProxy.copy_assign. rewrite (bind_ok _ _ _ _ _ (value_proxy_destruct t s Ht Hv)).
      pose proof Hu as (Hc & Hm & Hw). destruct (ValueProxy.interpret u) as [k|] eqn:Hi.
      * rewrite Hc. eexists. erewrite bind_ok by by apply value_proxy_do_copy. split; [done|]. split; [|by simpl; rewrite Hi].
        unfold wf_value_proxy. simpl. by rewrite ?Hc, ?Hm, ?Hi.
      * rewrite Hc. eexists. simpl. rewrite Hi. by split.
  - intros [d [k|] c m [|[]|[]]] v _; simpl; congruence.
  - intros t s. apply value_proxy_destruct.
Defined.

(** ** Holdings and the store *)
Definition cell_value (c : cell) : option nat := match c with Raw => None | Object v | Counted v _ => Some v end.
Definition cell_count (c : cell) : nat := match c with Raw => 0 | Object _ => 1 | Counted _ n => n end.
Definition heap_values (h : gmap nat cell) : list nat := omap cell_value (map_to_list h).*2.
Definition value_at (s : store) (h : holding) : option value :=
  match h with
  | Inline v => Some (Owned v)
  | HeapAt a => Owned <$> (heap s !! a ≫= cell_value)
  | Refers r => Some (External r)
  end.
Definition addr (h : holding) : option nat := match h with HeapAt a => Some a | _ => None end.
Definition inline (h : holding) : option nat := match h with Inline v => Some v | _ => None end.

(** The cells are those that [L] refers to, with the right count, and no value is
    in two places or destroyed before. *)
Record coherent (sh : bool) (L : list holding) (s : store) : Prop := {
  co_cells a c : heap s !! a = Some c → fits sh c ∧ cell_count c = occ a (omap addr L);
  co_addrs a : a ∈ omap addr L → is_Some (heap s !! a);
  co_live : NoDup (destroyed s ++ omap inline L ++ heap_values (heap s));
  co_next a : next_addr s ≤ a → heap s !! a = None
}.
#[global] Instance coherent_proper sh : Proper ((≡ₚ) ==> (=) ==> iff) (coherent sh).
Proof.
  assert (∀ L L' s, L ≡ₚ L' → coherent sh L s → coherent sh L' s) as Hp.
  { intros L L' s HL []. split; try done.
    - intros a c Ha. rewrite <- HL. by apply co_cells0.
    - intros a. rewrite <- HL. apply co_addrs0.
    - by rewrite <- HL. }
  intros L L' HL s ? <-. split; by apply Hp.
Qed.

Lemma heap_values_delete h a c :
  h !! a = Some c → heap_values h ≡ₚ option_list (cell_value c) ++ heap_values (delete a h).
Proof.
  intros Ha. unfold heap_values. rewrite <- (map_to_list_delete h a c Ha). simpl. by destruct (cell_value c).
Qed.
Lemma heap_values_insert h a c : h !! a = None → heap_values (<[a := c]> h) ≡ₚ option_list (cell_value c) ++ heap_values h.
Proof. intros Ha. unfold heap_values. rewrite map_to_list_insert by done. simpl. by destruct (cell_value c). Qed.
Lemma heap_values_update h a c c' :
  h !! a = Some c → cell_value c' = cell_value c → heap_values (<[a := c']> h) ≡ₚ heap_values h.
Proof.
  intros Ha Hc. rewrite (heap_values_delete (<[a := c']> h) a c') by apply lookup_insert_eq.
  rewrite (heap_values_delete h a c Ha), Hc. by rewrite delete_insert_eq.
Qed.

Lemma fits_value sh c : fits sh c → ∃ v, cell_value c = Some v ∧ 1 ≤ cell_count c.
Proof. destruct c as [|v|v n]; simpl; [done|by eauto|]. intros [_ Hn]. by eauto. Qed.

(** What [L] refers to is there. *)
Lemma coherent_value sh L s h : coherent sh L s → h ∈ L → is_Some (value_at s h) ∧ valid sh s (Some h).
Proof.
  intros Co Hh. destruct h as [v|a|r]; [by split; [eexists|]| |by split; [eexists|]].
  destruct (co_addrs _ _ _ Co a) as [c Hc]; [apply list_elem_of_omap; by exists (HeapAt a)|].
  destruct (co_cells _ _ _ Co a c Hc) as [Hf _]. split; [|by exists c]. simpl. rewrite Hc. simpl.
  destruct (fits_value _ _ Hf) as (v & -> & _). by eexists.
Qed.

(** Two holders of a value share a cell. *)
Lemma coherent_same sh L s h h' v :
  coherent sh (h :: L) s → h' ∈ L → value_at s h = Some (Owned v) → value_at s h' = Some (Owned v) →
  ∃ a, h = HeapAt a ∧ h' = HeapAt a.
Proof.
  intros Co Hin Hv Hv'. pose proof (co_live _ _ _ Co) as Hnd. apply NoDup_app in Hnd as (_ & _ & Hnd).
  apply NoDup_app in Hnd as (Hi & Hdisj & Hh).
  assert (∀ a w, value_at s (HeapAt a) = Some (Owned w) → w ∈ heap_values (heap s)) as Hcell.
  { intros a w Ha. simpl in Ha. destruct (heap s !! a) as [c|] eqn:E; [|done]. simpl in Ha.
    rewrite (heap_values_delete _ _ _ E). destruct (cell_value c); simplify_eq/=. by left. }
  assert (∀ w, Inline w ∈ L → w ∈ omap inline L) as Hinl by (intros w Hw; apply list_elem_of_omap; by exists (Inline w)).
  destruct h as [w|a|r]; [simpl in Hv; simplify_eq| |done]; (destruct h' as [w'|a'|r']; [simpl in Hv'; simplify_eq| |done]).
  - exfalso. simpl in Hi. apply NoDup_cons in Hi as [Hi _]. by apply Hi, Hinl.
  - exfalso. eapply Hdisj; [|by apply (Hcell a')]. simpl. by left.
  - exfalso. eapply Hdisj; [|by apply (Hcell a)]. simpl. by apply Hinl.
  - exists a. split; [done|]. destruct (decide (a' = a)) as [->|Hne]; [done|]. exfalso. simpl in Hv, Hv'.
    destruct (heap s !! a) as [c|] eqn:E; [|done]. destruct (heap s !! a') as [c'|] eqn:E'; [|done].
    simpl in *. apply fmap_Some in Hv as (w & Hc & [= <-]). apply fmap_Some in Hv' as (w & Hc' & [= <-]).
    rewrite (heap_values_delete _ _ _ E), Hc in Hh. simpl in Hh. apply NoDup_cons in Hh as [Hh _]. apply Hh.
    rewrite (heap_values_delete (delete a (heap s)) a' c') by by rewrite lookup_delete_ne. rewrite Hc'. by left.
Qed.

(** A holder goes. *)
Definition lost_value (s : store) (h : holding) (L : list holding) : list nat :=
  match value_at s h with
  | Some (Owned v) => if decide (Some (Owned v) ∈ value_at s <$> L) then [] else [v]
  | _ => []
  end.
Lemma lost_value_last s h L v :
  value_at s h = Some (Owned v) → (∀ h', h' ∈ L → value_at s h' ≠ Some (Owned v)) → lost_value s h L = [v].
Proof.
  intros Hv Hn. unfold lost_value. rewrite Hv, decide_False; [done|]. intros (h' & E & Hin)%list_elem_of_fmap. by apply (Hn h').
Qed.
Lemma lost_value_kept s h L v : value_at s h = Some (Owned v) → h ∈ L → lost_value s h L = [].
Proof. intros Hv Hin. unfold lost_value. rewrite Hv, decide_True; [done|]. rewrite <- Hv. by apply list_elem_of_fmap_2. Qed.

Lemma occ_addr_cons a h L :
  occ a (omap addr (h :: L)) = (if decide (h = HeapAt a) then 1 else 0) + occ a (omap addr L).
Proof.
  destruct h as [v|b|r]; cbn [omap list_omap addr]; [by rewrite decide_False| |by rewrite decide_False].
  rewrite occ_cons. repeat case_decide; simplify_eq; done.
Qed.
Lemma occ_addr_pos a L : 1 ≤ occ a (omap addr L) → HeapAt a ∈ L.
Proof. intros Ho%occ_pos. apply list_elem_of_omap in Ho as ([] & Hin & Ha); by simplify_eq/=. Qed.

Record released (sh : bool) (L : list holding) (s s' : store) (lost : list nat) : Prop := {
  rl_coherent : coherent sh L s';
  rl_values h : h ∈ L → value_at s' h = value_at s h;
  rl_destroyed : destroyed s' = destroyed s ++ lost
}.

Lemma release_inline sh v L s :
  coherent sh (Inline v :: L) s → released sh L s (release (Some (Inline v)) s) (lost_value s (Inline v) L).
Proof.
  intros Co. assert (lost_value s (Inline v) L = [v]) as ->.
  { apply lost_value_last; [done|]. intros h' Hin Hv. by destruct (coherent_same sh L s (Inline v) h' v) as (a & ? & _). }
  destruct Co. split; [|done..]. split; try done. simpl. rewrite <- app_assoc. done.
Qed.

(** The last holder of a cell. *)
Lemma release_last sh a c v L s :
  coherent sh (HeapAt a :: L) s → heap s !! a = Some c → cell_value c = Some v → cell_count c = 1 →
  released sh L s (bury v (free_cell a s)) (lost_value s (HeapAt a) L).
Proof.
  intros Co Ha Hv Hc. assert (value_at s (HeapAt a) = Some (Owned v)) as Hva by (simpl; by rewrite Ha; simpl; rewrite Hv).
  assert (HeapAt a ∉ L) as Hn.
  { intros Hin. destruct (co_cells _ _ _ Co a c Ha) as [_ Ho]. rewrite Hc, occ_addr_cons, decide_True in Ho by done.
    assert (a ∈ omap addr L) as Hin'%occ_elem by (apply list_elem_of_omap; by exists (HeapAt a)). lia. }
  assert (lost_value s (HeapAt a) L = [v]) as ->.
  { apply lost_value_last; [done|]. intros h' Hin Hv'. destruct (coherent_same sh L s (HeapAt a) h' v) as (b & [= <-] & ->); [done..|].
    by apply Hn. }
  destruct Co. split; [|..|done].
  - split; simpl.
    + intros b c' [Hne Hb]%lookup_delete_Some. destruct (co_cells0 b c' Hb) as [Hf Ho]. split; [done|].
      rewrite Ho, occ_addr_cons, decide_False; [done|]. congruence.
    + intros b Hb. rewrite lookup_delete_ne; [apply co_addrs0; simpl; by right|]. intros <-. apply Hn.
      by apply occ_addr_pos, occ_elem.
    + rewrite (heap_values_delete _ _ _ Ha), Hv in co_live0. revert co_live0. apply NoDup_Permutation_proper.
      simpl. solve_Permutation.
    + intros b Hb. apply lookup_delete_None. right. by apply co_next0.
  - intros [w|b|r] Hin; [done| |done]. simpl. rewrite lookup_delete_ne; [done|]. by intros <-.
Qed.

(** One of several. *)
Lemma release_counted sh a v n L s :
  coherent sh (HeapAt a :: L) s → heap s !! a = Some (Counted v (S (S n))) →
  released sh L s (set_cell a (Counted v (S n)) s) (lost_value s (HeapAt a) L).
Proof.
  intros Co Ha. pose proof (co_cells _ _ _ Co a _ Ha) as [[Hsh _] Ho]. rewrite occ_addr_cons, decide_True in Ho by done. simpl in Ho.
  assert (HeapAt a ∈ L) as Hin by (apply occ_addr_pos; lia).
  rewrite (lost_value_kept s _ L v); [|by simpl; rewrite Ha|done].
  destruct Co. split; [| |by rewrite app_nil_r].
  - split; simpl.
    + intros b c [[<- <-]|[Hne Hb]]%lookup_insert_Some; [split; [split; [done|lia]|simpl; lia]|].
      destruct (co_cells0 b c Hb) as [Hf Ho']. split; [done|]. rewrite Ho', occ_addr_cons, decide_False; [done|]. congruence.
    + intros b Hb. destruct (decide (a = b)) as [<-|Hne]; [rewrite lookup_insert_eq; by eexists|].
      rewrite lookup_insert_ne by done. apply co_addrs0. simpl. by right.
    + by rewrite (heap_values_update _ _ _ (Counted v (S n)) Ha eq_refl).
    + intros b Hb. rewrite lookup_insert_ne; [by apply co_next0|]. intros <-. by rewrite co_next0 in Ha.
  - intros [w|b|r] _; [done| |done]. simpl. destruct (decide (a = b)) as [<-|Hne];
      [by rewrite lookup_insert_eq, Ha|by rewrite lookup_insert_ne].
Qed.

Lemma release_holder sh h L s : coherent sh (h :: L) s → released sh L s (release (Some h) s) (lost_value s h L).
Proof.
  intros Co. destruct h as [v|a|r]; [by apply release_inline| |].
  - destruct (co_addrs _ _ _ Co a) as [c Ha]; [simpl; by left|]. destruct (co_cells _ _ _ Co a c Ha) as [Hf _].
    simpl. rewrite Ha. destruct c as [|v|v [|[|n]]]; [done|by eapply release_last|by destruct Hf; lia|by eapply release_last|].
    by apply release_counted.
  - simpl. unfold lost_value. simpl. destruct Co. split; [done..|]. by rewrite app_nil_r.
Qed.

(** Another holder comes. *)
Lemma retain_holder sh h L s :
  coherent sh L s → h ∈ L → sh = true → (∀ v, h ≠ Inline v) →
  let s' := retain (Some h) s in
  coherent sh (h :: L) s' ∧ (∀ h', value_at s' h' = value_at s h') ∧ destroyed s' = destroyed s.
Proof.
  intros Co Hin Hsh Hni. destruct h as [v|a|r]; [by destruct (Hni v)| |by destruct Co].
  destruct (co_addrs _ _ _ Co a) as [c Ha]; [apply list_elem_of_omap; by exists (HeapAt a)|].
  destruct (co_cells _ _ _ Co a c Ha) as [Hf Ho]. simpl. rewrite Ha.
  destruct c as [|v|v n]; [done|by rewrite Hf in Hsh|]. destruct Hf as [_ Hn]. simpl in Ho. destruct Co. split_and!; [|..|done].
  - split; simpl.
    + intros b c' [[<- <-]|[Hne Hb]]%lookup_insert_Some.
      * split; [split; [done|lia]|]. simpl. rewrite occ_cons, decide_True by done. unfold omap in *. lia.
      * destruct (co_cells0 b c' Hb) as [Hf Ho']. split; [done|]. rewrite occ_cons, decide_False by done. done.
    + intros b [->|Hb]%elem_of_cons; [rewrite lookup_insert_eq; by eexists|].
      destruct (decide (a = b)) as [<-|Hne]; [rewrite lookup_insert_eq; by eexists|].
      rewrite lookup_insert_ne by done. by apply co_addrs0.
    + by rewrite (heap_values_update _ _ _ (Counted v (S n)) Ha eq_refl).
    + intros b Hb. rewrite lookup_insert_ne; [by apply co_next0|]. intros <-. by rewrite co_next0 in Ha.
  - intros [w|b|r]; [done| |done]. simpl. destruct (decide (a = b)) as [<-|Hne];
      [by rewrite lookup_insert_eq, Ha|by rewrite lookup_insert_ne].
Qed.

(** A new cell. *)
Lemma coherent_alloc sh v L s :
  coherent sh L s → v ∉ destroyed s ++ omap inline L ++ heap_values (heap s) →
  coherent sh (HeapAt (next_addr s) :: L)
    (Store (<[next_addr s := new_cell sh v]> (heap s)) (S (next_addr s)) (destroyed s)).
Proof.
  intros Co Hv. pose proof (co_next _ _ _ Co (next_addr s) (le_n _)) as Hn.
  assert (next_addr s ∉ omap addr L) as Hna.
  { intros Hin. destruct (co_addrs _ _ _ Co _ Hin) as [c Hc]. congruence. }
  assert (cell_value (new_cell sh v) = Some v ∧ cell_count (new_cell sh v) = 1 ∧ fits sh (new_cell sh v)) as (Hcv & Hcc & Hcf).
  { destruct sh; simpl; split_and!; try done; lia. }
  destruct Co. split; simpl.
  - intros a c [[<- <-]|[Hne Ha]]%lookup_insert_Some.
    + split; [done|]. rewrite Hcc, occ_cons, decide_True by done. pose proof (occ_not_elem _ _ Hna) as Hz. unfold omap in *. lia.
    + rewrite occ_cons, decide_False by done. by apply co_cells0.
  - intros a [->|Ha]%elem_of_cons; [rewrite lookup_insert_eq; by eexists|]. rewrite lookup_insert_ne; [by apply co_addrs0|].
    by intros <-.
  - rewrite heap_values_insert, Hcv by done. simpl. rewrite (app_assoc (destroyed s)), <- Permutation_middle, <- app_assoc.
    apply NoDup_cons. by split.
  - intros a Ha. rewrite lookup_insert_ne by lia. apply co_next0. lia.
Qed.

(** ** The machine implements its specification *)
Section refinement.
Context {T C : Type} `{HT : Owner T C} `{!OwnerLaws T C}.
Implicit Types (vs : gmap nat T) (m : spec).

Definition holdings vs : list holding := omap holds (map_to_list vs).*2.
Definition var_value (s : store) (t : T) : option value := holds t ≫= value_at s.

Record refines vs (s : store) m : Prop := {
  rf_coherent : coherent shared (holdings vs) s;
  rf_wf x t : vs !! x = Some t → wf_owner t;
  rf_vars : s_vars m = var_value s <$> vs;
  rf_destroyed : s_destroyed m = destroyed s
}.

Lemma holdings_delete vs x t : vs !! x = Some t → holdings vs ≡ₚ option_list (holds t) ++ holdings (delete x vs).
Proof. intros Hx. unfold holdings. rewrite <- (map_to_list_delete vs x t Hx). simpl. by destruct (holds t). Qed.
Lemma holdings_insert vs x t : holdings (<[x := t]> vs) ≡ₚ option_list (holds t) ++ holdings (delete x vs).
Proof. rewrite (holdings_delete (<[x := t]> vs) x t) by apply lookup_insert_eq. by rewrite delete_insert_eq. Qed.
Lemma holdings_new vs x t : vs !! x = None → holdings (<[x := t]> vs) ≡ₚ option_list (holds t) ++ holdings vs.
Proof. intros Hx. by rewrite holdings_insert, delete_id. Qed.
Lemma holdings_elem vs h : h ∈ holdings vs ↔ ∃ x t, vs !! x = Some t ∧ holds t = Some h.
Proof.
  unfold holdings. rewrite list_elem_of_omap. split.
  - intros (t & ([x t'] & -> & Hin%elem_of_map_to_list)%list_elem_of_fmap & Ht). by eauto.
  - intros (x & t & Hx & Ht). exists t. split; [|done]. apply list_elem_of_fmap. exists (x, t). by rewrite elem_of_map_to_list.
Qed.

(** The values of the specification are those of the holdings. *)
Lemma held_values_elem (V : gmap nat (option value)) o : o ∈ held_values V ↔ ∃ x, V !! x = Some (Some o).
Proof.
  unfold held_values. rewrite list_elem_of_omap. split.
  - intros (t & ([x t'] & -> & Hin%elem_of_map_to_list)%list_elem_of_fmap & Ht). simpl in Ht. subst. by eauto.
  - intros (x & Hx). exists (Some o). split; [|done]. apply list_elem_of_fmap. exists (x, Some o). by rewrite elem_of_map_to_list.
Qed.
Lemma held_values_holdings s vs o : o ∈ held_values (var_value s <$> vs) ↔ Some o ∈ value_at s <$> holdings vs.
Proof.
  rewrite held_values_elem, list_elem_of_fmap. setoid_rewrite holdings_elem. setoid_rewrite lookup_fmap. split.
  - intros (x & Hx). apply fmap_Some in Hx as (t & Ht & E). unfold var_value in E.
    destruct (holds t) as [h|] eqn:Eh; [|done]. simpl in E. by eauto 10.
  - intros (h & E & x & t & Hx & Hh). exists x. rewrite Hx. simpl. unfold var_value. rewrite Hh. simpl. by rewrite E.
Qed.

(** A holding without a variable is released. *)
Lemma refines_drop o vs s :
  coherent shared (option_list o ++ holdings vs) s → (∀ x t, vs !! x = Some t → wf_owner t) →
  refines vs (release o s) (drop_value (o ≫= value_at s) (Spec (var_value s <$> vs) (destroyed s))).
Proof.
  intros Co Hw. destruct o as [h|]; [|by split]. destruct (release_holder shared h _ s Co) as [Co' Hv Hd].
  assert (var_value (release (Some h) s) <$> vs = var_value s <$> vs) as E.
  { apply map_fmap_ext. intros x t Hx. unfold var_value. destruct (holds t) as [h'|] eqn:Hh; [|done]. simpl.
    apply Hv. apply holdings_elem. eauto. }
  unfold lost_value in Hd. split; [done|done|..]; rewrite ?E, ?Hd; cbn [mbind option_bind];
    destruct (value_at s h) as [[v|r]|]; simpl; try done; try (by rewrite app_nil_r).
  - clear Hd. by case_decide.
  - clear Hd. case_decide as H1; case_decide as H2; simpl; [by rewrite app_nil_r| | |done].
    + by apply held_values_holdings in H1.
    + by apply held_values_holdings in H2.
Qed.

Lemma refines_lookup vs s m x : refines vs s m → s_vars m !! x = var_value s <$> vs !! x.
Proof. intros R. by rewrite (rf_vars _ _ _ R), lookup_fmap. Qed.
Lemma refines_valid vs s m x t : refines vs s m → vs !! x = Some t → valid shared s (holds t).
Proof.
  intros R Hx. destruct (holds t) as [h|] eqn:Hh; [|done].
  apply (coherent_value _ (holdings vs)); [apply R|]. apply holdings_elem. eauto.
Qed.
Lemma wf_insert vs x t :
  wf_owner t → (∀ y u, vs !! y = Some u → wf_owner u) → ∀ y u, <[x := t]> vs !! y = Some u → wf_owner u.
Proof. intros Ht Hw y u [[_ <-]|[_ Hy]]%lookup_insert_Some; eauto. Qed.
Lemma wf_delete vs x : (∀ y u, vs !! y = Some u → wf_owner u) → ∀ y u, delete x vs !! y = Some u → wf_owner u.
Proof. intros Hw y u [_ Hy]%lookup_delete_Some; eauto. Qed.

(** A value the specification does not know is nowhere in the store. *)
Lemma fresh_not_live vs s m v :
  refines vs s m → fresh_value v m = true → v ∉ destroyed s ++ omap inline (holdings vs) ++ heap_values (heap s).
Proof.
  intros R [Hh Hd]%andb_true_iff. rewrite bool_decide_eq_true in Hh, Hd. rewrite (rf_vars _ _ _ R), held_values_holdings in Hh.
  assert (∀ h, h ∈ holdings vs → value_at s h ≠ Some (Owned v)) as Hn.
  { intros h Hin E. apply Hh. rewrite <- E. by apply list_elem_of_fmap_2. }
  rewrite !elem_of_app. intros [Hin|[Hin|Hin]].
  - by rewrite (rf_destroyed _ _ _ R) in Hd.
  - apply list_elem_of_omap in Hin as ([w|a|r] & Hin & [= ->]). by apply (Hn (Inline v)).
  - apply list_elem_of_omap in Hin as (c & ([a c'] & -> & Ha%elem_of_map_to_list)%list_elem_of_fmap & Hc). simpl in *.
    destruct (co_cells _ _ _ (rf_coherent _ _ _ R) a c' Ha) as [Hf Ho]. destruct (fits_value _ _ Hf) as (_ & _ & H1).
    apply (Hn (HeapAt a)); [apply occ_addr_pos; lia|]. simpl. by rewrite Ha; simpl; rewrite Hc.
Qed.

Lemma refines_construct vs s m x c v m' :
  refines vs s m → spec_exec (Construct x c v) m = Some m' →
  ∃ vs' s', exec (Construct x c v) vs s = Ok vs' s' ∧ refines vs' s' m'.
Proof.
  intros R. simpl. case_decide as Hx; [|done]. rewrite (refines_lookup _ _ _ _ R) in Hx. apply fmap_None in Hx.
  destruct (fresh_value v m) eqn:Hfresh; [|done]. pose proof (fresh_not_live _ _ _ _ R Hfresh) as Hnl.
  pose proof (rf_coherent _ _ _ R) as Co.
  pose proof (law_construct T C c v s (co_next _ _ _ Co _ (le_n _))) as Hc. rewrite Hx.
  destruct (o_throws c) as [e|]; intros [= <-].
  - destruct Hc as [n ->]. eexists _, _. split; [done|]. destruct R. split; try done. destruct Co. split; try done.
    simpl. intros a Ha. apply co_next0. lia.
  - destruct Hc as (t & s' & -> & Hwt & Hb). eexists _, _. split; [done|].
    assert (∀ s1 o, heap s1 = heap s ∨ (∃ w, heap s1 = <[next_addr s := w]> (heap s)) → o = holds t ≫= value_at s1 →
              <[x := o]> (var_value s <$> vs) = var_value s1 <$> <[x := t]> vs) as Hvars.
    { intros s1 o Hs1 ->. rewrite fmap_insert. f_equal. apply map_fmap_ext. intros y u Hy. unfold var_value.
      destruct (holds u) as [[w|a|r]|] eqn:Hh; [done| |done..]. simpl. destruct Hs1 as [->|[w ->]]; [done|].
      rewrite lookup_insert_ne; [done|]. intros <-. destruct (co_addrs _ _ _ Co (next_addr s)) as [z Hz].
      - apply list_elem_of_omap. exists (HeapAt (next_addr s)). split; [|done]. apply holdings_elem. eauto.
      - by rewrite (co_next _ _ _ Co) in Hz by done. }
    pose proof (holdings_new vs x t Hx) as Hh. unfold born in Hb.
    destruct R. destruct (holds t) as [[w|a|r]|]; [..|done].
    + destruct Hb as (-> & Hval & ->). split; [|by apply wf_insert| |done].
      * rewrite Hh. destruct Co. split; try done. simpl. rewrite <- Permutation_middle. apply NoDup_cons. by split.
      * simpl. rewrite rf_vars0. rewrite Hval. apply Hvars; [by left|done].
    + destruct Hb as (-> & Hval & ->). split; [|by apply wf_insert| |done].
      * rewrite Hh. apply coherent_alloc; done.
      * simpl. rewrite rf_vars0. rewrite Hval. apply Hvars; [right; by eexists|]. simpl. rewrite lookup_insert_eq. simpl.
        by destruct shared.
    + destruct Hb as (Hval & ->). split; [|by apply wf_insert| |done].
      * rewrite Hh. by destruct Co.
      * simpl. rewrite rf_vars0. rewrite Hval. apply Hvars; [by left|done].
Qed.

(** A pair of variables after a move: the holding went from [y] to [x]. *)
Lemma holdings_move vs x y t1 t2 u :
  x ≠ y → vs !! y = Some u → holds t1 = holds u → holds t2 = None →
  holdings (<[x := t1]> (<[y := t2]> vs)) ≡ₚ holdings (delete x vs).
Proof.
  intros Hne Hy H1 H2. rewrite holdings_insert, H1, delete_insert_ne by done.
  rewrite holdings_insert, H2. simpl. by rewrite (holdings_delete (delete x vs) y u) by by rewrite lookup_delete_ne.
Qed.
Lemma values_move s vs x y t1 t2 u :
  holds t1 = holds u → holds t2 = None →
  <[x := var_value s u]> (<[y := None]> (var_value s <$> vs)) = var_value s <$> <[x := t1]> (<[y := t2]> vs).
Proof.
  intros H1 H2. rewrite !fmap_insert. replace (var_value s t1) with (var_value s u) by (unfold var_value; by rewrite H1).
  by replace (var_value s t2) with (None : option value) by (unfold var_value; by rewrite H2).
Qed.

Lemma refines_move_construct vs s m x y m' :
  refines vs s m → spec_exec (MoveConstruct x y) m = Some m' →
  ∃ vs' s', exec (MoveConstruct x y) vs s = Ok vs' s' ∧ refines vs' s' m'.
Proof.
  intros R. simpl. rewrite !(refines_lookup _ _ _ _ R). destruct (vs !! x) eqn:Hx; [done|]. destruct (vs !! y) as [u|] eqn:Hy; [|done].
  simpl. intros [= <-]. destruct R.
  destruct (law_move_construct T C u s (rf_wf0 _ _ Hy)) as (t1 & t2 & E & Hw1 & Hw2 & H1 & H2).
  rewrite (bind_ok _ _ _ _ _ E). eexists _, _. split; [done|].
  assert (x ≠ y) as Hne by congruence. split; [| |by simpl; rewrite rf_vars0; apply values_move|done].
  - by rewrite (holdings_move _ _ _ _ _ u), delete_id.
  - by repeat apply wf_insert.
Qed.

Lemma refines_move_assign vs s m x y m' :
  refines vs s m → spec_exec (MoveAssign x y) m = Some m' →
  ∃ vs' s', exec (MoveAssign x y) vs s = Ok vs' s' ∧ refines vs' s' m'.
Proof.
  intros R. simpl. rewrite !(refines_lookup _ _ _ _ R). destruct (vs !! x) as [t|] eqn:Hx; [|done].
  destruct (vs !! y) as [u|] eqn:Hy; [|done]. simpl. case_decide as Hne; intros [= <-]; [by eexists _, _|].
  pose proof (refines_valid _ _ _ _ _ R Hx) as Hv. destruct R.
  pose proof (holdings_delete vs x t Hx) as Hd.
  destruct (law_move_assign T C t u s) as (t1 & t2 & E & Hw1 & Hw2 & H1 & H2); [by eauto..|done| |].
  { intros Hsh Htu. destruct (holds t) as [h|] eqn:Ht; [exfalso|done]. rewrite Hd in rf_coherent0. simpl in *.
    assert (h ∈ holdings (delete x vs)) as Hin by (apply holdings_elem; exists y, u; by rewrite lookup_delete_ne).
    destruct h as [v|a|r].
    - by destruct (coherent_same _ _ _ _ _ v rf_coherent0 Hin) as (a & ? & _).
    - destruct (co_addrs _ _ _ rf_coherent0 a) as [c Hc]; [simpl; by left|].
      destruct (co_cells _ _ _ rf_coherent0 a c Hc) as [Hf Ho]. rewrite Hsh in Hf. rewrite occ_addr_cons, decide_True in Ho by done.
      assert (a ∈ omap addr (holdings (delete x vs))) as Ha%occ_elem by (apply list_elem_of_omap; by exists (HeapAt a)).
      destruct c as [|v|v n]; simpl in *; [done|lia|by destruct Hf].
    - by destruct (law_no_refers T C t r Hsh). }
  rewrite (bind_ok _ _ _ _ _ E). eexists _, _. split; [done|].
  rewrite rf_vars0, (values_move s vs x y t1 t2 u H1 H2), rf_destroyed0. apply refines_drop.
  - by rewrite (holdings_move _ _ _ _ _ u), <- Hd.
  - by repeat apply wf_insert.
Qed.

Lemma refines_destroy vs s m x m' :
  refines vs s m → spec_exec (Destroy x) m = Some m' →
  ∃ vs' s', exec (Destroy x) vs s = Ok vs' s' ∧ refines vs' s' m'.
Proof.
  intros R. simpl. rewrite !(refines_lookup _ _ _ _ R). destruct (vs !! x) as [t|] eqn:Hx; [|done]. simpl. intros [= <-].
  pose proof (refines_valid _ _ _ _ _ R Hx) as Hv. destruct R.
  rewrite (bind_ok _ _ _ _ _ (law_destruct T C t s (rf_wf0 _ _ Hx) Hv)). eexists _, _. split; [done|].
  rewrite rf_vars0, <- fmap_delete, rf_destroyed0. apply refines_drop; [by rewrite <- holdings_delete|by apply wf_delete].
Qed.

Lemma refines_default vs s m x m' :
  refines vs s m → spec_exec (Default x) m = Some m' →
  ∃ vs' s', exec (Default x) vs s = Ok vs' s' ∧ refines vs' s' m'.
Proof.
  intros R. simpl. destruct (decide (s_vars m !! x = None)) as [Hx|]; [|done]. intros [= <-].
  rewrite (refines_lookup _ _ _ _ R), fmap_None in Hx. rewrite decide_True by done. eexists _, _. split; [done|]. destruct (law_null T C) as [Hw Hh]. destruct R. split; [|by apply wf_insert| |done].
  - by rewrite holdings_new, Hh.
  - simpl. rewrite fmap_insert, rf_vars0. f_equal. unfold var_value. by rewrite Hh.
Qed.

(** A copy next to a variable that has the same holding. *)
Lemma refines_retain vs s m x y t u :
  refines vs s m → vs !! x = None → vs !! y = Some u → holds t = holds u → wf_owner t → shared = true →
  refines (<[x := t]> vs) (retain (holds u) s) (Spec (<[x := var_value s u]> (s_vars m)) (s_destroyed m)).
Proof.
  intros R Hx Hy Hh Hw Hsh. destruct R.
  assert (coherent shared (option_list (holds u) ++ holdings vs) (retain (holds u) s) ∧
          (∀ h, value_at (retain (holds u) s) h = value_at s h) ∧ destroyed (retain (holds u) s) = destroyed s) as (Co & Hv & Hd).
  { destruct (holds u) as [h|] eqn:E; [|done]. apply retain_holder; [done|apply holdings_elem; by eauto|done|].
    intros v ->. by destruct (law_no_inline T C u v Hsh). }
  assert (∀ t', var_value (retain (holds u) s) t' = var_value s t') as Hvv.
  { intros t'. unfold var_value. destruct (holds t'); [apply Hv|done]. }
  split; [by rewrite holdings_new, Hh|by apply wf_insert| |simpl; congruence].
  simpl. rewrite fmap_insert, rf_vars0, Hvv.
  replace (var_value s t) with (var_value s u) by (unfold var_value; by rewrite Hh). f_equal.
  apply map_fmap_ext. intros z t' _. by rewrite Hvv.
Qed.

Lemma refines_copy_construct vs s m x y m' :
  refines vs s m → spec_exec (CopyConstruct x y) m = Some m' →
  ∃ vs' s', exec (CopyConstruct x y) vs s = Ok vs' s' ∧ refines vs' s' m'.
Proof.
  intros R. simpl. destruct o_copy as [[cc ca]|] eqn:Ec; [|done]. destruct (law_copy T C cc ca Ec) as (Hsh & Hcc & _).
  rewrite !(refines_lookup _ _ _ _ R). destruct (vs !! x) eqn:Hx; [done|]. destruct (vs !! y) as [u|] eqn:Hy; [|done].
  simpl. intros [= <-]. pose proof (refines_valid _ _ _ _ _ R Hy) as Hv.
  destruct (Hcc u s) as (t & E & Hw & Hh); [by eapply rf_wf|done|].
  rewrite (bind_ok _ _ _ _ _ E). eexists _, _. split; [done|]. by apply (refines_retain _ _ _ _ y).
Qed.

Lemma drop_value_ext o m V :
  (∀ w, w ∈ held_values V ↔ w ∈ held_values (s_vars m)) →
  drop_value o (Spec V (s_destroyed m)) = Spec V (s_destroyed (drop_value o m)).
Proof.
  intros HV. unfold drop_value. destruct o as [[v|r]|]; [|done..]. simpl.
  case_decide as H1; case_decide as H2; [done|..|done]; [by rewrite HV in H1|by rewrite <- HV in H2].
Qed.

Lemma refines_copy_assign vs s m x y m' :
  refines vs s m → spec_exec (CopyAssign x y) m = Some m' →
  ∃ vs' s', exec (CopyAssign x y) vs s = Ok vs' s' ∧ refines vs' s' m'.
Proof.
  intros R. simpl. destruct o_copy as [[cc ca]|] eqn:Ec; [|done]. destruct (law_copy T C cc ca Ec) as (Hsh & _ & Hca).
  rewrite !(refines_lookup _ _ _ _ R). destruct (vs !! x) as [t|] eqn:Hx; [|done]. destruct (vs !! y) as [u|] eqn:Hy; [|done].
  simpl. case_decide as Hne; intros [= <-]; [by eexists _, _|].
  pose proof (refines_valid _ _ _ _ _ R Hx) as Hv. pose proof R as [Co Hwf Hvars Hd].
  assert (delete x vs !! y = Some u) as Hy' by by rewrite lookup_delete_ne.
  pose proof (refines_drop (holds t) (delete x vs) s) as R1. rewrite <- holdings_delete in R1 by done.
  specialize (R1 Co (wf_delete _ _ Hwf)). set (m1 := drop_value _ _) in R1.
  destruct (Hca t u s) as (t' & E & Hw' & Hh); [by eauto..|by eapply refines_valid, Hy'|].
  rewrite (bind_ok _ _ _ _ _ E). eexists _, _. split; [done|].
  assert (s_vars m1 = var_value s <$> delete x vs) as Hm1.
  { unfold m1, drop_value. destruct (holds t ≫= value_at s) as [[]|]; [|done..]. by case_decide. }
  assert (var_value (release (holds t) s) u = var_value s u) as Hvu.
  { pose proof (refines_lookup _ _ _ y R1) as Hl. rewrite Hm1, lookup_fmap, Hy' in Hl. by simplify_eq/=. }
  pose proof (refines_retain _ _ _ x y t' u R1 (lookup_delete_eq _ _) Hy' Hh Hw' Hsh) as R2.
  rewrite insert_delete_eq, Hvu, Hm1 in R2. rewrite Hvars, Hd.
  assert (drop_value (var_value s t) (Spec (<[x := var_value s u]> (var_value s <$> vs)) (destroyed s)) =
          Spec (<[x := var_value s u]> (var_value s <$> delete x vs)) (s_destroyed m1)) as ->; [|done].
  rewrite fmap_delete, insert_delete_eq. apply (drop_value_ext _ (Spec (var_value s <$> delete x vs) (destroyed s))).
  intros w. rewrite !held_values_elem. simpl. rewrite fmap_delete. split; intros [z Hz].
  - destruct (decide (x = z)) as [<-|Hxz].
    + rewrite lookup_insert_eq in Hz. exists y. rewrite lookup_delete_ne, lookup_fmap, Hy by done. done.
    + rewrite lookup_insert_ne in Hz by done. exists z. by rewrite lookup_delete_ne.
  - apply lookup_delete_Some in Hz as [Hxz Hz]. exists z. by rewrite lookup_insert_ne.
Qed.

Lemma refines_exec c vs s m m' :
  refines vs s m → spec_exec c m = Some m' → ∃ vs' s', exec c vs s = Ok vs' s' ∧ refines vs' s' m'.
Proof.
  destruct c; [apply refines_default|apply refines_construct|apply refines_move_construct|apply refines_move_assign|
               apply refines_copy_construct|apply refines_copy_assign|apply refines_destroy].
Qed.
Lemma refines_run cs vs s m m' :
  refines vs s m → spec_run cs m = Some m' → ∃ vs' s', run cs vs s = Ok vs' s' ∧ refines vs' s' m'.
Proof.
  revert vs s m. induction cs as [|c cs IH]; intros vs s m R Hr; simpl in *; [simplify_eq; by eexists _, _|].
  apply bind_Some in Hr as (m1 & Hc & Hr). destruct (refines_exec c vs s m m1 R Hc) as (vs1 & s1 & E & R1).
  rewrite (bind_ok _ _ _ _ _ E). by apply IH with m1.
Qed.
Lemma refines_init : refines ∅ empty_store spec_init.
Proof.
  split; try done. split; simpl; [by intros a c Ha|intros a Ha; by apply elem_of_nil in Ha| |done]. constructor.
Qed.
End refinement.

(** What is promised for a type: a program of the specification runs without
    undefined behaviour; every variable has the value it has in the specification,
    and the same values were destroyed, in the same order, each once; when no variable
    is left, nothing is left in the store. *)
Definition owns_correctly (T C : Type) `{Owner T C} : Prop :=
  ∀ (cs : list (cmd C)) (m : spec), spec_run cs spec_init = Some m →
  ∃ (vs : gmap nat T) s, run cs ∅ empty_store = Ok vs s ∧
    s_vars m = var_value s <$> vs ∧ s_destroyed m = destroyed s ∧ NoDup (destroyed s) ∧ (vs = ∅ → heap s = ∅).

Lemma laws_own_correctly T C `{OwnerLaws T C} : owns_correctly T C.
Proof.
  intros cs m Hr. destruct (refines_run cs ∅ empty_store spec_init m refines_init Hr) as (vs & s & E & [Co _ Hv Hd]).
  exists vs, s. split_and!; [done..| |].
  - pose proof (co_live _ _ _ Co) as Hnd. by apply NoDup_app in Hnd as (? & _ & _).
  - intros ->. apply map_eq. intros a. rewrite lookup_empty. destruct (heap s !! a) as [c|] eqn:Ha; [exfalso|done].
    destruct (co_cells _ _ _ Co a c Ha) as [Hf Ho]. destruct (fits_value _ _ Hf) as (_ & _ & H1).
    unfold holdings in Ho. rewrite map_to_list_empty in Ho. change (occ a _) with 0 in Ho. lia.
Qed.

(** C8: Programs that construct, move, assign, copy and destroy variables of
    [unique_ptr2], [function], [thread_pool_task], [unique_handle] or [value_proxy],
    constructors that throw included, refine a machine of plain values: they have no
    undefined behaviour, a value is with the variable it was moved or copied to,
    and it is destroyed once, when its last owner goes; nothing leaks. *)
Theorem owners_refine_values :
  owns_correctly UniquePtr2.unique_ptr2 unique_ptr2_args ∧
  owns_correctly Function.function function_args ∧
  owns_correctly ThreadPoolTask.thread_pool_task (nat * function_args) ∧
  owns_correctly UniqueHandle.unique_handle unit ∧
  owns_correctly ValueProxy.value_proxy value_proxy_args.
Proof. split_and!; apply laws_own_correctly; apply _. Qed.

(** Two proxies share a value, and the second destructor destroys it. *)
Example proxies_share :
  (λ m, s_destroyed m) <$> spec_run (C := value_proxy_args) [Construct 0 (OwnedArg None) 7; CopyConstruct 1 0; Destroy 0; Destroy 1] spec_init
    = Some [7] ∧
  (λ m, s_destroyed m) <$> spec_run (C := value_proxy_args) [Construct 0 (OwnedArg None) 7; CopyConstruct 1 0; Destroy 0] spec_init = Some [].
Proof. by vm_compute. Qed.

(** ** What a variable gives access to *)
Definition owned_value (o : option value) : option nat := match o with Some (Owned v) => Some v | _ => None end.

Lemma function_invoke f s :
  wf_function f → valid false s (function_holds f) →
  Function.invoke f s =
    match owned_value (var_value s f) with Some v => Ok v s | None => Throw bad_function_call s end.
Proof.
  intros (Hc & _ & Hw) Hv. destruct f as [c m d b]. simpl in *. subst c. unfold Function.invoke, var_value. simpl.
  destruct d as [[]|]; [destruct Hw as [v ->]|destruct Hw as [a ->]|]; try done.
  simpl in *. apply fits_object in Hv as [v Hv]. by rewrite Hv.
Qed.
Lemma unique_ptr2_deref (p : UniquePtr2.unique_ptr2) s :
  valid false s (holds p) →
  UniquePtr2.deref p s = match owned_value (var_value s p) with Some v => Ok v s | None => UB end.
Proof.
  intros Hv. unfold UniquePtr2.deref, var_value. destruct p as [m [a|]]; simpl in *; [|done].
  apply fits_object in Hv as [v Hv]. by rewrite Hv.
Qed.
Lemma value_proxy_access p s :
  wf_value_proxy p → valid true s (holds p) →
  ValueProxy.to_underlying p s =
    match var_value s p with Some (Owned v) => Ok (inl v) s | Some (External r) => Ok (inr r) s | None => UB end.
Proof.
  intros (_ & _ & Hw) Hv. unfold ValueProxy.to_underlying, var_value. destruct p as [d [[]|] c m b]; simpl in *;
    [destruct Hw as [_ [x ->]]..|done]; simpl in *; [|done].
  destruct Hv as ([|v|v n] & Hc & Hf); [done..|]. by rewrite Hc.
Qed.
Lemma task_exec t s :
  wf_function (ThreadPoolTask.m_func t) → valid false s (function_holds (ThreadPoolTask.m_func t)) →
  match owned_value (var_value s t), ThreadPoolTask.m_thread_pool t with
  | Some v, Some _ => ∃ f t', ThreadPoolTask.exec t s = Ok (f, t') s ∧ Function.invoke f s = Ok v s ∧
                              ThreadPoolTask.exec t' s = Throw runtime_error s
  | Some _, None => ThreadPoolTask.exec t s = Throw logic_error s
  | None, _ => ThreadPoolTask.exec t s = Throw runtime_error s
  end.
Proof.
  intros Hw Hv. destruct t as [pool f]. simpl in *. unfold ThreadPoolTask.exec. simpl.
  pose proof (function_move f s Hw) as (f1 & f2 & E & Hw1 & Hw2 & H1 & H2).
  pose proof (function_invoke f1 s Hw1) as Hi. rewrite H1 in Hi. specialize (Hi Hv).
  change (var_value s (ThreadPoolTask.mk pool f)) with (var_value s f).
  replace (var_value s f1) with (var_value s f) in Hi by (unfold var_value; simpl; by rewrite H1).
  assert (∀ g, wf_function g → Function.is_valid g = bool_decide (is_Some (function_holds g))) as Hval.
  { intros [c m d b] (Hc & _ & Hg). simpl in *. subst c. unfold Function.is_valid. simpl. apply bool_decide_ext.
    destruct d as [[]|]; [destruct Hg as [v ->]|destruct Hg as [a ->]|]; simpl; by rewrite !is_Some_alt. }
  rewrite (Hval f Hw). unfold var_value in *. simpl holds in *.
  destruct (function_holds f) as [h|] eqn:Eh; simpl; [|done].
  assert (∃ v, value_at s h = Some (Owned v)) as [v Ev].
  { destruct h as [v|a|r]; [by eexists| |by destruct (function_no_refers f r)]. apply fits_object in Hv as [v Hv].
    exists v. simpl. by rewrite Hv. }
  rewrite Ev in *. simpl in *. destruct pool; [|done]. eexists f1, _. split; [by rewrite (bind_ok _ _ _ _ _ E)|].
  split; [by rewrite Hi, Ev|]. unfold ThreadPoolTask.exec. simpl. rewrite (Hval f2 Hw2), H2. done.
Qed.

(** A program and one of its variables: [P] relates the value in the
    specification, the variable and the store. *)
Definition gives_access (T C : Type) `{Owner T C} (P : option value → T → store → Prop) : Prop :=
  ∀ (cs : list (cmd C)) (m : spec) x o, spec_run cs spec_init = Some m → s_vars m !! x = Some o →
  ∃ (vs : gmap nat T) s t, run cs ∅ empty_store = Ok vs s ∧ vs !! x = Some t ∧ P o t s.
Lemma laws_give_access T C `{HT : Owner T C} `{!OwnerLaws T C} (P : option value → T → store → Prop) :
  (∀ t s, wf_owner t → valid shared s (holds t) → P (var_value s t) t s) → gives_access T C P.
Proof.
  intros HP cs m x o Hr Hx. destruct (refines_run cs ∅ empty_store spec_init m refines_init Hr) as (vs & s & E & R).
  rewrite (refines_lookup _ _ _ _ R) in Hx. apply fmap_Some in Hx as (t & Ht & ->). exists vs, s, t. split_and!; [done..|].
  apply HP; [by eapply rf_wf|by eapply refines_valid].
Qed.

(** What a variable gives access to after a program of moves, assignments, copies
    and destructions is the value the machine of plain values has for it: a
    [function] calls its callable, and throws [bad_function_call] when it was moved
    from; a [unique_ptr2] refers to its object; a [value_proxy] refers to the owned
    or the external object; a [thread_pool_task] posts its function once, a second
    [exec] throws. *)
Theorem owners_give_access :
  gives_access Function.function function_args (λ o f s,
    Function.invoke f s = match owned_value o with Some v => Ok v s | None => Throw bad_function_call s end) ∧
  gives_access UniquePtr2.unique_ptr2 unique_ptr2_args (λ o p s,
    UniquePtr2.deref p s = match owned_value o with Some v => Ok v s | None => UB end) ∧
  gives_access ValueProxy.value_proxy value_proxy_args (λ o p s,
    ValueProxy.to_underlying p s =
      match o with Some (Owned v) => Ok (inl v) s | Some (External r) => Ok (inr r) s | None => UB end) ∧
  gives_access ThreadPoolTask.thread_pool_task (nat * function_args) (λ o t s,
    match owned_value o, ThreadPoolTask.m_thread_pool t with
    | Some v, Some _ => ∃ f t', ThreadPoolTask.exec t s = Ok (f, t') s ∧ Function.invoke f s = Ok v s ∧
                                ThreadPoolTask.exec t' s = Throw runtime_error s
    | Some _, None => ThreadPoolTask.exec t s = Throw logic_error s
    | None, _ => ThreadPoolTask.exec t s = Throw runtime_error s
    end).
Proof.
  split_and!; apply (laws_give_access _ _); intros t s Hw Hv.
  - by apply function_invoke.
  - by apply unique_ptr2_deref.
  - by apply value_proxy_access.
  - by apply task_exec.
Qed.
