(* ===== verification/Event.v ===== *)
(** * Events

    [event] with its spinlock and condition variable.  Threads call the
    members of one event; a step is an access to the shared state, so that
    every interleaving is a run.  A thread that finds the spinlock taken
    has no step until it is free. *)
From S2P Require Import Prelude.

(** ** spinlock and spinlock_guard *)
Module Spinlock.
Record spinlock : Type := mk { m_flag : bool }.
(** One turn of the loop of [lock]: [test_and_set]; the flag was clear or not. *)
Definition try_lock (sl : spinlock) : bool * spinlock := (negb (m_flag sl), mk true).
Definition unlock (sl : spinlock) : spinlock := mk false.

Record spinlock_guard : Type := Guard { m_owns : bool }.
#[global] Instance spinlock_guard_eq_dec : EqDecision spinlock_guard.
Proof. solve_decision. Defined.
Definition guard_lock (sl : spinlock) : option (spinlock_guard * spinlock) :=
  let '(taken, sl) := try_lock sl in if (taken : bool) then Some (Guard true, sl) else None.
Definition guard_unlock (g : spinlock_guard) (sl : spinlock) : spinlock_guard * spinlock := (Guard false, unlock sl).
Definition guard_destroy (g : spinlock_guard) (sl : spinlock) : spinlock := if m_owns g then unlock sl else sl.
End Spinlock.
Import Spinlock.

(** ** event *)
Module Event.
Inductive op : Type := OpSet | OpReset | OpIsSet | OpWait | OpWaitFor.

(** Where a thread is.  [timed] is for [wait_for]; [Relock] is a thread that woke
    up, [expired] because of the timeout; [WaitLast] is the check after it. *)
Inductive pc : Type :=
| Idle
| SetLock | SetStore (g : spinlock_guard) | SetUnlock (g : spinlock_guard) | SetNotify (g : spinlock_guard)
| ResetLock | ResetStore (g : spinlock_guard) | ResetEnd (g : spinlock_guard)
| IsSetLock | IsSetRead (g : spinlock_guard) | IsSetEnd (g : spinlock_guard) (r : bool)
| WaitLock (timed : bool) | WaitCheck (timed : bool) (g : spinlock_guard)
| Sleeping (timed : bool) | Relock (timed expired : bool) | WaitLast (g : spinlock_guard)
| WaitTake (g : spinlock_guard) | WaitEnd (g : spinlock_guard) (r : bool).

#[global] Instance pc_eq_dec : EqDecision pc.
Proof. solve_decision. Defined.

(** [sets] counts the calls of [set], [takes] the waits that succeeded. *)
Record impl : Type := mk {
  m_manual_reset : bool;
  m_is_set : bool;
  m_spinlock : spinlock;
  threads : gmap nat pc;
  sets : nat;
  takes : nat
}.
Definition create (manual_reset initial_set : bool) : impl :=
  mk manual_reset initial_set (Spinlock.mk false) ∅ 0 0.

Definition start (o : op) : pc :=
  match o with
  | OpSet => SetLock
  | OpReset => ResetLock
  | OpIsSet => IsSetLock
  | OpWait => WaitLock false
  | OpWaitFor => WaitLock true
  end.

Definition goto (t : nat) (p : pc) (e : impl) : impl :=
  mk (m_manual_reset e) (m_is_set e) (m_spinlock e) (<[t := p]> (threads e)) (sets e) (takes e).
Definition with_set (b : bool) (e : impl) : impl :=
  mk (m_manual_reset e) b (m_spinlock e) (threads e) (sets e) (takes e).
Definition with_lock (sl : spinlock) (e : impl) : impl :=
  mk (m_manual_reset e) (m_is_set e) sl (threads e) (sets e) (takes e).

Definition call (t : nat) (o : op) (e : impl) : option impl :=
  match threads e !! t with None | Some Idle => Some (goto t (start o) e) | _ => None end.

Definition acquire (t : nat) (next : spinlock_guard → pc) (e : impl) : option impl :=
  '(g, sl) ← guard_lock (m_spinlock e); Some (goto t (next g) (with_lock sl e)).
Definition leave (t : nat) (g : spinlock_guard) (e : impl) : impl :=
  goto t Idle (with_lock (guard_destroy g (m_spinlock e)) e).

(** [notify_all], and [notify_one] that wakes the thread [w] if any sleeps. *)
Definition wake (p : pc) : pc := match p with Sleeping timed => Relock timed false | p => p end.
Definition is_sleeping (p : pc) : bool := match p with Sleeping _ => true | _ => false end.
Definition notify_all (e : impl) : impl :=
  mk (m_manual_reset e) (m_is_set e) (m_spinlock e) (wake <$> threads e) (sets e) (takes e).
Definition notify_one (w : option nat) (e : impl) : option impl :=
  match w with
  | Some i =>
      match threads e !! i with
      | Some p => if is_sleeping p then Some (goto i (wake p) e) else None
      | None => None
      end
  | None => if decide (map_Forall (λ _ p, is_sleeping p = false) (threads e)) then Some e else None
  end.

(** The next step of a thread; [w] is the thread that [notify_one] wakes. *)
Definition run (t : nat) (w : option nat) (e : impl) : option impl :=
  match threads e !! t with
  | None | Some Idle => None
  | Some SetLock => acquire t SetStore e
  | Some (SetStore g) =>
      Some (goto t (SetUnlock g)
              (mk (m_manual_reset e) true (m_spinlock e) (threads e) (S (sets e)) (takes e)))
  | Some (SetUnlock g) =>
      let '(g, sl) := guard_unlock g (m_spinlock e) in Some (goto t (SetNotify g) (with_lock sl e))
  | Some (SetNotify g) =>
      e' ← (if m_manual_reset e then Some (notify_all e) else notify_one w e); Some (leave t g e')
  | Some ResetLock => acquire t ResetStore e
  | Some (ResetStore g) => Some (goto t (ResetEnd g) (with_set false e))
  | Some (ResetEnd g) => Some (leave t g e)
  | Some IsSetLock => acquire t IsSetRead e
  | Some (IsSetRead g) => Some (goto t (IsSetEnd g (m_is_set e)) e)
  | Some (IsSetEnd g _) => Some (leave t g e)
  | Some (WaitLock timed) => acquire t (WaitCheck timed) e
  | Some (WaitCheck timed g) =>
      if m_is_set e then Some (goto t (WaitTake g) e)
      else let '(_, sl) := guard_unlock g (m_spinlock e) in Some (goto t (Sleeping timed) (with_lock sl e))
  | Some (Sleeping timed) => None
  | Some (Relock timed expired) => acquire t (if expired then WaitLast else WaitCheck timed) e
  | Some (WaitLast g) => Some (goto t (if m_is_set e then WaitTake g else WaitEnd g false) e)
  | Some (WaitTake g) =>
      Some (goto t (WaitEnd g true)
              (mk (m_manual_reset e) (if m_manual_reset e then m_is_set e else false) (m_spinlock e) (threads e)
                  (sets e) (S (takes e))))
  | Some (WaitEnd g _) => Some (leave t g e)
  end.

(** A sleeping thread wakes up without a notification, or by its timeout. *)
Definition wake_up (t : nat) (expired : bool) (e : impl) : option impl :=
  match threads e !! t with
  | Some (Sleeping timed) => if expired && negb timed then None else Some (goto t (Relock timed expired) e)
  | _ => None
  end.

Inductive step (e : impl) : impl → Prop :=
| step_call t o e' : call t o e = Some e' → step e e'
| step_run t w e' : run t w e = Some e' → step e e'
| step_wake t expired e' : wake_up t expired e = Some e' → step e e'.
End Event.
