(* ===== verification/EventFacts.v ===== *)
(** * Correctness of events

    Mutual exclusion, no wake-up is lost, and an automatic event lets one wait
    through for each [set]. *)
From S2P Require Import Prelude Event.
Import Spinlock Event.

(** The threads inside of the spinlock have a guard that owns it; the guard of a
    [set] that is about to notify does not. *)
Definition guard_of (p : pc) : option spinlock_guard :=
  match p with
  | SetStore g | SetUnlock g | ResetStore g | ResetEnd g | IsSetRead g | IsSetEnd g _ | WaitCheck _ g | WaitLast g
  | WaitTake g | WaitEnd g _ => Some g
  | _ => None
  end.
Definition in_section (p : pc) : bool := bool_decide (is_Some (guard_of p)).
Definition guard_ok (p : pc) : Prop :=
  match p with SetNotify g => m_owns g = false | _ => match guard_of p with Some g => m_owns g = true | None => True end end.

(** A thread that is going to wake a sleeping one, or, with an automatic event, to
    take the event itself. *)
Definition rescuer (manual : bool) (p : pc) : bool :=
  match p with
  | SetUnlock _ | SetNotify _ => true
  | WaitLock _ | WaitCheck _ _ | Relock _ _ | WaitLast _ | WaitTake _ => negb manual
  | _ => false
  end.
Definition has (P : pc → bool) (e : impl) : Prop := ∃ t p, threads e !! t = Some p ∧ P p = true.

Definition at_most_one (e : impl) : Prop :=
  ∀ t1 t2 p1 p2, threads e !! t1 = Some p1 → threads e !! t2 = Some p2 → in_section p1 = true → in_section p2 = true → t1 = t2.

Record inv (initial : bool) (e : impl) : Prop := {
  in_guards t p : threads e !! t = Some p → guard_ok p;
  in_flag : m_flag (m_spinlock e) = true ↔ has in_section e;
  in_one : at_most_one e;
  in_wake : m_is_set e = true → has is_sleeping e → has (rescuer (m_manual_reset e)) e;
  in_take t g : threads e !! t = Some (WaitTake g) → m_is_set e = true;
  in_count : m_manual_reset e = false → takes e + Nat.b2n (m_is_set e) ≤ sets e + Nat.b2n initial;
  in_cause : m_is_set e = true ∨ 0 < takes e → 0 < sets e + Nat.b2n initial
}.

(** ** A thread moves on *)
Definition old_pc (t : nat) (e : impl) : pc := default Idle (threads e !! t).

Lemma lookup_goto t p e t' p' :
  threads (goto t p e) !! t' = Some p' ↔ t = t' ∧ p = p' ∨ t ≠ t' ∧ threads e !! t' = Some p'.
Proof. apply lookup_insert_Some. Qed.
Lemma has_goto P t p e : has P (goto t p e) → P p = true ∨ ∃ t' p', t' ≠ t ∧ threads e !! t' = Some p' ∧ P p' = true.
Proof. intros (t' & p' & [[<- <-]|[Hne Ht]]%lookup_goto & HP); [by left|right]. exists t', p'. by split; [congruence|]. Qed.
Lemma has_goto_other P t p e : has P e → (P (old_pc t e) = true → P p = true) → has P (goto t p e).
Proof.
  intros (t' & p' & Ht & HP) Hp. destruct (decide (t' = t)) as [->|Hne].
  - exists t, p. simpl. rewrite lookup_insert_eq. unfold old_pc in Hp. rewrite Ht in Hp. by auto.
  - exists t', p'. simpl. by rewrite lookup_insert_ne.
Qed.
Lemma has_goto_here (P : pc → bool) t p e : P p = true → has P (goto t p e).
Proof. intros HP. exists t, p. simpl. by rewrite lookup_insert_eq. Qed.
Lemma has_mono (P Q : pc → bool) e : (∀ p, P p = true → Q p = true) → has P e → has Q e.
Proof. intros HPQ (t & p & Ht & HP). exists t, p. auto. Qed.

(** The section: a thread stays where it is, enters it or leaves it. *)
Lemma section_goto t p e :
  in_section p = in_section (old_pc t e) → at_most_one e →
  at_most_one (goto t p e) ∧ (has in_section (goto t p e) ↔ has in_section e).
Proof.
  intros Hs Ho. assert (∀ t' p', threads (goto t p e) !! t' = Some p' → in_section p' = true →
                          ∃ p0, threads e !! t' = Some p0 ∧ in_section p0 = true) as Hback.
  { intros t' p' [[<- <-]|[Hne Ht]]%lookup_goto Hp; [|by eauto]. rewrite Hs in Hp. unfold old_pc in Hp.
    destruct (threads e !! t); simpl in *; by eauto. }
  split.
  - intros t1 t2 p1 p2 H1 H2 Hp1 Hp2. destruct (Hback _ _ H1 Hp1) as (q1 & ? & ?), (Hback _ _ H2 Hp2) as (q2 & ? & ?).
    by eapply Ho.
  - split; [intros (t' & p' & Ht & Hp); destruct (Hback _ _ Ht Hp) as (q & ? & ?); by exists t', q|].
    intros Hh. apply has_goto_other; [done|]. by rewrite Hs.
Qed.
Lemma section_enter t p e : ¬ has in_section e → at_most_one (goto t p e).
Proof.
  intros Hn t1 t2 p1 p2 [[<- <-]|[H1 Ht1]]%lookup_goto [[<- <-]|[H2 Ht2]]%lookup_goto Hp1 Hp2; [done|..];
    exfalso; apply Hn; unfold has; by eauto.
Qed.
Lemma section_leave t p e :
  in_section p = false → in_section (old_pc t e) = true → at_most_one e →
  at_most_one (goto t p e) ∧ ¬ has in_section (goto t p e).
Proof.
  intros Hp Hold Ho. assert (∃ p0, threads e !! t = Some p0 ∧ in_section p0 = true) as (p0 & Ht & H0).
  { unfold old_pc in Hold. destruct (threads e !! t); [by eauto|done]. }
  assert (¬ has in_section (goto t p e)) as Hn.
  { intros [?|(t' & p' & Hne & Ht' & Hp')]%has_goto; [congruence|]. by destruct (Ho t' t p' p0 Ht' Ht Hp' H0). }
  split; [|done]. intros t1 t2 p1 p2 H1 _ Hp1 _. destruct Hn. by exists t1, p1.
Qed.

(** What is left of the invariant of a state whose section is known. *)
Record moved (e e' : impl) (t : nat) (p : pc) : Prop := {
  mv_threads : threads e' = <[t := p]> (threads e);
  mv_manual : m_manual_reset e' = m_manual_reset e;
  mv_guard : guard_ok p;
  mv_wake : m_is_set e' = true → has is_sleeping (goto t p e) → has (rescuer (m_manual_reset e)) (goto t p e);
  mv_take : (m_is_set e' = m_is_set e ∨ in_section (old_pc t e) = true);
  mv_new : (∃ g, p = WaitTake g) → m_is_set e' = true;
  mv_count : (m_manual_reset e = false → m_is_set e = true → takes e' + Nat.b2n (m_is_set e') + sets e ≤ takes e + 1 + sets e') ∧
             (m_manual_reset e = false → m_is_set e = false → takes e' + Nat.b2n (m_is_set e') + sets e ≤ takes e + sets e');
  mv_cause : sets e ≤ sets e' ∧ (takes e < takes e' ∨ m_is_set e' = true → m_is_set e = true ∨ sets e < sets e')
}.

Lemma wake_keep initial e t p :
  inv initial e →
  rescuer (m_manual_reset e) p = true ∨
  m_is_set e = true ∧ is_sleeping p = false ∧ rescuer (m_manual_reset e) (old_pc t e) = false →
  has is_sleeping (goto t p e) → has (rescuer (m_manual_reset e)) (goto t p e).
Proof.
  intros I [Hr|(Hset & Hns & Hold)] Hsl; [by apply has_goto_here|].
  apply has_goto_other; [|by rewrite Hold]. apply (in_wake _ _ I); [done|].
  destruct (has_goto _ _ _ _ Hsl) as [?|(t' & p' & _ & Ht' & Hp')]; [congruence|by exists t', p'].
Qed.

Lemma inv_moved initial e e' t p :
  inv initial e → moved e e' t p → at_most_one (goto t p e) → (m_flag (m_spinlock e') = true ↔ has in_section (goto t p e)) →
  takes e ≤ takes e' → inv initial e'.
Proof.
  intros I [Ht Hm Hg Hw Htk Hn [Hc1 Hc2] [Hs1 Hs2]] Ho Hf Hle.
  assert (∀ P, has P e' ↔ has P (goto t p e)) as Hhas by (intros P; unfold has; by rewrite Ht).
  split.
  - intros t' p'. rewrite Ht. intros [[<- <-]|[_ Ht']]%lookup_insert_Some; [done|by apply (in_guards _ _ I t')].
  - by rewrite Hhas.
  - unfold at_most_one in *. by rewrite Ht.
  - rewrite !Hhas, Hm. apply Hw.
  - intros t' g. rewrite Ht. intros [[<- E]|[Hne Ht']]%lookup_insert_Some; [apply Hn; by exists g|].
    pose proof (in_take _ _ I t' g Ht') as Hset. destruct Htk as [->|Hold]; [done|]. exfalso.
    assert (∃ p0, threads e !! t = Some p0 ∧ in_section p0 = true) as (p0 & Hp0 & H0).
    { unfold old_pc in Hold. destruct (threads e !! t); [by eauto|done]. }
    apply Hne. symmetry. by apply (in_one _ _ I t' t (WaitTake g) p0).
  - rewrite Hm. intros Hman. pose proof (in_count _ _ I Hman) as Hc. destruct (m_is_set e) eqn:Es; simpl in Hc;
      [specialize (Hc1 Hman eq_refl)|specialize (Hc2 Hman eq_refl)]; lia.
  - intros Hx. pose proof (in_cause _ _ I) as Hcs. destruct (decide (takes e < takes e')) as [Hlt|Hnl].
    + destruct (Hs2 (or_introl Hlt)) as [?|?]; [specialize (Hcs (or_introl H))|]; lia.
    + destruct Hx as [Hx|Hx]; [destruct (Hs2 (or_intror Hx)) as [?|?]; [specialize (Hcs (or_introl H))|]; lia|].
      assert (0 < takes e) as Hpos by lia. specialize (Hcs (or_intror Hpos)). lia.
Qed.

Lemma inv_stay initial e e' t p :
  inv initial e → moved e e' t p → in_section p = in_section (old_pc t e) → m_spinlock e' = m_spinlock e →
  takes e ≤ takes e' → inv initial e'.
Proof.
  intros I Hm Hs Hl Hle. destruct (section_goto t p e Hs (in_one _ _ I)) as [Ho Hh].
  apply (inv_moved initial e e' t p); [done..| |done]. rewrite Hl, Hh. apply (in_flag _ _ I).
Qed.
Lemma inv_enter initial e e' t p :
  inv initial e → moved e e' t p → in_section p = true → m_flag (m_spinlock e) = false → m_flag (m_spinlock e') = true →
  takes e ≤ takes e' → inv initial e'.
Proof.
  intros I Hm Hs Hl Hl' Hle. apply (inv_moved initial e e' t p); [done..| | |done].
  - apply section_enter. rewrite <- (in_flag _ _ I). congruence.
  - split; [|done]. intros _. by apply has_goto_here.
Qed.
Lemma inv_left initial e e' t p :
  inv initial e → moved e e' t p → in_section p = false → in_section (old_pc t e) = true → m_flag (m_spinlock e') = false →
  takes e ≤ takes e' → inv initial e'.
Proof.
  intros I Hm Hs Hold Hl Hle. destruct (section_leave t p e Hs Hold (in_one _ _ I)) as [Ho Hh].
  apply (inv_moved initial e e' t p); [done..| |done]. rewrite Hl. by split.
Qed.

Lemma inv_acquire initial t next e e' :
  inv initial e → acquire t next e = Some e' → in_section (old_pc t e) = false →
  (∀ g, m_owns g = true → guard_ok (next g) ∧ in_section (next g) = true ∧ is_sleeping (next g) = false ∧
        (rescuer (m_manual_reset e) (old_pc t e) = true → rescuer (m_manual_reset e) (next g) = true) ∧ ∀ g', next g ≠ WaitTake g') →
  inv initial e'.
Proof.
  intros I Ha Hold Hnext. unfold acquire, guard_lock in Ha. simpl in Ha.
  destruct (m_flag (m_spinlock e)) eqn:Hf; [done|]. simpl in Ha. simplify_eq.
  destruct (Hnext (Guard true) eq_refl) as (Hg & Hs & Hns & Hr & Ht).
  apply (inv_enter initial e _ t (next (Guard true))); try done. split; simpl; try done.
  - intros Hset. apply (wake_keep initial); [done|]. destruct (rescuer _ (old_pc t e)) eqn:E; [left; by apply Hr|by right].
  - by left.
  - intros [g' Hg']. by destruct (Ht g').
  - destruct (m_is_set e); simpl; split; intros; lia.
  - split; [done|]. intros [?|?]; [lia|by left].
Qed.

(** Only the place of a thread changes. *)
Lemma inv_goto initial t p e :
  inv initial e → in_section p = in_section (old_pc t e) → guard_ok p → ((∃ g, p = WaitTake g) → m_is_set e = true) →
  (m_is_set e = true → has is_sleeping (goto t p e) → has (rescuer (m_manual_reset e)) (goto t p e)) →
  inv initial (goto t p e).
Proof.
  intros I Hs Hg Ht Hw. apply (inv_stay initial e _ t p); try done. split; simpl; try done.
  - by left.
  - destruct (m_is_set e); simpl; split; intros; lia.
  - split; [done|]. intros [?|?]; [lia|by left].
Qed.

(** A thread leaves the section. *)
Lemma inv_out initial t p g e :
  inv initial e → guard_of (old_pc t e) = Some g → guard_of p = None → guard_ok p →
  (m_is_set e = true → has is_sleeping (goto t p e) → has (rescuer (m_manual_reset e)) (goto t p e)) →
  inv initial (goto t p (with_lock (unlock (m_spinlock e)) e)).
Proof.
  intros I Hg Hp Hok Hw.
  apply (inv_left initial e _ t p); [done| |unfold in_section; by rewrite Hp|unfold in_section; by rewrite Hg|done..].
  split; simpl; try done.
  - by left.
  - by intros [g' ->].
  - destruct (m_is_set e); simpl; split; intros; lia.
  - split; [done|]. intros [?|?]; [lia|by left].
Qed.

Lemma inv_done initial t g e :
  inv initial e → guard_of (old_pc t e) = Some g → rescuer (m_manual_reset e) (old_pc t e) = false →
  inv initial (leave t g e).
Proof.
  intros I Hg Hr. assert (m_owns g = true) as Ho.
  { unfold old_pc in Hg. destruct (threads e !! t) as [p|] eqn:Ht; [|done]. simpl in Hg. pose proof (in_guards _ _ I t p Ht) as Hk.
    unfold guard_ok in Hk. destruct p; simpl in *; by simplify_eq. }
  unfold leave, guard_destroy. rewrite Ho. apply (inv_out initial t Idle g); try done.
  intros Hset. apply (wake_keep initial); [done|by right].
Qed.

(** ** Notifications *)
Lemma wake_guard p : guard_of (wake p) = guard_of p ∧ (guard_ok (wake p) ↔ guard_ok p) ∧ is_sleeping (wake p) = false ∧
  (∀ g, wake p = WaitTake g ↔ p = WaitTake g).
Proof. destruct p; (split_and!; [done..|]); intros g0; simpl; split; congruence. Qed.

Lemma inv_notify_all initial e : inv initial e → inv initial (notify_all e) ∧ ¬ has is_sleeping (notify_all e).
Proof.
  intros I. assert (∀ t p, threads (notify_all e) !! t = Some p ↔ ∃ q, threads e !! t = Some q ∧ p = wake q) as Ht.
  { intros t p. simpl. rewrite lookup_fmap, fmap_Some. done. }
  assert (¬ has is_sleeping (notify_all e)) as Hn.
  { intros (t & p & (q & _ & ->)%Ht & Hs). destruct (wake_guard q) as (_ & _ & Hw & _). congruence. }
  assert (∀ q, in_section (wake q) = in_section q) as Hs by (intros q; unfold in_section; by destruct (wake_guard q) as [-> _]).
  split; [|done]. split; simpl.
  - intros t p (q & Hq & ->)%Ht. destruct (wake_guard q) as (_ & Hg & _). apply Hg. by apply (in_guards _ _ I t).
  - rewrite (in_flag _ _ I). split; intros (t & p & Hp & Hsec).
    + exists t, (wake p). rewrite Ht, Hs. by eauto.
    + apply Ht in Hp as (q & Hq & ->). exists t, q. by rewrite <- Hs.
  - intros t1 t2 p1 p2 (q1 & H1 & ->)%Ht (q2 & H2 & ->)%Ht. rewrite !Hs. by apply (in_one _ _ I).
  - done.
  - intros t g (q & Hq & E)%Ht. destruct (wake_guard q) as (_ & _ & _ & Hw). symmetry in E. apply Hw in E. subst.
    by apply (in_take _ _ I t g).
  - apply (in_count _ _ I).
  - apply (in_cause _ _ I).
Qed.

Lemma inv_set_notify initial t w g e e1 :
  inv initial e → threads e !! t = Some (SetNotify g) →
  (if m_manual_reset e then Some (notify_all e) else notify_one w e) = Some e1 → inv initial (leave t g e1).
Proof.
  intros I Ht Hn. pose proof (in_guards _ _ I t _ Ht) as Hg. simpl in Hg.
  assert (inv initial e1 ∧ old_pc t e1 = SetNotify g ∧
          (has is_sleeping e1 → ∃ i p, i ≠ t ∧ threads e1 !! i = Some p ∧ rescuer (m_manual_reset e1) p = true)) as (I1 & Hold & Hr).
  { destruct (m_manual_reset e) eqn:Em.
    - simplify_eq. destruct (inv_notify_all initial e I) as [I1 Hns]. split_and!; [done| |done].
      unfold old_pc. simpl. by rewrite lookup_fmap, Ht.
    - destruct w as [i|]; simpl in Hn.
      + destruct (threads e !! i) as [p|] eqn:Hi; [|done]. destruct p; simpl in Hn; simplify_eq.
        assert (i ≠ t) as Hne by congruence. split_and!.
        * apply inv_goto; try done; [unfold old_pc; by rewrite Hi|by intros [? [=]]|].
          intros Hset. apply (wake_keep initial); [done|]. left. simpl. by rewrite Em.
        * unfold old_pc. simpl. by rewrite lookup_insert_ne, Ht.
        * intros _. exists i, (Relock timed false). simpl. rewrite lookup_insert_eq, Em. done.
      + case_decide as Hns; simplify_eq. split_and!; [done|unfold old_pc; by rewrite Ht|].
        intros (i & p & Hi & Hs). apply Hns in Hi. congruence. }
  unfold leave, guard_destroy. rewrite Hg.
  replace (with_lock (m_spinlock e1) e1) with e1 by by destruct e1. apply inv_goto; try done.
  - by rewrite Hold.
  - by intros [? [=]].
  - intros _ Hsl. destruct Hr as (i & p & Hne & Hi & Hp).
    + destruct (has_goto _ _ _ _ Hsl) as [?|(i & p & _ & Hi & Hp)]; [done|by exists i, p].
    + exists i, p. simpl. by rewrite lookup_insert_ne.
Qed.

Lemma inv_run initial t w e e' : inv initial e → run t w e = Some e' → inv initial e'.
Proof.
  intros I Hr. unfold run in Hr. destruct (threads e !! t) as [p|] eqn:Ht; [|done].
  assert (old_pc t e = p) as Hold by (unfold old_pc; by rewrite Ht).
  pose proof (in_guards _ _ I t p Ht) as Hg.
  destruct p as [| |g|g|g| |g|g| |g|g r|timed|timed g|timed|timed [|]|g|g|g r]; simplify_eq/=; try (by eapply inv_acquire; [done|done|by rewrite Hold|intros g Hg'; by rewrite Hold]);
    try (by apply inv_done; rewrite ?Hold).
  - apply (inv_stay initial e _ t (SetUnlock g)); try done; [|by rewrite Hold]. split; simpl; try done.
    + intros _ _. by apply has_goto_here.
    + right. by rewrite Hold.
    + split; intros; lia.
    + split; [lia|]. intros _. right. lia.
  - apply (inv_out initial t (SetNotify (Guard false)) g); try done; [by rewrite Hold|]. intros _ _. by apply has_goto_here.
  - apply bind_Some in Hr as (e1 & Hn & [= <-]). by eapply inv_set_notify.
  - apply (inv_stay initial e _ t (ResetEnd g)); try done; [|by rewrite Hold]. split; simpl; try done.
    + right. by rewrite Hold.
    + by intros [? [=]].
    + split; intros; lia.
    + split; [done|]. intros [?|?]; [lia|done].
  - apply inv_goto; try done; [by rewrite Hold|by intros [? [=]]|].
    intros Hset. apply (wake_keep initial); [done|]. right. by rewrite Hold.
  - destruct (m_is_set e) eqn:Es; simplify_eq.
    + apply inv_goto; try done; [by rewrite Hold|]. intros _. apply (wake_keep initial); [done|].
      destruct (m_manual_reset e) eqn:Em; [right|left]; rewrite ?Hold; simpl; by rewrite ?Em.
    + apply (inv_out initial t (Sleeping timed) g); try done; [by rewrite Hold|]. by rewrite Es.
  - destruct (m_is_set e) eqn:Es.
    + apply inv_goto; try done; [by rewrite Hold|]. intros _. apply (wake_keep initial); [done|].
      destruct (m_manual_reset e) eqn:Em; [right|left]; rewrite ?Hold; simpl; by rewrite ?Em.
    + apply inv_goto; try done; [by rewrite Hold|by intros [? [=]]|by rewrite Es].
  - pose proof (in_take _ _ I t g Ht) as Hset. apply (inv_stay initial e _ t (WaitEnd g true)); simpl; try done; [|by rewrite Hold|lia].
    split; simpl; try done.
    + destruct (m_manual_reset e) eqn:Em; [|done]. rewrite <- Em. intros _. apply (wake_keep initial); [done|].
      right. rewrite Hold. simpl. by rewrite Em.
    + right. by rewrite Hold.
    + by intros [? [=]].
    + rewrite Hset. split; [|done]. intros -> _. simpl. lia.
    + split; [done|]. by left.
Qed.

Lemma inv_event_step initial e e' : inv initial e → step e e' → inv initial e'.
Proof.
  intros I [t o e1 Hs|t w e1 Hs|t expired e1 Hs].
  - assert (old_pc t e = Idle ∧ e1 = goto t (start o) e) as [Hold ->].
    { unfold call, old_pc in *. destruct (threads e !! t) as [[]|]; by simplify_eq. }
    apply inv_goto; try done; rewrite ?Hold; [by destruct o..| |].
    + intros [g E]. by destruct o.
    + intros Hset. apply (wake_keep initial); [done|]. right. rewrite Hold. by destruct o.
  - by eapply inv_run.
  - unfold wake_up in Hs. destruct (threads e !! t) as [[]|] eqn:Ht; try done.
    destruct (expired && negb timed); simplify_eq. assert (old_pc t e = Sleeping timed) as Hold by (unfold old_pc; by rewrite Ht).
    apply inv_goto; try done; [by rewrite Hold|by intros [? [=]]|]. intros Hset. apply (wake_keep initial); [done|].
    right. by rewrite Hold.
Qed.

Lemma inv_event_create manual initial : inv initial (create manual initial).
Proof.
  split; simpl; try done.
  - split; [done|]. intros (t & p & Ht & _). done.
  - intros _ (t & p & Ht & _). done.
  - intros [->|?]; simpl; lia.
Qed.

Lemma event_mode manual initial e : rtc step (create manual initial) e → m_manual_reset e = manual.
Proof.
  apply (rtc_invariant _ (λ e, m_manual_reset e = manual)); [done|]. intros a b Ha [t o e1 Hs|t w e1 Hs|t ex e1 Hs].
  - unfold call in Hs. by destruct (threads a !! t) as [[]|]; simplify_eq.
  - unfold run, acquire, guard_lock, leave in Hs. destruct (threads a !! t) as [p|]; [|done].
    assert (∀ e2, (if m_manual_reset a then Some (notify_all a) else notify_one w a) = Some e2 → m_manual_reset e2 = m_manual_reset a) as Hn.
    { intros e2. destruct (m_manual_reset a) eqn:Em; [by intros [= <-]|]. unfold notify_one. destruct w as [i|].
      - destruct (threads a !! i) as [q|]; [|done]. destruct (is_sleeping q); [|done]. by intros [= <-].
      - case_decide; [|done]. by intros [= <-]. }
    destruct p; simpl in Hs; try (destruct (m_flag (m_spinlock a)); simpl in Hs); try (destruct (m_is_set a)); simplify_eq; try done;
      apply bind_Some in Hs as (e2 & He2 & [= <-]); simpl; by apply Hn.
  - unfold wake_up in Hs. destruct (threads a !! t) as [[]|]; try done. destruct (ex && negb timed); by simplify_eq.
Qed.

(** No step is left but calls of the application and timeouts. *)
Definition quiet (e : impl) : Prop := ∀ t w e', run t w e ≠ Some e'.

(** [notify_one] finds a thread to wake, or there is none. *)
Lemma notify_one_runs e : ∃ w, is_Some (notify_one w e).
Proof.
  destruct (decide (map_Forall (λ _ p, is_sleeping p = false) (threads e))) as [Hn|Hn].
  - exists None. simpl. by rewrite decide_True.
  - apply map_not_Forall in Hn as (i & p & Hi & Hp); [|apply _]. exists (Some i). simpl. rewrite Hi.
    destruct (is_sleeping p); [by eexists|done].
Qed.

(** A thread inside of the section has a step, and every other one when the lock
    is free. *)
Lemma thread_runs e t p :
  threads e !! t = Some p → p ≠ Idle → is_sleeping p = false → in_section p = true ∨ m_flag (m_spinlock e) = false →
  ∃ w, is_Some (run t w e).
Proof.
  intros Ht Hi Hs Hl. unfold run. rewrite Ht.
  destruct p as [| |g|g|g| |g|g| |g|g r|timed|timed g|timed|timed [|]|g|g|g r]; try done;
    try (by exists None; eexists); try (by destruct (m_is_set e); exists None; eexists);
    try (destruct Hl as [?|Hl]; [done|]; exists None; unfold acquire, guard_lock; simpl; rewrite Hl; by eexists).
  destruct (m_manual_reset e); [by exists None; eexists|]. destruct (notify_one_runs e) as (w & e1 & E).
  exists w. rewrite E. by eexists.
Qed.

(** In a quiet state every thread sleeps or has returned. *)
Lemma quiet_threads initial e t p : inv initial e → quiet e → threads e !! t = Some p → p = Idle ∨ is_sleeping p = true.
Proof.
  intros I Hq Ht. assert (m_flag (m_spinlock e) = false) as Hf.
  { apply not_true_is_false. intros (t' & p' & Ht' & Hs)%(in_flag _ _ I).
    destruct (thread_runs e t' p') as (w & e' & E); [done|by intros ->|by destruct p'|by left|by apply (Hq t' w e')]. }
  destruct (decide (p = Idle)) as [?|Hi]; [by left|]. right. apply not_false_is_true. intros Hs.
  destruct (thread_runs e t p) as (w & e' & E); [done..|by right|by apply (Hq t w e')].
Qed.

(** C10: Threads that call the members of one [event] in any order: at most one is
    inside of the spinlock; an event that is set has no sleeping thread unless another
    thread is going to wake it or, for an automatic event, to take the event; so that
    when the threads have nothing left to do and the event is set, no thread waits;
    and of an automatic event no more waits succeed than there were calls of
    [set], an initial state that is set counted as one. *)
Theorem event_wakes manual initial e :
  rtc step (create manual initial) e →
  at_most_one e ∧
  (m_is_set e = true → has is_sleeping e → has (rescuer manual) e) ∧
  (quiet e → m_is_set e = true → ∀ t p, threads e !! t = Some p → p = Idle) ∧
  (manual = false → takes e + Nat.b2n (m_is_set e) ≤ sets e + Nat.b2n initial) ∧
  (0 < takes e → 0 < sets e + Nat.b2n initial).
Proof.
  intros Hr. pose proof (event_mode _ _ _ Hr) as Hm.
  assert (inv initial e) as I by (revert Hr; apply rtc_invariant; [apply inv_event_create|apply inv_event_step]).
  pose proof (in_wake _ _ I) as Hw. pose proof (in_count _ _ I) as Hc. rewrite Hm in Hw, Hc. split_and!; [apply I|done| |done|].
  - intros Hq Hset t p Ht. destruct (quiet_threads _ _ _ _ I Hq Ht) as [?|Hs]; [done|exfalso].
    destruct (Hw Hset) as (t' & p' & Ht' & Hr'); [by exists t, p|].
    destruct (quiet_threads _ _ _ _ I Hq Ht') as [->|Hs']; [done|]. by destruct p'.
  - intros Ht. apply (in_cause _ _ I). by right.
Qed.

(** A thread waits for an automatic event, and another one sets it. *)
Definition one_wait : option impl :=
  e ← call 1 OpWait (create false false); e ← run 1 None e; e ← run 1 None e;
  e ← call 2 OpSet e; e ← run 2 None e; e ← run 2 None e; e ← run 2 None e; e ← run 2 (Some 1) e;
  e ← run 1 None e; e ← run 1 None e; e ← run 1 None e; run 1 None e.
Lemma event_wakes_witness :
  ∃ e, one_wait = Some e ∧ takes e = 1 ∧ takes e + Nat.b2n (m_is_set e) ≤ sets e + Nat.b2n false.
Proof.
  assert (∃ e, one_wait = Some e ∧ rtc step (create false false) e ∧ takes e = 1) as (e & E & Hr & Ht).
  { eexists. split; [vm_compute; reflexivity|]. split; [|vm_compute; reflexivity].
    do 1 (eapply rtc_l; [eapply (step_call _ 1 OpWait); vm_compute; reflexivity|]).
    do 2 (eapply rtc_l; [eapply (step_run _ 1 None); vm_compute; reflexivity|]).
    do 1 (eapply rtc_l; [eapply (step_call _ 2 OpSet); vm_compute; reflexivity|]).
    do 3 (eapply rtc_l; [eapply (step_run _ 2 None); vm_compute; reflexivity|]).
    do 1 (eapply rtc_l; [eapply (step_run _ 2 (Some 1)); vm_compute; reflexivity|]).
    do 4 (eapply rtc_l; [eapply (step_run _ 1 None); vm_compute; reflexivity|]).
    reflexivity. }
  exists e. split; [done|]. split; [done|]. by apply (event_wakes false false e Hr).
Defined.
