(* ===== verification/Future.v ===== *)
(** * Futures and promises

    Models [common-lib/thread/future/internal/]: [future_controller], [future]
    ([then], [catched], [finally], flattening) and [promise], over a thread
    pool that runs posted tasks in any order.

    Controllers and value states live in stores and are named by their index.
    A value state is shared: [catched], [finally] and flattening pass the same
    state on, so a continuation that moves out of the value changes it for
    every future that shares the state.  The closures the source registers
    are the constructors of [succ_cb] and [fail_cb]; a user callback is a
    function from the stored value to the value it leaves behind and its
    result.  Here a controller exists as long as the store; the file
    FutureLife adds who owns it and when it is destroyed. *)
From S2P Require Import Prelude.
Local Open Scope nat_scope.

Module Future.
Section future.
(** The type of the values users store. *)
Context {U : Type}.

(** What a controller stores: nothing ([void]), a value, or a future handle
    (an invalid one has no controller). *)
Inductive value : Type :=
| VVoid
| VVal (u : U)
| VFut (c : option nat).

(** Result of a user callback: a value, an exception, or a future. *)
Inductive cres : Type :=
| CRet (v : value)
| CThrow (e : exn)
| CFut (c : option nat).

(** A [finally] callback returns [void] or a [future<void>]. *)
Inductive fres : Type :=
| FRet
| FThrow (e : exn)
| FFut (c : option nat).

(** Success callbacks; [void] tells whether the stored type is [void].  The
    closures of an adopted future ([SAdopt], [FAdopt]) capture the child
    itself, the others a weak pointer to it. *)
Inductive succ_cb : Type :=
| SThen (task : value → value * cres) (child : nat)
| SFlatten (void : bool) (child : nat)
| SAdopt (void : bool) (child : nat)
| SCatched (void : bool) (child : nat)
| SFinally (void : bool) (task : unit → fres) (child : nat)
| SFinallyValue (void : bool) (vs : nat) (child : nat)
| SFinallyExn (e : exn) (child : nat).

Inductive fail_cb : Type :=
| FProp (child : nat)
| FAdopt (child : nat)
| FCatched (void : bool) (task : exn → cres) (child : nat)
| FFinally (task : unit → fres) (child : nat).

Record controller : Type := Controller {
  m_on_success_queue : list succ_cb;
  m_on_fail_queue : list fail_cb;
  m_val_state : option nat;
  m_exception : option exn
}.

(** Tasks posted to the thread pool. *)
Inductive task : Type :=
| TProcessSuccess (c : nat)
| TProcessFail (c : nat)
| TCallSuccess (c : nat) (f : succ_cb)
| TCallFail (c : nat) (f : fail_cb).

Record state : Type := State {
  ctrls : list controller;
  vals : list value;
  pool : list task
}.

Definition post (t : task) (st : state) : state := State (ctrls st) (vals st) (pool st ++ [t]).

Definition update (c : nat) (f : controller → controller) (st : state) : state :=
  State (alter f c (ctrls st)) (vals st) (pool st).

Definition fresh_controller : controller := Controller [] [] None None.

(** [std::make_shared<future_controller>] / [create_child_controller]. *)
Definition create_controller (st : state) : nat * state :=
  (length (ctrls st), State (ctrls st ++ [fresh_controller]) (vals st) (pool st)).

(** ** future_controller *)
Definition process_on_success_async (c : nat) : state → state := post (TProcessSuccess c).
Definition process_on_fail_async (c : nat) : state → state := post (TProcessFail c).

Definition has_value (c : nat) (st : state) : bool :=
  match ctrls st !! c with Some k => bool_decide (is_Some (m_val_state k)) | None => false end.
Definition has_exception (c : nat) (st : state) : bool :=
  match ctrls st !! c with Some k => bool_decide (is_Some (m_exception k)) | None => false end.

Definition push_callbacks (s : succ_cb) (f : fail_cb) (k : controller) : controller :=
  Controller (m_on_success_queue k ++ [s]) (m_on_fail_queue k ++ [f]) (m_val_state k) (m_exception k).
Definition set_on_success_and_fail (c : nat) (s : succ_cb) (f : fail_cb) (st : state) : state :=
  process_on_fail_async c (process_on_success_async c (update c (push_callbacks s f) st)).

Definition put_val_state (vs : nat) (k : controller) : controller :=
  Controller (m_on_success_queue k) (m_on_fail_queue k) (Some vs) (m_exception k).
Definition set_value_state (c : nat) (vs : nat) (st : state) : state :=
  process_on_fail_async c (process_on_success_async c (update c (put_val_state vs) st)).

(** A new value state that holds [v]. *)
Definition set_value (c : nat) (v : value) (st : state) : state :=
  set_value_state c (length (vals st)) (State (ctrls st) (vals st ++ [v]) (pool st)).

Definition put_exception (e : exn) (k : controller) : controller :=
  Controller (m_on_success_queue k) (m_on_fail_queue k) (m_val_state k) (Some e).
Definition set_exception (c : nat) (e : exn) (st : state) : state :=
  process_on_fail_async c (process_on_success_async c (update c (put_exception e) st)).

(** The task of [process_on_success_async]: with a value, every queued
    callback is posted; with an exception the queue is discarded. *)
Definition clear_success (k : controller) : controller :=
  Controller [] (m_on_fail_queue k) (m_val_state k) (m_exception k).
Definition process_success (c : nat) (st : state) : state :=
  match ctrls st !! c with
  | None => st
  | Some k =>
      match m_val_state k, m_exception k with
      | Some _, _ =>
          let st' := update c clear_success st in
          State (ctrls st') (vals st') (pool st' ++ (TCallSuccess c <$> m_on_success_queue k))
      | None, Some _ => update c clear_success st
      | None, None => st
      end
  end.

Definition clear_fail (k : controller) : controller :=
  Controller (m_on_success_queue k) [] (m_val_state k) (m_exception k).
Definition process_fail (c : nat) (st : state) : state :=
  match ctrls st !! c with
  | None => st
  | Some k =>
      match m_exception k, m_val_state k with
      | Some _, _ =>
          let st' := update c clear_fail st in
          State (ctrls st') (vals st') (pool st' ++ (TCallFail c <$> m_on_fail_queue k))
      | None, Some _ => update c clear_fail st
      | None, None => st
      end
  end.

(** ** The closures of [future] *)

(** [new_controller->set_value()] for [void], else the shared value state. *)
Definition forward_value (void : bool) (child vs : nat) (st : state) : state :=
  if void then set_value child VVoid st else set_value_state child vs st.

(** [exec_then_on_success]: the callback runs on the stored value, which it
    may change (move from); its result or exception settles the child. *)
Definition exec_then_on_success (child vs : nat) (f : value → value * cres) (st : state) : state :=
  let '(v', r) := f (default VVoid (vals st !! vs)) in
  let st' := State (ctrls st) (<[vs := v']> (vals st)) (pool st) in
  match r with
  | CRet x => set_value child x st'
  | CFut fc => set_value child (VFut fc) st'
  | CThrow e => set_exception child e st'
  end.

(** The success closure of [flatten_future]. *)
Definition exec_flatten (void : bool) (child vs : nat) (st : state) : state :=
  let val := default VVoid (vals st !! vs) in
  let st' := State (ctrls st) (<[vs := VFut None]> (vals st)) (pool st) in
  match val with
  | VFut (Some ic) => set_on_success_and_fail ic (SAdopt void child) (FAdopt child) st'
  | _ => set_exception child logic_error st'
  end.

Definition exec_finally_success (void : bool) (f : unit → fres) (child vs : nat) (st : state) : state :=
  match f tt with
  | FRet => forward_value void child vs st
  | FThrow e => set_exception child e st
  | FFut None => set_exception child logic_error st
  | FFut (Some ic) => set_on_success_and_fail ic (SFinallyValue void vs child) (FProp child) st
  end.

Definition exec_catched_fail (void : bool) (f : exn → cres) (child : nat) (ep : exn) (st : state) : state :=
  match f ep with
  | CRet x => set_value child (if void then VVoid else x) st
  | CThrow e => set_exception child e st
  | CFut None => set_exception child logic_error st
  | CFut (Some ic) => set_on_success_and_fail ic (SAdopt void child) (FAdopt child) st
  end.

Definition exec_finally_fail (f : unit → fres) (child : nat) (ep : exn) (st : state) : state :=
  match f tt with
  | FRet => set_exception child ep st
  | FThrow e => set_exception child e st
  | FFut None => set_exception child logic_error st
  | FFut (Some ic) => set_on_success_and_fail ic (SFinallyExn ep child) (FProp child) st
  end.

(** [call_success]: the callback gets an [fvalue] of the controller. *)
Definition call_success (c : nat) (f : succ_cb) (st : state) : state :=
  match ctrls st !! c ≫= m_val_state with
  | None => st
  | Some vs =>
      match f with
      | SThen t child => exec_then_on_success child vs t st
      | SFlatten void child => exec_flatten void child vs st
      | SAdopt void child | SCatched void child => forward_value void child vs st
      | SFinally void t child => exec_finally_success void t child vs st
      | SFinallyValue void vs' child => forward_value void child vs' st
      | SFinallyExn e child => set_exception child e st
      end
  end.

(** [call_fail]: the callback gets the stored exception. *)
Definition call_fail (c : nat) (f : fail_cb) (st : state) : state :=
  match ctrls st !! c ≫= m_exception with
  | None => st
  | Some e =>
      match f with
      | FProp child | FAdopt child => set_exception child e st
      | FCatched void t child => exec_catched_fail void t child e st
      | FFinally t child => exec_finally_fail t child e st
      end
  end.

Definition run_task (t : task) (st : state) : state :=
  match t with
  | TProcessSuccess c => process_success c st
  | TProcessFail c => process_fail c st
  | TCallSuccess c f => call_success c f st
  | TCallFail c f => call_fail c f st
  end.

(** One worker takes any posted task: the pool gives no order. *)
Inductive pool_step (st : state) : state → Prop :=
| pool_step_intro ts1 t ts2 :
    pool st = ts1 ++ t :: ts2 →
    pool_step st (run_task t (State (ctrls st) (vals st) (ts1 ++ ts2))).

(** A single worker takes the tasks in the order they were posted. *)
Fixpoint drain (fuel : nat) (st : state) : state :=
  match fuel, pool st with
  | S n, t :: ts => drain n (run_task t (State (ctrls st) (vals st) ts))
  | _, _ => st
  end.

(** ** future: a handle is a controller index, [None] when invalid *)
Definition then_ (fut : option nat) (flattened : option bool) (f : value → value * cres)
    (st : state) : outcome state nat :=
  match fut with
  | None => Throw logic_error st
  | Some c =>
      let '(child, st1) := create_controller st in
      let st2 := set_on_success_and_fail c (SThen f child) (FProp child) st1 in
      match flattened with
      | None => Ok child st2
      | Some void =>
          let '(next, st3) := create_controller st2 in
          Ok next (set_on_success_and_fail child (SFlatten void next) (FProp next) st3)
      end
  end.

Definition catched (fut : option nat) (void : bool) (f : exn → cres) (st : state) : outcome state nat :=
  match fut with
  | None => Throw logic_error st
  | Some c =>
      let '(child, st1) := create_controller st in
      Ok child (set_on_success_and_fail c (SCatched void child) (FCatched void f child) st1)
  end.

Definition finally (fut : option nat) (void : bool) (f : unit → fres) (st : state) : outcome state nat :=
  match fut with
  | None => Throw logic_error st
  | Some c =>
      let '(child, st1) := create_controller st in
      Ok child (set_on_success_and_fail c (SFinally void f child) (FFinally f child) st1)
  end.

(** [has_value], [has_exception] and [is_valid] of a future. *)
Definition future_has_value (fut : option nat) (st : state) : outcome state bool :=
  match fut with None => Throw logic_error st | Some c => Ok (has_value c st) st end.
Definition future_has_exception (fut : option nat) (st : state) : outcome state bool :=
  match fut with None => Throw logic_error st | Some c => Ok (has_exception c st) st end.
Definition future_is_valid (fut : option nat) : bool := bool_decide (is_Some fut).

(** The condition [wait] and [wait_for] block on. *)
Definition is_ready (c : nat) (st : state) : bool := has_value c st || has_exception c st.

(** [get] in a given state: [None] while it blocks; then the stored
    exception is thrown, or the [fvalue] (of the controller) is returned. *)
Definition future_get (fut : option nat) (st : state) : outcome state (option nat) :=
  match fut with
  | None => Throw logic_error st
  | Some c =>
      if is_ready c st then
        match ctrls st !! c ≫= m_exception with
        | Some e => Throw e st
        | None => Ok (Some c) st
        end
      else Ok None st
  end.

(** A ready future. *)
Definition make_ready (v : value) (st : state) : nat * state :=
  let '(c, st1) := create_controller st in (c, set_value c v st1).

(** ** promise *)
Record promise : Type := Promise {
  p_controller : option nat;
  p_future : option nat;
  m_completion_pending : bool
}.

Definition promise_default : promise := Promise None None false.
Definition promise_create (st : state) : promise * state :=
  let '(c, st1) := create_controller st in (Promise (Some c) (Some c) true, st1).

(** Move construction: (new promise, moved-from promise). *)
Definition promise_move (other : promise) : promise * promise :=
  (Promise (p_controller other) (p_future other) (m_completion_pending other),
   Promise None None false).

Definition abandon (p : promise) (st : state) : promise * state :=
  let p' := Promise (p_controller p) (p_future p) false in
  if negb (m_completion_pending p) then (p', st)
  else match p_controller p with
       | None => (p', st)
       | Some c => (p', set_exception c broken_promise st)
       end.

(** Move assignment: abandons the target first. *)
Definition promise_move_assign (this other : promise) (st : state) : promise * promise * state :=
  let '(_, st1) := abandon this st in
  let '(moved, left_) := promise_move other in (moved, left_, st1).

(** The exchange of [m_completion_pending]: at most one caller gets it. *)
Definition claim_completion (p : promise) (st : state) : outcome state (promise * nat) :=
  match p_controller p with
  | None => Throw logic_error st
  | Some c =>
      if m_completion_pending p
      then Ok (Promise (p_controller p) (p_future p) false, c) st
      else Throw promise_already_satisfied st
  end.

Definition promise_set_value (p : promise) (v : value) (st : state) : outcome state promise :=
  match claim_completion p st with
  | Ok (p', c) st' => Ok p' (set_value c v st')
  | Throw e st' => Throw e st'
  | UB => UB
  end.

Definition promise_set_exception (p : promise) (e : option exn) (st : state) : outcome state promise :=
  match e with
  | None => Throw invalid_argument st
  | Some e =>
      match claim_completion p st with
      | Ok (p', c) st' => Ok p' (set_exception c e st')
      | Throw e' st' => Throw e' st'
      | UB => UB
      end
  end.

Definition get_future (p : promise) (st : state) : outcome state (promise * nat) :=
  match p_future p with
  | None => Throw logic_error st
  | Some c => Ok (Promise (p_controller p) None (m_completion_pending p), c) st
  end.

Definition promise_is_valid (p : promise) : bool := bool_decide (is_Some (p_controller p)).

(** The outcome of a controller. *)
Inductive settled : Type := Pending | HasValue (v : value) | HasExn (e : exn).
Definition outcome_of (c : nat) (st : state) : settled :=
  match ctrls st !! c with
  | None => Pending
  | Some k =>
      match m_val_state k, m_exception k with
      | Some vs, _ => HasValue (default VVoid (vals st !! vs))
      | None, Some e => HasExn e
      | None, None => Pending
      end
  end.
End future.
Arguments value : clear implicits.
Arguments cres : clear implicits.
Arguments succ_cb : clear implicits.
Arguments fail_cb : clear implicits.
Arguments controller : clear implicits.
Arguments task : clear implicits.
Arguments state : clear implicits.
Arguments settled : clear implicits.
End Future.
