(* ===== verification/FutureFacts.v ===== *)
(** * Correctness of futures and promises

    Every controller has exactly one producer until it is settled, settles
    once, and delivers its callbacks; the pool always drains. *)
From S2P Require Import Prelude Future.
Import Future.
Local Open Scope nat_scope.

(** Changing one element of an indexed concatenation. *)
Lemma occ_concat_alter {A} (g : nat → A → list nat) (f : A → A) x c k (l : list A) :
  l !! c = Some k →
  occ x (concat (imap g (alter f c l))) + occ x (g c k)
    = occ x (concat (imap g l)) + occ x (g c (f k)).
Proof.
  revert c g. induction l as [|a l IH]; intros [|c] g Hk; simplify_eq/=; rewrite !occ_app; [lia|].
  specialize (IH c (g ∘ S) Hk). simpl in IH. lia.
Qed.

Lemma occ_concat_lookup {A} (g : nat → A → list nat) x c k (l : list A) :
  l !! c = Some k → occ x (g c k) ≤ occ x (concat (imap g l)).
Proof.
  revert c g. induction l as [|a l IH]; intros [|c] g Hk; simplify_eq/=; rewrite !occ_app; [lia|].
  specialize (IH c (g ∘ S) Hk). simpl in IH. lia.
Qed.

(** A posted process task is not a call. *)
Ltac no_call Hin :=
  exfalso; repeat (apply elem_of_cons in Hin as [Hin|Hin]; [discriminate Hin|]);
  by apply elem_of_nil in Hin.

Section facts.
Context {U : Type}.
Implicit Types (st : state U) (k : controller U) (ps : list promise).

Definition starget (s : succ_cb U) : nat :=
  match s with
  | SThen _ c | SFlatten _ c | SAdopt _ c | SCatched _ c | SFinally _ _ c
  | SFinallyValue _ _ c | SFinallyExn _ c => c
  end.
Definition ftarget (f : fail_cb U) : nat :=
  match f with FProp c | FAdopt c | FCatched _ _ c | FFinally _ c => c end.

Definition is_settled k : bool :=
  bool_decide (is_Some (m_val_state k)) || bool_decide (is_Some (m_exception k)).

(** The controllers the callbacks of [k] will settle: the fail queue counts
    for a controller with an exception, the success queue otherwise. *)
Definition active k : list nat :=
  match m_val_state k, m_exception k with
  | None, Some _ => ftarget <$> m_on_fail_queue k
  | _, _ => starget <$> m_on_success_queue k
  end.

(** Tokens: a controller has one while it is settled, while a callback, a
    posted call or a promise is responsible for settling it. *)
Definition ctok (i : nat) k : list nat := (if is_settled k then [i] else []) ++ active k.
Definition ttok (t : task U) : list nat :=
  match t with
  | TCallSuccess _ f => [starget f]
  | TCallFail _ f => [ftarget f]
  | _ => []
  end.
Definition prtok (p : promise) : list nat :=
  match p_controller p with
  | Some c => if m_completion_pending p then [c] else []
  | None => []
  end.

Definition tokens (x : nat) st ps : nat :=
  occ x (concat (imap ctok (ctrls st))) + occ x (concat (ttok <$> pool st)) + occ x (concat (prtok <$> ps)).

Definition hole_tok (hole : option nat) (x : nat) : nat := if decide (hole = Some x) then 1 else 0.

(** The invariant; with [hole = Some x] the token of [x] is in the hands of
    the step that is being executed. *)
Record inv (hole : option nat) st ps : Prop := {
  inv_tok x : tokens x st ps + hole_tok hole x = if decide (x < length (ctrls st)) then 1 else 0;
  inv_pair c k : ctrls st !! c = Some k → is_settled k = false →
    starget <$> m_on_success_queue k = ftarget <$> m_on_fail_queue k;
  inv_excl c k : ctrls st !! c = Some k → ¬ (is_Some (m_val_state k) ∧ is_Some (m_exception k));
  inv_proc_s c k : ctrls st !! c = Some k → is_settled k = true → m_on_success_queue k ≠ [] →
    TProcessSuccess c ∈ pool st;
  inv_proc_f c k : ctrls st !! c = Some k → is_settled k = true → m_on_fail_queue k ≠ [] →
    TProcessFail c ∈ pool st;
  inv_call_s c f : TCallSuccess c f ∈ pool st → ∃ k, ctrls st !! c = Some k ∧ is_Some (m_val_state k);
  inv_call_f c f : TCallFail c f ∈ pool st → ∃ k, ctrls st !! c = Some k ∧ is_Some (m_exception k)
}.

(** The controller in the hands of a step is not settled. *)
Lemma inv_hole_fresh x st ps :
  inv (Some x) st ps → ∃ k, ctrls st !! x = Some k ∧ is_settled k = false.
Proof.
  intros I. pose proof (inv_tok _ _ _ I x) as Ht. unfold tokens, hole_tok in Ht.
  rewrite decide_True in Ht by done. case_decide as Hx; [|lia].
  destruct (lookup_lt_is_Some_2 _ _ Hx) as [k Hk]. exists k. split; [done|].
  destruct (is_settled k) eqn:Es; [|done].
  pose proof (occ_concat_lookup ctok x x k _ Hk) as Ho. unfold ctok in Ho at 1.
  rewrite Es, occ_app, occ_cons, decide_True in Ho by done. lia.
Qed.

(** ** Pool and store updates *)
Lemma lookup_update c f st c' :
  ctrls (update c f st) !! c' = if decide (c = c') then f <$> ctrls st !! c' else ctrls st !! c'.
Proof.
  unfold update. simpl. case_decide as E.
  - subst. by rewrite list_lookup_alter_eq.
  - by rewrite list_lookup_alter_ne.
Qed.

Lemma length_update c f st : length (ctrls (update c f st)) = length (ctrls st).
Proof. apply length_alter. Qed.

(** Tokens when controller [c] is replaced and the pool grows by process tasks. *)
Lemma tokens_update x c f k st ps ts :
  ctrls st !! c = Some k → concat (ttok <$> ts) = [] →
  tokens x (State (ctrls (update c f st)) (vals st) (pool st ++ ts)) ps + occ x (ctok c k)
    = tokens x st ps + occ x (ctok c (f k)).
Proof.
  intros Hk Hts. unfold tokens, update. simpl.
  rewrite fmap_app, concat_app, Hts, app_nil_r.
  pose proof (occ_concat_alter ctok f x c k _ Hk). lia.
Qed.

Lemma tokens_vals x cs vs vs' p ps : tokens x (State cs vs p : state U) ps = tokens x (State cs vs' p : state U) ps.
Proof. done. Qed.

(** Settling the controller of the hole, by a value state or an exception. *)
Lemma inv_settle x g st vs ps :
  inv (Some x) st ps →
  (∀ k, is_settled k = false → is_settled (g k) = true ∧
        m_on_success_queue (g k) = m_on_success_queue k ∧ m_on_fail_queue (g k) = m_on_fail_queue k ∧
        ¬ (is_Some (m_val_state (g k)) ∧ is_Some (m_exception (g k)))) →
  inv None (State (ctrls (update x g st)) vs (pool st ++ [TProcessSuccess x; TProcessFail x])) ps.
Proof.
  intros I Hg. destruct (inv_hole_fresh _ _ _ I) as (k & Hk & Hs).
  destruct (Hg k Hs) as (Hs' & Hsq & Hfq & Hex).
  assert (active (g k) = active k) as Ha.
  { pose proof (inv_pair _ _ _ I x k Hk Hs) as Hp. unfold active. rewrite Hsq, Hfq.
    unfold is_settled in Hs. destruct (m_val_state k), (m_exception k); simpl in Hs; try done.
    repeat case_match; done. }
  split; cbn [ctrls pool].
  - intros y. pose proof (inv_tok _ _ _ I y) as Ht.
    rewrite <- (tokens_vals y _ (vals st)).
    pose proof (tokens_update y x g k st ps [TProcessSuccess x; TProcessFail x] Hk eq_refl) as Hu.
    unfold ctok in Hu. rewrite Hs, Hs', Ha, !occ_app, occ_cons, occ_nil in Hu.
    unfold hole_tok in *. rewrite length_update.
    destruct (decide (Some x = Some y)) as [[=]|]; destruct (decide (y = x)); simplify_eq; simpl in *; lia.
  - intros c k'. rewrite lookup_update. case_decide as E.
    + subst. rewrite Hk. intros [= <-]. congruence.
    + apply (inv_pair _ _ _ I).
  - intros c k'. rewrite lookup_update. case_decide as E.
    + subst. rewrite Hk. by intros [= <-].
    + apply (inv_excl _ _ _ I).
  - intros c k'. rewrite lookup_update. case_decide as E.
    + subst. intros _ _ _. rewrite elem_of_app. right. left.
    + intros. rewrite elem_of_app. left. by eapply (inv_proc_s _ _ _ I).
  - intros c k'. rewrite lookup_update. case_decide as E.
    + subst. intros _ _ _. rewrite elem_of_app. right. right. left.
    + intros. rewrite elem_of_app. left. by eapply (inv_proc_f _ _ _ I).
  - intros c f Hin. rewrite elem_of_app in Hin. destruct Hin as [Hin|Hin]; [|no_call Hin].
    destruct (inv_call_s _ _ _ I c f Hin) as (k' & Hk' & Hv). rewrite lookup_update. case_decide as E; [|eauto].
    subst. rewrite Hk in Hk'. injection Hk' as <-. exfalso.
    unfold is_settled in Hs. destruct Hv as [v Hv]. rewrite Hv in Hs. simpl in Hs. done.
  - intros c f Hin. rewrite elem_of_app in Hin. destruct Hin as [Hin|Hin]; [|no_call Hin].
    destruct (inv_call_f _ _ _ I c f Hin) as (k' & Hk' & Hv). rewrite lookup_update. case_decide as E; [|eauto].
    subst. rewrite Hk in Hk'. injection Hk' as <-. exfalso.
    unfold is_settled in Hs. destruct Hv as [v Hv]. rewrite Hv in Hs. by rewrite orb_comm in Hs.
Qed.

(** Registering a pair of callbacks that settle the controller of the hole. *)
Lemma inv_register x c s f st ps :
  inv (Some x) st ps → c < length (ctrls st) → starget s = x → ftarget f = x →
  inv None (set_on_success_and_fail c s f st) ps.
Proof.
  intros I Hc Hs Hf. destruct (lookup_lt_is_Some_2 _ _ Hc) as [k Hk].
  replace (set_on_success_and_fail c s f st)
    with (State (ctrls (update c (push_callbacks s f) st)) (vals st)
                (pool st ++ [TProcessSuccess c; TProcessFail c]))
    by (unfold set_on_success_and_fail, process_on_fail_async, process_on_success_async, post; simpl;
        by rewrite <- app_assoc).
  assert (∀ y, occ y (active (push_callbacks s f k)) = occ y (active k) + hole_tok (Some x) y) as Ha.
  { intros y. assert (occ y [x] = hole_tok (Some x) y) as Ed.
    { rewrite occ_cons, occ_nil. unfold hole_tok.
      destruct (decide (y = x)), (decide (Some x = Some y)); simplify_eq; try done; congruence. }
    rewrite <- Ed, <- occ_app. unfold active, push_callbacks. cbn [m_val_state m_exception m_on_success_queue m_on_fail_queue].
    rewrite <- Hs at 1. repeat case_match; rewrite fmap_app; try done.
    rewrite Hs, <- Hf. done. }
  split; cbn [ctrls pool].
  - intros y. pose proof (inv_tok _ _ _ I y) as Ht.
    pose proof (tokens_update y c (push_callbacks s f) k st ps [TProcessSuccess c; TProcessFail c] Hk eq_refl) as Hu.
    unfold ctok in Hu. rewrite !occ_app, Ha in Hu.
    change (is_settled (push_callbacks s f k)) with (is_settled k) in Hu.
    rewrite length_update. unfold hole_tok at 1. rewrite decide_False by done. lia.
  - intros c' k'. rewrite lookup_update. case_decide as E; [|apply (inv_pair _ _ _ I)].
    subst c'. rewrite Hk. intros [= <-] Hns. simpl. rewrite !fmap_app. simpl.
    by rewrite (inv_pair _ _ _ I c k Hk Hns), Hs, Hf.
  - intros c' k'. rewrite lookup_update. case_decide as E; [|apply (inv_excl _ _ _ I)].
    subst c'. rewrite Hk. intros [= <-]. simpl. by apply (inv_excl _ _ _ I c k).
  - intros c' k'. rewrite lookup_update, elem_of_app. case_decide as E.
    + subst c'. intros _ _ _. right. left.
    + intros. left. by eapply (inv_proc_s _ _ _ I).
  - intros c' k'. rewrite lookup_update, elem_of_app. case_decide as E.
    + subst c'. intros _ _ _. right. right. left.
    + intros. left. by eapply (inv_proc_f _ _ _ I).
  - intros c' g Hin. rewrite elem_of_app in Hin. destruct Hin as [Hin|Hin]; [|no_call Hin].
    destruct (inv_call_s _ _ _ I c' g Hin) as (k' & Hk' & Hv). rewrite lookup_update.
    case_decide as E; [|eauto]. subst c'. rewrite Hk'. simpl. eauto.
  - intros c' g Hin. rewrite elem_of_app in Hin. destruct Hin as [Hin|Hin]; [|no_call Hin].
    destruct (inv_call_f _ _ _ I c' g Hin) as (k' & Hk' & Hv). rewrite lookup_update.
    case_decide as E; [|eauto]. subst c'. rewrite Hk'. simpl. eauto.
Qed.

(** The stored values play no role in the invariant. *)
Lemma inv_vals hole cs vs vs' p ps : inv hole (State cs vs p : state U) ps → inv hole (State cs vs' p) ps.
Proof. intros [? ? ? ? ? ? ?]. by split. Qed.

(** A new controller is in the hands of its creator. *)
Lemma inv_create st ps :
  inv None st ps →
  inv (Some (create_controller st).1) (create_controller st).2 ps ∧
  length (ctrls (create_controller st).2) = S (length (ctrls st)).
Proof.
  intros I. split; [|simpl; rewrite length_app; simpl; lia]. unfold create_controller.
  assert (∀ c k, (ctrls st ++ [fresh_controller]) !! c = Some k →
            ctrls st !! c = Some k ∨ k = fresh_controller) as Hl.
  { intros c k [Hk|[_ Hk]]%lookup_app_Some; [by left|right].
    by apply list_lookup_singleton_Some in Hk as [_ <-]. }
  split; cbn [fst snd ctrls pool].
  - intros x. pose proof (inv_tok _ _ _ I x) as Ht. unfold tokens in *. cbn [ctrls pool].
    rewrite imap_app, concat_app, occ_app, length_app. simpl. rewrite occ_nil.
    unfold hole_tok in *. rewrite (decide_False (P := None = Some x)) in Ht by done.
    destruct (decide (Some (length (ctrls st)) = Some x)) as [[=]|Hne];
      repeat case_decide; simplify_eq; try lia. exfalso. apply Hne. f_equal. lia.
  - intros c k [Hk| ->]%Hl; [by apply (inv_pair _ _ _ I c)|done].
  - intros c k [Hk| ->]%Hl; [by apply (inv_excl _ _ _ I c)|]. simpl. by intros [[] _].
  - intros c k [Hk| ->]%Hl; [by apply (inv_proc_s _ _ _ I c)|done].
  - intros c k [Hk| ->]%Hl; [by apply (inv_proc_f _ _ _ I c)|done].
  - intros c f Hin. destruct (inv_call_s _ _ _ I c f Hin) as (k & Hk & Hv).
    exists k. split; [by apply lookup_app_l_Some|done].
  - intros c f Hin. destruct (inv_call_f _ _ _ I c f Hin) as (k & Hk & Hv).
    exists k. split; [by apply lookup_app_l_Some|done].
Qed.

(** ** Settled controllers never change *)
Definition extends st st' : Prop :=
  length (ctrls st) ≤ length (ctrls st') ∧
  ∀ c k, ctrls st !! c = Some k → is_settled k = true →
    ∃ k', ctrls st' !! c = Some k' ∧ m_val_state k' = m_val_state k ∧ m_exception k' = m_exception k.

#[local] Instance extends_preorder : PreOrder extends.
Proof.
  split.
  - intros st. split; [done|]. eauto.
  - intros st1 st2 st3 [Hl1 H1] [Hl2 H2]. split; [lia|]. intros c k Hk Hs.
    destruct (H1 c k Hk Hs) as (k2 & Hk2 & Hv2 & He2).
    destruct (H2 c k2 Hk2) as (k3 & Hk3 & Hv3 & He3).
    { unfold is_settled in *. by rewrite Hv2, He2. }
    exists k3. split; [done|]. by rewrite Hv3, He3.
Qed.

Lemma extends_same_ctrls st st' : ctrls st = ctrls st' → extends st st'.
Proof. intros E. split; [by rewrite E|]. rewrite E. eauto. Qed.

(** An update that leaves settled controllers their outcome. *)
Lemma extends_update c f st vs p :
  (∀ k, ctrls st !! c = Some k → is_settled k = true →
        m_val_state (f k) = m_val_state k ∧ m_exception (f k) = m_exception k) →
  extends st (State (ctrls (update c f st)) vs p).
Proof.
  intros Hf. split; [cbn [ctrls]; by rewrite length_update|].
  intros c' k Hk Hs. cbn [ctrls]. rewrite lookup_update. case_decide as E; [|eauto].
  subst c'. rewrite Hk. exists (f k). split; [done|]. by apply Hf.
Qed.

Lemma extends_create st : extends st (create_controller st).2.
Proof.
  split; [simpl; rewrite length_app; lia|]. intros c k Hk Hs. exists k. split; [|done].
  by apply lookup_app_l_Some.
Qed.

(** An operation that uses up the token of [x]. *)
Definition consumes (x : nat) st st' : Prop :=
  ∀ ps, inv (Some x) st ps → inv None st' ps ∧ extends st st'.

Lemma consumes_settle x g st vs :
  (∀ vs' ps, inv (Some x) st ps →
     inv None (State (ctrls (update x g st)) vs' (pool st ++ [TProcessSuccess x; TProcessFail x])) ps) →
  consumes x st (State (ctrls (update x g st)) vs (pool st ++ [TProcessSuccess x; TProcessFail x])).
Proof.
  intros H ps I. split; [by apply H|]. apply extends_update. intros k Hk Hs.
  destruct (inv_hole_fresh _ _ _ I) as (k' & Hk' & Hs'). congruence.
Qed.

Lemma two_posts (cs : list (controller U)) vs p (t1 t2 : task U) :
  post t2 (post t1 (State cs vs p)) = State cs vs (p ++ [t1; t2]).
Proof. unfold post. simpl. by rewrite <- app_assoc. Qed.

Lemma consumes_set_value_state x vs st : consumes x st (set_value_state x vs st).
Proof.
  unfold set_value_state, process_on_fail_async, process_on_success_async. unfold update at 1. rewrite two_posts.
  apply (consumes_settle x (put_val_state vs)). intros vs' ps I. apply inv_settle; [done|].
  intros k. unfold is_settled. destruct k as [? ? [?|] [?|]]; simpl; try done.
  intros _. split_and!; try done. by intros [_ []].
Qed.

Lemma consumes_set_exception x e st : consumes x st (set_exception x e st).
Proof.
  unfold set_exception, process_on_fail_async, process_on_success_async. unfold update at 1. rewrite two_posts.
  apply (consumes_settle x (put_exception e)). intros vs' ps I. apply inv_settle; [done|].
  intros k. unfold is_settled. destruct k as [? ? [?|] [?|]]; simpl; try done.
  intros _. split_and!; try done. by intros [[] _].
Qed.

(** The stored values play no role. *)
Lemma consumes_vals x st vs st' : consumes x (State (ctrls st) vs (pool st)) st' → consumes x st st'.
Proof.
  intros H ps I. destruct st as [cs vs0 p]. destruct (H ps) as [I' E]; [by eapply inv_vals|].
  split; [done|]. etrans; [|done]. by apply extends_same_ctrls.
Qed.

Lemma consumes_set_value x v st : consumes x st (set_value x v st).
Proof. eapply consumes_vals, consumes_set_value_state. Qed.

Lemma consumes_forward_value x void vs st : consumes x st (forward_value void x vs st).
Proof. destruct void; [apply consumes_set_value|apply consumes_set_value_state]. Qed.

Lemma consumes_register x c s f st :
  c < length (ctrls st) → starget s = x → ftarget f = x →
  consumes x st (set_on_success_and_fail c s f st).
Proof.
  intros Hc Hs Hf ps I. split; [by eapply inv_register|].
  unfold set_on_success_and_fail, process_on_fail_async, process_on_success_async. unfold update at 1.
  rewrite two_posts. by apply (extends_update c (push_callbacks s f)).
Qed.

(** ** Handles that name existing controllers *)
Definition handle_ok (n : nat) (h : option nat) : Prop :=
  match h with Some c => c < n | None => True end.
Definition value_ok (n : nat) (v : value U) : Prop :=
  match v with VFut h => handle_ok n h | _ => True end.
Definition cres_ok (n : nat) (r : cres U) : Prop :=
  match r with CRet v => value_ok n v | CFut h => handle_ok n h | CThrow _ => True end.
Definition fres_ok (n : nat) (r : fres) : Prop :=
  match r with FFut h => handle_ok n h | _ => True end.

(** The user callback a task runs returns futures that exist. *)
Definition task_ok (n : nat) (t : task U) : Prop :=
  match t with
  | TCallSuccess _ (SThen f _) => ∀ v, value_ok n v → value_ok n (f v).1 ∧ cres_ok n (f v).2
  | TCallSuccess _ (SFinally _ f _) => fres_ok n (f tt)
  | TCallFail _ (FCatched _ f _) => ∀ e, cres_ok n (f e)
  | TCallFail _ (FFinally f _) => fres_ok n (f tt)
  | _ => True
  end.

Definition vals_ok st : Prop := Forall (value_ok (length (ctrls st))) (vals st).

Lemma handle_ok_mono n m h : n ≤ m → handle_ok n h → handle_ok m h.
Proof. destruct h; simpl; lia. Qed.
Lemma value_ok_mono n m v : n ≤ m → value_ok n v → value_ok m v.
Proof. destruct v; simpl; eauto using handle_ok_mono. Qed.
Lemma vals_ok_mono st st' :
  length (ctrls st) ≤ length (ctrls st') → vals st = vals st' → vals_ok st → vals_ok st'.
Proof.
  unfold vals_ok. intros Hl <- H. eapply Forall_impl; [exact H|]. intros v. by apply value_ok_mono.
Qed.

Lemma vals_ok_default st vs : vals_ok st → value_ok (length (ctrls st)) (default VVoid (vals st !! vs)).
Proof. intros H. destruct (vals st !! vs) eqn:E; [|done]. by eapply Forall_lookup_1 in H. Qed.

Lemma vals_ok_insert st vs v :
  vals_ok st → value_ok (length (ctrls st)) v → vals_ok (State (ctrls st) (<[vs := v]> (vals st)) (pool st)).
Proof. intros. by apply Forall_insert. Qed.

(** An operation on the way to settle [x] that keeps stored handles valid. *)
Definition good_op (x : nat) st st' : Prop := consumes x st st' ∧ (vals_ok st → vals_ok st').

Lemma length_set_value_state x vs st : length (ctrls (set_value_state x vs st)) = length (ctrls st).
Proof. apply length_alter. Qed.

Lemma good_set_exception x e st : good_op x st (set_exception x e st).
Proof. split; [apply consumes_set_exception|]. apply vals_ok_mono; [|done]. by simpl; rewrite length_alter. Qed.

Lemma good_set_value x v st : value_ok (length (ctrls st)) v → good_op x st (set_value x v st).
Proof.
  intros Hv. split; [apply consumes_set_value|]. intros H. unfold vals_ok.
  unfold set_value. rewrite length_set_value_state. cbn [ctrls vals set_value_state].
  apply Forall_app. split; [done|]. by constructor.
Qed.

Lemma good_set_value_state x vs st : good_op x st (set_value_state x vs st).
Proof. split; [apply consumes_set_value_state|]. apply vals_ok_mono; [|done]. by simpl; rewrite length_alter. Qed.

Lemma good_forward_value x void vs st : good_op x st (forward_value void x vs st).
Proof. destruct void; [by apply good_set_value|apply good_set_value_state]. Qed.

Lemma good_register x c s f st :
  c < length (ctrls st) → starget s = x → ftarget f = x →
  good_op x st (set_on_success_and_fail c s f st).
Proof. split; [by apply consumes_register|]. apply vals_ok_mono; [|done]. by simpl; rewrite length_alter. Qed.

Lemma good_insert x st vs v st' :
  value_ok (length (ctrls st)) v →
  good_op x (State (ctrls st) (<[vs := v]> (vals st)) (pool st)) st' → good_op x st st'.
Proof.
  intros Hv [Hc Hvo]. split; [by eapply consumes_vals|]. intros H. by apply Hvo, vals_ok_insert.
Qed.

#[local] Hint Resolve good_set_exception good_set_value good_set_value_state good_forward_value : cl.

(** Running a posted callback uses up exactly the token of its child. *)
Lemma good_call_success c f st :
  vals_ok st → is_Some (ctrls st !! c ≫= m_val_state) → task_ok (length (ctrls st)) (TCallSuccess c f) →
  good_op (starget f) st (call_success c f st).
Proof.
  intros Hvo [vs Hvs] Ht. unfold call_success. rewrite Hvs.
  destruct f as [t ch|v ch|v ch|v ch|v t ch|v vs' ch|e ch]; cbn [starget] in *; auto with cl.
  - unfold exec_then_on_success. specialize (Ht _ (vals_ok_default _ vs Hvo)).
    destruct (t _) as [v' r]. simpl in Ht. destruct Ht as [Hv' Hr].
    eapply good_insert; [done|]. destruct r; auto with cl.
  - unfold exec_flatten. pose proof (vals_ok_default _ vs Hvo) as Hd.
    apply (good_insert _ _ vs (VFut None)); [done|].
    destruct (default VVoid (vals st !! vs)) as [| |[ic|]]; simpl in Hd; auto using good_register with cl.
  - unfold exec_finally_success. simpl in Ht. destruct (t tt) as [|e|[ic|]]; simpl in Ht;
      auto using good_register with cl.
Qed.

Lemma good_call_fail c f st :
  is_Some (ctrls st !! c ≫= m_exception) → task_ok (length (ctrls st)) (TCallFail c f) →
  good_op (ftarget f) st (call_fail c f st).
Proof.
  intros [e He] Ht. unfold call_fail. rewrite He.
  destruct f as [ch|ch|v t ch|t ch]; cbn [ftarget] in *; auto with cl.
  - unfold exec_catched_fail. specialize (Ht e). destruct (t e) as [x|e'|[ic|]]; simpl in Ht;
      auto using good_register with cl.
    apply good_set_value. by destruct v.
  - unfold exec_finally_fail. simpl in Ht. destruct (t tt) as [|e'|[ic|]]; simpl in Ht;
      auto using good_register with cl.
Qed.

(** ** Taking a task from the pool *)
Lemma elem_of_drop_mid {A} (x t : A) (ts1 ts2 : list A) : x ∈ ts1 ++ t :: ts2 → x ≠ t → x ∈ ts1 ++ ts2.
Proof. rewrite !elem_of_app, elem_of_cons. intuition congruence. Qed.
Lemma elem_of_add_mid {A} (x t : A) (ts1 ts2 : list A) : x ∈ ts1 ++ ts2 → x ∈ ts1 ++ t :: ts2.
Proof. rewrite !elem_of_app, elem_of_cons. intuition congruence. Qed.

Lemma occ_mid x (t : task U) ts1 ts2 :
  occ x (concat (ttok <$> ts1 ++ t :: ts2)) = occ x (ttok t) + occ x (concat (ttok <$> ts1 ++ ts2)).
Proof. rewrite !fmap_app, fmap_cons, !concat_app. cbn [concat]. rewrite !occ_app. lia. Qed.

(** A call leaves the pool with the token of its child. *)
Lemma inv_take cs vs ts1 t ts2 ps x :
  inv None (State cs vs (ts1 ++ t :: ts2)) ps → ttok t = [x] →
  inv (Some x) (State cs vs (ts1 ++ ts2)) ps.
Proof.
  intros I Ht. split; cbn [ctrls pool].
  - intros y. pose proof (inv_tok _ _ _ I y) as Hy. unfold tokens in *. cbn [ctrls pool] in *.
    rewrite occ_mid, Ht, occ_cons, occ_nil in Hy. unfold hole_tok in *.
    destruct (decide (None = Some y)); [done|].
    destruct (decide (Some x = Some y)), (decide (y = x)); simplify_eq; simpl in *; lia.
  - apply (inv_pair _ _ _ I).
  - apply (inv_excl _ _ _ I).
  - intros c k Hk Hs Hq. eapply elem_of_drop_mid; [by eapply (inv_proc_s _ _ _ I)|]. intros E. by subst t.
  - intros c k Hk Hs Hq. eapply elem_of_drop_mid; [by eapply (inv_proc_f _ _ _ I)|]. intros E. by subst t.
  - intros c f Hin. by eapply (inv_call_s _ _ _ I), elem_of_add_mid.
  - intros c f Hin. by eapply (inv_call_f _ _ _ I), elem_of_add_mid.
Qed.

(** A process task leaves the pool, controller [c] is changed by [g] and
    [ts] is posted: the conditions that keep the invariant. *)
Lemma inv_process cs vs ts1 t ts2 ps c k g ts :
  inv None (State cs vs (ts1 ++ t :: ts2)) ps → ttok t = [] → cs !! c = Some k →
  (t = TProcessSuccess c ∧ (is_settled k = true → m_on_success_queue (g k) = []) ∧
     m_on_fail_queue (g k) = m_on_fail_queue k ∨
   t = TProcessFail c ∧ (is_settled k = true → m_on_fail_queue (g k) = []) ∧
     m_on_success_queue (g k) = m_on_success_queue k) →
  (is_settled k = false → g k = k) →
  m_val_state (g k) = m_val_state k → m_exception (g k) = m_exception k →
  (∀ x, occ x (active (g k)) + occ x (concat (ttok <$> ts)) = occ x (active k)) →
  (∀ t', t' ∈ ts → (∃ f, t' = TCallSuccess c f ∧ is_Some (m_val_state k)) ∨
                   (∃ f, t' = TCallFail c f ∧ is_Some (m_exception k))) →
  inv None (State (alter g c cs) vs ((ts1 ++ ts2) ++ ts)) ps.
Proof.
  intros I Ht Hk Hq Hun Hv He Hact Hts.
  assert (is_settled (g k) = is_settled k) as Hsg by (unfold is_settled; by rewrite Hv, He).
  pose proof (lookup_update c g (State cs vs [])) as Hlook. unfold update in Hlook. simpl in Hlook.
  split; cbn [ctrls pool].
  - intros y. pose proof (inv_tok _ _ _ I y) as Hy. unfold tokens in *. cbn [ctrls pool] in *.
    rewrite length_alter. rewrite occ_mid, Ht, occ_nil in Hy. rewrite (fmap_app _ (ts1 ++ ts2)), concat_app, occ_app.
    pose proof (occ_concat_alter ctok g y c k _ Hk) as Hc. unfold ctok in Hc at 2 4.
    rewrite Hsg, !occ_app in Hc. specialize (Hact y). lia.
  - intros c' k'. rewrite Hlook. case_decide as E; [|apply (inv_pair _ _ _ I)].
    subst c'. rewrite Hk. intros [= <-] Hs. rewrite Hsg in Hs. rewrite (Hun Hs). by apply (inv_pair _ _ _ I c k).
  - intros c' k'. rewrite Hlook. case_decide as E; [|apply (inv_excl _ _ _ I)].
    subst c'. rewrite Hk. intros [= <-]. rewrite Hv, He. by apply (inv_excl _ _ _ I c k).
  - intros c' k'. rewrite Hlook, elem_of_app. case_decide as E.
    + subst c'. rewrite Hk. intros [= <-] Hs Hne. rewrite Hsg in Hs. left.
      destruct Hq as [(-> & Hq & _)|(-> & _ & Hq)]; [by destruct Hne; auto|].
      eapply elem_of_drop_mid; [eapply (inv_proc_s _ _ _ I c k Hk Hs); congruence|done].
    + intros Hk' Hs Hne. left. eapply elem_of_drop_mid; [by eapply (inv_proc_s _ _ _ I)|].
      destruct Hq as [(-> & _)|(-> & _)]; congruence.
  - intros c' k'. rewrite Hlook, elem_of_app. case_decide as E.
    + subst c'. rewrite Hk. intros [= <-] Hs Hne. rewrite Hsg in Hs. left.
      destruct Hq as [(-> & _ & Hq)|(-> & Hq & _)]; [|by destruct Hne; auto].
      eapply elem_of_drop_mid; [eapply (inv_proc_f _ _ _ I c k Hk Hs); congruence|done].
    + intros Hk' Hs Hne. left. eapply elem_of_drop_mid; [by eapply (inv_proc_f _ _ _ I)|].
      destruct Hq as [(-> & _)|(-> & _)]; congruence.
  - intros c' f Hin. rewrite elem_of_app in Hin. rewrite Hlook. destruct Hin as [Hin|Hin].
    + destruct (inv_call_s _ _ _ I c' f (elem_of_add_mid _ _ _ _ Hin)) as (k' & Hk' & Hs).
      cbn [ctrls] in Hk'. case_decide as E; [|eauto]. subst c'. rewrite Hk'. exists (g k'). split; [done|]. congruence.
    + destruct (Hts _ Hin) as [(f' & [= <- <-] & Hs)|(f' & [=] & _)].
      rewrite decide_True, Hk by done. exists (g k). split; [done|]. congruence.
  - intros c' f Hin. rewrite elem_of_app in Hin. rewrite Hlook. destruct Hin as [Hin|Hin].
    + destruct (inv_call_f _ _ _ I c' f (elem_of_add_mid _ _ _ _ Hin)) as (k' & Hk' & Hs).
      cbn [ctrls] in Hk'. case_decide as E; [|eauto]. subst c'. rewrite Hk'. exists (g k'). split; [done|]. congruence.
    + destruct (Hts _ Hin) as [(f' & [=] & _)|(f' & [= <- <-] & Hs)].
      rewrite decide_True, Hk by done. exists (g k). split; [done|]. congruence.
Qed.

Lemma occ_call_s x c (q : list (succ_cb U)) :
  occ x (concat (ttok <$> (TCallSuccess c <$> q))) = occ x (starget <$> q).
Proof.
  induction q as [|f q IH]; [done|]. rewrite !fmap_cons. cbn [concat]. rewrite occ_app, IH.
  simpl. rewrite !occ_cons, occ_nil. lia.
Qed.
Lemma occ_call_f x c (q : list (fail_cb U)) :
  occ x (concat (ttok <$> (TCallFail c <$> q))) = occ x (ftarget <$> q).
Proof.
  induction q as [|f q IH]; [done|]. rewrite !fmap_cons. cbn [concat]. rewrite occ_app, IH.
  simpl. rewrite !occ_cons, occ_nil. lia.
Qed.

(** A process task without a controller, or for an unsettled one, does nothing. *)
Lemma inv_process_noop cs vs ts1 t ts2 ps c :
  inv None (State cs vs (ts1 ++ t :: ts2)) ps → t = TProcessSuccess c ∨ t = TProcessFail c →
  (∀ k, cs !! c = Some k → is_settled k = false) →
  inv None (State cs vs (ts1 ++ ts2)) ps.
Proof.
  intros I Ht Hk. assert (ttok t = []) as Htt by (by destruct Ht as [-> | ->]).
  split; cbn [ctrls pool].
  - intros y. pose proof (inv_tok _ _ _ I y) as Hy. unfold tokens in *. cbn [ctrls pool] in *.
    by rewrite occ_mid, Htt, occ_nil in Hy.
  - apply (inv_pair _ _ _ I).
  - apply (inv_excl _ _ _ I).
  - intros c' k Hk' Hs Hq. eapply elem_of_drop_mid; [by eapply (inv_proc_s _ _ _ I)|].
    intros E. destruct Ht as [-> | ->]; simplify_eq. rewrite (Hk k Hk') in Hs. done.
  - intros c' k Hk' Hs Hq. eapply elem_of_drop_mid; [by eapply (inv_proc_f _ _ _ I)|].
    intros E. destruct Ht as [-> | ->]; simplify_eq. rewrite (Hk k Hk') in Hs. done.
  - intros c' f Hin. by eapply (inv_call_s _ _ _ I), elem_of_add_mid.
  - intros c' f Hin. by eapply (inv_call_f _ _ _ I), elem_of_add_mid.
Qed.

Lemma inv_process_success cs vs ts1 c ts2 ps :
  inv None (State cs vs (ts1 ++ TProcessSuccess c :: ts2)) ps →
  inv None (process_success c (State cs vs (ts1 ++ ts2))) ps.
Proof.
  intros I. unfold process_success. cbn [ctrls pool vals]. destruct (cs !! c) as [k|] eqn:Hk.
  2: { eapply inv_process_noop; eauto. congruence. }
  destruct k as [sq fq vs' e]. cbn [m_val_state m_exception m_on_success_queue].
  destruct vs' as [v|]; [|destruct e as [e|]].
  - pose proof (inv_excl _ _ _ I c _ Hk) as Hx. simpl in Hx.
    eapply (inv_process _ _ _ _ _ _ c _ clear_success); eauto; try done.
    + intros x. rewrite occ_call_s. unfold active. simpl. destruct e; rewrite ?occ_nil; lia.
    + intros t' (f & -> & _)%list_elem_of_fmap. left. simpl. eauto.
  - unfold update. cbn [ctrls pool vals]. rewrite <- (app_nil_r (ts1 ++ ts2)).
    eapply (inv_process _ _ _ _ _ _ c _ clear_success); eauto; try done.
    intros t' []%elem_of_nil.
  - eapply inv_process_noop; eauto. intros k' Hk'. rewrite Hk in Hk'. by injection Hk' as <-.
Qed.

Lemma inv_process_fail cs vs ts1 c ts2 ps :
  inv None (State cs vs (ts1 ++ TProcessFail c :: ts2)) ps →
  inv None (process_fail c (State cs vs (ts1 ++ ts2))) ps.
Proof.
  intros I. unfold process_fail. cbn [ctrls pool vals]. destruct (cs !! c) as [k|] eqn:Hk.
  2: { eapply inv_process_noop; eauto. congruence. }
  pose proof (inv_excl _ _ _ I c _ Hk) as Hx.
  destruct k as [sq fq vs' e]. cbn [m_val_state m_exception m_on_fail_queue] in *.
  destruct e as [e|]; [|destruct vs' as [v|]].
  - assert (vs' = None) as -> by (destruct vs'; [destruct Hx; eauto|done]).
    eapply (inv_process _ _ _ _ _ _ c _ clear_fail); eauto; try done.
    + intros x. rewrite occ_call_f. unfold active. simpl. rewrite ?occ_nil. lia.
    + intros t' (f & -> & _)%list_elem_of_fmap. right. simpl. eauto.
  - unfold update. cbn [ctrls pool vals]. rewrite <- (app_nil_r (ts1 ++ ts2)).
    eapply (inv_process _ _ _ _ _ _ c _ clear_fail); eauto; try done.
    intros t' []%elem_of_nil.
  - eapply inv_process_noop; eauto. intros k' Hk'. rewrite Hk in Hk'. by injection Hk' as <-.
Qed.

(** ** The system: controllers, pool and the promises that exist

  Application threads call the operations of [promise] and [future] and the
  pool runs its tasks, in any interleaving. *)
Inductive sys_step : state U * list promise → state U * list promise → Prop :=
| sys_pool st ps ts1 t ts2 :
    pool st = ts1 ++ t :: ts2 → task_ok (length (ctrls st)) t →
    sys_step (st, ps) (run_task t (State (ctrls st) (vals st) (ts1 ++ ts2)), ps)
| sys_promise st ps :
    sys_step (st, ps) ((promise_create st).2, (promise_create st).1 :: ps)
| sys_promise_move st ps p ps' :
    ps ≡ₚ p :: ps' → sys_step (st, ps) (st, (promise_move p).1 :: (promise_move p).2 :: ps')
| sys_promise_assign st ps p q ps' :
    ps ≡ₚ p :: q :: ps' →
    sys_step (st, ps) ((promise_move_assign p q st).2,
                       (promise_move_assign p q st).1.1 :: (promise_move_assign p q st).1.2 :: ps')
| sys_promise_destroy st ps p ps' :
    ps ≡ₚ p :: ps' → sys_step (st, ps) ((abandon p st).2, ps')
| sys_set_value st ps p ps' v p' st' :
    ps ≡ₚ p :: ps' → value_ok (length (ctrls st)) v →
    promise_set_value p v st = Ok p' st' → sys_step (st, ps) (st', p' :: ps')
| sys_set_exception st ps p ps' e p' st' :
    ps ≡ₚ p :: ps' → promise_set_exception p e st = Ok p' st' → sys_step (st, ps) (st', p' :: ps')
| sys_get_future st ps p ps' p' c st' :
    ps ≡ₚ p :: ps' → get_future p st = Ok (p', c) st' → sys_step (st, ps) (st', p' :: ps')
| sys_then st ps h fl f n st' :
    handle_ok (length (ctrls st)) h → then_ h fl f st = Ok n st' → sys_step (st, ps) (st', ps)
| sys_catched st ps h void f n st' :
    handle_ok (length (ctrls st)) h → catched h void f st = Ok n st' → sys_step (st, ps) (st', ps)
| sys_finally st ps h void f n st' :
    handle_ok (length (ctrls st)) h → finally h void f st = Ok n st' → sys_step (st, ps) (st', ps)
| sys_make_ready st ps v :
    value_ok (length (ctrls st)) v → sys_step (st, ps) ((make_ready v st).2, ps).

Definition sys_init : state U * list promise := (State [] [] [], []).
Definition reachable (s : state U * list promise) : Prop := rtc sys_step sys_init s.

Definition sys_inv (s : state U * list promise) : Prop := inv None s.1 s.2 ∧ vals_ok s.1.

Lemma inv_ps hole hole' st ps ps' :
  (∀ x, occ x (concat (prtok <$> ps)) + hole_tok hole x
        = occ x (concat (prtok <$> ps')) + hole_tok hole' x) →
  inv hole st ps → inv hole' st ps'.
Proof.
  intros H [Ht ? ? ? ? ? ?]. split; try done. intros x. specialize (Ht x). specialize (H x).
  unfold tokens in *. lia.
Qed.

Lemma prtok_perm x ps ps' :
  ps ≡ₚ ps' → occ x (concat (prtok <$> ps)) = occ x (concat (prtok <$> ps')).
Proof.
  induction 1 as [|p l l' _ IH|p q l|l1 l2 l3 _ IH1 _ IH2]; [done| | |congruence];
    rewrite ?fmap_cons; cbn [concat]; rewrite ?occ_app; lia.
Qed.

Lemma inv_perm hole st ps ps' : ps ≡ₚ ps' → inv hole st ps → inv hole st ps'.
Proof. intros Hp. apply inv_ps. intros x. by rewrite (prtok_perm x _ _ Hp). Qed.

(** Replacing a promise by one with the same token. *)
Lemma inv_same_token hole st p p' ps : prtok p = prtok p' → inv hole st (p :: ps) → inv hole st (p' :: ps).
Proof. intros E. apply inv_ps. intros x. rewrite !fmap_cons, E. done. Qed.

(** Claiming the completion of a promise takes its token. *)
Lemma inv_claim st p c p' ps :
  prtok p = [c] → prtok p' = [] → inv None st (p :: ps) → inv (Some c) st (p' :: ps).
Proof.
  intros E E'. apply inv_ps. intros x. rewrite !fmap_cons. cbn [concat]. rewrite E, E', !occ_app, occ_cons, occ_nil.
  unfold hole_tok. destruct (decide (None = Some x)); [done|].
  destruct (decide (Some c = Some x)), (decide (x = c)); simplify_eq; simpl; lia.
Qed.

Lemma inv_drop st p ps hole : prtok p = [] → inv hole st (p :: ps) ↔ inv hole st ps.
Proof. intros E. split; apply inv_ps; intros x; by rewrite fmap_cons, E. Qed.

(** An operation of the application that keeps the invariant and leaves
    settled controllers as they are. *)
Definition good_step (s s' : state U * list promise) : Prop := sys_inv s' ∧ extends s.1 s'.1.

Lemma good_op_step x st st' ps :
  good_op x st st' → inv (Some x) st ps → vals_ok st → good_step (st, ps) (st', ps).
Proof. intros [Hc Hv] I Hvo. destruct (Hc ps I) as [I' E]. split; [split; simpl; auto|done]. Qed.

Lemma good_abandon p st ps :
  inv None st (p :: ps) → vals_ok st → good_step (st, p :: ps) ((abandon p st).2, (abandon p st).1 :: ps).
Proof.
  intros I Hv. unfold abandon. destruct p as [[c|] f pend], pend; simpl.
  - assert (inv (Some c) st (Promise (Some c) f false :: ps)) as I' by (eapply inv_claim, I; done).
    by destruct (good_op_step c st _ _ (good_set_exception c broken_promise st) I' Hv).
  - by split.
  - split; [|done]. split; [|done]. by eapply inv_same_token, I.
  - by split.
Qed.

Lemma good_create_register h st ps (mk : nat → succ_cb U * fail_cb U) :
  (∀ n, starget (mk n).1 = n ∧ ftarget (mk n).2 = n) →
  inv None st ps → vals_ok st → h < length (ctrls st) →
  let n := (create_controller st).1 in
  good_step (st, ps) (set_on_success_and_fail h (mk n).1 (mk n).2 (create_controller st).2, ps).
Proof.
  intros Hmk I Hv Hh n. destruct (inv_create _ _ I) as [I' Hl].
  destruct (good_op_step n (create_controller st).2 (set_on_success_and_fail h (mk n).1 (mk n).2 (create_controller st).2) ps)
    as [G E]; [|done| |].
  - apply good_register; [lia|apply Hmk|apply Hmk].
  - apply (vals_ok_mono st); [lia|done|done].
  - split; [done|]. etrans; [apply extends_create|done].
Qed.

Lemma good_trans s1 s2 s3 : good_step s1 s2 → good_step s2 s3 → good_step s1 s3.
Proof. intros [_ E1] [G E2]. split; [done|]. by etrans. Qed.

Lemma good_run_task st ps ts1 t ts2 :
  sys_inv (st, ps) → pool st = ts1 ++ t :: ts2 → task_ok (length (ctrls st)) t →
  good_step (st, ps) (run_task t (State (ctrls st) (vals st) (ts1 ++ ts2)), ps).
Proof.
  intros [I Hv] Hp Ht. simpl in I, Hv. destruct st as [cs vs p]. simpl in *. subst p.
  destruct t as [c|c|c f|c f]; simpl.
  - split; [split; [by apply inv_process_success|]|]; simpl; unfold process_success; simpl;
      repeat case_match; try done; try (apply extends_same_ctrls; done); try (by eapply vals_ok_mono, Hv; simpl; rewrite ?length_alter);
      apply (extends_update c clear_success (State cs vs _)); done.
  - split; [split; [by apply inv_process_fail|]|]; simpl; unfold process_fail; simpl;
      repeat case_match; try done; try (apply extends_same_ctrls; done); try (by eapply vals_ok_mono, Hv; simpl; rewrite ?length_alter);
      apply (extends_update c clear_fail (State cs vs _)); done.
  - destruct (inv_call_s _ _ _ I c f) as (k & Hk & Hs); [apply elem_of_app; right; left|]. simpl in Hk.
    destruct (good_op_step (starget f) (State cs vs (ts1 ++ ts2)) (call_success c f (State cs vs (ts1 ++ ts2))) ps)
      as [G E]; [|by eapply inv_take|done|].
    + apply good_call_success; [done|simpl; by rewrite Hk|done].
    + split; [done|]. etrans; [|exact E]. by apply extends_same_ctrls.
  - destruct (inv_call_f _ _ _ I c f) as (k & Hk & Hs); [apply elem_of_app; right; left|]. simpl in Hk.
    destruct (good_op_step (ftarget f) (State cs vs (ts1 ++ ts2)) (call_fail c f (State cs vs (ts1 ++ ts2))) ps)
      as [G E]; [|by eapply inv_take|done|].
    + apply good_call_fail; [simpl; by rewrite Hk|done].
    + split; [done|]. etrans; [|exact E]. by apply extends_same_ctrls.
Qed.

Lemma good_then st ps h fl f n st' :
  inv None st ps → vals_ok st → handle_ok (length (ctrls st)) h → then_ h fl f st = Ok n st' →
  good_step (st, ps) (st', ps).
Proof.
  intros I Hv Hh E. destruct h as [c|]; [|done]. simpl in Hh.
  pose proof (good_create_register c st ps (λ n, (SThen f n, FProp n)) ltac:(done) I Hv Hh) as G1.
  destruct fl as [void|]; [|by injection E as <- <-].
  destruct G1 as [[I2 Hv2] X1].
  set (st2 := set_on_success_and_fail c _ _ _) in *.
  assert (length (ctrls st) < length (ctrls st2)) as Hc.
  { unfold st2. simpl. rewrite length_alter, length_app. simpl. lia. }
  pose proof (good_create_register (length (ctrls st)) st2 ps (λ n, (SFlatten void n, FProp n)) ltac:(done) I2 Hv2 Hc) as G2.
  injection E as <- <-. eapply good_trans; [|exact G2]. by split; [split|].
Qed.

Lemma good_promise_create st ps :
  inv None st ps → vals_ok st → good_step (st, ps) ((promise_create st).2, (promise_create st).1 :: ps).
Proof.
  intros I Hv.
  destruct (inv_create _ _ I) as [I' Hl]. unfold promise_create.
  pose proof (extends_create st) as Hx. destruct (create_controller st) as [c st1] eqn:E1. simpl in *.
  split; [split|done]; simpl.
  - eapply inv_ps, I'. intros x. rewrite fmap_cons. cbn [concat]. rewrite occ_app. unfold prtok at 2. simpl.
    rewrite occ_cons, occ_nil. unfold hole_tok. destruct (decide (None = Some x)); [done|].
    destruct (decide (Some c = Some x)), (decide (x = c)); simplify_eq; lia.
  - injection E1 as _ <-. apply (vals_ok_mono st); [lia|done|done].
Qed.

Lemma good_make_ready st ps v :
  value_ok (length (ctrls st)) v → inv None st ps → vals_ok st → good_step (st, ps) ((make_ready v st).2, ps).
Proof.
  intros Hvo I Hv.
  destruct (inv_create _ _ I) as [I' Hl]. unfold make_ready. pose proof (extends_create st) as Hx.
  destruct (create_controller st) as [c st1] eqn:E1. simpl in *.
  destruct (good_op_step c st1 (set_value c v st1) ps) as [G X]; [|done| |].
  - apply good_set_value. eapply value_ok_mono, Hvo. lia.
  - injection E1 as _ <-. apply (vals_ok_mono st); [lia|done|done].
  - split; [done|]. by etrans.
Qed.

Lemma sys_step_good s s' : sys_inv s → sys_step s s' → good_step s s'.
Proof.
  intros [I Hv] Hs. destruct Hs as
    [st ps ts1 t ts2 Hp Ht|st ps|st ps p ps' Hp|st ps p q ps' Hp|st ps p ps' Hp|st ps p ps' v p' st' Hp Hvo E
    |st ps p ps' e p' st' Hp E|st ps p ps' p' c st' Hp E|st ps h fl f n st' Hh E|st ps h void f n st' Hh E
    |st ps h void f n st' Hh E|st ps v Hvo]; simpl in I, Hv.
  - by apply good_run_task.
  - by apply good_promise_create.
  - split; [split|done]; simpl; [|done]. apply (inv_perm _ _ _ _ Hp) in I.
    eapply inv_ps, I. intros x. rewrite !fmap_cons. done.
  - apply (inv_perm _ _ _ _ Hp) in I. destruct (good_abandon p st (q :: ps') I Hv) as [[I1 Hv1] X].
    unfold promise_move_assign. destruct (abandon p st) as [p' st1] eqn:Ea. simpl in *.
    split; [split|done]; simpl; [|done].
    assert (prtok p' = []) as Hp'.
    { unfold abandon in Ea. destruct p as [[c|] pf []]; simpl in Ea; by simplify_eq. }
    apply inv_drop in I1; [|done]. eapply inv_ps, I1. intros x. rewrite !fmap_cons. done.
  - apply (inv_perm _ _ _ _ Hp) in I. destruct (good_abandon p st ps' I Hv) as [[I1 Hv1] X].
    split; [split|done]; simpl; [|done]. simpl in I1. apply inv_drop in I1; [done|].
    unfold abandon. by destruct p as [[c|] pf []].
  - apply (inv_perm _ _ _ _ Hp) in I. unfold promise_set_value, claim_completion in E.
    destruct p as [[c|] pf []]; simpl in E; try done. injection E as <- <-.
    assert (inv (Some c) st (Promise (Some c) pf false :: ps')) as I' by (eapply inv_claim, I; done).
    by destruct (good_op_step c st _ _ (good_set_value c v st Hvo) I' Hv).
  - apply (inv_perm _ _ _ _ Hp) in I. unfold promise_set_exception, claim_completion in E.
    destruct e as [e|]; [|done]. destruct p as [[c|] pf []]; simpl in E; try done. injection E as <- <-.
    assert (inv (Some c) st (Promise (Some c) pf false :: ps')) as I' by (eapply inv_claim, I; done).
    by destruct (good_op_step c st _ _ (good_set_exception c e st) I' Hv).
  - apply (inv_perm _ _ _ _ Hp) in I. unfold get_future in E. destruct (p_future p); [|done].
    injection E as <- <- <-. split; [split|done]; simpl; [|done]. eapply inv_same_token, I. done.
  - by eapply good_then.
  - destruct h as [c|]; [|done]. unfold catched in E.
    pose proof (good_create_register c st ps (λ n, (SCatched void n, FCatched void f n)) ltac:(done) I Hv Hh) as G.
    by injection E as <- <-.
  - destruct h as [c|]; [|done]. unfold finally in E.
    pose proof (good_create_register c st ps (λ n, (SFinally void f n, FFinally f n)) ltac:(done) I Hv Hh) as G.
    by injection E as <- <-.
  - by apply good_make_ready.
Qed.

Lemma sys_inv_init : sys_inv sys_init.
Proof.
  split; [|by constructor]. split; simpl; try done.
  - by intros c f ?%elem_of_nil.
  - by intros c f ?%elem_of_nil.
Qed.

Lemma sys_inv_steps s s' : sys_inv s → rtc sys_step s s' → sys_inv s' ∧ extends s.1 s'.1.
Proof.
  intros I Hs. induction Hs as [s|s1 s2 s3 H12 _ IH]; [done|].
  destruct (sys_step_good _ _ I H12) as [I2 X]. destruct (IH I2) as [I3 X']. split; [done|]. by etrans.
Qed.

Lemma reachable_inv s : reachable s → sys_inv s.
Proof. intros H. by destruct (sys_inv_steps _ _ sys_inv_init H). Qed.

(** Who can still settle [c]: promises whose completion is pending and
    success callbacks in the queues. *)
Definition producers (c : nat) (s : state U * list promise) : nat :=
  occ c (concat ((λ k, starget <$> m_on_success_queue k) <$> ctrls s.1)) + occ c (concat (prtok <$> s.2)).

Lemma occ_quiet c g (cs : list (controller U)) :
  (∀ i k, cs !! i = Some k → c ≠ g i ∨ is_settled k = false) →
  (∀ i k, cs !! i = Some k → is_settled k = true → m_on_success_queue k = [] ∧ m_on_fail_queue k = []) →
  occ c (concat (imap (λ i, ctok (g i)) cs)) = occ c (concat ((λ k, starget <$> m_on_success_queue k) <$> cs)).
Proof.
  revert g. induction cs as [|k cs IH]; intros g Hc Hq; [done|]. simpl.
  rewrite !occ_app. specialize (IH (g ∘ S) (λ i, Hc (S i)) (λ i, Hq (S i))).
  change (imap _ cs) with (imap (λ i, ctok ((g ∘ S) i)) cs). rewrite IH. f_equal.
  pose proof (Hc 0 k eq_refl) as Hc0. pose proof (Hq 0 k eq_refl) as Hq0.
  unfold ctok, active. destruct (is_settled k) eqn:Es.
  - destruct (Hq0 eq_refl) as [-> ->]. destruct Hc0 as [Hne|]; [|done].
    destruct (m_val_state k), (m_exception k); simpl; rewrite occ_cons, decide_False; done.
  - unfold is_settled in Es. destruct (m_val_state k), (m_exception k); simpl in *; done.
Qed.

(** ** Termination of the pool *)
Definition sweight (f : succ_cb U) : nat :=
  match f with SFlatten _ _ | SFinally _ _ _ => 9 | _ => 3 end.
Definition fweight (f : fail_cb U) : nat := match f with FProp _ | FAdopt _ => 3 | _ => 9 end.
Definition tweight (t : task U) : nat :=
  match t with TCallSuccess _ f => sweight f | TCallFail _ f => fweight f | _ => 1 end.
Definition qweight k : nat :=
  sum_list (sweight <$> m_on_success_queue k) + sum_list (fweight <$> m_on_fail_queue k).

(** What the posted tasks and the queued callbacks can still cost. *)
Definition measure st : nat := sum_list (qweight <$> ctrls st) + sum_list (tweight <$> pool st).

Lemma sum_list_app (l1 l2 : list nat) : sum_list (l1 ++ l2) = sum_list l1 + sum_list l2.
Proof. induction l1; simpl; lia. Qed.

Lemma qsum_alter c f (cs : list (controller U)) n :
  (∀ k, cs !! c = Some k → qweight (f k) ≤ qweight k + n) →
  sum_list (qweight <$> alter f c cs) ≤ sum_list (qweight <$> cs) + n.
Proof.
  revert c. induction cs as [|k cs IH]; intros [|c] H; [simpl; lia|simpl; lia| |].
  - simpl. specialize (H k eq_refl). lia.
  - specialize (IH c H). change (alter f (S c) (k :: cs)) with (k :: alter f c cs).
    rewrite !fmap_cons. cbn [sum_list_with]. lia.
Qed.

Lemma qsum_alter_lt c f (cs : list (controller U)) k n :
  cs !! c = Some k → qweight (f k) + n = qweight k →
  sum_list (qweight <$> alter f c cs) + n = sum_list (qweight <$> cs).
Proof.
  revert c. induction cs as [|k' cs IH]; intros [|c] Hk H; [done|done| |].
  - injection Hk as ->. simpl. lia.
  - specialize (IH c Hk H). change (alter f (S c) (k' :: cs)) with (k' :: alter f c cs).
    rewrite !fmap_cons. cbn [sum_list_with]. lia.
Qed.

Lemma measure_register c s f st :
  measure (set_on_success_and_fail c s f st) ≤ measure st + sweight s + fweight f + 2.
Proof.
  unfold measure. simpl. rewrite !fmap_app, !sum_list_app. simpl.
  pose proof (qsum_alter c (push_callbacks s f) (ctrls st) (sweight s + fweight f)) as H.
  enough (sum_list (qweight <$> alter (push_callbacks s f) c (ctrls st))
          ≤ sum_list (qweight <$> ctrls st) + (sweight s + fweight f)) by lia.
  apply H. intros k _. unfold qweight. simpl. rewrite !fmap_app, !sum_list_app. simpl. lia.
Qed.

Lemma measure_settle c g st vs :
  (∀ k, qweight (g k) = qweight k) →
  measure (State (alter g c (ctrls st)) vs ((pool st ++ [TProcessSuccess c]) ++ [TProcessFail c])) ≤ measure st + 2.
Proof.
  intros H. unfold measure. simpl. rewrite !fmap_app, !sum_list_app. simpl.
  pose proof (qsum_alter c g (ctrls st) 0) as Hq. specialize (Hq (λ k _, ltac:(rewrite H; lia))). lia.
Qed.

Lemma measure_set_exception c e st : measure (set_exception c e st) ≤ measure st + 2.
Proof. by apply (measure_settle c (put_exception e)). Qed.
Lemma measure_set_value_state c v st : measure (set_value_state c v st) ≤ measure st + 2.
Proof. by apply (measure_settle c (put_val_state v)). Qed.
Lemma measure_set_value c v st : measure (set_value c v st) ≤ measure st + 2.
Proof. apply (measure_set_value_state c _ (State (ctrls st) _ (pool st))). Qed.
Lemma measure_forward_value void c vs st : measure (forward_value void c vs st) ≤ measure st + 2.
Proof. destruct void; [apply measure_set_value|apply measure_set_value_state]. Qed.

Lemma measure_vals cs vs vs' p : measure (State cs vs p) = measure (State cs vs' p).
Proof. done. Qed.

Lemma measure_call_success c f st : measure (call_success c f st) < measure st + sweight f.
Proof.
  unfold call_success. destruct (ctrls st !! c ≫= m_val_state) as [vs|]; [|destruct f; simpl; lia].
  destruct f as [t ch|v ch|v ch|v ch|v t ch|v vs' ch|e ch]; simpl.
  - unfold exec_then_on_success. destruct (t _) as [v' r].
    rewrite (measure_vals _ (vals st) (<[vs:=v']> (vals st)) (pool st)) at 1 || idtac.
    destruct r; [pose proof (measure_set_value ch v (State (ctrls st) (<[vs:=v']> (vals st)) (pool st))) as H
                |pose proof (measure_set_exception ch e (State (ctrls st) (<[vs:=v']> (vals st)) (pool st))) as H
                |pose proof (measure_set_value ch (VFut c0) (State (ctrls st) (<[vs:=v']> (vals st)) (pool st))) as H];
      change (measure (State (ctrls st) (<[vs:=v']> (vals st)) (pool st))) with (measure st) in H; lia.
  - unfold exec_flatten. set (st' := State (ctrls st) _ (pool st)).
    change (measure st) with (measure st').
    destruct (default VVoid (vals st !! vs)) as [| |[ic|]];
      first [pose proof (measure_register ic (SAdopt v ch) (FAdopt ch) st'); simpl in *; lia
            |pose proof (measure_set_exception ch logic_error st'); lia].
  - pose proof (measure_forward_value v ch vs st). lia.
  - pose proof (measure_forward_value v ch vs st). lia.
  - unfold exec_finally_success. destruct (t tt) as [|e|[ic|]].
    + pose proof (measure_forward_value v ch vs st). lia.
    + pose proof (measure_set_exception ch e st). lia.
    + pose proof (measure_register ic (SFinallyValue v vs ch) (FProp ch) st). simpl in *. lia.
    + pose proof (measure_set_exception ch logic_error st). lia.
  - pose proof (measure_forward_value v ch vs' st). lia.
  - pose proof (measure_set_exception ch e st). lia.
Qed.

Lemma measure_call_fail c f st : measure (call_fail c f st) < measure st + fweight f.
Proof.
  unfold call_fail. destruct (ctrls st !! c ≫= m_exception) as [ep|]; [|destruct f; simpl; lia].
  destruct f as [ch|ch|v t ch|t ch]; simpl.
  - pose proof (measure_set_exception ch ep st). lia.
  - pose proof (measure_set_exception ch ep st). lia.
  - unfold exec_catched_fail. destruct (t ep) as [x|e|[ic|]].
    + pose proof (measure_set_value ch (if v then VVoid else x) st). lia.
    + pose proof (measure_set_exception ch e st). lia.
    + pose proof (measure_register ic (SAdopt v ch) (FAdopt ch) st). simpl in *. lia.
    + pose proof (measure_set_exception ch logic_error st). lia.
  - unfold exec_finally_fail. destruct (t tt) as [|e|[ic|]].
    + pose proof (measure_set_exception ch ep st). lia.
    + pose proof (measure_set_exception ch e st). lia.
    + pose proof (measure_register ic (SFinallyExn ep ch) (FProp ch) st). simpl in *. lia.
    + pose proof (measure_set_exception ch logic_error st). lia.
Qed.

Lemma tweight_call_s c (q : list (succ_cb U)) : tweight <$> (TCallSuccess c <$> q) = sweight <$> q.
Proof. by rewrite <- list_fmap_compose. Qed.
Lemma tweight_call_f c (q : list (fail_cb U)) : tweight <$> (TCallFail c <$> q) = fweight <$> q.
Proof. by rewrite <- list_fmap_compose. Qed.

Lemma measure_process_success c st : measure (process_success c st) ≤ measure st.
Proof.
  unfold process_success. destruct (ctrls st !! c) as [k|] eqn:Hk; [|lia].
  pose proof (qsum_alter_lt c clear_success _ k (sum_list (sweight <$> m_on_success_queue k)) Hk) as H.
  unfold qweight at 1 2 in H. simpl in H. specialize (H ltac:(lia)).
  destruct (m_val_state k), (m_exception k); unfold measure; simpl;
    rewrite ?fmap_app, ?sum_list_app, ?tweight_call_s; lia.
Qed.
Lemma measure_process_fail c st : measure (process_fail c st) ≤ measure st.
Proof.
  unfold process_fail. destruct (ctrls st !! c) as [k|] eqn:Hk; [|lia].
  pose proof (qsum_alter_lt c clear_fail _ k (sum_list (fweight <$> m_on_fail_queue k)) Hk) as H.
  unfold qweight at 1 2 in H. simpl in H. specialize (H ltac:(lia)).
  destruct (m_val_state k), (m_exception k); unfold measure; simpl;
    rewrite ?fmap_app, ?sum_list_app, ?tweight_call_f; lia.
Qed.

Lemma measure_run_task t st : measure (run_task t st) < measure st + tweight t.
Proof.
  destruct t; simpl.
  - pose proof (measure_process_success c st). lia.
  - pose proof (measure_process_fail c st). lia.
  - apply measure_call_success.
  - apply measure_call_fail.
Qed.

Lemma measure_take cs vs ts1 t ts2 :
  measure (State cs vs (ts1 ++ t :: ts2)) = measure (State cs vs (ts1 ++ ts2)) + tweight t.
Proof. unfold measure. simpl. rewrite !fmap_app, fmap_cons, !sum_list_app. simpl. lia. Qed.

Lemma pool_step_measure st st' : pool_step st st' → measure st' < measure st.
Proof.
  intros [ts1 t ts2 Hp]. pose proof (measure_run_task t (State (ctrls st) (vals st) (ts1 ++ ts2))).
  rewrite <- measure_take, <- Hp in H. by destruct st.
Qed.

Lemma drain_empties fuel st : measure st ≤ fuel → pool (drain fuel st) = [].
Proof.
  revert st. induction fuel as [|n IH]; intros [cs vs [|t ts]] Hf; simpl; try done.
  - unfold measure in Hf. simpl in Hf. destruct t as [| |? []|? []]; simpl in Hf; lia.
  - apply IH. pose proof (measure_run_task t (State cs vs ts)) as H.
    pose proof (measure_take cs vs [] t ts) as Ht. simpl in Ht. lia.
Qed.

(** ** Running one continuation on a settled, quiet controller *)
Definition quiet k : Prop := m_on_success_queue k = [] ∧ m_on_fail_queue k = [].

Lemma drain_cons n cs vs t ts : drain (S n) (State cs vs (t :: ts) : state U) = drain n (run_task t (State cs vs ts)).
Proof. done. Qed.

Lemma alter_thrice_id (g g' h : controller U → controller U) c k (cs : list (controller U)) :
  cs !! c = Some k → g (g' (h k)) = k → alter g c (alter g' c (alter h c cs)) = cs.
Proof.
  intros Hk E. apply list_eq. intros i. destruct (decide (i = c)) as [-> |Hne].
  - rewrite !list_lookup_alter_eq, Hk. simpl. by rewrite E.
  - by rewrite !list_lookup_alter_ne.
Qed.

Lemma drain_register c k s f n st :
  ctrls st !! c = Some k → is_settled k = true → ¬ (is_Some (m_val_state k) ∧ is_Some (m_exception k)) →
  quiet k → pool st = [] →
  drain (S (S n)) (set_on_success_and_fail c s f st)
    = drain n (State (ctrls st) (vals st)
                 [match m_val_state k with Some _ => TCallSuccess c s | None => TCallFail c f end]).
Proof.
  intros Hk Hs Hx [Hsq Hfq] Hp. destruct st as [cs vs p]. cbn [ctrls pool vals] in *. subst p.
  unfold set_on_success_and_fail, process_on_fail_async, process_on_success_async, update.
  cbn [ctrls pool vals]. rewrite two_posts. cbn [app]. rewrite drain_cons. cbn [run_task].
  destruct k as [sq fq mv me]. simpl in Hsq, Hfq. subst sq fq.
  set (calls := match mv with Some _ => [TCallSuccess c s] | None => [] end).
  assert (process_success c (State (alter (push_callbacks s f) c cs) vs [TProcessFail c])
          = State (alter clear_success c (alter (push_callbacks s f) c cs)) vs (TProcessFail c :: calls)) as ->.
  { unfold process_success. cbn [ctrls]. rewrite list_lookup_alter_eq, Hk. by destruct mv, me. }
  rewrite drain_cons. cbn [run_task]. unfold process_fail. cbn [ctrls].
  rewrite !list_lookup_alter_eq, Hk. cbn -[drain].
  assert (alter clear_fail c (alter clear_success c (alter (push_callbacks s f) c cs)) = cs) as Eid.
  { by apply (alter_thrice_id _ _ _ _ _ _ Hk). }
  unfold update. destruct mv as [v|], me as [e|]; cbn -[drain]; rewrite ?Eid; try done;
    exfalso; first [by apply Hx; simpl; eauto|by unfold is_settled in Hs].
Qed.

(** The two process tasks of a settled controller without callbacks. *)
Lemma drain_settled n c k cs vs :
  cs !! c = Some k → quiet k →
  drain (S (S n)) (State cs vs [TProcessSuccess c; TProcessFail c] : state U) = State cs vs [].
Proof.
  intros Hk [Hsq Hfq]. destruct k as [sq fq mv me]. simpl in Hsq, Hfq. subst sq fq.
  assert (∀ m, drain m (State cs vs [] : state U) = State cs vs []) as Hd by (by intros []).
  assert (alter clear_success c cs = cs ∧ alter clear_fail c cs = cs) as [Es Ef].
  { split; apply list_eq; intros i; (destruct (decide (i = c)) as [-> |Hne];
      [by rewrite list_lookup_alter_eq, Hk|by rewrite list_lookup_alter_ne]). }
  rewrite drain_cons. cbn [run_task].
  assert (process_success c (State cs vs [TProcessFail c] : state U) = State cs vs [TProcessFail c]) as ->.
  { unfold process_success. cbn [ctrls]. rewrite Hk. unfold update. destruct mv, me; cbn; by rewrite ?Es. }
  rewrite drain_cons. cbn [run_task].
  assert (process_fail c (State cs vs [] : state U) = State cs vs []) as ->.
  { unfold process_fail. cbn [ctrls]. rewrite Hk. unfold update. destruct mv, me; cbn; by rewrite ?Ef. }
  apply Hd.
Qed.

#[local] Arguments drain : simpl never.

Definition fwd (void : bool) (v : value U) : value U := if void then VVoid else v.

(** What a child future must hold, from the outcome of its parent.  [adopt]
    is the outcome of a future a callback returned. *)
Definition then_spec (f : value U → value U * cres U) (o : settled U) : settled U :=
  match o with
  | Pending => Pending
  | HasExn e => HasExn e
  | HasValue v =>
      match (f v).2 with CRet x => HasValue x | CThrow e => HasExn e | CFut h => HasValue (VFut h) end
  end.
Definition adopt_spec (void : bool) (o : settled U) : settled U :=
  match o with HasValue v => HasValue (fwd void v) | _ => o end.
Definition catched_spec st (void : bool) (f : exn → cres U) (o : settled U) : settled U :=
  match o with
  | Pending => Pending
  | HasValue v => HasValue (fwd void v)
  | HasExn e =>
      match f e with
      | CRet x => HasValue (fwd void x)
      | CThrow e' => HasExn e'
      | CFut None => HasExn logic_error
      | CFut (Some ic) => adopt_spec void (outcome_of ic st)
      end
  end.
Definition finally_spec st (void : bool) (f : unit → fres) (o : settled U) : settled U :=
  match f tt with
  | FRet => adopt_spec void o
  | FThrow e => HasExn e
  | FFut None => HasExn logic_error
  | FFut (Some ic) => match outcome_of ic st with HasExn e => HasExn e | _ => adopt_spec void o end
  end.

Lemma out_set_value_state m n vs st :
  ctrls st !! n = Some fresh_controller → pool st = [] →
  outcome_of n (drain (S (S m)) (set_value_state n vs st)) = HasValue (default VVoid (vals st !! vs)).
Proof.
  intros Hn Hp. destruct st as [cs vl p]. cbn [ctrls pool vals] in *. subst p.
  unfold set_value_state, process_on_fail_async, process_on_success_async, update. cbn [ctrls vals pool].
  rewrite two_posts. cbn [app]. rewrite (drain_settled m n (put_val_state vs fresh_controller)).
  - unfold outcome_of. cbn [ctrls vals]. by rewrite list_lookup_alter_eq, Hn.
  - by rewrite list_lookup_alter_eq, Hn.
  - done.
Qed.

Lemma out_set_value m n v st :
  ctrls st !! n = Some fresh_controller → pool st = [] →
  outcome_of n (drain (S (S m)) (set_value n v st)) = HasValue v.
Proof.
  intros Hn Hp. unfold set_value. rewrite out_set_value_state by done. cbn [vals].
  by rewrite list_lookup_middle.
Qed.

Lemma out_forward m n void vs st :
  ctrls st !! n = Some fresh_controller → pool st = [] →
  outcome_of n (drain (S (S m)) (forward_value void n vs st)) = HasValue (fwd void (default VVoid (vals st !! vs))).
Proof. intros. destruct void; [by apply out_set_value|by apply out_set_value_state]. Qed.

Lemma out_set_exception m n e st :
  ctrls st !! n = Some fresh_controller → pool st = [] →
  outcome_of n (drain (S (S m)) (set_exception n e st)) = HasExn e.
Proof.
  intros Hn Hp. destruct st as [cs vl p]. cbn [ctrls pool vals] in *. subst p.
  unfold set_exception, process_on_fail_async, process_on_success_async, update. cbn [ctrls vals pool].
  rewrite two_posts. cbn [app]. rewrite (drain_settled m n (put_exception e fresh_controller)).
  - unfold outcome_of. cbn [ctrls vals]. by rewrite list_lookup_alter_eq, Hn.
  - by rewrite list_lookup_alter_eq, Hn.
  - done.
Qed.

(** Controllers that have settled and have no callback left. *)
Definition done_ctrl st (c : nat) : Prop :=
  ∃ k, ctrls st !! c = Some k ∧ is_settled k = true ∧
       ¬ (is_Some (m_val_state k) ∧ is_Some (m_exception k)) ∧ quiet k.

(** The callback that runs for a settled controller, then the rest. *)
Lemma drain_done m c s f st :
  done_ctrl st c → pool st = [] →
  drain (S (S (S m))) (set_on_success_and_fail c s f st)
    = drain m (match outcome_of c st with
               | HasValue _ => call_success c s st
               | _ => call_fail c f st
               end).
Proof.
  intros (k & Hk & Hs & Hx & Hq) Hp. rewrite (drain_register c k) by done.
  destruct st as [cs vl p]. cbn [ctrls vals pool] in *. subst p. unfold outcome_of. cbn [ctrls vals]. rewrite Hk.
  unfold is_settled in Hs. destruct (m_val_state k), (m_exception k); done.
Qed.

(** A callback returned a settled future: its outcome is taken over. *)
Lemma out_adopt m ic s f st n o :
  f = FProp n ∨ f = FAdopt n → done_ctrl st ic → ctrls st !! n = Some fresh_controller → pool st = [] →
  (∀ v, outcome_of ic st = HasValue v →
        outcome_of n (drain (S (S m)) (call_success ic s st)) = o) →
  (∀ e, outcome_of ic st = HasExn e → o = HasExn e) →
  outcome_of n (drain (S (S (S (S (S m))))) (set_on_success_and_fail ic s f st)) = o.
Proof.
  intros Hf Hd Hn Hp Hv He. rewrite (drain_done _ ic) by done.
  destruct (outcome_of ic st) as [|v|e] eqn:Ho.
  - destruct Hd as (k & Hk & Hs & _). unfold outcome_of in Ho. rewrite Hk in Ho. unfold is_settled in Hs.
    destruct (m_val_state k), (m_exception k); done.
  - eauto.
  - rewrite (He e) by done. unfold call_fail. destruct Hd as (k & Hk & _). unfold outcome_of in Ho.
    rewrite Hk in *. destruct (m_val_state k), (m_exception k) as [e'|] eqn:Ee; simplify_eq.
    simpl. rewrite Ee. destruct Hf as [-> | ->]; by apply out_set_exception.
Qed.

(** The states after [create_controller], for a done parent. *)
Lemma done_create st c : done_ctrl st c → done_ctrl (create_controller st).2 c.
Proof. intros (k & Hk & ?). exists k. split; [by apply lookup_app_l_Some|done]. Qed.

Lemma outcome_create st c : done_ctrl st c → outcome_of c (create_controller st).2 = outcome_of c st.
Proof. intros (k & Hk & ?). unfold outcome_of. simpl. by rewrite Hk, (lookup_app_l_Some _ _ _ _ Hk). Qed.

Lemma fresh_create st : ctrls (create_controller st).2 !! (create_controller st).1 = Some fresh_controller.
Proof. simpl. by rewrite list_lookup_middle. Qed.

Lemma done_outcome st c :
  done_ctrl st c →
  (∃ vs, ctrls st !! c ≫= m_val_state = Some vs ∧ outcome_of c st = HasValue (default VVoid (vals st !! vs))) ∨
  (∃ e, ctrls st !! c ≫= m_exception = Some e ∧ outcome_of c st = HasExn e).
Proof.
  intros (k & Hk & Hs & Hx & _). unfold outcome_of. rewrite Hk. simpl. unfold is_settled in Hs.
  destruct (m_val_state k) as [vs|], (m_exception k) as [e|]; simpl in *; try done; eauto.
Qed.

Lemma then_out c f st :
  done_ctrl st c → pool st = [] →
  ∃ n st', then_ (Some c) None f st = Ok n st' ∧
           outcome_of n (drain 5 st') = then_spec f (outcome_of c st).
Proof.
  intros Hd Hp. eexists _, _. split; [reflexivity|]. set (st1 := State _ _ _).
  pose proof (done_create _ _ Hd : done_ctrl st1 c) as Hd1. rewrite drain_done by done.
  pose proof (fresh_create st : ctrls st1 !! length (ctrls st) = _) as Hf.
  rewrite <- (outcome_create st c Hd : outcome_of c st1 = _).
  destruct (done_outcome _ _ Hd1) as [(vs & Hvs & ->)|(e & He & ->)].
  - unfold call_success, then_spec. rewrite Hvs. unfold exec_then_on_success.
    destruct (f _) as [v' []]; simpl; [apply out_set_value|apply out_set_exception|apply out_set_value]; done.
  - unfold call_fail. rewrite He. by apply out_set_exception.
Qed.

Lemma catched_out c void f st :
  done_ctrl st c → pool st = [] → (∀ e ic, f e = CFut (Some ic) → done_ctrl st ic) →
  ∃ n st', catched (Some c) void f st = Ok n st' ∧
           outcome_of n (drain 8 st') = catched_spec st void f (outcome_of c st).
Proof.
  intros Hd Hp Hic. eexists _, _. split; [reflexivity|]. set (st1 := State _ _ _).
  pose proof (done_create _ _ Hd : done_ctrl st1 c) as Hd1. rewrite drain_done by done.
  pose proof (fresh_create st : ctrls st1 !! length (ctrls st) = _) as Hf.
  rewrite <- (outcome_create st c Hd : outcome_of c st1 = _).
  destruct (done_outcome _ _ Hd1) as [(vs & Hvs & ->)|(e & He & ->)].
  - unfold call_success. rewrite Hvs. by apply out_forward.
  - unfold call_fail, exec_catched_fail. rewrite He. simpl. destruct (f e) as [x|e'|[ic|]] eqn:Ef.
    + by apply out_set_value.
    + by apply out_set_exception.
    + specialize (Hic _ _ Ef). pose proof (done_create _ _ Hic : done_ctrl st1 ic) as Hic1.
      rewrite <- (outcome_create st ic Hic : outcome_of ic st1 = _).
      apply out_adopt; [eauto|done|done|done| |by intros e0 ->].
      intros v Hv. destruct (done_outcome _ _ Hic1) as [(vs & Hvs & Ho)|(e' & He' & Ho)]; [|congruence].
      rewrite Ho. unfold call_success. rewrite Hvs. by apply out_forward.
    + by apply out_set_exception.
Qed.

Lemma finally_out c void f st :
  done_ctrl st c → pool st = [] → (∀ ic, f tt = FFut (Some ic) → done_ctrl st ic) →
  ∃ n st', finally (Some c) void f st = Ok n st' ∧
           outcome_of n (drain 8 st') = finally_spec st void f (outcome_of c st).
Proof.
  intros Hd Hp Hic. eexists _, _. split; [reflexivity|]. set (st1 := State _ _ _).
  pose proof (done_create _ _ Hd : done_ctrl st1 c) as Hd1. rewrite drain_done by done.
  pose proof (fresh_create st : ctrls st1 !! length (ctrls st) = _) as Hf.
  rewrite <- (outcome_create st c Hd : outcome_of c st1 = _).
  unfold finally_spec.
  destruct (done_outcome _ _ Hd1) as [(vs & Hvs & ->)|(e & He & ->)];
    [unfold call_success, exec_finally_success; rewrite Hvs|unfold call_fail, exec_finally_fail; rewrite He];
    (destruct (f tt) as [|e'|[ic|]] eqn:Ef;
       [try by apply out_forward|by apply out_set_exception| |by apply out_set_exception]).
  - specialize (Hic _ eq_refl). pose proof (done_create _ _ Hic : done_ctrl st1 ic) as Hic1.
    rewrite <- (outcome_create st ic Hic : outcome_of ic st1 = _).
    apply out_adopt; [eauto|done|done|done| |by intros e0 ->].
    intros v Hv. destruct (done_outcome _ _ Hic1) as [(vs' & Hvs' & Ho)|(e' & He' & Ho)]; [|congruence].
    rewrite Ho. unfold call_success. rewrite Hvs'. by apply out_forward.
  - by apply out_set_exception.
  - specialize (Hic _ eq_refl). pose proof (done_create _ _ Hic : done_ctrl st1 ic) as Hic1.
    rewrite <- (outcome_create st ic Hic : outcome_of ic st1 = _).
    apply out_adopt; [eauto|done|done|done| |by intros e0 ->].
    intros v Hv. destruct (done_outcome _ _ Hic1) as [(vs' & Hvs' & Ho)|(e' & He' & Ho)]; [|congruence].
    rewrite Ho. unfold call_success. rewrite Hvs'. by apply out_set_exception.
Qed.

(** With an empty pool, settled controllers have delivered everything. *)
Lemma quiescent_quiet st ps c k :
  sys_inv (st, ps) → pool st = [] → ctrls st !! c = Some k → is_settled k = true → quiet k.
Proof.
  intros [I _] Hp Hk Hs. simpl in I. split.
  - destruct (m_on_success_queue k) eqn:E; [done|]. exfalso.
    assert (TProcessSuccess c ∈ pool st) as Hin by (eapply (inv_proc_s _ _ _ I); eauto; by rewrite E).
    rewrite Hp in Hin. by apply elem_of_nil in Hin.
  - destruct (m_on_fail_queue k) eqn:E; [done|]. exfalso.
    assert (TProcessFail c ∈ pool st) as Hin by (eapply (inv_proc_f _ _ _ I); eauto; by rewrite E).
    rewrite Hp in Hin. by apply elem_of_nil in Hin.
Qed.

Lemma quiescent_done st ps c k :
  sys_inv (st, ps) → pool st = [] → ctrls st !! c = Some k → is_settled k = true → done_ctrl st c.
Proof.
  intros I Hp Hk Hs. exists k. split_and!; [done|done| |by eapply quiescent_quiet].
  destruct I as [I _]. by apply (inv_excl _ _ _ I c k).
Qed.

Lemma quiescent_producer st ps c k :
  sys_inv (st, ps) → pool st = [] → ctrls st !! c = Some k → is_settled k = false → producers c (st, ps) = 1.
Proof.
  intros S Hp Hk Hs. pose proof S as [I _]. simpl in I. pose proof (inv_tok _ _ _ I c) as Ht.
  unfold tokens, hole_tok in Ht. rewrite Hp in Ht. unfold producers. simpl.
  rewrite decide_False in Ht by done.
  rewrite (decide_True (P := c < length (ctrls st))) in Ht by (by eapply lookup_lt_Some).
  change (imap ctok (ctrls st)) with (imap (λ i, ctok (id i)) (ctrls st)) in Ht.
  rewrite occ_quiet in Ht.
  - simpl in Ht. rewrite occ_nil in Ht. lia.
  - intros i k' Hk'. destruct (decide (c = i)) as [-> |]; [right; congruence|by left].
  - intros i k' Hk' Hs'. by destruct (quiescent_quiet st ps i k' S Hp Hk' Hs').
Qed.

(** A promise whose completion is pending names an unsettled controller. *)
Lemma promise_pending_fresh st p ps c :
  sys_inv (st, p :: ps) → p_controller p = Some c → m_completion_pending p = true →
  ∃ k, ctrls st !! c = Some k ∧ is_settled k = false.
Proof.
  intros [I _] Hc Hpend. apply (inv_hole_fresh c st (Promise (Some c) (p_future p) false :: ps)).
  eapply inv_claim, I; [|done]. unfold prtok. by rewrite Hc, Hpend.
Qed.

Lemma outcome_set_value c k v st :
  ctrls st !! c = Some k → is_settled k = false → outcome_of c (set_value c v st) = HasValue v.
Proof.
  intros Hk Hs. unfold outcome_of. simpl. rewrite list_lookup_alter_eq, Hk. simpl. by rewrite list_lookup_middle.
Qed.
Lemma outcome_set_exception c k e st :
  ctrls st !! c = Some k → is_settled k = false → outcome_of c (set_exception c e st) = HasExn e.
Proof.
  intros Hk Hs. unfold outcome_of. simpl. rewrite list_lookup_alter_eq, Hk. simpl.
  unfold is_settled in Hs. destruct (m_val_state k); done.
Qed.

(** [get] agrees with the outcome. *)
Lemma future_get_outcome c k st :
  ctrls st !! c = Some k → ¬ (is_Some (m_val_state k) ∧ is_Some (m_exception k)) →
  future_get (Some c) st =
    match outcome_of c st with
    | Pending => Ok None st
    | HasValue _ => Ok (Some c) st
    | HasExn e => Throw e st
    end.
Proof.
  intros Hk Hx. unfold future_get, is_ready, has_value, has_exception, outcome_of. rewrite Hk. simpl.
  destruct (m_val_state k), (m_exception k); simpl; try done. exfalso. eauto.
Qed.
End facts.

(** C11: in every state that application threads and pool workers can reach, no
    future holds both a value and an exception, [get] agrees with what it holds
    (blocking, returning or rethrowing), and a future that has settled keeps its
    value state and its exception for ever. *)
Theorem future_settles_once {U} (s s' : state U * list promise) c k :
  reachable s → ctrls s.1 !! c = Some k →
  ¬ (is_Some (m_val_state k) ∧ is_Some (m_exception k)) ∧
  future_get (Some c) s.1 =
    match outcome_of c s.1 with
    | Pending => Ok None s.1
    | HasValue _ => Ok (Some c) s.1
    | HasExn e => Throw e s.1
    end ∧
  (is_settled k = true → rtc sys_step s s' →
   ∃ k', ctrls s'.1 !! c = Some k' ∧ m_val_state k' = m_val_state k ∧ m_exception k' = m_exception k).
Proof.
  intros Hr Hk. pose proof (reachable_inv _ Hr) as I.
  assert (¬ (is_Some (m_val_state k) ∧ is_Some (m_exception k))) as Hx.
  { destruct I as [I _]. by apply (inv_excl _ _ _ I c k). }
  split_and!; [done| |].
  - by eapply future_get_outcome.
  - intros Hs Hst. destruct (sys_inv_steps _ _ I Hst) as [_ [_ X]]. eauto.
Qed.

(** C12: when the pool has nothing left to run, a settled future has no callback
    left in its queues, and a future that is not settled has exactly one
    producer: a promise that can still complete it, or one callback queued in
    some controller.  No callback is lost and none can settle a future twice. *)
Theorem future_one_producer {U} (s : state U * list promise) c k :
  reachable s → pool s.1 = [] → ctrls s.1 !! c = Some k →
  (is_settled k = true → m_on_success_queue k = [] ∧ m_on_fail_queue k = []) ∧
  (is_settled k = false → producers c s = 1).
Proof.
  intros Hr Hp Hk. pose proof (reachable_inv _ Hr) as I. destruct s as [st ps]. split; intros Hs.
  - by eapply quiescent_quiet.
  - by eapply quiescent_producer.
Qed.

(** C13: the pool never runs for ever: whatever order the workers take the tasks
    in, there is no infinite sequence of steps, and a worker that takes them in
    posting order empties the pool within [measure] steps. *)
Theorem pool_terminates {U} (st : state U) :
  Acc (λ a b, pool_step b a) st ∧ pool (drain (measure st) st) = [].
Proof.
  split; [|by apply drain_empties].
  assert (∀ n st, measure st < n → Acc (λ a b : state U, pool_step b a) st) as H.
  { induction n as [|n IH]; intros st0 Hn; [lia|]. constructor. intros st1 Hst.
    apply IH. apply pool_step_measure in Hst. lia. }
  eapply H, Nat.lt_succ_diag_r.
Qed.

(** C14: [then], [catched] and [finally] on a settled future, with an idle pool,
    give a future that settles as their contract says: a value goes through the
    [then] callback and past [catched], an exception goes past [then] and through
    [catched], [finally] keeps both unless its callback throws or its future
    fails; a returned future is adopted and an invalid one is a logic error. *)
Theorem continuation_outcomes {U} (s : state U * list promise) c k :
  reachable s → pool s.1 = [] → ctrls s.1 !! c = Some k → is_settled k = true →
  (∀ f, ∃ n st', then_ (Some c) None f s.1 = Ok n st' ∧
     outcome_of n (drain 5 st') = then_spec f (outcome_of c s.1)) ∧
  (∀ void f, (∀ e ic, f e = CFut (Some ic) → done_ctrl s.1 ic) →
     ∃ n st', catched (Some c) void f s.1 = Ok n st' ∧
       outcome_of n (drain 8 st') = catched_spec s.1 void f (outcome_of c s.1)) ∧
  (∀ void f, (∀ ic, f tt = FFut (Some ic) → done_ctrl s.1 ic) →
     ∃ n st', finally (Some c) void f s.1 = Ok n st' ∧
       outcome_of n (drain 8 st') = finally_spec s.1 void f (outcome_of c s.1)).
Proof.
  intros Hr Hp Hk Hs. destruct s as [st ps]. simpl in *.
  assert (done_ctrl st c) as Hd by (by eapply quiescent_done; [apply reachable_inv, Hr| | |]).
  split_and!; intros; [by apply then_out|by apply catched_out|by apply finally_out].
Qed.

(** A promise completes its future exactly once: while completion is pending
    the future is unsettled, setting a value or an exception settles it, further
    attempts throw [promise_already_satisfied], and destroying the promise
    instead settles the future with [broken_promise]. *)
Theorem promise_completes_once {U} (st : state U) p ps c v e :
  reachable (st, p :: ps) → p_controller p = Some c → m_completion_pending p = true →
  outcome_of c st = Pending ∧
  (∃ p' st', promise_set_value p v st = Ok p' st' ∧ outcome_of c st' = HasValue v ∧
     promise_set_value p' v st' = Throw promise_already_satisfied st' ∧
     promise_set_exception p' (Some e) st' = Throw promise_already_satisfied st' ∧ (abandon p' st').2 = st') ∧
  (∃ p' st', promise_set_exception p (Some e) st = Ok p' st' ∧ outcome_of c st' = HasExn e ∧
     promise_set_value p' v st' = Throw promise_already_satisfied st') ∧
  outcome_of c (abandon p st).2 = HasExn broken_promise.
Proof.
  intros Hr Hc Hpend.
  destruct (promise_pending_fresh st p ps c (reachable_inv _ Hr) Hc Hpend) as (k & Hk & Hs).
  destruct p as [pc pf []]; simplify_eq/=. unfold promise_set_value, promise_set_exception, claim_completion.
  simpl. split_and!.
  - unfold outcome_of. rewrite Hk. unfold is_settled in Hs. by destruct (m_val_state k), (m_exception k).
  - eexists _, _. split_and!; [done|by eapply outcome_set_value|done..].
  - eexists _, _. split_and!; [done|by eapply outcome_set_exception|done..].
  - by eapply outcome_set_exception.
Qed.

(** ** Concrete runs *)

(** A promise is created, completed with 7, and the pool runs dry. *)
Definition completed_run : state nat * list promise :=
  (State [Controller [] [] (Some 0) None] [VVal 7] [], [Promise (Some 0) (Some 0) false]).

Lemma completed_run_reachable : reachable completed_run.
Proof.
  unfold reachable, sys_init.
  eapply rtc_l; [apply sys_promise|].
  eapply rtc_l; [eapply (sys_set_value _ _ _ [] (VVal 7)); [done|done|reflexivity]|].
  eapply rtc_l; [eapply (sys_pool _ _ [] (TProcessSuccess 0)); [reflexivity|done]|].
  eapply rtc_l; [eapply (sys_pool _ _ [] (TProcessFail 0)); [reflexivity|done]|].
  apply rtc_refl.
Qed.

(** A promise with a [then] continuation registered, and an idle pool. *)
Definition waiting_run : state nat * list promise :=
  (State [Controller [SThen (λ v, (v, CRet v)) 1] [FProp 1] None None; fresh_controller] [] [],
   [Promise (Some 0) (Some 0) true]).

Lemma waiting_run_reachable : reachable waiting_run.
Proof.
  unfold reachable, sys_init.
  eapply rtc_l; [apply sys_promise|].
  eapply rtc_l; [eapply (sys_then _ _ (Some 0) None (λ v, (v, CRet v))); [|reflexivity]; simpl; lia|].
  eapply rtc_l; [eapply (sys_pool _ _ [] (TProcessSuccess 0)); [reflexivity|done]|].
  eapply rtc_l; [eapply (sys_pool _ _ [] (TProcessFail 0)); [reflexivity|done]|].
  apply rtc_refl.
Qed.

Lemma future_settles_once_witness :
  ∃ k', ctrls completed_run.1 !! 0 = Some k' ∧ m_val_state k' = Some 0 ∧ m_exception k' = None.
Proof.
  exact (proj2 (proj2 (future_settles_once completed_run completed_run 0 (Controller [] [] (Some 0) None)
                  completed_run_reachable eq_refl)) eq_refl (rtc_refl _ _)).
Defined.

Lemma future_one_producer_witness : producers 1 waiting_run = 1.
Proof.
  exact (proj2 (future_one_producer waiting_run 1 fresh_controller waiting_run_reachable eq_refl eq_refl) eq_refl).
Defined.

Lemma continuation_outcomes_witness :
  ∃ n st', then_ (Some 0) None (λ v, (v, CThrow (user_exn 1))) completed_run.1 = Ok n st' ∧
           outcome_of n (drain 5 st') = HasExn (user_exn 1).
Proof.
  exact (proj1 (continuation_outcomes completed_run 0 (Controller [] [] (Some 0) None)
                  completed_run_reachable eq_refl eq_refl eq_refl) (λ v, (v, CThrow (user_exn 1)))).
Defined.

Lemma promise_completes_once_witness :
  outcome_of 0 (abandon (Promise (Some 0) (Some 0) true) waiting_run.1).2 = HasExn broken_promise.
Proof.
  exact (proj2 (proj2 (proj2 (promise_completes_once waiting_run.1 (Promise (Some 0) (Some 0) true) [] 0 VVoid
                                logic_error waiting_run_reachable eq_refl eq_refl)))).
Defined.
