(* ===== verification/FutureLife.v ===== *)
(** * Who keeps the controllers of futures alive

    Adds ownership to the model of futures: [create_child_controller] and its
    aliasing pointers, [add_value_source], [add_dependent], the weak pointers
    that callbacks lock, [fvalue] and [locked_fvalue] with the mutex that a
    reference shares with the value it refers to, and destruction when the
    last strong pointer goes.

    A tree of controllers has one control block: the root is made by
    [make_shared], a child is owned by its parent and its pointers share the
    parent's block.  Every strong pointer is listed with the object it keeps;
    an object that no pointer keeps may be destroyed at any later time, and a
    weak pointer to it is expired at once.

    A value may be a reference: into the value of another future, or to an
    object of the application, which the futures do not keep. *)
From S2P Require Import Prelude Future FutureFacts.
Import Future.
Local Open Scope nat_scope.

Module FutureLife.

(** What strong pointers keep: the control block of a tree of controllers,
    named by its root, or a [future_value_state]. *)
Inductive obj : Type := Block (root : nat) | ValueState (vs : nat).
#[export] Instance obj_eq_dec : EqDecision obj.
Proof. solve_decision. Defined.

(** The members that own: [owner] gives the control block of a controller and
    [m_mtx] the mutex of a value state.  [refers] gives for a reference that a
    callback returned the value state the callback was given, whose mutex it
    shares; the reference goes into that value unless [outside] names the object
    of the application it goes to.  [ref_results] are the controllers whose
    callback returns a reference, with whether the future of the callback is
    [void], so that the callback is given no value. *)
Record ownership : Type := Own {
  owner : list nat;
  m_value_source : gmap nat nat;
  m_dependent : list (nat * nat);
  m_mtx : list nat;
  refers : gmap nat nat;
  outside : gmap nat nat;
  ref_results : gmap nat bool
}.

Definition owner_of (w : ownership) (c : nat) : nat := default c (owner w !! c).
Definition block (w : ownership) (c : nat) : obj := Block (owner_of w c).
Definition mutex_of (w : ownership) (vs : nat) : nat := default vs (m_mtx w !! vs).

(** What the application holds: promises, futures and [fvalue]s (strong
    pointers to controllers), [locked_fvalue]s with their value states, and
    objects of its own that exist. *)
Record app : Type := App {
  promises : list promise;
  handles : list nat;
  locked : list (nat * nat);
  objects : gset nat
}.

Section life.
Context {U : Type}.
Implicit Types (st : state U) (w : ownership).

Record life : Type := Life { base : state U; own : ownership; held_by_app : app; gone : list obj }.

(** ** Strong pointers *)

(** The captures of a callback. *)
Definition succ_captures w (f : succ_cb U) : list obj :=
  match f with
  | SAdopt _ child => [block w child]
  | SFinallyValue false vs _ => [ValueState vs]
  | _ => []
  end.
Definition fail_captures w (f : fail_cb U) : list obj :=
  match f with FAdopt child => [block w child] | _ => [] end.

(** The members of a controller. *)
Definition controller_pointers w (c : nat) (k : controller U) : list obj :=
  (ValueState <$> option_list (m_val_state k)) ++
  concat (succ_captures w <$> m_on_success_queue k) ++
  concat (fail_captures w <$> m_on_fail_queue k) ++
  (block w <$> option_list (m_value_source w !! c)) ++
  (block w ∘ snd <$> filter (λ p, p.1 = c) (m_dependent w)).

(** A stored value owns the future it is. *)
Definition value_futures (v : value U) : list nat :=
  match v with VFut (Some c) => [c] | _ => [] end.
Definition value_pointers w (v : value U) : list obj := block w <$> value_futures v.

(** A posted task captures its controller and the callback. *)
Definition task_pointers w (t : task U) : list obj :=
  match t with
  | TProcessSuccess c | TProcessFail c => [block w c]
  | TCallSuccess c f => block w c :: succ_captures w f
  | TCallFail c f => block w c :: fail_captures w f
  end.

Definition promise_pointers w (p : promise) : list obj :=
  (block w <$> option_list (p_controller p)) ++ (block w <$> option_list (p_future p)).
Definition locked_pointers w (l : nat * nat) : list obj := [block w l.1; ValueState l.2].
Definition app_pointers w (a : app) : list obj :=
  concat (promise_pointers w <$> promises a) ++ (block w <$> handles a) ++
  concat (locked_pointers w <$> locked a).

(** All strong pointers: members of destroyed objects are gone with them. *)
Definition pointers (L : life) : list obj :=
  app_pointers (own L) (held_by_app L) ++
  concat (task_pointers (own L) <$> pool (base L)) ++
  concat (imap (λ c k, if decide (block (own L) c ∈ gone L) then []
                       else controller_pointers (own L) c k) (ctrls (base L))) ++
  concat (imap (λ vs v, if decide (ValueState vs ∈ gone L) then []
                        else value_pointers (own L) v) (vals (base L))).

Definition use_count (L : life) (o : obj) : nat := length (filter (o =.) (pointers L)).
(** [weak_ptr::expired]. *)
Definition expired (L : life) (c : nat) : bool := bool_decide (use_count L (block (own L) c) = 0).
Definition created (L : life) (o : obj) : bool :=
  match o with
  | Block root => bool_decide (root < length (ctrls (base L)) ∧ owner_of (own L) root = root)
  | ValueState vs => bool_decide (vs < length (vals (base L)))
  end.
(** An object that exists. *)
Definition alive (L : life) (o : obj) : bool := created L o && bool_decide (o ∉ gone L).

(** ** Updates *)
Definition set_app (a : app) (L : life) : life := Life (base L) (own L) a (gone L).
Definition set_own w (L : life) : life := Life (base L) w (held_by_app L) (gone L).
Definition set_handles (hs : list nat) (L : life) : life :=
  set_app (App (promises (held_by_app L)) hs (locked (held_by_app L)) (objects (held_by_app L))) L.

Definition set_objects (xs : gset nat) (L : life) : life :=
  set_app (App (promises (held_by_app L)) (handles (held_by_app L)) (locked (held_by_app L)) xs) L.

(** [make_shared]: a root; [create_child_controller]: the child of [parent]. *)
Definition add_root (c : nat) w : ownership :=
  Own (owner w ++ [c]) (m_value_source w) (m_dependent w) (m_mtx w) (refers w) (outside w) (ref_results w).
Definition create_child_controller (parent : nat) w : ownership :=
  Own (owner w ++ [owner_of w parent]) (m_value_source w) (m_dependent w) (m_mtx w) (refers w) (outside w) (ref_results w).
Definition mark_ref_result (c : nat) (void : bool) w : ownership :=
  Own (owner w) (m_value_source w) (m_dependent w) (m_mtx w) (refers w) (outside w) (<[c := void]> (ref_results w)).

(** The value states an operation makes: [make_shared<future_value_state>]
    with a mutex of its own. *)
Definition new_value_states (n : nat) w : ownership :=
  Own (owner w) (m_value_source w) (m_dependent w)
      (m_mtx w ++ seq (length (m_mtx w)) (n - length (m_mtx w))) (refers w) (outside w) (ref_results w).
Definition rebase st (L : life) : life :=
  Life st (new_value_states (length (vals st)) (own L)) (held_by_app L) (gone L).

(** [set_value(val, source_value_state)]: the state [vs'] of the reference that a
    callback returned for [vs] has the mutex of [vs]. *)
Definition share_mutex (vs' vs : nat) w : ownership :=
  Own (owner w) (m_value_source w) (m_dependent w) (<[vs' := mutex_of w vs]> (m_mtx w))
      (<[vs' := vs]> (refers w)) (outside w) (ref_results w).

(** The value of [vs] is a reference to object [out] of the application; [None]
    for a value, and for a reference into the value of another future. *)
Definition refer_outside (vs : nat) (out : option nat) w : ownership :=
  Own (owner w) (m_value_source w) (m_dependent w) (m_mtx w) (refers w)
      (if out is Some x then <[vs := x]> (outside w) else outside w) (ref_results w).

(** [add_value_source]: nothing for a controller of the same block. *)
Definition add_value_source (c source : nat) w : option ownership :=
  if decide (owner_of w c = owner_of w source) then Some w
  else match m_value_source w !! c with
       | Some _ => None
       | None => Some (Own (owner w) (<[c := source]> (m_value_source w)) (m_dependent w)
                           (m_mtx w) (refers w) (outside w) (ref_results w))
       end.
Definition add_dependent (c dependent : nat) w : ownership :=
  Own (owner w) (m_value_source w) (m_dependent w ++ [(c, dependent)]) (m_mtx w) (refers w) (outside w) (ref_results w).

(** ** Callbacks: [None] is a failed assertion *)

(** The future a [finally] callback returned: a valid one is used. *)
Definition finally_future (L : life) (r : fres) (child : nat) w : option ownership :=
  match r with
  | FFut (Some ic) => if alive L (block (own L) ic) then Some (add_dependent ic child w) else None
  | _ => Some w
  end.
(** A future that was stored or returned and is registered with. *)
Definition usable (L : life) (fut : option nat) : bool :=
  match fut with Some ic => alive L (block (own L) ic) | None => true end.

(** The ownership after [call_success], whose weak pointer is locked first;
    [st'] is the state after the callback and [out] the object of the
    application a reference goes to that the callback returned.  For [void] the
    source has no value state to share the mutex with. *)
Definition success_ownership (c vs : nat) (f : succ_cb U) (out : option nat) st' (L : life) : option ownership :=
  let w := own (rebase st' L) in
  let result := length (vals (base L)) in
  match f with
  | SThen t child =>
      match (t (default VVoid (vals (base L) !! vs))).2 with
      | CRet _ =>
          Some (match (ref_results w !! child : option bool) with
                | Some void => refer_outside result out (if void then w else share_mutex result vs w)
                | None => w
                end)
      | _ => Some w
      end
  | SFlatten _ _ =>
      match default VVoid (vals (base L) !! vs) with
      | VFut fut => if usable L fut then Some w else None
      | _ => Some w
      end
  | SAdopt false child => add_value_source child c w
  | SFinally _ t child => finally_future L (t tt) child w
  | _ => Some w
  end.
Definition fail_ownership (e : exn) (f : fail_cb U) (out : option nat) (L : life) st' : option ownership :=
  let w := own (rebase st' L) in
  match f with
  | FCatched void t _ =>
      match t e with
      | CRet _ => Some (if void then w else refer_outside (length (vals (base L))) out w)
      | CThrow _ => Some w
      | CFut fut => if usable L fut then Some w else None
      end
  | FFinally t child => finally_future L (t tt) child w
  | _ => Some w
  end.

(** A worker runs task [t]; [st] is the state without it. *)
Definition life_run (t : task U) (out : option nat) st (L : life) : option life :=
  let st' := run_task t st in
  match t with
  | TProcessSuccess _ | TProcessFail _ => Some (rebase st' L)
  | TCallSuccess c f =>
      if expired L (starget f) then None
      else match ctrls st !! c ≫= m_val_state with
           | Some vs => (λ w, set_own w (rebase st' L)) <$> success_ownership c vs f out st' L
           | None => None
           end
  | TCallFail c f =>
      if expired L (ftarget f) then None
      else match ctrls st !! c ≫= m_exception with
           | Some e => (λ w, set_own w (rebase st' L)) <$> fail_ownership e f out L st'
           | None => None
           end
  end.

(** The mutex of a value that a task locks: to move the future out of it, or
    to store a reference into it. *)
Definition task_mutex (t : task U) (L : life) : option nat :=
  match t with
  | TCallSuccess c (SThen _ child) =>
      if decide (ref_results (own L) !! child = Some false)
      then mutex_of (own L) <$> (ctrls (base L) !! c ≫= m_val_state) else None
  | TCallSuccess c (SFlatten _ _) => mutex_of (own L) <$> (ctrls (base L) !! c ≫= m_val_state)
  | _ => None
  end.

(** A callback that is given no value returns references to objects of the
    application only. *)
Definition may_return (t : task U) (out : option nat) (L : life) : Prop :=
  match t, out with
  | TCallSuccess _ (SThen _ child), None => ref_results (own L) !! child ≠ Some true
  | _, _ => True
  end.

(** The futures a callback gets (with the [fvalue] of its controller), and
    the ones it returns or leaves in the value. *)
Definition received (t : task U) (L : life) : list nat :=
  match t with
  | TCallSuccess c (SThen _ _) =>
      c :: match ctrls (base L) !! c ≫= m_val_state with
           | Some vs => value_futures (default VVoid (vals (base L) !! vs))
           | None => []
           end
  | _ => []
  end.
Definition cres_futures (r : cres U) : list nat :=
  match r with CRet v => value_futures v | CFut (Some c) => [c] | _ => [] end.
Definition fres_futures (r : fres) : list nat :=
  match r with FFut (Some c) => [c] | _ => [] end.
Definition returned (t : task U) (L : life) : list nat :=
  match t with
  | TCallSuccess c (SThen f _) =>
      match ctrls (base L) !! c ≫= m_val_state with
      | Some vs => let r := f (default VVoid (vals (base L) !! vs)) in value_futures r.1 ++ cres_futures r.2
      | None => []
      end
  | TCallSuccess _ (SFinally _ f _) => fres_futures (f tt)
  | TCallFail c (FCatched _ f _) =>
      match ctrls (base L) !! c ≫= m_exception with Some e => cres_futures (f e) | None => [] end
  | TCallFail _ (FFinally f _) => fres_futures (f tt)
  | _ => []
  end.

(** ** The operations of the application *)
Definition hold (c : nat) (L : life) : life := set_handles (c :: handles (held_by_app L)) L.

(** [then], [catched] and [finally] give a future of the last controller made.
    With [by_ref] the callback of [then] returns a reference, and the future is
    [void] or not. *)
Definition life_then (c : nat) (flattened : option bool) (by_ref : option bool) (f : value U → value U * cres U)
    (L : life) : option life :=
  match then_ (Some c) flattened f (base L) with
  | Ok n st' =>
      let child := length (ctrls (base L)) in
      let w := create_child_controller c (own L) in
      let w := if flattened is Some _ then create_child_controller child w
               else if by_ref is Some void then mark_ref_result child void w else w in
      Some (hold n (Life st' w (held_by_app L) (gone L)))
  | _ => None
  end.
Definition life_catched (c : nat) (void : bool) (f : exn → cres U) (L : life) : option life :=
  match catched (Some c) void f (base L) with
  | Ok n st' => Some (hold n (Life st' (create_child_controller c (own L)) (held_by_app L) (gone L)))
  | _ => None
  end.
Definition life_finally (c : nat) (void : bool) (f : unit → fres) (L : life) : option life :=
  match finally (Some c) void f (base L) with
  | Ok n st' => Some (hold n (Life st' (create_child_controller c (own L)) (held_by_app L) (gone L)))
  | _ => None
  end.
(** A value that the application stores may be a reference to object [out]. *)
Definition store_outside (out : option nat) (vs : nat) (L : life) : life := set_own (refer_outside vs out (own L)) L.
Definition life_make_ready (v : value U) (out : option nat) (L : life) : life :=
  let '(c, st') := make_ready v (base L) in
  hold c (store_outside out (length (vals (base L))) (rebase st' (set_own (add_root c (own L)) L))).

Definition set_promises (ps : list promise) (L : life) : life :=
  set_app (App ps (handles (held_by_app L)) (locked (held_by_app L)) (objects (held_by_app L))) L.
Definition life_promise (L : life) : life :=
  let '(p, st') := promise_create (base L) in
  set_promises (p :: promises (held_by_app L))
    (Life st' (add_root (length (ctrls (base L))) (own L)) (held_by_app L) (gone L)).

(** [fvalue::lock] on an [fvalue] of controller [v], [None] when moved from:
    [Ok None] while another [locked_fvalue] has the mutex. *)
Definition held_mutexes (L : life) : list nat := mutex_of (own L) ∘ snd <$> locked (held_by_app L).
Definition fvalue_get_value_state (v : option nat) (L : life) : outcome life nat :=
  match v with
  | None => Throw logic_error L
  | Some c => match ctrls (base L) !! c ≫= m_val_state with Some vs => Ok vs L | None => UB end
  end.
Definition fvalue_lock (v : option nat) (L : life) : outcome life (option (nat * nat)) :=
  match fvalue_get_value_state v L, v with
  | Ok vs _, Some c =>
      if decide (mutex_of (own L) vs ∈ held_mutexes L) then Ok None L
      else Ok (Some (c, vs))
              (set_app (App (promises (held_by_app L)) (handles (held_by_app L))
                            ((c, vs) :: locked (held_by_app L)) (objects (held_by_app L))) L)
  | Throw e _, _ => Throw e L
  | _, _ => UB
  end.
(** The destructor of [locked_fvalue]. *)
Definition unlock (rest : list (nat * nat)) (L : life) : life :=
  set_app (App (promises (held_by_app L)) (handles (held_by_app L)) rest (objects (held_by_app L))) L.

(** The value state whose mutex a value state has: its own, or the one of the
    value that the callback was given which returned the reference. *)
Fixpoint target (fuel : nat) w (vs : nat) : nat :=
  match fuel, refers w !! vs with
  | S n, Some vs' => target n w vs'
  | _, _ => vs
  end.
(** The object a value state gives access to: the value of a value state, or an
    object of the application. *)
Inductive place : Type := InValue (vs : nat) | Outside (x : nat).
Fixpoint place_of (fuel : nat) w (vs : nat) : place :=
  match outside w !! vs with
  | Some x => Outside x
  | None =>
      match fuel, refers w !! vs with
      | S n, Some vs' => place_of n w vs'
      | _, _ => InValue vs
      end
  end.
(** [operator*]: every value state on the way must exist, and the object. *)
Inductive object : Type := Stored (v : value U) | OfApplication (x : nat).
Fixpoint deref (fuel : nat) (L : life) (vs : nat) : option object :=
  if alive L (ValueState vs) then
    match outside (own L) !! vs with
    | Some x => if decide (x ∈ objects (held_by_app L)) then Some (OfApplication x) else None
    | None =>
        match fuel, refers (own L) !! vs with
        | S n, Some vs' => deref n L vs'
        | _, _ => Stored <$> vals (base L) !! vs
        end
    end
  else None.

(** ** The system *)
Definition no_mutex (t : task U) (L : life) : Prop :=
  ∀ m, task_mutex t L = Some m → m ∉ held_mutexes L.

(** The steps of the system, in which the application may keep rules of its own:
    [task_rule] about the callbacks that are run and [value_rule] about the values
    that are stored, with the controllers that get them. *)
Inductive life_step_under (task_rule : task U → life → Prop) (value_rule : nat → value U → life → Prop) (L : life) :
  life → Prop :=
(** A worker runs a task; the callback may store what it received. *)
| life_task ts1 t ts2 out L' hs :
    pool (base L) = ts1 ++ t :: ts2 → task_ok (length (ctrls (base L))) t → no_mutex t L → may_return t out L →
    task_rule t L →
    returned t L ⊆ handles (held_by_app L) ++ received t L →
    hs ⊆ handles (held_by_app L) ++ received t L →
    life_run t out (State (ctrls (base L)) (vals (base L)) (ts1 ++ ts2)) L = Some L' →
    life_step_under task_rule value_rule L (set_handles hs L')
(** Futures and [fvalue]s are copied, moved and destroyed. *)
| life_handles hs : hs ⊆ handles (held_by_app L) → life_step_under task_rule value_rule L (set_handles hs L)
(** The last strong pointer is gone. *)
| life_destroy o : alive L o = true → use_count L o = 0 →
    life_step_under task_rule value_rule L (Life (base L) (own L) (held_by_app L) (o :: gone L))
| life_new_promise : life_step_under task_rule value_rule L (life_promise L)
| life_promise_move p ps :
    promises (held_by_app L) ≡ₚ p :: ps →
    life_step_under task_rule value_rule L (set_promises ((promise_move p).1 :: (promise_move p).2 :: ps) L)
| life_promise_assign p q ps :
    promises (held_by_app L) ≡ₚ p :: q :: ps →
    life_step_under task_rule value_rule L (let r := promise_move_assign p q (base L) in
                 set_promises (r.1.1 :: r.1.2 :: ps) (rebase r.2 L))
| life_promise_destroy p ps :
    promises (held_by_app L) ≡ₚ p :: ps →
    life_step_under task_rule value_rule L (set_promises ps (rebase (abandon p (base L)).2 L))
| life_set_value p ps v out p' st' :
    promises (held_by_app L) ≡ₚ p :: ps → value_futures v ⊆ handles (held_by_app L) →
    (∀ c, p_controller p = Some c → value_rule c v L) →
    promise_set_value p v (base L) = Ok p' st' →
    life_step_under task_rule value_rule L (set_promises (p' :: ps) (store_outside out (length (vals (base L))) (rebase st' L)))
| life_set_exception p ps e p' st' :
    promises (held_by_app L) ≡ₚ p :: ps →
    promise_set_exception p e (base L) = Ok p' st' → life_step_under task_rule value_rule L (set_promises (p' :: ps) (rebase st' L))
| life_get_future p ps p' c st' :
    promises (held_by_app L) ≡ₚ p :: ps → get_future p (base L) = Ok (p', c) st' →
    life_step_under task_rule value_rule L (hold c (set_promises (p' :: ps) L))
| life_add_then c fl by_ref f L' :
    c ∈ handles (held_by_app L) → life_then c fl by_ref f L = Some L' → life_step_under task_rule value_rule L L'
| life_add_catched c void f L' :
    c ∈ handles (held_by_app L) → life_catched c void f L = Some L' → life_step_under task_rule value_rule L L'
| life_add_finally c void f L' :
    c ∈ handles (held_by_app L) → life_finally c void f L = Some L' → life_step_under task_rule value_rule L L'
| life_ready v out :
    value_futures v ⊆ handles (held_by_app L) → value_rule (length (ctrls (base L))) v L →
    life_step_under task_rule value_rule L (life_make_ready v out L)
(** Objects of the application come and go as it likes. *)
| life_objects xs : life_step_under task_rule value_rule L (set_objects xs L)
| life_lock c l L' :
    c ∈ handles (held_by_app L) → fvalue_lock (Some c) L = Ok (Some l) L' → life_step_under task_rule value_rule L L'
| life_unlock l ls : locked (held_by_app L) ≡ₚ l :: ls → life_step_under task_rule value_rule L (unlock ls L).
Definition life_step : life → life → Prop := life_step_under (λ _ _, True) (λ _ _ _, True).

Definition life_init : life :=
  Life (State [] [] []) (Own [] ∅ [] [] ∅ ∅ ∅) (App [] [] [] ∅) [].
Definition life_reachable (L : life) : Prop := rtc life_step life_init L.

(** The state of the model without ownership. *)
Definition erase (L : life) : state U * list promise := (base L, promises (held_by_app L)).
End life.
Arguments life : clear implicits.
Arguments life_task {_ _ _}.
Arguments life_handles {_ _ _}.
Arguments life_destroy {_ _ _}.
Arguments life_new_promise {_ _ _}.
Arguments life_promise_move {_ _ _}.
Arguments life_promise_assign {_ _ _}.
Arguments life_promise_destroy {_ _ _}.
Arguments life_set_value {_ _ _}.
Arguments life_set_exception {_ _ _}.
Arguments life_get_future {_ _ _}.
Arguments life_add_then {_ _ _}.
Arguments life_add_catched {_ _ _}.
Arguments life_add_finally {_ _ _}.
Arguments life_ready {_ _ _}.
Arguments life_objects {_ _ _}.
Arguments life_lock {_ _ _}.
Arguments life_unlock {_ _ _}.
End FutureLife.
