(* ===== verification/FutureLifeFacts.v ===== *)
(** * No future outlives what it needs

    Weak pointers that callbacks lock are never expired, no strong pointer
    points to a destroyed object, references stay inside values that exist,
    and two [locked_fvalue]s never give the same object. *)
From S2P Require Import Prelude Future FutureFacts FutureLife.
Import Future FutureLife.
Local Open Scope nat_scope.

Section facts.
Context {U : Type}.
Implicit Types (st : state U) (w : ownership) (L : life U).

(** ** The order on states: what a step never takes back *)

(** Blocks that own the value sources of others. *)
Definition source_edge L (a b : nat) : Prop :=
  ∃ x y, m_value_source (own L) !! x = Some y ∧
         x < length (ctrls (base L)) ∧ y < length (ctrls (base L)) ∧
         owner_of (own L) x = a ∧ owner_of (own L) y = b.
(** Block [g] keeps a controller that has value state [vs]. *)
Definition protects L (g vs : nat) : Prop :=
  ∃ c k, ctrls (base L) !! c = Some k ∧ m_val_state k = Some vs ∧
         rtc (source_edge L) g (owner_of (own L) c).

Record grows L L' : Prop := {
  grows_ctrls : length (ctrls (base L)) ≤ length (ctrls (base L'));
  grows_owner c : c < length (ctrls (base L)) → owner_of (own L') c = owner_of (own L) c;
  grows_value c k vs : ctrls (base L) !! c = Some k → m_val_state k = Some vs →
    ∃ k', ctrls (base L') !! c = Some k' ∧ m_val_state k' = Some vs;
  grows_source x y : m_value_source (own L) !! x = Some y → m_value_source (own L') !! x = Some y;
  grows_dependent p : p ∈ m_dependent (own L) → p ∈ m_dependent (own L');
  grows_vals : length (vals (base L)) ≤ length (vals (base L'));
  grows_refers vs : vs < length (vals (base L)) → refers (own L') !! vs = refers (own L) !! vs;
  grows_gone : gone L' = gone L
}.

#[global] Instance grows_preorder : PreOrder grows.
Proof.
  split; [intros L; split; eauto; done|].
  intros L1 L2 L3 [A1 A2 A3 A4 A5 A6 A7 A8] [B1 B2 B3 B4 B5 B6 B7 B8]. split.
  - lia.
  - intros x Hx. rewrite B2 by lia. auto.
  - intros x k vs Hk Hv. destruct (A3 _ _ _ Hk Hv) as (k' & Hk' & Hv'). eauto.
  - auto.
  - auto.
  - lia.
  - intros vs Hv. rewrite B7 by lia. auto.
  - congruence.
Qed.

Lemma source_edge_mono L L' a b : grows L L' → source_edge L a b → source_edge L' a b.
Proof.
  intros G (x & y & Hs & Hx & Hy & <- & <-). pose proof (grows_ctrls _ _ G).
  exists x, y. split_and!; [by apply (grows_source _ _ G)|lia|lia|by apply (grows_owner _ _ G)..].
Qed.

Lemma protects_mono L L' g vs : grows L L' → protects L g vs → protects L' g vs.
Proof.
  intros G (c & k & Hk & Hv & Hr). destruct (grows_value _ _ G _ _ _ Hk Hv) as (k' & Hk' & Hv').
  exists c, k'. split_and!; [done|done|].
  rewrite (grows_owner _ _ G) by (by eapply lookup_lt_Some).
  clear -Hr G. induction Hr; [done|]. by eapply rtc_l; [eapply source_edge_mono|].
Qed.

Lemma alive_spec L o : alive L o = true ↔ created L o = true ∧ o ∉ gone L.
Proof. unfold alive. rewrite andb_true_iff, bool_decide_eq_true. done. Qed.

Lemma alive_not_gone L o : alive L o = true → o ∉ gone L.
Proof. intros H. by apply alive_spec in H as [_ H]. Qed.

Lemma alive_mono L L' o : grows L L' → alive L o = true → alive L' o = true.
Proof.
  intros G. rewrite !alive_spec, (grows_gone _ _ G). intros [Hc Hg]. split; [|done].
  pose proof (grows_ctrls _ _ G). pose proof (grows_vals _ _ G).
  destruct o as [r|vs]; simpl in *; rewrite bool_decide_eq_true in *; [|lia].
  destruct Hc as [Hr Ho]. rewrite (grows_owner _ _ G) by done. split; [lia|done].
Qed.

(** ** The invariant, part by part *)

(** Where the child of a callback is kept: in the block of the controller the
    callback is registered with, by its capture, or as a dependent. *)
Definition link_s L (c : nat) (f : succ_cb U) : Prop :=
  starget f < length (ctrls (base L)) ∧
  match f with
  | SThen _ d | SFlatten _ d | SCatched _ d | SFinally _ _ d => owner_of (own L) d = owner_of (own L) c
  | SAdopt _ _ => True
  | SFinallyValue _ vs d =>
      (c, d) ∈ m_dependent (own L) ∧ vs < length (vals (base L)) ∧
      ∀ r, refers (own L) !! vs = Some r → protects L (owner_of (own L) d) r
  | SFinallyExn _ d => (c, d) ∈ m_dependent (own L)
  end.
Definition link_f L (c : nat) (f : fail_cb U) : Prop :=
  ftarget f < length (ctrls (base L)) ∧
  match f with
  | FProp d => owner_of (own L) d = owner_of (own L) c ∨ (c, d) ∈ m_dependent (own L)
  | FAdopt _ => True
  | FCatched _ _ d | FFinally _ d => owner_of (own L) d = owner_of (own L) c
  end.
Definition all_alive L (os : list obj) : Prop := Forall (λ o, alive L o = true) os.

Record ctrl_ok L (c : nat) (k : controller U) : Prop := {
  ctrl_links f : f ∈ m_on_success_queue k → link_s L c f;
  ctrl_linkf f : f ∈ m_on_fail_queue k → link_f L c f;
  ctrl_caps f : f ∈ m_on_success_queue k → block (own L) c ∉ gone L → all_alive L (succ_captures (own L) f);
  ctrl_capf f : f ∈ m_on_fail_queue k → block (own L) c ∉ gone L → all_alive L (fail_captures (own L) f);
  ctrl_val vs : m_val_state k = Some vs → block (own L) c ∉ gone L → alive L (ValueState vs) = true;
  ctrl_bound vs : m_val_state k = Some vs → vs < length (vals (base L));
  ctrl_ref vs r : m_val_state k = Some vs → refers (own L) !! vs = Some r → protects L (owner_of (own L) c) r
}.
Definition ptask_ok L (t : task U) : Prop :=
  all_alive L (task_pointers (own L) t) ∧
  match t with TCallSuccess c f => link_s L c f | TCallFail c f => link_f L c f | _ => True end.
Definition val_ok L (vs : nat) (v : value U) : Prop :=
  ValueState vs ∉ gone L → all_alive L (value_pointers (own L) v).

Record own_ok L : Prop := {
  own_owner : length (owner (own L)) = length (ctrls (base L));
  own_root c : c < length (ctrls (base L)) →
    owner_of (own L) c < length (ctrls (base L)) ∧ owner_of (own L) (owner_of (own L) c) = owner_of (own L) c;
  own_mtx : length (m_mtx (own L)) = length (vals (base L));
  own_mutex vs : mutex_of (own L) vs = if refers (own L) !! vs is Some r then mutex_of (own L) r else vs;
  own_refers vs r : refers (own L) !! vs = Some r → r < vs < length (vals (base L));
  own_source x y : m_value_source (own L) !! x = Some y →
    x < length (ctrls (base L)) ∧ y < length (ctrls (base L)) ∧
    (block (own L) x ∉ gone L → alive L (block (own L) y) = true);
  own_dependent x y : (x, y) ∈ m_dependent (own L) →
    x < length (ctrls (base L)) ∧ y < length (ctrls (base L)) ∧
    (block (own L) x ∉ gone L → alive L (block (own L) y) = true);
  own_gone o : o ∈ gone L → created L o = true
}.

Record life_inv L : Prop := {
  li_own : own_ok L;
  li_ctrl c k : ctrls (base L) !! c = Some k → ctrl_ok L c k;
  li_task t : t ∈ pool (base L) → ptask_ok L t;
  li_val vs v : vals (base L) !! vs = Some v → val_ok L vs v;
  li_app : all_alive L (app_pointers (own L) (held_by_app L));
  li_locked c vs : (c, vs) ∈ locked (held_by_app L) →
    ∃ k, ctrls (base L) !! c = Some k ∧ m_val_state k = Some vs;
  li_mutexes : NoDup (held_mutexes L)
}.

(** ** Monotonicity *)
Lemma alive_block_lt L c : own_ok L → alive L (block (own L) c) = true → c < length (ctrls (base L)).
Proof.
  intros O [Hc _]%alive_spec. simpl in Hc. rewrite bool_decide_eq_true in Hc.
  unfold owner_of in Hc. destruct (owner (own L) !! c) eqn:E; simpl in Hc; [|lia].
  rewrite <- (own_owner _ O). by eapply lookup_lt_Some.
Qed.

(** The block of a controller exists; it is alive unless destroyed. *)
Lemma alive_block L c : own_ok L → c < length (ctrls (base L)) → block (own L) c ∉ gone L → alive L (block (own L) c) = true.
Proof.
  intros O Hc Hg. apply alive_spec. split; [|done]. simpl. rewrite bool_decide_eq_true. by apply (own_root _ O).
Qed.

Lemma alive_block_mono L L' c :
  own_ok L → grows L L' → alive L (block (own L) c) = true → alive L' (block (own L') c) = true.
Proof.
  intros O G Ha. pose proof (alive_block_lt _ _ O Ha) as Hc.
  unfold block. rewrite (grows_owner _ _ G) by done. by eapply alive_mono.
Qed.

Lemma all_alive_blocks L L' cs :
  own_ok L → grows L L' → all_alive L (block (own L) <$> cs) → all_alive L' (block (own L') <$> cs).
Proof.
  intros O G. unfold all_alive. rewrite !Forall_fmap. intros H. eapply Forall_impl; [done|].
  intros c. simpl. by apply alive_block_mono.
Qed.

Lemma block_gone_mono L L' c :
  grows L L' → c < length (ctrls (base L)) → block (own L') c ∉ gone L' → block (own L) c ∉ gone L.
Proof. intros G Hc. unfold block. by rewrite (grows_owner _ _ G), (grows_gone _ _ G). Qed.

Lemma succ_captures_mono L L' (f : succ_cb U) :
  own_ok L → grows L L' → all_alive L (succ_captures (own L) f) → all_alive L' (succ_captures (own L') f).
Proof.
  intros O G. destruct f as [| |v d| | |[] vs d|]; simpl; try (intros _; by apply Forall_nil_2).
  - by apply (all_alive_blocks _ _ [d]).
  - unfold all_alive. rewrite !Forall_singleton. by apply alive_mono.
Qed.
Lemma fail_captures_mono L L' (f : fail_cb U) :
  own_ok L → grows L L' → all_alive L (fail_captures (own L) f) → all_alive L' (fail_captures (own L') f).
Proof. intros O G. destruct f as [|d| |]; simpl; try (intros _; by apply Forall_nil_2). by apply (all_alive_blocks _ _ [d]). Qed.
Lemma task_pointers_mono L L' (t : task U) :
  own_ok L → grows L L' → all_alive L (task_pointers (own L) t) → all_alive L' (task_pointers (own L') t).
Proof.
  intros O G. destruct t as [c|c|c f|c f]; simpl; [by apply (all_alive_blocks _ _ [c])..| |];
    unfold all_alive; rewrite !Forall_cons; (intros [? ?]; split; [by eapply alive_block_mono|]);
    [by eapply succ_captures_mono|by eapply fail_captures_mono].
Qed.
Lemma promise_pointers_mono L L' p :
  own_ok L → grows L L' → all_alive L (promise_pointers (own L) p) → all_alive L' (promise_pointers (own L') p).
Proof. intros O G. unfold promise_pointers. rewrite <- !fmap_app. by apply all_alive_blocks. Qed.

Lemma all_alive_app L os os' : all_alive L (os ++ os') ↔ all_alive L os ∧ all_alive L os'.
Proof. apply Forall_app. Qed.
Lemma all_alive_concat {A} L (f : A → list obj) (l : list A) :
  all_alive L (concat (f <$> l)) ↔ ∀ x, x ∈ l → all_alive L (f x).
Proof.
  induction l as [|y l IH]; simpl; [split; [intros _ x Hx; by apply elem_of_nil in Hx|constructor]|].
  rewrite all_alive_app, IH. split.
  - intros [H1 H2] x [-> |Hx]%elem_of_cons; auto.
  - intros H. split; [apply H; left|intros x Hx; apply H; by right].
Qed.

Lemma app_pointers_mono L L' a :
  own_ok L → grows L L' → all_alive L (app_pointers (own L) a) → all_alive L' (app_pointers (own L') a).
Proof.
  intros O G. unfold app_pointers. rewrite !all_alive_app, !all_alive_concat. intros (Hp & Hh & Hl). split_and!.
  - intros p Hin. eapply promise_pointers_mono; eauto.
  - by eapply all_alive_blocks.
  - intros [c vs] Hin. specialize (Hl _ Hin). unfold locked_pointers, all_alive in *. simpl in *.
    rewrite !Forall_cons in *. destruct Hl as (? & ? & _).
    split_and!; [by eapply alive_block_mono|by eapply alive_mono|done].
Qed.

Lemma link_s_mono L L' c f :
  grows L L' → c < length (ctrls (base L)) → link_s L c f → link_s L' c f.
Proof.
  intros G Hc [Hd H]. split; [pose proof (grows_ctrls _ _ G); lia|].
  destruct f as [t d|v d|v d|v d|v t d|v vs d|e d]; simpl in Hd;
    rewrite ?(grows_owner _ _ G) by done; try done; [|by apply (grows_dependent _ _ G)].
  destruct H as (Hdep & Hvs & Hr). split_and!; [by apply (grows_dependent _ _ G)|pose proof (grows_vals _ _ G); lia|].
  intros r. rewrite (grows_refers _ _ G) by done. intros E. eapply protects_mono; eauto.
Qed.
Lemma link_f_mono L L' c f :
  grows L L' → c < length (ctrls (base L)) → link_f L c f → link_f L' c f.
Proof.
  intros G Hc [Hd H]. split; [pose proof (grows_ctrls _ _ G); lia|].
  destruct f as [d|d|v t d|t d]; simpl in Hd; rewrite ?(grows_owner _ _ G) by done; try done.
  destruct H; [by left|right]. by apply (grows_dependent _ _ G).
Qed.

Lemma ctrl_ok_mono L L' c k :
  own_ok L → grows L L' → c < length (ctrls (base L)) → ctrl_ok L c k → ctrl_ok L' c k.
Proof.
  intros O G Hc [H1 H2 H3 H4 H5 H6 H7].
  assert (block (own L') c ∉ gone L' → block (own L) c ∉ gone L) as Hg by (by eapply block_gone_mono).
  split.
  - intros f Hf. eapply link_s_mono; eauto.
  - intros f Hf. eapply link_f_mono; eauto.
  - intros f Hf Hn. eapply succ_captures_mono; eauto.
  - intros f Hf Hn. eapply fail_captures_mono; eauto.
  - intros vs Hv Hn. eapply alive_mono; eauto.
  - intros vs Hv. pose proof (grows_vals _ _ G). specialize (H6 vs Hv). lia.
  - intros vs r Hv Hr. rewrite (grows_refers _ _ G) in Hr by eauto.
    rewrite (grows_owner _ _ G) by done. eapply protects_mono; eauto.
Qed.

Lemma ptask_ok_mono L L' t : own_ok L → grows L L' → ptask_ok L t → ptask_ok L' t.
Proof.
  intros O G [Hp Hl]. split; [by eapply task_pointers_mono|].
  destruct t as [c|c|c f|c f]; try done; (assert (c < length (ctrls (base L))) as Hc
    by (apply alive_block_lt; [done|simpl in Hp; by apply Forall_cons in Hp as [? _]]));
    [by eapply link_s_mono|by eapply link_f_mono].
Qed.

Lemma val_ok_mono L L' vs v : own_ok L → grows L L' → val_ok L vs v → val_ok L' vs v.
Proof.
  intros O G H Hn. rewrite (grows_gone _ _ G) in Hn. eapply all_alive_blocks; [done..|]. by apply H.
Qed.

(** ** One controller changes and tasks are posted *)
Definition with_base st L : life U := Life st (own L) (held_by_app L) (gone L).

Lemma alive_same L L' o :
  length (ctrls (base L')) = length (ctrls (base L)) → length (vals (base L')) = length (vals (base L)) →
  owner (own L') = owner (own L) → gone L' = gone L → alive L' o = alive L o.
Proof. intros Hc Hv Ho Hg. unfold alive, created, owner_of. by rewrite Hc, Hv, Ho, Hg. Qed.

Lemma own_ok_base st L :
  length (ctrls st) = length (ctrls (base L)) → length (vals st) = length (vals (base L)) →
  own_ok L → own_ok (with_base st L).
Proof.
  intros Hc Hv O. assert (∀ o, alive (with_base st L) o = alive L o) as Ha by (intros o; by apply alive_same).
  destruct O as [H1 H2 H3 H4 H5 H6 H7 H8]. split; simpl; rewrite ?Hc, ?Hv; try done.
  - intros x y E. rewrite Ha. by apply H6.
  - intros x y E. rewrite Ha. by apply H7.
  - intros o Ho. specialize (H8 o Ho). destruct o; simpl in *; by rewrite ?Hc, ?Hv.
Qed.

Definition after (c : nat) (g : controller U → controller U) (ts : list (task U)) L : life U :=
  with_base (State (ctrls (update c g (base L))) (vals (base L)) (pool (base L) ++ ts)) L.

Lemma grows_after c g ts L :
  (∀ k vs, ctrls (base L) !! c = Some k → m_val_state k = Some vs → m_val_state (g k) = Some vs) →
  grows L (after c g ts L).
Proof.
  intros Hg. split; simpl; try done; [by rewrite length_alter|].
  intros c' k vs Hk Hv. destruct (decide (c = c')) as [<- |].
  - exists (g k). rewrite list_lookup_alter_eq, Hk. eauto.
  - exists k. by rewrite list_lookup_alter_ne.
Qed.

Lemma inv_after c g ts L :
  life_inv L →
  (∀ k vs, ctrls (base L) !! c = Some k → m_val_state k = Some vs → m_val_state (g k) = Some vs) →
  (∀ k, ctrls (base L) !! c = Some k → grows L (after c g ts L) → ctrl_ok (after c g ts L) c (g k)) →
  (∀ t, t ∈ ts → ptask_ok L t) →
  life_inv (after c g ts L).
Proof.
  intros I Hg Hok Hts. pose proof (grows_after c g ts L Hg) as G. pose proof (li_own _ I) as O.
  split; simpl.
  - apply own_ok_base; [simpl; by rewrite length_alter|done|done].
  - intros c' k'. destruct (decide (c = c')) as [<- |].
    + rewrite list_lookup_alter_eq. intros (k & Hk & ->)%fmap_Some. auto.
    + rewrite list_lookup_alter_ne by done. intros Hk.
      eapply ctrl_ok_mono; [done|done|by eapply lookup_lt_Some|by apply (li_ctrl _ I)].
  - intros t [Ht|Ht]%elem_of_app; (eapply ptask_ok_mono; [done|done|]); [by apply (li_task _ I)|auto].
  - intros vs v Hv. apply (val_ok_mono L); [done|done|by apply (li_val _ I)].
  - apply (app_pointers_mono L (after c g ts L) _ O G), (li_app _ I).
  - intros c' vs Hin. destruct (li_locked _ I _ _ Hin) as (k & Hk & Hv). by eapply (grows_value _ _ G).
  - apply (li_mutexes _ I).
Qed.

(** The tasks every operation posts. *)
Lemma ptask_process L c t :
  alive L (block (own L) c) = true → t ∈ [TProcessSuccess c; TProcessFail c] → ptask_ok L t.
Proof.
  intros Ha [-> |[-> |[]%elem_of_nil]%elem_of_cons]%elem_of_cons; (split; [|done]); by repeat constructor.
Qed.

Lemma after_eq c g (t1 t2 : task U) L :
  with_base (post t2 (post t1 (update c g (base L)))) L = after c g [t1; t2] L.
Proof. unfold after, post. simpl. by rewrite <- app_assoc. Qed.

Lemma inv_set_exception c e L :
  life_inv L → alive L (block (own L) c) = true → life_inv (with_base (set_exception c e (base L)) L).
Proof.
  intros I Ha. unfold set_exception, process_on_fail_async, process_on_success_async. rewrite after_eq.
  apply inv_after; [done|done| |intros t; by apply ptask_process].
  intros k Hk G. pose proof (ctrl_ok_mono _ _ _ _ (li_own _ I) G (lookup_lt_Some _ _ _ Hk) (li_ctrl _ I _ _ Hk)) as H.
  by destruct H; split.
Qed.

(** Storing a value state in a controller that has none. *)
Lemma inv_set_value_state c vs L :
  life_inv L → alive L (block (own L) c) = true → alive L (ValueState vs) = true →
  (∀ r, refers (own L) !! vs = Some r → protects L (owner_of (own L) c) r) →
  (∀ k, ctrls (base L) !! c = Some k → m_val_state k = None) →
  life_inv (with_base (set_value_state c vs (base L)) L).
Proof.
  intros I Ha Hvs Hr Hn. unfold set_value_state, process_on_fail_async, process_on_success_async. rewrite after_eq.
  apply inv_after; [done| | |intros t; by apply ptask_process].
  - intros k vs' Hk Hv. rewrite (Hn _ Hk) in Hv. done.
  - intros k Hk G. pose proof (ctrl_ok_mono _ _ _ _ (li_own _ I) G (lookup_lt_Some _ _ _ Hk) (li_ctrl _ I _ _ Hk)) as H.
    destruct H. split; try done; intros vs'; simpl; [intros [= <-] _|intros [= <-]|intros r [= <-] Hr'].
    + by eapply alive_mono.
    + apply alive_spec in Hvs as [Hc _]. simpl in Hc. by rewrite bool_decide_eq_true in Hc.
    + eapply protects_mono; [done|]. by apply Hr.
Qed.

(** Registering a pair of callbacks. *)
Lemma life_inv_register c s f L :
  life_inv L → alive L (block (own L) c) = true →
  link_s L c s → link_f L c f →
  all_alive L (succ_captures (own L) s) → all_alive L (fail_captures (own L) f) →
  life_inv (with_base (set_on_success_and_fail c s f (base L)) L).
Proof.
  intros I Ha Hs Hf Hcs Hcf. unfold set_on_success_and_fail, process_on_fail_async, process_on_success_async.
  rewrite after_eq. apply inv_after; [done|done| |intros t; by apply ptask_process].
  intros k Hk G. pose proof (lookup_lt_Some _ _ _ Hk) as Hc. pose proof (li_own _ I) as O.
  pose proof (ctrl_ok_mono _ _ _ _ O G Hc (li_ctrl _ I _ _ Hk)) as H.
  destruct H. split; try done; simpl; intros g [Hg|Hg%list_elem_of_singleton]%elem_of_app; subst; auto.
  - by apply (link_s_mono L).
  - by apply (link_f_mono L).
  - intros _. exact (succ_captures_mono _ _ _ O G Hcs).
  - intros _. exact (fail_captures_mono _ _ _ O G Hcf).
Qed.

(** ** Taking tasks and processing queues *)
Lemma life_inv_take ts L :
  life_inv L → ts ⊆ pool (base L) → life_inv (with_base (State (ctrls (base L)) (vals (base L)) ts) L).
Proof.
  intros I Hts. set (L' := with_base _ L).
  assert (grows L L') as G by (split; simpl; eauto; done). pose proof (li_own _ I) as O. split; simpl.
  - by apply own_ok_base.
  - intros c k Hk. apply (ctrl_ok_mono L); [done|done|by eapply lookup_lt_Some|by apply (li_ctrl _ I)].
  - intros t Ht. apply (ptask_ok_mono L); [done|done|]. by apply (li_task _ I), Hts.
  - intros vs v Hv. apply (val_ok_mono L); [done|done|by apply (li_val _ I)].
  - apply (app_pointers_mono L L' _ O G), (li_app _ I).
  - apply (li_locked _ I).
  - apply (li_mutexes _ I).
Qed.

(** Dropping a queue, and posting the calls of its callbacks. *)
Lemma inv_clear c (g : controller U → controller U) ts L :
  life_inv L →
  (∀ k, m_val_state (g k) = m_val_state k ∧
        m_on_success_queue (g k) ⊆ m_on_success_queue k ∧ m_on_fail_queue (g k) ⊆ m_on_fail_queue k) →
  (∀ t, t ∈ ts → ptask_ok L t) → life_inv (after c g ts L).
Proof.
  intros I Hg Hts. apply inv_after; [done| | |done].
  - intros k vs _ Hv. destruct (Hg k) as [-> _]. done.
  - intros k Hk G. destruct (Hg k) as (Hv & Hs & Hf).
    destruct (ctrl_ok_mono _ _ _ _ (li_own _ I) G (lookup_lt_Some _ _ _ Hk) (li_ctrl _ I _ _ Hk)) as [H1 H2 H3 H4 H5 H6 H7].
    split; rewrite ?Hv; auto.
Qed.

Lemma ptask_calls c k L t :
  life_inv L → alive L (block (own L) c) = true → ctrls (base L) !! c = Some k →
  t ∈ (TCallSuccess c <$> m_on_success_queue k) ++ (TCallFail c <$> m_on_fail_queue k) → ptask_ok L t.
Proof.
  intros I Ha Hk Ht. pose proof (li_ctrl _ I _ _ Hk) as [H1 H2 H3 H4 _ _ _].
  pose proof (alive_not_gone _ _ Ha) as Hg.
  apply elem_of_app in Ht as [(f & -> & Hf)%list_elem_of_fmap|(f & -> & Hf)%list_elem_of_fmap];
    (split; [constructor; [done|]|auto]); [by apply H3|by apply H4].
Qed.

Lemma life_inv_process_success c L :
  life_inv L → alive L (block (own L) c) = true → life_inv (with_base (process_success c (base L)) L).
Proof.
  intros I Ha. unfold process_success. destruct L as [st w a g]; simpl in *.
  destruct (ctrls st !! c) as [k|] eqn:Hk; [|done].
  destruct (m_val_state k); [|destruct (m_exception k)].
  - apply (inv_clear c clear_success _ (Life st w a g)); [done| |].
    + intros k'. split_and!; [done|apply list_subseteq_nil|done].
    + intros t Ht. eapply ptask_calls; [done..|]. apply elem_of_app. by left.
  - pose proof (inv_clear c clear_success [] (Life st w a g)) as H. unfold after in H. simpl in H.
    rewrite app_nil_r in H. apply H; [done| |by intros t ?%elem_of_nil].
    intros k'. split_and!; [done|apply list_subseteq_nil|done].
  - by destruct st.
Qed.
Lemma life_inv_process_fail c L :
  life_inv L → alive L (block (own L) c) = true → life_inv (with_base (process_fail c (base L)) L).
Proof.
  intros I Ha. unfold process_fail. destruct L as [st w a g]; simpl in *.
  destruct (ctrls st !! c) as [k|] eqn:Hk; [|done].
  destruct (m_exception k); [|destruct (m_val_state k)].
  - apply (inv_clear c clear_fail _ (Life st w a g)); [done| |].
    + intros k'. split_and!; [done|done|apply list_subseteq_nil].
    + intros t Ht. eapply ptask_calls; [done..|]. apply elem_of_app. by right.
  - pose proof (inv_clear c clear_fail [] (Life st w a g)) as H. unfold after in H. simpl in H.
    rewrite app_nil_r in H. apply H; [done| |by intros t ?%elem_of_nil].
    intros k'. split_and!; [done|done|apply list_subseteq_nil].
  - by destruct st.
Qed.

(** ** Value states *)

(** The ownership with a new value state, which may refer into another. *)
Definition new_value (ref : option nat) st w : ownership :=
  let w' := new_value_states (S (length (vals st))) w in
  if ref is Some vs then share_mutex (length (vals st)) vs w' else w'.

Lemma mutex_new ref L vs :
  own_ok L →
  mutex_of (new_value ref (base L) (own L)) vs =
    if decide (vs = length (vals (base L))) then default vs (mutex_of (own L) <$> ref) else mutex_of (own L) vs.
Proof.
  intros O. pose proof (own_mtx _ O) as Hl.
  assert (∀ x, mutex_of (new_value_states (S (length (vals (base L)))) (own L)) x = mutex_of (own L) x) as Hn.
  { intros x. unfold mutex_of. simpl. rewrite Hl, Nat.sub_succ_l, Nat.sub_diag by done. simpl.
    destruct (decide (x < length (vals (base L)))) as [Hx|Hx].
    - by rewrite lookup_app_l by lia.
    - rewrite lookup_app_r by lia. rewrite (lookup_ge_None_2 (m_mtx (own L))) by lia. rewrite Hl.
      destruct (x - length (vals (base L))) eqn:E; simpl; [lia|done]. }
  destruct ref as [r|]; simpl.
  - unfold share_mutex. unfold mutex_of at 1. cbn [m_mtx]. case_decide as E.
    + subst vs. rewrite list_lookup_insert_eq, Hn; [done|].
      simpl. rewrite length_app, length_seq, Hl. lia.
    + rewrite list_lookup_insert_ne by done. apply Hn.
  - rewrite Hn. case_decide; [|done]. subst. unfold mutex_of. by rewrite lookup_ge_None_2 by lia.
Qed.

Definition append_value (v : value U) (ref : option nat) L : life U :=
  Life (State (ctrls (base L)) (vals (base L) ++ [v]) (pool (base L)))
       (new_value ref (base L) (own L)) (held_by_app L) (gone L).

Lemma refers_fresh L vs : own_ok L → length (vals (base L)) ≤ vs → refers (own L) !! vs = None.
Proof. intros O Hv. destruct (refers (own L) !! vs) eqn:E; [|done]. apply (own_refers _ O) in E. lia. Qed.

Lemma refers_new ref L vs :
  own_ok L →
  refers (new_value ref (base L) (own L)) !! vs =
    if decide (vs = length (vals (base L))) then ref else refers (own L) !! vs.
Proof.
  intros O. destruct ref as [r|]; simpl.
  - case_decide as E; [subst; by rewrite lookup_insert_eq|by rewrite lookup_insert_ne].
  - case_decide; [|done]. subst. by apply refers_fresh.
Qed.

Lemma new_value_same ref st w :
  owner (new_value ref st w) = owner w ∧ m_value_source (new_value ref st w) = m_value_source w ∧
  m_dependent (new_value ref st w) = m_dependent w.
Proof. by destruct ref. Qed.

Lemma grows_append v ref L : own_ok L → grows L (append_value v ref L).
Proof.
  intros O. destruct (new_value_same ref (base L) (own L)) as (Ho & Hs & Hd).
  split; simpl; rewrite ?Ho, ?Hs, ?Hd; try done.
  - intros c _. unfold owner_of. by rewrite Ho.
  - eauto.
  - rewrite length_app. lia.
  - intros vs Hv. rewrite refers_new by done. by rewrite decide_False by lia.
Qed.

Lemma held_mutexes_grow L L' :
  life_inv L → (∀ vs, vs < length (vals (base L)) → mutex_of (own L') vs = mutex_of (own L) vs) →
  held_by_app L' = held_by_app L → held_mutexes L' = held_mutexes L.
Proof.
  intros I Hm Ha. unfold held_mutexes. rewrite Ha. apply list_fmap_ext. intros i [c vs] Hi.
  apply list_elem_of_lookup_2 in Hi. destruct (li_locked _ I _ _ Hi) as (k & Hk & Hv). simpl.
  apply Hm. by eapply ctrl_bound; [apply (li_ctrl _ I)|].
Qed.

Lemma inv_append v ref L :
  life_inv L → all_alive L (value_pointers (own L) v) →
  (∀ r, ref = Some r → r < length (vals (base L))) → life_inv (append_value v ref L).
Proof.
  intros I Hv Hr. pose proof (li_own _ I) as O. pose proof (grows_append v ref L O) as G.
  destruct (new_value_same ref (base L) (own L)) as (Ho & Hs & Hd).
  split.
  - assert (∀ c, owner_of (new_value ref (base L) (own L)) c = owner_of (own L) c) as Hoo
      by (intros c; unfold owner_of; by rewrite Ho).
    assert (∀ x, block (new_value ref (base L) (own L)) x = block (own L) x) as Hb
      by (intros x; unfold block; by rewrite Hoo).
    split; simpl; rewrite ?Ho, ?Hs, ?Hd.
    + apply (own_owner _ O).
    + intros c Hc. rewrite !Hoo. by apply (own_root _ O).
    + destruct ref; simpl; rewrite ?length_insert, !length_app, length_seq, (own_mtx _ O); simpl; lia.
    + intros vs. rewrite mutex_new, refers_new by done. case_decide as E.
      * subst. destruct ref as [r|]; [|done]. specialize (Hr _ eq_refl).
        rewrite mutex_new by done. by rewrite decide_False by lia.
      * rewrite (own_mutex _ O vs). destruct (refers (own L) !! vs) as [r|] eqn:Er; [|done].
        rewrite mutex_new by done. apply (own_refers _ O) in Er. by rewrite decide_False by lia.
    + intros vs r. rewrite refers_new by done. rewrite length_app. simpl. case_decide.
      * intros E. subst vs. specialize (Hr _ E). lia.
      * intros E%(own_refers _ O). lia.
    + intros x y (Hx & Hy & Hal)%(own_source _ O). split_and!; [done..|].
      rewrite !Hb. intros Hg. eapply alive_mono; eauto.
    + intros x y (Hx & Hy & Hal)%(own_dependent _ O). split_and!; [done..|].
      rewrite !Hb. intros Hg. eapply alive_mono; eauto.
    + intros o Hg%(own_gone _ O). destruct o; simpl in *; rewrite bool_decide_eq_true in *;
        [by rewrite Hoo|rewrite length_app; simpl; lia].
  - intros c k Hk. apply (ctrl_ok_mono L); [done|done|by eapply lookup_lt_Some|by apply (li_ctrl _ I)].
  - intros t Ht. apply (ptask_ok_mono L); [done|done|]. by apply (li_task _ I).
  - intros vs v' [Hl|[Hl Hl']]%lookup_app_Some.
    + apply (val_ok_mono L); [done|done|by apply (li_val _ I)].
    + apply list_lookup_singleton_Some in Hl' as [_ <-]. intros _.
      unfold value_pointers. by eapply all_alive_blocks.
  - apply (app_pointers_mono L (append_value v ref L) _ O G), (li_app _ I).
  - apply (li_locked _ I).
  - rewrite (held_mutexes_grow L); [apply (li_mutexes _ I)|done| |done].
    intros vs Hvs. simpl. rewrite mutex_new by done. by rewrite decide_False by lia.
Qed.

(** A callback changes the value it was given. *)
Lemma inv_insert vs v L :
  life_inv L → all_alive L (value_pointers (own L) v) →
  life_inv (with_base (State (ctrls (base L)) (<[vs := v]> (vals (base L))) (pool (base L))) L).
Proof.
  intros I Hv. set (L' := with_base _ L). pose proof (li_own _ I) as O.
  assert (grows L L') as G by (split; simpl; rewrite ?length_insert; eauto; done). split.
  - apply own_ok_base; [done|simpl; by rewrite length_insert|done].
  - intros c k Hk. apply (ctrl_ok_mono L); [done|done|by eapply lookup_lt_Some|by apply (li_ctrl _ I)].
  - intros t Ht. apply (ptask_ok_mono L); [done|done|]. by apply (li_task _ I).
  - intros vs' v' Hl. apply (val_ok_mono L); [done|done|]. simpl in Hl.
    destruct (decide (vs = vs')) as [<- |]; [|rewrite list_lookup_insert_ne in Hl by done; by apply (li_val _ I)].
    apply list_lookup_insert_Some in Hl as [(_ & <- & _)|(Hn & _)]; [|done]. by intros _.
  - apply (app_pointers_mono L L' _ O G), (li_app _ I).
  - apply (li_locked _ I).
  - apply (li_mutexes _ I).
Qed.

(** ** The members that own *)

(** Everything but the ownership itself follows from [grows]. *)
Lemma inv_own L w :
  life_inv L → grows L (set_own w L) → own_ok (set_own w L) →
  (∀ vs, vs < length (vals (base L)) → mutex_of w vs = mutex_of (own L) vs) → life_inv (set_own w L).
Proof.
  intros I G O' Hm. pose proof (li_own _ I) as O. split; [done|..].
  - intros c k Hk. apply (ctrl_ok_mono L); [done|done|by eapply lookup_lt_Some|by apply (li_ctrl _ I)].
  - intros t Ht. apply (ptask_ok_mono L); [done|done|]. by apply (li_task _ I).
  - intros vs' v' Hl. apply (val_ok_mono L); [done|done|]. by apply (li_val _ I).
  - apply (app_pointers_mono L (set_own w L) _ O G), (li_app _ I).
  - apply (li_locked _ I).
  - rewrite (held_mutexes_grow L); [apply (li_mutexes _ I)|done|done|done].
Qed.

Lemma inv_add_source c source w L :
  life_inv L → c < length (ctrls (base L)) → alive L (block (own L) source) = true →
  add_value_source c source (own L) = Some w → life_inv (set_own w L) ∧ grows L (set_own w L).
Proof.
  intros I Hc Ha. unfold add_value_source. pose proof (li_own _ I) as O.
  pose proof (alive_block_lt _ _ O Ha) as Hs. case_decide.
  { intros [= <-]. assert (grows L (set_own (own L) L)) as G by (split; simpl; eauto; done).
    split; [|done]. apply inv_own; [done|done|by destruct O|done]. }
  destruct (m_value_source (own L) !! c) eqn:E; [done|]. intros [= <-].
  match goal with |- context [set_own ?x L] => set (w := x) end.
  assert (grows L (set_own w L)) as G.
  { split; simpl; eauto; try done. intros x y Hx. destruct (decide (c = x)); [congruence|].
    by rewrite lookup_insert_ne. }
  split; [|done]. apply inv_own; [done|done| |done].
  assert (∀ x, owner_of w x = owner_of (own L) x) as Hoo by done.
  destruct O as [H1 H2 H3 H4 H5 H6 H7 H8]. split; try done.
  intros x y. simpl. destruct (decide (c = x)) as [<- |].
  - rewrite lookup_insert_eq. intros [= <-]. split_and!; [done|done|]. intros _. by eapply alive_mono.
  - rewrite lookup_insert_ne by done. apply H6.
Qed.

Lemma inv_add_dependent c d L :
  life_inv L → c < length (ctrls (base L)) → alive L (block (own L) d) = true →
  life_inv (set_own (add_dependent c d (own L)) L) ∧ grows L (set_own (add_dependent c d (own L)) L).
Proof.
  intros I Hc Ha. pose proof (li_own _ I) as O. pose proof (alive_block_lt _ _ O Ha) as Hd.
  set (w := add_dependent c d (own L)).
  assert (grows L (set_own w L)) as G.
  { split; simpl; eauto; try done. intros p Hp. rewrite elem_of_app. by left. }
  split; [|done]. apply inv_own; [done|done| |done].
  destruct O as [H1 H2 H3 H4 H5 H6 H7 H8]. split; try done.
  intros x y [Hin|[= -> ->]%list_elem_of_singleton]%elem_of_app; [by apply H7|].
  split_and!; [done|done|]. intros _. by eapply alive_mono.
Qed.

Lemma inv_mark c void L : life_inv L → life_inv (set_own (mark_ref_result c void (own L)) L).
Proof.
  intros I. pose proof (li_own _ I) as O. apply inv_own; [done| | |done].
  - split; simpl; eauto; done.
  - by destruct O.
Qed.
(** Where a reference goes matters to nobody's lifetime. *)
Lemma inv_outside vs out L : life_inv L → life_inv (set_own (refer_outside vs out (own L)) L).
Proof.
  intros I. pose proof (li_own _ I) as O. apply inv_own; [done| | |done].
  - split; simpl; eauto; done.
  - by destruct O.
Qed.

(** ** New controllers *)
Definition with_new (root : nat) L : life U :=
  Life (create_controller (base L)).2
       (Own (owner (own L) ++ [root]) (m_value_source (own L)) (m_dependent (own L)) (m_mtx (own L))
            (refers (own L)) (outside (own L)) (ref_results (own L)))
       (held_by_app L) (gone L).

Lemma owner_of_new root L c :
  own_ok L →
  owner_of (own (with_new root L)) c = if decide (c = length (ctrls (base L))) then root else owner_of (own L) c.
Proof.
  intros O. pose proof (own_owner _ O) as Hl. unfold owner_of. simpl. case_decide as E.
  - subst. by rewrite <- Hl, list_lookup_middle.
  - destruct (decide (c < length (owner (own L)))) as [Hc|Hc]; [by rewrite lookup_app_l|].
    rewrite (lookup_ge_None_2 (owner (own L))) by lia. rewrite lookup_ge_None_2; [done|].
    rewrite length_app. simpl. lia.
Qed.

Lemma grows_new root L : own_ok L → grows L (with_new root L).
Proof.
  intros O. split; try done.
  - simpl. rewrite length_app. lia.
  - intros c Hc. rewrite owner_of_new by done. by rewrite decide_False by lia.
  - intros c k vs Hk Hv. exists k. split; [by apply lookup_app_l_Some|done].
Qed.

Definition good_root (root : nat) L : Prop :=
  root = length (ctrls (base L)) ∨ (root < length (ctrls (base L)) ∧ owner_of (own L) root = root).

Lemma ctrl_fresh_ok L c : ctrl_ok L c fresh_controller.
Proof. split; try done; intros f Hf; by apply elem_of_nil in Hf. Qed.

Lemma life_inv_new root L : life_inv L → good_root root L → life_inv (with_new root L).
Proof.
  intros I Hroot. pose proof (li_own _ I) as O. pose proof (grows_new root L O) as G.
  assert (length (ctrls (base (with_new root L))) = S (length (ctrls (base L)))) as Hlen
    by (simpl; rewrite length_app; simpl; lia).
  assert (∀ x, x < length (ctrls (base L)) → block (own (with_new root L)) x = block (own L) x) as Hb.
  { intros x Hx. unfold block. rewrite owner_of_new by done. by rewrite decide_False by lia. }
  split.
  - split; rewrite ?Hlen.
    + simpl. rewrite length_app, (own_owner _ O). simpl. lia.
    + intros c Hc. rewrite !owner_of_new by done. destruct (decide (c = length (ctrls (base L)))) as [-> |Hne].
      * destruct Hroot as [-> |[Hr Ho]]; [by rewrite decide_True|]. rewrite decide_False by lia. split; [lia|done].
      * destruct (own_root _ O c) as [Hr Ho]; [lia|]. rewrite decide_False by lia. split; [lia|done].
    + apply (own_mtx _ O).
    + apply (own_mutex _ O).
    + apply (own_refers _ O).
    + intros x y (Hx & Hy & Hal)%(own_source _ O). split_and!; [lia|lia|]. rewrite !Hb by done.
      intros Hg. eapply alive_mono; eauto.
    + intros x y (Hx & Hy & Hal)%(own_dependent _ O). split_and!; [lia|lia|]. rewrite !Hb by done.
      intros Hg. eapply alive_mono; eauto.
    + intros o Hg%(own_gone _ O). destruct o as [r|vs]; [|done]. unfold created in *.
      rewrite bool_decide_eq_true in *. destruct Hg as [Hr Ho].
      rewrite owner_of_new, decide_False, Hlen by (done || lia). split; [lia|done].
  - intros c k [Hk|[Hl Hk]]%lookup_app_Some.
    + apply (ctrl_ok_mono L); [done|done|by eapply lookup_lt_Some|by apply (li_ctrl _ I)].
    + apply list_lookup_singleton_Some in Hk as [_ <-]. apply ctrl_fresh_ok.
  - intros t Ht. apply (ptask_ok_mono L); [done|done|]. by apply (li_task _ I).
  - intros vs' v' Hl. apply (val_ok_mono L); [done|done|]. by apply (li_val _ I).
  - apply (app_pointers_mono L (with_new root L) _ O G), (li_app _ I).
  - intros c vs Hin. destruct (li_locked _ I _ _ Hin) as (k & Hk & Hv). by eapply (grows_value _ _ G).
  - rewrite (held_mutexes_grow L); [apply (li_mutexes _ I)|done|done|done].
Qed.

(** The block of a new controller is alive. *)
Lemma new_alive root L :
  life_inv L → good_root root L → (root < length (ctrls (base L)) → alive L (Block root) = true) →
  alive (with_new root L) (block (own (with_new root L)) (length (ctrls (base L)))) = true.
Proof.
  intros I Hroot Ha. pose proof (li_own _ I) as O. unfold block. rewrite owner_of_new, decide_True by done.
  destruct Hroot as [-> |[Hr Ho]]; [|eapply alive_mono; [by apply grows_new|auto]].
  apply alive_spec. split.
  - unfold created. rewrite bool_decide_eq_true, owner_of_new, decide_True by done.
    simpl. rewrite length_app. simpl. split; [lia|done].
  - intros Hg%(own_gone _ O). simpl in Hg. rewrite bool_decide_eq_true in Hg. lia.
Qed.

(** ** Settling a controller *)
Lemma nvs_same st w : length (m_mtx w) = length (vals st) → new_value_states (length (vals st)) w = w.
Proof. intros H. unfold new_value_states. rewrite H, Nat.sub_diag, app_nil_r. by destruct w. Qed.

Lemma inv_set_value ref c v L :
  life_inv L → alive L (block (own L) c) = true → all_alive L (value_pointers (own L) v) →
  (∀ k, ctrls (base L) !! c = Some k → m_val_state k = None) →
  (∀ r, ref = Some r → r < length (vals (base L)) ∧ protects L (owner_of (own L) c) r) →
  life_inv (Life (set_value c v (base L)) (new_value ref (base L) (own L)) (held_by_app L) (gone L)).
Proof.
  intros I Ha Hv Hn Hr. pose proof (li_own _ I) as O. pose proof (grows_append v ref L O) as G.
  apply (inv_set_value_state c (length (vals (base L))) (append_value v ref L)).
  - apply inv_append; [done|done|]. intros r E. by apply Hr.
  - by apply (alive_block_mono L).
  - apply alive_spec. split.
    + unfold created. simpl. rewrite bool_decide_eq_true, length_app. simpl. lia.
    + intros Hg%(own_gone _ O). simpl in Hg. rewrite bool_decide_eq_true in Hg. lia.
  - intros r. simpl. rewrite refers_new, decide_True by done. intros E. destruct (Hr r E) as [_ Hp].
    destruct (new_value_same ref (base L) (own L)) as (Ho & _). unfold owner_of. rewrite Ho. by eapply protects_mono.
  - done.
Qed.

(** Every block and value that a task needs is kept. *)
Lemma elem_of_concat_fmap {A} (f : A → list obj) (l : list A) y o : y ∈ l → o ∈ f y → o ∈ concat (f <$> l).
Proof.
  intros Hy Ho. apply list_elem_of_In, in_concat. exists (f y). rewrite <- !list_elem_of_In.
  split; [by apply list_elem_of_fmap_2|done].
Qed.
Lemma elem_of_concat_imap {A} (f : nat → A → list obj) (l : list A) i y o :
  l !! i = Some y → o ∈ f i y → o ∈ concat (imap f l).
Proof.
  intros Hy Ho. apply list_elem_of_In, in_concat. exists (f i y). rewrite <- !list_elem_of_In.
  split; [|done]. apply elem_of_lookup_imap. eauto.
Qed.

Lemma in_pointers_task L t o : t ∈ pool (base L) → o ∈ task_pointers (own L) t → o ∈ pointers L.
Proof.
  intros Ht Ho. unfold pointers. rewrite !elem_of_app. right. left. by eapply elem_of_concat_fmap.
Qed.

Lemma in_pointers_ctrl L c k o :
  ctrls (base L) !! c = Some k → block (own L) c ∉ gone L → o ∈ controller_pointers (own L) c k → o ∈ pointers L.
Proof.
  intros Hk Hg Ho. unfold pointers. rewrite !elem_of_app. right. right. left.
  eapply elem_of_concat_imap; [done|]. by rewrite decide_False.
Qed.

Lemma in_pointers_value L vs v o :
  vals (base L) !! vs = Some v → ValueState vs ∉ gone L → o ∈ value_pointers (own L) v → o ∈ pointers L.
Proof.
  intros Hk Hg Ho. unfold pointers. rewrite !elem_of_app. do 3 right.
  eapply elem_of_concat_imap; [done|]. by rewrite decide_False.
Qed.

(** The members of a controller, one by one. *)
Lemma member_value w c k vs :
  m_val_state k = Some vs → ValueState vs ∈ controller_pointers (U := U) w c k.
Proof. intros E. unfold controller_pointers. rewrite elem_of_app. left. rewrite E. by left. Qed.
Lemma member_succ w c k f o :
  f ∈ m_on_success_queue k → o ∈ succ_captures w f → o ∈ controller_pointers (U := U) w c k.
Proof.
  intros Hf Ho. unfold controller_pointers. rewrite !elem_of_app. right. left. by eapply elem_of_concat_fmap.
Qed.
Lemma member_fail w c k f o :
  f ∈ m_on_fail_queue k → o ∈ fail_captures w f → o ∈ controller_pointers (U := U) w c k.
Proof.
  intros Hf Ho. unfold controller_pointers. rewrite !elem_of_app. do 2 right. left. by eapply elem_of_concat_fmap.
Qed.
Lemma member_source w c k y :
  m_value_source w !! c = Some y → block w y ∈ controller_pointers (U := U) w c k.
Proof. intros E. unfold controller_pointers. rewrite E, !elem_of_app. do 3 right. left. by left. Qed.
Lemma member_dependent w c k d :
  (c, d) ∈ m_dependent w → block w d ∈ controller_pointers (U := U) w c k.
Proof.
  intros E. unfold controller_pointers. rewrite !elem_of_app. do 4 right.
  apply (list_elem_of_fmap_2 (block w ∘ snd) _ (c, d)). by apply list_elem_of_filter.
Qed.

Lemma use_count_pos L o : o ∈ pointers L → use_count L o ≠ 0.
Proof.
  intros Ho Hz%length_zero_iff_nil. assert (o ∈ filter (o =.) (pointers L)) as Hf by (by apply list_elem_of_filter).
  rewrite Hz in Hf. by apply elem_of_nil in Hf.
Qed.

(** The child of a callback that a task calls: held by the task itself or by
    the controller the task holds. *)
Lemma dependent_kept L c d :
  life_inv L → alive L (block (own L) c) = true → (c, d) ∈ m_dependent (own L) →
  alive L (block (own L) d) = true ∧ block (own L) d ∈ pointers L.
Proof.
  intros I Ha Hd. pose proof (li_own _ I) as O. pose proof (alive_not_gone _ _ Ha) as Hg.
  destruct (own_dependent _ O _ _ Hd) as (Hc & _ & Hal). split; [auto|].
  destruct (lookup_lt_is_Some_2 _ _ Hc) as [k Hk]. eapply in_pointers_ctrl; [done|done|].
  by apply member_dependent.
Qed.

Lemma success_child_kept L c f :
  life_inv L → TCallSuccess c f ∈ pool (base L) →
  alive L (block (own L) (starget f)) = true ∧ block (own L) (starget f) ∈ pointers L.
Proof.
  intros I Ht. destruct (li_task _ I _ Ht) as [Hp [_ Hl]].
  assert (∀ o, o ∈ task_pointers (own L) (TCallSuccess c f) → alive L o = true ∧ o ∈ pointers L) as Hin.
  { intros o Ho. split; [|by eapply in_pointers_task]. unfold all_alive in Hp. rewrite Forall_forall in Hp. auto. }
  destruct (Hin (block (own L) c)) as [Hc _]; [left|].
  destruct f as [t d|v d|v d|v d|v t d|v vs d|e d]; simpl in *;
    try (unfold block; rewrite Hl; apply Hin; left).
  - apply Hin. right. left.
  - by eapply dependent_kept, Hl.
  - by eapply dependent_kept, Hl.
Qed.
Lemma fail_child_kept L c f :
  life_inv L → TCallFail c f ∈ pool (base L) →
  alive L (block (own L) (ftarget f)) = true ∧ block (own L) (ftarget f) ∈ pointers L.
Proof.
  intros I Ht. destruct (li_task _ I _ Ht) as [Hp [_ Hl]].
  assert (∀ o, o ∈ task_pointers (own L) (TCallFail c f) → alive L o = true ∧ o ∈ pointers L) as Hin.
  { intros o Ho. split; [|by eapply in_pointers_task]. unfold all_alive in Hp. rewrite Forall_forall in Hp. auto. }
  destruct (Hin (block (own L) c)) as [Hc _]; [left|].
  destruct f as [d|d|v t d|t d]; simpl in *; try (unfold block; rewrite Hl; apply Hin; left).
  - destruct Hl as [Hl|Hl]; [unfold block; rewrite Hl; apply Hin; left|by eapply dependent_kept].
  - apply Hin. right. left.
Qed.

(** The value state of a controller that is kept. *)
Lemma value_kept L c k vs :
  life_inv L → alive L (block (own L) c) = true → ctrls (base L) !! c = Some k → m_val_state k = Some vs →
  alive L (ValueState vs) = true ∧
  all_alive L (value_pointers (own L) (default VVoid (vals (base L) !! vs))).
Proof.
  intros I Ha Hk Hv. pose proof (ctrl_val _ _ _ (li_ctrl _ I _ _ Hk) _ Hv (alive_not_gone _ _ Ha)) as Hvs.
  split; [done|]. destruct (vals (base L) !! vs) eqn:E; [|by constructor].
  apply (li_val _ I _ _ E). by apply alive_not_gone.
Qed.

Lemma handles_alive L c : life_inv L → c ∈ handles (held_by_app L) → alive L (block (own L) c) = true.
Proof.
  intros I Hc. pose proof (li_app _ I) as Ha. unfold app_pointers in Ha. rewrite !all_alive_app in Ha.
  destruct Ha as (_ & Hh & _). unfold all_alive in Hh. rewrite Forall_fmap, Forall_forall in Hh. by apply Hh.
Qed.

(** Futures that a callback returns are kept by the application or by what
    the callback received. *)
Lemma known_alive L t c :
  life_inv L → t ∈ pool (base L) → c ∈ handles (held_by_app L) ++ received t L →
  alive L (block (own L) c) = true.
Proof.
  intros I Ht [Hc|Hc]%elem_of_app; [by apply handles_alive|].
  pose proof (li_task _ I _ Ht) as [Hp _].
  destruct t as [|d|d f|]; simpl in Hc; try (by apply elem_of_nil in Hc).
  destruct f; try (by apply elem_of_nil in Hc).
  simpl in Hp. apply Forall_cons in Hp as [Hd _].
  apply elem_of_cons in Hc as [-> |Hc]; [done|].
  destruct (ctrls (base L) !! d) as [k|] eqn:Hk; simpl in Hc; [|by apply elem_of_nil in Hc].
  destruct (m_val_state k) as [vs|] eqn:Hv; [|by apply elem_of_nil in Hc].
  destruct (value_kept _ _ _ _ I Hd Hk Hv) as [_ Hf]. unfold all_alive, value_pointers in Hf.
  rewrite Forall_fmap, Forall_forall in Hf. by apply Hf.
Qed.
Lemma returned_alive L t cs :
  life_inv L → t ∈ pool (base L) → cs ⊆ handles (held_by_app L) ++ received t L →
  all_alive L (block (own L) <$> cs).
Proof.
  intros I Ht Hcs. unfold all_alive. rewrite Forall_fmap, Forall_forall. intros c Hc. simpl.
  by apply (known_alive _ t), Hcs.
Qed.
End facts.
