(* ===== verification/FutureLifeSafety.v ===== *)
(** * Steps of futures with their owners

    Every step of the system keeps the invariant of ownership, and what
    follows: no weak pointer that is locked is expired, no reference is
    dangling, no object is locked twice. *)
From S2P Require Import Prelude Future FutureFacts FutureLife FutureLifeFacts.
Import Future FutureLife.
Local Open Scope nat_scope.

Section safety.
Context {U : Type}.
Implicit Types (st : state U) (w : ownership) (L : life U).

(** ** Operations with the value states they make *)
Lemma rebase_same st L : life_inv L → length (vals st) = length (vals (base L)) → rebase st L = with_base st L.
Proof.
  intros I H. unfold rebase, with_base. rewrite nvs_same; [done|]. by rewrite H, (own_mtx _ (li_own _ I)).
Qed.
Lemma rebase_new st L :
  length (vals st) = S (length (vals (base L))) →
  rebase st L = Life st (new_value None (base L) (own L)) (held_by_app L) (gone L).
Proof. intros H. unfold rebase. by rewrite H. Qed.

Lemma life_set_exception c e L :
  life_inv L → alive L (block (own L) c) = true → life_inv (rebase (set_exception c e (base L)) L).
Proof. intros I Ha. rewrite rebase_same by done. by apply inv_set_exception. Qed.

Lemma life_set_value c v L :
  life_inv L → alive L (block (own L) c) = true → all_alive L (value_pointers (own L) v) →
  (∀ k, ctrls (base L) !! c = Some k → m_val_state k = None) →
  life_inv (rebase (set_value c v (base L)) L).
Proof.
  intros I Ha Hv Hn. rewrite rebase_new by (simpl; rewrite length_app; simpl; lia).
  by apply inv_set_value.
Qed.

Lemma life_forward_value void c vs L :
  life_inv L → alive L (block (own L) c) = true →
  (void = false → alive L (ValueState vs) = true ∧
     ∀ r, refers (own L) !! vs = Some r → protects L (owner_of (own L) c) r) →
  (∀ k, ctrls (base L) !! c = Some k → m_val_state k = None) →
  life_inv (rebase (forward_value void c vs (base L)) L).
Proof.
  intros I Ha Hvs Hn. destruct void; simpl; [by apply life_set_value; [| |constructor|]|].
  destruct (Hvs eq_refl) as [Hav Hr]. rewrite rebase_same by done. by apply inv_set_value_state.
Qed.

Lemma life_register c s f L :
  life_inv L → alive L (block (own L) c) = true → link_s L c s → link_f L c f →
  all_alive L (succ_captures (own L) s) → all_alive L (fail_captures (own L) f) →
  life_inv (rebase (set_on_success_and_fail c s f (base L)) L).
Proof. intros I ?????. rewrite rebase_same by done. by apply life_inv_register. Qed.

(** ** Running a callback *)

(** The state of a call: task [t] is taken, its controller [c] and the child
    [d] are kept, and the child is not settled. *)
Record calling L (c d : nat) : Prop := {
  call_inv : life_inv L;
  call_ctrl : alive L (block (own L) c) = true;
  call_child : alive L (block (own L) d) = true;
  call_lt : d < length (ctrls (base L));
  call_fresh k : ctrls (base L) !! d = Some k → m_val_state k = None
}.

(** The value of a controller that is called. *)
Definition has_state L (c vs : nat) : Prop := ∃ k, ctrls (base L) !! c = Some k ∧ m_val_state k = Some vs.

Lemma calling_value L c d vs :
  calling L c d → has_state L c vs →
  alive L (ValueState vs) = true ∧ vs < length (vals (base L)) ∧
  (∀ r, refers (own L) !! vs = Some r → protects L (owner_of (own L) c) r) ∧
  all_alive L (value_pointers (own L) (default VVoid (vals (base L) !! vs))).
Proof.
  intros [I Hc _ _ _] (k & Hk & Hv). destruct (value_kept _ _ _ _ I Hc Hk Hv) as [Hav Hp].
  pose proof (li_ctrl _ I _ _ Hk) as Hok. split_and!; [done|by apply (ctrl_bound _ _ _ Hok)| |done].
  intros r. by apply (ctrl_ref _ _ _ Hok).
Qed.

Lemma calling_forward L c d void vs :
  calling L c d → has_state L c vs → owner_of (own L) d = owner_of (own L) c →
  life_inv (rebase (forward_value void d vs (base L)) L).
Proof.
  intros C Hs Ho. destruct (calling_value _ _ _ _ C Hs) as (Hv & _ & Hr & _). destruct C as [I Hc Hd _ Hf].
  apply life_forward_value; [done|done| |done]. intros _. rewrite Ho. eauto.
Qed.

Lemma calling_set_exception L c d e : calling L c d → life_inv (rebase (set_exception d e (base L)) L).
Proof. intros [I Hc Hd _ _]. by apply life_set_exception. Qed.

(** [exec_then_on_success], with a reference into the value when the callback
    returns one. *)
Lemma calling_then L c d vs t out :
  calling L c d → has_state L c vs → owner_of (own L) d = owner_of (own L) c →
  (let r := t (default VVoid (vals (base L) !! vs)) in
   all_alive L (block (own L) <$> value_futures r.1 ++ cres_futures r.2)) →
  let st' := exec_then_on_success d vs t (base L) in
  ∃ w, success_ownership c vs (SThen t d) out st' L = Some w ∧ life_inv (set_own w (rebase st' L)).
Proof.
  intros C Hs Ho Hret. destruct (calling_value _ _ _ _ C Hs) as (Hv & Hb & Hr & _).
  destruct C as [I Hc Hd Hlt Hf]. unfold success_ownership, exec_then_on_success.
  destruct (t _) as [v' r]. cbn [fst snd] in *. rewrite fmap_app, all_alive_app in Hret. destruct Hret as [Hv' Hres].
  set (L1 := with_base (State (ctrls (base L)) (<[vs := v']> (vals (base L))) (pool (base L))) L).
  assert (life_inv L1) as I1 by (by apply inv_insert).
  assert (length (vals (base L1)) = length (vals (base L))) as Hl by (simpl; by rewrite length_insert).
  assert (∀ o, alive L1 o = alive L o) as Ha1 by (intros o; by apply alive_same).
  assert (∀ os, all_alive L os → all_alive L1 os) as Haa.
  { intros os H. eapply Forall_impl; [done|]. intros o. by rewrite Ha1. }
  assert (∀ st', rebase st' L = rebase st' L1) as Hre by done.
  assert (∀ L', set_own (own L') L' = L') as Hso by (by intros []).
  destruct r as [x|e|fc].
  - assert (∀ ref, (ref = Some vs → owner_of (own L) d = owner_of (own L) c) → ref = Some vs ∨ ref = None →
      life_inv (Life (set_value d x (base L1)) (new_value ref (base L1) (own L1)) (held_by_app L1) (gone L1))) as Hset.
    { intros ref _ Href. apply inv_set_value; [done|by rewrite Ha1|by apply Haa|done|].
      intros r E. destruct Href as [-> | ->]; simplify_eq. rewrite Hl. split; [done|].
      destruct Hs as (k & Hk & Hvk). exists c, k. split_and!; [done|done|]. simpl. by rewrite Ho. }
    eexists; split; [reflexivity|]. rewrite Hre, rebase_new by (simpl; rewrite length_app; simpl; lia).
    unfold set_own. cbn [base own held_by_app gone]. rewrite <- Hl.
    destruct (ref_results (own L) !! d) as [[]|] eqn:Er; simpl in Er |- *; rewrite ?Er.
    + by apply (inv_outside _ out (Life _ _ _ _)), (Hset None); auto.
    + by apply (inv_outside _ out (Life _ _ _ _)), (Hset (Some vs)); auto.
    + apply (Hset None); auto.
  - eexists; split; [reflexivity|]. rewrite Hre, Hso.
    apply (life_set_exception d e L1); [done|by rewrite Ha1].
  - eexists; split; [reflexivity|]. rewrite Hre, Hso.
    apply (life_set_value d (VFut fc) L1); [done|by rewrite Ha1| |done].
    apply Haa. by destruct fc.
Qed.

Lemma calling_flatten L c d vs void out :
  calling L c d → has_state L c vs →
  let st' := exec_flatten void d vs (base L) in
  ∃ w, success_ownership c vs (SFlatten void d) out st' L = Some w ∧ life_inv (set_own w (rebase st' L)).
Proof.
  intros C Hs. destruct (calling_value _ _ _ _ C Hs) as (_ & _ & _ & Hp).
  destruct C as [I Hc Hd Hlt Hf]. unfold success_ownership, exec_flatten.
  set (L1 := with_base (State (ctrls (base L)) (<[vs := VFut None]> (vals (base L))) (pool (base L))) L).
  assert (life_inv L1) as I1 by (by apply inv_insert; [|constructor]).
  assert (length (vals (base L1)) = length (vals (base L))) as Hl by (simpl; by rewrite length_insert).
  assert (∀ o, alive L1 o = alive L o) as Ha1 by (intros o; by apply alive_same).
  assert (∀ st', rebase st' L = rebase st' L1) as Hre by done.
  assert (∀ L', set_own (own L') L' = L') as Hso by (by intros []).
  assert (life_inv (rebase (set_exception d logic_error (base L1)) L1)) as Hexn
    by (apply life_set_exception; [done|by rewrite Ha1]).
  destruct (default VVoid (vals (base L) !! vs)) as [|u|[ic|]].
  1,2,4: eexists; (split; [reflexivity|]); by rewrite Hre, Hso.
  unfold value_pointers, all_alive in Hp. simpl in Hp. rewrite Forall_singleton in Hp. cbn [usable]. rewrite Hp.
  eexists; split; [reflexivity|]. rewrite Hre, Hso.
  apply (life_register ic _ _ L1); [done|by rewrite Ha1|done|done|..];
    (apply Forall_singleton; cbv beta; by rewrite Ha1).
Qed.

Lemma set_own_id L : set_own (own L) L = L.
Proof. by destruct L. Qed.

(** The child takes the value of another future and keeps that future. *)
Lemma calling_adopt L c d vs void out :
  calling L c d → has_state L c vs → m_value_source (own L) !! d = None →
  let st' := forward_value void d vs (base L) in
  ∃ w, success_ownership c vs (SAdopt void d) out st' L = Some w ∧ life_inv (set_own w (rebase st' L)).
Proof.
  intros C Hs Hsrc. destruct (calling_value _ _ _ _ C Hs) as (Hv & _ & Hr & _).
  destruct C as [I Hc Hd Hlt Hf]. destruct void; cbn [forward_value success_ownership].
  { eexists; split; [reflexivity|]. rewrite set_own_id.
    apply (life_forward_value true d vs L); done. }
  rewrite rebase_same by done. cbn [with_base own].
  destruct (add_value_source d c (own L)) as [w|] eqn:E;
    [|unfold add_value_source in E; rewrite Hsrc in E; by case_decide].
  exists w. split; [done|]. destruct (inv_add_source _ _ _ _ I Hlt Hc E) as [Iw G].
  apply (inv_set_value_state d vs (set_own w L)); [done| |by eapply alive_mono| |done].
  - by apply (alive_block_mono L); [apply (li_own _ I)| |].
  - intros r Hre. assert (refers (own L) !! vs = Some r) as Hre'.
    { rewrite <- (grows_refers _ _ G); [done|]. apply alive_spec in Hv as [Hcr _]. simpl in Hcr.
      by rewrite bool_decide_eq_true in Hcr. }
    specialize (Hr _ Hre'). pose proof (alive_block_lt _ _ (li_own _ I) Hc) as Hcl.
    unfold add_value_source in E. case_decide as Ho.
    + injection E as <-. simpl. by rewrite Ho; eapply protects_mono.
    + rewrite Hsrc in E. injection E as <-.
      destruct (protects_mono _ _ _ _ G Hr) as (c' & k' & Hk' & Hv' & Hrt). exists c', k'. split_and!; [done|done|].
      eapply rtc_l; [|exact Hrt]. exists d, c. split_and!; try done. simpl. by rewrite lookup_insert_eq.
Qed.

(** A [finally] callback returned a future: it keeps the child as long as it
    is kept itself. *)
Lemma calling_finally_future L c d ic s :
  calling L c d → owner_of (own L) d = owner_of (own L) c → alive L (block (own L) ic) = true →
  starget s = d → (∀ L', grows L L' → (ic, d) ∈ m_dependent (own L') → link_s L' ic s) →
  all_alive L (succ_captures (own L) s) →
  let st' := set_on_success_and_fail ic s (FProp d) (base L) in
  ∃ w, finally_future L (FFut (Some ic)) d (own (rebase st' L)) = Some w ∧ life_inv (set_own w (rebase st' L)).
Proof.
  intros [I Hc Hd Hlt Hf] Ho Hic Hs Hlink Hcap. unfold finally_future. cbv zeta.
  rewrite rebase_same by done. rewrite Hic.
  eexists; split; [reflexivity|]. cbn [with_base own].
  pose proof (alive_block_lt _ _ (li_own _ I) Hic) as Hicl.
  destruct (inv_add_dependent ic d L I Hicl Hd) as [Iw G].
  assert ((ic, d) ∈ m_dependent (add_dependent ic d (own L))) as Hin by (simpl; apply elem_of_app; right; left).
  apply (life_inv_register ic s (FProp d) (set_own (add_dependent ic d (own L)) L)); [done| | | | |by constructor].
  - by apply (alive_block_mono L); [apply (li_own _ I)| |].
  - by apply Hlink.
  - split; [done|by right].
  - by apply (succ_captures_mono L); [apply (li_own _ I)| |].
Qed.

Lemma calling_finally L c d vs void t out :
  calling L c d → has_state L c vs → owner_of (own L) d = owner_of (own L) c →
  all_alive L (block (own L) <$> fres_futures (t tt)) →
  let st' := exec_finally_success void t d vs (base L) in
  ∃ w, success_ownership c vs (SFinally void t d) out st' L = Some w ∧ life_inv (set_own w (rebase st' L)).
Proof.
  intros C Hs Ho Hret. unfold exec_finally_success, success_ownership.
  destruct (calling_value _ _ _ _ C Hs) as (Hv & Hb & Hr & _).
  destruct (t tt) as [|e|[ic|]].
  - eexists; split; [reflexivity|]. rewrite set_own_id. by eapply calling_forward.
  - eexists; split; [reflexivity|]. rewrite set_own_id. by eapply calling_set_exception.
  - simpl in Hret. unfold all_alive in Hret. rewrite Forall_singleton in Hret.
    eapply calling_finally_future; [done|done|done|done| |].
    + intros L' G Hin. destruct C as [I Hc Hd Hlt Hf]. split; [simpl; pose proof (grows_ctrls _ _ G); lia|].
      split_and!; [done|pose proof (grows_vals _ _ G); lia|]. intros r. rewrite (grows_refers _ _ G) by done.
      intros Hre. rewrite (grows_owner _ _ G), Ho by done. eapply protects_mono; [done|]. by apply Hr.
    + destruct void; [by constructor|]. by apply Forall_singleton.
  - eexists; split; [reflexivity|]. rewrite set_own_id. by eapply calling_set_exception.
Qed.

Lemma calling_finally_fail L c d e t out :
  calling L c d → owner_of (own L) d = owner_of (own L) c →
  all_alive L (block (own L) <$> fres_futures (t tt)) →
  let st' := exec_finally_fail t d e (base L) in
  ∃ w, fail_ownership e (FFinally t d) out L st' = Some w ∧ life_inv (set_own w (rebase st' L)).
Proof.
  intros C Ho Hret. unfold exec_finally_fail, fail_ownership.
  destruct (t tt) as [|e'|[ic|]].
  1,2,4: eexists; (split; [reflexivity|]); rewrite set_own_id; by eapply calling_set_exception.
  simpl in Hret. unfold all_alive in Hret. rewrite Forall_singleton in Hret.
  eapply calling_finally_future; [done|done|done|done| |by constructor].
  intros L' G Hin. destruct C as [I Hc Hd Hlt Hf]. split; [simpl; pose proof (grows_ctrls _ _ G); lia|done].
Qed.

Lemma calling_catched_fail L c d e void t out :
  calling L c d → owner_of (own L) d = owner_of (own L) c →
  all_alive L (block (own L) <$> cres_futures (t e)) →
  let st' := exec_catched_fail void t d e (base L) in
  ∃ w, fail_ownership e (FCatched void t d) out L st' = Some w ∧ life_inv (set_own w (rebase st' L)).
Proof.
  intros C Ho Hret. unfold exec_catched_fail, fail_ownership.
  pose proof C as [I Hc Hd Hlt Hf].
  destruct (t e) as [x|e'|[ic|]]; simpl in Hret; cbn [usable].
  - eexists; split; [reflexivity|].
    assert (life_inv (rebase (set_value d (if void then VVoid else x) (base L)) L)) as I'
      by (apply life_set_value; [done|done|destruct void; [by constructor|done]|done]).
    destruct void; [by rewrite set_own_id|]. by apply inv_outside.
  - eexists; split; [reflexivity|]. rewrite set_own_id. by eapply calling_set_exception.
  - unfold all_alive in Hret. rewrite Forall_singleton in Hret. rewrite Hret.
    eexists; split; [reflexivity|]. rewrite set_own_id.
    apply life_register; [done|done|done|done|..]; by apply Forall_singleton.
  - eexists; split; [reflexivity|]. rewrite set_own_id. by eapply calling_set_exception.
Qed.

(** ** Running a task *)

(** A controller has a value source only once it is settled. *)
Definition sources_settled L : Prop :=
  ∀ x y, m_value_source (own L) !! x = Some y → ∃ k, ctrls (base L) !! x = Some k ∧ is_settled k = true.

Definition taken ts1 ts2 L : life U := with_base (State (ctrls (base L)) (vals (base L)) (ts1 ++ ts2)) L.

Lemma calling_unsettled L ts1 t ts2 d :
  sys_inv (erase L) → pool (base L) = ts1 ++ t :: ts2 → ttok t = [d] →
  ∃ k, ctrls (base L) !! d = Some k ∧ is_settled k = false.
Proof.
  intros [Iv _] Hp Ht. destruct L as [[cs vs p] w a g]; simpl in *. subst p.
  apply (inv_hole_fresh d (State cs vs (ts1 ++ ts2)) (promises a)). by eapply FutureFacts.inv_take.
Qed.

Lemma calling_intro L ts1 t ts2 c d :
  life_inv L → sys_inv (erase L) → pool (base L) = ts1 ++ t :: ts2 → ttok t = [d] →
  block (own L) c ∈ task_pointers (own L) t → alive L (block (own L) d) = true →
  calling (taken ts1 ts2 L) c d ∧ ∀ k, ctrls (base L) !! d = Some k → is_settled k = false.
Proof.
  intros I S Hp Ht Hc Hd. destruct (calling_unsettled _ _ _ _ _ S Hp Ht) as (k & Hk & Hs).
  assert (t ∈ pool (base L)) as Hin by (rewrite Hp; apply elem_of_app; right; left).
  split; [|intros k' Hk'; congruence]. split.
  - apply life_inv_take; [done|]. rewrite Hp. intros x. by apply elem_of_add_mid.
  - pose proof (li_task _ I _ Hin) as [Hal _]. unfold all_alive in Hal. rewrite Forall_forall in Hal. by apply Hal.
  - done.
  - by eapply lookup_lt_Some.
  - simpl. intros k' Hk'. assert (k' = k) as -> by congruence. unfold is_settled in Hs. by destruct (m_val_state k).
Qed.

Lemma pool_mid L ts1 t ts2 : pool (base L) = ts1 ++ t :: ts2 → t ∈ pool (base L).
Proof. intros ->. apply elem_of_app. right. left. Qed.

Lemma success_run L ts1 c f ts2 vs out :
  life_inv L → sys_inv (erase L) → sources_settled L → pool (base L) = ts1 ++ TCallSuccess c f :: ts2 →
  has_state L c vs → all_alive L (block (own L) <$> returned (TCallSuccess c f) L) →
  let L0 := taken ts1 ts2 L in let st' := call_success c f (base L0) in
  ∃ w, success_ownership c vs f out st' L0 = Some w ∧ life_inv (set_own w (rebase st' L0)).
Proof.
  intros I S Hsrc Hp Hs Hret. pose proof (pool_mid _ _ _ _ Hp) as Hin.
  pose proof (li_task _ I _ Hin) as [Hptr [Hlt Hlink]].
  destruct (success_child_kept _ _ _ I Hin) as [Hd _].
  destruct (calling_intro L ts1 (TCallSuccess c f) ts2 c (starget f) I S Hp eq_refl) as [C Huns]; [left|done|].
  assert (ctrls (base L) !! c ≫= m_val_state = Some vs) as Hcv by (destruct Hs as (k & -> & Hv); done).
  unfold call_success. cbn [taken with_base base ctrls]. rewrite Hcv.
  destruct f as [t d|v d|v d|v d|v t d|v vs' d|e d]; cbn [starget returned] in *; rewrite ?Hcv in Hret.
  - by apply (calling_then (taken ts1 ts2 L) c).
  - by apply (calling_flatten (taken ts1 ts2 L) c).
  - apply (calling_adopt (taken ts1 ts2 L) c); [done|done|].
    destruct (m_value_source (own L) !! d) eqn:E; [|done].
    destruct (Hsrc _ _ E) as (k' & Hk' & Hset). specialize (Huns _ Hk'). congruence.
  - eexists; split; [reflexivity|]. rewrite set_own_id. by apply (calling_forward (taken ts1 ts2 L) c).
  - by apply (calling_finally (taken ts1 ts2 L) c).
  - eexists; split; [reflexivity|]. rewrite set_own_id. destruct C as [? ? ? ? ?].
    apply (life_forward_value v d vs' (taken ts1 ts2 L)); [done|done| |done].
    intros ->. destruct Hlink as (_ & _ & Hr). split; [|done].
    simpl in Hptr. apply Forall_cons in Hptr as [_ Hptr]. by apply Forall_inv in Hptr.
  - eexists; split; [reflexivity|]. rewrite set_own_id. by eapply (calling_set_exception (taken ts1 ts2 L)).
Qed.

Lemma fail_run L ts1 c f ts2 e out :
  life_inv L → sys_inv (erase L) → pool (base L) = ts1 ++ TCallFail c f :: ts2 →
  ctrls (base L) !! c ≫= m_exception = Some e → all_alive L (block (own L) <$> returned (TCallFail c f) L) →
  let L0 := taken ts1 ts2 L in let st' := call_fail c f (base L0) in
  ∃ w, fail_ownership e f out L0 st' = Some w ∧ life_inv (set_own w (rebase st' L0)).
Proof.
  intros I S Hp Hce Hret. pose proof (pool_mid _ _ _ _ Hp) as Hin.
  pose proof (li_task _ I _ Hin) as [_ [_ Hlink]]. destruct (fail_child_kept _ _ _ I Hin) as [Hd _].
  destruct (calling_intro L ts1 (TCallFail c f) ts2 c (ftarget f) I S Hp eq_refl) as [C _]; [left|done|].
  unfold call_fail. cbn [taken with_base base ctrls]. rewrite Hce.
  destruct f as [d|d|v t d|t d]; cbn [ftarget returned] in *; rewrite ?Hce in Hret.
  1,2: eexists; (split; [reflexivity|]); rewrite set_own_id; by eapply (calling_set_exception (taken ts1 ts2 L)).
  - by apply (calling_catched_fail (taken ts1 ts2 L) c).
  - by apply (calling_finally_fail (taken ts1 ts2 L) c).
Qed.

(** No assertion of a task fails, and the task keeps the invariant. *)
Lemma run_ok L ts1 t ts2 out :
  life_inv L → sys_inv (erase L) → sources_settled L → pool (base L) = ts1 ++ t :: ts2 →
  all_alive L (block (own L) <$> returned t L) →
  ∃ L', life_run t out (base (taken ts1 ts2 L)) L = Some L' ∧ life_inv L'.
Proof.
  intros I S Hsrc Hp Hret. pose proof (pool_mid _ _ _ _ Hp) as Hin.
  pose proof (li_task _ I _ Hin) as [Hptr _].
  assert (life_inv (taken ts1 ts2 L)) as I0.
  { apply life_inv_take; [done|]. rewrite Hp. intros x. by apply elem_of_add_mid. }
  destruct t as [c|c|c f|c f]; cbn [life_run run_task].
  - eexists; split; [done|]. apply Forall_inv in Hptr.
    change (rebase ?x L) with (rebase x (taken ts1 ts2 L)).
    rewrite rebase_same; [by apply life_inv_process_success|done|unfold process_success; by repeat case_match].
  - eexists; split; [done|]. apply Forall_inv in Hptr.
    change (rebase ?x L) with (rebase x (taken ts1 ts2 L)).
    rewrite rebase_same; [by apply life_inv_process_fail|done|unfold process_fail; by repeat case_match].
  - destruct (success_child_kept _ _ _ I Hin) as [_ Hkept].
    unfold expired. rewrite bool_decide_eq_false_2 by (by apply use_count_pos).
    destruct (inv_call_s _ _ _ (proj1 S) c f) as (k & Hk & [vs Hvs]); [done|].
    destruct (success_run L ts1 c f ts2 vs out I S Hsrc Hp) as (w & Hw & Iw); [by exists k|done|].
    simpl in Hk. cbn [taken with_base base ctrls] in *. rewrite Hk. simpl. rewrite Hvs.
    change (success_ownership c vs f out ?x L) with (success_ownership c vs f out x (taken ts1 ts2 L)).
    rewrite Hw. eexists; split; [done|]. exact Iw.
  - destruct (fail_child_kept _ _ _ I Hin) as [_ Hkept].
    unfold expired. rewrite bool_decide_eq_false_2 by (by apply use_count_pos).
    destruct (inv_call_f _ _ _ (proj1 S) c f) as (k & Hk & [e He]); [done|].
    destruct (fail_run L ts1 c f ts2 e out I S Hp) as (w & Hw & Iw); [by simpl in Hk; rewrite Hk|done|].
    simpl in Hk. cbn [taken with_base base ctrls] in *. rewrite Hk. simpl. rewrite He.
    change (fail_ownership e f out L ?x) with (fail_ownership e f out (taken ts1 ts2 L) x).
    rewrite Hw. eexists; split; [done|]. exact Iw.
Qed.

(** ** What the application does *)
Lemma inv_set_app a L :
  life_inv L → all_alive L (app_pointers (own L) a) → locked a = locked (held_by_app L) → life_inv (set_app a L).
Proof.
  intros [O Hc Ht Hv Ha Hl Hm] Hp Hlk. split; try done.
  - by destruct O; split.
  - intros c k Hk. by destruct (Hc _ _ Hk); split.
  - simpl. rewrite Hlk. apply Hl.
  - unfold held_mutexes. simpl. by rewrite Hlk.
Qed.

Lemma app_pointers_split L a :
  all_alive L (app_pointers (own L) a) ↔
  (∀ p, p ∈ promises a → all_alive L (promise_pointers (own L) p)) ∧
  (∀ c, c ∈ handles a → alive L (block (own L) c) = true) ∧
  (∀ l, l ∈ locked a → all_alive L (locked_pointers (own L) l)).
Proof.
  unfold app_pointers. rewrite !all_alive_app, !all_alive_concat. unfold all_alive at 2.
  rewrite Forall_fmap, Forall_forall. done.
Qed.

Lemma inv_set_handles hs L :
  life_inv L → (∀ c, c ∈ hs → alive L (block (own L) c) = true) → life_inv (set_handles hs L).
Proof.
  intros I Hh. apply inv_set_app; [done| |done]. apply app_pointers_split.
  pose proof (proj1 (app_pointers_split _ _) (li_app _ I)) as (? & _ & ?). by split_and!.
Qed.
Lemma inv_hold c L : life_inv L → alive L (block (own L) c) = true → life_inv (hold c L).
Proof.
  intros I Ha. apply inv_set_handles; [done|]. intros x [-> |Hx]%elem_of_cons; [done|by apply handles_alive].
Qed.
Lemma inv_set_promises ps L :
  life_inv L → (∀ p, p ∈ ps → all_alive L (promise_pointers (own L) p)) → life_inv (set_promises ps L).
Proof.
  intros I Hps. apply inv_set_app; [done| |done]. apply app_pointers_split.
  pose proof (proj1 (app_pointers_split _ _) (li_app _ I)) as (_ & ? & ?). by split_and!.
Qed.

Lemma promise_alive L p :
  life_inv L → p ∈ promises (held_by_app L) → all_alive L (promise_pointers (own L) p).
Proof. intros I. by apply (proj1 (app_pointers_split _ _) (li_app _ I)). Qed.
Lemma promise_controller_alive L p c :
  all_alive L (promise_pointers (own L) p) → p_controller p = Some c → alive L (block (own L) c) = true.
Proof. intros H E. unfold promise_pointers in H. rewrite E in H. by apply Forall_inv in H. Qed.
Lemma promise_pointers_sub L p p' :
  all_alive L (promise_pointers (own L) p) →
  p_controller p' = p_controller p ∨ p_controller p' = None →
  p_future p' = p_future p ∨ p_future p' = None → all_alive L (promise_pointers (own L) p').
Proof.
  unfold promise_pointers. rewrite !all_alive_app. intros [H1 H2] [-> | ->] [-> | ->]; split; try done; by constructor.
Qed.

(** Blocks stay alive when the base changes without new controllers. *)
Lemma alive_rebase st L o :
  length (ctrls st) = length (ctrls (base L)) → length (vals (base L)) ≤ length (vals st) →
  alive L o = true → alive (rebase st L) o = true.
Proof.
  intros Hc Hv. rewrite !alive_spec. intros [Hcr Hg]. split; [|done].
  destruct o; simpl in *; rewrite bool_decide_eq_true in *; unfold owner_of in *; simpl in *; [|lia].
  by rewrite Hc.
Qed.
Lemma all_alive_rebase st L os :
  length (ctrls st) = length (ctrls (base L)) → length (vals (base L)) ≤ length (vals st) →
  all_alive L os → all_alive (rebase st L) os.
Proof. intros Hc Hv H. eapply Forall_impl; [done|]. intros o. by apply alive_rebase. Qed.

Lemma inv_abandon p L :
  life_inv L → all_alive L (promise_pointers (own L) p) →
  life_inv (rebase (abandon p (base L)).2 L) ∧ ∀ os, all_alive L os → all_alive (rebase (abandon p (base L)).2 L) os.
Proof.
  intros I Hp. assert (life_inv (rebase (base L) L)) as I'.
  { rewrite rebase_same by done. by destruct L. }
  unfold abandon. destruct (m_completion_pending p); simpl.
  2: { split; [done|]. intros os. by apply all_alive_rebase. }
  destruct (p_controller p) as [c|] eqn:E; simpl.
  - split; [apply life_set_exception; [done|by eapply promise_controller_alive]|].
    intros os. apply all_alive_rebase; simpl; [by rewrite length_alter|done].
  - split; [done|]. intros os. by apply all_alive_rebase.
Qed.

(** A child with the callbacks that settle it. *)
Lemma inv_child c s f L :
  let n := length (ctrls (base L)) in let L1 := with_new (owner_of (own L) c) L in
  life_inv L → alive L (block (own L) c) = true →
  starget s = n → ftarget f = n →
  (∀ L', n < length (ctrls (base L')) → owner_of (own L') n = owner_of (own L') c → link_s L' c s ∧ link_f L' c f) →
  succ_captures (own L1) s = [] → fail_captures (own L1) f = [] →
  let L2 := with_base (set_on_success_and_fail c s f (base L1)) L1 in
  life_inv L2 ∧ grows L L2 ∧ alive L2 (block (own L2) n) = true.
Proof.
  intros n L1 I Ha Hs Hf Hl Hcs Hcf L2. pose proof (li_own _ I) as O.
  pose proof (alive_block_lt _ _ O Ha) as Hc. pose proof (own_root _ O _ Hc) as [Hr Hrr].
  assert (good_root (owner_of (own L) c) L) as Hg by (by right).
  assert (life_inv L1) as I1 by (by apply life_inv_new). pose proof (grows_new (owner_of (own L) c) L O) as G1.
  assert (owner_of (own L1) n = owner_of (own L1) c) as Hn.
  { unfold L1. rewrite !owner_of_new by done. rewrite decide_True, decide_False by (done || lia). done. }
  assert (n < length (ctrls (base L1))) as Hlt by (simpl; rewrite length_app; simpl; lia).
  assert (alive L1 (block (own L1) n) = true) as Hna.
  { apply new_alive; [done|done|]. by intros _. }
  destruct (Hl L1 Hlt Hn) as [Hl1 Hl2].
  assert (grows L1 L2) as G2.
  { unfold L2, set_on_success_and_fail, process_on_fail_async, process_on_success_async. rewrite after_eq.
    by apply grows_after. }
  split_and!.
  - apply life_inv_register; [done| |done|done|rewrite Hcs; constructor|rewrite Hcf; constructor].
    by apply (alive_block_mono L).
  - by etrans.
  - by apply (alive_block_mono L1); [apply (li_own _ I1)| |].
Qed.

(** ** Every step is a step without owners *)
Lemma value_ok_futures L (v : value U) :
  life_inv L → value_futures v ⊆ handles (held_by_app L) → value_ok (length (ctrls (base L))) v.
Proof.
  intros I Hv. destruct v as [| |[c|]]; simpl in *; try done.
  apply alive_block_lt; [apply (li_own _ I)|]. apply handles_alive; [done|]. apply Hv. left.
Qed.
Lemma handle_lt L c : life_inv L → c ∈ handles (held_by_app L) → c < length (ctrls (base L)).
Proof. intros I Hc. apply alive_block_lt; [apply (li_own _ I)|]. by apply handles_alive. Qed.

Lemma life_run_base (t : task U) out st L L' :
  life_run t out st L = Some L' → base L' = run_task t st ∧ held_by_app L' = held_by_app L ∧ gone L' = gone L.
Proof.
  destruct t as [c|c|c f|c f]; cbn [life_run]; [by intros [= <-]..| |];
    (destruct (expired _ _); [done|]);
    [destruct (ctrls st !! c ≫= m_val_state)|destruct (ctrls st !! c ≫= m_exception)]; try done;
    intros (w & _ & ->)%fmap_Some; done.
Qed.

Lemma life_step_erase L L' :
  life_inv L → life_step L L' → sys_step (erase L) (erase L') ∨ erase L' = erase L.
Proof.
  intros I. destruct 1 as [ts1 t ts2 out L' hs Hp Ht _ _ _ _ _ Hr| | | | | | | | | |c fl br f L' Hc He|c v f L' Hc He|c v f L' Hc He| | |c l L' Hc Hl|].
  - left. destruct (life_run_base _ _ _ _ _ Hr) as (Hb & Ha & _). unfold erase. simpl. rewrite Hb, Ha. by constructor.
  - by right.
  - by right.
  - left. apply sys_promise.
  - left. by eapply (sys_promise_move (base L)).
  - left. by eapply (sys_promise_assign (base L)).
  - left. by eapply (sys_promise_destroy (base L)).
  - left. eapply (sys_set_value (base L)); [done|by apply value_ok_futures|done].
  - left. by eapply (sys_set_exception (base L)).
  - left. unfold get_future in *. destruct (p_future p) eqn:E; simplify_eq.
    eapply (sys_get_future (base L)); [done|]. unfold get_future. by rewrite E.
  - left. unfold life_then in He. destruct (then_ _ _ _ _) as [n st'| |] eqn:E; simplify_eq.
    eapply (sys_then (base L) _ (Some c)); [by apply handle_lt|done].
  - left. unfold life_catched in He. destruct (catched _ _ _ _) as [n st'| |] eqn:E; simplify_eq.
    eapply (sys_catched (base L) _ (Some c)); [by apply handle_lt|done].
  - left. unfold life_finally in He. destruct (finally _ _ _ _) as [n st'| |] eqn:E; simplify_eq.
    eapply (sys_finally (base L) _ (Some c)); [by apply handle_lt|done].
  - left. apply (sys_make_ready (base L)). by apply value_ok_futures.
  - by right.
  - right. unfold fvalue_lock in Hl. simpl in Hl. destruct (ctrls _ !! c ≫= m_val_state); [|done].
    case_decide; simplify_eq; done.
  - by right.
Qed.

Lemma run_task_ctrls (t : task U) st : length (ctrls (run_task t st)) = length (ctrls st).
Proof.
  destruct t as [c|c|c f|c f]; cbn [run_task].
  - unfold process_success. repeat case_match; simpl; by rewrite ?length_alter.
  - unfold process_fail. repeat case_match; simpl; by rewrite ?length_alter.
  - unfold call_success. destruct (ctrls st !! c ≫= m_val_state); [|done].
    destruct f as [t d|v d|v d|v d|v t d|v vs d|e d];
      unfold exec_then_on_success, exec_flatten, exec_finally_success, forward_value;
      repeat case_match; simpl; by rewrite ?length_alter.
  - unfold call_fail. destruct (ctrls st !! c ≫= m_exception); [|done].
    destruct f as [d|d|v t d|t d]; unfold exec_catched_fail, exec_finally_fail;
      repeat case_match; simpl; by rewrite ?length_alter.
Qed.

(** A task leaves the blocks of controllers, and adds dependents only. *)
Lemma life_run_own (t : task U) out st L L' :
  life_run t out st L = Some L' →
  owner (own L') = owner (own L) ∧ m_dependent (own L) ⊆ m_dependent (own L').
Proof.
  intros Hr. destruct t as [d|d|d f|d f]; cbn [life_run] in Hr; [by injection Hr as <-..| |];
    (destruct (expired _ _); [done|]); repeat case_match; try done;
    apply fmap_Some in Hr as (w & Hw & ->); simpl;
    unfold success_ownership, fail_ownership, finally_future, add_value_source in Hw;
    repeat case_match; simplify_eq; (split; [done|]); simpl; set_solver.
Qed.
Lemma life_run_finally c void f child out st ic L L' :
  life_run (TCallSuccess c (SFinally void f child)) out st L = Some L' → f tt = FFut (Some ic) →
  (ic, child) ∈ m_dependent (own L') ∧ ∀ x, owner_of (own L') x = owner_of (own L) x.
Proof.
  intros Hr Hf. split.
  - cbn [life_run] in Hr. destruct (expired _ _); [done|]. destruct (ctrls st !! c ≫= m_val_state); [|done].
    apply fmap_Some in Hr as (w & Hw & ->). unfold success_ownership, finally_future in Hw. rewrite Hf in Hw.
    destruct (alive _ _); [|done]. injection Hw as <-. simpl. apply elem_of_app. right. left.
  - intros x. unfold owner_of. by destruct (life_run_own _ _ _ _ _ Hr) as [-> _].
Qed.

(** ** The steps keep the invariant *)
Lemma inv_task ts1 t ts2 out hs L L' :
  life_inv L → sys_inv (erase L) → sources_settled L → pool (base L) = ts1 ++ t :: ts2 →
  returned t L ⊆ handles (held_by_app L) ++ received t L → hs ⊆ handles (held_by_app L) ++ received t L →
  life_run t out (State (ctrls (base L)) (vals (base L)) (ts1 ++ ts2)) L = Some L' →
  life_inv (set_handles hs L').
Proof.
  intros I S Hsrc Hp Hret Hhs Hr. pose proof (pool_mid _ _ _ _ Hp) as Hin.
  destruct (run_ok L ts1 t ts2 out I S Hsrc Hp) as (L2 & Hr2 & I2); [by apply (returned_alive _ t)|].
  assert (L2 = L') as -> by (cbn [taken with_base base] in Hr2; congruence).
  apply inv_set_handles; [done|]. intros c Hc. apply Hhs in Hc.
  pose proof (known_alive _ _ _ I Hin Hc) as Ha.
  destruct (life_run_base _ _ _ _ _ Hr) as (Hb & _ & Hg).
  destruct (life_run_own _ _ _ _ _ Hr) as [Ho _].
  assert (block (own L') c = block (own L) c) as -> by (unfold block, owner_of; by rewrite Ho).
  apply alive_spec in Ha as [Hcr Hgo]. apply alive_spec. rewrite Hg. split; [|done].
  simpl in *. unfold owner_of in *. rewrite bool_decide_eq_true in *. rewrite Ho, Hb. destruct Hcr as [Hl Hrr].
  split; [|done]. pose proof (run_task_ctrls t (State (ctrls (base L)) (vals (base L)) (ts1 ++ ts2))) as Hlen.
  simpl in Hlen. lia.
Qed.

(** Destroying an object that no pointer keeps. *)
Definition without (o : obj) L : life U := Life (base L) (own L) (held_by_app L) (o :: gone L).

Lemma alive_without L o x : x ∈ pointers L → use_count L o = 0 → alive L x = true → alive (without o L) x = true.
Proof.
  intros Hx Hz Ha. assert (x ≠ o) as Hne by (intros ->; by apply (use_count_pos L o)).
  apply alive_spec in Ha as [Hc Hg]. apply alive_spec. split; [by destruct x|].
  simpl. rewrite not_elem_of_cons. auto.
Qed.
Lemma all_alive_without L o os :
  use_count L o = 0 → (∀ x, x ∈ os → x ∈ pointers L) → all_alive L os → all_alive (without o L) os.
Proof.
  unfold all_alive. rewrite !Forall_forall. intros Hz Hn Ha x Hx. by apply alive_without; auto.
Qed.

Lemma own_ok_without L o : life_inv L → alive L o = true → use_count L o = 0 → own_ok (without o L).
Proof.
  intros I Ho Hz. destruct (li_own _ I) as [H1 H2 H3 H4 H5 H6 H7 H8].
  assert (∀ x, x ∉ o :: gone L → x ∉ gone L) as Hg by (intros x; rewrite not_elem_of_cons; tauto).
  split; try done.
  - intros x y E. destruct (H6 _ _ E) as (Hx & Hy & Ha). split_and!; [done|done|]. intros Hb%Hg.
    destruct (lookup_lt_is_Some_2 _ _ Hx) as [k Hk]. apply alive_without; [|done|by apply Ha].
    eapply in_pointers_ctrl; [done|done|]. by apply member_source.
  - intros x y E. destruct (H7 _ _ E) as (Hx & Hy & Ha). split_and!; [done|done|]. intros Hb%Hg.
    destruct (lookup_lt_is_Some_2 _ _ Hx) as [k Hk]. apply alive_without; [|done|by apply Ha].
    eapply in_pointers_ctrl; [done|done|]. by apply member_dependent.
  - intros x [-> |Hx]%elem_of_cons; [by apply alive_spec in Ho as [? _]|by apply H8].
Qed.

Lemma inv_destroy L o : life_inv L → alive L o = true → use_count L o = 0 → life_inv (without o L).
Proof.
  intros I Ho Hz.
  assert (∀ x, x ∉ o :: gone L → x ∉ gone L) as Hg by (intros x; rewrite not_elem_of_cons; tauto).
  split.
  - by apply own_ok_without.
  - intros c k Hk. pose proof (li_ctrl _ I _ _ Hk) as [H1 H2 H3 H4 H5 H6 H7]. split; try done.
    + intros f Hf Hb%Hg. apply all_alive_without; [done| |auto]. intros x Hx.
      eapply in_pointers_ctrl; [done|done|]. by eapply member_succ.
    + intros f Hf Hb%Hg. apply all_alive_without; [done| |auto]. intros x Hx.
      eapply in_pointers_ctrl; [done|done|]. by eapply member_fail.
    + intros vs Hv Hb%Hg. apply alive_without; [|done|auto].
      eapply in_pointers_ctrl; [done|done|]. by apply member_value.
  - intros t Ht. destruct (li_task _ I _ Ht) as [Hp Hl]. split; [|done].
    apply all_alive_without; [done| |done]. intros x Hx. by eapply in_pointers_task.
  - intros vs v Hv Hb%Hg. apply all_alive_without; [done| |by apply (li_val _ I _ _ Hv)].
    intros x Hx. by eapply in_pointers_value.
  - apply all_alive_without; [done| |apply (li_app _ I)]. intros x Hx. unfold pointers.
    rewrite elem_of_app. by left.
  - apply (li_locked _ I).
  - apply (li_mutexes _ I).
Qed.

(** ** Every reachable state *)
Lemma life_add_child c s f L (mark : option bool) :
  let n := length (ctrls (base L)) in
  life_inv L → c ∈ handles (held_by_app L) → starget s = n → ftarget f = n →
  (∀ L', n < length (ctrls (base L')) → owner_of (own L') n = owner_of (own L') c → link_s L' c s ∧ link_f L' c f) →
  succ_captures (own (with_new (owner_of (own L) c) L)) s = [] →
  fail_captures (own (with_new (owner_of (own L) c) L)) f = [] →
  let w := create_child_controller c (own L) in
  let L2 := Life (set_on_success_and_fail c s f (create_controller (base L)).2)
                 (if mark is Some void then mark_ref_result n void w else w) (held_by_app L) (gone L) in
  life_inv L2 ∧ alive L2 (block (own L2) n) = true.
Proof.
  intros n I Hc Hs Hf Hl Hcs Hcf w L2.
  destruct (inv_child c s f L I (handles_alive _ _ I Hc) Hs Hf Hl Hcs Hcf) as (I2 & _ & Ha).
  unfold L2. destruct mark as [b|]; [|done]. split; [by apply (inv_mark n b) in I2|exact Ha].
Qed.

Lemma inv_life_then c fl br f L L' :
  life_inv L → c ∈ handles (held_by_app L) → life_then c fl br f L = Some L' → life_inv L'.
Proof.
  intros I Hc. unfold life_then, then_. cbn [create_controller].
  assert (∀ mark, let n := length (ctrls (base L)) in let w := create_child_controller c (own L) in
    let L2 := Life (set_on_success_and_fail c (SThen f n) (FProp n) (create_controller (base L)).2)
                 (if mark is Some void then mark_ref_result n void w else w) (held_by_app L) (gone L) in
    life_inv L2 ∧ alive L2 (block (own L2) n) = true) as H.
  { intros mark n. apply life_add_child; try done. intros L'' Hlt Ho. split; (split; [done|]); auto. }
  destruct fl as [void|]; intros [= <-].
  - destruct (H None) as [I2 Ha]. cbn zeta in *. match type of I2 with life_inv ?x => set (L2 := x) in * end.
    assert (length (ctrls (base L2)) = S (length (ctrls (base L)))) as Hn
      by (simpl; rewrite length_alter, length_app; simpl; lia).
    destruct (inv_child (length (ctrls (base L))) (SFlatten void (length (ctrls (base L2))))
                (FProp (length (ctrls (base L2)))) L2 I2 Ha) as (I3 & _ & Ha3); try done.
    { intros L'' Hlt Ho. split; (split; [done|]); auto. }
    by apply inv_hold.
  - destruct (H br) as [I2 Ha]. by apply inv_hold.
Qed.

Lemma inv_life_catched c void f L L' :
  life_inv L → c ∈ handles (held_by_app L) → life_catched c void f L = Some L' → life_inv L'.
Proof.
  intros I Hc. unfold life_catched, catched. cbn [create_controller]. intros [= <-].
  set (n := length (ctrls (base L))).
  destruct (life_add_child c (SCatched void n) (FCatched void f n) L None) as [I2 Ha]; try done.
  by apply inv_hold.
Qed.
Lemma inv_life_finally c void f L L' :
  life_inv L → c ∈ handles (held_by_app L) → life_finally c void f L = Some L' → life_inv L'.
Proof.
  intros I Hc. unfold life_finally, finally. cbn [create_controller]. intros [= <-].
  set (n := length (ctrls (base L))).
  destruct (life_add_child c (SFinally void f n) (FFinally f n) L None) as [I2 Ha]; try done.
  by apply inv_hold.
Qed.

(** A root: a promise or a ready future. *)
Lemma inv_root L :
  life_inv L →
  let n := length (ctrls (base L)) in
  life_inv (with_new n L) ∧ alive (with_new n L) (block (own (with_new n L)) n) = true ∧ grows L (with_new n L).
Proof.
  intros I n. assert (good_root n L) as Hg by (by left). split_and!.
  - by apply life_inv_new.
  - apply new_alive; [done|done|]. intros Hlt. unfold n in Hlt. lia.
  - apply grows_new, (li_own _ I).
Qed.

Lemma inv_life_ready v out L :
  life_inv L → value_futures v ⊆ handles (held_by_app L) → life_inv (life_make_ready v out L).
Proof.
  intros I Hv. destruct (inv_root L I) as (I1 & Ha & G). set (n := length (ctrls (base L))) in *.
  change (life_make_ready v out L) with
    (hold n (store_outside out (length (vals (base L))) (rebase (set_value n v (base (with_new n L))) (with_new n L)))).
  assert (alive (rebase (set_value n v (base (with_new n L))) (with_new n L)) (block (own (with_new n L)) n) = true) as Ha2.
  { apply alive_rebase; [simpl; by rewrite length_alter|simpl; rewrite length_app; lia|done]. }
  apply inv_hold; [|exact Ha2]. apply inv_outside, life_set_value; [done|done| |].
  - apply (all_alive_blocks L); [apply (li_own _ I)|done|]. unfold all_alive.
    rewrite Forall_fmap, Forall_forall. intros c Hc. by apply handles_alive, Hv.
  - intros k Hk. simpl in Hk. unfold n in Hk. rewrite list_lookup_middle in Hk by done. by simplify_eq.
Qed.

Lemma inv_life_promise L : life_inv L → life_inv (life_promise L).
Proof.
  intros I. destruct (inv_root L I) as (I1 & Ha & G). set (n := length (ctrls (base L))) in *.
  change (life_promise L) with
    (set_promises (Promise (Some n) (Some n) true :: promises (held_by_app (with_new n L))) (with_new n L)).
  apply inv_set_promises; [done|]. intros p [-> |Hp]%elem_of_cons; [|by apply promise_alive].
  unfold promise_pointers, all_alive. simpl. rewrite !Forall_cons. done.
Qed.

(** The steps of promises. *)
Lemma promises_perm L ps p :
  life_inv L → promises (held_by_app L) ≡ₚ ps → p ∈ ps → all_alive L (promise_pointers (own L) p).
Proof. intros I Hp Hin. apply promise_alive; [done|]. by rewrite Hp. Qed.

Lemma claim_some p st p' c st' :
  claim_completion p st = Ok (p', c) st' →
  p_controller p = Some c ∧ m_completion_pending p = true ∧ p' = Promise (p_controller p) (p_future p) false ∧ st' = st.
Proof.
  unfold claim_completion. destruct (p_controller p); [|done]. destruct (m_completion_pending p); [|done].
  by intros [= <- <- <-].
Qed.

Lemma inv_promise_settle L p ps p' st' :
  life_inv L → sys_inv (erase L) → promises (held_by_app L) ≡ₚ p :: ps →
  (∃ v, value_futures v ⊆ handles (held_by_app L) ∧ promise_set_value p v (base L) = Ok p' st') ∨
  (∃ e, promise_set_exception p e (base L) = Ok p' st') →
  life_inv (set_promises (p' :: ps) (rebase st' L)).
Proof.
  intros I S Hp H. pose proof (promises_perm L _ p I Hp ltac:(left)) as Hpa.
  assert (∃ c, p_controller p = Some c ∧ p' = Promise (p_controller p) (p_future p) false ∧
               life_inv (rebase st' L) ∧ ∀ os, all_alive L os → all_alive (rebase st' L) os) as (c & Hc & -> & I' & Hal).
  { destruct H as [(v & Hv & H)|(e & H)].
    - unfold promise_set_value in H. destruct (claim_completion p (base L)) as [[q c] s| |] eqn:E; [|done..].
      apply claim_some in E as (Hc & Hpend & -> & ->). injection H as <- <-. exists c.
      split_and!; [done|done| |].
      + apply life_set_value; [done|by eapply promise_controller_alive| |].
        * unfold all_alive, value_pointers. rewrite Forall_fmap, Forall_forall. intros d Hd. by apply handles_alive, Hv.
        * intros k Hk. destruct (promise_pending_fresh (base L) p ps c) as (k' & Hk' & Hs); [|done|done|].
          { destruct S as [Iv Hvo]. split; [|done]. by eapply inv_perm. }
          assert (k' = k) as -> by congruence. unfold is_settled in Hs. by destruct (m_val_state k).
      + intros os. apply all_alive_rebase; simpl; [by rewrite length_alter|rewrite length_app; lia].
    - unfold promise_set_exception in H. destruct e as [e|]; [|done].
      destruct (claim_completion p (base L)) as [[q c] s| |] eqn:E; [|done..].
      apply claim_some in E as (Hc & Hpend & -> & ->). injection H as <- <-. exists c.
      split_and!; [done|done| |].
      + apply life_set_exception; [done|by eapply promise_controller_alive].
      + intros os. apply all_alive_rebase; simpl; [by rewrite length_alter|done]. }
  apply inv_set_promises; [done|]. intros q [-> |Hq]%elem_of_cons; apply Hal.
  - apply (promise_pointers_sub L p); [exact Hpa|by left|by left].
  - apply (promises_perm L (p :: ps)); [done|done|by right].
Qed.

Lemma inv_lock L c l L' :
  life_inv L → c ∈ handles (held_by_app L) → fvalue_lock (Some c) L = Ok (Some l) L' → life_inv L'.
Proof.
  intros I Hc. unfold fvalue_lock. simpl. destruct (ctrls (base L) !! c ≫= m_val_state) as [vs|] eqn:E; [|done].
  case_decide as Hm; [done|]. intros [= <- <-].
  apply bind_Some in E as (k & Hk & Hv). pose proof (handles_alive _ _ I Hc) as Ha.
  destruct (value_kept _ _ _ _ I Ha Hk Hv) as [Hva _].
  destruct I as [O H1 H2 H3 H4 H5 H6]. split; try done.
  - by destruct O; split.
  - intros c' k' Hk'. by destruct (H1 _ _ Hk'); split.
  - apply app_pointers_split. pose proof (proj1 (app_pointers_split _ _) H4) as (Hp & Hh & Hl).
    split_and!; [done|done|]. intros l [-> |Hin]%elem_of_cons; [|by apply Hl]. by repeat constructor.
  - intros c' vs' [[= -> ->]|Hin]%elem_of_cons; [by exists k|by apply H5].
  - unfold held_mutexes. simpl. by constructor.
Qed.

Lemma inv_unlock L l ls :
  life_inv L → locked (held_by_app L) ≡ₚ l :: ls → life_inv (unlock ls L).
Proof.
  intros [O H1 H2 H3 H4 H5 H6] Hl. split; try done.
  - by destruct O; split.
  - intros c' k' Hk'. by destruct (H1 _ _ Hk'); split.
  - apply app_pointers_split. pose proof (proj1 (app_pointers_split _ _) H4) as (Hp & Hh & Hlk).
    split_and!; [done|done|]. intros x Hx. apply Hlk. rewrite Hl. by right.
  - intros c vs Hin. apply H5. rewrite Hl. by right.
  - unfold held_mutexes in *. simpl. rewrite Hl in H6. by apply NoDup_cons in H6 as [_ ?].
Qed.

Lemma life_step_inv L L' :
  life_inv L → sys_inv (erase L) → sources_settled L → life_step L L' → life_inv L'.
Proof.
  intros I S Hsrc. destruct 1 as [ts1 t ts2 out L' hs Hp Ht _ _ _ Hret Hhs Hr|hs Hhs|o Ho Hz| |p ps Hp|p q ps Hp|p ps Hp
    |p ps v out p' st' Hp Hv _ Hset|p ps e p' st' Hp Hset|p ps p' c st' Hp Hg|c fl br f L' Hc He|c v f L' Hc He|c v f L' Hc He|v out Hv _|xs
    |c l L' Hc Hl|l ls Hl].
  - by eapply inv_task.
  - apply inv_set_handles; [done|]. intros c Hc. by apply handles_alive, Hhs.
  - by apply inv_destroy.
  - by apply inv_life_promise.
  - apply inv_set_promises; [done|]. pose proof (promises_perm L _ p I Hp ltac:(left)) as Hpa.
    intros x [-> |[-> |Hx]%elem_of_cons]%elem_of_cons;
      [eapply promise_pointers_sub; [exact Hpa|by left|by left]|
       eapply promise_pointers_sub; [exact Hpa|by right|by right]|
       eapply promises_perm; [done|done|by right]].
  - pose proof (promises_perm L _ p I Hp ltac:(left)) as Hpa.
    pose proof (promises_perm L _ q I Hp ltac:(right; left)) as Hqa.
    destruct (inv_abandon p L I Hpa) as [I' Hal].
    replace (promise_move_assign p q (base L)) with
      ((promise_move q).1, (promise_move q).2, (abandon p (base L)).2)
      by (unfold promise_move_assign; by destruct (abandon p (base L))).
    apply inv_set_promises; [done|]. intros x [-> |[-> |Hx]%elem_of_cons]%elem_of_cons; apply Hal;
      [apply (promise_pointers_sub L q); [exact Hqa|by left|by left]|
       apply (promise_pointers_sub L q); [exact Hqa|by right|by right]|
       apply (promises_perm L (p :: q :: ps)); [done|done|by do 2 right]].
  - destruct (inv_abandon p L I (promises_perm L _ p I Hp ltac:(left))) as [I' Hal].
    apply inv_set_promises; [done|]. intros x Hx. apply Hal, (promises_perm L (p :: ps)); [done|done|by right].
  - apply (inv_outside (length (vals (base L))) out (set_promises (p' :: ps) (rebase st' L))). eapply inv_promise_settle; [done|done|done|]. left. eauto.
  - eapply inv_promise_settle; [done|done|done|]. right. eauto.
  - unfold get_future in Hg. destruct (p_future p) as [d|] eqn:E; simplify_eq.
    pose proof (promises_perm L _ p I Hp ltac:(left)) as Hpa.
    apply inv_hold.
    + apply inv_set_promises; [done|]. intros x [-> |Hx]%elem_of_cons;
        [eapply promise_pointers_sub; [exact Hpa|by left|by right]|eapply promises_perm; [done|done|by right]].
    + unfold promise_pointers in Hpa. rewrite E, all_alive_app in Hpa. destruct Hpa as [_ Hpa].
      by apply Forall_inv in Hpa.
  - by eapply inv_life_then.
  - by eapply inv_life_catched.
  - by eapply inv_life_finally.
  - by apply inv_life_ready.
  - apply inv_set_app; [done|apply (li_app _ I)|done].
  - by eapply inv_lock.
  - by eapply inv_unlock.
Qed.

(** Value sources are added to children that are settled in the same step. *)
Lemma life_run_source t out st L L' x y :
  life_run t out st L = Some L' → m_value_source (own L') !! x = Some y →
  m_value_source (own L) !! x = Some y ∨
  ∃ c vs, t = TCallSuccess c (SAdopt false x) ∧ base L' = set_value_state x vs st.
Proof.
  destruct t as [c|c|c f|c f]; cbn [life_run]; [by intros [= <-]; left..| |];
    (destruct (expired _ _); [done|]).
  - destruct (ctrls st !! c ≫= m_val_state) as [vs|] eqn:E; [|done]. intros (w & Hw & ->)%fmap_Some.
    simpl. intros Hx. unfold success_ownership, finally_future, add_value_source in Hw.
    destruct f as [t d|v d|[] d|v d|v t d|v vs' d|e d]; repeat case_match; simplify_eq; try (by left).
    simpl in Hx. destruct (decide (d = x)) as [<- |]; [|rewrite lookup_insert_ne in Hx by done; by left].
    right. exists c, vs. split; [done|]. unfold call_success. by rewrite E.
  - destruct (ctrls st !! c ≫= m_exception); [|done]. intros (w & Hw & ->)%fmap_Some. simpl. intros Hx. left.
    unfold fail_ownership, finally_future in Hw. repeat case_match; simplify_eq; done.
Qed.

Lemma life_step_source L L' x y :
  life_step L L' → m_value_source (own L') !! x = Some y →
  m_value_source (own L) !! x = Some y ∨
  ∃ c vs, TCallSuccess c (SAdopt false x) ∈ pool (base L) ∧
          ∃ st, ctrls st = ctrls (base L) ∧ base L' = set_value_state x vs st.
Proof.
  destruct 1 as [ts1 t ts2 out L' hs Hp Ht _ _ _ Hret Hhs Hr|hs Hhs|o Ho Hz| |p ps Hp|p q ps Hp|p ps Hp
    |p ps v out p' st' Hp Hv _ Hset|p ps e p' st' Hp Hset|p ps p' c st' Hp Hg|c fl br f L' Hc He|c v f L' Hc He|c v f L' Hc He|v out Hv _|xs
    |c l L' Hc Hl|l ls Hl]; intros Hx; try (by left).
  - destruct (life_run_source _ _ _ _ _ _ _ Hr Hx) as [?|(c & vs & -> & Hb)]; [by left|right].
    exists c, vs. split; [by eapply pool_mid|]. eexists. split; [|exact Hb]. done.
  - unfold life_then in He. destruct (then_ _ _ _ _); simplify_eq. left.
    simpl in Hx. destruct fl as [|], br; exact Hx.
  - unfold life_catched in He. destruct (catched _ _ _ _); simplify_eq. by left.
  - unfold life_finally in He. destruct (finally _ _ _ _); simplify_eq. by left.
  - left. unfold fvalue_lock in Hl. simpl in Hl. destruct (ctrls (base L) !! c ≫= m_val_state); [|done].
    case_decide; simplify_eq; done.
Qed.

(** What holds in every reachable state. *)
Record life_good L : Prop := {
  lg_inv : life_inv L;
  lg_sys : sys_inv (erase L);
  lg_sources : sources_settled L
}.

Lemma life_step_good L L' : life_good L → life_step L L' → life_good L' ∧ extends (base L) (base L').
Proof.
  intros [I S Hsrc] Hst.
  assert (sys_inv (erase L') ∧ extends (base L) (base L')) as [S' E].
  { destruct (life_step_erase L L' I Hst) as [Hs|Hs].
    - by destruct (sys_step_good _ _ S Hs).
    - split; [by rewrite Hs|]. unfold erase in Hs. apply extends_same_ctrls. congruence. }
  split; [|done]. split; [by eapply life_step_inv|done|].
  intros x y Hx. destruct (life_step_source _ _ _ _ Hst Hx) as [Hy|(c & vs & Hin & st & Hcs & Hb)].
  - destruct (Hsrc _ _ Hy) as (k & Hk & Hset). destruct (proj2 E _ _ Hk Hset) as (k' & Hk' & Hv & He).
    exists k'. split; [done|]. unfold is_settled. by rewrite Hv, He.
  - destruct (li_task _ I _ Hin) as (_ & Hlt & _). simpl in Hlt.
    destruct (lookup_lt_is_Some_2 _ _ Hlt) as [k Hk]. exists (put_val_state vs k). rewrite Hb. split.
    + simpl. by rewrite list_lookup_alter_eq, Hcs, Hk.
    + unfold is_settled. done.
Qed.

Lemma life_init_good : life_good life_init.
Proof.
  assert (∀ x y, (∅ : gmap nat nat) !! x = Some y → False) as He by (intros x y; by rewrite lookup_empty).
  assert (∀ A (x : A), x ∈ [] → False) as Hn by (intros A x; by apply not_elem_of_nil).
  split; [|apply sys_inv_init|intros x y Hx; by apply He in Hx].
  split; [split|..]; simpl; try done.
  - intros x y Hx. by apply Hn in Hx.
  - intros o Ho. by apply Hn in Ho.
  - intros t Ht. by apply Hn in Ht.
  - constructor.
  - intros c vs Hin. by apply Hn in Hin.
  - constructor.
Qed.

Lemma reachable_good L : life_reachable L → life_good L.
Proof. apply rtc_invariant; [apply life_init_good|]. intros L1 L2 G Hst. by eapply life_step_good. Qed.
End safety.
