(* ===== verification/FutureLifetime.v ===== *)
(** * Lifetime of futures: the theorems

    Callbacks always find their child, references into futures never dangle and
    their objects are locked by one holder at a time, references to objects of the
    application are the application's to keep, and a shape that is never
    destroyed: a [finally] callback that returns a future of its own chain. *)
From S2P Require Import Prelude Future FutureFacts FutureLife FutureLifeFacts FutureLifeSafety.
Import Future FutureLife.
Local Open Scope nat_scope.

Section lifetime.
Context {U : Type}.
Implicit Types (L : life U).

(** ** Strong pointers point to objects that exist *)
Lemma pointers_alive L o : life_inv L → o ∈ pointers L → alive L o = true.
Proof.
  intros I. unfold pointers. rewrite !elem_of_app.
  assert (∀ os, all_alive L os → o ∈ os → alive L o = true) as Hin.
  { intros os H. unfold all_alive in H. rewrite Forall_forall in H. apply H. }
  intros [Ho|[Ho|[Ho|Ho]]].
  - eapply Hin, Ho. apply (li_app _ I).
  - eapply Hin, Ho. apply all_alive_concat. intros t Ht. by apply (li_task _ I).
  - apply list_elem_of_In, in_concat in Ho as (os & Hos & Ho). rewrite <- !list_elem_of_In in *.
    apply elem_of_lookup_imap in Hos as (c & k & -> & Hk). case_decide as Hg; [by apply elem_of_nil in Ho|].
    pose proof (li_ctrl _ I _ _ Hk) as [_ _ H3 H4 H5 _ _]. pose proof (li_own _ I) as O.
    unfold controller_pointers in Ho. rewrite !elem_of_app in Ho. destruct Ho as [Ho|[Ho|[Ho|[Ho|Ho]]]].
    + destruct (m_val_state k) as [vs|] eqn:E; [|by apply elem_of_nil in Ho].
      apply list_elem_of_singleton in Ho as ->. auto.
    + eapply Hin, Ho. apply all_alive_concat. auto.
    + eapply Hin, Ho. apply all_alive_concat. auto.
    + destruct (m_value_source (own L) !! c) as [y|] eqn:E; [|by apply elem_of_nil in Ho].
      apply list_elem_of_singleton in Ho as ->. by apply (own_source _ O _ _ E).
    + apply list_elem_of_fmap in Ho as ([x y] & -> & [Hx Hin']%list_elem_of_filter). simpl in Hx. subst x.
      by apply (own_dependent _ O _ _ Hin').
  - apply list_elem_of_In, in_concat in Ho as (os & Hos & Ho). rewrite <- !list_elem_of_In in *.
    apply elem_of_lookup_imap in Hos as (vs & v & -> & Hv). case_decide as Hg; [by apply elem_of_nil in Ho|].
    eapply Hin, Ho. by apply (li_val _ I _ _ Hv).
Qed.

(** ** References *)
Lemma source_edge_alive L a b : life_inv L → source_edge L a b → Block a ∉ gone L → Block b ∉ gone L.
Proof.
  intros I (x & y & Hs & Hx & Hy & <- & <-) Hg.
  by apply alive_not_gone, (own_source _ (li_own _ I) _ _ Hs).
Qed.

(** A protected value lives as long as the block that protects it. *)
Lemma protected_alive L g r : life_inv L → protects L g r → Block g ∉ gone L → alive L (ValueState r) = true.
Proof.
  intros I (c & k & Hk & Hv & Hr) Hg.
  apply (ctrl_val _ _ _ (li_ctrl _ I _ _ Hk) _ Hv). unfold block.
  clear -I Hr Hg. induction Hr; [done|]. apply IHHr. by eapply source_edge_alive.
Qed.

Lemma refers_protected L g vs r :
  life_inv L → protects L g vs → refers (own L) !! vs = Some r → protects L g r.
Proof.
  intros I (c & k & Hk & Hv & Hr) E.
  destruct (ctrl_ref _ _ _ (li_ctrl _ I _ _ Hk) _ _ Hv E) as (c' & k' & Hk' & Hv' & Hr').
  exists c', k'. split_and!; [done|done|]. by etrans.
Qed.

(** The value that a value state gives access to inside the futures. *)
Lemma deref_protected L g n vs :
  life_inv L → protects L g vs → Block g ∉ gone L →
  match place_of n (own L) vs with
  | InValue t => ∃ v, vals (base L) !! t = Some v ∧ deref n L vs = Some (Stored v)
  | Outside x => deref n L vs = if decide (x ∈ objects (held_by_app L)) then Some (OfApplication x) else None
  end.
Proof.
  intros I. revert vs. induction n as [|n IH]; intros vs Hp Hg; simpl;
    rewrite (protected_alive L g vs I Hp Hg); (destruct (outside (own L) !! vs); [done|]);
    pose proof (protected_alive L g vs I Hp Hg) as [Hc _]%alive_spec; simpl in Hc; rewrite bool_decide_eq_true in Hc;
    destruct (lookup_lt_is_Some_2 _ _ Hc) as [v Hv].
  - exists v. by rewrite Hv.
  - destruct (refers (own L) !! vs) as [r|] eqn:E; [|exists v; by rewrite Hv].
    apply IH; [|done]. by eapply refers_protected.
Qed.

(** The mutex of a value state is the one of the object it gives access to. *)
Lemma mutex_target L n vs : life_inv L → vs < n → mutex_of (own L) vs = target n (own L) vs.
Proof.
  intros I. pose proof (li_own _ I) as O. revert vs. induction n as [|n IH]; intros vs Hn; [lia|]. simpl.
  rewrite (own_mutex _ O). destruct (refers (own L) !! vs) as [r|] eqn:E; [|done].
  apply IH. apply (own_refers _ O) in E. lia.
Qed.
(** A value state whose object is the value of [t] has the mutex of [t]. *)
Lemma place_target w n vs t : place_of n w vs = InValue t → target n w vs = t.
Proof.
  revert vs. induction n as [|n IH]; intros vs; simpl; (destruct (outside w !! vs); [done|]); [by intros [= ->]|].
  destruct (refers w !! vs); [by apply IH|by intros [= ->]].
Qed.
End lifetime.


(** C16: a [locked_fvalue] gives an object that exists when the object is inside
    the futures, also when it is a reference into the value of an ancestor or of
    an adopted future whose own handles are all gone; a reference to an object of
    the application is as good as that object, which the futures do not keep.
    No two [locked_fvalue]s give the same object inside the futures at a time, nor
    do two of the references that callbacks derived from the same value,
    wherever they go. *)
Theorem locked_values {U} (L : life U) :
  life_reachable L →
  (∀ c vs, (c, vs) ∈ locked (held_by_app L) →
     match place_of (length (vals (base L))) (own L) vs with
     | InValue t => ∃ v, vals (base L) !! t = Some v ∧ deref (length (vals (base L))) L vs = Some (Stored v)
     | Outside x =>
         deref (length (vals (base L))) L vs =
           if decide (x ∈ objects (held_by_app L)) then Some (OfApplication x) else None
     end) ∧
  (∀ i j l l', locked (held_by_app L) !! i = Some l → locked (held_by_app L) !! j = Some l' →
     (∃ t, place_of (length (vals (base L))) (own L) l.2 = InValue t ∧
           place_of (length (vals (base L))) (own L) l'.2 = InValue t) ∨
     target (length (vals (base L))) (own L) l.2 = target (length (vals (base L))) (own L) l'.2 → i = j).
Proof.
  intros Hr. destruct (reachable_good L Hr) as [I S Hsrc]. split.
  - intros c vs Hin. destruct (li_locked _ I _ _ Hin) as (k & Hk & Hv).
    apply (deref_protected _ (owner_of (own L) c)); [done| |].
    + exists c, k. split_and!; [done|done|apply rtc_refl].
    + apply alive_not_gone, pointers_alive; [done|]. unfold pointers, app_pointers. rewrite !elem_of_app.
      left. do 2 right. eapply elem_of_concat_fmap; [done|]. by left.
  - intros i j [c vs] [c' vs'] Hi Hj E. simpl in E.
    assert (target (length (vals (base L))) (own L) vs = target (length (vals (base L))) (own L) vs') as Ht.
    { destruct E as [(t & H1%place_target & H2%place_target)|]; congruence. }
    assert (∀ d x, (d, x) ∈ locked (held_by_app L) → x < length (vals (base L))) as Hlt.
    { intros d x Hin. destruct (li_locked _ I _ _ Hin) as (k & Hk & Hv).
      by apply (ctrl_bound _ _ _ (li_ctrl _ I _ _ Hk)). }
    rewrite <- !mutex_target in Ht by eauto using list_elem_of_lookup_2.
    eapply NoDup_lookup; [apply (li_mutexes _ I)| |]; unfold held_mutexes; rewrite list_lookup_fmap.
    + by rewrite Hi.
    + rewrite Hj. simpl. by rewrite Ht.
Qed.

Section reclaim.
Context {U : Type}.
Implicit Types (L : life U).

(** ** A pointer to the own block *)

(** A controller of the block keeps a controller of the same block. *)
Definition self_kept L (g : nat) : Prop :=
  ∃ x y, (x, y) ∈ m_dependent (own L) ∧ owner_of (own L) x = g ∧ owner_of (own L) y = g.

Lemma self_kept_used L g : life_inv L → self_kept L g → Block g ∉ gone L → use_count L (Block g) ≠ 0.
Proof.
  intros I (x & y & Hxy & Hx & Hy) Hg. destruct (own_dependent _ (li_own _ I) _ _ Hxy) as (Hlt & _ & _).
  destruct (lookup_lt_is_Some_2 _ _ Hlt) as [k Hk]. apply use_count_pos.
  eapply in_pointers_ctrl; [done|unfold block; by rewrite Hx|].
  replace (Block g) with (block (own L) y) by (unfold block; by rewrite Hy). by apply member_dependent.
Qed.

(** No step takes a dependent away, moves a controller or destroys a block
    that keeps itself. *)
Lemma self_kept_step L L' g :
  life_good L → life_step L L' → self_kept L g → Block g ∉ gone L → self_kept L' g ∧ Block g ∉ gone L'.
Proof.
  intros [I S Hsrc] Hst Hk Hg. pose proof (self_kept_used L g I Hk Hg) as Hu.
  destruct Hk as (x & y & Hxy & Hx & Hy). destruct (own_dependent _ (li_own _ I) _ _ Hxy) as (Hxl & Hyl & _).
  assert (∀ w, m_dependent (own L) ⊆ m_dependent w →
            (∀ c, c < length (ctrls (base L)) → owner_of w c = owner_of (own L) c) →
            ∃ x y, (x, y) ∈ m_dependent w ∧ owner_of w x = g ∧ owner_of w y = g) as Hself.
  { intros w Hd Ho. exists x, y. rewrite !Ho by done. auto. }
  pose proof (own_owner _ (li_own _ I)) as Hl.
  assert (∀ root w, owner w = owner (own L) ++ root → ∀ c, c < length (ctrls (base L)) → owner_of w c = owner_of (own L) c) as Ho.
  { intros root w E c Hc. unfold owner_of. rewrite E, lookup_app_l; [done|lia]. }
  destruct Hst as [ts1 t ts2 out L' hs Hp Ht _ _ _ Hret Hhs Hr|hs Hhs|o Ho' Hz| |p ps Hp|p q ps Hp|p ps Hp
    |p ps v out p' st' Hp Hv _ Hset|p ps e p' st' Hp Hset|p ps p' c st' Hp Hgf|c fl br f L' Hc He|c v f L' Hc He|c v f L' Hc He|v out Hv _|xs
    |c l L' Hc Hlk|l ls Hlk].
  all: try (split; [by apply Hself|done]).
  - destruct (life_run_own _ _ _ _ _ Hr) as [How Hdep]. destruct (life_run_base _ _ _ _ _ Hr) as (_ & _ & Hgo).
    simpl. rewrite Hgo. split; [|done]. apply Hself; [done|]. intros z _. unfold owner_of. simpl. by rewrite How.
  - split; [by apply Hself|]. simpl. rewrite not_elem_of_cons. split; [|done]. by intros <-.
  - split; [|done]. apply Hself; [done|]. by eapply Ho.
  - unfold life_then in He. destruct (then_ _ _ _ _); simplify_eq. split; [|done].
    apply Hself; [by destruct fl, br|]. intros z Hz. destruct fl as [void|]; [|destruct br; by eapply Ho].
    unfold owner_of. simpl. rewrite <- app_assoc, lookup_app_l; [done|lia].
  - unfold life_catched in He. destruct (catched _ _ _ _); simplify_eq. split; [|done].
    apply Hself; [done|]. by eapply Ho.
  - unfold life_finally in He. destruct (finally _ _ _ _); simplify_eq. split; [|done].
    apply Hself; [done|]. by eapply Ho.
  - split; [|done]. apply Hself; [done|]. by eapply Ho.
  - unfold fvalue_lock in Hlk. simpl in Hlk. destruct (ctrls (base L) !! c ≫= m_val_state); [|done].
    case_decide; simplify_eq. split; [by apply Hself|done].
Qed.
End reclaim.

(** When a [finally] callback returns a future that descends from the same
    root as the future it was registered with, the tree of controllers keeps
    itself: it is never destroyed, whatever the application lets go of. *)
Theorem finally_own_chain_leaks {U} (L L' L'' : life U) ts1 c void f child ic out ts2 :
  life_reachable L → pool (base L) = ts1 ++ TCallSuccess c (SFinally void f child) :: ts2 →
  f tt = FFut (Some ic) → ic ∈ handles (held_by_app L) → owner_of (own L) ic = owner_of (own L) c →
  life_run (TCallSuccess c (SFinally void f child)) out (State (ctrls (base L)) (vals (base L)) (ts1 ++ ts2)) L = Some L' →
  rtc life_step (set_handles [] L') L'' → block (own L) c ∉ gone L''.
Proof.
  intros Hr Hp Hf Hic Ho Hrun Hst. destruct (reachable_good L Hr) as [I S Hsrc].
  pose proof (pool_mid _ _ _ _ Hp) as Hin. destruct (li_task _ I _ Hin) as [Hal [Hlt Hlink]]. simpl in Hlt, Hlink.
  assert (life_step L (set_handles [] L')) as Hstep.
  { apply (life_task _ ts1 (TCallSuccess c (SFinally void f child)) ts2 out); try done.
    - simpl. rewrite Hf. simpl. by apply handle_lt.
    - simpl. rewrite Hf. simpl. intros x ->%list_elem_of_singleton. apply elem_of_app. by left.
    - intros x Hx. by apply elem_of_nil in Hx. }
  destruct (life_step_good L _ (reachable_good L Hr) Hstep) as [G' _].
  assert (self_kept (set_handles [] L') (owner_of (own L) c)) as Hk.
  { destruct (life_run_finally _ _ _ _ _ _ _ _ _ Hrun Hf) as [Hd How]. exists ic, child.
    simpl. split_and!; [done|by rewrite How|by rewrite How]. }
  assert (block (own L) c ∉ gone (set_handles [] L')) as Hg.
  { destruct (life_run_base _ _ _ _ _ Hrun) as (_ & _ & Hg). simpl. rewrite Hg.
    apply Forall_inv in Hal. by apply alive_not_gone. }
  assert (life_good L'' ∧ self_kept L'' (owner_of (own L) c) ∧ Block (owner_of (own L) c) ∉ gone L'') as (_ & _ & H); [|done].
  eapply (rtc_invariant life_step (λ X, life_good X ∧ self_kept X (owner_of (own L) c) ∧ Block (owner_of (own L) c) ∉ gone X));
    [split_and!; done| |exact Hst].
  intros X Y (GX & KX & NX) HXY. split; [by apply (life_step_good X)|]. by eapply self_kept_step.
Qed.

(** ** Concrete runs *)

(** The head of the pool is run and the application keeps its handles. *)
Definition take_task (L : life nat) : option (life nat) :=
  match pool (base L) with
  | t :: ts => life_run t None (State (ctrls (base L)) (vals (base L)) ts) L
  | [] => None
  end.
Lemma take_task_step task_rule value_rule L L' t ts :
  pool (base L) = t :: ts → take_task L = Some L' → task_ok (length (ctrls (base L))) t →
  locked (held_by_app L) = [] → may_return t None L → returned t L ⊆ handles (held_by_app L) ++ received t L → task_rule t L →
  life_step_under task_rule value_rule L (set_handles (handles (held_by_app L)) L').
Proof.
  intros Hp Ht Hok Hm Hout Hret Hrule. unfold take_task in Ht. rewrite Hp in Ht.
  apply (life_task _ [] t ts None); try done.
  - intros m _. unfold held_mutexes. rewrite Hm. apply not_elem_of_nil.
  - intros x Hx. apply elem_of_app. by left.
Qed.

Definition same_value (v : value nat) : value nat * cres nat := (v, CRet v).
Definition from_option (L : option (life nat)) : life nat := default life_init L.
(** A promise with a continuation that returns a reference into the value. *)
Definition ref_chain : life nat :=
  from_option (life_then 0 None (Some false) same_value
    (hold 0 (set_promises [Promise (Some 0) None true] (life_promise life_init)))).
(** The promise is completed with 7. *)
Definition ref_completed : life nat :=
  set_promises [Promise (Some 0) None false] (rebase (set_value 0 (VVal 7) (base ref_chain)) ref_chain).
Fixpoint take_tasks (n : nat) (L : life nat) : life nat :=
  match n with
  | 0 => L
  | S n => let L' := from_option (take_task L) in take_tasks n (set_handles (handles (held_by_app L)) L')
  end.
(** The callback is posted and the application lets go of everything. *)
Definition ref_posted : life nat := set_handles [] (set_promises [] (take_tasks 4 ref_completed)).

Lemma ref_completed_reachable : life_reachable ref_completed.
Proof.
  unfold life_reachable. eapply rtc_l; [apply life_new_promise|].
  eapply rtc_l; [eapply (life_get_future _ (Promise (Some 0) (Some 0) true) []); [done|reflexivity]|].
  eapply rtc_l; [apply (life_add_then _ 0 None (Some false) same_value ref_chain); [by left|reflexivity]|].
  eapply rtc_l; [|apply rtc_refl].
  apply (life_set_value ref_chain (Promise (Some 0) None true) [] (VVal 7) None (Promise (Some 0) None false));
    [reflexivity|apply list_subseteq_nil|done|reflexivity].
Qed.

Lemma rtc_eq (L L' : life nat) : L = L' → rtc life_step L L'.
Proof. intros ->. apply rtc_refl. Qed.

(** A task of a concrete state is run. *)
Ltac run_task_step :=
  eapply rtc_l; [eapply take_task_step; [vm_compute; reflexivity|vm_compute; reflexivity|
    vm_compute; try done; try (intros; split; (done || auto))|vm_compute; reflexivity|
    vm_compute; try done; discriminate|
    intros x; vm_compute; try done; set_solver|exact I]|].

Lemma ref_posted_reachable : life_reachable ref_posted.
Proof.
  unfold life_reachable. etrans; [apply ref_completed_reachable|]. unfold ref_posted, take_tasks.
  do 4 run_task_step.
  eapply rtc_l; [apply (life_promise_destroy _ (Promise (Some 0) None false) []); vm_compute; reflexivity|].
  eapply rtc_l; [apply (life_handles _ []), list_subseteq_nil|].
  apply rtc_eq. vm_compute. reflexivity.
Qed.

(** The reference is read and locked; then everything is let go. *)
Definition ref_settled : life nat := take_tasks 3 (take_tasks 4 ref_completed).
Definition ref_locked : life nat :=
  match fvalue_lock (Some 1) (set_handles [1] ref_settled) with Ok _ L => L | _ => life_init end.
Lemma ref_settled_reachable : life_reachable ref_settled.
Proof.
  unfold life_reachable. etrans; [apply ref_completed_reachable|]. unfold ref_settled, take_tasks.
  do 7 run_task_step. apply rtc_eq. vm_compute. reflexivity.
Qed.
Lemma ref_locked_reachable : life_reachable ref_locked.
Proof.
  unfold life_reachable. etrans; [apply ref_settled_reachable|].
  eapply rtc_l; [apply (life_handles _ [1]); vm_compute; set_solver|].
  eapply rtc_l; [apply (life_lock _ 1 (1, 1) ref_locked); [by left|vm_compute; reflexivity]|apply rtc_refl].
Qed.

(** The value of the promise is read through the reference. *)
Lemma locked_values_witness :
  refers (own ref_locked) !! 1 = Some 0 ∧
  ∃ v, vals (base ref_locked) !! 0 = Some v ∧ deref (length (vals (base ref_locked))) ref_locked 1 = Some (Stored v).
Proof.
  split; [reflexivity|].
  apply (proj1 (locked_values ref_locked ref_locked_reachable) 1 1). vm_compute. left.
Defined.

(** Two ready futures hold references to object 5 of the application, which
    both can be locked at a time and which the application can destroy while they
    are. *)
Definition outside_futures : life nat :=
  life_make_ready (VVal 0) (Some 5) (life_make_ready (VVal 0) (Some 5) (set_objects {[5]} life_init)).
Definition lock_of (c : nat) (L : life nat) : life nat :=
  match fvalue_lock (Some c) L with Ok _ L => L | _ => life_init end.
Definition outside_locked : life nat := lock_of 0 (lock_of 1 outside_futures).
Lemma outside_locked_reachable : life_reachable outside_locked.
Proof.
  unfold life_reachable. eapply rtc_l; [apply (life_objects _ {[5]})|].
  eapply rtc_l; [apply (life_ready _ (VVal 0) (Some 5)); [apply list_subseteq_nil|done]|].
  eapply rtc_l; [apply (life_ready _ (VVal 0) (Some 5)); [apply list_subseteq_nil|done]|].
  eapply rtc_l; [apply (life_lock _ 1 (1, 1) (lock_of 1 outside_futures)); [vm_compute; set_solver|vm_compute; reflexivity]|].
  eapply rtc_l; [apply (life_lock _ 0 (0, 0) outside_locked); [vm_compute; set_solver|vm_compute; reflexivity]|].
  apply rtc_refl.
Qed.
Lemma outside_objects_are_not_kept :
  (∃ L : life nat, life_reachable L ∧ locked (held_by_app L) = [(0, 0); (1, 1)] ∧
     deref 2 L 0 = Some (OfApplication 5) ∧ deref 2 L 1 = Some (OfApplication 5)) ∧
  (∃ L : life nat, life_reachable L ∧ locked (held_by_app L) = [(0, 0); (1, 1)] ∧ deref 2 L 0 = None).
Proof.
  split.
  - exists outside_locked. split; [apply outside_locked_reachable|]. by vm_compute.
  - exists (set_objects ∅ outside_locked). split; [|by vm_compute].
    unfold life_reachable. eapply rtc_r; [apply outside_locked_reachable|apply life_objects].
Qed.

(** A ready future, a continuation, and a [finally] callback that returns the
    future of the continuation. *)
Definition own_future (_ : unit) : fres := FFut (Some 1).
Definition own_chain : life nat :=
  from_option (life_finally 0 true own_future
    (from_option (life_then 0 None None same_value (life_make_ready VVoid None life_init)))).
Lemma own_chain_reachable : life_reachable own_chain.
Proof.
  unfold life_reachable. eapply rtc_l; [apply (life_ready _ VVoid None); [apply list_subseteq_nil|done]|].
  eapply rtc_l; [apply (life_add_then _ 0 None None same_value (from_option (life_then 0 None None same_value (life_make_ready VVoid None life_init))));
                 [by left|reflexivity]|].
  eapply rtc_l; [apply (life_add_finally _ 0 true own_future own_chain); [vm_compute; set_solver|reflexivity]|].
  apply rtc_refl.
Qed.
Definition own_posted : life nat := take_tasks 1 own_chain.
Lemma own_posted_reachable : life_reachable own_posted.
Proof.
  unfold life_reachable. etrans; [apply own_chain_reachable|]. unfold own_posted, take_tasks.
  run_task_step. apply rtc_eq. vm_compute. reflexivity.
Qed.
Definition own_call : task nat := TCallSuccess 0 (SFinally true own_future 2).
Definition own_called : life nat :=
  from_option (life_run own_call None (State (ctrls (base own_posted)) (vals (base own_posted)) (take 6 (pool (base own_posted)))) own_posted).

Lemma finally_own_chain_leaks_witness :
  use_count (set_handles [] own_called) (Block 0) ≠ 0 ∧ Block 0 ∉ gone (set_handles [] own_called).
Proof.
  split; [vm_compute; discriminate|].
  apply (finally_own_chain_leaks own_posted own_called (set_handles [] own_called) (take 6 (pool (base own_posted)))
           0 true own_future 2 1 None [] own_posted_reachable); try reflexivity.
  vm_compute. set_solver.
Defined.

(** Owners only restrict when objects exist: every run with owners is a run of
    the futures without them. *)
Theorem owners_refine_futures {U} (L L' : life U) :
  life_reachable L → rtc life_step L L' → reachable (erase L) ∧ rtc sys_step (erase L) (erase L').
Proof.
  assert (∀ X Y : life U, life_good X → rtc life_step X Y → rtc sys_step (erase X) (erase Y)) as H.
  { intros X Y G Hr. revert G. induction Hr as [|X Y Z Hst _ IH]; intros G; [done|].
    destruct (life_step_good X Y G Hst) as [GY _]. specialize (IH GY).
    destruct (life_step_erase X Y (lg_inv _ G) Hst) as [Hs| <-]; [by eapply rtc_l|done]. }
  intros Hr Hst. split; [|by apply H; [apply reachable_good|]].
  apply (H life_init L life_init_good Hr).
Qed.
