(* ===== verification/FutureOrder.v ===== *)
(** * Futures without cycles of owners

    What an application has to keep to for its futures to be destroyed: the
    futures its callbacks return come from trees of controllers that are ordered,
    both in who waits for whom and in who keeps whom.  This file holds the order
    and the proof that every operation of futures keeps to it. *)
From S2P Require Import Prelude Future FutureFacts FutureLife FutureLifeFacts FutureLifeSafety.
Import Future FutureLife.
Local Open Scope nat_scope.

Section order.
Context {U : Type}.
Implicit Types (st : state U) (L : life U).

(** ** The rules of the application

    Two numbers for each tree of controllers, named by its root: a future only
    waits for futures that have a smaller one in [waits], and keeps only what
    has a smaller one in [keeps]. *)
Context (waits keeps : nat → nat).

(** The future of [then] or [catched], [d], waits for the future [x] that the
    callback returned, and then keeps it as the source of its value.  The future
    that a [finally] callback returned keeps [d] instead. *)
Definition adoptable L (x d : nat) : Prop :=
  waits (owner_of (own L) x) < waits (owner_of (own L) d) ∧ keeps (owner_of (own L) x) < keeps (owner_of (own L) d).
Definition awaitable L (x d : nat) : Prop :=
  waits (owner_of (own L) x) < waits (owner_of (own L) d) ∧ keeps (owner_of (own L) d) < keeps (owner_of (own L) x).

(** Callbacks return futures in this order and put no future into the value they
    are given; a value that is stored holds only futures that are lower in the
    order than the future it is stored in. *)
Definition orderly_task (t : task U) L : Prop :=
  match t with
  | TCallSuccess c (SThen f d) =>
      ∀ vs, ctrls (base L) !! c ≫= m_val_state = Some vs →
        let v := default VVoid (vals (base L) !! vs) in
        value_futures (f v).1 ⊆ value_futures v ∧ ∀ x, x ∈ cres_futures (f v).2 → adoptable L x d
  | TCallSuccess _ (SFinally _ f d) | TCallFail _ (FFinally f d) => ∀ x, x ∈ fres_futures (f tt) → awaitable L x d
  | TCallFail c (FCatched _ f d) =>
      ∀ e, ctrls (base L) !! c ≫= m_exception = Some e → ∀ x, x ∈ cres_futures (f e) → adoptable L x d
  | _ => True
  end.
Definition orderly_value (c : nat) (v : value U) L : Prop :=
  ∀ x, x ∈ value_futures v →
    waits (owner_of (own L) x) < waits (if decide (c < length (ctrls (base L))) then owner_of (own L) c else c) ∧
    keeps (owner_of (own L) x) < keeps (if decide (c < length (ctrls (base L))) then owner_of (own L) c else c).
Definition orderly_step : life U → life U → Prop := life_step_under orderly_task orderly_value.

Lemma orderly_step_step L L' : orderly_step L L' → life_step L L'.
Proof.
  unfold orderly_step, life_step. destruct 1;
    [eapply life_task|apply life_handles|apply life_destroy|apply life_new_promise|apply life_promise_move
    |apply life_promise_assign|apply life_promise_destroy|eapply life_set_value|eapply life_set_exception
    |eapply life_get_future|eapply life_add_then|eapply life_add_catched|eapply life_add_finally|apply life_ready
    |apply life_objects|eapply life_lock|eapply life_unlock]; done.
Qed.

(** ** Queues, posted calls and values *)
Definition queued st (c : nat) (f : succ_cb U) : Prop := ∃ k, ctrls st !! c = Some k ∧ f ∈ m_on_success_queue k.
Definition called st (c : nat) (f : succ_cb U) : Prop := TCallSuccess c f ∈ pool st.
Definition valued st (c vs : nat) : Prop := ∃ k, ctrls st !! c = Some k ∧ m_val_state k = Some vs.

(** The futures in a value state are below [c]. *)
Definition below L (c vs : nat) : Prop := ∀ x, vals (base L) !! vs = Some (VFut (Some x)) → adoptable L x c.

(** A callback in a queue or in a posted call. *)
Definition in_order L (c : nat) (f : succ_cb U) : Prop :=
  match f with
  | SThen _ d | SFlatten _ d | SCatched _ d | SFinally _ _ d => c < d
  | SAdopt _ d => adoptable L c d
  | SFinallyValue _ vs d => awaitable L c d ∧ below L d vs
  | SFinallyExn _ d => awaitable L c d
  end.

Record ordered L : Prop := {
  od_queued c f : queued (base L) c f → in_order L c f;
  od_called c f : called (base L) c f → in_order L c f;
  od_source x y : m_value_source (own L) !! x = Some y → keeps (owner_of (own L) y) < keeps (owner_of (own L) x);
  od_dependent x y : (x, y) ∈ m_dependent (own L) → keeps (owner_of (own L) y) < keeps (owner_of (own L) x);
  od_valued c vs : valued (base L) c vs → below L c vs
}.

(** ** What a step may change *)

(** Callbacks stay in their queue, are posted or are new, and so on. *)
Record orderly_change L L' : Prop := {
  oc_owner c : c < length (ctrls (base L)) → owner_of (own L') c = owner_of (own L) c;
  oc_vals vs x : vs < length (vals (base L)) →
    vals (base L') !! vs = Some (VFut (Some x)) → vals (base L) !! vs = Some (VFut (Some x));
  oc_queued c f : queued (base L') c f → queued (base L) c f ∨ in_order L' c f;
  oc_called c f : called (base L') c f → called (base L) c f ∨ queued (base L) c f ∨ in_order L' c f;
  oc_source x y : m_value_source (own L') !! x = Some y →
    m_value_source (own L) !! x = Some y ∨ keeps (owner_of (own L') y) < keeps (owner_of (own L') x);
  oc_dependent x y : (x, y) ∈ m_dependent (own L') →
    (x, y) ∈ m_dependent (own L) ∨ keeps (owner_of (own L') y) < keeps (owner_of (own L') x);
  oc_valued c vs : valued (base L') c vs → valued (base L) c vs ∨ below L' c vs
}.

Lemma queued_link L c f :
  life_inv L → queued (base L) c f → c < length (ctrls (base L)) ∧ link_s L c f.
Proof.
  intros I (k & Hk & Hf). split; [by eapply lookup_lt_Some|]. by apply (ctrl_links _ _ _ (li_ctrl _ I _ _ Hk)).
Qed.
Lemma called_link L c f :
  life_inv L → called (base L) c f → c < length (ctrls (base L)) ∧ link_s L c f.
Proof.
  intros I Hin. destruct (li_task _ I _ Hin) as [Hp Hl]. split; [|done].
  apply alive_block_lt; [apply (li_own _ I)|]. simpl in Hp. by apply Forall_inv in Hp.
Qed.

Section change.
Context L L' (G : ∀ c, c < length (ctrls (base L)) → owner_of (own L') c = owner_of (own L) c)
  (Hvals : ∀ vs x, vs < length (vals (base L)) →
     vals (base L') !! vs = Some (VFut (Some x)) → vals (base L) !! vs = Some (VFut (Some x))).

(** A future in a value is kept by the value state. *)
Lemma below_mono c vs :
  c < length (ctrls (base L)) → vs < length (vals (base L)) →
  (∀ x, vals (base L) !! vs = Some (VFut (Some x)) → x < length (ctrls (base L))) →
  below L c vs → below L' c vs.
Proof using G Hvals.
  intros Hc Hvs Hx H x Hv. apply Hvals in Hv; [|done]. specialize (H x Hv). unfold adoptable in *.
  by rewrite !G by eauto.
Qed.

Context (Hstored : ∀ vs x, vals (base L) !! vs = Some (VFut (Some x)) → x < length (ctrls (base L))).

Lemma in_order_mono c f :
  c < length (ctrls (base L)) → link_s L c f → in_order L c f → in_order L' c f.
Proof using G Hvals Hstored.
  intros Hc [Hd Hl] H. unfold in_order, adoptable, awaitable in *.
  destruct f as [t d|v d|v d|v d|v t d|v vs d|e d]; simpl in *; rewrite ?G by done; try done.
  destruct H as [Ha Hb], Hl as (_ & Hvs & _). split; [done|]. apply below_mono; eauto.
Qed.
End change.

(** The futures in values are of controllers that exist. *)
Definition stored_exist L : Prop := ∀ vs x, vals (base L) !! vs = Some (VFut (Some x)) → x < length (ctrls (base L)).
Lemma stored_lt L : sys_inv (erase L) → stored_exist L.
Proof.
  intros [_ Hv] vs x Hx. unfold vals_ok in Hv. simpl in Hv. rewrite Forall_lookup in Hv. exact (Hv vs _ Hx).
Qed.

Lemma ordered_change L L' :
  life_inv L → stored_exist L → ordered L → orderly_change L L' → ordered L'.
Proof.
  intros I Hst [O1 O2 O3 O4 O5] [G Hv C1 C2 C3 C4 C5].
  pose proof (li_own _ I) as O. split.
  - intros c f Hq. destruct (C1 _ _ Hq) as [H|]; [|done]. destruct (queued_link _ _ _ I H).
    eapply in_order_mono; eauto.
  - intros c f Hq. destruct (C2 _ _ Hq) as [H|[H|]]; [| |done].
    + destruct (called_link _ _ _ I H). eapply in_order_mono; eauto.
    + destruct (queued_link _ _ _ I H). eapply in_order_mono; eauto.
  - intros x y Hs. destruct (C3 _ _ Hs) as [H|]; [|done]. destruct (own_source _ O _ _ H) as (? & ? & _).
    rewrite !G by done. auto.
  - intros x y Hs. destruct (C4 _ _ Hs) as [H|]; [|done]. destruct (own_dependent _ O _ _ H) as (? & ? & _).
    rewrite !G by done. auto.
  - intros c vs Hs. destruct (C5 _ _ Hs) as [H|]; [|done]. pose proof H as (k & Hk & Hkv).
    pose proof (ctrl_bound _ _ _ (li_ctrl _ I _ _ Hk) _ Hkv).
    eapply below_mono; eauto using lookup_lt_Some.
Qed.

(** ** Operations on futures *)

(** The callbacks [cbs] are new in queues, and the value states [vss] in
    controllers. *)
Definition changes st st' (cbs : list (nat * succ_cb U)) (vss : list (nat * nat)) : Prop :=
  (∀ c f, queued st' c f → queued st c f ∨ (c, f) ∈ cbs) ∧
  (∀ c f, called st' c f → called st c f ∨ queued st c f) ∧
  (∀ c vs, valued st' c vs → valued st c vs ∨ (c, vs) ∈ vss).

Lemma change_by L L' cbs vss :
  (∀ c, c < length (ctrls (base L)) → owner_of (own L') c = owner_of (own L) c) →
  (∀ vs x, vs < length (vals (base L)) →
     vals (base L') !! vs = Some (VFut (Some x)) → vals (base L) !! vs = Some (VFut (Some x))) →
  changes (base L) (base L') cbs vss →
  (∀ c f, (c, f) ∈ cbs → in_order L' c f) → (∀ c vs, (c, vs) ∈ vss → below L' c vs) →
  (∀ x y, m_value_source (own L') !! x = Some y →
     m_value_source (own L) !! x = Some y ∨ keeps (owner_of (own L') y) < keeps (owner_of (own L') x)) →
  (∀ x y, (x, y) ∈ m_dependent (own L') →
     (x, y) ∈ m_dependent (own L) ∨ keeps (owner_of (own L') y) < keeps (owner_of (own L') x)) →
  orderly_change L L'.
Proof.
  intros Ho Hv (C1 & C2 & C3) Hc Hvs Hs Hd. split; [done..| | |done|done|].
  - intros c f [?|?]%C1; [by left|right; auto].
  - intros c f [?|?]%C2; [by left|right; by left].
  - intros c vs [?|?]%C3; [by left|right; auto].
Qed.

Lemma queued_update st c (g : controller U → controller U) (extra : list (succ_cb U)) vs p x f :
  (∀ k f, f ∈ m_on_success_queue (g k) → f ∈ m_on_success_queue k ∨ f ∈ extra) →
  queued (State (ctrls (update c g st)) vs p) x f → queued st x f ∨ (x, f) ∈ ((c,.) <$> extra).
Proof.
  intros Hg (k & Hk & Hf). simpl in Hk. destruct (decide (c = x)) as [<- |].
  - rewrite list_lookup_alter_eq in Hk. apply fmap_Some in Hk as (k' & Hk & ->).
    apply Hg in Hf as [Hf|Hf]; [left; by exists k'|right; by apply list_elem_of_fmap_2].
  - rewrite list_lookup_alter_ne in Hk by done. left. by exists k.
Qed.
Lemma valued_update st c (g : controller U → controller U) (extra : list nat) vs p x v :
  (∀ k v, m_val_state (g k) = Some v → m_val_state k = Some v ∨ v ∈ extra) →
  valued (State (ctrls (update c g st)) vs p) x v → valued st x v ∨ (x, v) ∈ ((c,.) <$> extra).
Proof.
  intros Hg (k & Hk & Hf). simpl in Hk. destruct (decide (c = x)) as [<- |].
  - rewrite list_lookup_alter_eq in Hk. apply fmap_Some in Hk as (k' & Hk & ->).
    apply Hg in Hf as [Hf|Hf]; [left; by exists k'|right; by apply list_elem_of_fmap_2].
  - rewrite list_lookup_alter_ne in Hk by done. left. by exists k.
Qed.

(** A posted process task is not a call. *)
Lemma called_posts st st' c c1 c2 f :
  pool st' = (pool st ++ [TProcessSuccess c1]) ++ [TProcessFail c2] → called st' c f → called st c f ∨ queued st c f.
Proof.
  unfold called. intros -> Hin. left. rewrite !elem_of_app, !list_elem_of_singleton in Hin. by destruct Hin as [[|]|].
Qed.

Lemma changes_register c s f st : changes st (set_on_success_and_fail c s f st) [(c, s)] [].
Proof.
  split_and!.
  - intros x g. apply (queued_update st c _ [s]). intros k h. simpl. by rewrite elem_of_app.
  - intros x g. by apply (called_posts st _ x c c).
  - intros x v. apply (valued_update st c _ []). by left.
Qed.
Lemma changes_set_value_state c vs st : changes st (set_value_state c vs st) [] [(c, vs)].
Proof.
  split_and!.
  - intros x g. apply (queued_update st c _ []). by left.
  - intros x g. by apply (called_posts st _ x c c).
  - intros x v. apply (valued_update st c _ [vs]). intros k w [= <-]. right. left.
Qed.
Lemma changes_set_value c v st : changes st (set_value c v st) [] [(c, length (vals st))].
Proof. apply (changes_set_value_state c _ (State (ctrls st) (vals st ++ [v]) (pool st))). Qed.
Lemma changes_set_exception c e st : changes st (set_exception c e st) [] [].
Proof.
  split_and!.
  - intros x g. apply (queued_update st c _ []). by left.
  - intros x g. by apply (called_posts st _ x c c).
  - intros x v. apply (valued_update st c _ []). by left.
Qed.
Lemma changes_forward void c vs st :
  changes st (forward_value void c vs st) [] [(c, if void then length (vals st) else vs)].
Proof. destruct void; [apply changes_set_value|apply changes_set_value_state]. Qed.
Lemma changes_refl st : changes st st [] [].
Proof. split_and!; by left. Qed.

Lemma changes_process_success c st : changes st (process_success c st) [] [].
Proof.
  unfold process_success. destruct (ctrls st !! c) as [k|] eqn:Hk; [|apply changes_refl].
  assert (∀ vs p x f, queued (State (ctrls (update c clear_success st)) vs p) x f → queued st x f ∨ (x, f) ∈ []) as Hq.
  { intros vs p x f. apply (queued_update st c _ []). intros k' g Hg. by apply elem_of_nil in Hg. }
  assert (∀ vs p x v, valued (State (ctrls (update c clear_success st)) vs p) x v → valued st x v ∨ (x, v) ∈ []) as Hv.
  { intros vs p x v. apply (valued_update st c _ []). by left. }
  destruct (m_val_state k); [|destruct (m_exception k)]; [|split_and!; [apply Hq|by left|apply Hv]|apply changes_refl].
  split_and!; [apply Hq| |apply Hv]. intros x f. unfold called. simpl.
  intros [Hin|(g & [= -> <-] & Hg)%list_elem_of_fmap]%elem_of_app; [by left|right; by exists k].
Qed.
Lemma changes_process_fail c st : changes st (process_fail c st) [] [].
Proof.
  unfold process_fail. destruct (ctrls st !! c) as [k|] eqn:Hk; [|apply changes_refl].
  assert (∀ vs p x f, queued (State (ctrls (update c clear_fail st)) vs p) x f → queued st x f ∨ (x, f) ∈ []) as Hq.
  { intros vs p x f. apply (queued_update st c _ []). by left. }
  assert (∀ vs p x v, valued (State (ctrls (update c clear_fail st)) vs p) x v → valued st x v ∨ (x, v) ∈ []) as Hv.
  { intros vs p x v. apply (valued_update st c _ []). by left. }
  destruct (m_exception k); [|destruct (m_val_state k)]; [|split_and!; [apply Hq|by left|apply Hv]|apply changes_refl].
  split_and!; [apply Hq| |apply Hv]. intros x f. unfold called. simpl.
  intros [Hin|(g & [=] & _)%list_elem_of_fmap]%elem_of_app. by left.
Qed.

(** The pointers that a task adds to controllers. *)
Lemma life_run_edges (t : task U) out st L L' :
  life_run t out st L = Some L' →
  (∀ c, owner_of (own L') c = owner_of (own L) c) ∧
  (∀ x y, m_value_source (own L') !! x = Some y →
     m_value_source (own L) !! x = Some y ∨ t = TCallSuccess y (SAdopt false x)) ∧
  (∀ x y, (x, y) ∈ m_dependent (own L') →
     (x, y) ∈ m_dependent (own L) ∨
     (∃ c v f, t = TCallSuccess c (SFinally v f y) ∧ x ∈ fres_futures (f tt)) ∨
     (∃ c f, t = TCallFail c (FFinally f y) ∧ x ∈ fres_futures (f tt))).
Proof.
  intros Hr. split; [intros c; unfold owner_of; by destruct (life_run_own _ _ _ _ _ Hr) as [-> _]|].
  destruct t as [d|d|d f|d f]; cbn [life_run] in Hr; [injection Hr as <-; split; by left..| |];
    (destruct (expired _ _); [done|]); case_match eqn:Ec; try done; apply fmap_Some in Hr as (w & Hw & ->); simpl.
  - destruct f as [t e|v e|[] e|v e|v t e|v vs' e|ex e]; simpl in Hw; unfold add_value_source, finally_future in Hw;
      repeat case_match; simplify_eq; try (split; by left).
    + split; [|by left]. intros x y. simpl. intros [[-> ->]|[_ ?]]%lookup_insert_Some; [by right|by left].
    + split; [by left|]. intros x y. simpl. rewrite elem_of_app, list_elem_of_singleton.
      intros [?|[= -> ->]]; [by left|right; left]. do 3 eexists; split; [done|].
      match goal with H : t tt = _ |- _ => rewrite H end. left.
  - destruct f as [b|b|v t b|t b]; simpl in Hw; unfold finally_future in Hw; repeat case_match; simplify_eq;
      try (split; by left).
    split; [by left|]. intros x y. simpl. rewrite elem_of_app, list_elem_of_singleton.
    intros [?|[= -> ->]]; [by left|right; right]. do 2 eexists; split; [done|].
    match goal with H : t tt = _ |- _ => rewrite H end. left.
Qed.

(** ** Running a task *)

(** A task that was taken from the pool of [L] leads to [st']: what is new is in
    order for the controllers of [L]. *)
Definition orderly_run L st st' : Prop :=
  ∃ cbs vss, changes st st' cbs vss ∧
    (∀ vs x, vs < length (vals st) → vals st' !! vs = Some (VFut (Some x)) → vals st !! vs = Some (VFut (Some x))) ∧
    (∀ c f, (c, f) ∈ cbs → in_order (with_base st' L) c f) ∧
    (∀ c vs, (c, vs) ∈ vss → below (with_base st' L) c vs).

Lemma insert_keeps (l : list (value U)) vs v i x :
  value_futures v ⊆ value_futures (default VVoid (l !! vs)) →
  <[vs := v]> l !! i = Some (VFut (Some x)) → l !! i = Some (VFut (Some x)).
Proof.
  intros Hv Hi. destruct (decide (vs = i)) as [<- |]; [|by rewrite list_lookup_insert_ne in Hi].
  apply list_lookup_insert_Some in Hi as [(_ & -> & Hlt)|[? _]]; [|done].
  specialize (Hv x ltac:(left)). destruct (lookup_lt_is_Some_2 _ _ Hlt) as [w Hw]. rewrite Hw in *. simpl in Hv.
  destruct w as [| |[y|]]; simpl in Hv; try by apply elem_of_nil in Hv. by apply list_elem_of_singleton in Hv as ->.
Qed.
Lemma last_value (l : list (value U)) v x : (l ++ [v]) !! length l = Some (VFut (Some x)) → x ∈ value_futures v.
Proof. rewrite list_lookup_middle by done. intros [= ->]. left. Qed.
Lemma old_value (l : list (value U)) v i w : i < length l → (l ++ [v]) !! i = Some w → l !! i = Some w.
Proof. intros Hi. by rewrite lookup_app_l. Qed.

(** The operations that settle a controller or register with one. *)
Lemma orderly_set_exception L st c e : orderly_run L st (set_exception c e st).
Proof.
  exists [], []. split_and!; [apply changes_set_exception|done|..]; intros ?? Hin; by apply elem_of_nil in Hin.
Qed.
Lemma orderly_set_value L st c v :
  (∀ x, x ∈ value_futures v → adoptable L x c) → orderly_run L st (set_value c v st).
Proof.
  intros Hv. exists [], [(c, length (vals st))]. split_and!; [apply changes_set_value| | |].
  - intros vs x Hvs. by apply old_value.
  - intros ?? Hin; by apply elem_of_nil in Hin.
  - intros d vs [= -> ->]%list_elem_of_singleton x Hx. by apply Hv, (last_value (vals st)).
Qed.
Lemma orderly_forward L st void c vs :
  (∀ x, vals st !! vs = Some (VFut (Some x)) → adoptable L x c) → orderly_run L st (forward_value void c vs st).
Proof.
  intros Hv. destruct void; [by apply orderly_set_value; intros x ?%elem_of_nil|].
  exists [], [(c, vs)]. split_and!; [apply (changes_forward false)|done| |].
  - intros ?? Hin; by apply elem_of_nil in Hin.
  - intros d ws [= -> ->]%list_elem_of_singleton x Hx. by apply Hv.
Qed.
Lemma orderly_register L st c s f :
  in_order (with_base st L) c s → orderly_run L st (set_on_success_and_fail c s f st).
Proof.
  intros Hs. exists [(c, s)], []. split_and!; [apply changes_register|done| |].
  - by intros d g [= -> ->]%list_elem_of_singleton.
  - intros ?? Hin; by apply elem_of_nil in Hin.
Qed.
(** The value that a callback was given is changed first. *)
Lemma orderly_insert L st vs v st' :
  value_futures v ⊆ value_futures (default VVoid (vals st !! vs)) →
  orderly_run L (State (ctrls st) (<[vs := v]> (vals st)) (pool st)) st' → orderly_run L st st'.
Proof.
  intros Hv (cbs & vss & C & Hvals & Hc & Hb). exists cbs, vss. split_and!; [exact C| |done|done].
  intros i x Hi Hx. eapply insert_keeps; [done|]. apply Hvals; [simpl; by rewrite length_insert|done].
Qed.

(** Everything the value of a controller holds is below the controller. *)
Lemma same_tree L x c d : owner_of (own L) d = owner_of (own L) c → adoptable L x c → adoptable L x d.
Proof. unfold adoptable. by intros ->. Qed.
Lemma adoptable_trans L x c d : adoptable L x c → adoptable L c d → adoptable L x d.
Proof. unfold adoptable. lia. Qed.

Lemma success_orderly L c f :
  life_inv L → ordered L → called (base L) c f → orderly_task (TCallSuccess c f) L →
  ∀ st, ctrls st = ctrls (base L) → vals st = vals (base L) → orderly_run L st (call_success c f st).
Proof.
  intros I O Hin Hrule st Hcs Hvs. pose proof (od_called _ O _ _ Hin) as Hord.
  destruct (called_link _ _ _ I Hin) as [Hc [_ Hl]].
  unfold call_success. rewrite Hcs. destruct (ctrls (base L) !! c ≫= m_val_state) as [vs|] eqn:Ecv.
  2:{ exists [], []. split_and!; [apply changes_refl|done|..]; intros ?? H; by apply elem_of_nil in H. }
  assert (∀ x, vals st !! vs = Some (VFut (Some x)) → adoptable L x c) as Hbelow.
  { rewrite Hvs. apply (od_valued _ O). apply bind_Some in Ecv as (k & Hk & Hkv). by exists k. }
  destruct f as [t d|v d|v d|v d|v t d|v ws d|e d]; simpl in Hord, Hl, Hrule.
  - destruct (Hrule _ Ecv) as [Hv' Hr]. rewrite <- Hvs in *. unfold exec_then_on_success.
    destruct (t _) as [v' r]. simpl in Hv', Hr. apply (orderly_insert L st vs v'); [done|].
    destruct r as [x|e|fc]; [by apply orderly_set_value|apply orderly_set_exception|].
    apply orderly_set_value. intros x Hx. apply Hr. by destruct fc.
  - unfold exec_flatten. apply (orderly_insert L st vs (VFut None)); [apply list_subseteq_nil|].
    destruct (vals st !! vs) as [[| |[ic|]]|]; simpl; try apply orderly_set_exception.
    apply orderly_register. simpl. by apply (same_tree L ic c), Hbelow.
  - apply orderly_forward. intros x Hx. eapply adoptable_trans; eauto.
  - apply orderly_forward. intros x Hx. eapply same_tree; eauto.
  - unfold exec_finally_success. destruct (t tt) as [|e|[ic|]]; try apply orderly_set_exception.
    + apply orderly_forward. intros x Hx. eapply same_tree; eauto.
    + apply orderly_register. simpl. split; [apply Hrule; left|].
      intros x Hx. simpl in Hx. eapply (same_tree L); eauto.
  - apply orderly_forward. destruct Hord as [_ Hb]. intros x Hx. apply Hb. by rewrite <- Hvs.
  - apply orderly_set_exception.
Qed.

Lemma fail_orderly L c f :
  orderly_task (TCallFail c f) L →
  ∀ st, ctrls st = ctrls (base L) → orderly_run L st (call_fail c f st).
Proof.
  intros Hrule st Hcs. unfold call_fail. rewrite Hcs. destruct (ctrls (base L) !! c ≫= m_exception) as [e|] eqn:Ece.
  2:{ exists [], []. split_and!; [apply changes_refl|done|..]; intros ?? H; by apply elem_of_nil in H. }
  destruct f as [d|d|v t d|t d]; simpl in Hrule; try apply orderly_set_exception.
  - specialize (Hrule _ Ece). unfold exec_catched_fail. destruct (t e) as [x|e'|[ic|]]; try apply orderly_set_exception.
    + apply orderly_set_value. destruct v; [by intros x' ?%elem_of_nil|done].
    + apply orderly_register. simpl. apply Hrule. left.
  - unfold exec_finally_fail. destruct (t tt) as [|e'|[ic|]]; try apply orderly_set_exception.
    apply orderly_register. simpl. apply Hrule. left.
Qed.

Lemma task_orderly ts1 t ts2 out L L' :
  life_inv L → ordered L → pool (base L) = ts1 ++ t :: ts2 → orderly_task t L →
  life_run t out (State (ctrls (base L)) (vals (base L)) (ts1 ++ ts2)) L = Some L' → orderly_change L L'.
Proof.
  intros I O Hp Hrule Hr. destruct (life_run_base _ _ _ _ _ Hr) as (Hb & _ & _).
  destruct (life_run_edges _ _ _ _ _ Hr) as (Ho & Hs & Hd). set (st := State _ _ _) in *.
  assert (t ∈ pool (base L)) as Hin by (rewrite Hp; apply elem_of_app; right; left).
  assert (orderly_run L st (run_task t st)) as (cbs & vss & (C1 & C2 & C3) & Hvals & Hc & Hv).
  { destruct t as [c|c|c f|c f]; cbn [run_task].
    - exists [], []. split_and!; [apply changes_process_success| |..]; try (intros ?? H; by apply elem_of_nil in H).
      unfold process_success. by repeat case_match.
    - exists [], []. split_and!; [apply changes_process_fail| |..]; try (intros ?? H; by apply elem_of_nil in H).
      unfold process_fail. by repeat case_match.
    - by apply success_orderly.
    - by apply fail_orderly. }
  rewrite <- Hb in *. apply (change_by _ _ cbs vss).
  - intros c _. apply Ho.
  - exact Hvals.
  - split_and!; [exact C1| |exact C3]. intros c f [H|H]%C2; [left|by right].
    unfold called in *. rewrite Hp. by apply elem_of_add_mid.
  - intros c f Hf. specialize (Hc _ _ Hf). unfold in_order, below, adoptable, awaitable in *. simpl in Hc.
    destruct f; rewrite ?Ho; try done. destruct Hc as [? Hw]. split; [done|]. intros x. rewrite !Ho. apply Hw.
  - intros c vs Hf x Hx. unfold adoptable. rewrite !Ho. exact (Hv _ _ Hf x Hx).
  - intros x y [?| ->]%Hs; [by left|right]. rewrite !Ho. by apply (od_called _ O _ _ Hin).
  - intros x y [?|[(c & v & f & -> & Hx)|(c & f & -> & Hx)]]%Hd; [by left|right; rewrite !Ho; by apply Hrule..].
Qed.

(** ** The steps of the system *)

(** Only the controllers, the values and who owns what matter. *)
Lemma ordered_same L a g : ordered L → ordered (Life (base L) (own L) a g).
Proof. by intros []. Qed.

Lemma ordered_run L st' w a g :
  life_inv L → stored_exist L → ordered L → orderly_run L (base L) st' →
  owner w = owner (own L) → m_value_source w = m_value_source (own L) → m_dependent w = m_dependent (own L) →
  ordered (Life st' w a g).
Proof.
  intros I S O (cbs & vss & C & Hvals & Hc & Hv) Ho Hs Hd. apply (ordered_change L); [done..|].
  assert (∀ c, owner_of w c = owner_of (own L) c) as Hoo by (intros c; unfold owner_of; by rewrite Ho).
  apply (change_by _ _ cbs vss); simpl; [done|done|done| | |rewrite Hs; by left|rewrite Hd; by left].
  - intros c f Hf. specialize (Hc _ _ Hf). unfold in_order, below, adoptable, awaitable in *. simpl in *.
    destruct f; rewrite ?Hoo; try done. destruct Hc as [? Hw]. split; [done|]. intros x. rewrite !Hoo. apply Hw.
  - intros c vs Hf x Hx. unfold adoptable. simpl. rewrite !Hoo. exact (Hv _ _ Hf x Hx).
Qed.

(** A new controller has no callbacks and no value. *)
Lemma ordered_new root L : life_inv L → stored_exist L → ordered L → ordered (with_new root L).
Proof.
  intros I S O. apply (ordered_change L); [done..|].
  assert (∀ c k, ctrls (base (with_new root L)) !! c = Some k → ctrls (base L) !! c = Some k ∨ k = fresh_controller) as Hk.
  { intros c k [Hk|[_ Hk]]%lookup_app_Some; [by left|right]. by apply list_lookup_singleton_Some in Hk as [_ <-]. }
  apply (change_by _ _ [] []); try (intros ?? H; by apply elem_of_nil in H); [|done| |by left|by left].
  - intros c Hc. apply (grows_owner _ _ (grows_new root L (li_own _ I))). done.
  - split_and!.
    + intros c f (k & [Hc| ->]%Hk & Hf); [left; by exists k|by apply elem_of_nil in Hf].
    + by left.
    + intros c vs (k & [Hc| ->]%Hk & Hf); [left; by exists k|done].
Qed.
Lemma stored_new root L : stored_exist L → stored_exist (with_new root L).
Proof. intros S vs x Hx. specialize (S vs x Hx). simpl. rewrite length_app. lia. Qed.

(** A child with the callbacks of its parent. *)
Lemma ordered_child c s f w a L :
  life_inv L → stored_exist L → ordered L → c < length (ctrls (base L)) →
  in_order (with_new (owner_of (own L) c) L) c s →
  owner w = owner (create_child_controller c (own L)) →
  m_value_source w = m_value_source (own L) → m_dependent w = m_dependent (own L) →
  ordered (Life (set_on_success_and_fail c s f (create_controller (base L)).2) w a (gone L)).
Proof.
  intros I S O Hc Hs Ho Hsrc Hd. destruct (own_root _ (li_own _ I) _ Hc) as [Hr Hrr].
  apply (ordered_run (with_new (owner_of (own L) c) L)); try done.
  - apply life_inv_new; [done|by right].
  - by apply stored_new.
  - by apply ordered_new.
  - by apply orderly_register.
Qed.

Lemma ordered_then c fl br f L L' :
  life_inv L → stored_exist L → ordered L → c ∈ handles (held_by_app L) → life_then c fl br f L = Some L' → ordered L'.
Proof.
  intros I Hst O Hh. pose proof (handle_lt _ _ I Hh) as Hc. unfold life_then, then_. cbn [create_controller].
  set (n := length (ctrls (base L))).
  assert (∀ w a, owner w = owner (create_child_controller c (own L)) → m_value_source w = m_value_source (own L) →
    m_dependent w = m_dependent (own L) →
    ordered (Life (set_on_success_and_fail c (SThen f n) (FProp n) (create_controller (base L)).2) w a (gone L))) as H1.
  { intros w a. by apply ordered_child. }
  destruct fl as [void|]; [|intros [= <-]; apply (ordered_same (Life _ _ (held_by_app L) (gone L))), H1; by destruct br].
  intros [= <-].
  destruct (life_add_child c (SThen f n) (FProp n) L None I Hh) as [I2 Ha]; try done.
  { intros L'' Hlt Ho. split; (split; [done|]); auto. }
  cbn zeta in *. match type of I2 with life_inv ?x => set (L2 := x) in * end.
  assert (length (ctrls (base L2)) = S n) as Hn by (simpl; rewrite length_alter, length_app; simpl; lia).
  apply (ordered_same (Life _ _ (held_by_app L) (gone L))).
  apply (ordered_child n (SFlatten void (length (ctrls (base L2)))) (FProp (length (ctrls (base L2)))) _ (held_by_app L) L2);
    try done.
  - intros vs x Hx. specialize (Hst vs x Hx). fold n in Hst. lia.
  - by apply H1.
  - lia.
  - simpl in Hn |- *. lia.
Qed.

Lemma ordered_catched c void f L L' :
  life_inv L → stored_exist L → ordered L → c ∈ handles (held_by_app L) → life_catched c void f L = Some L' → ordered L'.
Proof.
  intros I S O Hc%handle_lt; [|done]. unfold life_catched, catched. cbn [create_controller]. intros [= <-].
  apply (ordered_same (Life _ _ (held_by_app L) (gone L))). by apply ordered_child.
Qed.
Lemma ordered_finally c void f L L' :
  life_inv L → stored_exist L → ordered L → c ∈ handles (held_by_app L) → life_finally c void f L = Some L' → ordered L'.
Proof.
  intros I S O Hc%handle_lt; [|done]. unfold life_finally, finally. cbn [create_controller]. intros [= <-].
  apply (ordered_same (Life _ _ (held_by_app L) (gone L))). by apply ordered_child.
Qed.
Lemma ordered_ready v out L :
  life_inv L → stored_exist L → ordered L → value_futures v ⊆ handles (held_by_app L) →
  orderly_value (length (ctrls (base L))) v L → ordered (life_make_ready v out L).
Proof.
  intros I S O Hh Hv. set (n := length (ctrls (base L))) in *.
  change (life_make_ready v out L) with
    (hold n (store_outside out (length (vals (base L))) (rebase (set_value n v (base (with_new n L))) (with_new n L)))).
  apply (ordered_same (store_outside _ _ _)).
  assert (good_root n L) as Hg by (by left).
  apply (ordered_run (with_new n L)); try done; [by apply life_inv_new|by apply stored_new|by apply ordered_new|].
  apply orderly_set_value. intros x Hx. specialize (Hv x Hx). rewrite decide_False in Hv by lia.
  pose proof (handle_lt _ _ I (Hh x Hx)) as Hlt. unfold adoptable.
  rewrite !owner_of_new by apply (li_own _ I). rewrite (decide_True (P := n = n)), decide_False by (done || lia). done.
Qed.

Lemma ordered_abandon p ps L :
  life_inv L → stored_exist L → ordered L → ordered (set_promises ps (rebase (abandon p (base L)).2 L)).
Proof.
  intros I S O. apply (ordered_run L); try done. unfold abandon.
  destruct (m_completion_pending p), (p_controller p); simpl; try apply orderly_set_exception;
    exists [], []; (split_and!; [apply changes_refl|done|..]); intros ?? H; by apply elem_of_nil in H.
Qed.

Lemma ordered_step L L' : life_good L → ordered L → orderly_step L L' → ordered L'.
Proof.
  intros [I Sy Hsrc] O. pose proof (stored_lt _ Sy) as S.
  destruct 1 as [ts1 t ts2 out L' hs Hp Ht _ _ Hrule Hret Hhs Hr|hs Hhs|o Ho Hz| |p ps Hp|p q ps Hp|p ps Hp
    |p ps v out p' st' Hp Hv Hrule Hset|p ps e p' st' Hp Hset|p ps p' c st' Hp Hg|c fl br f L' Hc He|c v f L' Hc He
    |c v f L' Hc He|v out Hv Hrule|xs|c l L' Hc Hl|l ls Hl].
  all: try (by apply (ordered_same L)).
  - apply (ordered_same L'). apply (ordered_change L); [done..|]. by eapply task_orderly.
  - apply (ordered_same (with_new (length (ctrls (base L))) L)). by apply ordered_new.
  - replace (promise_move_assign p q (base L)) with
      ((promise_move q).1, (promise_move q).2, (abandon p (base L)).2)
      by (unfold promise_move_assign; by destruct (abandon p (base L))).
    by apply ordered_abandon.
  - by apply ordered_abandon.
  - unfold promise_set_value in Hset. destruct (claim_completion p (base L)) as [[q c] s| |] eqn:E; [|done..].
    apply claim_some in E as (Hc & _ & -> & ->). injection Hset as <- <-.
    apply (ordered_run L); try done. apply orderly_set_value. intros x Hx. specialize (Hrule c Hc x Hx).
    rewrite decide_True in Hrule; [done|]. apply alive_block_lt; [apply (li_own _ I)|].
    eapply promise_controller_alive; [|done]. apply promise_alive; [done|]. rewrite Hp. left.
  - unfold promise_set_exception in Hset. destruct e as [e|]; [|done].
    destruct (claim_completion p (base L)) as [[q c] s| |] eqn:E; [|done..].
    apply claim_some in E as (Hc & _ & -> & ->). injection Hset as <- <-.
    apply (ordered_run L); try done. apply orderly_set_exception.
  - by eapply ordered_then.
  - by eapply ordered_catched.
  - by eapply ordered_finally.
  - by apply ordered_ready.
  - unfold fvalue_lock in Hl. simpl in Hl. destruct (ctrls (base L) !! c ≫= m_val_state); [|done].
    case_decide; simplify_eq. by apply (ordered_same L).
Qed.

Lemma ordered_init : ordered life_init.
Proof.
  split; simpl; try (intros ?? (k & Hk & _); done); try (intros ?? H; by apply elem_of_nil in H).
  intros ?? H. by rewrite lookup_empty in H.
Qed.

(** Every state that an orderly application can reach. *)
Lemma orderly_reachable L : rtc orderly_step life_init L → life_good L ∧ ordered L.
Proof.
  intros Hr. eapply (rtc_invariant orderly_step (λ X, life_good X ∧ ordered X)); [| |exact Hr].
  - split; [apply life_init_good|apply ordered_init].
  - intros X Y [G O] Hst. split; [|by eapply ordered_step].
    apply (life_step_good X Y G), orderly_step_step, Hst.
Qed.
End order.
