(* ===== verification/FutureReclaim.v ===== *)
(** * Futures that are let go of are destroyed

    When the application and the pool hold nothing any more, the futures of an
    application that keeps to the order of FutureOrder are all settled, and
    nothing keeps the destructors from taking their controllers and values
    down, whatever order they run in. *)
From S2P Require Import Prelude Future FutureFacts FutureLife FutureLifeFacts FutureLifeSafety FutureLifetime FutureOrder.
Import Future FutureLife.
Local Open Scope nat_scope.

Section collect.
Context {U : Type}.
Implicit Types (L : life U).

(** What the members of an object keep. *)
Definition has_pointer L (a b : obj) : Prop :=
  match a with
  | Block g => ∃ c k, ctrls (base L) !! c = Some k ∧ owner_of (own L) c = g ∧ b ∈ controller_pointers (own L) c k
  | ValueState vs => ∃ v, vals (base L) !! vs = Some v ∧ b ∈ value_pointers (own L) v
  end.
(** Neither the application nor the pool holds anything. *)
Definition abandoned L : Prop :=
  promises (held_by_app L) = [] ∧ handles (held_by_app L) = [] ∧ locked (held_by_app L) = [] ∧ pool (base L) = [].

Definition all_objects L : list obj :=
  (Block <$> seq 0 (length (ctrls (base L)))) ++ (ValueState <$> seq 0 (length (vals (base L)))).

Lemma objects_created L o : created L o = true → o ∈ all_objects L.
Proof.
  unfold all_objects. rewrite elem_of_app. destruct o as [r|vs]; simpl; rewrite bool_decide_eq_true.
  - intros [Hr _]. left. apply list_elem_of_fmap_2, elem_of_seq. lia.
  - intros Hv. right. apply list_elem_of_fmap_2, elem_of_seq. lia.
Qed.

Lemma abandoned_kept L b :
  life_inv L → abandoned L → b ∈ pointers L → ∃ a, alive L a = true ∧ has_pointer L a b.
Proof.
  intros I (Hps & Hhs & Hls & Hp). unfold pointers, app_pointers. rewrite Hps, Hhs, Hls, Hp. simpl.
  rewrite elem_of_app. intros [Hb|Hb]; apply list_elem_of_In, in_concat in Hb as (os & Hos & Hb);
    rewrite <- !list_elem_of_In in *; apply elem_of_lookup_imap in Hos as (i & x & -> & Hx);
    (case_decide as Hg; [by apply elem_of_nil in Hb|]).
  - exists (block (own L) i). split; [apply alive_block; [apply (li_own _ I)|by eapply lookup_lt_Some|done]|].
    by exists i, x.
  - exists (ValueState i). split; [|by exists x]. apply alive_spec. split; [|done]. simpl.
    rewrite bool_decide_eq_true. by eapply lookup_lt_Some.
Qed.

(** The object of the greatest rank. *)
Lemma max_rank (rank : obj → nat) (l : list obj) :
  l ≠ [] → ∃ o, o ∈ l ∧ ∀ x, x ∈ l → rank x ≤ rank o.
Proof.
  induction l as [|a l IH]; [done|]. intros _. destruct (decide (l = [])) as [-> |Hl].
  - exists a. split; [left|]. intros x ->%list_elem_of_singleton. done.
  - destruct (IH Hl) as (o & Ho & Hm). destruct (decide (rank a ≤ rank o)).
    + exists o. split; [by right|]. intros x [-> |Hx]%elem_of_cons; auto.
    + exists a. split; [left|]. intros x [-> |Hx]%elem_of_cons; [done|]. specialize (Hm x Hx). lia.
Qed.

Lemma use_count_zero L o : o ∉ pointers L → use_count L o = 0.
Proof.
  intros Ho. unfold use_count. destruct (filter (o =.) (pointers L)) as [|x l] eqn:E; [done|].
  exfalso. apply Ho. assert (x ∈ filter (o =.) (pointers L)) as [<- Hx]%list_elem_of_filter by (rewrite E; left). done.
Qed.

Definition survivors L : list obj := filter (λ o, alive L o = true) (all_objects L).

Lemma survivors_without L o : o ∈ survivors L → length (survivors (without o L)) < length (survivors L).
Proof.
  unfold survivors. change (all_objects (without o L)) with (all_objects L).
  assert (∀ x, alive (without o L) x = true → alive L x = true) as Hsub.
  { intros x. rewrite !alive_spec. simpl. rewrite not_elem_of_cons. intros [Hc [_ Hg]]. split; [by destruct x|done]. }
  assert (alive (without o L) o ≠ true) as Hno.
  { rewrite alive_spec. simpl. rewrite not_elem_of_cons. tauto. }
  intros Ho. apply list_elem_of_filter in Ho as [Ha Hin]. induction (all_objects L) as [|x l IH]; [by apply elem_of_nil in Hin|].
  rewrite !filter_cons.
  assert (length (filter (λ x, alive (without o L) x = true) l) ≤ length (filter (λ x, alive L x = true) l)) as Hle.
  { clear IH Hin. induction l as [|y l IH]; [done|]. rewrite !filter_cons. repeat case_decide; simpl; try lia. naive_solver. }
  apply elem_of_cons in Hin as [<- |Hin].
  - rewrite decide_False, decide_True by done. simpl. lia.
  - specialize (IH Hin). repeat case_decide; simpl; try lia. naive_solver.
Qed.

(** The destructor of an object that no strong pointer keeps. *)
Definition destroy_step L L' : Prop := ∃ o, alive L o = true ∧ use_count L o = 0 ∧ L' = without o L.

Lemma destroys_survivors n L L' : nsteps destroy_step n L L' → n + length (survivors L') ≤ length (survivors L).
Proof.
  induction 1 as [|n L L1 L2 (o & Ha & _ & ->) _ IH]; [lia|].
  assert (o ∈ survivors L) as Ho%survivors_without; [|lia].
  apply list_elem_of_filter. split; [done|]. apply alive_spec in Ha as [? _]. by apply objects_created.
Qed.
Lemma survivors_bound L : length (survivors L) ≤ length (ctrls (base L)) + length (vals (base L)).
Proof.
  trans (length (all_objects L)); [apply length_filter|].
  unfold all_objects. by rewrite length_app, !length_fmap, !length_seq.
Qed.

(** What destructors leave as it is. *)
Lemma destroys_same L L' :
  life_good L → rtc destroy_step L L' →
  life_good L' ∧ base L' = base L ∧ own L' = own L ∧ held_by_app L' = held_by_app L.
Proof.
  intros G Hr. eapply (rtc_invariant destroy_step (λ X, life_good X ∧ base X = base L ∧ own X = own L ∧ held_by_app X = held_by_app L));
    [by split_and!| |exact Hr].
  intros X Y (GX & Hb & Ho & Ha) (o & Hal & Hz & ->). split_and!; [|done..].
  apply (life_step_good X); [done|]. by apply (life_destroy X o).
Qed.

(** Where something is left, the object of the greatest rank can be destroyed. *)
Lemma destruction_goes_on (rank : obj → nat) L o :
  life_good L → abandoned L → (∀ a b, has_pointer L a b → rank b < rank a) →
  created L o = true → o ∉ gone L → ∃ L', destroy_step L L'.
Proof.
  intros G Ha Hrank Hc Hg. assert (o ∈ survivors L) as Hs.
  { apply list_elem_of_filter. split; [by apply alive_spec|by apply objects_created]. }
  destruct (max_rank rank (survivors L)) as (x & Hx & Hmax); [intros E; rewrite E in Hs; by apply elem_of_nil in Hs|].
  pose proof Hx as [Hax Hin]%list_elem_of_filter. exists (without x L), x. split_and!; [done| |done].
  apply use_count_zero. intros Hp. destruct (abandoned_kept L x (lg_inv _ G) Ha Hp) as (a & Haa & Hk).
  specialize (Hrank _ _ Hk). assert (a ∈ survivors L) as Hsa.
  { apply list_elem_of_filter. split; [done|]. apply alive_spec in Haa as [? _]. by apply objects_created. }
  specialize (Hmax _ Hsa). lia.
Qed.

(** ** At rest *)
Section rest.
Context (waits keeps : nat → nat).

(** Who settles a future that is not settled waits itself, in the same tree for
    its parent, else for a future that is lower in the order: no one waits. *)
Lemma rest_settled L c k :
  life_good L → ordered waits keeps L → promises (held_by_app L) = [] → pool (base L) = [] →
  ctrls (base L) !! c = Some k → is_settled k = true.
Proof.
  intros [I S _] O Hps Hp. pose proof S as Sy. unfold erase in Sy. rewrite Hps in Sy.
  remember (waits (owner_of (own L) c)) as n eqn:En. revert c En k.
  induction n as [n IHn] using lt_wf_ind. intros c. induction c as [c IHc] using lt_wf_ind. intros En k Hk.
  destruct (is_settled k) eqn:Es; [done|exfalso].
  pose proof (quiescent_producer _ _ _ _ Sy Hp Hk Es) as Hprod. unfold producers in Hprod. simpl in Hprod.
  rewrite occ_nil in Hprod. rewrite Nat.add_0_r in Hprod.
  assert (c ∈ concat ((λ k, starget <$> m_on_success_queue k) <$> ctrls (base L))) as Hin by (apply occ_pos; lia).
  apply list_elem_of_In, in_concat in Hin as (q & Hq & Hin). rewrite <- !list_elem_of_In in *.
  apply list_elem_of_fmap in Hq as (k' & -> & [c' Hk']%list_elem_of_lookup).
  apply list_elem_of_fmap in Hin as (f & Hf & Hfq).
  assert (is_settled k' = false) as Es'.
  { destruct (is_settled k') eqn:E; [|done]. destruct (quiescent_quiet _ _ _ _ Sy Hp Hk' E) as [Hq _].
    rewrite Hq in Hfq. by apply elem_of_nil in Hfq. }
  assert (queued (base L) c' f) as Hqf by (by exists k').
  pose proof (od_queued _ _ _ O _ _ Hqf) as Hord. destruct (queued_link _ _ _ I Hqf) as [_ [_ Hl]].
  assert (owner_of (own L) c = owner_of (own L) c' ∧ c' < c ∨ waits (owner_of (own L) c') < waits (owner_of (own L) c)) as [[Ho Hlt]|Hlt].
  { subst c. destruct f; simpl in *; unfold adoptable, awaitable in *; try (by left); right; tauto. }
  - rewrite (IHc c' Hlt) with (k := k') in Es'; [done|congruence|done].
  - rewrite (IHn (waits (owner_of (own L) c'))) with (c := c') (k := k') in Es'; [done|lia|done|done].
Qed.

(** The order on objects at rest. *)
Definition order_rank L (o : obj) : nat :=
  match o with
  | Block g => 2 * keeps g + 1
  | ValueState vs =>
      match vals (base L) !! vs with
      | Some (VFut (Some x)) => 2 * keeps (owner_of (own L) x) + 2
      | _ => 0
      end
  end.

Lemma rest_ranked L a b :
  life_good L → ordered waits keeps L → promises (held_by_app L) = [] → pool (base L) = [] →
  has_pointer L a b → order_rank L b < order_rank L a.
Proof.
  intros G O Hps Hp Hab. destruct a as [g|vs]; simpl in Hab.
  - destruct Hab as (c & k & Hk & <- & Hb). pose proof (rest_settled L c k G O Hps Hp Hk) as Hs.
    pose proof G as [_ S _]. destruct (quiescent_quiet _ _ _ _ S Hp Hk Hs) as [Hqs Hqf].
    unfold controller_pointers in Hb. rewrite Hqs, Hqf in Hb. simpl in Hb. rewrite !elem_of_app in Hb.
    destruct Hb as [Hb|[Hb|Hb]].
    + destruct (m_val_state k) as [vs|] eqn:Ev; [|by apply elem_of_nil in Hb]. apply list_elem_of_singleton in Hb as ->.
      assert (valued (base L) c vs) as Hv by (by exists k). pose proof (od_valued _ _ _ O _ _ Hv) as Hbel. simpl.
      destruct (vals (base L) !! vs) as [[| |[x|]]|] eqn:E; try lia. destruct (Hbel x E) as [_ Hlt]. lia.
    + destruct (m_value_source (own L) !! c) as [y|] eqn:E; [|by apply elem_of_nil in Hb].
      apply list_elem_of_singleton in Hb as ->. pose proof (od_source _ _ _ O _ _ E). simpl. lia.
    + apply list_elem_of_fmap in Hb as ([x y] & -> & [Hx Hin]%list_elem_of_filter). simpl in Hx. subst x.
      pose proof (od_dependent _ _ _ O _ _ Hin). simpl. lia.
  - destruct Hab as (v & Hv & Hb). simpl. rewrite Hv. destruct v as [| |[x|]]; simpl in Hb; try by apply elem_of_nil in Hb.
    apply list_elem_of_singleton in Hb as ->. simpl. lia.
Qed.
End rest.
End collect.

(** C17: an application whose callbacks return futures in order, in who waits for
    whom and in who keeps whom, loses no memory to futures.  Once it holds nothing
    any more and the pool has nothing to run, every future is settled and has no
    callback left, and the destructors run until every controller and every
    value is gone: whichever of them have run, as long as something is left
    another can run, and there is no end to them but that. *)
Theorem abandoned_futures_are_destroyed {U} (waits keeps : nat → nat) (L : life U) :
  rtc (orderly_step waits keeps) life_init L → abandoned L →
  (∀ c k, ctrls (base L) !! c = Some k →
     is_settled k = true ∧ m_on_success_queue k = [] ∧ m_on_fail_queue k = []) ∧
  (∀ L' o, rtc destroy_step L L' → created L o = true → o ∉ gone L' → ∃ L'', destroy_step L' L'') ∧
  (∀ n L', nsteps destroy_step n L L' → n ≤ length (ctrls (base L)) + length (vals (base L))).
Proof.
  intros Hr Ha. destruct (orderly_reachable _ _ _ Hr) as [G O]. pose proof Ha as (Hps & _ & _ & Hp). split_and!.
  - intros c k Hk. pose proof (rest_settled _ _ L c k G O Hps Hp Hk) as Hs. split; [done|].
    pose proof G as [_ S _]. by apply (quiescent_quiet _ _ _ _ S Hp Hk).
  - intros L' o Hd Hc Hg. destruct (destroys_same _ _ G Hd) as (G' & Hb & Ho & Hh).
    apply (destruction_goes_on (order_rank keeps L) L' o); [done| | | |done].
    + unfold abandoned. by rewrite Hb, Hh.
    + intros a b Hab. apply (rest_ranked waits keeps L); try done.
      unfold has_pointer in *. by rewrite Hb, Ho in Hab.
    + unfold created in *. by rewrite Hb, Ho.
  - intros n L' Hd. pose proof (destroys_survivors _ _ _ Hd). pose proof (survivors_bound L). lia.
Qed.

(** ** A chain that adopts a future and one that waits for another

    Three ready futures; a callback of the first returns the second, and a
    [finally] callback after it returns the third. *)
Definition adopt_second (v : value nat) : value nat * cres nat := (v, CFut (Some 1)).
Definition wait_third (_ : unit) : fres := FFut (Some 2).
Definition ready_three : life nat :=
  life_make_ready VVoid None (life_make_ready (VVal 8) None (life_make_ready (VVal 7) None life_init)).
Definition chain_adopting : life nat := from_option (life_then 0 (Some false) None adopt_second ready_three).
Definition chain_waiting : life nat := from_option (life_finally 4 false wait_third chain_adopting).
Definition chain_done : life nat := take_tasks 27 chain_waiting.
Definition chain_dropped : life nat := set_handles [] chain_done.

Definition sample_waits (root : nat) : nat := match root with 0 => 1 | _ => 0 end.
Definition sample_keeps (root : nat) : nat := match root with 0 => 1 | 1 => 0 | _ => 2 end.
Abbreviation sample_step := (orderly_step (U := nat) sample_waits sample_keeps).

(** A rule about a task of a concrete state. *)
Ltac orderly_future := intros x Hx; apply list_elem_of_singleton in Hx; subst x; vm_compute; lia.
Ltac orderly_rule := vm_compute; first [exact I|orderly_future|intros vs _; split; [done|orderly_future]].
Ltac run_orderly_step :=
  eapply rtc_l; [eapply take_task_step; [vm_compute; reflexivity|vm_compute; reflexivity|
    vm_compute; repeat first [done|lia|intros ?|split]|vm_compute; reflexivity|
    vm_compute; try done; discriminate|
    intros x; vm_compute; try done; set_solver|orderly_rule]|].

Lemma chain_waiting_orderly : rtc sample_step life_init chain_waiting.
Proof.
  eapply rtc_l; [apply (life_ready _ (VVal 7) None); [apply list_subseteq_nil|by intros x ?%elem_of_nil]|].
  eapply rtc_l; [apply (life_ready _ (VVal 8) None); [apply list_subseteq_nil|by intros x ?%elem_of_nil]|].
  eapply rtc_l; [apply (life_ready _ VVoid None); [apply list_subseteq_nil|by intros x ?%elem_of_nil]|].
  eapply rtc_l; [apply (life_add_then _ 0 (Some false) None adopt_second chain_adopting); [vm_compute; set_solver|reflexivity]|].
  eapply rtc_l; [apply (life_add_finally _ 4 false wait_third chain_waiting); [vm_compute; set_solver|reflexivity]|].
  apply rtc_refl.
Qed.
Lemma orderly_eq (L L' : life nat) : L = L' → rtc sample_step L L'.
Proof. intros ->. apply rtc_refl. Qed.
Lemma chain_dropped_orderly : rtc sample_step life_init chain_dropped.
Proof.
  etrans; [apply chain_waiting_orderly|].
  do 27 run_orderly_step.
  eapply rtc_l; [apply (life_handles _ []), list_subseteq_nil|].
  apply orderly_eq. vm_compute. reflexivity.
Qed.

(** The tree of the first future kept the second as the source of its value, and
    was kept by the third. *)
Lemma abandoned_futures_are_destroyed_witness :
  m_value_source (own chain_dropped) !! 4 = Some 1 ∧ m_dependent (own chain_dropped) = [(2, 5)] ∧
  (∀ L' o, rtc destroy_step chain_dropped L' → created chain_dropped o = true → o ∉ gone L' → ∃ L'', destroy_step L' L'') ∧
  (∀ n L', nsteps destroy_step n chain_dropped L' → n ≤ 10).
Proof.
  split; [vm_compute; reflexivity|]. split; [vm_compute; reflexivity|].
  apply (proj2 (abandoned_futures_are_destroyed sample_waits sample_keeps chain_dropped chain_dropped_orderly ltac:(repeat split; vm_compute; reflexivity))).
Defined.
