(* ===== verification/Timer.v ===== *)
(** * Timers

    [multiple_timer] and [periodic_timer] of [common-lib/timer].  The asio
    timer they use is the environment: a wait is pending until it expires or
    is cancelled, and then its handler is queued with the matching error code.
    A cancellation does not reach a handler that is already queued. *)
From S2P Require Import Prelude.
Local Open Scope Z_scope.

(** One [async_wait]: waiting, or its handler queued with an error code
    ([true] when the wait was aborted). *)
Inductive wait : Type := Waiting | Queued (ec : bool).

#[global] Instance wait_eq_dec : EqDecision wait.
Proof. solve_decision. Defined.

(** [steady_timer::cancel] and the expiry of the deadline. *)
Definition cancel_wait (w : wait) : wait := match w with Waiting => Queued true | q => q end.
Definition expire_wait (w : wait) : wait := match w with Waiting => Queued false | q => q end.

Module MultipleTimer.
Section multiple_timer.
(** What the callback of a timer is: a name for the action it performs. *)
Context {P : Type}.

(** [handlers] are the waits asio knows, with the callback each holds. *)
Record multiple_timer : Type := mk {
  m_next_id : Z;
  m_timers_map : gset Z;
  handlers : gmap Z (wait * P)
}.

Definition create : multiple_timer := mk 0 ∅ ∅.

Definition start (callback : P) (t : multiple_timer) : Z * multiple_timer :=
  let timer_id := m_next_id t in
  (timer_id, mk (u64 (timer_id + 1)) ({[ timer_id ]} ∪ m_timers_map t)
                (<[timer_id := (Waiting, callback)]> (handlers t))).

Definition cancel (id : Z) (t : multiple_timer) : multiple_timer :=
  if decide (id ∈ m_timers_map t)
  then mk (m_next_id t) (m_timers_map t) (alter (prod_map cancel_wait (λ p, p)) id (handlers t))
  else t.

Definition cancel_all (t : multiple_timer) : multiple_timer :=
  mk (m_next_id t) (m_timers_map t)
     (map_imap (λ id e, Some (if decide (id ∈ m_timers_map t) then prod_map cancel_wait (λ p, p) e else e))
               (handlers t)).

Definition get_active_timers_count (t : multiple_timer) : nat := size (m_timers_map t).

(** The deadline of timer [id] passes. *)
Definition expire (id : Z) (t : multiple_timer) : multiple_timer :=
  mk (m_next_id t) (m_timers_map t) (alter (prod_map expire_wait (λ p, p)) id (handlers t)).

(** The queued handler of [id] runs; the callback it calls, if any. *)
Definition run_handler (id : Z) (t : multiple_timer) : option (option P * multiple_timer) :=
  match handlers t !! id with
  | Some (Queued ec, callback) =>
      Some (if ec then None else Some callback,
            mk (m_next_id t) (m_timers_map t ∖ {[ id ]}) (delete id (handlers t)))
  | _ => None
  end.

(** ** Runs *)
Inductive event : Type :=
| EStart (id : Z) (callback : P)
| ECancel (id : Z)
| ECancelAll
| EExpire (id : Z)
| ERun (id : Z) (fired : option P).

(** Identifiers are not used up within a run. *)
Inductive step : multiple_timer → event → multiple_timer → Prop :=
| step_start t callback :
    m_next_id t < 2 ^ 64 - 1 →
    step t (EStart (m_next_id t) callback) (start callback t).2
| step_cancel t id : step t (ECancel id) (cancel id t)
| step_cancel_all t : step t ECancelAll (cancel_all t)
| step_expire t id : step t (EExpire id) (expire id t)
| step_run t id fired t' : run_handler id t = Some (fired, t') → step t (ERun id fired) t'.

Inductive steps : multiple_timer → list event → multiple_timer → Prop :=
| steps_nil t : steps t [] t
| steps_cons t1 e t2 es t3 : step t1 e t2 → steps t2 es t3 → steps t1 (e :: es) t3.

(** Every known wait belongs to a timer of the map, and identifiers are new. *)
Record wf (t : multiple_timer) : Prop := {
  wf_dom : dom (handlers t) = m_timers_map t;
  wf_fresh id : id ∈ m_timers_map t → 0 ≤ id < m_next_id t;
  wf_next : 0 ≤ m_next_id t < 2 ^ 64
}.

Lemma wf_create : wf create.
Proof. split; simpl; [by rewrite dom_empty_L|set_solver|lia]. Qed.

Lemma dom_cancel_all t : dom (handlers (cancel_all t)) = dom (handlers t).
Proof.
  apply set_eq. intros id. simpl. rewrite !elem_of_dom, map_lookup_imap.
  destruct (handlers t !! id); simpl; split; intros []; eauto; done.
Qed.

Lemma step_wf t e t' : wf t → step t e t' → wf t'.
Proof.
  intros [Hd Hf Hn] Hs. destruct Hs as [t cb Hlt|t id|t|t id|t id fired t' Hr]; simpl.
  - rewrite wrap_small by lia. split; simpl; [|set_unfold; intros ? [->|?%Hf]; lia|lia].
    by rewrite dom_insert_L, Hd.
  - unfold cancel. case_decide; [|done]. split; simpl; [by rewrite dom_alter_L|done|done].
  - split; [by rewrite dom_cancel_all|done|done].
  - split; simpl; [by rewrite dom_alter_L|done|done].
  - unfold run_handler in Hr. destruct (handlers t !! id) as [[[|ec] p]|]; simplify_eq.
    split; simpl; [by rewrite dom_delete_L, Hd|by intros id' [Hin _]%elem_of_difference; apply Hf|done].
Qed.

Lemma steps_wf t es t' : wf t → steps t es t' → wf t'.
Proof. intros Hw. induction 1; eauto using step_wf. Qed.

(** A timer whose identifier was used and whose wait is gone stays gone. *)
Lemma finished_stays t es t' id :
  wf t → steps t es t' → id < m_next_id t → handlers t !! id = None →
  (∀ fired, ERun id fired ∉ es) ∧ handlers t' !! id = None.
Proof.
  intros Hw Hs. induction Hs as [t|t1 e t2 es t3 Hst Hss IH]; intros Hid Hn.
  { split; [|done]. intros f Hin. by apply elem_of_nil in Hin. }
  assert (id < m_next_id t2 ∧ handlers t2 !! id = None ∧ ∀ f, e ≠ ERun id f) as (Hid2 & Hn2 & He).
  { destruct Hst as [t cb Hlt|t id'|t|t id'|t id' f' t' Hr]; simpl in *.
    - pose proof (wf_next _ Hw). rewrite wrap_small by lia. split_and!; [lia| |done].
      rewrite lookup_insert_ne by lia. done.
    - unfold cancel. case_decide; [|done]. simpl. split_and!; [done| |done].
      destruct (decide (id' = id)) as [->|]; [by rewrite lookup_alter_eq, Hn|by rewrite lookup_alter_ne].
    - split_and!; [done| |done]. by rewrite map_lookup_imap, Hn.
    - split_and!; [done| |done].
      destruct (decide (id' = id)) as [->|]; [by rewrite lookup_alter_eq, Hn|by rewrite lookup_alter_ne].
    - unfold run_handler in Hr. destruct (handlers t !! id') as [[[|ec] p]|] eqn:E; simplify_eq. simpl.
      split_and!; [done| |congruence]. by apply lookup_delete_None; right. }
  destruct (IH (step_wf _ _ _ Hw Hst) Hid2 Hn2) as [Hr Hn3]. split; [|done].
  intros f [Hf|Hin]%elem_of_cons; [by destruct (He f)|by destruct (Hr f)].
Qed.

(** A cancelled wait never fires. *)
Lemma aborted_stays t es t' id p :
  wf t → steps t es t' → handlers t !! id = Some (Queued true, p) → ∀ q, ERun id (Some q) ∉ es.
Proof.
  intros Hw Hs. induction Hs as [t|t1 e t2 es t3 Hst Hss IH]; intros Ha q Hin; [by apply elem_of_nil in Hin|].
  assert (id < m_next_id t1) as Hlt.
  { apply (wf_fresh _ Hw). rewrite <- (wf_dom _ Hw). by eapply elem_of_dom_2. }
  assert (e ≠ ERun id (Some q) ∧ (handlers t2 !! id = Some (Queued true, p) ∨
            handlers t2 !! id = None ∧ id < m_next_id t2)) as [He H2].
  { destruct Hst as [t cb Hb|t id'|t|t id'|t id' f' t' Hr]; simpl in *.
    - split; [done|left]. rewrite lookup_insert_ne by lia. done.
    - split; [done|left]. unfold cancel. case_decide; [|done]. simpl.
      destruct (decide (id' = id)) as [->|]; [by rewrite lookup_alter_eq, Ha|by rewrite lookup_alter_ne].
    - split; [done|left]. rewrite map_lookup_imap, Ha. simpl. by case_decide.
    - split; [done|left].
      destruct (decide (id' = id)) as [->|]; [by rewrite lookup_alter_eq, Ha|by rewrite lookup_alter_ne].
    - unfold run_handler in Hr. destruct (decide (id' = id)) as [->|Hne].
      + rewrite Ha in Hr. simplify_eq. simpl. split; [done|right]. by rewrite lookup_delete_eq.
      + destruct (handlers t !! id') as [[[|ec] p']|]; simplify_eq. simpl.
        split; [congruence|left]. by rewrite lookup_delete_ne. }
  apply elem_of_cons in Hin as [Hin|Hin]; [by destruct He|]. destruct H2 as [H2|[H2 Hl2]].
  - by eapply IH; [by eapply step_wf|..].
  - by destruct (finished_stays _ _ _ id (step_wf _ _ _ Hw Hst) Hss Hl2 H2) as [Hr _]; destruct (Hr (Some q)).
Qed.

Lemma run_once t es1 es2 id f f' t' : wf t → steps t (es1 ++ ERun id f :: es2) t' → ERun id f' ∉ es2.
Proof.
  revert t. induction es1 as [|e es1 IH]; intros t Hw Hs; inversion Hs as [|? ? t2 ? ? Hst Hss]; subst.
  - assert (id < m_next_id t2 ∧ handlers t2 !! id = None) as [Hl Hn].
    { inversion Hst as [| | | |? ? ? ? Hr]; subst. unfold run_handler in Hr.
      destruct (handlers t !! id) as [[[|ec] p]|] eqn:E; simplify_eq. simpl. split; [|by rewrite lookup_delete_eq].
      apply (wf_fresh _ Hw). rewrite <- (wf_dom _ Hw). by eapply elem_of_dom_2. }
    by destruct (finished_stays _ _ _ id (step_wf _ _ _ Hw Hst) Hss Hl Hn) as [Hr _].
  - by eapply IH, Hss; eapply step_wf.
Qed.
End multiple_timer.
Arguments multiple_timer : clear implicits.
Arguments event : clear implicits.
End MultipleTimer.

Module PeriodicTimer.
(** Where the single wait of the timer is: none, pending or queued in asio,
    or its handler inside of the user callback, which runs without the mutex. *)
Inductive phase : Type := NoWait | InWait (w : wait) | InCallback.

Inductive callback_ret : Type := Continue | Abort.

(** Stop callbacks are named by numbers; [posted] are those handed to asio,
    [runs] counts the executions of the period callback. *)
Record periodic_timer : Type := mk {
  m_is_active : bool;
  m_is_stopped : bool;
  m_current_periods_count : Z;
  m_total_periods_count : Z;
  m_stop_callbacks : list nat;
  m_timer : phase;
  posted : list nat;
  runs : nat
}.

Definition create : periodic_timer := mk false false 0 0 [] NoWait [] 0.

Definition start_period (t : periodic_timer) : periodic_timer :=
  mk (m_is_active t) (m_is_stopped t) (m_current_periods_count t) (m_total_periods_count t)
     (m_stop_callbacks t) (InWait Waiting) (posted t) (runs t).

Definition start (total_periods : Z) (t : periodic_timer) : outcome periodic_timer unit :=
  if m_is_active t then Throw logic_error t
  else Ok tt (start_period (mk true false 0 total_periods (m_stop_callbacks t) (m_timer t) (posted t) (runs t))).

Definition stop_async (callback : option nat) (t : periodic_timer) : periodic_timer :=
  if negb (m_is_active t) then
    mk (m_is_active t) (m_is_stopped t) (m_current_periods_count t) (m_total_periods_count t)
       (m_stop_callbacks t) (m_timer t) (posted t ++ option_list callback) (runs t)
  else
    let cbs := m_stop_callbacks t ++ option_list callback in
    if negb (m_is_stopped t) then
      mk (m_is_active t) true (m_current_periods_count t) (m_total_periods_count t) cbs
         (match m_timer t with InWait w => InWait (cancel_wait w) | ph => ph end) (posted t) (runs t)
    else
      mk (m_is_active t) (m_is_stopped t) (m_current_periods_count t) (m_total_periods_count t) cbs
         (m_timer t) (posted t) (runs t).

Definition deactivate (t : periodic_timer) : periodic_timer :=
  mk false (m_is_stopped t) (m_current_periods_count t) (m_total_periods_count t) [] NoWait
     (posted t ++ m_stop_callbacks t) (runs t).

(** The handler of [start_period]: aborted, or the callback first ... *)
Definition handler (t : periodic_timer) : option periodic_timer :=
  match m_timer t with
  | InWait (Queued true) => Some (deactivate t)
  | InWait (Queued false) =>
      Some (mk (m_is_active t) (m_is_stopped t) (m_current_periods_count t) (m_total_periods_count t)
               (m_stop_callbacks t) InCallback (posted t) (S (runs t)))
  | _ => None
  end.

(** ... and what follows the callback, whose exceptions count as [Abort]. *)
Definition handler_end (ret : callback_ret) (t : periodic_timer) : option periodic_timer :=
  match m_timer t with
  | InCallback =>
      let count := u64 (m_current_periods_count t + 1) in
      let t' := mk (m_is_active t) (m_is_stopped t) count (m_total_periods_count t)
                   (m_stop_callbacks t) (m_timer t) (posted t) (runs t) in
      match ret with
      | Continue =>
          if negb (m_is_stopped t') && bool_decide (count < m_total_periods_count t')
          then Some (start_period t') else Some (deactivate t')
      | Abort => Some (deactivate t')
      end
  | _ => None
  end.

Definition expire (t : periodic_timer) : periodic_timer :=
  mk (m_is_active t) (m_is_stopped t) (m_current_periods_count t) (m_total_periods_count t)
     (m_stop_callbacks t) (match m_timer t with InWait w => InWait (expire_wait w) | ph => ph end)
     (posted t) (runs t).

(** The steps asio takes on its own. *)
Inductive io_step (t : periodic_timer) : periodic_timer → Prop :=
| io_expire : m_timer t = InWait Waiting → io_step t (expire t)
| io_handler t' : handler t = Some t' → io_step t t'
| io_handler_end ret t' : handler_end ret t = Some t' → io_step t t'.

Inductive step (t : periodic_timer) : periodic_timer → Prop :=
| step_io t' : io_step t t' → step t t'
| step_start total t' : 0 ≤ total < 2 ^ 64 → start total t = Ok tt t' → step t t'
| step_stop callback : step t (stop_async callback t).

(** ** Invariant *)
Record wf (t : periodic_timer) : Prop := {
  wf_active : m_is_active t = true ↔ m_timer t ≠ NoWait;
  wf_callbacks : m_stop_callbacks t ≠ [] → m_is_active t = true ∧ m_is_stopped t = true;
  wf_stopped : m_is_active t = true → m_is_stopped t = true → m_timer t ≠ InWait Waiting
}.

Lemma periodic_wf_create : wf create.
Proof. by split. Qed.

Lemma wf_deactivate t : wf (deactivate t).
Proof. by split. Qed.

Lemma io_step_wf t t' : wf t → io_step t t' → wf t'.
Proof.
  intros [Ha Hc Hs] Hst. destruct Hst as [Hw|t' Hh|ret t' Hh].
  - rewrite Hw in *. split; simpl; rewrite ?Hw; simpl; try done. by split; [|intros _; apply Ha].
  - unfold handler in Hh. destruct (m_timer t) as [|[|[]]|] eqn:Et; simplify_eq; [apply wf_deactivate|].
    split; simpl; try done. split; [done|]. intros _. by apply Ha.
  - unfold handler_end in Hh. destruct (m_timer t) eqn:Et; simplify_eq.
    assert (m_is_active t = true) as Hact by (by apply Ha).
    destruct ret; [case_match eqn:Eb|]; simplify_eq; try apply wf_deactivate.
    simpl in Eb. apply andb_true_iff in Eb as [Eb _]. rewrite negb_true_iff in Eb.
    split; simpl; [by rewrite Hact|done|congruence].
Qed.

Lemma periodic_step_wf t t' : wf t → step t t' → wf t'.
Proof.
  intros Hw Hst. pose proof Hw as [Ha Hc Hs]. destruct Hst as [t' Hi|total t' _ E|cb].
  - by eapply io_step_wf.
  - unfold start in E. destruct (m_is_active t) eqn:Eact; simplify_eq. split; simpl; try done.
    intros Hne. destruct (Hc Hne). congruence.
  - unfold stop_async. destruct (m_is_active t) eqn:Eact; simpl.
    + destruct (m_is_stopped t) eqn:Est; simpl.
      * by split.
      * split; simpl; try done.
        -- split; [intros _|done]. destruct Ha as [Ha _]. specialize (Ha eq_refl). by destruct (m_timer t).
        -- intros _ _. by destruct (m_timer t) as [|[]|].
    + by split; simpl; rewrite ?Eact.
Qed.

(** The steps left before a stopped timer is inactive. *)
Definition stop_measure (t : periodic_timer) : nat :=
  match m_timer t with
  | NoWait => 0
  | InCallback => 1
  | InWait (Queued true) => 1
  | InWait (Queued false) => 2
  | InWait Waiting => 3
  end.

(** Executions of the period callback that are already certain. *)
Definition owed_runs (t : periodic_timer) : nat :=
  match m_timer t with InWait (Queued false) => 1 | _ => 0 end.

Lemma io_step_stopped t t' :
  wf t → m_is_active t = true → m_is_stopped t = true → io_step t t' →
  (stop_measure t' < stop_measure t)%nat ∧
  (runs t' + owed_runs t' = runs t + owed_runs t ∧ runs t ≤ runs t')%nat ∧
  (if m_is_active t' then m_is_stopped t' = true ∧ m_stop_callbacks t' = m_stop_callbacks t ∧ posted t' = posted t
   else posted t' = posted t ++ m_stop_callbacks t).
Proof.
  intros [Ha Hc Hs] Hact Hstop Hst. unfold stop_measure, owed_runs. destruct Hst as [Hw|t' Hh|ret t' Hh].
  - by destruct (Hs Hact Hstop).
  - unfold handler in Hh.
    destruct (m_timer t) as [|[|[]]|] eqn:Et; simplify_eq; simpl; rewrite ?Hact; split_and!; try done; lia.
  - unfold handler_end in Hh. destruct (m_timer t) eqn:Et; simplify_eq.
    rewrite Hstop in Hh. destruct ret; simplify_eq/=; split_and!; try done; lia.
Qed.

Lemma io_step_active t t' : wf t → io_step t t' → m_is_active t = true.
Proof.
  intros [Ha _ _] Hst. apply Ha. destruct Hst as [Hw|t' Hh|ret t' Hh]; [congruence|..].
  - unfold handler in Hh. by destruct (m_timer t).
  - unfold handler_end in Hh. by destruct (m_timer t).
Qed.

Lemma stopped_run t t' :
  wf t → m_is_active t = true → m_is_stopped t = true → rtc io_step t t' →
  (runs t' + owed_runs t' = runs t + owed_runs t ∧ runs t ≤ runs t')%nat ∧
  (if m_is_active t' then m_stop_callbacks t' = m_stop_callbacks t ∧ posted t' = posted t
   else posted t' = posted t ++ m_stop_callbacks t).
Proof.
  intros Hw Hact Hstop Hr. induction Hr as [t|t1 t2 t3 H12 H23 IH]; [by rewrite Hact|].
  destruct (io_step_stopped _ _ Hw Hact Hstop H12) as (_ & Hruns & Hp).
  pose proof (io_step_wf _ _ Hw H12) as Hw2. destruct (m_is_active t2) eqn:E2.
  - destruct Hp as (Hs2 & Hcb & Hpo). destruct (IH Hw2 eq_refl Hs2) as [IHr IHp].
    rewrite Hcb, Hpo in IHp. split; [lia|done].
  - inversion H23 as [|? t2' ? Hx _]; subst; [by rewrite E2|].
    by rewrite (io_step_active _ _ Hw2 Hx) in E2.
Qed.

Lemma stop_async_active cb t :
  m_is_active t = true →
  m_is_active (stop_async cb t) = true ∧ m_is_stopped (stop_async cb t) = true ∧
  m_stop_callbacks (stop_async cb t) = m_stop_callbacks t ++ option_list cb ∧
  posted (stop_async cb t) = posted t ∧ runs (stop_async cb t) = runs t ∧
  (owed_runs (stop_async cb t) ≤ 1)%nat ∧
  (m_timer t = InWait Waiting → (owed_runs (stop_async cb t) = 0)%nat).
Proof.
  intros Ha. unfold stop_async, owed_runs. rewrite Ha. simpl. destruct (m_is_stopped t) eqn:Es; simpl; rewrite ?Ha, ?Es.
  - split_and!; try done; [by repeat case_match; lia|]. by intros ->.
  - split_and!; try done; [by repeat case_match; lia|]. by intros ->.
Qed.

Lemma acc_rtc {A} (R : A → A → Prop) x y : Acc (flip R) x → rtc R x y → Acc (flip R) y.
Proof. intros Ha Hr. induction Hr as [|x y z Hxy _ IH]; [done|]. apply IH. by apply Ha. Qed.

Lemma stopped_terminates t : wf t → m_is_active t = true → m_is_stopped t = true → Acc (flip io_step) t.
Proof.
  remember (stop_measure t) as n eqn:En. revert t En.
  induction (lt_wf n) as [n _ IH]. intros t -> Hw Hact Hstop. constructor. intros t' Hst. unfold flip in Hst.
  destruct (io_step_stopped _ _ Hw Hact Hstop Hst) as (Hm & _ & Hp).
  pose proof (io_step_wf _ _ Hw Hst) as Hw2. destruct (m_is_active t') eqn:E2.
  - destruct Hp as (Hs2 & _). by eapply IH.
  - constructor. intros t'' Hx. unfold flip in Hx. by rewrite (io_step_active _ _ Hw2 Hx) in E2.
Qed.
End PeriodicTimer.

(** C20: a timer of [multiple_timer] runs its handler at most once, and its
    callback never runs once the timer was cancelled, alone or with all others,
    while its wait was pending; the active timers are the waits asio holds. *)
Theorem timer_fires_once {P} (es : list (MultipleTimer.event P)) t :
  MultipleTimer.steps MultipleTimer.create es t →
  (∀ es1 es2 id f f', es = es1 ++ MultipleTimer.ERun id f :: es2 → MultipleTimer.ERun id f' ∉ es2) ∧
  (∀ id p es' t' q, MultipleTimer.handlers t !! id = Some (Waiting, p) →
     MultipleTimer.steps (MultipleTimer.cancel id t) es' t' ∨ MultipleTimer.steps (MultipleTimer.cancel_all t) es' t' →
     MultipleTimer.ERun id (Some q) ∉ es') ∧
  MultipleTimer.get_active_timers_count t = size (MultipleTimer.handlers t).
Proof.
  intros Hs. pose proof (MultipleTimer.steps_wf _ _ _ MultipleTimer.wf_create Hs) as Hw. split_and!.
  - intros es1 es2 id f f' ->. by eapply MultipleTimer.run_once, Hs; apply MultipleTimer.wf_create.
  - intros id p es' t' q Hp Hst.
    assert (id ∈ MultipleTimer.m_timers_map t) as Hin.
    { rewrite <- (MultipleTimer.wf_dom _ Hw). by eapply elem_of_dom_2. }
    destruct Hst as [Hst|Hst]; eapply (MultipleTimer.aborted_stays _ _ _ _ p _ Hst).
    + unfold MultipleTimer.cancel. rewrite decide_True by done. simpl. by rewrite lookup_alter_eq, Hp.
    + simpl. rewrite map_lookup_imap, Hp. simpl. by rewrite decide_True.
  - unfold MultipleTimer.get_active_timers_count. by rewrite <- (MultipleTimer.wf_dom _ Hw), size_dom.
  Unshelve.
  + eapply MultipleTimer.step_wf; [done|constructor].
  + eapply MultipleTimer.step_wf; [done|constructor].
Qed.

Lemma timer_fires_once_witness :
  MultipleTimer.ERun 0 (Some true) ∉ [MultipleTimer.ERun 0 None : MultipleTimer.event bool].
Proof.
  refine (proj1 (proj2 (timer_fires_once [MultipleTimer.EStart 0 true] _
            (MultipleTimer.steps_cons _ _ _ _ _ (MultipleTimer.step_start MultipleTimer.create true _)
               (MultipleTimer.steps_nil _)))) 0 true _ _ true eq_refl (or_introl _)).
  - reflexivity.
  - eapply MultipleTimer.steps_cons; [by apply MultipleTimer.step_run|apply MultipleTimer.steps_nil].
Defined.

(** Stopping an active periodic timer: whatever asio does next ends, the
    period callback runs at most once more (not at all if the timer was
    waiting), and once the timer is inactive every stop callback, the new one
    last, has been posted exactly once. *)
Theorem periodic_stop (t t' : PeriodicTimer.periodic_timer) (cb : nat) :
  rtc PeriodicTimer.step PeriodicTimer.create t → PeriodicTimer.m_is_active t = true →
  rtc PeriodicTimer.io_step (PeriodicTimer.stop_async (Some cb) t) t' →
  Acc (flip PeriodicTimer.io_step) t' ∧
  (PeriodicTimer.runs t' ≤ S (PeriodicTimer.runs t))%nat ∧
  (PeriodicTimer.m_timer t = PeriodicTimer.InWait Waiting → PeriodicTimer.runs t' = PeriodicTimer.runs t) ∧
  (PeriodicTimer.m_is_active t' = false →
   PeriodicTimer.posted t' = PeriodicTimer.posted t ++ PeriodicTimer.m_stop_callbacks t ++ [cb]).
Proof.
  intros Hr Hact Hio. set (t1 := PeriodicTimer.stop_async (Some cb) t) in *.
  assert (PeriodicTimer.wf t) as Hw.
  { clear Hio t1 Hact. revert Hr. generalize PeriodicTimer.create PeriodicTimer.periodic_wf_create.
    intros t0 Hw0 Hr. induction Hr; eauto using PeriodicTimer.periodic_step_wf. }
  assert (PeriodicTimer.wf t1) as Hw1 by (eapply PeriodicTimer.periodic_step_wf; [done|constructor]).
  destruct (PeriodicTimer.stop_async_active (Some cb) t Hact) as (Ha1 & Hs1 & Hc1 & Hp1 & Hr1 & Ho1 & Hwt).
  destruct (PeriodicTimer.stopped_run _ _ Hw1 Ha1 Hs1 Hio) as [Hruns Hend]. split_and!.
  - eapply PeriodicTimer.acc_rtc, Hio. by apply PeriodicTimer.stopped_terminates.
  - fold t1 in Hr1, Ho1. lia.
  - intros Hwait. specialize (Hwt Hwait). fold t1 in Hr1, Hwt. lia.
  - intros E. rewrite E in Hend. fold t1 in Hp1, Hc1. by rewrite Hend, Hp1, Hc1.
Qed.

Lemma periodic_stop_witness :
  PeriodicTimer.posted (PeriodicTimer.mk false true 0 5 [] PeriodicTimer.NoWait [7%nat] 0) = [7%nat].
Proof.
  refine (proj2 (proj2 (proj2 (periodic_stop
            (PeriodicTimer.mk true false 0 5 [] (PeriodicTimer.InWait Waiting) [] 0)
            (PeriodicTimer.mk false true 0 5 [] PeriodicTimer.NoWait [7%nat] 0) 7 _ eq_refl _))) eq_refl).
  - eapply rtc_once. by eapply (PeriodicTimer.step_start _ 5); [lia|].
  - eapply rtc_once. by apply PeriodicTimer.io_handler.
Defined.
