(* ===== verification/MemPipe.v ===== *)
(** * The in-memory pipe

    [rpc-lib/pipe/memory-pipe]: [mem_buffer] (one direction), [mem_buffers]
    and [mem_pipe_endpoint] (the two ends), as a step relation.  Each critical
    section of [m_mtx] is one step; a posted write is two, since its result is
    published between the two sections it enters.  Promises are numbers; the
    log records with which result each was completed, in the order of the
    critical sections that decided it. *)
From S2P Require Import Prelude RpcTypes Timer.
Local Open Scope Z_scope.

Module MemBuffer.
Section mem_buffer.
(** Messages: the contents of the buffers that are written. *)
Context {A : Type}.
Abbreviation timer := (MultipleTimer.multiple_timer Z).

Record read_promise_data : Type := ReadPromise {
  id : Z;
  timer_id : option Z;
  promise : nat
}.

(** Tasks of the read strand: the arguments of [read_impl]. *)
Record read_job : Type := ReadJob {
  r_promise : nat;
  r_timeout : option Z;
  r_started_while_valid : bool
}.

(** Tasks of the write strand: a write, or the rest of one ([resolve_read_promise]). *)
Inductive write_job : Type :=
| WriteJob (w_promise : nat) (data : A) (timeout_point : option Z)
| ResolveJob.

(** Completed promises: a write with its data, a read with what it got. *)
Inductive completion : Type :=
| WriteDone (p : nat) (data : A) (r : PipeOpRes.pipe_op_res)
| ReadDone (p : nat) (r : PipeOpRes.pipe_op_res) (data : option A).

Record mem_buffer : Type := mk {
  m_is_valid : bool;
  m_read_invalidation_result : PipeOpRes.pipe_op_res;
  m_buffer : list A;
  m_read_promises : list read_promise_data;
  m_next_read_promise_id : Z;
  m_timer : timer;
  m_read_strand : list read_job;
  m_write_strand : list write_job;
  next_promise : nat;
  now : Z;
  log : list completion
}.

Definition create : mem_buffer :=
  mk true PipeOpRes.failed [] [] 0 MultipleTimer.create [] [] 0 0 [].

(** A promise is completed. *)
Definition set_value (c : completion) (b : mem_buffer) : mem_buffer :=
  mk (m_is_valid b) (m_read_invalidation_result b) (m_buffer b) (m_read_promises b)
     (m_next_read_promise_id b) (m_timer b) (m_read_strand b) (m_write_strand b)
     (next_promise b) (now b) (log b ++ [c]).

Definition write_async (data : A) (timeout : option Z) (b : mem_buffer) : mem_buffer :=
  if m_is_valid b then
    mk (m_is_valid b) (m_read_invalidation_result b) (m_buffer b) (m_read_promises b)
       (m_next_read_promise_id b) (m_timer b) (m_read_strand b)
       (m_write_strand b ++ [WriteJob (next_promise b) data (Z.add (now b) <$> timeout)])
       (S (next_promise b)) (now b) (log b)
  else
    mk (m_is_valid b) (m_read_invalidation_result b) (m_buffer b) (m_read_promises b)
       (m_next_read_promise_id b) (m_timer b) (m_read_strand b) (m_write_strand b)
       (S (next_promise b)) (now b) (log b ++ [WriteDone (next_promise b) data PipeOpRes.failed]).

Definition read_async (timeout : option Z) (b : mem_buffer) : mem_buffer :=
  mk (m_is_valid b) (m_read_invalidation_result b) (m_buffer b) (m_read_promises b)
     (m_next_read_promise_id b) (m_timer b)
     (m_read_strand b ++ [ReadJob (next_promise b) timeout (m_is_valid b)])
     (m_write_strand b) (S (next_promise b)) (now b) (log b).

Definition invalidation_result (cancel_read : bool) : PipeOpRes.pipe_op_res :=
  if cancel_read then PipeOpRes.canceled else PipeOpRes.failed.

Definition invalidate (cancel_read : bool) (b : mem_buffer) : mem_buffer :=
  if negb (m_is_valid b) then b
  else
    mk false (invalidation_result cancel_read) [] [] (m_next_read_promise_id b)
       (MultipleTimer.cancel_all (m_timer b)) (m_read_strand b) (m_write_strand b)
       (next_promise b) (now b)
       (log b ++ ((λ el, ReadDone (promise el) (invalidation_result cancel_read) None) <$> m_read_promises b)).

Definition is_valid (b : mem_buffer) : bool := m_is_valid b.
Definition get_pending_messages_count (b : mem_buffer) : nat := length (m_buffer b).
Definition get_pending_read_handlers_count (b : mem_buffer) : nat := length (m_read_promises b).

(** Allocation of the queue node does not fail in the model. *)
Definition write_impl (data : A) (timeout_point : option Z) (b : mem_buffer)
    : PipeOpRes.pipe_op_res * mem_buffer :=
  if negb (m_is_valid b) then (PipeOpRes.canceled, b)
  else if match timeout_point with Some tp => bool_decide (tp < now b) | None => false end
       then (PipeOpRes.timeout, b)
  else (PipeOpRes.success,
        mk (m_is_valid b) (m_read_invalidation_result b) (m_buffer b ++ [data]) (m_read_promises b)
           (m_next_read_promise_id b) (m_timer b) (m_read_strand b) (m_write_strand b)
           (next_promise b) (now b) (log b)).

Definition resolve_read_promise (b : mem_buffer) : mem_buffer :=
  match m_read_promises b, m_buffer b with
  | el :: q, buffer :: rest =>
      set_value (ReadDone (promise el) PipeOpRes.success (Some buffer))
        (mk (m_is_valid b) (m_read_invalidation_result b) rest q (m_next_read_promise_id b)
            (match timer_id el with
             | Some t => MultipleTimer.cancel t (m_timer b)
             | None => m_timer b
             end)
            (m_read_strand b) (m_write_strand b) (next_promise b) (now b) (log b))
  | _, _ => b
  end.

Definition read_impl (job : read_job) (b : mem_buffer) : mem_buffer :=
  if negb (m_is_valid b) then
    set_value (ReadDone (r_promise job)
                 (if r_started_while_valid job then m_read_invalidation_result b else PipeOpRes.failed) None) b
  else
    match m_buffer b with
    | buffer :: rest =>
        set_value (ReadDone (r_promise job) PipeOpRes.success (Some buffer))
          (mk (m_is_valid b) (m_read_invalidation_result b) rest (m_read_promises b)
              (m_next_read_promise_id b) (m_timer b) (m_read_strand b) (m_write_strand b)
              (next_promise b) (now b) (log b))
    | [] =>
        let id := m_next_read_promise_id b in
        let '(timer_id, timer') :=
          match r_timeout job with
          | Some _ => let '(t, timer') := MultipleTimer.start id (m_timer b) in (Some t, timer')
          | None => (None, m_timer b)
          end in
        mk (m_is_valid b) (m_read_invalidation_result b) [] 
           (m_read_promises b ++ [ReadPromise id timer_id (r_promise job)])
           (u64 (id + 1)) timer' (m_read_strand b) (m_write_strand b)
           (next_promise b) (now b) (log b)
    end.

(** The timeout callback of the read with number [rid]. *)
Definition timeout_callback (rid : Z) (b : mem_buffer) : mem_buffer :=
  match list_find (λ el, id el = rid) (m_read_promises b) with
  | Some (i, el) =>
      set_value (ReadDone (promise el) PipeOpRes.timeout None)
        (mk (m_is_valid b) (m_read_invalidation_result b) (m_buffer b) (delete i (m_read_promises b))
            (m_next_read_promise_id b) (m_timer b) (m_read_strand b) (m_write_strand b)
            (next_promise b) (now b) (log b))
  | None => b
  end.

(** ** The tasks of the strands and of the timer *)
Definition with_read_strand (q : list read_job) (b : mem_buffer) : mem_buffer :=
  mk (m_is_valid b) (m_read_invalidation_result b) (m_buffer b) (m_read_promises b)
     (m_next_read_promise_id b) (m_timer b) q (m_write_strand b) (next_promise b) (now b) (log b).
Definition with_write_strand (q : list write_job) (b : mem_buffer) : mem_buffer :=
  mk (m_is_valid b) (m_read_invalidation_result b) (m_buffer b) (m_read_promises b)
     (m_next_read_promise_id b) (m_timer b) (m_read_strand b) q (next_promise b) (now b) (log b).
Definition with_timer (t : timer) (b : mem_buffer) : mem_buffer :=
  mk (m_is_valid b) (m_read_invalidation_result b) (m_buffer b) (m_read_promises b)
     (m_next_read_promise_id b) t (m_read_strand b) (m_write_strand b) (next_promise b) (now b) (log b).
Definition with_now (n : Z) (b : mem_buffer) : mem_buffer :=
  mk (m_is_valid b) (m_read_invalidation_result b) (m_buffer b) (m_read_promises b)
     (m_next_read_promise_id b) (m_timer b) (m_read_strand b) (m_write_strand b) (next_promise b) n (log b).

(** The strand runs its first task; the task of a write publishes the result
    of [write_impl] and then resolves. *)
Definition run_read_strand (b : mem_buffer) : option mem_buffer :=
  match m_read_strand b with
  | [] => None
  | job :: q => Some (read_impl job (with_read_strand q b))
  end.

Definition run_write_strand (b : mem_buffer) : option mem_buffer :=
  match m_write_strand b with
  | [] => None
  | WriteJob p data tp :: q =>
      let '(r, b') := write_impl data tp (with_write_strand (ResolveJob :: q) b) in
      Some (set_value (WriteDone p data r) b')
  | ResolveJob :: q => Some (resolve_read_promise (with_write_strand q b))
  end.

(** The handler of timer [t] runs: it drops the timer and times the read out. *)
Definition run_timer (t : Z) (b : mem_buffer) : option mem_buffer :=
  match MultipleTimer.run_handler t (m_timer b) with
  | None => None
  | Some (fired, timer') =>
      let b' := with_timer timer' b in
      Some (match fired with Some rid => timeout_callback rid b' | None => b' end)
  end.

Inductive step (b : mem_buffer) : mem_buffer → Prop :=
| step_write data timeout : step b (write_async data timeout b)
| step_read timeout : step b (read_async timeout b)
| step_invalidate cancel_read : step b (invalidate cancel_read b)
| step_read_strand b' :
    m_next_read_promise_id b < 2 ^ 64 - 1 → MultipleTimer.m_next_id (m_timer b) < 2 ^ 64 - 1 →
    run_read_strand b = Some b' → step b b'
| step_write_strand b' : run_write_strand b = Some b' → step b b'
| step_expire t : step b (with_timer (MultipleTimer.expire t (m_timer b)) b)
| step_timer t b' : run_timer t b = Some b' → step b b'
| step_tick n : now b ≤ n → step b (with_now n b).

Definition reachable (b : mem_buffer) : Prop := rtc step create b.
End mem_buffer.
Arguments mem_buffer : clear implicits.
Arguments write_job : clear implicits.
Arguments completion : clear implicits.
End MemBuffer.
