(* ===== verification/MemPipeFacts.v ===== *)
(** * Correctness of the in-memory pipe

    Every promise is completed exactly once, messages are delivered in the
    order they were accepted, no reader waits while a message is there, and
    invalidation completes what is pending. *)
From S2P Require Import Prelude RpcTypes Timer MemPipe.
Import MemBuffer.
Local Open Scope Z_scope.

Section facts.
Context {A : Type}.
Implicit Types b : mem_buffer A.

Definition cp (c : completion A) : nat := match c with WriteDone p _ _ | ReadDone p _ _ => p end.
Definition wp (j : write_job A) : list nat := match j with WriteJob p _ _ => [p] | ResolveJob => [] end.

(** Where promises are: queued reads, pending reads, queued writes, completed. *)
Definition promises b : list nat :=
  (r_promise <$> m_read_strand b) ++ (promise <$> m_read_promises b) ++
  concat (wp <$> m_write_strand b) ++ (cp <$> log b).

(** Messages whose write succeeded, and messages handed to a reader. *)
Definition accepted (l : list (completion A)) : list A :=
  omap (λ c, match c with WriteDone _ d PipeOpRes.success => Some d | _ => None end) l.
Definition delivered (l : list (completion A)) : list A :=
  omap (λ c, match c with ReadDone _ PipeOpRes.success (Some d) => Some d | _ => None end) l.

Definition is_resolve (j : write_job A) : bool := match j with ResolveJob => true | _ => false end.

Record inv b : Prop := {
  inv_promises : promises b ≡ₚ seq 0 (next_promise b);
  inv_resolve : Forall (λ j, is_resolve j = false) (tail (m_write_strand b));
  inv_wakeup : m_read_promises b = [] ∨
    match m_write_strand b with
    | ResolveJob :: _ => (length (m_buffer b) ≤ 1)%nat
    | _ => m_buffer b = []
    end;
  inv_invalid : m_is_valid b = false →
    m_buffer b = [] ∧ m_read_promises b = [] ∧ m_read_invalidation_result b ≠ PipeOpRes.success;
  inv_fifo : ∃ rest, accepted (log b) = delivered (log b) ++ rest ∧ (m_is_valid b = true → rest = m_buffer b);
  inv_timer_wf : MultipleTimer.wf (m_timer b);
  inv_ids : NoDup (id <$> m_read_promises b);
  inv_id_lt el : el ∈ m_read_promises b → id el < m_next_read_promise_id b;
  inv_next : 0 ≤ m_next_read_promise_id b < 2 ^ 64;
  inv_timers el t : el ∈ m_read_promises b → timer_id el = Some t →
    ∃ w, MultipleTimer.handlers (m_timer b) !! t = Some (w, id el) ∧ w ≠ Queued true
}.

Lemma accepted_app l1 l2 : accepted (l1 ++ l2) = accepted l1 ++ accepted l2.
Proof. apply omap_app. Qed.
Lemma delivered_app l1 l2 : delivered (l1 ++ l2) = delivered l1 ++ delivered l2.
Proof. apply omap_app. Qed.

Lemma mem_inv_create : inv create.
Proof.
  split; simpl; try done; try (by constructor); try (by left); try (intros el; by rewrite elem_of_nil).
  - by exists [].
  - by intros el t []%elem_of_nil.
Qed.

(** Counting argument for the promises. *)
Lemma promises_move b b' :
  (∀ x, occ x (promises b') + occ x (seq 0 (next_promise b)) = occ x (promises b) + occ x (seq 0 (next_promise b')))%nat →
  inv b → promises b' ≡ₚ seq 0 (next_promise b').
Proof.
  intros H I. apply occ_perm. intros x. specialize (H x).
  pose proof (proj1 (occ_perm _ _) (inv_promises _ I) x). lia.
Qed.

(** Rewrites the occurrence counts of the lists of [promises]. *)
Ltac count :=
  intros x; unfold promises; cbn -[seq occ app fmap list_fmap concat];
  rewrite ?fmap_app, ?concat_app, ?seq_S, ?occ_app, ?fmap_cons, ?occ_cons;
  cbn -[seq occ app fmap list_fmap]; rewrite ?occ_app, ?occ_cons, ?occ_nil; cbn -[seq occ]; try lia.

Lemma inv_write_async data timeout b : inv b → inv (write_async data timeout b).
Proof.
  intros I. pose proof I as [Hp Hr Hw Hi Hf Ht Hn Hl Hx Htm]. unfold write_async. destruct (m_is_valid b) eqn:Ev.
  - split; try done.
    + apply (promises_move b); [|done]. count.
    + simpl. destruct (m_write_strand b) as [|j q]; simpl in *; [done|].
      apply Forall_app. by split; [|repeat constructor].
    + simpl. destruct (m_write_strand b) as [|j q]; simpl in *; done.
  - split; try done.
    + apply (promises_move b); [|done]. count.
    + destruct Hf as (rest & Hf & _). exists rest. simpl. rewrite accepted_app, delivered_app. simpl.
      by rewrite !app_nil_r.
Qed.

Lemma inv_read_async timeout b : inv b → inv (read_async timeout b).
Proof.
  intros I. pose proof I as [Hp Hr Hw Hi Hf Ht Hn Hl Hx Htm]. split; try done.
  apply (promises_move b); [|done]. count.
Qed.

(** ** Timers of pending reads *)
Abbreviation timer := (MultipleTimer.multiple_timer Z).
Implicit Types T : timer.

Lemma cancel_other t t' T : t ≠ t' → MultipleTimer.handlers (MultipleTimer.cancel t T) !! t' = MultipleTimer.handlers T !! t'.
Proof. intros Hne. unfold MultipleTimer.cancel. case_decide; [|done]. simpl. by rewrite lookup_alter_ne. Qed.

Lemma expire_live t t' T w (p : Z) :
  MultipleTimer.handlers T !! t' = Some (w, p) → w ≠ Queued true →
  ∃ w', MultipleTimer.handlers (MultipleTimer.expire t T) !! t' = Some (w', p) ∧ w' ≠ Queued true.
Proof.
  intros Hw Hne. simpl. destruct (decide (t = t')) as [->|].
  - rewrite lookup_alter_eq, Hw. simpl. eexists. split; [done|]. by destruct w.
  - rewrite lookup_alter_ne by done. eauto.
Qed.

Lemma run_handler_spec t T fired T' :
  MultipleTimer.run_handler t T = Some (fired, T') →
  ∃ ec p, MultipleTimer.handlers T !! t = Some (Queued ec, p) ∧ fired = (if ec then None else Some p) ∧
          ∀ t', t ≠ t' → MultipleTimer.handlers T' !! t' = MultipleTimer.handlers T !! t'.
Proof.
  unfold MultipleTimer.run_handler. destruct (MultipleTimer.handlers T !! t) as [[[|ec] p]|] eqn:E; [done| |done].
  intros [= <- <-]. exists ec, p. split_and!; [done|done|]. intros t' Hne. simpl. by rewrite lookup_delete_ne.
Qed.

Lemma completions_not_accepted (l : list read_promise_data) r :
  r ≠ PipeOpRes.success →
  accepted ((λ el, ReadDone (promise el) r None) <$> l) = [] ∧
  delivered ((λ el, ReadDone (promise el) r None) <$> l) = [].
Proof. intros Hr. induction l as [|el l [IH1 IH2]]; [done|]. split; [exact IH1|]. by destruct r. Qed.

Lemma invalidation_result_fail c : invalidation_result c ≠ PipeOpRes.success.
Proof. by destruct c. Qed.

Lemma inv_invalidate c b : inv b → inv (invalidate c b).
Proof.
  intros I. pose proof I as [Hp Hr Hw Hi Hf Ht Hn Hl Hx Htm]. unfold invalidate.
  destruct (m_is_valid b) eqn:Ev; simpl; [|done].
  split; [apply (promises_move b); [|done]|..]; simpl; try done; try (by left); try (by constructor);
    try (intros el; by rewrite elem_of_nil).
  - intros x. unfold promises. simpl.
    rewrite (fmap_app cp), <- list_fmap_compose, !occ_app.
    replace (cp ∘ _ <$> m_read_promises b) with (promise <$> m_read_promises b); [lia|].
    apply list_fmap_ext. done.
  - intros _. split_and!; try done. apply invalidation_result_fail.
  - destruct Hf as (rest & Hf & _). exists rest. split; [|done].
    destruct (completions_not_accepted (m_read_promises b) _ (invalidation_result_fail c)) as [E1 E2].
    by rewrite accepted_app, delivered_app, E1, E2, !app_nil_r.
  - eapply MultipleTimer.step_wf; [done|constructor].
  - by intros el t []%elem_of_nil.
Qed.

(** A read that completes at once. *)
Lemma inv_read_now job q b r d buf :
  inv b → m_read_strand b = job :: q →
  (m_is_valid b = false ∧ d = None ∧ buf = m_buffer b ∧ r ≠ PipeOpRes.success ∨
   m_is_valid b = true ∧ r = PipeOpRes.success ∧ ∃ m, d = Some m ∧ m_buffer b = m :: buf) →
  inv (set_value (ReadDone (r_promise job) r d)
         (mk (m_is_valid b) (m_read_invalidation_result b) buf (m_read_promises b)
             (m_next_read_promise_id b) (m_timer b) q (m_write_strand b) (next_promise b) (now b) (log b))).
Proof.
  intros I Hq Hcase. pose proof I as [Hp Hr Hw Hi Hf Ht Hn Hl Hx Htm]. split; try done.
  - apply (promises_move b); [|done]. count. rewrite Hq, fmap_cons, occ_cons. lia.
  - simpl. destruct Hw as [Hw|Hw]; [by left|right].
    destruct Hcase as [(_ & _ & -> & _)|(_ & _ & m & _ & Hb)]; [done|].
    rewrite Hb in Hw. destruct (m_write_strand b) as [|[] ?]; simpl in *; first [discriminate|lia].
  - simpl. intros Hv. destruct Hcase as [(_ & _ & -> & _)|(Hv' & _)]; [by apply Hi|congruence].
  - destruct Hf as (rest & Hf & Hb). simpl. rewrite accepted_app, delivered_app. simpl. rewrite app_nil_r.
    destruct Hcase as [(Hv & -> & -> & Hne)|(Hv & -> & m & -> & Hm)].
    + exists rest. split; [|by rewrite Hv]. rewrite Hf. destruct r; rewrite ?app_nil_r; done.
    + exists buf. split; [|done]. by rewrite Hf, (Hb Hv), Hm, <- app_assoc.
Qed.

Lemma inv_read_strand b b' :
  m_next_read_promise_id b < 2 ^ 64 - 1 → MultipleTimer.m_next_id (m_timer b) < 2 ^ 64 - 1 →
  inv b → run_read_strand b = Some b' → inv b'.
Proof.
  intros Hid Htid I. pose proof I as [Hp Hr Hw Hi Hf Ht Hn Hl Hx Htm]. unfold run_read_strand.
  destruct (m_read_strand b) as [|job q] eqn:Hq; [done|]. intros [= <-]. unfold read_impl. cbn -[set_value].
  destruct (m_is_valid b) eqn:Ev; cbn -[set_value].
  2: { apply inv_read_now; [done|done|]. left. split_and!; try done.
       destruct (Hi eq_refl) as (_ & _ & Hne). by destruct (r_started_while_valid job). }
  destruct (m_buffer b) as [|m rest] eqn:Eb.
  2: { pose proof (inv_read_now job q b PipeOpRes.success (Some m) rest I Hq) as H. rewrite Ev in H.
       apply H. right. eauto. }
  assert (∀ el, el ∈ m_read_promises b → id el ≠ m_next_read_promise_id b) as Hnew.
  { intros el Hel. specialize (Hl el Hel). lia. }
  set (tt := match r_timeout job with Some _ => _ | None => _ end).
  assert (MultipleTimer.wf tt.2 ∧
          (∀ t, tt.1 = Some t → ∃ w, MultipleTimer.handlers tt.2 !! t = Some (w, m_next_read_promise_id b) ∧ w ≠ Queued true) ∧
          (∀ t w p, MultipleTimer.handlers (m_timer b) !! t = Some (w, p) → MultipleTimer.handlers tt.2 !! t = Some (w, p)))
    as (Htt & Hown & Hoth).
  { unfold tt. destruct (r_timeout job) as [tmo|]; simpl.
    - split_and!.
      + by eapply MultipleTimer.step_wf, (MultipleTimer.step_start (m_timer b)).
      + intros t [= <-]. exists Waiting. by rewrite lookup_insert_eq.
      + intros t w p Hlk. rewrite lookup_insert_ne; [done|]. intros <-.
        assert (MultipleTimer.m_next_id (m_timer b) ∈ MultipleTimer.m_timers_map (m_timer b)) as Hin.
        { rewrite <- (MultipleTimer.wf_dom _ Ht). by eapply elem_of_dom_2. }
        pose proof (MultipleTimer.wf_fresh _ Ht _ Hin). lia.
    - done. }
  destruct tt as [tid T']. simpl in *. rewrite wrap_small by lia.
  split; [apply (promises_move b); [|done]|..]; simpl; try done.
  - count. rewrite Hq, fmap_cons, occ_cons. lia.
  - right. by destruct (m_write_strand b) as [|[] ?]; simpl; try lia.
  - rewrite fmap_app. apply NoDup_app. split_and!; [done| |apply NoDup_singleton].
    intros x (el & -> & Hel)%list_elem_of_fmap Hin. apply list_elem_of_singleton in Hin. simpl in Hin. by destruct (Hnew el).
  - intros el [Hel|Hel]%elem_of_app; [specialize (Hl el Hel); lia|]. apply list_elem_of_singleton in Hel as ->. simpl. lia.
  - lia.
  - intros el t [Hel|Hel]%elem_of_app Hto.
    + destruct (Htm el t Hel Hto) as (w & Hw' & Hne). eauto.
    + apply list_elem_of_singleton in Hel as ->. simpl in *. eauto.
Qed.

Lemma resolve_tail ws b :
  inv b → m_write_strand b = ResolveJob :: ws →
  Forall (λ j, is_resolve j = false) (tail ws) ∧ (∀ ws', ws ≠ ResolveJob :: ws').
Proof.
  intros I Hq. pose proof (inv_resolve _ I) as Hr. rewrite Hq in Hr. simpl in Hr.
  destruct ws as [|j ws]; [done|]. apply Forall_cons in Hr as [Hj Hr]. split; [done|]. by intros ws' [= -> _].
Qed.

(** Completing the pending read [i]: by a timeout, or with the first message
    in the resolving part of a write. *)
Lemma inv_finish_read b T i el r d buf ws :
  inv b → m_read_promises b !! i = Some el → MultipleTimer.wf T →
  (∀ el' t, el' ∈ delete i (m_read_promises b) → timer_id el' = Some t →
     MultipleTimer.handlers T !! t = MultipleTimer.handlers (m_timer b) !! t) →
  (ws = m_write_strand b ∧ r ≠ PipeOpRes.success ∧ d = None ∧ buf = m_buffer b ∨
   m_write_strand b = ResolveJob :: ws ∧ r = PipeOpRes.success ∧ ∃ m, d = Some m ∧ m_buffer b = m :: buf) →
  inv (set_value (ReadDone (promise el) r d)
         (mk (m_is_valid b) (m_read_invalidation_result b) buf (delete i (m_read_promises b))
             (m_next_read_promise_id b) T (m_read_strand b) ws (next_promise b) (now b) (log b))).
Proof.
  intros I Hel HT Hother Hcase. pose proof I as [Hp Hrs Hw Hi Hf Ht Hn Hl Hx Htm].
  pose proof (delete_Permutation _ _ _ Hel) as Hperm.
  assert (∀ el', el' ∈ delete i (m_read_promises b) → el' ∈ m_read_promises b) as Hsub.
  { intros el' Hin. rewrite Hperm. by right. }
  assert (concat (wp <$> m_write_strand b) = concat (wp <$> ws)) as Hws.
  { destruct Hcase as [(-> & _)|(-> & _)]; done. }
  destruct Hw as [Hw|Hw]; [by rewrite Hw in Hel|].
  split; [apply (promises_move b); [|done]|..]; simpl; try done.
  - count. pose proof (proj1 (occ_perm _ _) (fmap_Permutation promise _ _ Hperm) x) as Hx'.
    rewrite fmap_cons, occ_cons in Hx'. rewrite Hws. lia.
  - destruct Hcase as [(-> & _)|(Hq & _)]; [done|]. by destruct (resolve_tail _ _ I Hq).
  - right. destruct Hcase as [(-> & _ & _ & ->)|(Hq & _ & m & _ & Hb)]; [done|].
    rewrite Hq, Hb in Hw. assert (buf = []) as -> by (destruct buf; simpl in Hw; [done|lia]).
    destruct (resolve_tail _ _ I Hq) as [_ Hne]. destruct ws as [|[] ws]; try done. by destruct (Hne ws).
  - intros Hv. destruct (Hi Hv) as (_ & Hnil & _). by rewrite Hnil in Hel.
  - destruct Hf as (rest & Hf & Hb). rewrite accepted_app, delivered_app. simpl. rewrite app_nil_r.
    destruct Hcase as [(_ & Hr & -> & ->)|(_ & -> & m & -> & Hm)].
    + exists rest. split; [|done]. rewrite Hf. by destruct r; rewrite ?app_nil_r.
    + destruct (m_is_valid b) eqn:Ev; [|destruct (Hi eq_refl) as (Hnil & _); congruence].
      exists buf. split; [|done]. by rewrite Hf, (Hb eq_refl), Hm, <- app_assoc.
  - rewrite Hperm in Hn. by apply NoDup_cons in Hn as [_ Hn].
  - intros el' Hin. by apply Hl, Hsub.
  - intros el' t Hin Hto. rewrite (Hother el' t Hin Hto). by apply Htm; [apply Hsub|].
Qed.

(** Distinct pending reads have distinct timers. *)
Lemma timers_distinct b i el el' t :
  inv b → m_read_promises b !! i = Some el → el' ∈ delete i (m_read_promises b) →
  timer_id el' = Some t → timer_id el ≠ Some t.
Proof.
  intros I Hel Hin Hto Heq. pose proof (delete_Permutation _ _ _ Hel) as Hperm.
  destruct (inv_timers _ I el t) as (w & Hw & _); [by eapply list_elem_of_lookup_2|done|].
  destruct (inv_timers _ I el' t) as (w' & Hw' & _); [rewrite Hperm; by right|done|].
  pose proof (inv_ids _ I) as Hn. rewrite Hperm in Hn. apply NoDup_cons in Hn as [Hn _].
  apply Hn. apply list_elem_of_fmap. exists el'. split; [congruence|done].
Qed.

Lemma inv_with_timer b T :
  inv b → MultipleTimer.wf T →
  (∀ el t, el ∈ m_read_promises b → timer_id el = Some t →
     ∃ w, MultipleTimer.handlers T !! t = Some (w, id el) ∧ w ≠ Queued true) →
  inv (with_timer T b).
Proof. intros [] ? ?. by split. Qed.

Lemma mem_inv_run_timer t b b' : inv b → run_timer t b = Some b' → inv b'.
Proof.
  intros I. unfold run_timer. destruct (MultipleTimer.run_handler t (m_timer b)) as [[fired T]|] eqn:Er; [|done].
  intros [= <-]. pose proof (run_handler_spec _ _ _ _ Er) as (ec & rid & Hh & Hf & Hoth).
  assert (MultipleTimer.wf T) as HT by (by eapply MultipleTimer.step_wf, MultipleTimer.step_run; [apply (inv_timer_wf _ I)|]).
  (* a pending read of timer [t] is the read the timer was started for *)
  assert (∀ el, el ∈ m_read_promises b → timer_id el = Some t → id el = rid ∧ ec = false) as Hown.
  { intros el Hel Hto. destruct (inv_timers _ I el t Hel Hto) as (w & Hw & Hne). rewrite Hh in Hw.
    simplify_eq. by destruct ec. }
  destruct ec; subst fired; simpl.
  - apply inv_with_timer; [done|done|]. intros el t' Hel Hto.
    destruct (decide (t = t')) as [<-|Hne]; [by destruct (Hown el Hel Hto)|].
    rewrite Hoth by done. by apply (inv_timers _ I).
  - unfold timeout_callback. simpl. destruct (list_find _ (m_read_promises b)) as [[i el]|] eqn:Ef.
    + apply list_find_Some in Ef as (Hel & Hid & _).
      eapply (inv_finish_read b T i el PipeOpRes.timeout None); try done; [|by left].
      intros el' t' Hin Hto. apply Hoth. intros <-. destruct (Hown el') as [Hid' _]; [|done|].
      { rewrite (delete_Permutation _ _ _ Hel). by right. }
      pose proof (inv_ids _ I) as Hn. rewrite (delete_Permutation _ _ _ Hel) in Hn.
      apply NoDup_cons in Hn as [Hn _]. apply Hn, list_elem_of_fmap. exists el'. split; [congruence|done].
    + apply inv_with_timer; [done|done|]. intros el t' Hel Hto.
      destruct (decide (t = t')) as [<-|Hne].
      * exfalso. destruct (Hown el Hel Hto) as [Hid _]. apply list_find_None in Ef.
        rewrite Forall_forall in Ef. by destruct (Ef el Hel).
      * rewrite Hoth by done. by apply (inv_timers _ I).
Qed.

Lemma inv_resolve_noop q b :
  m_write_strand b = ResolveJob :: q → m_read_promises b = [] ∨ m_buffer b = [] → inv b → inv (with_write_strand q b).
Proof.
  intros Hq Hno I. pose proof I as [Hp Hr Hw Hi Hf Ht Hn Hl Hx Htm].
  destruct (resolve_tail _ _ I Hq) as [Htl Hne]. split; try done.
  - apply (promises_move b); [|done]. unfold promises. simpl. by rewrite Hq.
  - simpl. destruct Hno as [?|Hno]; [by left|right]. rewrite Hno. destruct q as [|[] ?]; try done. simpl. lia.
Qed.

Lemma inv_resolve_job q b :
  m_write_strand b = ResolveJob :: q → inv b → inv (resolve_read_promise (with_write_strand q b)).
Proof.
  intros Hq I. unfold resolve_read_promise. cbn -[set_value].
  destruct (m_read_promises b) as [|el rp] eqn:Erp; [apply inv_resolve_noop; auto|].
  destruct (m_buffer b) as [|m rest] eqn:Eb; [apply inv_resolve_noop; auto|].
  assert (m_read_promises b !! 0%nat = Some el) as Hel by (by rewrite Erp).
  pose proof (inv_finish_read b (match timer_id el with Some t => MultipleTimer.cancel t (m_timer b) | None => m_timer b end)
                0 el PipeOpRes.success (Some m) rest q I Hel) as H.
  rewrite Erp in H. apply H; clear H.
  - pose proof (inv_timer_wf _ I). destruct (timer_id el); [|done]. eapply MultipleTimer.step_wf; [done|constructor].
  - intros el' t Hin Hto. pose proof (timers_distinct b 0 el el' t I Hel) as Hd. rewrite Erp in Hd.
    specialize (Hd Hin Hto). destruct (timer_id el) as [t0|]; [|done]. apply cancel_other. congruence.
  - right. split_and!; [done|done|]. eauto.
Qed.

Lemma inv_write_strand b b' : inv b → run_write_strand b = Some b' → inv b'.
Proof.
  intros I. unfold run_write_strand. destruct (m_write_strand b) as [|[p data tp|] q] eqn:Hq; [done| |].
  2: { intros [= <-]. by apply inv_resolve_job. }
  pose proof I as [Hp Hr Hw Hi Hf Ht Hn Hl Hx Htm]. rewrite Hq in Hr, Hw. simpl in Hr.
  unfold write_impl. cbn -[set_value].
  assert (∀ r buf, buf = m_buffer b ∧ r ≠ PipeOpRes.success ∨
             buf = m_buffer b ++ [data] ∧ r = PipeOpRes.success ∧ m_is_valid b = true →
    inv (set_value (WriteDone p data r)
           (mk (m_is_valid b) (m_read_invalidation_result b) buf (m_read_promises b)
               (m_next_read_promise_id b) (m_timer b) (m_read_strand b) (ResolveJob :: q)
               (next_promise b) (now b) (log b)))) as H.
  { intros r buf Hc. split; [apply (promises_move b); [|done]|..]; simpl; try done.
    - count. rewrite Hq, fmap_cons. cbn -[occ]. rewrite occ_cons. lia.
    - destruct Hw as [?|Hw]; [by left|right]. destruct Hc as [(-> & _)|(-> & _)]; rewrite Hw; simpl; lia.
    - intros Hv. destruct Hc as [(-> & _)|(_ & _ & Hv')]; [by apply Hi|congruence].
    - destruct Hf as (rest & Hf & Hb). rewrite accepted_app, delivered_app. simpl. rewrite app_nil_r.
      destruct Hc as [(-> & Hne)|(-> & -> & Hv)].
      + exists rest. split; [|done]. rewrite Hf. by destruct r; rewrite ?app_nil_r.
      + exists (rest ++ [data]). rewrite Hf, <- app_assoc. split; [done|]. intros _. by rewrite (Hb Hv). }
  destruct (m_is_valid b) eqn:Ev; cbn -[set_value].
  - destruct (match tp with Some tp => bool_decide (tp < now b) | None => false end); intros [= <-].
    + pose proof (H PipeOpRes.timeout (m_buffer b)) as H'. rewrite <- Ev in H'. apply H'. by left.
    + apply H. by right.
  - intros [= <-]. pose proof (H PipeOpRes.canceled (m_buffer b)) as H'. rewrite <- Ev in H'. apply H'. by left.
Qed.

Lemma mem_inv_step b b' : inv b → step b b' → inv b'.
Proof.
  intros I Hs. destruct Hs as [data tmo|tmo|c|b' H1 H2 E|b' E|t|t b' E|n Hle].
  - by apply inv_write_async.
  - by apply inv_read_async.
  - by apply inv_invalidate.
  - by eapply inv_read_strand.
  - by eapply inv_write_strand.
  - apply inv_with_timer; [done|eapply MultipleTimer.step_wf; [apply (inv_timer_wf _ I)|constructor]|].
    intros el t' Hel Hto. destruct (inv_timers _ I el t' Hel Hto) as (w & Hw & Hne). by eapply expire_live.
  - by eapply mem_inv_run_timer.
  - destruct I. by split.
Qed.

Lemma mem_reachable_inv b : reachable b → inv b.
Proof.
  unfold reachable. generalize mem_inv_create. generalize (create : mem_buffer A). intros b0 I Hr.
  induction Hr; eauto using mem_inv_step.
Qed.
End facts.

(** ** After invalidation *)
Lemma invalid_step {A} (b b' : mem_buffer A) :
  inv b → m_is_valid b = false → step b b' →
  m_is_valid b' = false ∧ accepted (log b') = accepted (log b) ∧ delivered (log b') = delivered (log b).
Proof.
  intros I Hv Hs. pose proof (inv_invalid _ I Hv) as (Hb & Hrp & Hres).
  destruct Hs as [data tmo|tmo|c|b' H1 H2 E|b' E|t|t b' E|n Hle]; try done.
  - unfold write_async. rewrite Hv. simpl. by rewrite accepted_app, delivered_app, !app_nil_r.
  - unfold invalidate. by rewrite Hv.
  - unfold run_read_strand, read_impl in E. destruct (m_read_strand b) as [|job q]; [done|]. injection E as <-.
    simpl. rewrite Hv. simpl. rewrite accepted_app, delivered_app, app_nil_r. split_and!; [done|done|].
    destruct (r_started_while_valid job); [destruct (m_read_invalidation_result b)|]; try done; by rewrite app_nil_r.
  - unfold run_write_strand, write_impl, resolve_read_promise in E.
    destruct (m_write_strand b) as [|[p data tp|] q]; [done| |]; simpl in E; rewrite ?Hv, ?Hrp in E; injection E as <-; simpl.
    + by rewrite accepted_app, delivered_app, !app_nil_r.
    + done.
  - unfold run_timer, timeout_callback in E. destruct (MultipleTimer.run_handler t (m_timer b)) as [[[rid|] T]|]; [| |done];
      injection E as <-; simpl; rewrite ?Hrp; done.
Qed.

Lemma invalid_steps {A} (b b' : mem_buffer A) :
  inv b → m_is_valid b = false → rtc step b b' →
  inv b' ∧ m_is_valid b' = false ∧ accepted (log b') = accepted (log b) ∧ delivered (log b') = delivered (log b).
Proof.
  intros I Hv Hr. induction Hr as [b|b1 b2 b3 H12 _ IH]; [done|].
  destruct (invalid_step _ _ I Hv H12) as (Hv2 & Ha & Hd).
  destruct (IH (mem_inv_step _ _ I H12) Hv2) as (I3 & Hv3 & Ha3 & Hd3). split_and!; congruence.
Qed.

(** C21: every promise a write or a read handed out is in exactly one place: the
    task that will serve it, the list of pending reads, or the log of completed
    promises, where it is once.  Timeouts, writes, resolving and invalidation
    never complete a promise twice and never lose one. *)
Theorem mem_promises_once {A} (b : mem_buffer A) :
  reachable b → promises b ≡ₚ seq 0 (next_promise b).
Proof. intros Hr. apply inv_promises, mem_reachable_inv, Hr. Qed.

(** No reader waits while there is a message: with no write in progress the
    pending reads or the stored messages are empty, also when reads, writes and
    timeouts race; and a pending read with a timeout keeps a timer that will fire. *)
Theorem mem_no_lost_wakeup {A} (b : mem_buffer A) :
  reachable b →
  (m_write_strand b = [] → m_read_promises b = [] ∨ m_buffer b = []) ∧
  (∀ el t, el ∈ m_read_promises b → timer_id el = Some t →
     ∃ w, MultipleTimer.handlers (m_timer b) !! t = Some (w, id el) ∧ w ≠ Queued true).
Proof.
  intros Hr. pose proof (mem_reachable_inv _ Hr) as I. split; [|apply (inv_timers _ I)].
  intros Hw. pose proof (inv_wakeup _ I) as H. by rewrite Hw in H.
Qed.

(** Messages are delivered in the order their writes succeeded, each once:
    what readers got, followed by what is stored while the buffer is valid, is
    exactly the sequence of accepted messages. *)
Theorem mem_fifo {A} (b : mem_buffer A) :
  reachable b →
  ∃ rest, accepted (log b) = delivered (log b) ++ rest ∧ (m_is_valid b = true → rest = m_buffer b).
Proof. intros Hr. apply inv_fifo, mem_reachable_inv, Hr. Qed.

(** Invalidation completes every pending read with [canceled] or [failed], as
    the side that invalidates asked, drops the stored messages, and from then on
    no message is accepted or delivered. *)
Theorem mem_invalidate {A} (b b' : mem_buffer A) (c : bool) :
  reachable b → m_is_valid b = true → rtc step (invalidate c b) b' →
  log (invalidate c b) =
    log b ++ ((λ el, ReadDone (promise el) (if c then PipeOpRes.canceled else PipeOpRes.failed) None) <$> m_read_promises b) ∧
  m_is_valid b' = false ∧ m_buffer b' = [] ∧ m_read_promises b' = [] ∧
  accepted (log b') = accepted (log b) ∧ delivered (log b') = delivered (log b).
Proof.
  intros Hr Hv Hst. pose proof (inv_invalidate c _ (mem_reachable_inv _ Hr)) as I.
  assert (m_is_valid (invalidate c b) = false ∧ accepted (log (invalidate c b)) = accepted (log b) ∧
          delivered (log (invalidate c b)) = delivered (log b)) as (Hv1 & Ha1 & Hd1).
  { unfold invalidate. rewrite Hv. simpl.
    destruct (completions_not_accepted (A := A) (m_read_promises b) _ (invalidation_result_fail c)) as [E1 E2].
    by rewrite accepted_app, delivered_app, E1, E2, !app_nil_r. }
  destruct (invalid_steps _ _ I Hv1 Hst) as (I' & Hv' & Ha & Hd).
  destruct (inv_invalid _ I' Hv') as (Hb & Hrp & _). split_and!; try congruence.
  unfold invalidate. rewrite Hv. done.
Qed.

(** ** A concrete run: a read waits, a message arrives *)
Definition pending_read : mem_buffer Z :=
  mk true PipeOpRes.failed [] [ReadPromise 0 (Some 0) 0] 1
     (MultipleTimer.mk 1 {[ 0 ]} {[ 0 := (Waiting, 0) ]}) [] [] 1 0 [].

Lemma pending_read_reachable : reachable pending_read.
Proof.
  unfold reachable.
  eapply rtc_l; [apply (step_read _ (Some 50))|].
  eapply rtc_l; [eapply step_read_strand; [by vm_compute|by vm_compute|reflexivity]|].
  apply rtc_refl.
Qed.

Lemma mem_promises_once_witness : promises pending_read ≡ₚ [0%nat].
Proof. exact (mem_promises_once pending_read pending_read_reachable). Defined.

Lemma mem_no_lost_wakeup_witness : m_read_promises pending_read = [] ∨ m_buffer pending_read = [].
Proof. exact (proj1 (mem_no_lost_wakeup pending_read pending_read_reachable) eq_refl). Defined.

Lemma mem_fifo_witness :
  ∃ rest, accepted (log pending_read) = delivered (log pending_read) ++ rest ∧ (true = true → rest = []).
Proof. exact (mem_fifo pending_read pending_read_reachable). Defined.

Lemma mem_invalidate_witness :
  log (invalidate true pending_read) = [ReadDone 0 PipeOpRes.canceled None].
Proof.
  exact (proj1 (mem_invalidate pending_read (invalidate true pending_read) true pending_read_reachable eq_refl
                  (rtc_refl _ _))).
Defined.
