(* ===== verification/MemPipeEnv.v ===== *)
(** * Endpoints and the environment of the in-memory pipe

    [mem_buffers] pairs two [mem_buffer]s and runs the disconnect callbacks,
    [mem_pipe_endpoint] is one side of the pair, and [mem_pipe_env] matches
    servers that create a pipe with clients that open one. *)
From S2P Require Import Prelude RpcTypes Timer MemPipe MemPipeFacts.
Local Open Scope Z_scope.

Module MemBuffers.
Section mem_buffers.
Context {A : Type}.

(** Disconnect callbacks are numbers; [executed] are those posted to the pool. *)
Record mem_buffers : Type := mk {
  m_client_to_server : MemBuffer.mem_buffer A;
  m_server_to_client : MemBuffer.mem_buffer A;
  m_invalidated : bool;
  m_on_invalidate : list nat;
  executed : list nat
}.

Definition create : mem_buffers := mk MemBuffer.create MemBuffer.create false [] [].

Definition read_async_from_server (timeout : option Z) (m : mem_buffers) : mem_buffers :=
  mk (m_client_to_server m) (MemBuffer.read_async timeout (m_server_to_client m))
     (m_invalidated m) (m_on_invalidate m) (executed m).
Definition read_async_from_client (timeout : option Z) (m : mem_buffers) : mem_buffers :=
  mk (MemBuffer.read_async timeout (m_client_to_server m)) (m_server_to_client m)
     (m_invalidated m) (m_on_invalidate m) (executed m).
Definition write_async_to_client (msg : A) (timeout : option Z) (m : mem_buffers) : mem_buffers :=
  mk (m_client_to_server m) (MemBuffer.write_async msg timeout (m_server_to_client m))
     (m_invalidated m) (m_on_invalidate m) (executed m).
Definition write_async_to_server (msg : A) (timeout : option Z) (m : mem_buffers) : mem_buffers :=
  mk (MemBuffer.write_async msg timeout (m_client_to_server m)) (m_server_to_client m)
     (m_invalidated m) (m_on_invalidate m) (executed m).

Definition set_invalidate_callback (callback : nat) (m : mem_buffers) : mem_buffers :=
  if m_invalidated m
  then mk (m_client_to_server m) (m_server_to_client m) (m_invalidated m) (m_on_invalidate m)
          (executed m ++ [callback])
  else mk (m_client_to_server m) (m_server_to_client m) (m_invalidated m)
          (m_on_invalidate m ++ [callback]) (executed m).

Definition invalidate_impl (cancel_server_side cancel_client_side : bool) (m : mem_buffers) : mem_buffers :=
  mk (MemBuffer.invalidate cancel_server_side (m_client_to_server m))
     (MemBuffer.invalidate cancel_client_side (m_server_to_client m))
     true [] (executed m ++ m_on_invalidate m).

Definition invalidate (by_server : bool) (m : mem_buffers) : mem_buffers :=
  invalidate_impl by_server (negb by_server) m.

Definition is_valid (m : mem_buffers) : bool := negb (m_invalidated m).
Definition get_invalidate_callbacks_count (m : mem_buffers) : nat := length (m_on_invalidate m).
End mem_buffers.
Arguments mem_buffers : clear implicits.
End MemBuffers.

Module MemPipeEndpoint.
Section endpoint.
Context {A : Type}.
Import MemBuffers.

Definition is_connected (m : mem_buffers A) : bool := is_valid m.
Definition set_disconnect_callback (callback : nat) (m : mem_buffers A) : mem_buffers A :=
  set_invalidate_callback callback m.
Definition write_async (m_is_server : bool) (msg : A) (timeout : option Z) (m : mem_buffers A) : mem_buffers A :=
  if m_is_server then write_async_to_client msg timeout m else write_async_to_server msg timeout m.
Definition read_async (m_is_server : bool) (timeout : option Z) (m : mem_buffers A) : mem_buffers A :=
  if m_is_server then read_async_from_client timeout m else read_async_from_server timeout m.
Definition invalidate (m_is_server : bool) (m : mem_buffers A) : mem_buffers A :=
  MemBuffers.invalidate m_is_server m.

(** The buffer an endpoint reads from, and the one it writes to. *)
Definition incoming (m_is_server : bool) (m : mem_buffers A) : MemBuffer.mem_buffer A :=
  if m_is_server then m_client_to_server m else m_server_to_client m.
Definition outgoing (m_is_server : bool) (m : mem_buffers A) : MemBuffer.mem_buffer A :=
  if m_is_server then m_server_to_client m else m_client_to_server m.

(** What the two endpoints and the pool can do; only [invalidate] of an
    endpoint invalidates the buffers. *)
Inductive step (m : mem_buffers A) : mem_buffers A → Prop :=
| step_write s msg timeout : step m (write_async s msg timeout m)
| step_read s timeout : step m (read_async s timeout m)
| step_invalidate s : step m (invalidate s m)
| step_callback cb : step m (set_disconnect_callback cb m)
| step_c2s b : MemBuffer.step (m_client_to_server m) b →
    MemBuffer.m_is_valid b = MemBuffer.m_is_valid (m_client_to_server m) →
    step m (mk b (m_server_to_client m) (m_invalidated m) (m_on_invalidate m) (executed m))
| step_s2c b : MemBuffer.step (m_server_to_client m) b →
    MemBuffer.m_is_valid b = MemBuffer.m_is_valid (m_server_to_client m) →
    step m (mk (m_client_to_server m) b (m_invalidated m) (m_on_invalidate m) (executed m)).

Record inv (m : mem_buffers A) : Prop := {
  inv_c2s : MemPipeFacts.inv (m_client_to_server m);
  inv_s2c : MemPipeFacts.inv (m_server_to_client m);
  inv_valid_c2s : MemBuffer.m_is_valid (m_client_to_server m) = negb (m_invalidated m);
  inv_valid_s2c : MemBuffer.m_is_valid (m_server_to_client m) = negb (m_invalidated m);
  inv_callbacks : if m_invalidated m then m_on_invalidate m = [] else executed m = []
}.

Lemma endpoint_inv_create : inv create.
Proof. split; [apply MemPipeFacts.mem_inv_create|apply MemPipeFacts.mem_inv_create|done..]. Qed.

Lemma invalidate_invalid c (b : MemBuffer.mem_buffer A) : MemBuffer.m_is_valid (MemBuffer.invalidate c b) = false.
Proof. unfold MemBuffer.invalidate. by destruct (MemBuffer.m_is_valid b) eqn:E. Qed.

Lemma async_valid (b : MemBuffer.mem_buffer A) tmo msg :
  MemBuffer.m_is_valid (MemBuffer.read_async tmo b) = MemBuffer.m_is_valid b ∧
  MemBuffer.m_is_valid (MemBuffer.write_async msg tmo b) = MemBuffer.m_is_valid b.
Proof. split; [done|]. unfold MemBuffer.write_async. destruct (MemBuffer.m_is_valid b) eqn:E; simpl; by rewrite ?E. Qed.

Lemma endpoint_inv_step m m' : inv m → step m m' → inv m'.
Proof.
  intros [Hc Hs Hvc Hvs Hcb] Hst.
  destruct Hst as [s msg tmo|s tmo|s|cb|b Hb Hv|b Hb Hv].
  - destruct s; split; simpl; auto using MemPipeFacts.inv_write_async;
      by rewrite (proj2 (async_valid _ tmo msg)).
  - destruct s; split; simpl; auto using MemPipeFacts.inv_read_async.
  - split; simpl; auto using MemPipeFacts.inv_invalidate, invalidate_invalid.
  - unfold set_disconnect_callback, set_invalidate_callback. destruct (m_invalidated m) eqn:E;
      split; simpl; rewrite ?E; done.
  - split; simpl; [by eapply MemPipeFacts.mem_inv_step, Hb|done|congruence|done|done].
  - split; simpl; [done|by eapply MemPipeFacts.mem_inv_step, Hb|done|congruence|done].
Qed.

Lemma endpoint_reachable_inv m : rtc step create m → inv m.
Proof.
  generalize endpoint_inv_create. generalize (create : mem_buffers A). intros m0 I Hr.
  induction Hr; eauto using endpoint_inv_step.
Qed.
End endpoint.
End MemPipeEndpoint.

Module MemPipeEnv.
Record promise_data : Type := PromiseData {
  id : Z;
  client_id : Z;
  timer_id : option Z;
  promise : nat
}.

(** An endpoint is named by its pipe and its side. *)
Record endpoint : Type := Endpoint { pipe : nat; is_server_side : bool }.

Record completion : Type := Completion {
  c_promise : nat;
  c_result : PipeWaitRes.pipe_wait_res;
  c_endpoint : option endpoint
}.

(** The payload of a timer is the container and the number of its promise. *)
Record impl : Type := mk {
  m_next_read_promise_id : Z;
  m_timer : MultipleTimer.multiple_timer (bool * Z);
  m_client_side_pipe_promises : list promise_data;
  m_server_side_pipe_promises : list promise_data;
  next_promise : nat;
  next_pipe : nat;
  log : list completion
}.

Definition create : impl := mk 0 MultipleTimer.create [] [] 0 0 [].

(** The container of the servers' or of the clients' promises. *)
Definition side (is_server : bool) (e : impl) : list promise_data :=
  if is_server then m_server_side_pipe_promises e else m_client_side_pipe_promises e.
Definition set_side (is_server : bool) (q : list promise_data) (e : impl) : impl :=
  if is_server
  then mk (m_next_read_promise_id e) (m_timer e) (m_client_side_pipe_promises e) q (next_promise e) (next_pipe e) (log e)
  else mk (m_next_read_promise_id e) (m_timer e) q (m_server_side_pipe_promises e) (next_promise e) (next_pipe e) (log e).

Definition cancel_timer (el : promise_data) (t : MultipleTimer.multiple_timer (bool * Z)) :=
  match timer_id el with Some i => MultipleTimer.cancel i t | None => t end.

(** With a peer waiting, both get the endpoints of a new pipe; otherwise the
    caller waits. *)
Definition create_new_pipe_end (cid : Z) (is_server : bool) (timeout : option Z) (e : impl) : impl :=
  match side (negb is_server) e with
  | [] =>
      let promise_id := m_next_read_promise_id e in
      let '(tid, timer') :=
        match timeout with
        | Some _ => let '(i, t) := MultipleTimer.start (is_server, promise_id) (m_timer e) in (Some i, t)
        | None => (None, m_timer e)
        end in
      set_side is_server (side is_server e ++ [PromiseData promise_id cid tid (next_promise e)])
        (mk (u64 (promise_id + 1)) timer' (m_client_side_pipe_promises e) (m_server_side_pipe_promises e)
            (S (next_promise e)) (next_pipe e) (log e))
  | el :: q =>
      set_side (negb is_server) q
        (mk (m_next_read_promise_id e) (cancel_timer el (m_timer e))
            (m_client_side_pipe_promises e) (m_server_side_pipe_promises e)
            (S (next_promise e)) (S (next_pipe e))
            (log e ++ [Completion (promise el) PipeWaitRes.success (Some (Endpoint (next_pipe e) (negb is_server)));
                       Completion (next_promise e) PipeWaitRes.success (Some (Endpoint (next_pipe e) is_server))]))
  end.

Definition create_pipe (cid : Z) (timeout : option Z) (e : impl) : impl := create_new_pipe_end cid true timeout e.
Definition open_pipe (cid : Z) (timeout : option Z) (e : impl) : impl := create_new_pipe_end cid false timeout e.

Definition selected (cid : option Z) (el : promise_data) : bool :=
  match cid with None => true | Some c => bool_decide (client_id el = c) end.

Definition cancel_pending_endpoints (cid : option Z) (is_server : bool) (e : impl) : impl :=
  let q := side is_server e in
  let gone := filter (λ el, Is_true (selected cid el)) q in
  let kept := filter (λ el, ¬ Is_true (selected cid el)) q in
  set_side is_server kept
    (mk (m_next_read_promise_id e) (foldl (λ t el, cancel_timer el t) (m_timer e) gone)
        (m_client_side_pipe_promises e) (m_server_side_pipe_promises e) (next_promise e) (next_pipe e)
        (log e ++ ((λ el, Completion (promise el) PipeWaitRes.canceled None) <$> gone))).

Definition cancel_pending_client_endpoints (cid : option Z) (e : impl) : impl := cancel_pending_endpoints cid false e.
Definition cancel_pending_server_endpoints (cid : option Z) (e : impl) : impl := cancel_pending_endpoints cid true e.

Definition remove_promise_by_timeout (is_server : bool) (pid : Z) (e : impl) : impl :=
  match list_find (λ el, id el = pid) (side is_server e) with
  | Some (i, el) =>
      set_side is_server (delete i (side is_server e))
        (mk (m_next_read_promise_id e) (m_timer e) (m_client_side_pipe_promises e) (m_server_side_pipe_promises e)
            (next_promise e) (next_pipe e) (log e ++ [Completion (promise el) PipeWaitRes.timeout None]))
  | None => e
  end.

Definition with_timer (t : MultipleTimer.multiple_timer (bool * Z)) (e : impl) : impl :=
  mk (m_next_read_promise_id e) t (m_client_side_pipe_promises e) (m_server_side_pipe_promises e)
     (next_promise e) (next_pipe e) (log e).

Definition run_timer (t : Z) (e : impl) : option impl :=
  match MultipleTimer.run_handler t (m_timer e) with
  | None => None
  | Some (fired, timer') =>
      Some (match fired with
            | Some (is_server, pid) => remove_promise_by_timeout is_server pid (with_timer timer' e)
            | None => with_timer timer' e
            end)
  end.

Definition get_pending_client_endpoints_count (e : impl) : nat := length (m_client_side_pipe_promises e).
Definition get_pending_server_endpoints_count (e : impl) : nat := length (m_server_side_pipe_promises e).

(** [~mem_pipe_env]. *)
Definition destroy (e : impl) : impl :=
  cancel_pending_server_endpoints None (cancel_pending_client_endpoints None e).

Inductive step (e : impl) : impl → Prop :=
| step_new cid is_server timeout : step e (create_new_pipe_end cid is_server timeout e)
| step_cancel cid is_server : step e (cancel_pending_endpoints cid is_server e)
| step_expire t : step e (with_timer (MultipleTimer.expire t (m_timer e)) e)
| step_timer t e' : run_timer t e = Some e' → step e e'.

(** ** Invariant *)
Definition promises (e : impl) : list nat :=
  (promise <$> m_client_side_pipe_promises e) ++ (promise <$> m_server_side_pipe_promises e) ++ (c_promise <$> log e).

(** The endpoints handed out, in order, and both ends of every pipe. *)
Definition endpoints (l : list completion) : list endpoint := omap c_endpoint l.
Fixpoint pipe_ends (n : nat) : list endpoint :=
  match n with O => [] | S k => pipe_ends k ++ [Endpoint k true; Endpoint k false] end.

Record inv (e : impl) : Prop := {
  inv_promises : promises e ≡ₚ seq 0 (next_promise e);
  inv_one_side : m_client_side_pipe_promises e = [] ∨ m_server_side_pipe_promises e = [];
  inv_endpoints : endpoints (log e) ≡ₚ pipe_ends (next_pipe e);
  inv_success c : c ∈ log e → c_result c = PipeWaitRes.success ↔ is_Some (c_endpoint c)
}.

Lemma endpoints_app l1 l2 : endpoints (l1 ++ l2) = endpoints l1 ++ endpoints l2.
Proof. apply omap_app. Qed.

(** Completions without an endpoint. *)
Lemma failed_completions (l : list promise_data) r :
  r ≠ PipeWaitRes.success →
  endpoints ((λ el, Completion (promise el) r None) <$> l) = [] ∧
  ∀ c, c ∈ (λ el, Completion (promise el) r None) <$> l → c_result c = PipeWaitRes.success ↔ is_Some (c_endpoint c).
Proof.
  intros Hr. split; [by induction l|]. intros c (el & -> & _)%list_elem_of_fmap. simpl.
  split; [done|by intros []].
Qed.

(** Removing promises from one side and completing them without an endpoint. *)
Lemma inv_remove s q gone r T e :
  inv e → side s e ≡ₚ gone ++ q → r ≠ PipeWaitRes.success →
  inv (set_side s q (mk (m_next_read_promise_id e) T (m_client_side_pipe_promises e) (m_server_side_pipe_promises e)
         (next_promise e) (next_pipe e) (log e ++ ((λ el, Completion (promise el) r None) <$> gone)))).
Proof.
  intros [Hp Ho He Hs] Hperm Hr. destruct (failed_completions gone r Hr) as [E1 E2].
  assert (∀ l : list promise_data, l ≡ₚ gone ++ q → l = [] → q = []) as Hnil.
  { intros l Hl ->. apply Permutation_nil in Hl. by apply app_eq_nil in Hl as [_ ?]. }
  split.
  - apply occ_perm. intros x. pose proof (proj1 (occ_perm _ _) Hp x) as Hx.
    pose proof (proj1 (occ_perm _ _) (fmap_Permutation promise _ _ Hperm) x) as Hq.
    destruct s; unfold promises in *; simpl in *;
      rewrite ?fmap_app, <- ?list_fmap_compose, ?occ_app in *; simpl in *;
      change (c_promise ∘ (λ el, Completion (promise el) r None)) with promise; lia.
  - destruct s; simpl in *; destruct Ho as [Ho|Ho]; eauto.
  - destruct s; simpl; rewrite endpoints_app, E1, app_nil_r; done.
  - intros c. destruct s; simpl; rewrite elem_of_app; intros [Hin|Hin]; auto.
Qed.

Lemma inv_new cid s timeout e : inv e → inv (create_new_pipe_end cid s timeout e).
Proof.
  intros [Hp Ho He Hs]. unfold create_new_pipe_end. destruct (side (negb s) e) as [|el q] eqn:Eo.
  - destruct (match timeout with Some _ => _ | None => _ end) as [tid T]. split.
    + apply occ_perm. intros x. pose proof (proj1 (occ_perm _ _) Hp x) as Hx. unfold promises in *.
      destruct s; cbn [set_side m_client_side_pipe_promises m_server_side_pipe_promises next_promise log side];
        rewrite seq_S, !fmap_app, !occ_app in *; cbn [fmap list_fmap promise app];
        change (0 + next_promise e)%nat with (next_promise e); rewrite !occ_cons, !occ_nil; lia.
    + destruct s; simpl in *; auto.
    + by destruct s.
    + by destruct s.
  - split.
    + apply occ_perm. intros x. pose proof (proj1 (occ_perm _ _) Hp x) as Hx. unfold promises in *.
      destruct s; cbn [negb side] in Eo; rewrite Eo in Hx; cbn [set_side negb m_client_side_pipe_promises m_server_side_pipe_promises next_promise log side];
        rewrite seq_S, !fmap_app, ?fmap_cons, !occ_app, ?occ_cons in *; cbn [c_promise fmap list_fmap];
        change (0 + next_promise e)%nat with (next_promise e); rewrite ?occ_cons, ?occ_nil; lia.
    + destruct s; simpl in *; destruct Ho as [Ho|Ho]; first [by rewrite Ho in Eo|auto].
    + destruct s; simpl; rewrite endpoints_app; cbn [endpoints omap list_omap c_endpoint]; rewrite He.
      * f_equiv. apply perm_swap.
      * done.
    + intros c. destruct s; simpl; rewrite elem_of_app, !elem_of_cons, elem_of_nil;
        intros [Hin|[-> |[-> |[]]]]; auto; simpl; split; eauto.
Qed.

Lemma env_inv_step e e' : inv e → step e e' → inv e'.
Proof.
  intros I Hst. destruct Hst as [cid s tmo|cid s|t|t e' Hr].
  - by apply inv_new.
  - apply inv_remove; [done| |done]. symmetry. apply filter_app_complement.
  - destruct I. by split.
  - unfold run_timer in Hr. destruct (MultipleTimer.run_handler t (m_timer e)) as [[[[s pid]|] T]|]; simplify_eq.
    2: { destruct I. by split. }
    unfold remove_promise_by_timeout. replace (side s (with_timer T e)) with (side s e) by (by destruct s).
    destruct (list_find _ (side s e)) as [[i el]|] eqn:Ef; [|destruct I; by split].
    apply list_find_Some in Ef as (Hel & _ & _).
    apply (inv_remove s (delete i (side s e)) [el] PipeWaitRes.timeout T e); [done| |done].
    by apply delete_Permutation.
Qed.

Lemma env_inv_create : inv create.
Proof. split; simpl; try done; [by left|]. intros c []%elem_of_nil. Qed.

Lemma env_reachable_inv e : rtc step create e → inv e.
Proof.
  generalize env_inv_create. generalize create. intros e0 I Hr. induction Hr; eauto using env_inv_step.
Qed.
End MemPipeEnv.

(** While a pipe is connected no disconnect callback has run; when one side
    invalidates it, both directions become invalid, its own pending reads end
    with [canceled] and the peer's with [failed], every callback registered so
    far is executed exactly once, and one registered later is executed at once. *)
Theorem endpoint_invalidate {A} (m : MemBuffers.mem_buffers A) (s : bool) (cb : nat) :
  rtc MemPipeEndpoint.step MemBuffers.create m → MemPipeEndpoint.is_connected m = true →
  let m' := MemPipeEndpoint.invalidate s m in
  MemBuffers.executed m = [] ∧ MemPipeEndpoint.is_connected m' = false ∧
  MemBuffer.is_valid (MemPipeEndpoint.incoming s m') = false ∧
  MemBuffer.is_valid (MemPipeEndpoint.outgoing s m') = false ∧
  MemBuffer.log (MemPipeEndpoint.incoming s m') = MemBuffer.log (MemPipeEndpoint.incoming s m) ++
    ((λ el, MemBuffer.ReadDone (MemBuffer.promise el) PipeOpRes.canceled None)
       <$> MemBuffer.m_read_promises (MemPipeEndpoint.incoming s m)) ∧
  MemBuffer.log (MemPipeEndpoint.outgoing s m') = MemBuffer.log (MemPipeEndpoint.outgoing s m) ++
    ((λ el, MemBuffer.ReadDone (MemBuffer.promise el) PipeOpRes.failed None)
       <$> MemBuffer.m_read_promises (MemPipeEndpoint.outgoing s m)) ∧
  MemBuffers.executed m' = MemBuffers.m_on_invalidate m ∧
  MemBuffers.executed (MemPipeEndpoint.set_disconnect_callback cb m') = MemBuffers.m_on_invalidate m ++ [cb].
Proof.
  intros Hr Hc. simpl. destruct (MemPipeEndpoint.endpoint_reachable_inv _ Hr) as [_ _ Hvc Hvs Hcb].
  unfold MemPipeEndpoint.is_connected, MemBuffers.is_valid in Hc. rewrite negb_true_iff in Hc.
  rewrite Hc in *. unfold MemPipeEndpoint.incoming, MemPipeEndpoint.outgoing.
  split_and!; rewrite ?Hcb; try done; destruct s; simpl;
    unfold MemBuffer.is_valid, MemBuffer.invalidate; by rewrite ?Hvc, ?Hvs.
Qed.

Lemma endpoint_invalidate_witness :
  MemBuffers.executed (MemPipeEndpoint.invalidate true
    (MemPipeEndpoint.set_disconnect_callback 4 (MemBuffers.create : MemBuffers.mem_buffers Z))) = [4%nat].
Proof.
  refine (proj1 (proj2 (proj2 (proj2 (proj2 (proj2 (proj2 (endpoint_invalidate (A := Z)
            (MemPipeEndpoint.set_disconnect_callback 4 MemBuffers.create) true 0 _ eq_refl)))))))).
  apply rtc_once, MemPipeEndpoint.step_callback.
Defined.

(** C22: the environment pairs endpoints: every promise of [create_pipe] and
    [open_pipe] waits on one side or was completed once; clients and servers
    never wait at the same time; exactly the completions with [success] carry
    an endpoint, and the endpoints handed out are both ends of every pipe made,
    each once; destroying the environment leaves nobody waiting. *)
Theorem env_matching (e : MemPipeEnv.impl) :
  rtc MemPipeEnv.step MemPipeEnv.create e →
  MemPipeEnv.promises e ≡ₚ seq 0 (MemPipeEnv.next_promise e) ∧
  (MemPipeEnv.m_client_side_pipe_promises e = [] ∨ MemPipeEnv.m_server_side_pipe_promises e = []) ∧
  (∀ c, c ∈ MemPipeEnv.log e →
     MemPipeEnv.c_result c = PipeWaitRes.success ↔ is_Some (MemPipeEnv.c_endpoint c)) ∧
  MemPipeEnv.endpoints (MemPipeEnv.log e) ≡ₚ MemPipeEnv.pipe_ends (MemPipeEnv.next_pipe e) ∧
  MemPipeEnv.c_promise <$> MemPipeEnv.log (MemPipeEnv.destroy e) ≡ₚ seq 0 (MemPipeEnv.next_promise e).
Proof.
  intros Hr. pose proof (MemPipeEnv.env_reachable_inv _ Hr) as I. pose proof I as [Hp Ho He Hs].
  split_and!; try done.
  assert (MemPipeEnv.inv (MemPipeEnv.destroy e)) as [Hp' _ _ _].
  { eapply MemPipeEnv.env_inv_step, (MemPipeEnv.step_cancel _ None true).
    eapply MemPipeEnv.env_inv_step, (MemPipeEnv.step_cancel _ None false). done. }
  assert (∀ l : list MemPipeEnv.promise_data, filter (λ el, ¬ Is_true (MemPipeEnv.selected None el)) l = []) as Hnone.
  { intros l. induction l as [|a l IH]; [done|]. rewrite filter_cons, decide_False; [done|]. intros Hn. by apply Hn. }
  unfold MemPipeEnv.promises in Hp'. simpl in Hp'. by rewrite !Hnone in Hp'.
Qed.

Lemma env_matching_witness :
  MemPipeEnv.endpoints (MemPipeEnv.log (MemPipeEnv.open_pipe 5 None (MemPipeEnv.create_pipe 5 None MemPipeEnv.create)))
    ≡ₚ [MemPipeEnv.Endpoint 0 true; MemPipeEnv.Endpoint 0 false].
Proof.
  refine (proj1 (proj2 (proj2 (proj2 (env_matching
            (MemPipeEnv.open_pipe 5 None (MemPipeEnv.create_pipe 5 None MemPipeEnv.create)) _))))).
  eapply rtc_l; [apply (MemPipeEnv.step_new _ 5 true None)|].
  eapply rtc_l; [apply (MemPipeEnv.step_new _ 5 false None)|]. apply rtc_refl.
Defined.
