(* ===== verification/Connection.v ===== *)
(** * Connections

    [rpc-lib/internal/connection]: the request map, the receive loop, the send
    callbacks and the watcher of one end of an RPC connection, over a pipe
    endpoint and a service that are the environment.  Writes and the read the
    connection has started are outstanding until the endpoint completes them
    with some result; each callback is one step. *)
From S2P Require Import Prelude RpcTypes BigEndian TransferMessage TransferMessageFacts Timer.
Local Open Scope Z_scope.

(** ** connection_watcher *)
Module ConnectionWatcher.
Record connection_watcher : Type := mk {
  m_ping_period : Z;
  m_activity_flag : bool;
  m_start_ping_waiting : option Z
}.

Definition create (ping_period : Z) : connection_watcher := mk ping_period true None.

Definition check_and_drop_activity_flag (w : connection_watcher) : bool * connection_watcher :=
  (m_activity_flag w, mk (m_ping_period w) false (m_start_ping_waiting w)).

Definition set_activity_flag (w : connection_watcher) : connection_watcher :=
  mk (m_ping_period w) true None.

Definition set_ping_waiting (now : Z) (w : connection_watcher) : connection_watcher :=
  match m_start_ping_waiting w with
  | None => mk (m_ping_period w) (m_activity_flag w) (Some now)
  | Some _ => w
  end.

Definition is_connection_not_responding (now : Z) (w : connection_watcher) : bool :=
  match m_start_ping_waiting w with
  | Some t => bool_decide (t + m_ping_period w < now)
  | None => false
  end.
End ConnectionWatcher.

Module Connection.
Import ConnectionWatcher.
Abbreviation message := (list Z).
Abbreviation timer := (MultipleTimer.multiple_timer Z).

(** What the readers of the transfer message return on the bytes of a message
    ([get_transfer_msg_type_run], [get_msg_number_res_run] and
    [get_msg_number_req_run] of the format's development); [None] is the
    exception. *)
Definition read_type (m : message) : option MsgType.transfer_msg_type := MsgType.of_byte <$> m !! 0%nat.
Definition read_number_res (m : message) : option Z :=
  if res_valid m then Some (be_decode (slice (5 + proto_size m) 8 m)) else None.
Definition read_number_req (m : message) : option Z :=
  if req_valid m then Some (be_decode (slice (5 + proto_size m) 8 m)) else None.

Inductive conn_state : Type := never_started | started | deactivated.
#[global] Instance conn_state_eq_dec : EqDecision conn_state.
Proof. solve_decision. Defined.

Record request_data : Type := RequestData {
  promise : nat;
  timer_id : Z;
  is_req_sent : bool;
  fail_req_result : option RequestResult.request_result
}.

(** Writes the endpoint has not completed: a request, or a message whose
    result nobody looks at. *)
Inductive send : Type :=
| SendRequest (number : Z) (m : message)
| SendOther (m : message).

Record completion : Type := Completion {
  c_promise : nat;
  c_result : RequestResult.request_result;
  c_response : message
}.

(** [is_running] is the state of the pipe, [receiving] whether a read is
    outstanding, [serving] the requests the service works on and
    [last_activity] the time a message was last dispatched. *)
Record impl : Type := mk {
  m_state : conn_state;
  is_running : bool;
  has_service : bool;
  m_request_map : gmap Z request_data;
  m_multiple_timer : timer;
  m_watcher_timer : PeriodicTimer.periodic_timer;
  m_watcher : connection_watcher;
  sends : list send;
  receiving : bool;
  serving : list message;
  next_promise : nat;
  log : list completion;
  now : Z;
  last_activity : Z
}.

Definition create (service : bool) (ping_timeout : Z) : impl :=
  mk never_started true service ∅ MultipleTimer.create PeriodicTimer.create
     (ConnectionWatcher.create ping_timeout) [] false [] 0 [] 0 0.

(** Field updates. *)
Definition with_map (m : gmap Z request_data) (t : timer) (l : list completion) (c : impl) : impl :=
  mk (m_state c) (is_running c) (has_service c) m t (m_watcher_timer c) (m_watcher c) (sends c)
     (receiving c) (serving c) (next_promise c) l (now c) (last_activity c).
Definition with_sends (s : list send) (c : impl) : impl :=
  mk (m_state c) (is_running c) (has_service c) (m_request_map c) (m_multiple_timer c) (m_watcher_timer c)
     (m_watcher c) s (receiving c) (serving c) (next_promise c) (log c) (now c) (last_activity c).
Definition with_receiving (r : bool) (c : impl) : impl :=
  mk (m_state c) (is_running c) (has_service c) (m_request_map c) (m_multiple_timer c) (m_watcher_timer c)
     (m_watcher c) (sends c) r (serving c) (next_promise c) (log c) (now c) (last_activity c).
Definition with_serving (s : list message) (c : impl) : impl :=
  mk (m_state c) (is_running c) (has_service c) (m_request_map c) (m_multiple_timer c) (m_watcher_timer c)
     (m_watcher c) (sends c) (receiving c) s (next_promise c) (log c) (now c) (last_activity c).
Definition with_watcher (w : connection_watcher) (a : Z) (c : impl) : impl :=
  mk (m_state c) (is_running c) (has_service c) (m_request_map c) (m_multiple_timer c) (m_watcher_timer c)
     w (sends c) (receiving c) (serving c) (next_promise c) (log c) (now c) a.
Definition with_watcher_timer (t : PeriodicTimer.periodic_timer) (c : impl) : impl :=
  mk (m_state c) (is_running c) (has_service c) (m_request_map c) (m_multiple_timer c) t
     (m_watcher c) (sends c) (receiving c) (serving c) (next_promise c) (log c) (now c) (last_activity c).
Definition with_state (s : conn_state) (r : bool) (c : impl) : impl :=
  mk s r (has_service c) (m_request_map c) (m_multiple_timer c) (m_watcher_timer c)
     (m_watcher c) (sends c) (receiving c) (serving c) (next_promise c) (log c) (now c) (last_activity c).
Definition with_now (n : Z) (c : impl) : impl :=
  mk (m_state c) (is_running c) (has_service c) (m_request_map c) (m_multiple_timer c) (m_watcher_timer c)
     (m_watcher c) (sends c) (receiving c) (serving c) (next_promise c) (log c) n (last_activity c).

(** [transport::send_async]. *)
Definition send_async (s : send) (c : impl) : impl := with_sends (sends c ++ [s]) c.

Definition start_watching (c : impl) : impl :=
  match PeriodicTimer.start (2 ^ 64 - 1) (m_watcher_timer c) with
  | Ok _ t => with_watcher_timer t c
  | _ => c
  end.

Definition do_receive_async (c : impl) : impl := with_receiving true c.

Definition start (c : impl) : impl :=
  if decide (m_state c = never_started)
  then do_receive_async (start_watching (with_state started (is_running c) c))
  else c.

Definition deactivate (c : impl) : impl := with_state deactivated false c.
Definition is_active (c : impl) : bool := bool_decide (m_state c = started) && is_running c.

(** [set_value] of the promise of a request. *)
Definition complete (p : nat) (r : RequestResult.request_result) (m : message) (l : list completion) : list completion :=
  l ++ [Completion p r m].

Definition complete_request (number : Z) (r : RequestResult.request_result) (res : message) (c : impl) : impl :=
  match m_request_map c !! number with
  | Some d =>
      with_map (delete number (m_request_map c)) (MultipleTimer.cancel (timer_id d) (m_multiple_timer c))
               (complete (promise d) r res (log c)) c
  | None => c
  end.

Definition process_request_sent (number : Z) (c : impl) : impl :=
  match m_request_map c !! number with
  | Some d =>
      match fail_req_result d with
      | Some r => with_map (delete number (m_request_map c)) (m_multiple_timer c) (complete (promise d) r [] (log c)) c
      | None =>
          with_map (<[number := RequestData (promise d) (timer_id d) true None]> (m_request_map c))
                   (m_multiple_timer c) (log c) c
      end
  | None => c
  end.

(** The map insertion and the timer of [add_request_to_map]. *)
Definition add_request_to_map (number : Z) (p : nat) (c : impl) : impl :=
  let '(t, timer') := MultipleTimer.start number (m_multiple_timer c) in
  with_map (<[number := RequestData p t false None]> (m_request_map c)) timer' (log c) c.

(** A request that is not accepted gets a ready future. *)
Definition request_async (number : Z) (m : message) (c : impl) : impl :=
  let p := next_promise c in
  let c' := mk (m_state c) (is_running c) (has_service c) (m_request_map c) (m_multiple_timer c) (m_watcher_timer c)
               (m_watcher c) (sends c) (receiving c) (serving c) (S p) (log c) (now c) (last_activity c) in
  if bool_decide (m_state c ≠ started) || negb (is_running c)
  then with_map (m_request_map c') (m_multiple_timer c') (complete p RequestResult.failed [] (log c')) c'
  else send_async (SendRequest number m) (add_request_to_map number p c').

(** The callback of the write of a request. *)
Definition send_callback (number : Z) (result : PipeOpRes.pipe_op_res) (c : impl) : impl :=
  match result with
  | PipeOpRes.success => process_request_sent number c
  | PipeOpRes.canceled => complete_request number RequestResult.send_canceled [] c
  | PipeOpRes.timeout => complete_request number RequestResult.send_timeout [] c
  | PipeOpRes.failed => complete_request number RequestResult.send_failed [] c
  end.

Definition ping : message := [MsgType.to_byte MsgType.ping].
Definition pong : message := [MsgType.to_byte MsgType.pong].

Definition handle_received_request (m : message) (c : impl) : impl :=
  if has_service c then with_serving (serving c ++ [m]) c else c.

(** [None]: the exception of an invalid response. *)
Definition handle_received_response (m : message) (c : impl) : option impl :=
  match read_number_res m with
  | Some number => Some (complete_request number RequestResult.ok m c)
  | None => None
  end.

Definition handle_received_ping (c : impl) : impl := send_async (SendOther pong) c.
Definition handle_received_pong (c : impl) : impl := c.

(** Exceptions are caught and leave the activity flag alone; a message of an
    unknown type only sets it (its assertion is a debugging aid). *)
Definition dispatch_receive_event (m : message) (c : impl) : impl :=
  let handled :=
    match read_type m with
    | None => None
    | Some MsgType.req => Some (handle_received_request m c)
    | Some MsgType.res => handle_received_response m c
    | Some MsgType.ping => Some (handle_received_ping c)
    | Some MsgType.pong => Some (handle_received_pong c)
    | Some (MsgType.unlisted _) => Some c
    end in
  match handled with
  | Some c' => with_watcher (set_activity_flag (m_watcher c')) (now c') c'
  | None => c
  end.

(** The response of the service to a request is sent. *)
Definition service_done (res : message) (c : impl) : impl := send_async (SendOther res) c.

Definition process_watch_event (c : impl) : impl :=
  if is_connection_not_responding (now c) (m_watcher c) then deactivate c
  else
    let '(active, w) := check_and_drop_activity_flag (m_watcher c) in
    if active then with_watcher w (last_activity c) c
    else send_async (SendOther ping) (with_watcher (set_ping_waiting (now c) w) (last_activity c) c).

Definition receive_fail_result (r : PipeOpRes.pipe_op_res) : RequestResult.request_result :=
  if decide (PipeOpRes.canceled = r) then RequestResult.canceled else RequestResult.failed.

(** The requests that are on the way out wait for their send callback. *)
Definition mark_failed (r : RequestResult.request_result) (d : request_data) : request_data :=
  RequestData (promise d) (timer_id d) (is_req_sent d) (Some r).

Definition complete_receive_routine (r : PipeOpRes.pipe_op_res) (c : impl) : impl :=
  let req_result := receive_fail_result r in
  let m := m_request_map c in
  let sent := filter (λ kd, is_req_sent kd.2 = true) m in
  let kept := filter (λ kd, is_req_sent kd.2 = false) m in
  with_watcher_timer (PeriodicTimer.stop_async None (m_watcher_timer c))
    (with_map (mark_failed req_result <$> kept)
       (foldl (λ t d, MultipleTimer.cancel (timer_id d) t) (m_multiple_timer c) (map_to_list m).*2)
       (log c ++ ((λ d, Completion (promise d) req_result []) <$> (map_to_list sent).*2)) c).

Definition get_pending_requests_count (c : impl) : nat := size (m_request_map c).
Definition get_active_timers_count (c : impl) : nat := MultipleTimer.get_active_timers_count (m_multiple_timer c).

(** ** Steps *)
Definition complete_send (s : send) (r : PipeOpRes.pipe_op_res) (c : impl) : impl :=
  match s with SendRequest number _ => send_callback number r c | SendOther _ => c end.

Inductive step (c : impl) : impl → Prop :=
| step_start : step c (start c)
| step_deactivate : step c (deactivate c)
| step_disconnect : step c (with_state (m_state c) false c)
| step_request number m :
    m_request_map c !! number = None → read_number_req m = Some number →
    MultipleTimer.m_next_id (m_multiple_timer c) < 2 ^ 64 - 1 → step c (request_async number m c)
| step_send s1 s s2 r : sends c = s1 ++ s :: s2 → step c (complete_send s r (with_sends (s1 ++ s2) c))
| step_receive m : receiving c = true → step c (do_receive_async (dispatch_receive_event m c))
| step_receive_fail r :
    receiving c = true → r = PipeOpRes.canceled ∨ r = PipeOpRes.failed →
    step c (complete_receive_routine r (with_receiving false c))
| step_service s1 m s2 res : serving c = s1 ++ m :: s2 → step c (service_done res (with_serving (s1 ++ s2) c))
| step_timer_expire t :
    step c (with_map (m_request_map c) (MultipleTimer.expire t (m_multiple_timer c)) (log c) c)
| step_timer t fired timer' :
    MultipleTimer.run_handler t (m_multiple_timer c) = Some (fired, timer') →
    let c' := with_map (m_request_map c) timer' (log c) c in
    step c (match fired with Some number => complete_request number RequestResult.timeout [] c' | None => c' end)
| step_watch_timer t :
    PeriodicTimer.io_step (m_watcher_timer c) t → PeriodicTimer.m_timer t ≠ PeriodicTimer.InCallback →
    step c (with_watcher_timer t c)
| step_watch t :
    PeriodicTimer.handler (m_watcher_timer c) = Some t → PeriodicTimer.m_timer t = PeriodicTimer.InCallback →
    step c (process_watch_event (with_watcher_timer t c))
| step_tick n : now c ≤ n → step c (with_now n c).
End Connection.
