(* ===== verification/ConnectionFacts.v ===== *)
(** * Correctness of connections

    Every request is completed exactly once, none is forgotten, and the watcher
    ends exactly the connections whose peer is silent. *)
From S2P Require Import Prelude RpcTypes BigEndian TransferMessage TransferMessageFacts Timer Connection.
Import Connection.
Local Open Scope Z_scope.

(** ** Promises in the request map *)
Definition pend (x : nat) (m : gmap Z request_data) : nat := occ x (promise <$> (map_to_list m).*2).

Lemma pend_empty x : pend x ∅ = 0%nat.
Proof. done. Qed.

Lemma pend_insert x n d m :
  m !! n = None → pend x (<[n := d]> m) = ((if decide (x = promise d) then 1 else 0) + pend x m)%nat.
Proof.
  intros Hn. unfold pend.
  assert (promise <$> (map_to_list (<[n:=d]> m)).*2 ≡ₚ promise d :: (promise <$> (map_to_list m).*2)) as Hp.
  { by rewrite map_to_list_insert. }
  rewrite (proj1 (occ_perm _ _) Hp x). apply occ_cons.
Qed.

Lemma pend_delete x n d m :
  m !! n = Some d → pend x m = ((if decide (x = promise d) then 1 else 0) + pend x (delete n m))%nat.
Proof. intros Hn. rewrite <- (pend_insert x n d) by apply lookup_delete_eq. by rewrite insert_delete_id. Qed.

Lemma pend_update x n d d' m :
  m !! n = Some d → promise d' = promise d → pend x (<[n := d']> m) = pend x m.
Proof.
  intros Hn Hp. rewrite <- insert_delete_eq, pend_insert by apply lookup_delete_eq. rewrite Hp. symmetry. by apply pend_delete.
Qed.

Lemma pend_fmap x f m : (∀ d, promise (f d) = promise d) → pend x (f <$> m) = pend x m.
Proof.
  intros Hf. induction m as [|n d m Hn IH] using map_ind; [by rewrite fmap_empty|].
  rewrite fmap_insert, !pend_insert, Hf by (done || by rewrite lookup_fmap, Hn). by rewrite IH.
Qed.

Lemma pend_split x (P : request_data → bool) m :
  (pend x (filter (λ kd, P kd.2 = true) m) + pend x (filter (λ kd, P kd.2 = false) m))%nat = pend x m.
Proof.
  induction m as [|n d m Hn IH] using map_ind; [by rewrite !map_filter_empty|].
  assert (∀ b, filter (λ kd : Z * request_data, P kd.2 = b) m !! n = None) as Hnf.
  { intros b. apply map_lookup_filter_None. by left. }
  destruct (P d) eqn:Ed.
  - rewrite map_filter_insert_True, map_filter_insert_False, delete_id by (done || simpl; congruence).
    rewrite !pend_insert by done. lia.
  - rewrite map_filter_insert_False, map_filter_insert_True, delete_id by (done || simpl; congruence).
    rewrite !pend_insert by done. lia.
Qed.

(** ** The invariant *)
Definition live (t : timer) (n : Z) (d : request_data) : Prop :=
  ∃ w, MultipleTimer.handlers t !! timer_id d = Some (w, n) ∧ w ≠ Queued true.

(** The timer number of a request is used for nothing else. *)
Definition owned (t : timer) (n : Z) (d : request_data) : Prop :=
  timer_id d < MultipleTimer.m_next_id t ∧ ∀ w p, MultipleTimer.handlers t !! timer_id d = Some (w, p) → p = n.

Definition entry_ok (t : timer) (ss : list send) (n : Z) (d : request_data) : Prop :=
  (is_req_sent d = false → ∃ m, SendRequest n m ∈ ss) ∧
  (fail_req_result d = None → live t n d) ∧
  (fail_req_result d ≠ None → is_req_sent d = false) ∧ owned t n d.

Record inv (c : impl) : Prop := {
  inv_once x : (occ x (c_promise <$> log c) + pend x (m_request_map c))%nat
               = if decide (x < next_promise c)%nat then 1%nat else 0%nat;
  inv_timer : MultipleTimer.wf (m_multiple_timer c);
  inv_entries n d : m_request_map c !! n = Some d → entry_ok (m_multiple_timer c) (sends c) n d;
  inv_activity : last_activity c ≤ now c;
  inv_waiting t : ConnectionWatcher.m_start_ping_waiting (m_watcher c) = Some t → last_activity c ≤ t ≤ now c
}.

Lemma conn_inv_create service ping : inv (create service ping).
Proof. by split. Qed.

Lemma entry_ok_sends t ss ss' n d :
  (∀ m, SendRequest n m ∈ ss → SendRequest n m ∈ ss') → entry_ok t ss n d → entry_ok t ss' n d.
Proof. intros Hs (H1 & H2 & H3). split_and!; try apply H3; [|done]. intros Hf. destruct (H1 Hf) as [m Hm]. eauto. Qed.

Lemma entry_ok_timer t t' ss n d :
  (live t n d → live t' n d) → (owned t n d → owned t' n d) → entry_ok t ss n d → entry_ok t' ss n d.
Proof. intros Hl Ho (H1 & H2 & H3 & H4). split_and!; auto; by apply Ho. Qed.

(** Cancelling a timer changes no owner. *)
Lemma owned_cancel i t n d : owned t n d → owned (MultipleTimer.cancel i t) n d.
Proof.
  intros [Hl Hp]. unfold MultipleTimer.cancel. case_decide; [|done]. split; [done|]. simpl. intros w p.
  destruct (decide (i = timer_id d)) as [->|Hne]; [|rewrite lookup_alter_ne by done; apply Hp].
  rewrite lookup_alter_eq. destruct (MultipleTimer.handlers t !! timer_id d) as [[w' p']|] eqn:E; [|done].
  simpl. intros [= _ <-]. by eapply Hp.
Qed.

(** Cancelling the timer of a request keeps those of the others alive. *)
Lemma live_cancel t n d n' d' :
  owned t n d → n ≠ n' → live t n' d' → live (MultipleTimer.cancel (timer_id d) t) n' d'.
Proof.
  intros [_ Ho] Hn (w & Hw & Hne). exists w. split; [|done]. unfold MultipleTimer.cancel. case_decide; [|done]. simpl.
  rewrite lookup_alter_ne; [done|]. intros Heq. rewrite <- Heq in Hw. apply Ho in Hw. congruence.
Qed.

Lemma live_expire i t n d : live t n d → live (MultipleTimer.expire i t) n d.
Proof.
  intros (w & Hw & Hne). unfold live. simpl. destruct (decide (i = timer_id d)) as [->|].
  - rewrite lookup_alter_eq, Hw. simpl. eexists. split; [done|]. by destruct w.
  - rewrite lookup_alter_ne by done. eauto.
Qed.

Lemma owned_expire i t n d : owned t n d → owned (MultipleTimer.expire i t) n d.
Proof.
  intros [Hl Hp]. split; [done|]. simpl. intros w p.
  destruct (decide (i = timer_id d)) as [->|Hne]; [|rewrite lookup_alter_ne by done; apply Hp].
  rewrite lookup_alter_eq. destruct (MultipleTimer.handlers t !! timer_id d) as [[w' p']|] eqn:E; [|done].
  simpl. intros [= _ <-]. by eapply Hp.
Qed.

Lemma wf_cancel i (t : timer) : MultipleTimer.wf t → MultipleTimer.wf (MultipleTimer.cancel i t).
Proof. intros H. eapply MultipleTimer.step_wf; [done|constructor]. Qed.

(** ** Completing one request *)
Lemma inv_finish c n d r m t :
  inv c → m_request_map c !! n = Some d → t = m_multiple_timer c ∨ t = MultipleTimer.cancel (timer_id d) (m_multiple_timer c) →
  inv (with_map (delete n (m_request_map c)) t (complete (promise d) r m (log c)) c).
Proof.
  intros I Hn Ht. pose proof I as [Ho Hw He Ha Hp]. destruct (He n d Hn) as (_ & _ & _ & Hown). split; simpl; try done.
  - intros x. rewrite <- Ho, (pend_delete x n d _ Hn). unfold complete. rewrite fmap_app, occ_app. simpl.
    rewrite occ_cons, occ_nil. lia.
  - destruct Ht as [-> | ->]; [done|by apply wf_cancel].
  - intros n' d' [Hne Hn']%lookup_delete_Some. specialize (He n' d' Hn'). destruct Ht as [-> | ->]; [done|].
    eapply entry_ok_timer, He; [by eapply live_cancel|by apply owned_cancel].
Qed.

Lemma inv_complete_request c n r m : inv c → inv (complete_request n r m c).
Proof.
  intros I. unfold complete_request. destruct (m_request_map c !! n) as [d|] eqn:Hn; [|done].
  apply (inv_finish c n d); auto.
Qed.

(** The map, the timers, the sends and the promises are all the invariant sees
    of a request. *)
Lemma inv_frame c c' :
  m_request_map c' = m_request_map c → m_multiple_timer c' = m_multiple_timer c → sends c' = sends c →
  next_promise c' = next_promise c → log c' = log c → now c' = now c → last_activity c' = last_activity c →
  ConnectionWatcher.m_start_ping_waiting (m_watcher c') = ConnectionWatcher.m_start_ping_waiting (m_watcher c) →
  inv c → inv c'.
Proof. intros E1 E2 E3 E4 E5 E6 E7 E8 [H1 H2 H3 H4 H5]. split; rewrite ?E1, ?E2, ?E3, ?E4, ?E5, ?E6, ?E7, ?E8; done. Qed.

Lemma inv_send s c : inv c → inv (send_async s c).
Proof.
  intros [Ho Hw He Ha Hp]. split; simpl; try done. intros n d Hn. eapply entry_ok_sends, He, Hn.
  intros m Hm. apply elem_of_app. by left.
Qed.

Lemma inv_complete_send c s1 s s2 r :
  inv c → sends c = s1 ++ s :: s2 → inv (complete_send s r (with_sends (s1 ++ s2) c)).
Proof.
  intros I Hs. pose proof I as [Ho Hw He Ha Hp].
  assert (∀ n m, SendRequest n m ∈ sends c → SendRequest n m ≠ s → SendRequest n m ∈ s1 ++ s2) as Hkeep.
  { intros n m. rewrite Hs, !elem_of_app, elem_of_cons. tauto. }
  destruct s as [n m|m]; simpl.
  2: { split; simpl; try done. intros n' d' Hn'. eapply entry_ok_sends, He, Hn'. intros m' Hm'. by apply Hkeep. }
  (* without the entry of [n] the sends may be dropped *)
  assert (∀ M t l, (∀ n' d', M !! n' = Some d' → n' ≠ n ∧ entry_ok t (sends c) n' d') → 
            inv (with_map M t l c) → inv (with_map M t l (with_sends (s1 ++ s2) c))) as Hdrop.
  { intros M t l HM [Ho' Hw' He' Ha' Hp']. split; simpl in *; try done. intros n' d' Hn'.
    destruct (HM n' d' Hn') as [Hne Hok]. eapply entry_ok_sends, Hok. intros m' Hm'. apply Hkeep; [done|congruence]. }
  assert (m_request_map c !! n = None → inv (with_sends (s1 ++ s2) c)) as Hnone.
  { intros Hn. split; simpl; try done. intros n' d' Hn'. eapply entry_ok_sends, He, Hn'.
    intros m' Hm'. apply Hkeep; [done|]. intros [= -> _]. congruence. }
  assert (∀ r m' t, t = m_multiple_timer c ∨
             (∃ d, m_request_map c !! n = Some d ∧ t = MultipleTimer.cancel (timer_id d) (m_multiple_timer c)) →
            ∀ d, m_request_map c !! n = Some d →
            inv (with_map (delete n (m_request_map c)) t (complete (promise d) r m' (log c)) (with_sends (s1 ++ s2) c))) as Hfin.
  { intros r' m' t Ht d Hn. assert (t = m_multiple_timer c ∨ t = MultipleTimer.cancel (timer_id d) (m_multiple_timer c)) as Ht'.
    { destruct Ht as [->|(d' & Hd' & ->)]; [by left|right]. congruence. }
    pose proof (inv_finish c n d r' m' t I Hn Ht') as I'. apply Hdrop; [|done]. intros n' d' Hn'. split; [|by apply (inv_entries _ I')].
    by apply lookup_delete_Some in Hn' as [? _]. }
  destruct r; simpl.
  - unfold process_request_sent. simpl. destruct (m_request_map c !! n) as [d|] eqn:Hn; [|by apply Hnone].
    destruct (fail_req_result d) as [fr|] eqn:Ef; [by apply Hfin; [left|]|].
    destruct (He n d Hn) as (_ & Hlv & _ & Hown). split; simpl; try done.
    + intros x. by rewrite (pend_update x n d) by done.
    + intros n' d' [[<- <-]|[Hne Hn']]%lookup_insert_Some.
      * split_and!; simpl; try done. intros _. exact (Hlv Ef).
      * eapply entry_ok_sends, He, Hn'. intros m' Hm'. apply Hkeep; [done|congruence].
  - unfold complete_request. simpl. destruct (m_request_map c !! n) as [d|] eqn:Hn; [|by apply Hnone]. apply Hfin; eauto.
  - unfold complete_request. simpl. destruct (m_request_map c !! n) as [d|] eqn:Hn; [|by apply Hnone]. apply Hfin; eauto.
  - unfold complete_request. simpl. destruct (m_request_map c !! n) as [d|] eqn:Hn; [|by apply Hnone]. apply Hfin; eauto.
Qed.

(** ** Starting a request *)
Lemma inv_request n m c :
  inv c → m_request_map c !! n = None → MultipleTimer.m_next_id (m_multiple_timer c) < 2 ^ 64 - 1 →
  inv (request_async n m c).
Proof.
  intros [Ho Hw He Ha Hp] Hn Ht.
  assert (∀ x, (occ x (c_promise <$> log c) + pend x (m_request_map c) + (if decide (x = next_promise c) then 1 else 0))%nat
               = if decide (x < S (next_promise c))%nat then 1%nat else 0%nat) as Hnext.
  { intros x. rewrite Ho. repeat case_decide; lia. }
  unfold request_async. case_match.
  - split; simpl; try done. intros x. rewrite <- Hnext. unfold complete. rewrite fmap_app, occ_app. simpl.
    rewrite occ_cons, occ_nil. lia.
  - pose proof (MultipleTimer.wf_next _ Hw) as Hr. split; simpl; try done.
    + intros x. rewrite <- Hnext, pend_insert by done. simpl. lia.
    + by eapply MultipleTimer.step_wf, (MultipleTimer.step_start (m_multiple_timer c)).
    + intros n' d' [[<- <-]|[Hne Hn']]%lookup_insert_Some.
      * split_and!; simpl; try done.
        -- intros _. exists m. apply elem_of_app. right. by apply list_elem_of_singleton.
        -- intros _. exists Waiting. simpl. by rewrite lookup_insert_eq.
        -- split; simpl; [rewrite wrap_small; lia|]. intros w p. rewrite lookup_insert_eq. by intros [= _ <-].
      * apply (entry_ok_sends _ (sends c)); [intros m' Hm'; apply elem_of_app; by left|].
        eapply entry_ok_timer, He, Hn'.
        -- intros (w & Hw' & Hq). exists w. split; [|done]. simpl. rewrite lookup_insert_ne; [done|].
           intros Heq. rewrite <- Heq in Hw'.
           assert (MultipleTimer.m_next_id (m_multiple_timer c) ∈ MultipleTimer.m_timers_map (m_multiple_timer c)) as Hin.
           { rewrite <- (MultipleTimer.wf_dom _ Hw). by eapply elem_of_dom_2. }
           pose proof (MultipleTimer.wf_fresh _ Hw _ Hin). lia.
        -- intros [Hl Hpay]. split; simpl; [rewrite wrap_small by lia; lia|].
           intros w p. rewrite lookup_insert_ne by lia. apply Hpay.
Qed.

(** ** The end of the receive loop *)
Lemma wf_cancels (ds : list request_data) (t : timer) :
  MultipleTimer.wf t → MultipleTimer.wf (foldl (λ t d, MultipleTimer.cancel (timer_id d) t) t ds).
Proof. revert t. induction ds; simpl; auto using wf_cancel. Qed.

Lemma owned_cancels (ds : list request_data) (t : timer) n d :
  owned t n d → owned (foldl (λ t d, MultipleTimer.cancel (timer_id d) t) t ds) n d.
Proof. revert t. induction ds; simpl; auto using owned_cancel. Qed.

Lemma inv_complete_receive r c : inv c → inv (complete_receive_routine r c).
Proof.
  intros [Ho Hw He Ha Hp]. split; simpl; try done.
  - intros x. rewrite <- Ho, <- (pend_split x is_req_sent (m_request_map c)), pend_fmap by done.
    rewrite fmap_app, occ_app, <- list_fmap_compose. unfold pend. simpl.
    change (c_promise ∘ (λ d, Completion (promise d) (receive_fail_result r) [])) with promise. lia.
  - by apply wf_cancels.
  - intros n d. rewrite lookup_fmap, fmap_Some. intros (d0 & [Hd0 Hsent]%map_lookup_filter_Some & ->). simpl in Hsent.
    destruct (He n d0 Hd0) as (H1 & _ & _ & H4). split_and!; simpl; auto.
    + done.
    + apply (owned_cancels _ _ n d0 H4).
Qed.

Lemma inv_dispatch m c : inv c → inv (dispatch_receive_event m c).
Proof.
  intros I. unfold dispatch_receive_event.
  assert (∀ c', inv c' → inv (with_watcher (ConnectionWatcher.set_activity_flag (m_watcher c')) (now c') c')) as Hset.
  { intros c' [Ho Hw He Ha Hp]. split; simpl; done. }
  destruct (read_type m) as [[| | | |b]|]; try (by apply Hset); try done.
  - apply Hset. unfold handle_received_request. destruct (has_service c); [|done]. by eapply inv_frame, I.
  - unfold handle_received_response. destruct (read_number_res m); [|done]. by apply Hset, inv_complete_request.
  - by apply Hset, inv_send.
Qed.

Lemma inv_watch c : inv c → inv (process_watch_event c).
Proof.
  intros I. pose proof I as [Ho Hw He Ha Hp]. unfold process_watch_event.
  destruct (ConnectionWatcher.is_connection_not_responding _ _); [by eapply inv_frame, I|].
  unfold ConnectionWatcher.check_and_drop_activity_flag.
  destruct (ConnectionWatcher.m_activity_flag (m_watcher c)); [by eapply inv_frame, I|]. apply inv_send.
  split; simpl; try done. intros t. unfold ConnectionWatcher.set_ping_waiting. simpl.
  destruct (ConnectionWatcher.m_start_ping_waiting (m_watcher c)) as [t0|] eqn:Et; simpl.
  - rewrite ?Et. intros [= <-]. by apply Hp.
  - intros [= <-]. lia.
Qed.

Lemma conn_inv_run_timer t fired timer' c :
  inv c → MultipleTimer.run_handler t (m_multiple_timer c) = Some (fired, timer') →
  let c' := with_map (m_request_map c) timer' (log c) c in
  inv (match fired with Some n => complete_request n RequestResult.timeout [] c' | None => c' end).
Proof.
  intros I Hr. pose proof I as [Ho Hw He Ha Hp].
  assert (MultipleTimer.wf timer') as Hwf by (by eapply MultipleTimer.step_wf, MultipleTimer.step_run).
  unfold MultipleTimer.run_handler in Hr.
  destruct (MultipleTimer.handlers (m_multiple_timer c) !! t) as [[[|ec] n]|] eqn:Eh; simplify_eq.
  (* requests other than [n] keep their timer; the request [n] has it gone *)
  assert (∀ n' d', m_request_map c !! n' = Some d' → n' ≠ n ∨ ec = true ∨ timer_id d' ≠ t →
     entry_ok (MultipleTimer.mk (MultipleTimer.m_next_id (m_multiple_timer c))
                 (MultipleTimer.m_timers_map (m_multiple_timer c) ∖ {[t]})
                 (delete t (MultipleTimer.handlers (m_multiple_timer c)))) (sends c) n' d') as Hkeep.
  { intros n' d' Hn' Hc. specialize (He n' d' Hn'). eapply entry_ok_timer, He.
    - intros (w & Hw' & Hq). exists w. split; [|done]. simpl. rewrite lookup_delete_ne; [done|]. intros Heq.
      rewrite <- Heq, Eh in Hw'. simplify_eq. destruct ec; [done|]. destruct Hc as [Hc|[Hc|Hc]]; congruence.
    - intros [Hl Hpay]. split; [done|]. simpl. intros w p [_ Hlk]%lookup_delete_Some. by eapply Hpay. }
  destruct ec; simpl.
  - split; simpl; try done. intros n' d' Hn'. apply Hkeep; auto.
  - unfold complete_request. simpl. destruct (m_request_map c !! n) as [d|] eqn:Hn.
    + split; simpl; try done.
      * intros x. rewrite <- Ho, (pend_delete x n d _ Hn). unfold complete. rewrite fmap_app, occ_app. simpl.
        rewrite occ_cons, occ_nil. lia.
      * by apply wf_cancel.
      * intros n' d' [Hne Hn']%lookup_delete_Some.
        eapply entry_ok_timer, Hkeep; [| |done|by left; apply not_eq_sym].
        -- apply (live_cancel _ n d); [|done]. destruct (He n d Hn) as (_ & _ & _ & Hl & Hpay). split; [done|]. simpl.
           intros w p [_ Hlk]%lookup_delete_Some. by eapply Hpay.
        -- apply owned_cancel.
    + split; simpl; try done. intros n' d' Hn'. apply Hkeep; [done|]. left. congruence.
Qed.

Lemma conn_inv_step c c' : inv c → step c c' → inv c'.
Proof.
  intros I Hs. pose proof I as [Ho Hw He Ha Hp].
  destruct Hs as [| | |n m Hn _ Ht|s1 s s2 r Hs|m Hr|r Hr Hc|s1 m s2 res Hs|t|t fired timer' Hr|t Hio Ht|t Hh Ht|n Hn].
  - unfold start. case_decide; [|done]. unfold start_watching. case_match; by eapply inv_frame, I.
  - by eapply inv_frame, I.
  - by eapply inv_frame, I.
  - by apply inv_request.
  - by apply inv_complete_send.
  - eapply inv_frame, (inv_dispatch m c I); done.
  - apply inv_complete_receive. by eapply inv_frame, I.
  - apply inv_send. by eapply inv_frame, I.
  - split; simpl; try done; [by eapply MultipleTimer.step_wf; [|constructor]|].
    intros n d Hn. eapply entry_ok_timer, He, Hn; [apply live_expire|apply owned_expire].
  - by eapply conn_inv_run_timer.
  - by eapply inv_frame, I.
  - apply inv_watch. by eapply inv_frame, I.
  - split; simpl; try done; [lia|]. intros t Ht. specialize (Hp t Ht). lia.
Qed.

Lemma conn_reachable_inv service ping c : rtc step (create service ping) c → inv c.
Proof.
  apply rtc_invariant; eauto using conn_inv_create, conn_inv_step.
Qed.

(** ** The watcher *)
Definition dead (c : impl) : Prop := m_state c = deactivated ∧ is_running c = false.

Lemma dead_watch c : dead c → dead (process_watch_event c).
Proof.
  intros Hd. unfold process_watch_event. destruct (ConnectionWatcher.is_connection_not_responding _ _); [done|].
  unfold ConnectionWatcher.check_and_drop_activity_flag. by destruct (ConnectionWatcher.m_activity_flag (m_watcher c)).
Qed.

(** The first check without a message drops the flag. *)
Lemma watch_drops_flag c :
  dead (process_watch_event c) ∨
  ConnectionWatcher.m_activity_flag (m_watcher (process_watch_event c)) = false ∧
  ConnectionWatcher.m_ping_period (m_watcher (process_watch_event c)) = ConnectionWatcher.m_ping_period (m_watcher c) ∧
  ∀ t, ConnectionWatcher.m_start_ping_waiting (m_watcher (process_watch_event c)) = Some t →
       t = now c ∨ ConnectionWatcher.m_start_ping_waiting (m_watcher c) = Some t.
Proof.
  unfold process_watch_event. destruct (ConnectionWatcher.is_connection_not_responding _ _); [by left|right].
  unfold ConnectionWatcher.check_and_drop_activity_flag, ConnectionWatcher.set_ping_waiting.
  destruct (ConnectionWatcher.m_activity_flag (m_watcher c)); simpl; [by split_and!; auto|].
  destruct (ConnectionWatcher.m_start_ping_waiting (m_watcher c)) as [t0|] eqn:Et; simpl; split_and!; try done.
  - intros t Ht. right. congruence.
  - intros t [= <-]. by left.
Qed.

(** The next one starts to wait for the answer to a ping. *)
Lemma watch_starts_waiting c :
  ConnectionWatcher.m_activity_flag (m_watcher c) = false →
  dead (process_watch_event c) ∨
  ConnectionWatcher.m_ping_period (m_watcher (process_watch_event c)) = ConnectionWatcher.m_ping_period (m_watcher c) ∧
  ∃ t, ConnectionWatcher.m_start_ping_waiting (m_watcher (process_watch_event c)) = Some t ∧
       (t = now c ∨ ConnectionWatcher.m_start_ping_waiting (m_watcher c) = Some t).
Proof.
  intros Hf. unfold process_watch_event. destruct (ConnectionWatcher.is_connection_not_responding _ _); [by left|right].
  unfold ConnectionWatcher.check_and_drop_activity_flag, ConnectionWatcher.set_ping_waiting. rewrite Hf. simpl.
  destruct (ConnectionWatcher.m_start_ping_waiting (m_watcher c)) as [t0|] eqn:Et; simpl; rewrite ?Et; eauto.
Qed.

(** C31: every request promise is completed exactly once: at any time a promise
    handed out by [request_async] is either in the request map or in the log of
    completions, once, whatever the interleaving of responses, timeouts, send
    results and the end of the receive loop. *)
Theorem request_completed_once service ping c :
  rtc step (create service ping) c →
  ∀ x, (occ x (c_promise <$> log c) + pend x (m_request_map c))%nat
       = if decide (x < next_promise c)%nat then 1%nat else 0%nat.
Proof. intros Hr. apply inv_once. by eapply conn_reachable_inv. Qed.

(** C32: no request is forgotten: a pending request has a timer that waits or is
    about to fire with its number, or the receive loop has ended, its result is
    recorded, and the write of its message is still outstanding, whose callback
    removes it. *)
Theorem request_not_forgotten service ping c n d :
  rtc step (create service ping) c → m_request_map c !! n = Some d →
  (∃ w, MultipleTimer.handlers (m_multiple_timer c) !! timer_id d = Some (w, n) ∧ w ≠ Queued true) ∨
  (is_Some (fail_req_result d) ∧ is_req_sent d = false ∧ (∃ m, SendRequest n m ∈ sends c) ∧
   ∀ r, m_request_map (send_callback n r c) !! n = None).
Proof.
  intros Hr Hn. destruct (inv_entries _ (conn_reachable_inv _ _ _ Hr) n d Hn) as (H1 & H2 & H3 & _).
  destruct (fail_req_result d) as [fr|] eqn:Ef; [right|left; by apply H2].
  assert (is_req_sent d = false) as Hs by (by apply H3). split_and!; [done|done|by apply H1|].
  intros [| | |]; simpl; unfold process_request_sent, complete_request; rewrite Hn, ?Ef; simpl; apply lookup_delete_eq.
Qed.

(** When the receive loop ends, every request that was sent is completed with
    [canceled] or [failed] and leaves the map; the others stay, marked with that
    result, which the success of their write reports. *)
Theorem receive_end_completes r c n d :
  m_request_map c !! n = Some d →
  let c' := complete_receive_routine r c in
  if is_req_sent d
  then m_request_map c' !! n = None ∧ Completion (promise d) (receive_fail_result r) [] ∈ log c'
  else m_request_map c' !! n = Some (mark_failed (receive_fail_result r) d) ∧
       log (send_callback n PipeOpRes.success c') = log c' ++ [Completion (promise d) (receive_fail_result r) []].
Proof.
  intros Hn. simpl. destruct (is_req_sent d) eqn:Es.
  - split.
    + rewrite lookup_fmap. rewrite map_lookup_filter, Hn. simpl. rewrite Es. by case_guard.
    + apply elem_of_app. right. apply list_elem_of_fmap. exists d. split; [done|].
      apply list_elem_of_fmap. exists (n, d). split; [done|]. apply elem_of_map_to_list.
      by apply map_lookup_filter_Some.
  - assert (m_request_map (complete_receive_routine r c) !! n = Some (mark_failed (receive_fail_result r) d)) as Hl.
    { simpl. rewrite lookup_fmap. rewrite map_lookup_filter, Hn. simpl. rewrite Es. by case_guard. }
    split; [exact Hl|]. unfold process_request_sent. rewrite Hl. done.
Qed.

(** C33: the watcher ends a connection only after a silence longer than the ping
    period, and it does end a silent one: of three checks without a message in
    between, the last of which comes more than the ping period after the second,
    the third leaves the connection deactivated and its transport stopped. *)
Theorem watcher_detects_silence service ping c n2 n3 :
  rtc step (create service ping) c → now c ≤ n2 → n2 + ConnectionWatcher.m_ping_period (m_watcher c) < n3 →
  (m_state c = started → m_state (process_watch_event c) = deactivated →
   last_activity c + ConnectionWatcher.m_ping_period (m_watcher c) < now c) ∧
  let c2 := process_watch_event (with_now n2 (process_watch_event c)) in
  let c3 := process_watch_event (with_now n3 c2) in
  m_state c3 = deactivated ∧ is_running c3 = false.
Proof.
  intros Hr H2 H3. pose proof (conn_reachable_inv _ _ _ Hr) as I. split.
  - intros Hst. unfold process_watch_event, ConnectionWatcher.is_connection_not_responding.
    destruct (ConnectionWatcher.m_start_ping_waiting (m_watcher c)) as [t|] eqn:Et.
    + pose proof (inv_waiting _ I t Et) as Ht. case_bool_decide as Hb; [lia|]. simpl.
      destruct (ConnectionWatcher.m_activity_flag (m_watcher c)); simpl; congruence.
    + simpl. destruct (ConnectionWatcher.m_activity_flag (m_watcher c)); simpl; congruence.
  - simpl. set (c1 := process_watch_event c). set (c2 := process_watch_event (with_now n2 c1)).
    destruct (watch_drops_flag c) as [Hd|(Hf & Hp1 & Hw1)]; [by apply (dead_watch (with_now n3 c2)), (dead_watch (with_now n2 c1))|].
    fold c1 in Hf, Hp1, Hw1.
    destruct (watch_starts_waiting (with_now n2 c1) Hf) as [Hd|(Hp2 & t & Ht & Hcase)]; [by apply (dead_watch (with_now n3 c2))|].
    fold c2 in Hp2, Ht. unfold process_watch_event at 1 2.
    unfold ConnectionWatcher.is_connection_not_responding. cbn [with_now m_watcher now]. rewrite Ht.
    assert (t ≤ n2) as Hle.
    { destruct Hcase as [->|Hc]; [done|]. simpl in Hc. destruct (Hw1 t Hc) as [->|Hc']; [lia|].
      pose proof (inv_waiting _ I t Hc'). lia. }
    simpl in Hp2. rewrite bool_decide_eq_true_2 by lia. done.
Qed.

(** A received response completes the request with its number, with [ok] and
    the response itself, and cancels its timer; a message that is not a valid
    response, or answers no pending request, completes nothing. *)
Theorem response_completes m c :
  read_type m = Some MsgType.res →
  match read_number_res m with
  | Some n =>
      match m_request_map c !! n with
      | Some d =>
          log (dispatch_receive_event m c) = log c ++ [Completion (promise d) RequestResult.ok m] ∧
          m_request_map (dispatch_receive_event m c) = delete n (m_request_map c) ∧
          m_multiple_timer (dispatch_receive_event m c) = MultipleTimer.cancel (timer_id d) (m_multiple_timer c)
      | None => log (dispatch_receive_event m c) = log c ∧ m_request_map (dispatch_receive_event m c) = m_request_map c
      end
  | None => dispatch_receive_event m c = c
  end.
Proof.
  intros Ht. unfold dispatch_receive_event, handle_received_response. rewrite Ht.
  destruct (read_number_res m) as [n|]; [|done]. unfold complete_request.
  by destruct (m_request_map c !! n) as [d|].
Qed.

(** ** Concrete runs *)
Definition response_0 : message :=
  [1; 0; 0; 0; 0; 0; 0; 0; 0; 0; 0; 0; 0; 0].
Definition request_0 : message :=
  [0; 0; 0; 0; 0; 0; 0; 0; 0; 0; 0; 0; 0; 0; 0; 0; 0].

Definition started_conn : impl := start (create false 10).
Definition busy_conn : impl := request_async 0 request_0 started_conn.

Lemma busy_reachable : rtc step (create false 10) busy_conn.
Proof.
  eapply rtc_l; [apply step_start|]. eapply rtc_l; [|apply rtc_refl].
  apply step_request; [reflexivity|by vm_compute|by vm_compute].
Qed.

Lemma request_completed_once_witness : (occ 0 (c_promise <$> log busy_conn) + pend 0 (m_request_map busy_conn) = 1)%nat.
Proof. exact (request_completed_once false 10 busy_conn busy_reachable 0%nat). Defined.

Lemma request_not_forgotten_witness :
  (∃ w, MultipleTimer.handlers (m_multiple_timer busy_conn) !! 0 = Some (w, 0) ∧ w ≠ Queued true) ∨
  (is_Some (None : option RequestResult.request_result) ∧ false = false ∧ (∃ m, SendRequest 0 m ∈ sends busy_conn) ∧
   ∀ r, m_request_map (send_callback 0 r busy_conn) !! 0 = None).
Proof. exact (request_not_forgotten false 10 busy_conn 0 (RequestData 0 0 false None) busy_reachable eq_refl). Defined.

Lemma receive_end_completes_witness :
  m_request_map (complete_receive_routine PipeOpRes.canceled busy_conn) !! 0
    = Some (RequestData 0 0 false (Some RequestResult.canceled)).
Proof.
  exact (proj1 (receive_end_completes PipeOpRes.canceled busy_conn 0 (RequestData 0 0 false None) eq_refl)).
Defined.

Lemma watcher_detects_silence_witness :
  m_state (process_watch_event (with_now 30 (process_watch_event (with_now 5 (process_watch_event busy_conn))))) = deactivated.
Proof. refine (proj1 (proj2 (watcher_detects_silence false 10 busy_conn 5 30 busy_reachable _ _))); by vm_compute. Defined.

Lemma response_completes_witness :
  log (dispatch_receive_event response_0 busy_conn) = [Completion 0 RequestResult.ok response_0].
Proof. exact (proj1 (response_completes response_0 busy_conn eq_refl)). Defined.
