(* ===== verification/Service.v ===== *)
(** * Services, channels and controllers

    One remote call: [channel::CallMethod] builds the request, [service]
    answers it and the channel's callback decodes the answer into the
    controller of the call.  Messages live in buffers on the heap; the
    application's methods and protobuf are parameters. *)
From S2P Require Import Prelude Memory Buffer BufferView RpcTypes TransferMessage.
Import Memory TransferMessage.
Local Open Scope Z_scope.
Local Open Scope prog_scope.

(** [try { m } catch(...) { handler }]. *)
Definition try_catch {S A} (m : prog S A) (handler : prog S A) : prog S A := λ s,
  match m s with Throw _ s' => handler s' | r => r end.

(** ** closure_guard: runs its closure when it is destroyed *)
Module ClosureGuard.
(** A closure is a number; [runs] records the closures that were run. *)
Record closure_guard : Type := mk { m_closure : option nat }.

Definition create (closure : option nat) : closure_guard := mk closure.

Definition reset (g : closure_guard) (runs : list nat) : closure_guard * list nat :=
  match m_closure g with
  | Some c => (mk None, runs ++ [c])
  | None => (g, runs)
  end.

Definition destroy (g : closure_guard) (runs : list nat) : list nat := (reset g runs).2.

(** Move construction: the new guard and the moved-from one. *)
Definition move_construct (other : closure_guard) : closure_guard * closure_guard :=
  (mk (m_closure other), mk None).

Definition move_assign (this other : closure_guard) (runs : list nat)
    : closure_guard * closure_guard * list nat :=
  let '(this', runs') := reset this runs in
  (mk (m_closure other), mk (m_closure this'), runs').
End ClosureGuard.

(** ** null_rpc_controller: the base of both controllers, without behaviour *)
Module NullRpcController.
Section null_rpc_controller.
Context {C : Type}.
Definition Reset (c : C) : C := c.
Definition Failed (c : C) : bool := false.
(** The empty text. *)
Definition ErrorText (c : C) : list Z := [].
Definition StartCancel (c : C) : C := c.
Definition SetFailed (reason : list Z) (c : C) : C := c.
Definition IsCanceled (c : C) : bool := false.
Definition NotifyOnCancel (callback : option nat) (c : C) : C := c.
End null_rpc_controller.
End NullRpcController.

(** ** response_controller: the closure a method of the application runs *)
Module ResponseController.
Record response_controller : Type := mk {
  m_response_result : ResponseResult.response_result;
  m_connection_id : Z;
  m_uncaught_exceptions : nat
}.
Definition create_on_heap (connection_id : Z) (uncaught_exceptions : nat) : response_controller :=
  mk ResponseResult.ok connection_id uncaught_exceptions.
Definition get_connection_id (c : response_controller) : Z := m_connection_id c.
(** [Run], after which the controller is deleted; [uncaught_exceptions] are those
    that are under way now. *)
Definition run_result (uncaught_exceptions : nat) (c : response_controller) : ResponseResult.response_result :=
  if (m_uncaught_exceptions c <? uncaught_exceptions)%nat then ResponseResult.unknown_error else m_response_result c.
Definition Run {S} (callback : ResponseResult.response_result → prog S unit) (uncaught_exceptions : nat)
    (c : response_controller) : prog S unit :=
  try_catch (callback (run_result uncaught_exceptions c)) (ret tt).
End ResponseController.

Section rpc.
Context {Msg : Type} `{Proto Msg}.

(** ** Controllers *)

(** The caller's side: the result and the response it will be given. *)
Record request_controller : Type := RequestController {
  m_request_result : RequestResult.request_result;
  m_response : Msg
}.

Definition request_controller_create (response : Msg) : request_controller :=
  RequestController RequestResult.unknown_error response.

Definition set_result (r : RequestResult.request_result) (c : request_controller) : request_controller :=
  RequestController r (m_response c).

(** [Run]: what the promise of the call is completed with; [unwinding] when
    the closure runs because of an exception. *)
Definition request_controller_Run (unwinding : bool) (c : request_controller)
    : RequestResult.request_result * Msg :=
  (if unwinding then RequestResult.unknown_error else m_request_result c, m_response c).

(** The service's side: the result code passed to the callback. *)
Definition response_controller_Run (unwinding : bool) : ResponseResult.response_result :=
  ResponseController.run_result (if unwinding then 1 else 0) (ResponseController.create_on_heap 0 0).

(** ** ParseFromArray *)
Fixpoint load_bytes (p : pointer) (n : nat) : prog heap (list Z) :=
  match n with
  | O => ret []
  | S n' => let! b := load p in let! bs := load_bytes (ptr_add p 1) n' in ret (b :: bs)
  end.
(** The size is passed as an [int]; what protobuf does with one that wraps is not
    specified. *)
Definition ParseFromArray (v : cview) : prog heap (bool * Msg) :=
  if decide (2 ^ 31 ≤ CBufferView.size v) then undefined
  else
    let! bs := load_bytes (CBufferView.data v) (Z.to_nat (CBufferView.size v)) in
    ret (match parse bs with Some m => (true, m) | None => (false, parse_rest bs) end).

(** ** service *)

(** A method fills in the response and runs its closure, or throws. *)
Record reply : Type := Reply { reply_response : Msg; reply_threw : bool }.

(** The application's service: its methods, in the order of its descriptor. *)
Record gservice : Type := GService { methods : list (Msg → reply) }.

Definition get_methods_count (g : gservice) : Z := u32 (Z.of_nat (length (methods g))).

(** The callback of the response controller. *)
Definition response_callback (empty : Msg) (message_number : Z) (rc : ResponseResult.response_result) (res : Msg)
    : prog heap buffer :=
  let '(res, rc) := if is_response_proto_too_big res then (empty, ResponseResult.response_too_big) else (res, rc) in
  create_transfer_msg_res message_number rc (Some res).

(** The task of [process_request_async]; an exception breaks the promise of the
    response.  [empty] is a message as [New] and [Clear] leave it. *)
Definition process_request (empty : Msg) (g : option gservice) (req_msg : buffer) : prog heap buffer :=
  let v := CBufferView.of_buffer req_msg in
  let! valid := is_request_buffer_valid v in
  if negb valid then create_transfer_msg_res (2 ^ 64 - 1) ResponseResult.invalid_request (None : option Msg)
  else
    let! type := get_transfer_msg_type v in
    assert (type = MsgType.req) ;!
    let! message_number := get_msg_number_req v in
    let! method_idx := get_msg_method_idx_req v in
    let! serialized_req_message := get_serialized_proto_message v in
    match g with
    | None => create_transfer_msg_res message_number ResponseResult.not_implemented (None : option Msg)
    | Some g =>
        if decide (get_methods_count g ≤ method_idx)
        then create_transfer_msg_res message_number ResponseResult.not_implemented (None : option Msg)
        else
          match methods g !! Z.to_nat method_idx with
          | None => undefined
          | Some method =>
              let! req := ParseFromArray serialized_req_message in
              match req with
              | (false, _) => create_transfer_msg_res message_number ResponseResult.request_parse_error (Some empty)
              | (true, req) =>
                  let r := method req in
                  response_callback empty message_number (response_controller_Run (reply_threw r)) (reply_response r)
              end
          end
    end.

(** ** channel *)
Record channel : Type := Channel { m_next_req_id : Z }.

(** [CallMethod] up to the request: the call ends at once when the request is
    too big; otherwise the request goes to the connection under a new number. *)
Inductive call_start : Type :=
| CallDone (r : RequestResult.request_result)
| CallSent (req_id : Z) (message : buffer).

Definition CallMethod (method_idx : Z) (request : Msg) (ch : channel) : prog heap (call_start * channel) :=
  if is_request_proto_too_big request then ret (CallDone RequestResult.request_too_big, ch)
  else
    let req_id := m_next_req_id ch in
    let ch' := Channel (u64 (req_id + 1)) in
    let! message := create_transfer_msg_req req_id (u32 method_idx) (Some request) in
    ret (CallSent req_id message, ch').

(** The callback of the request's future. *)
Definition on_response (empty : Msg) (req_id : Z) (rc : RequestResult.request_result) (buff : buffer)
    (controller : request_controller) : prog heap request_controller :=
  let v := CBufferView.of_buffer buff in
  try_catch
    (if RequestResult.is_success rc then
       let! valid := is_response_buffer_valid v in
       if negb valid then ret (set_result RequestResult.invalid_response controller)
       else
         let! type := get_transfer_msg_type v in
         if decide (type ≠ MsgType.res) then throw runtime_error
         else
           let! number := get_msg_number_res v in
           if decide (number ≠ req_id) then throw runtime_error
           else
             let controller := RequestController (m_request_result controller) empty in
             let! res_code := get_msg_response_code_res v in
             if ResponseResult.is_fail res_code
             then ret (set_result RequestResult.request_not_processed controller)
             else
               let! serialized_response := get_serialized_proto_message v in
               let! parse_result := ParseFromArray serialized_response in
               match parse_result with
               | (false, response) => ret (RequestController RequestResult.response_parse_error response)
               | (true, response) => ret (RequestController RequestResult.ok response)
               end
     else ret (set_result rc controller))
    (ret (set_result RequestResult.unknown_error controller)).

(** ** A call over connections that deliver the messages

    The request buffer reaches the service and its response the channel. *)
Definition remote_call (empty : Msg) (g : option gservice) (method_idx : Z) (request : Msg) (ch : channel)
    : prog heap (RequestResult.request_result * Msg) :=
  let controller := request_controller_create empty in
  let! start := CallMethod method_idx request ch in
  match start.1 with
  | CallDone r => ret (request_controller_Run false (set_result r controller))
  | CallSent req_id message =>
      let! response := process_request empty g message in
      let! controller := on_response empty req_id RequestResult.ok response controller in
      ret (request_controller_Run false controller)
  end.
End rpc.
Arguments request_controller : clear implicits.
Arguments reply : clear implicits.
Arguments gservice : clear implicits.
