(* ===== verification/ServiceFacts.v ===== *)
(** * Correctness of remote calls

    The service answers every message with one well-formed response, the
    channel decodes every response, and together they compute the method. *)
From S2P Require Import Prelude Memory Buffer BufferView RpcTypes BigEndian TransferMessage TransferMessageFacts Service.
Import Memory TransferMessage.
Local Open Scope Z_scope.

(** ** closure_guard *)

(** Guards and the closures that were run, under any sequence of operations. *)
Inductive guard_step : list ClosureGuard.closure_guard * list nat → list ClosureGuard.closure_guard * list nat → Prop :=
| guard_move gs g gs' runs :
    gs ≡ₚ g :: gs' →
    guard_step (gs, runs) ((ClosureGuard.move_construct g).1 :: (ClosureGuard.move_construct g).2 :: gs', runs)
| guard_assign gs g g' gs' runs :
    gs ≡ₚ g :: g' :: gs' →
    guard_step (gs, runs)
      ((ClosureGuard.move_assign g g' runs).1.1 :: (ClosureGuard.move_assign g g' runs).1.2 :: gs',
       (ClosureGuard.move_assign g g' runs).2)
| guard_destroy gs g gs' runs :
    gs ≡ₚ g :: gs' → guard_step (gs, runs) (gs', ClosureGuard.destroy g runs).

Definition held (gs : list ClosureGuard.closure_guard) : list nat := omap ClosureGuard.m_closure gs.

Lemma guard_step_conserves s s' : guard_step s s' → held s.1 ++ s.2 ≡ₚ held s'.1 ++ s'.2.
Proof.
  intros Hs. destruct Hs as [gs g gs' runs Hp|gs g g' gs' runs Hp|gs g gs' runs Hp]; simpl.
  - unfold held. rewrite Hp. simpl. by destruct (ClosureGuard.m_closure g).
  - unfold held. rewrite Hp. unfold ClosureGuard.move_assign, ClosureGuard.reset.
    destruct g as [[c|]], g' as [[c'|]]; simpl; try done.
    + solve_Permutation.
    + solve_Permutation.
  - unfold held. rewrite Hp. unfold ClosureGuard.destroy, ClosureGuard.reset.
    destruct g as [[c|]]; simpl; [|done]. solve_Permutation.
Qed.

(** ** response_controller: the closure of a method never throws, and says whether
    it runs because of an exception *)
Lemma response_controller_run {S} callback id n n' (s : S) :
  let c := ResponseController.create_on_heap id n in
  ResponseController.run_result n' c = (if decide (n < n')%nat then ResponseResult.unknown_error else ResponseResult.ok) ∧
  ResponseController.get_connection_id c = id ∧
  ∀ e s', ResponseController.Run callback n' c s ≠ Throw e s'.
Proof.
  simpl. split_and!; [|done|].
  - unfold ResponseController.run_result. simpl. case_decide; [by rewrite (proj2 (Nat.ltb_lt _ _))|].
    by rewrite (proj2 (Nat.ltb_ge _ _)) by lia.
  - intros e s'. unfold ResponseController.Run, try_catch. by destruct (callback _ s).
Qed.

Section rpc_facts.
Context {Msg : Type} `{Proto Msg, !ProtoLaws Msg}.
Implicit Types (h : heap) (bs pl : list Z).

(** ** Reading a payload *)
Lemma load_bytes_run h p bs : bytes_at h p bs → load_bytes p (length bs) h = Ok bs h.
Proof.
  revert p. induction bs as [|b bs IH]; intros p Hb; [done|]. cbn [length load_bytes].
  unfold bind at 1. pose proof (load_at h p (b :: bs) 0 b Hb eq_refl) as Hl. rewrite ptr_add_0 in Hl. rewrite Hl.
  unfold bind. rewrite IH; [done|]. intros i x Hi. rewrite ptr_add_add.
  replace (1 + Z.of_nat i) with (Z.of_nat (S i)) by lia. by apply Hb.
Qed.

Lemma parse_run h v bs :
  CBufferView.views h v bs → Z.of_nat (length bs) < 2 ^ 31 →
  ParseFromArray v h = Ok (match parse bs with Some m => (true, m) | None => (false, parse_rest bs) end) h.
Proof.
  intros [Hb Hs] Hl. unfold ParseFromArray, bind, CBufferView.size, CBufferView.data.
  rewrite Hs, Nat2Z.id, decide_False by lia. by rewrite load_bytes_run.
Qed.

(** The payload of a message with a size that fits. *)
Lemma payload_sub h v bs :
  CBufferView.views h v bs → 0 ≤ proto_size bs → 5 + proto_size bs ≤ Z.of_nat (length bs) →
  CBufferView.views h (CBufferView.mk (ptr_add (CBufferView.data v) 5) (proto_size bs)) (slice 5 (proto_size bs) bs).
Proof. intros [Hb Hs] H0 Hl. apply views_slice; [done|lia|done|done]. Qed.

(** ** What the service must answer *)
Definition answer (empty : Msg) (g : option (gservice Msg)) bs
    : Z * ResponseResult.response_result * option Msg :=
  if req_valid bs then
    let number := be_decode (slice (5 + proto_size bs) 8 bs) in
    let idx := be_decode (slice (5 + proto_size bs + 8) 4 bs) in
    match g ≫= (λ g, methods g !! Z.to_nat idx) with
    | None => (number, ResponseResult.not_implemented, None)
    | Some method =>
        match parse (slice 5 (proto_size bs) bs) with
        | None => (number, ResponseResult.request_parse_error, Some empty)
        | Some req =>
            let r := method req in
            if is_response_proto_too_big (reply_response r)
            then (number, ResponseResult.response_too_big, Some empty)
            else (number, response_controller_Run (reply_threw r), Some (reply_response r))
        end
    end
  else (2 ^ 64 - 1, ResponseResult.invalid_request, None).

Lemma process_request_run empty (g : option (gservice Msg)) h req_msg bs num rc msg pl :
  CBufferView.views h (CBufferView.of_buffer req_msg) bs → Forall is_byte bs → Z.of_nat (length bs) < 2 ^ 31 →
  (∀ g', g = Some g' → Z.of_nat (length (methods g')) < 2 ^ 32) →
  ByteSizeLong empty ≤ Consts.MaxResponseProtoSize →
  answer empty g bs = (num, rc, msg) → payload msg = Some pl →
  process_request empty g req_msg h
    = Ok (Buffer.mk (Ptr (fresh_loc h) 0) (14 + Z.of_nat (length pl)))
         (<[fresh_loc h := Some <$> res_frame num rc pl]> h).
Proof.
  intros Hv Hb Hs31 Hm He Ha Hp. assert (Z.of_nat (length bs) < 2 ^ 64) as Hs by lia. unfold process_request, bind at 1.
  rewrite (is_request_buffer_valid_run _ _ _ Hv Hb Hs). unfold answer in Ha.
  destruct (req_valid bs) eqn:Hval.
  2: { simplify_eq. by apply create_transfer_msg_res_run. }
  pose proof (frame_valid_size _ _ _ Hval) as Hfit. pose proof (proto_size_nonneg bs Hb) as Hnn.
  assert (MsgType.of_byte <$> bs !! 0%nat = Some MsgType.req) as Hty.
  { unfold req_valid, frame_valid in Hval. rewrite !andb_true_iff, !bool_decide_eq_true in Hval. tauto. }
  cbn [negb]. unfold bind at 1. rewrite (get_transfer_msg_type_run _ _ _ Hv Hb Hs).
  destruct (bs !! 0%nat) as [b0|]; simpl in Hty; [|done]. injection Hty as Hty.
  unfold bind at 1, assert. rewrite decide_True by done. unfold ret at 1.
  unfold bind at 1. rewrite (get_msg_number_req_run _ _ _ Hv Hb Hs), Hval.
  unfold bind at 1. rewrite (get_msg_method_idx_req_run _ _ _ Hv Hb Hs), Hval.
  unfold bind at 1. rewrite (get_serialized_proto_message_run _ _ _ Hv Hb Hs).
  rewrite !bool_decide_eq_true_2 by lia. cbn [andb].
  set (idx := be_decode (slice (5 + proto_size bs + 8) 4 bs)) in *.
  assert (0 ≤ idx) as Hidx.
  { pose proof (be_decode_range (slice (5 + proto_size bs + 8) 4 bs) (slice_bytes _ _ _ Hb)). unfold idx. lia. }
  destruct g as [g|]; simpl in Ha; [|simplify_eq; by apply create_transfer_msg_res_run].
  specialize (Hm g eq_refl). unfold get_methods_count. rewrite wrap_small by lia.
  case_decide as Hi.
  { rewrite lookup_ge_None_2 in Ha by lia. simplify_eq. by apply create_transfer_msg_res_run. }
  destruct (methods g !! Z.to_nat idx) as [method|] eqn:Em; [|apply lookup_ge_None_1 in Em; lia].
  unfold bind. rewrite (parse_run _ _ _ (payload_sub _ _ _ Hv Hnn ltac:(lia))) by (rewrite length_slice; lia).
  destruct (parse _) as [req|]; [|simplify_eq; by apply create_transfer_msg_res_run].
  unfold response_callback. destruct (is_response_proto_too_big (reply_response (method req))) eqn:Eb; simplify_eq.
  - by apply create_transfer_msg_res_run.
  - apply create_transfer_msg_res_run; [done|]. simpl.
    unfold is_response_proto_too_big in Eb. apply bool_decide_eq_false in Eb. lia.
Qed.

(** ** What the channel makes of a response *)
Lemma on_response_run empty h b num rc pl req_id ctl :
  CBufferView.views h (CBufferView.of_buffer b) (res_frame num rc pl) → Forall is_byte pl →
  ResponseResult.valid rc → Z.of_nat (length pl) < 2 ^ 31 → 0 ≤ num < 2 ^ 64 →
  on_response empty req_id RequestResult.ok b ctl h =
    Ok (if decide (num ≠ req_id) then set_result RequestResult.unknown_error ctl
        else if ResponseResult.is_fail rc then RequestController RequestResult.request_not_processed empty
        else match parse pl with
             | None => RequestController RequestResult.response_parse_error (parse_rest pl)
             | Some r => RequestController RequestResult.ok r
             end) h.
Proof.
  intros Hv Hpl Hrc Hl Hn. pose proof (res_frame_bytes num rc pl Hrc Hpl) as Hb.
  pose proof (length_res_frame num rc pl) as Hlen.
  assert (Z.of_nat (length (res_frame num rc pl)) < 2 ^ 64) as Hs by lia.
  assert (Z.of_nat (length pl) < 2 ^ 32) as Hl32 by lia.
  pose proof (res_frame_valid num rc pl Hl32) as Hval. pose proof (frame_valid_size _ _ _ Hval) as Hfit.
  pose proof (proto_size_nonneg _ Hb) as Hnn.
  unfold on_response, try_catch. change (RequestResult.is_success RequestResult.ok) with true. cbv iota.
  unfold bind at 1. rewrite (is_response_buffer_valid_run _ _ _ Hv Hb Hs), Hval. cbn [negb].
  unfold bind at 1. rewrite (get_transfer_msg_type_run _ _ _ Hv Hb Hs). cbn [lookup list_lookup res_frame app].
  rewrite decide_False by (by intros []). unfold bind at 1.
  rewrite (get_msg_number_res_run _ _ _ Hv Hb Hs), Hval.
  rewrite (frame_number 1 pl num [ResponseResult.to_byte rc] Hl32 Hn
             : be_decode (slice (5 + proto_size (res_frame num rc pl)) 8 (res_frame num rc pl)) = num).
  case_decide as Hne; [done|]. unfold bind at 1.
  rewrite (get_msg_response_code_res_run _ _ _ Hv Hb Hs), Hval.
  rewrite (frame_tail 1 pl num [ResponseResult.to_byte rc] Hl32
             : slice (5 + proto_size (res_frame num rc pl) + 8) 1 (res_frame num rc pl) = [ResponseResult.to_byte rc]).
  cbn [be_decode length].
  change (256 ^ Z.of_nat 0) with 1. rewrite Z.mul_1_r, Z.add_0_r, ResponseResult.of_to_byte by done.
  destruct (ResponseResult.is_fail rc); [done|]. unfold bind at 1.
  rewrite (get_serialized_proto_message_run _ _ _ Hv Hb Hs). rewrite !bool_decide_eq_true_2 by lia. cbn [andb].
  unfold bind. rewrite (parse_run h _ pl); [by destruct (parse pl)| |done].
  by apply (payload_view _ _ 1 pl (be_encode 8 num ++ [ResponseResult.to_byte rc])).
Qed.
End rpc_facts.

Section properties.
Context {Msg : Type} `{Proto Msg, !ProtoLaws Msg}.

(** C34: whatever bytes a client sends, the service answers with exactly one
    well-formed response: under the number of the request, or the largest number
    for a message that is no request, with the result code of the branch taken
    (invalid request, not implemented, parse error, response too big, exception,
    success) and the response of the method; nothing undefined happens. *)
Theorem service_answers empty (g : option (gservice Msg)) h req_msg bs num rc msg pl :
  CBufferView.views h (CBufferView.of_buffer req_msg) bs → Forall is_byte bs → Z.of_nat (length bs) < 2 ^ 31 →
  (∀ g', g = Some g' → Z.of_nat (length (methods g')) < 2 ^ 32) →
  ByteSizeLong empty ≤ Consts.MaxResponseProtoSize →
  answer empty g bs = (num, rc, msg) → payload msg = Some pl →
  ∃ b h', process_request empty g req_msg h = Ok b h' ∧
    CBufferView.views h' (CBufferView.of_buffer b) (res_frame num rc pl).
Proof.
  intros. eexists _, _. split; [by eapply process_request_run|].
  apply CBufferView.cviews_of_buffer. exists (fresh_loc h).
  split_and!; [done|apply lookup_insert_eq|by rewrite length_res_frame].
Qed.

(** What a remote call must return. *)
Definition call_spec (empty : Msg) (g : option (gservice Msg)) (idx : Z) (request : Msg)
    : RequestResult.request_result * Msg :=
  if is_request_proto_too_big request then (RequestResult.request_too_big, empty)
  else
    match g ≫= (λ g, methods g !! Z.to_nat idx) with
    | None => (RequestResult.request_not_processed, empty)
    | Some method =>
        let r := method request in
        if is_response_proto_too_big (reply_response r) || reply_threw r
        then (RequestResult.request_not_processed, empty)
        else (RequestResult.ok, reply_response r)
    end.

(** The answer of the service to a request frame. *)
Lemma answer_frame empty (g : option (gservice Msg)) num idx request pl :
  serialize request = Some pl → Z.of_nat (length pl) < 2 ^ 32 → 0 ≤ num < 2 ^ 64 → 0 ≤ idx < 2 ^ 32 →
  answer empty g (req_frame num idx pl) =
    match g ≫= (λ g, methods g !! Z.to_nat idx) with
    | None => (num, ResponseResult.not_implemented, None)
    | Some method =>
        let r := method request in
        if is_response_proto_too_big (reply_response r) then (num, ResponseResult.response_too_big, Some empty)
        else (num, response_controller_Run (reply_threw r), Some (reply_response r))
    end.
Proof.
  intros Hs Hl Hn Hi. unfold answer. rewrite req_frame_valid by done.
  rewrite (frame_number 0 pl num (be_encode 4 idx) Hl Hn
             : be_decode (slice (5 + proto_size (req_frame num idx pl)) 8 (req_frame num idx pl)) = num).
  pose proof (frame_tail 0 pl num (be_encode 4 idx) Hl) as Ht. rewrite length_be_encode in Ht.
  change (slice (5 + proto_size (req_frame num idx pl) + 8) 4 (req_frame num idx pl) = be_encode 4 idx) in Ht.
  rewrite Ht, (be_decode_encode_id 4 idx) by (simpl; lia).
  rewrite (frame_payload 0 pl (be_encode 8 num ++ be_encode 4 idx) Hl
             : slice 5 (proto_size (req_frame num idx pl)) (req_frame num idx pl) = pl).
  by rewrite (parse_serialize _ _ Hs).
Qed.

(** The answer to the frame of a request, its payload and what the channel makes
    of it. *)
Lemma answer_outcome empty (g : option (gservice Msg)) num idx request pl epl :
  serialize request = Some pl → serialize empty = Some epl → Z.of_nat (length pl) < 2 ^ 32 →
  ByteSizeLong empty ≤ Consts.MaxResponseProtoSize →
  (∀ g', g = Some g' → Z.of_nat (length (methods g')) < 2 ^ 32 ∧
     ∀ method, method ∈ methods g' → is_Some (serialize (reply_response (method request)))) →
  0 ≤ idx < 2 ^ 32 → 0 ≤ num < 2 ^ 64 →
  ∃ rc msg rpl, answer empty g (req_frame num idx pl) = (num, rc, msg) ∧ payload msg = Some rpl ∧
    ResponseResult.valid rc ∧ Forall is_byte rpl ∧ Z.of_nat (length rpl) < 2 ^ 31 ∧
    (if ResponseResult.is_fail rc then (RequestResult.request_not_processed, empty)
     else match parse rpl with
          | None => (RequestResult.response_parse_error, parse_rest rpl)
          | Some r => (RequestResult.ok, r)
          end) =
    match g ≫= (λ g, methods g !! Z.to_nat idx) with
    | None => (RequestResult.request_not_processed, empty)
    | Some method =>
        let r := method request in
        if is_response_proto_too_big (reply_response r) || reply_threw r
        then (RequestResult.request_not_processed, empty)
        else (RequestResult.ok, reply_response r)
    end.
Proof.
  intros Hs He Hl32 Hem Hg Hi Hid.
  rewrite (answer_frame empty g num idx request pl) by done.
  destruct (g ≫= (λ g, methods g !! Z.to_nat idx)) as [method|] eqn:Em; [|by exists ResponseResult.not_implemented, None, []].
  pose proof (serialize_length _ _ He) as Hel. unfold Consts.MaxResponseProtoSize in Hem.
  cbv zeta. destruct (is_response_proto_too_big (reply_response (method request))) eqn:Erb.
  { exists ResponseResult.response_too_big, (Some empty), epl. split_and!; try done; [by eapply serialize_bytes|lia]. }
  destruct g as [g'|]; [|done]. simpl in Em. destruct (Hg g' eq_refl) as [_ Hser].
  destruct (Hser method) as [rpl Hrpl]; [by eapply list_elem_of_lookup_2|].
  unfold is_response_proto_too_big in Erb. apply bool_decide_eq_false in Erb.
  unfold Consts.MaxResponseProtoSize in Erb. pose proof (serialize_length _ _ Hrpl).
  exists (response_controller_Run (reply_threw (method request))), (Some (reply_response (method request))), rpl.
  split_and!; try done; [by destruct (reply_threw _)|by eapply serialize_bytes|lia|].
  destruct (reply_threw (method request)); simpl; [done|]. by rewrite (parse_serialize _ _ Hrpl).
Qed.

(** A remote call computes the method: over connections that deliver the
    request and its response, the caller gets [ok] and the message the method
    produced; a request that is too big, an unknown method, a response that is
    too big and a method that throws each give their result code and an empty
    response. *)
Theorem remote_call_computes empty (g : option (gservice Msg)) idx request pl epl ch h :
  serialize request = Some pl → serialize empty = Some epl →
  ByteSizeLong empty ≤ Consts.MaxResponseProtoSize →
  (∀ g', g = Some g' → Z.of_nat (length (methods g')) < 2 ^ 32 ∧
     ∀ method, method ∈ methods g' → is_Some (serialize (reply_response (method request)))) →
  0 ≤ idx < 2 ^ 32 → 0 ≤ m_next_req_id ch < 2 ^ 64 →
  ∃ h', remote_call empty g idx request ch h = Ok (call_spec empty g idx request) h'.
Proof.
  intros Hs He Hem Hg Hi Hid. unfold remote_call, call_spec, CallMethod.
  destruct (is_request_proto_too_big request) eqn:Ebig; [by eexists|].
  unfold is_request_proto_too_big in Ebig. apply bool_decide_eq_false in Ebig.
  pose proof (serialize_length _ _ Hs) as Hlen.
  assert (Z.of_nat (length pl) < 2 ^ 30) as Hl30 by (unfold Consts.MaxRequestProtoSize in Ebig; lia).
  assert (Z.of_nat (length pl) < 2 ^ 32) as Hl32 by lia.
  rewrite (wrap_small 32 idx) by lia.
  unfold bind at 1. unfold bind at 1. rewrite (create_transfer_msg_req_run _ _ (Some request) pl) by (done || simpl; lia).
  unfold ret at 1. cbn [fst]. unfold bind at 1.
  set (num := m_next_req_id ch) in *. set (h1 := insert _ _ h). set (b := Buffer.mk _ _).
  assert (CBufferView.views h1 (CBufferView.of_buffer b) (req_frame num idx pl)) as Hv.
  { apply CBufferView.cviews_of_buffer. exists (fresh_loc h).
    split_and!; [done|apply lookup_insert_eq|by rewrite length_req_frame]. }
  pose proof (req_frame_bytes num idx pl (serialize_bytes _ _ Hs)) as Hb.
  pose proof (length_req_frame num idx pl) as Hfl.
  destruct (answer_outcome empty g num idx request pl epl) as (rc & msg & rpl & Ha & Hp & Hrc & Hby & Hrl & Hres); [done..|].
  rewrite (process_request_run empty g h1 b (req_frame num idx pl) num rc msg rpl);
    [|done|done|lia|intros g' ->; by apply Hg|done|done|done].
  set (h2 := insert _ _ h1). unfold bind. rewrite (on_response_run empty h2 _ num rc rpl num); try done.
  - rewrite decide_False by (intros Hne; by apply Hne). exists h2. unfold ret, request_controller_Run.
    f_equal. etrans; [|exact Hres]. by repeat case_match.
  - apply CBufferView.cviews_of_buffer. exists (fresh_loc h1).
    split_and!; [done|apply lookup_insert_eq|by rewrite length_res_frame].
Qed.
End properties.

(** Closure guards run every closure exactly once: the closures held by
    guards and those already run are always the same, so a closure is run when
    the last guard that holds it goes away, and never twice. *)
Theorem closure_runs_once (s s' : list ClosureGuard.closure_guard * list nat) :
  rtc guard_step s s' → held s'.1 ++ s'.2 ≡ₚ held s.1 ++ s.2.
Proof.
  induction 1 as [|s1 s2 s3 H12 _ IH]; [done|]. rewrite IH. symmetry. by apply guard_step_conserves.
Qed.

(** ** Concrete calls *)
Definition echo : gservice ByteProto.msg := GService [λ req, Reply req false; λ req, Reply req true].

Lemma service_answers_witness :
  ∃ b h', process_request ([] : ByteProto.msg) (Some echo) (Buffer.mk (Ptr 1 0) 3) {[ 1%positive := [Some 9; Some 9; Some 9] ]} = Ok b h' ∧
    CBufferView.views h' (CBufferView.of_buffer b) (res_frame (2 ^ 64 - 1) ResponseResult.invalid_request []).
Proof.
  apply (service_answers (Msg := ByteProto.msg) [] (Some echo) _ _ [9; 9; 9] _ _ None []).
  - apply CBufferView.cviews_of_buffer. exists 1%positive. done.
  - by repeat constructor.
  - by vm_compute.
  - intros g' [= <-]. by vm_compute.
  - by vm_compute.
  - reflexivity.
  - reflexivity.
Defined.

Lemma remote_call_computes_witness :
  ∃ h', remote_call ([] : ByteProto.msg) (Some echo) 0 [1; 2; 3] (Channel 0) ∅ = Ok (RequestResult.ok, [1; 2; 3]) h'.
Proof.
  assert (call_spec (Msg := ByteProto.msg) [] (Some echo) 0 [1; 2; 3] = (RequestResult.ok, [1; 2; 3])) as <-
    by (by vm_compute).
  apply (remote_call_computes (Msg := ByteProto.msg) [] (Some echo) 0 [1; 2; 3] [1; 2; 3] [] (Channel 0) ∅).
  - reflexivity.
  - reflexivity.
  - by vm_compute.
  - intros g' [= <-]. split; [by vm_compute|]. intros method Hin.
    repeat (apply elem_of_cons in Hin as [->|Hin]; [by eexists|]). by apply elem_of_nil in Hin.
  - lia.
  - simpl. lia.
Defined.

Lemma closure_runs_once_witness :
  held [] ++ [3%nat] ≡ₚ held [ClosureGuard.create (Some 3%nat)] ++ [].
Proof.
  apply (closure_runs_once ([ClosureGuard.create (Some 3%nat)], []) ([], [3%nat])).
  apply rtc_once. by eapply (guard_destroy _ (ClosureGuard.create (Some 3%nat)) []).
Defined.
