(* ===== verification/SortTuple.v ===== *)
(** * Sorting tuples

    The bubble sorts of the tuple utilities: on types (mpl), on tuples of
    references and by index.  A tuple is the list of its elements; the
    comparator looks at their types only, so it is a boolean function on them. *)
From Equations Require Import Equations.
From stdpp Require Import sorting.
From S2P Require Import Prelude.

(** ** sort_tuple_t *)
Module TypeSort.
Section sort.
Context {A : Type} (compare : A → A → bool).

(** [do_bubble_rise] of a tuple that starts with [a]. *)
Fixpoint bubble_rise_cons (a : A) (args : list A) : list A :=
  match args with
  | [] => [a]
  | b :: args' => if compare a b then a :: bubble_rise_cons b args' else b :: bubble_rise_cons a args'
  end.
Definition do_bubble_rise (t : list A) : list A :=
  match t with [] => [] | a :: args => bubble_rise_cons a args end.

Fixpoint remove_last_tuple_type (t : list A) : list A :=
  match t with
  | [] => []
  | a :: args => match args with [] => [] | _ => a :: remove_last_tuple_type args end
  end.
Fixpoint last_tuple_type (t : list A) : option A :=
  match t with [] => None | [a] => Some a | _ :: args => last_tuple_type args end.

Lemma length_bubble_rise_cons a args : length (bubble_rise_cons a args) = S (length args).
Proof. revert a. induction args as [|b args IH]; intros a; simpl; [done|]. case_match; simpl; by rewrite IH. Qed.

Lemma length_remove_last t : length (remove_last_tuple_type t) = pred (length t).
Proof. induction t as [|a [|b t] IH]; [done..|]. simpl in *. by rewrite IH. Qed.

Equations? sort_tuple (t : list A) : list A by wf (length t) lt :=
  sort_tuple [] := [];
  sort_tuple (a :: args) :=
    sort_tuple (remove_last_tuple_type (do_bubble_rise (a :: args)))
      ++ option_list (last_tuple_type (do_bubble_rise (a :: args))).
Proof. rewrite length_remove_last. unfold do_bubble_rise. rewrite length_bubble_rise_cons. simpl. lia. Qed.
End sort.
End TypeSort.

(** ** do_sort_tuple: on a tuple of references to the elements *)
Module RefSort.
Section sort.
Context {A : Type} (compare : A → A → bool).

Definition do_swap_first_two_tuple_elements (t : list A) : list A :=
  match t with a :: b :: args => b :: a :: args | _ => t end.
Definition do_extract_first_tuple_element (t : list A) : list A * list A := (take 1 t, drop 1 t).
Definition do_extract_last_tuple_element (t : list A) : list A * list A :=
  (drop (length t - 1) t, take (length t - 1) t).

Equations? do_bubble_rise (t : list A) : list A by wf (length t) lt :=
  do_bubble_rise [] := [];
  do_bubble_rise [a] := [a];
  do_bubble_rise (a :: b :: args) :=
    if compare a b
    then (do_extract_first_tuple_element (a :: b :: args)).1
           ++ do_bubble_rise (do_extract_first_tuple_element (a :: b :: args)).2
    else (do_extract_first_tuple_element (do_swap_first_two_tuple_elements (a :: b :: args))).1
           ++ do_bubble_rise
                (do_extract_first_tuple_element (do_swap_first_two_tuple_elements (a :: b :: args))).2.
Proof. all: simpl; lia. Qed.

Lemma bubble_rise_types t : do_bubble_rise t = TypeSort.do_bubble_rise compare t.
Proof.
  funelim (do_bubble_rise t); [done..|]. simpl in *. by rewrite H, H0.
Qed.

Lemma length_bubble_rise t : length (do_bubble_rise t) = length t.
Proof. rewrite bubble_rise_types. destruct t; simpl; [done|]. apply TypeSort.length_bubble_rise_cons. Qed.

Equations? sort_ref_tuple (t : list A) : list A by wf (length t) lt :=
  sort_ref_tuple [] := [];
  sort_ref_tuple [a] := [a];
  sort_ref_tuple (a :: b :: args) :=
    sort_ref_tuple (do_extract_last_tuple_element (do_bubble_rise (a :: b :: args))).2
      ++ (do_extract_last_tuple_element (do_bubble_rise (a :: b :: args))).1.
Proof.
  pose proof (length_bubble_rise (a :: b :: args)) as Hl. simpl in *. rewrite length_take. lia.
Qed.

(** An empty tuple is not accepted: the statements after the [if constexpr]
    are compiled for it, too, and [do_bubble_rise] asks for its first two
    elements.  So the equations above for [[]] are never used. *)
Definition do_sort_tuple (t : list A) : option (list A) :=
  match t with [] => None | _ => Some (sort_ref_tuple t) end.
End sort.
End RefSort.

(** ** do_sort_tuple2: sorts the indices, then picks the elements *)
Module IndexSort.
Section sort.
Context {A : Type} (compare : A → A → bool).

(** An [indexed_tuple_type]: a type and its index. *)
Definition make_indexed_tuple (t : list A) : list (A * nat) := imap (λ i x, (x, i)) t.
Definition indexed_compare (x y : A * nat) : bool := compare x.1 y.1.
(** The indices of the elements, in order. *)
Definition sorted_indices (t : list A) : list nat :=
  (TypeSort.sort_tuple indexed_compare (make_indexed_tuple t)).*2.
Definition do_sort_tuple2 (t : list A) : list A := omap (t !!.) (sorted_indices t).
End sort.
End IndexSort.

(** ** What the sorts compute *)
Section perm.
Context {A : Type} (compare : A → A → bool).
Implicit Types (t : list A).

Lemma split_last t :
  t = TypeSort.remove_last_tuple_type t ++ option_list (TypeSort.last_tuple_type t).
Proof. induction t as [|a [|b t] IH]; [done..|]. simpl in *. by rewrite <- IH. Qed.

Lemma remove_last_snoc t m : TypeSort.remove_last_tuple_type (t ++ [m]) = t.
Proof. induction t as [|a [|b t] IH]; [done..|]. simpl in *. by rewrite IH. Qed.

Lemma last_snoc_type t m : TypeSort.last_tuple_type (t ++ [m]) = Some m.
Proof. by induction t as [|a [|b t] IH]. Qed.

Lemma extract_last t :
  RefSort.do_extract_last_tuple_element t =
    (option_list (TypeSort.last_tuple_type t), TypeSort.remove_last_tuple_type t).
Proof.
  unfold RefSort.do_extract_last_tuple_element. rewrite (split_last t) at 2 4.
  assert (length t - 1 = length (TypeSort.remove_last_tuple_type t)) as ->
    by (rewrite TypeSort.length_remove_last; lia).
  by rewrite drop_app_length, take_app_length.
Qed.

Lemma bubble_rise_perm a t : TypeSort.bubble_rise_cons compare a t ≡ₚ a :: t.
Proof.
  revert a. induction t as [|b t IH]; intros a; simpl; [done|].
  case_match; rewrite IH; [done|]. apply Permutation_swap.
Qed.

Lemma sort_perm t : TypeSort.sort_tuple compare t ≡ₚ t.
Proof.
  funelim (TypeSort.sort_tuple compare t); [done|]. rewrite H.
  rewrite <- (split_last (TypeSort.do_bubble_rise compare (a :: args))). apply bubble_rise_perm.
Qed.

End perm.

Section facts.
Context {A : Type} (compare : A → A → bool).
Implicit Types (t : list A).

Lemma sort_map {B} (f : B → A) (t : list B) :
  f <$> TypeSort.sort_tuple (λ x y, compare (f x) (f y)) t = TypeSort.sort_tuple compare (f <$> t).
Proof.
  assert (∀ b l, f <$> TypeSort.bubble_rise_cons (λ x y, compare (f x) (f y)) b l
                 = TypeSort.bubble_rise_cons compare (f b) (f <$> l)) as Hb.
  { intros b l. revert b. induction l as [|c l IH]; intros b; simpl; [done|]. case_match; csimpl; by rewrite IH. }
  assert (∀ l : list B, f <$> TypeSort.remove_last_tuple_type l = TypeSort.remove_last_tuple_type (f <$> l)) as Hr.
  { intros l. induction l as [|c [|d l] IH]; [done..|]. csimpl in *. by rewrite IH. }
  assert (∀ l : list B, f <$> TypeSort.last_tuple_type l = TypeSort.last_tuple_type (f <$> l)) as Hl.
  { intros l. by induction l as [|c [|d l] IH]. }
  funelim (TypeSort.sort_tuple (λ x y, compare (f x) (f y)) t); [done|].
  rewrite fmap_app, H by done. csimpl. simp sort_tuple. simpl. f_equal.
  - by rewrite Hr, Hb.
  - rewrite <- Hb, <- Hl. by destruct (TypeSort.last_tuple_type _).
Qed.

Lemma ref_sort t : RefSort.sort_ref_tuple compare t = TypeSort.sort_tuple compare t.
Proof.
  funelim (RefSort.sort_ref_tuple compare t); [done..|].
  simp sort_tuple. simpl in H |- *. rewrite H.
  pose proof (extract_last (RefSort.do_bubble_rise compare (a :: b :: args))) as [= -> ->].
  by rewrite RefSort.bubble_rise_types.
Qed.

Lemma index_sort t : IndexSort.do_sort_tuple2 compare t = TypeSort.sort_tuple compare t.
Proof.
  assert (fst <$> IndexSort.make_indexed_tuple t = t) as Ht.
  { unfold IndexSort.make_indexed_tuple. rewrite fmap_imap.
    trans (imap (const id) t); [by apply imap_ext|by rewrite imap_const, list_fmap_id]. }
  rewrite <- Ht at 2. rewrite <- sort_map. unfold IndexSort.do_sort_tuple2, IndexSort.sorted_indices.
  assert (Forall (λ p, t !! p.2 = Some p.1)
            (TypeSort.sort_tuple (IndexSort.indexed_compare compare) (IndexSort.make_indexed_tuple t))) as Hall.
  { apply Forall_forall. intros [x i] Hx. rewrite sort_perm in Hx.
    by apply elem_of_lookup_imap in Hx as (j & y & [= -> ->] & Hy). }
  change (λ x y, compare x.1 y.1) with (IndexSort.indexed_compare compare).
  induction Hall as [|[x i] l Hx _ IH]; [done|]. csimpl. simpl in Hx. by rewrite Hx, IH.
Qed.

(** The comparator orders: [le x y] when [y] is not before [x]. *)
Context (le_total : ∀ x y, compare x y = true → compare y x = false).
Context (le_trans : ∀ x y z, compare y x = false → compare z y = false → compare z x = false).

Lemma bubble_rise_last a t :
  ∃ r m, TypeSort.bubble_rise_cons compare a t = r ++ [m] ∧ ∀ x, x ∈ a :: t → compare m x = false.
Proof.
  assert (∀ x, compare x x = false) as le_refl.
  { intros x. destruct (compare x x) eqn:E; [|done]. by rewrite <- E, le_total. }
  revert a. induction t as [|b t IH]; intros a; simpl.
  { exists [], a. split; [done|]. intros x ->%list_elem_of_singleton. done. }
  destruct (compare a b) eqn:E.
  - destruct (IH b) as (r & m & -> & Hm). exists (a :: r), m. split; [done|].
    intros x [->|Hx]%elem_of_cons; [|by apply Hm].
    apply (le_trans _ b); [by apply le_total|]. apply Hm. by constructor.
  - destruct (IH a) as (r & m & -> & Hm). exists (b :: r), m. split; [done|].
    intros x [->|[->|Hx]%elem_of_cons]%elem_of_cons; [apply Hm; by constructor| |apply Hm; by constructor].
    apply (le_trans _ a); [done|]. apply Hm. by constructor.
Qed.

Lemma sort_sorted t : StronglySorted (λ x y, compare y x = false) (TypeSort.sort_tuple compare t).
Proof.
  funelim (TypeSort.sort_tuple compare t); [constructor|].
  destruct (bubble_rise_last a args) as (r & m & Hb & Hm).
  assert (TypeSort.do_bubble_rise compare (a :: args) = r ++ [m]) as Hb' by done.
  rewrite Hb' in *. rewrite last_snoc_type, remove_last_snoc in *. simpl.
  apply StronglySorted_app. split_and!; [|done|by repeat constructor].
  intros x y Hx ->%list_elem_of_singleton. apply Hm. rewrite sort_perm in Hx.
  rewrite <- (bubble_rise_perm compare a args), Hb. apply elem_of_app. by left.
Qed.
End facts.

(** C35: the three sorts agree, and sort: for a comparator that orders, the
    result is a permutation of the tuple in which no element comes before one
    the comparator puts first.  Only the sort through references does not
    accept the empty tuple. *)
Theorem sort_tuple_sorts {A} (compare : A → A → bool) (t : list A) :
  (∀ x y, compare x y = true → compare y x = false) →
  (∀ x y z, compare y x = false → compare z y = false → compare z x = false) →
  TypeSort.sort_tuple compare t ≡ₚ t ∧
  StronglySorted (λ x y, compare y x = false) (TypeSort.sort_tuple compare t) ∧
  RefSort.do_sort_tuple compare t = match t with [] => None | _ => Some (TypeSort.sort_tuple compare t) end ∧
  IndexSort.do_sort_tuple2 compare t = TypeSort.sort_tuple compare t.
Proof.
  intros Htot Htrans. split_and!; [apply sort_perm|by apply sort_sorted| |apply index_sort].
  unfold RefSort.do_sort_tuple. by destruct t; [|rewrite ref_sort].
Qed.

Lemma sort_tuple_sorts_witness :
  TypeSort.sort_tuple Nat.ltb [3; 1; 2; 1] ≡ₚ [3; 1; 2; 1] ∧
  StronglySorted (λ x y, Nat.ltb y x = false) (TypeSort.sort_tuple Nat.ltb [3; 1; 2; 1]) ∧
  RefSort.do_sort_tuple Nat.ltb [3; 1; 2; 1] = Some (TypeSort.sort_tuple Nat.ltb [3; 1; 2; 1]) ∧
  IndexSort.do_sort_tuple2 Nat.ltb [3; 1; 2; 1] = TypeSort.sort_tuple Nat.ltb [3; 1; 2; 1].
Proof.
  apply (sort_tuple_sorts Nat.ltb [3; 1; 2; 1]).
  - intros x y. rewrite Nat.ltb_lt, Nat.ltb_ge. lia.
  - intros x y z. rewrite !Nat.ltb_ge. lia.
Defined.

Example sort_example : RefSort.do_sort_tuple Nat.ltb [3; 1; 2; 1] = Some [1; 1; 2; 3].
Proof. reflexivity. Qed.
