(* ===== verification/OrderedLock.v ===== *)
(** * Ordered locks

    [ordered_lock] locks several mutexes in the order of their types.  Its
    operations are programs of a small language of mutex operations; threads
    that run such programs share the mutexes. *)
From stdpp Require Import sorting.
From S2P Require Import Prelude SortTuple.

(** ** Mutex programs *)

(** An [ordered_mutex<order>] at an address. *)
Record mutex : Type := Mutex { order : nat; addr : nat }.
#[global] Instance mutex_eq_dec : EqDecision mutex.
Proof. solve_decision. Defined.
#[global] Instance mutex_countable : Countable mutex.
Proof.
  apply (inj_countable' (λ m, (order m, addr m)) (λ p, Mutex p.1 p.2)). by intros [].
Defined.

(** A program locks and unlocks mutexes; [lock] tells whether it threw.
    [Undef] is undefined behaviour. *)
Inductive locking (A : Type) : Type :=
| Done (a : A)
| Lock (m : mutex) (k : bool → locking A)
| Unlock (m : mutex) (k : locking A)
| Undef.
Arguments Done {_}.
Arguments Lock {_}.
Arguments Unlock {_}.
Arguments Undef {_}.

Fixpoint lbind {A B} (p : locking A) (f : A → locking B) : locking B :=
  match p with
  | Done a => f a
  | Lock m k => Lock m (λ threw, lbind (k threw) f)
  | Unlock m k => Unlock m (lbind k f)
  | Undef => Undef
  end.
Declare Scope locking_scope.
Notation "'let?' x := p 'in' k" := (lbind p (λ x, k))
  (at level 10, x name, p at level 100, k at level 200) : locking_scope.
Local Open Scope locking_scope.

(** ** ordered_lock *)
Module OrderedLock.
Definition order_comparator (x y : nat) : bool := Nat.ltb x y.

(** The [order] members of the lockable types, the pointers in the order of the
    parameters, and the flag.  The ordered tuple holds references to the
    pointers: [m_ordered_ptr_ref_tuple] is their indices. *)
Record ordered_lock : Type := mk {
  types : list nat;
  m_init_ptr_tuple : list (option mutex);
  m_is_locked : bool
}.
Definition m_ordered_ptr_ref_tuple (l : ordered_lock) : list nat :=
  IndexSort.sorted_indices order_comparator (types l).
Definition ordered_ptr_tuple (l : ordered_lock) : list (option mutex) :=
  omap (m_init_ptr_tuple l !!.) (m_ordered_ptr_ref_tuple l).

(** The static assertions. *)
Fixpoint has_equal_neighbours (ts : list nat) : bool :=
  match ts with
  | [] => false
  | x :: ts' => match ts' with [] => false | y :: _ => Nat.eqb x y || has_equal_neighbours ts' end
  end.
Definition is_there_repeating_order_number (ts : list nat) : bool :=
  has_equal_neighbours (TypeSort.sort_tuple order_comparator ts).
Definition is_ordered_lockable_types_valid (ts : list nat) : bool :=
  Nat.ltb 0 (length ts) && negb (is_there_repeating_order_number ts).
Definition compare_ordered_lockable_tuples (ts1 ts2 : list nat) : bool :=
  match TypeSort.last_tuple_type (TypeSort.sort_tuple order_comparator ts1),
        TypeSort.sort_tuple order_comparator ts2 with
  | Some x, y :: _ => order_comparator x y
  | _, _ => false
  end.

Definition default (ts : list nat) : ordered_lock := mk ts ((λ _, None) <$> ts) false.
Definition create_defer (ms : list mutex) : ordered_lock := mk (order <$> ms) (Some <$> ms) false.
Definition create_adopt (ms : list mutex) : ordered_lock := mk (order <$> ms) (Some <$> ms) true.

(** [for_each_tuple_element_reverse] with [unlock]; the pointers are not null. *)
Fixpoint unlock_each (ptrs : list (option mutex)) : locking unit :=
  match ptrs with
  | [] => Done tt
  | Some m :: ptrs' => Unlock m (unlock_each ptrs')
  | None :: _ => Undef
  end.

(** [locked] is the tuple whose elements [do_on_destruct] unlocks when a
    [lock] throws.  The result tells whether one did. *)
Fixpoint do_safe_lock (ptrs : list (option mutex)) (locked : list mutex) : locking bool :=
  match ptrs with
  | [] => Done false
  | Some m :: ptrs' =>
      Lock m (λ threw, if threw then let? _u := unlock_each (reverse (Some <$> locked)) in Done true
                       else do_safe_lock ptrs' (locked ++ [m]))
  | None :: _ => Undef
  end.

(** [None]: the exception. *)
Definition lock (l : ordered_lock) : locking (option ordered_lock) :=
  let? threw := do_safe_lock (ordered_ptr_tuple l) [] in
  Done (if threw : bool then None else Some (mk (types l) (m_init_ptr_tuple l) true)).

Definition unlock (l : ordered_lock) : locking ordered_lock :=
  let? _u := unlock_each (reverse (ordered_ptr_tuple l)) in
  Done (mk (types l) (m_init_ptr_tuple l) false).

Definition is_locked (l : ordered_lock) : bool := m_is_locked l.
Definition to_bool (l : ordered_lock) : bool :=
  match m_init_ptr_tuple l with Some _ :: _ => true | _ => false end.
Definition clear (l : ordered_lock) : ordered_lock := mk (types l) ((λ _, None) <$> m_init_ptr_tuple l) false.

Definition create (ms : list mutex) : locking (option ordered_lock) := lock (create_defer ms).
Definition destroy (l : ordered_lock) : locking unit :=
  if is_locked l then let? _u := unlock l in Done tt else Done tt.

(** Assignment of the ordered tuples: through the references, the pointers of
    [other] in order become those of [this]. *)
Definition assign_ordered (this other : ordered_lock) : list (option mutex) :=
  foldl (λ init ip, <[ip.1 := ip.2]> init) (m_init_ptr_tuple this)
        (zip (m_ordered_ptr_ref_tuple this) (ordered_ptr_tuple other)).
(** The new lock and the moved-from one. *)
Definition move_construct (ts : list nat) (other : ordered_lock) : ordered_lock * ordered_lock :=
  (mk ts (assign_ordered (default ts) other) (m_is_locked other), clear other).
Definition move_assign (this other : ordered_lock) : locking (ordered_lock * ordered_lock) :=
  let? this' := (if is_locked this then unlock this else Done this) in
  Done (mk (types this') (assign_ordered this' other) (m_is_locked other), clear other).

(** The mutexes a lock refers to; dereferencing a null pointer is undefined. *)
Definition deref_all (l : ordered_lock) : option (list mutex) := mapM id (m_init_ptr_tuple l).

(** The new lock, or [None] for an exception, and the lock itself afterwards. *)
Definition push_back (l : ordered_lock) (adds : list mutex) : locking (option ordered_lock * ordered_lock) :=
  let ans := default (types l ++ (order <$> adds)) in
  if is_locked l then
    let? added := create adds in
    match added, deref_all l with
    | None, _ => Done (None, l)
    | Some _, None => Undef
    | Some _, Some ms =>
        let? moved := move_assign ans (create_adopt (ms ++ adds)) in
        let? _u := destroy moved.2 in
        Done (Some moved.1, clear l)
    end
  else
    match deref_all l with
    | None => Undef
    | Some ms =>
        let? moved := move_assign ans (create_defer (ms ++ adds)) in
        let? _u := destroy moved.2 in
        Done (Some moved.1, clear l)
    end.

(** ** Clients: a thread locks, extends its lock any number of times and leaves
    the scope *)
Fixpoint extend (l : ordered_lock) (adds : list (list mutex)) : locking unit :=
  match adds with
  | [] => destroy l
  | a :: adds' =>
      let? r := push_back l a in
      let? _u := destroy r.2 in
      match r.1 with Some l' => extend l' adds' | None => Done tt end
  end.
Definition session (ms : list mutex) (adds : list (list mutex)) : locking unit :=
  let? l := create ms in
  match l with Some l => extend l adds | None => Done tt end.
Fixpoint client (ss : list (list mutex * list (list mutex))) : locking unit :=
  match ss with [] => Done tt | (ms, adds) :: ss' => let? _u := session ms adds in client ss' end.
End OrderedLock.

(** ** ordered_mutex_ref

    A reference to a [std::mutex], with an order of its own.  The [order] of a
    [std::mutex] is a name for the order of the references to it, if they agree. *)
Module OrderedMutexRef.
Record ordered_mutex_ref : Type := mk { order : nat; m_mtx : option mutex }.
Definition null (order : nat) : ordered_mutex_ref := mk order None.
Definition create (order : nat) (mtx : mutex) : ordered_mutex_ref := mk order (Some mtx).

Definition lock (r : ordered_mutex_ref) : locking bool :=
  match m_mtx r with Some m => Lock m (λ threw, Done threw) | None => Done false end.
Definition unlock (r : ordered_mutex_ref) : locking unit :=
  match m_mtx r with Some m => Unlock m (Done tt) | None => Done tt end.
Definition has_underlying (r : ordered_mutex_ref) : bool := bool_decide (is_Some (m_mtx r)).
(** [None]: a null pointer is dereferenced. *)
Definition get_underlying (r : ordered_mutex_ref) : option mutex := m_mtx r.

(** A program over lockable objects that are such references. *)
Fixpoint over_refs {A} (refs : mutex → ordered_mutex_ref) (p : locking A) : locking A :=
  match p with
  | Done a => Done a
  | Lock m k => let? threw := lock (refs m) in over_refs refs (k threw)
  | Unlock m k => let? _u := unlock (refs m) in over_refs refs k
  | Undef => Undef
  end.
End OrderedMutexRef.
