(* ===== verification/OrderedLockFacts.v ===== *)
(** * Correctness of ordered locks

    A program logic for the mutex programs, what the operations of
    [ordered_lock] do in it, and the absence of deadlocks among threads that
    hold one ordered lock at a time. *)
From stdpp Require Import sorting.
From S2P Require Import Prelude SortTuple OrderedLock.
Import OrderedLock.

(** ** A logic of locking in order

    [wp held p Q]: started with the mutexes [held], [p] only locks mutexes of a
    higher order than all it holds, only unlocks the one it locked last, does
    nothing undefined, and ends with a result and mutexes that satisfy [Q],
    whichever [lock]s throw. *)
Fixpoint wp {A} (held : list mutex) (p : locking A) (Q : A → list mutex → Prop) : Prop :=
  match p with
  | Done a => Q a held
  | Lock m k => Forall (λ x, order x < order m) held ∧ wp (held ++ [m]) (k false) Q ∧ wp held (k true) Q
  | Unlock m k => ∃ h, held = h ++ [m] ∧ wp h k Q
  | Undef => False
  end.

Lemma wp_mono {A} held (p : locking A) (Q Q' : A → list mutex → Prop) :
  wp held p Q → (∀ a h, Q a h → Q' a h) → wp held p Q'.
Proof.
  intros Hw HQ. revert held Hw. induction p as [a|m k IH|m k IH|]; intros held; simpl; [eauto|..|done].
  - intros (Ho & H1 & H2). eauto.
  - intros (h & Hh & H1). eauto.
Qed.

Lemma wp_bind {A B} held (p : locking A) (f : A → locking B) Q :
  wp held p (λ a h, wp h (f a) Q) → wp held (lbind p f) Q.
Proof.
  revert held. induction p as [a|m k IH|m k IH|]; intros held; simpl; [done|..|done].
  - intros (Ho & H1 & H2). eauto.
  - intros (h & Hh & H1). eauto.
Qed.

(** ** The order of the mutexes of a lock *)
Definition before (x y : mutex) : Prop := order x < order y.
Definition in_order (x y : mutex) : bool := order_comparator (order x) (order y).
Definition sorted (ms : list mutex) : list mutex := TypeSort.sort_tuple in_order ms.
Definition lock_of (ms : list mutex) (b : bool) : ordered_lock := mk (order <$> ms) (Some <$> ms) b.

Lemma sorted_perm ms : sorted ms ≡ₚ ms.
Proof. apply sort_perm. Qed.

Lemma sorted_types ms : order <$> sorted ms = TypeSort.sort_tuple order_comparator (order <$> ms).
Proof. apply (sort_map order_comparator order). Qed.

Lemma sorted_indices_types ms :
  IndexSort.sorted_indices order_comparator (order <$> ms) = IndexSort.sorted_indices in_order ms.
Proof.
  unfold IndexSort.sorted_indices.
  assert (IndexSort.make_indexed_tuple (order <$> ms) = prod_map order id <$> IndexSort.make_indexed_tuple ms) as ->.
  { unfold IndexSort.make_indexed_tuple. rewrite fmap_imap, imap_fmap. by apply imap_ext. }
  rewrite <- (sort_map (IndexSort.indexed_compare order_comparator) (prod_map order id)).
  rewrite <- list_fmap_compose. by apply list_fmap_ext.
Qed.

Lemma ordered_ptrs ms b : ordered_ptr_tuple (lock_of ms b) = Some <$> sorted ms.
Proof.
  unfold ordered_ptr_tuple, m_ordered_ptr_ref_tuple. simpl. rewrite sorted_indices_types.
  unfold sorted. rewrite <- index_sort. unfold IndexSort.do_sort_tuple2.
  induction (IndexSort.sorted_indices in_order ms) as [|i l IH]; [done|]. csimpl.
  rewrite list_lookup_fmap. destruct (ms !! i); csimpl; by rewrite IH.
Qed.

Lemma strictly_sorted (l : list nat) :
  StronglySorted (λ x y, Nat.ltb y x = false) l → has_equal_neighbours l = false → StronglySorted lt l.
Proof.
  induction 1 as [|x l Hl IH Hx]; [constructor|]. intros Hn. destruct l as [|y l]; [by repeat constructor|].
  change (Nat.eqb x y || has_equal_neighbours (y :: l) = false) in Hn.
  apply orb_false_iff in Hn as [Hxy Hn]. specialize (IH Hn). apply StronglySorted_cons. split; [|done].
  apply Forall_cons in Hx as [Hx _]. apply Nat.ltb_ge in Hx. apply Nat.eqb_neq in Hxy.
  apply StronglySorted_cons in IH as [Hy _]. constructor; [lia|].
  eapply Forall_impl; [done|]. simpl. intros. lia.
Qed.

Lemma sorted_before ms : is_ordered_lockable_types_valid (order <$> ms) = true → StronglySorted before (sorted ms).
Proof.
  intros [_ Hr]%andb_true_iff. apply negb_true_iff in Hr. unfold is_there_repeating_order_number in Hr.
  assert (StronglySorted lt (order <$> sorted ms)) as Hs.
  { rewrite sorted_types. apply strictly_sorted; [|done]. apply sort_sorted; unfold order_comparator.
    - intros x y. rewrite Nat.ltb_lt, Nat.ltb_ge. lia.
    - intros x y z. rewrite !Nat.ltb_ge. lia. }
  induction (sorted ms) as [|m l IH]; [constructor|]. csimpl in Hs.
  apply StronglySorted_cons in Hs as [Hm Hl]. constructor; [by apply IH|].
  by apply (Forall_fmap order (lt (order m))).
Qed.

Lemma sorted_weakly ms : StronglySorted (λ x y, order x ≤ order y) (sorted ms).
Proof.
  assert (StronglySorted (λ x y, in_order y x = false) (sorted ms)) as Hs.
  { apply sort_sorted; unfold in_order, order_comparator.
    - intros x y. rewrite Nat.ltb_lt, Nat.ltb_ge. lia.
    - intros x y z. rewrite !Nat.ltb_ge. lia. }
  induction Hs as [|x l _ IH Hx]; [constructor|]. constructor; [done|].
  eapply Forall_impl; [done|]. intros y Hy. by apply Nat.ltb_ge.
Qed.

Lemma list_snoc_case {A} (P : list A → Prop) : P [] → (∀ l x, P (l ++ [x])) → ∀ l, P l.
Proof. intros H1 H2 l. induction l using rev_ind; auto. Qed.

Lemma compare_before ms adds :
  compare_ordered_lockable_tuples (order <$> ms) (order <$> adds) = true →
  ∀ x y, x ∈ ms → y ∈ adds → before x y.
Proof.
  unfold compare_ordered_lockable_tuples. rewrite <- !sorted_types. intros Hc x y Hx Hy.
  rewrite <- (sorted_perm ms) in Hx. rewrite <- (sorted_perm adds) in Hy.
  pose proof (sorted_weakly ms) as H1. pose proof (sorted_weakly adds) as H2.
  destruct (sorted adds) as [|y0 l2]; [by case_match|]. csimpl in Hc.
  destruct (sorted ms) as [|l1 x0] using list_snoc_case; [done|].
  rewrite fmap_app in Hc. simpl in Hc. rewrite last_snoc_type in Hc. apply Nat.ltb_lt in Hc.
  apply StronglySorted_app in H1 as (H1 & _ & _). apply StronglySorted_cons in H2 as [H2 _].
  assert (order x ≤ order x0).
  { apply elem_of_app in Hx as [Hx| ->%list_elem_of_singleton]; [|done]. apply H1; [done|]. by constructor. }
  assert (order y0 ≤ order y).
  { apply elem_of_cons in Hy as [->|Hy]; [done|]. by eapply Forall_forall in H2. }
  unfold before. lia.
Qed.

(** ** Moving locks *)
Lemma sorted_indices_perm ms : IndexSort.sorted_indices in_order ms ≡ₚ seq 0 (length ms).
Proof.
  unfold IndexSort.sorted_indices. rewrite (sort_perm (IndexSort.indexed_compare in_order)).
  unfold IndexSort.make_indexed_tuple. rewrite fmap_imap.
  assert (∀ k, imap (λ n, snd ∘ (λ x : mutex, (x, (k + n)))) ms = seq k (length ms)) as H; [|by apply (reflexive_eq _ _ (H 0))].
  induction ms as [|m ms IH]; intros k; [done|]. csimpl. f_equal; [lia|]. rewrite <- IH.
  apply imap_ext. intros i x _. simpl. lia.
Qed.

Lemma assign_lookup {A} (l : list A) idx init j :
  length init = length l → Forall (λ i, i < length l) idx →
  foldl (λ init ip, <[ip.1 := ip.2]> init) init (zip idx (omap (l !!.) idx)) !! j
    = if decide (j ∈ idx) then l !! j else init !! j.
Proof.
  intros Hl Hi. revert init Hl. induction Hi as [|i idx Hi _ IH]; intros init Hl; [done|].
  csimpl. destruct (lookup_lt_is_Some_2 l i Hi) as [v Hv]. rewrite Hv. csimpl.
  rewrite IH by (by rewrite length_insert). destruct (decide (j ∈ idx)) as [Hj|Hj].
  - rewrite decide_True; [done|]. by right.
  - destruct (decide (j = i)) as [->|Hne].
    + rewrite decide_True by (by left). by rewrite list_lookup_insert_eq by lia.
    + rewrite decide_False by (intros [?|?]%elem_of_cons; done). by rewrite list_lookup_insert_ne.
Qed.

#[local] Instance before_antisymm : AntiSymm (=) before.
Proof. intros x y Hx Hy. unfold before in *. lia. Qed.

Lemma sorted_unique ms ms' :
  StronglySorted before ms → StronglySorted before ms' → ms ≡ₚ ms' → ms = ms'.
Proof. apply (StronglySorted_unique before). Qed.

Abbreviation valid ms := (is_ordered_lockable_types_valid (order <$> ms) = true).

(** A lock whose parameters are in another order takes over the mutexes. *)
Lemma assign_lock ms ms' b :
  valid ms → valid ms' → ms' ≡ₚ ms → assign_ordered (default (order <$> ms')) (lock_of ms b) = Some <$> ms'.
Proof.
  intros Hv Hv' Hp. unfold assign_ordered. rewrite ordered_ptrs.
  assert (sorted ms = sorted ms') as ->.
  { apply sorted_unique; [by apply sorted_before..|]. by rewrite !sorted_perm. }
  rewrite <- (ordered_ptrs ms' b). unfold ordered_ptr_tuple, m_ordered_ptr_ref_tuple. simpl.
  rewrite sorted_indices_types. pose proof (sorted_indices_perm ms') as Hi. apply list_eq. intros j.
  rewrite assign_lookup.
  - case_decide as Hj; [done|]. rewrite Hi, elem_of_seq in Hj. rewrite !lookup_ge_None_2; [done|rewrite ?length_fmap; lia..].
  - by rewrite !length_fmap.
  - apply Forall_forall. intros i. rewrite Hi, elem_of_seq, length_fmap. lia.
Qed.

(** ** The operations in the logic *)
Lemma wp_unlock_each base ms : wp (base ++ ms) (unlock_each (reverse (Some <$> ms))) (λ _ h, h = base).
Proof.
  induction ms as [|m ms IH] using rev_ind; simpl; [by rewrite app_nil_r|].
  rewrite fmap_app, reverse_app. simpl. exists (base ++ ms). split; [by rewrite app_assoc|done].
Qed.

Lemma wp_do_safe_lock base locked rest :
  StronglySorted before (base ++ locked ++ rest) →
  wp (base ++ locked) (do_safe_lock (Some <$> rest) locked)
     (λ threw h, h = if threw : bool then base else base ++ locked ++ rest).
Proof.
  revert locked. induction rest as [|m rest IH]; intros locked Hs; simpl; [by rewrite app_nil_r|]. split_and!.
  - apply Forall_forall. intros x Hx. rewrite app_assoc in Hs. apply StronglySorted_app in Hs as (Hs & _).
    apply (Hs x m); [done|by left].
  - rewrite <- app_assoc. eapply wp_mono; [apply IH|].
    + by rewrite <- app_assoc.
    + intros [] h ->; [done|]. by rewrite <- app_assoc.
  - apply wp_bind. eapply wp_mono; [apply wp_unlock_each|]. done.
Qed.

Lemma wp_create base ms :
  valid ms → (∀ x y, x ∈ base → y ∈ ms → before x y) → StronglySorted before base →
  wp base (create ms) (λ r h, match r with
                              | Some l => l = lock_of ms true ∧ h = base ++ sorted ms
                              | None => h = base
                              end).
Proof.
  intros Hv Hb Hs. unfold create, lock. change (create_defer ms) with (lock_of ms false). rewrite ordered_ptrs.
  apply wp_bind. pose proof (wp_do_safe_lock base [] (sorted ms)) as Hw. rewrite app_nil_r in Hw. simpl in Hw.
  eapply wp_mono; [apply Hw|].
  - apply StronglySorted_app. split_and!; [|done|by apply sorted_before].
    intros x y Hx Hy. apply Hb; [done|]. by rewrite <- sorted_perm.
  - intros [] h ->; done.
Qed.

Lemma wp_destroy base ms : wp (base ++ sorted ms) (destroy (lock_of ms true)) (λ _ h, h = base).
Proof.
  unfold destroy, unlock. simpl. rewrite ordered_ptrs. do 2 apply wp_bind. simpl.
  eapply wp_mono; [apply wp_unlock_each|]. done.
Qed.

Lemma before_inj l x y : StronglySorted before l → x ∈ l → y ∈ l → order x = order y → x = y.
Proof.
  intros Hs Hx Hy Ho. induction Hs as [|z l _ IH Hz]; [by apply elem_of_nil in Hx|].
  rewrite Forall_forall in Hz. unfold before in Hz.
  apply elem_of_cons in Hx as [->|Hx], Hy as [->|Hy]; [done|..|by apply IH].
  - specialize (Hz _ Hy). lia.
  - specialize (Hz _ Hx). lia.
Qed.

Lemma sorted_eq ms l : StronglySorted before l → l ≡ₚ ms → sorted ms = l.
Proof.
  intros Hs Hp. apply (StronglySorted_unique_strong (λ x y, order x ≤ order y)).
  - intros x y Hx Hy H1 H2. apply (before_inj l); [done| |done|lia]. by rewrite Hp, <- (sorted_perm ms).
  - apply sorted_weakly.
  - clear Hp. induction Hs as [|x l _ IH Hx]; [constructor|]. constructor; [done|].
    eapply Forall_impl; [done|]. unfold before. lia.
  - by rewrite sorted_perm.
Qed.

Lemma valid_sorted ms : ms ≠ [] → StronglySorted before (sorted ms) → valid ms.
Proof.
  intros Hn Hs. apply andb_true_iff. split.
  { apply Nat.ltb_lt. rewrite length_fmap. destruct ms; [done|simpl; lia]. }
  unfold is_there_repeating_order_number. rewrite <- sorted_types. apply negb_true_iff.
  induction Hs as [|x l _ IH Hx]; [done|]. destruct l as [|y l]; [done|]. csimpl in *.
  rewrite IH, orb_false_r. apply Forall_cons in Hx as [Hx _]. unfold before in Hx. apply Nat.eqb_neq. lia.
Qed.

(** The mutexes added by [push_back] follow the others. *)
Lemma sorted_app ms adds :
  valid ms → valid adds → compare_ordered_lockable_tuples (order <$> ms) (order <$> adds) = true →
  sorted (ms ++ adds) = sorted ms ++ sorted adds ∧ valid (ms ++ adds).
Proof.
  intros Hv Ha Hc. assert (StronglySorted before (sorted ms ++ sorted adds)) as Hs.
  { apply StronglySorted_app. split_and!; [|by apply sorted_before..].
    intros x y. rewrite !sorted_perm. by apply compare_before. }
  assert (sorted (ms ++ adds) = sorted ms ++ sorted adds) as E.
  { apply sorted_eq; [done|]. by rewrite !sorted_perm. }
  split; [done|]. apply valid_sorted; [|by rewrite E].
  intros [-> _]%app_nil. done.
Qed.

Lemma deref_lock ms b : deref_all (lock_of ms b) = Some ms.
Proof. apply mapM_Some. simpl. induction ms as [|m ms IH]; constructor; done. Qed.

Lemma move_assign_default ms b :
  valid ms → move_assign (default (order <$> ms)) (lock_of ms b) = Done (lock_of ms b, clear (lock_of ms b)).
Proof. intros Hv. unfold move_assign. simpl. by rewrite assign_lock. Qed.

Lemma wp_push_back ms adds :
  valid ms → valid adds → compare_ordered_lockable_tuples (order <$> ms) (order <$> adds) = true →
  wp (sorted ms) (push_back (lock_of ms true) adds)
     (λ r h, match r.1 with
             | Some l' => l' = lock_of (ms ++ adds) true ∧ h = sorted (ms ++ adds) ∧ r.2 = clear (lock_of ms true)
             | None => h = sorted ms ∧ r.2 = lock_of ms true
             end).
Proof.
  intros Hv Ha Hc. destruct (sorted_app ms adds Hv Ha Hc) as [Hs Hva].
  unfold push_back. change (is_locked (lock_of ms true)) with true. cbv iota. apply wp_bind.
  eapply wp_mono; [apply wp_create; [done| |by apply sorted_before]|].
  { intros x y. rewrite sorted_perm. by apply compare_before. }
  intros [l|] h; [|by intros ->]. intros [-> ->]. rewrite deref_lock.
  change (create_adopt (ms ++ adds)) with (lock_of (ms ++ adds) true). simpl types. rewrite <- fmap_app.
  rewrite move_assign_default by done. simpl. by rewrite Hs.
Qed.

(** ** Clients *)
Fixpoint extends_valid (ms : list mutex) (adds : list (list mutex)) : bool :=
  match adds with
  | [] => true
  | a :: adds' =>
      is_ordered_lockable_types_valid (order <$> a)
      && compare_ordered_lockable_tuples (order <$> ms) (order <$> a) && extends_valid (ms ++ a) adds'
  end.
(** The static assertions of all the locks of a client. *)
Definition client_valid (ss : list (list mutex * list (list mutex))) : bool :=
  forallb (λ s, is_ordered_lockable_types_valid (order <$> s.1) && extends_valid s.1 s.2) ss.

Lemma wp_extend ms adds :
  valid ms → extends_valid ms adds = true → wp (sorted ms) (extend (lock_of ms true) adds) (λ _ h, h = []).
Proof.
  revert ms. induction adds as [|a adds IH]; intros ms Hv He; simpl.
  { apply (wp_destroy [] ms). }
  simpl in He. apply andb_true_iff in He as [[Ha Hc]%andb_true_iff He].
  apply wp_bind. eapply wp_mono; [by apply wp_push_back|]. intros [[l'|] l] h; simpl.
  - intros (-> & -> & ->). simpl. apply IH; [|done]. by apply sorted_app.
  - intros (-> & ->). apply wp_bind. eapply wp_mono; [apply (wp_destroy [] ms)|]. done.
Qed.

Lemma wp_client ss : client_valid ss = true → wp [] (client ss) (λ _ h, h = []).
Proof.
  induction ss as [|[ms adds] ss IH]; [done|]. intros [[Hv He]%andb_true_iff Hss]%andb_true_iff. simpl.
  apply wp_bind. unfold session. apply wp_bind.
  eapply wp_mono; [apply (wp_create [] ms); [done| |constructor]|].
  { intros x y Hx. by apply elem_of_nil in Hx. }
  intros [l|] h; [|intros ->; simpl; by apply IH]. intros [-> ->].
  eapply wp_mono; [by apply wp_extend|]. intros _ h ->. by apply IH.
Qed.

(** ** Threads that share mutexes *)
Record system : Type := System {
  threads : list (locking unit);
  owner : gmap mutex nat
}.

(** What thread [i] can do on its own; a [Lock] waits while the mutex is owned. *)
Inductive run (s : system) (i : nat) : system → Prop :=
| run_lock m k :
    threads s !! i = Some (Lock m k) → owner s !! m = None →
    run s i (System (<[i := k false]> (threads s)) (<[m := i]> (owner s)))
| run_unlock m k :
    threads s !! i = Some (Unlock m k) → owner s !! m = Some i →
    run s i (System (<[i := k]> (threads s)) (delete m (owner s))).

(** A step is that, or a [lock] that throws. *)
Inductive step (s : system) : system → Prop :=
| step_run i s' : run s i s' → step s s'
| step_throw i m k :
    threads s !! i = Some (Lock m k) → step s (System (<[i := k true]> (threads s)) (owner s)).

(** What each thread holds: [helds] is a list of their mutexes. *)
Record sys_inv (s : system) (helds : list (list mutex)) : Prop := {
  sys_wp : Forall2 (λ p held, wp held p (λ _ h, h = [])) (threads s) helds;
  sys_owner m i : owner s !! m = Some i ↔ ∃ h, helds !! i = Some h ∧ m ∈ h;
  sys_nodup : Forall (StronglySorted before) helds
}.

Lemma sys_thread s helds i p :
  sys_inv s helds → threads s !! i = Some p →
  ∃ h, helds !! i = Some h ∧ wp h p (λ _ h, h = []) ∧ StronglySorted before h.
Proof.
  intros I Hp. destruct (Forall2_lookup_l _ _ _ _ _ (sys_wp _ _ I) Hp) as (h & Hh & Hw).
  exists h. split_and!; [done..|]. by apply (Forall_lookup_1 _ _ _ _ (sys_nodup _ _ I) Hh).
Qed.

Lemma sys_update s helds i p h ow :
  sys_inv s helds → i < length helds → wp h p (λ _ h, h = []) → StronglySorted before h →
  (∀ m j, ow !! m = Some j ↔ ∃ h', <[i := h]> helds !! j = Some h' ∧ m ∈ h') →
  sys_inv (System (<[i := p]> (threads s)) ow) (<[i := h]> helds).
Proof.
  intros I Hi Hw Hs Ho. split; [|done|].
  - by apply Forall2_insert; [apply (sys_wp _ _ I)|].
  - by apply Forall_insert; [apply (sys_nodup _ _ I)|].
Qed.

Lemma lock_inv s helds i m k :
  sys_inv s helds → threads s !! i = Some (Lock m k) → owner s !! m = None →
  ∃ helds', sys_inv (System (<[i := k false]> (threads s)) (<[m := i]> (owner s))) helds'.
Proof.
  intros I Hp Hm. destruct (sys_thread _ _ _ _ I Hp) as (h & Hh & Hw & Hs).
  pose proof (lookup_lt_Some _ _ _ Hh) as Hi. simpl in Hw.
  destruct Hw as (Ho & Hw & _). exists (<[i := h ++ [m]]> helds).
  apply sys_update; [done..| |].
  { apply StronglySorted_app. split_and!; [|done|by repeat constructor].
    intros x y Hx ->%list_elem_of_singleton. rewrite Forall_forall in Ho. by apply Ho. }
  intros m' j. destruct (decide (i = j)) as [<-|Hij].
  - rewrite list_lookup_insert_eq by done. destruct (decide (m = m')) as [<-|Hm'].
    + rewrite lookup_insert_eq. split; [|done]. intros _. eexists. split; [done|]. apply elem_of_app. right. by left.
    + rewrite lookup_insert_ne by done. rewrite (sys_owner _ _ I).
      split; intros (h' & Hh' & Hin); simplify_eq; eexists; (split; [done|]).
      * apply elem_of_app. by left.
      * by apply elem_of_app in Hin as [?| ->%list_elem_of_singleton].
  - rewrite list_lookup_insert_ne by done. rewrite <- (sys_owner _ _ I).
    destruct (decide (m = m')) as [<-|Hm'].
    + rewrite lookup_insert_eq, Hm. split; congruence.
    + by rewrite lookup_insert_ne.
Qed.

Lemma unlock_inv s helds i m k :
  sys_inv s helds → threads s !! i = Some (Unlock m k) → owner s !! m = Some i →
  ∃ helds', sys_inv (System (<[i := k]> (threads s)) (delete m (owner s))) helds'.
Proof.
  intros I Hp Hm. destruct (sys_thread _ _ _ _ I Hp) as (h & Hh & Hw & Hs).
  pose proof (lookup_lt_Some _ _ _ Hh) as Hi. simpl in Hw.
  destruct Hw as (h1 & -> & Hw). exists (<[i := h1]> helds).
  apply StronglySorted_app in Hs as (Hlt & Hs & _). apply sys_update; [done..|].
  intros m' j. destruct (decide (m = m')) as [<-|Hm'].
  - rewrite lookup_delete_eq. split; [done|]. intros (h' & Hh' & Hin). exfalso.
    destruct (decide (i = j)) as [<-|Hij].
    + rewrite list_lookup_insert_eq in Hh' by done. simplify_eq.
      specialize (Hlt m m Hin ltac:(by left)). unfold before in Hlt. lia.
    + rewrite list_lookup_insert_ne in Hh' by done.
      assert (owner s !! m = Some j) by (apply (sys_owner _ _ I); eauto). congruence.
  - rewrite lookup_delete_ne by done. rewrite (sys_owner _ _ I). destruct (decide (i = j)) as [<-|Hij].
    + rewrite list_lookup_insert_eq by done. rewrite Hh.
      split; intros (h' & ? & Hin); simplify_eq; eexists; (split; [done|]).
      * by apply elem_of_app in Hin as [?| ->%list_elem_of_singleton].
      * apply elem_of_app. by left.
    + by rewrite list_lookup_insert_ne.
Qed.

Lemma run_inv s helds i s' : sys_inv s helds → run s i s' → ∃ helds', sys_inv s' helds'.
Proof. intros I [m k Hp Hm|m k Hp Hm]; [by eapply lock_inv|by eapply unlock_inv]. Qed.

Lemma step_inv s helds s' : sys_inv s helds → step s s' → ∃ helds', sys_inv s' helds'.
Proof.
  intros I [i s'' Hr|i m k Hp]; [by eapply run_inv|].
  destruct (sys_thread _ _ _ _ I Hp) as (h & Hh & (_ & _ & Hw) & Hs).
  exists (<[i := h]> helds). apply sys_update; [done|by eapply lookup_lt_Some|done..|].
  intros m' j. rewrite list_insert_id by done. apply (sys_owner _ _ I).
Qed.

Lemma reach_inv s s' : rtc step s s' → (∃ helds, sys_inv s helds) → ∃ helds, sys_inv s' helds.
Proof. induction 1 as [|s1 s2 s3 H12 _ IH]; [done|]. intros [h I]. apply IH. by eapply step_inv. Qed.

(** ** No deadlock *)
Definition waits_for (p : locking unit) : nat := match p with Lock m _ => order m | _ => 0 end.

(** A thread that waits leads to one that can run: the owner of the mutex it
    waits for has not ended, and waits, if it does, for a higher order. *)
Lemma blocked_runs s helds n i m k :
  sys_inv s helds → threads s !! i = Some (Lock m k) →
  max_list (waits_for <$> threads s) - order m ≤ n → ∃ j s', run s j s'.
Proof.
  intros I. revert i m k. induction n as [n IH] using lt_wf_ind. intros i m k Hp Hn.
  destruct (owner s !! m) as [j|] eqn:Hm; [|by eexists _, _; eapply run_lock].
  apply (sys_owner _ _ I) in Hm as (h & Hh & Hin).
  destruct (Forall2_lookup_r _ _ _ _ _ (sys_wp _ _ I) Hh) as (p & Hj & Hw).
  destruct p as [a|m' k'|m' k'|]; simpl in Hw.
  - subst. by apply elem_of_nil in Hin.
  - destruct Hw as (Ho & _). rewrite Forall_forall in Ho. specialize (Ho _ Hin).
    assert (order m' ≤ max_list (waits_for <$> threads s)).
    { apply max_list_elem_of_le. apply list_elem_of_fmap. exists (Lock m' k').
      split; [done|]. by eapply list_elem_of_lookup_2. }
    eapply (IH (max_list (waits_for <$> threads s) - order m')); [lia|done|lia].
  - destruct Hw as (h1 & -> & _). eexists _, _. eapply run_unlock; [done|].
    apply (sys_owner _ _ I). eexists. split; [done|]. apply elem_of_app. right. by left.
  - done.
Qed.

Definition is_done (p : locking unit) : bool := match p with Done _ => true | _ => false end.

Lemma sys_progress s helds :
  sys_inv s helds → (∃ j s', run s j s') ∨ (Forall (λ p, is_done p = true) (threads s) ∧ owner s = ∅).
Proof.
  intros I. assert (∀ p, {is_done p = true} + {is_done p = false}) as dec.
  { intros p. destruct (is_done p); auto. }
  destruct (Forall_Exists_dec _ _ dec (threads s)) as [Hd|Hd]; [right|left].
  - split; [done|]. apply map_empty. intros m. destruct (owner s !! m) as [j|] eqn:Hm; [|done]. exfalso.
    apply (sys_owner _ _ I) in Hm as (h & Hh & Hin).
    destruct (Forall2_lookup_r _ _ _ _ _ (sys_wp _ _ I) Hh) as (p & Hj & Hw).
    pose proof (Forall_lookup_1 _ _ _ _ Hd Hj) as Hp. destruct p; [|done..]. simpl in Hw. subst.
    by apply elem_of_nil in Hin.
  - apply Exists_exists in Hd as (p & [i Hi]%list_elem_of_lookup & Hp).
    destruct (sys_thread _ _ _ _ I Hi) as (h & Hh & Hw & _). destruct p as [a|m k|m k|]; simpl in Hw; [done|..|done].
    + by eapply blocked_runs.
    + destruct Hw as (h1 & -> & _). eexists _, _. eapply run_unlock; [done|].
      apply (sys_owner _ _ I). eexists. split; [done|]. apply elem_of_app. right. by left.
Qed.

(** ** Termination *)
Fixpoint depth {A} (p : locking A) : nat :=
  match p with
  | Done _ | Undef => 0
  | Lock _ k => S (depth (k false) + depth (k true))
  | Unlock _ k => S (depth k)
  end.

Lemma depth_insert (ts : list (locking unit)) i p p' :
  ts !! i = Some p → depth p' < depth p → sum_list (depth <$> <[i := p']> ts) < sum_list (depth <$> ts).
Proof.
  revert i. induction ts as [|t ts IH]; intros [|i] Hi Hd; simplify_eq/=; [lia|].
  specialize (IH i Hi Hd). lia.
Qed.

Lemma step_acc s : Acc (flip step) s.
Proof.
  remember (sum_list (depth <$> threads s)) as n eqn:Hn. revert s Hn.
  induction n as [n IH] using lt_wf_ind. intros s ->. constructor. intros s' Hs.
  apply (IH (sum_list (depth <$> threads s'))); [|done].
  destruct Hs as [i s' [m k Hp _|m k Hp _]|i m k Hp]; simpl; eapply depth_insert; try done; simpl; lia.
Qed.

(** ** Properties *)

(** A valid [ordered_lock] locks all of its mutexes in increasing order, above
    the ones the thread holds already, or none when a [lock] throws, and its
    destructor unlocks exactly them; a lock that is extended owns the old and
    the new mutexes, or is unchanged when a [lock] throws; a lock that is moved
    to one with its parameters in another order refers to the same mutexes. *)
Theorem ordered_lock_all_or_nothing base ms ms' adds b :
  is_ordered_lockable_types_valid (order <$> ms) = true → (∀ x y, x ∈ base → y ∈ ms → order x < order y) →
  StronglySorted before base → is_ordered_lockable_types_valid (order <$> adds) = true →
  compare_ordered_lockable_tuples (order <$> ms) (order <$> adds) = true →
  ms' ≡ₚ ms → is_ordered_lockable_types_valid (order <$> ms') = true →
  (∃ l, StronglySorted before l ∧ l ≡ₚ ms ∧
   wp base (create ms) (λ r h, match r with
                               | Some o => is_locked o = true ∧ h = base ++ l ∧ wp h (destroy o) (λ _ h', h' = base)
                               | None => h = base
                               end) ∧
   wp l (push_back (lock_of ms true) adds)
     (λ r h, match r.1 with
             | Some o => o = lock_of (ms ++ adds) true ∧ h ≡ₚ ms ++ adds ∧ wp h (destroy o) (λ _ h', h' = []) ∧
                         is_locked r.2 = false
             | None => h = l ∧ r.2 = lock_of ms true
             end)) ∧
  move_construct (order <$> ms') (lock_of ms b) = (lock_of ms' b, clear (lock_of ms b)).
Proof.
  intros Hv Hb Hs Ha Hc Hp Hv'. split.
  - exists (sorted ms). split_and!; [by apply sorted_before|apply sorted_perm|..].
    + eapply wp_mono; [by apply wp_create|]. intros [l|] h; [|done]. intros [-> ->].
      split_and!; [done..|]. apply wp_destroy.
    + eapply wp_mono; [by apply wp_push_back|]. intros [[l'|] l] h; simpl; [|done]. intros (-> & -> & ->).
      split_and!; [done|apply sorted_perm|apply (wp_destroy [])|done].
  - unfold move_construct. by rewrite assign_lock.
Qed.

(** Threads that follow the logic start well. *)
Lemma sys_start ps : Forall (λ p, wp [] p (λ _ h, h = [])) ps → sys_inv (System ps ∅) ((λ _, []) <$> ps).
Proof.
  intros Hw. split; simpl.
  - rewrite Forall2_fmap_r. apply Forall2_same_length_lookup_2; [done|]. intros i p p' Hp Hp'. simplify_eq.
    by eapply Forall_lookup_1 in Hw.
  - intros m i. rewrite lookup_empty, list_lookup_fmap. split; [done|].
    intros (h & Hh & Hin). destruct (ps !! i); simplify_eq/=. by apply elem_of_nil in Hin.
  - apply Forall_fmap, Forall_true. intros p. constructor.
Qed.
Lemma clients_wp cs : forallb client_valid cs = true → Forall (λ p, wp [] p (λ _ h, h = [])) (client <$> cs).
Proof.
  intros Hv. apply Forall_fmap, Forall_forall. intros c Hc. apply wp_client. rewrite List.forallb_forall in Hv.
  by apply Hv, list_elem_of_In.
Qed.

(** C36: threads that hold one ordered lock at a time never deadlock: from every
    reachable state some thread can run, or all have ended and every mutex is
    free; no thread ever does anything undefined, and every execution ends. *)
Theorem ordered_locks_no_deadlock (cs : list (list (list mutex * list (list mutex)))) s :
  forallb client_valid cs = true → rtc step (System (client <$> cs) ∅) s →
  ((∃ i s', run s i s') ∨ (Forall (λ p, is_done p = true) (threads s) ∧ owner s = ∅)) ∧
  (Undef ∉ threads s) ∧ (∀ i m k, threads s !! i = Some (Unlock m k) → owner s !! m = Some i) ∧
  Acc (flip step) s.
Proof.
  intros Hv Hr. assert (∃ helds, sys_inv s helds) as [helds I].
  { eapply reach_inv; [done|]. eexists. by apply sys_start, clients_wp. }
  split_and!; [by eapply sys_progress| | |apply step_acc].
  - intros [i Hi]%list_elem_of_lookup. by destruct (sys_thread _ _ _ _ I Hi) as (h & _ & Hw & _).
  - intros i m k Hi. destruct (sys_thread _ _ _ _ I Hi) as (h & Hh & (h1 & -> & _) & _).
    apply (sys_owner _ _ I). eexists. split; [done|]. apply elem_of_app. right. by left.
Qed.

Lemma ordered_lock_all_or_nothing_witness :
  move_construct [1; 3] (lock_of [Mutex 3 0; Mutex 1 1] true) =
    (lock_of [Mutex 1 1; Mutex 3 0] true, clear (lock_of [Mutex 3 0; Mutex 1 1] true)).
Proof.
  apply (ordered_lock_all_or_nothing [Mutex 0 7] [Mutex 3 0; Mutex 1 1] [Mutex 1 1; Mutex 3 0] [Mutex 5 2] true).
  - reflexivity.
  - intros x y ->%list_elem_of_singleton Hy.
    repeat (apply elem_of_cons in Hy as [->|Hy]; [simpl; lia|]). by apply elem_of_nil in Hy.
  - by repeat constructor.
  - reflexivity.
  - reflexivity.
  - constructor.
  - reflexivity.
Defined.

(** Two threads that name the same mutexes in opposite orders. *)
Definition crossed : list (list (list mutex * list (list mutex))) :=
  [[([Mutex 1 0; Mutex 2 1], [[Mutex 3 2]])]; [([Mutex 2 1; Mutex 1 0], [])]].

Lemma ordered_locks_no_deadlock_witness : ∃ i s', run (System (client <$> crossed) ∅) i s'.
Proof.
  destruct (ordered_locks_no_deadlock crossed (System (client <$> crossed) ∅)) as [[Hr|[Hd _]] _].
  - reflexivity.
  - apply rtc_refl.
  - exact Hr.
  - exfalso. apply Forall_cons in Hd as [Hd _]. by vm_compute in Hd.
Defined.

(** ** Locks over references to mutexes

    With references that give each mutex one order the locks are as safe as over
    mutexes, also if some refer to nothing. *)
Import OrderedMutexRef.
Definition agree (refs : mutex → ordered_mutex_ref) : Prop :=
  ∀ m m', m_mtx (refs m) = Some m' → OrderedLock.order m' = OrderedLock.order m.

Lemma wp_over_refs {A} refs held (p : locking A) Q :
  agree refs → wp held p Q →
  wp (omap (λ m, m_mtx (refs m)) held) (over_refs refs p) (λ a h, ∃ h', Q a h' ∧ h = omap (λ m, m_mtx (refs m)) h').
Proof.
  intros Ha. revert held. induction p as [a|m k IH|m k IH|]; intros held; simpl; [by eexists|..|done].
  - intros (Ho & Hf & Ht). unfold OrderedMutexRef.lock. pose proof (IH false _ Hf) as IHf. rewrite omap_app in IHf. simpl in IHf.
    destruct (m_mtx (refs m)) as [m'|] eqn:Em; simpl; [|by rewrite app_nil_r in IHf]. split_and!; [|done|by apply IH].
    apply Forall_forall. intros x' (x & Hx & Ex)%list_elem_of_omap. rewrite Forall_forall in Ho.
    rewrite (Ha _ _ Ex), (Ha _ _ Em). by apply Ho.
  - intros (h & -> & Hk). unfold OrderedMutexRef.unlock. rewrite omap_app. simpl.
    destruct (m_mtx (refs m)) as [m'|]; simpl; [|rewrite app_nil_r]; [eexists; split; [done|]|]; by apply IH.
Qed.

Lemma ordered_refs_no_deadlock refs (cs : list (list (list mutex * list (list mutex)))) s :
  agree refs → forallb client_valid cs = true → rtc step (System (over_refs refs ∘ client <$> cs) ∅) s →
  ((∃ i s', run s i s') ∨ (Forall (λ p, is_done p = true) (threads s) ∧ owner s = ∅)) ∧ Acc (flip step) s.
Proof.
  intros Ha Hv Hr. assert (∃ helds, sys_inv s helds) as [helds I]; [|split; [by eapply sys_progress|apply step_acc]].
  eapply reach_inv; [done|]. eexists. apply sys_start. apply Forall_fmap, Forall_forall. intros c Hc.
  apply clients_wp in Hv. rewrite Forall_fmap, Forall_forall in Hv. specialize (Hv c Hc).
  eapply wp_mono; [by apply (wp_over_refs refs [])|]. by intros a h (h' & -> & ->).
Qed.

(** References that disagree on the order of a mutex can deadlock. *)
Definition disagreeing (m : mutex) : ordered_mutex_ref :=
  create (OrderedLock.order m) (Mutex 0 (if decide (OrderedLock.order m = addr m) then 0 else 1)).
Definition opposed : list (list (list mutex * list (list mutex))) :=
  [[([Mutex 1 1; Mutex 2 1], [])]; [([Mutex 1 2; Mutex 2 2], [])]].
Lemma disagreeing_refs_deadlock :
  forallb client_valid opposed = true ∧
  ∃ s, rtc step (System (over_refs disagreeing ∘ client <$> opposed) ∅) s ∧
       Forall (λ p, is_done p = false) (threads s) ∧ ∀ i s', ¬ run s i s'.
Proof.
  split; [done|]. eexists. split; [|split].
  - eapply rtc_l; [eapply (step_run _ 0), run_lock; vm_compute; reflexivity|].
    eapply rtc_l; [eapply (step_run _ 1), run_lock; vm_compute; reflexivity|]. reflexivity.
  - by repeat constructor.
  - intros [|[|i]] s' [m k Hm Ho|m k Hm Ho]; vm_compute in Hm; by simplify_eq.
Qed.
