(* ===== verification/Connector.v ===== *)
(** * Connectors: listening, the handshake and authentication

    The server connector keeps one pipe waiting for a client while it is
    running and runs the handshake of every accepted pipe; the client connector
    opens a pipe and runs its side.  The pipe environment may complete any
    pending operation at any time with any result. *)
From S2P Require Import Prelude RpcTypes.
Local Open Scope Z_scope.

Abbreviation message := (list Z).

(** ** iauthenticator *)
Class Authenticator : Type := {
  create_request : message;
  create_response : message → message;
  check_request : message → bool;
  check_response : message → bool
}.
(** Client and server agree. *)
Class AuthenticatorLaws `{Authenticator} : Prop := {
  request_accepted : check_request create_request = true;
  response_accepted : check_response (create_response create_request) = true
}.

(** [simple_authenticator]: buffers of one byte that is not initialised (here
    [b]), and everything is accepted. *)
Definition simple_authenticator (b : Z) : Authenticator := {|
  create_request := [b];
  create_response := λ _, [b];
  check_request := λ _, true;
  check_response := λ _, true
|}.

Module ServerConnector.
Section server.
Context `{Authenticator}.

(** What is posted to the notify strand; a new connection with the request its
    client sent. *)
Inductive notification : Type := Started | Stopped | NewConnection (id : Z) (request : message).

(** A pipe that waits for a client, then for its request, then for the write of
    the response to that request.  [token] is the shared flag of the [start]
    it belongs to. *)
Inductive phase : Type := WaitPipe | WaitRead | WaitWrite (request : message).
#[global] Instance phase_eq_dec : EqDecision phase.
Proof. solve_decision. Defined.
Record attempt : Type := Attempt { connection_id : Z; token : nat; a_phase : phase }.

(** [flags] holds the shared booleans [is_running_sp] points to, and
    [m_connection_future_map] the keys of the map. *)
Record impl : Type := mk {
  m_next_connection_id : Z;
  flags : list bool;
  m_is_running_sp : option nat;
  attempts : list attempt;
  m_connection_future_map : gset Z;
  m_notify_strand : list notification
}.

Definition create : impl := mk 0 [] None [] ∅ [].

Definition flag (t : nat) (c : impl) : bool := default false (flags c !! t).
Definition is_active (c : impl) : bool :=
  match m_is_running_sp c with Some t => flag t c | None => false end.
Definition get_pending_connections_count (c : impl) : nat := size (m_connection_future_map c).

Definition notify (n : notification) (c : impl) : impl :=
  mk (m_next_connection_id c) (flags c) (m_is_running_sp c) (attempts c) (m_connection_future_map c)
     (m_notify_strand c ++ [n]).
Definition notify_on_start (c : impl) : impl := notify Started c.
Definition notify_on_stop (c : impl) : impl := notify Stopped c.
Definition notify_on_new_connection (id : Z) (request : message) (t : nat) (c : impl) : impl :=
  if flag t c then notify (NewConnection id request) c else c.

Definition with_attempts (l : list attempt) (c : impl) : impl :=
  mk (m_next_connection_id c) (flags c) (m_is_running_sp c) l (m_connection_future_map c) (m_notify_strand c).
Definition with_running (t : option nat) (fs : list bool) (c : impl) : impl :=
  mk (m_next_connection_id c) fs t (attempts c) (m_connection_future_map c) (m_notify_strand c).

(** [create_pipe] and the registration of the attempt. *)
Definition pipe_connect (t : nat) (c : impl) : impl :=
  let id := m_next_connection_id c in
  mk (u64 (id + 1)) (flags c) (m_is_running_sp c) (attempts c ++ [Attempt id t WaitPipe])
     ({[ id ]} ∪ m_connection_future_map c) (m_notify_strand c).

Definition start_pipe_connect (first_time : bool) (t : nat) (c : impl) : outcome impl unit :=
  if first_time then
    if is_active c then Throw logic_error c
    else let c := notify_on_start c in Ok tt (pipe_connect t (with_running (Some t) (flags c) c))
  else if negb (flag t c) then Ok tt c else Ok tt (pipe_connect t c).

Definition start (c : impl) : outcome impl unit :=
  start_pipe_connect true (length (flags c)) (with_running (m_is_running_sp c) (flags c ++ [true]) c).

Definition clear_connection_future_map (c : impl) : impl :=
  mk (m_next_connection_id c) (flags c) (m_is_running_sp c) (attempts c) ∅ (m_notify_strand c).
Definition erase_connection_future_from_map (id : Z) (c : impl) : impl :=
  mk (m_next_connection_id c) (flags c) (m_is_running_sp c) (attempts c)
     (m_connection_future_map c ∖ {[ id ]}) (m_notify_strand c).

(** The pipe that waits is cancelled: its attempt fails later. *)
Definition stop_impl (t : option nat) (c : impl) : impl :=
  match t with
  | None => c
  | Some t =>
      if negb (flag t c) then c
      else notify_on_stop (clear_connection_future_map (with_running None (<[t := false]> (flags c)) c))
  end.
Definition stop (c : impl) : impl := stop_impl (m_is_running_sp c) c.

(** ** The continuations of an attempt

    [i] is its place in the list of attempts. *)

(** The pipe is connected, or is not. *)
Definition pipe_result (i : nat) (r : PipeWaitRes.pipe_wait_res) (c : impl) : impl :=
  match attempts c !! i with
  | Some (Attempt id t WaitPipe) =>
      if PipeWaitRes.is_fail r then stop_impl (Some t) (with_attempts (delete i (attempts c)) c)
      else
        match start_pipe_connect false t c with
        | Ok _ c' => with_attempts (<[i := Attempt id t WaitRead]> (attempts c')) c'
        | _ => c
        end
  | _ => c
  end.

(** The end of an attempt, in [finally]. *)
Definition finish (i : nat) (id : Z) (c : impl) : impl :=
  erase_connection_future_from_map id (with_attempts (delete i (attempts c)) c).

Definition read_result (i : nat) (r : PipeOpRes.pipe_op_res) (b : message) (c : impl) : impl :=
  match attempts c !! i with
  | Some (Attempt id t WaitRead) =>
      if PipeOpRes.is_fail r || negb (check_request b) then finish i id c
      else with_attempts (<[i := Attempt id t (WaitWrite b)]> (attempts c)) c
  | _ => c
  end.

Definition write_result (i : nat) (r : PipeOpRes.pipe_op_res) (c : impl) : impl :=
  match attempts c !! i with
  | Some (Attempt id t (WaitWrite b)) =>
      if PipeOpRes.is_fail r then finish i id c
      else finish i id (notify_on_new_connection id b t c)
  | _ => c
  end.

(** Ids stay below [2^64]. *)
Inductive step (c : impl) : impl → Prop :=
| step_start c' : m_next_connection_id c < 2 ^ 64 - 1 → start c = Ok tt c' → step c c'
| step_stop : step c (stop c)
| step_pipe i r : m_next_connection_id c < 2 ^ 64 - 1 → step c (pipe_result i r c)
| step_read i r b : step c (read_result i r b c)
| step_write i r : step c (write_result i r c).
End server.
End ServerConnector.

Module ClientConnector.
Section client.
Context `{Authenticator}.

(** The future of [create_connection_async]: pending in a phase, a connection, or
    an exception. *)
Inductive state : Type := WaitPipe | WaitWrite | WaitRead | Connected | Failed (e : exn).

Definition create_connection_async : state := WaitPipe.

(** The pipe is open: the request to write, or the exception. *)
Definition pipe_result (r : PipeWaitRes.pipe_wait_res) (s : state) : state * option message :=
  match s with
  | WaitPipe => if PipeWaitRes.is_fail r then (Failed runtime_error, None) else (WaitWrite, Some create_request)
  | _ => (s, None)
  end.
Definition write_result (r : PipeOpRes.pipe_op_res) (s : state) : state :=
  match s with
  | WaitWrite => if PipeOpRes.is_fail r then Failed runtime_error else WaitRead
  | _ => s
  end.
Definition read_result (r : PipeOpRes.pipe_op_res) (b : message) (s : state) : state :=
  match s with
  | WaitRead =>
      if PipeOpRes.is_fail r then Failed runtime_error
      else if negb (check_response b) then Failed runtime_error
      else Connected
  | _ => s
  end.
End client.
End ClientConnector.
