(* ===== verification/ConnectorFacts.v ===== *)
(** * Correctness of the connectors

    The server connector is always listening while it runs, reports rounds of
    start, new connections and stop, and only authenticated clients; a handshake
    with a client that agrees connects both. *)
From S2P Require Import Prelude RpcTypes Connector.
Local Open Scope Z_scope.

(** ** Invariants of the server connector *)
Import ServerConnector.
Section facts.
Context `{Authenticator}.
Implicit Types (c : impl) (l : list attempt).

(** The notifications so far: [Some b] when they are rounds of [Started], new
    connections and [Stopped], and [b] whether the last round is open. *)
Definition observe (s : option bool) (n : notification) : option bool :=
  match s, n with
  | Some false, Started => Some true
  | Some true, Stopped => Some false
  | Some true, NewConnection _ _ => Some true
  | _, _ => None
  end.
Definition rounds (ns : list notification) : option bool := foldl observe (Some false) ns.

Definition new_ids (ns : list notification) : list Z :=
  omap (λ n, match n with NewConnection id _ => Some id | _ => None end) ns.
Definition listening (t : nat) l : nat := length (filter (λ a, token a = t ∧ a_phase a = WaitPipe) l).
Definition ids_of (t : nat) l : gset Z := list_to_set (connection_id <$> filter (λ a, token a = t) l).

(** [n] pipes wait for a client while the connector runs. *)
Record inv (n : nat) c : Prop := {
  inv_current t : flag t c = true ↔ m_is_running_sp c = Some t;
  inv_tokens : Forall (λ a, (token a < length (flags c))%nat) (attempts c);
  inv_listening t : m_is_running_sp c = Some t → listening t (attempts c) = n;
  inv_map : m_connection_future_map c = match m_is_running_sp c with Some t => ids_of t (attempts c) | None => ∅ end;
  inv_rounds : rounds (m_notify_strand c) = Some (is_active c);
  inv_ids : NoDup ((connection_id <$> attempts c) ++ new_ids (m_notify_strand c));
  inv_next : Forall (λ id, 0 ≤ id < m_next_connection_id c)
               ((connection_id <$> attempts c) ++ new_ids (m_notify_strand c));
  inv_bound : 0 ≤ m_next_connection_id c < 2 ^ 64;
  inv_auth : Forall (λ a, match a_phase a with WaitWrite b => check_request b = true | _ => True end) (attempts c);
  inv_new : Forall (λ n, match n with NewConnection _ b => check_request b = true | _ => True end) (m_notify_strand c)
}.

Lemma connector_inv_create : inv 1 create.
Proof. split; simpl; try done; try by constructor. Qed.

(** ** Lists of attempts *)
Lemma listening_app t l1 l2 : listening t (l1 ++ l2) = (listening t l1 + listening t l2)%nat.
Proof. unfold listening. by rewrite filter_app, length_app. Qed.
Lemma ids_of_app t l1 l2 : ids_of t (l1 ++ l2) = ids_of t l1 ∪ ids_of t l2.
Proof. unfold ids_of. rewrite filter_app, fmap_app. apply list_to_set_app_L. Qed.
Lemma listening_perm t l1 l2 : l1 ≡ₚ l2 → listening t l1 = listening t l2.
Proof. intros Hp. unfold listening. by rewrite Hp. Qed.
Lemma ids_of_perm t l1 l2 : l1 ≡ₚ l2 → ids_of t l1 = ids_of t l2.
Proof. intros Hp. unfold ids_of. by rewrite Hp. Qed.
Lemma delete_perm l i a : l !! i = Some a → l ≡ₚ a :: delete i l.
Proof. apply delete_Permutation. Qed.
Lemma insert_perm l i a a' : l !! i = Some a → <[i := a']> l ≡ₚ a' :: delete i l.
Proof.
  intros (l1 & l2 & -> & ->)%list_elem_of_split_length. rewrite delete_middle.
  rewrite insert_app_r_alt, Nat.sub_diag by done. simpl. by rewrite Permutation_middle.
Qed.

Lemma listening_cons t a l : listening t (a :: l) = (listening t [a] + listening t l)%nat.
Proof. apply (listening_app t [a] l). Qed.
Lemma ids_of_cons t a l : ids_of t (a :: l) = ids_of t [a] ∪ ids_of t l.
Proof. apply (ids_of_app t [a] l). Qed.
Lemma ids_of_one t a : ids_of t [a] = if decide (token a = t) then {[ connection_id a ]} else ∅.
Proof. unfold ids_of. rewrite filter_cons. case_decide; simpl; [|done]. by rewrite union_empty_r_L. Qed.
Lemma ids_of_sub t l id : id ∈ ids_of t l → id ∈ connection_id <$> l.
Proof.
  unfold ids_of. rewrite elem_of_list_to_set. intros (a & -> & [_ Ha]%list_elem_of_filter)%list_elem_of_fmap.
  by apply list_elem_of_fmap_2.
Qed.

(** An attempt goes on: same id and token, another phase. *)
Lemma inv_replace n n' c l rest a a' :
  inv n c → attempts c ≡ₚ a :: rest → l ≡ₚ a' :: rest →
  connection_id a' = connection_id a → token a' = token a →
  match a_phase a' with WaitWrite b => check_request b = true | _ => True end →
  (∀ t, m_is_running_sp c = Some t → (n + listening t [a'] = n' + listening t [a])%nat) →
  inv n' (with_attempts l c).
Proof.
  intros I Hp Hl Hid Htok Hau Hn. split; simpl.
  - apply (inv_current _ _ I).
  - pose proof (inv_tokens _ _ I) as Ht. rewrite Hp in Ht. rewrite Hl.
    apply Forall_cons in Ht as [Ha Hr]. constructor; [by rewrite Htok|done].
  - intros t Ht. specialize (Hn t Ht). pose proof (inv_listening _ _ I t Ht) as Hli.
    rewrite (listening_perm _ _ _ Hp), listening_cons in Hli. rewrite (listening_perm _ _ _ Hl), listening_cons. lia.
  - rewrite (inv_map _ _ I). destruct (m_is_running_sp c) as [t|]; [|done].
    rewrite (ids_of_perm _ _ _ Hp), (ids_of_perm _ _ _ Hl), (ids_of_cons _ a), (ids_of_cons _ a'), !ids_of_one.
    by rewrite Hid, Htok.
  - apply (inv_rounds _ _ I).
  - pose proof (inv_ids _ _ I) as Hi. rewrite Hp in Hi. rewrite Hl. csimpl in *. by rewrite Hid.
  - pose proof (inv_next _ _ I) as Hi. rewrite Hp in Hi. rewrite Hl. csimpl in *. by rewrite Hid.
  - apply (inv_bound _ _ I).
  - pose proof (inv_auth _ _ I) as Ht. rewrite Hp in Ht. rewrite Hl. apply Forall_cons in Ht as [Ha Hr]. by constructor.
  - apply (inv_new _ _ I).
Qed.

(** An attempt ends; if its token is the current one its id leaves the map. *)
Lemma inv_attempt_ends n c i a :
  inv n c → attempts c !! i = Some a → (∀ t, m_is_running_sp c = Some t → listening t [a] = 0%nat) →
  inv n (finish i (connection_id a) c).
Proof.
  intros I Hi Hn. pose proof (delete_perm _ _ _ Hi) as Hp. split; simpl.
  - apply (inv_current _ _ I).
  - pose proof (inv_tokens _ _ I) as Ht. rewrite Hp in Ht. by apply Forall_cons in Ht as [_ Ht].
  - intros t Ht. pose proof (inv_listening _ _ I t Ht) as Hli.
    rewrite (listening_perm _ _ _ Hp), listening_cons, (Hn t Ht) in Hli. done.
  - rewrite (inv_map _ _ I). destruct (m_is_running_sp c) as [t|]; 
      [|apply set_eq; intros x; rewrite elem_of_difference, elem_of_empty; tauto].
    rewrite (ids_of_perm _ _ _ Hp), ids_of_cons, ids_of_one. pose proof (inv_ids _ _ I) as Hd. rewrite Hp in Hd.
    csimpl in Hd. apply NoDup_cons in Hd as [Hd _]. rewrite not_elem_of_app in Hd.
    assert (connection_id a ∉ ids_of t (delete i (attempts c))) as Hni by (intros ?%ids_of_sub; tauto).
    apply set_eq. intros x.
    case_decide; rewrite elem_of_difference, elem_of_union, ?elem_of_singleton, ?elem_of_empty;
      (split; [tauto|]; intros Hx; split; [tauto|]; by intros ->).
  - apply (inv_rounds _ _ I).
  - pose proof (inv_ids _ _ I) as Hd. rewrite Hp in Hd. csimpl in Hd. by apply NoDup_cons in Hd as [_ Hd].
  - pose proof (inv_next _ _ I) as Hd. rewrite Hp in Hd. csimpl in Hd. by apply Forall_cons in Hd as [_ Hd].
  - apply (inv_bound _ _ I).
  - pose proof (inv_auth _ _ I) as Ht. rewrite Hp in Ht. by apply Forall_cons in Ht as [_ Ht].
  - apply (inv_new _ _ I).
Qed.

(** The end of an attempt of an earlier [start] with its pipe. *)
Lemma inv_drop_stale n c i a :
  inv n c → attempts c !! i = Some a → m_is_running_sp c ≠ Some (token a) →
  inv n (with_attempts (delete i (attempts c)) c).
Proof.
  intros I Hi Hn. assert (∀ t, m_is_running_sp c = Some t → listening t [a] = 0%nat) as H0.
  { intros t Ht. unfold listening. rewrite filter_cons. case_decide as Hd; [|done]. destruct Hd. congruence. }
  pose proof (inv_attempt_ends n c i a I Hi H0) as I'. split; try apply I'.
  etrans; [|apply (inv_map _ _ I')]. simpl.
  assert (connection_id a ∉ m_connection_future_map c) as Hni.
  { rewrite (inv_map _ _ I). destruct (m_is_running_sp c) as [t|]; [|by apply not_elem_of_empty].
    pose proof (delete_perm _ _ _ Hi) as Hp. rewrite (ids_of_perm _ _ _ Hp), ids_of_cons, ids_of_one.
    rewrite decide_False by congruence. rewrite elem_of_union. intros [[]%not_elem_of_empty|Hin%ids_of_sub].
    pose proof (inv_ids _ _ I) as Hd. rewrite Hp in Hd. csimpl in Hd. apply NoDup_cons in Hd as [Hd _].
    rewrite elem_of_app in Hd. tauto. }
  apply set_eq. intros x. rewrite elem_of_difference, elem_of_singleton.
  split; [|tauto]. intros Hx. split; [done|]. by intros ->.
Qed.

Lemma inv_pipe_connect n c t :
  inv n c → flag t c = true → m_next_connection_id c < 2 ^ 64 - 1 → inv (S n) (pipe_connect t c).
Proof.
  intros I Hf Hb. pose proof (proj1 (inv_current _ _ I t) Hf) as Ht. pose proof (inv_bound _ _ I) as Hnb.
  assert (m_next_connection_id c ∉ (connection_id <$> attempts c) ++ new_ids (m_notify_strand c)) as Hni.
  { intros Hin. pose proof (inv_next _ _ I) as Hx. rewrite Forall_forall in Hx. specialize (Hx _ Hin). lia. }
  split; simpl.
  - apply (inv_current _ _ I).
  - apply Forall_app. split; [apply (inv_tokens _ _ I)|]. constructor; [|constructor]. simpl.
    unfold flag in Hf. destruct (flags c !! t) eqn:E; [|done]. by eapply lookup_lt_Some.
  - intros t' Ht'. rewrite Ht in Ht'. simplify_eq. rewrite listening_app, (inv_listening _ _ I t' Ht).
    unfold listening. rewrite filter_cons. simpl. rewrite decide_True by done. simpl. lia.
  - rewrite Ht, ids_of_app, ids_of_one. simpl. rewrite decide_True by done. rewrite (inv_map _ _ I), Ht.
    apply set_eq. intros x. rewrite !elem_of_union. tauto.
  - apply (inv_rounds _ _ I).
  - rewrite fmap_app. simpl. rewrite <- app_assoc. simpl.
    rewrite <- Permutation_middle. apply NoDup_cons. split; [done|apply (inv_ids _ _ I)].
  - rewrite fmap_app. simpl. rewrite <- app_assoc. simpl. rewrite <- Permutation_middle.
    rewrite wrap_small by lia. constructor; [lia|].
    eapply Forall_impl; [apply (inv_next _ _ I)|]. simpl. lia.
  - rewrite wrap_small by lia. lia.
  - apply Forall_app. split; [apply (inv_auth _ _ I)|]. by repeat constructor.
  - apply (inv_new _ _ I).
Qed.

(** ** Starting and stopping *)
Lemma rounds_snoc ns n : rounds (ns ++ [n]) = observe (rounds ns) n.
Proof. unfold rounds. by rewrite foldl_app. Qed.
Lemma new_ids_snoc ns n : new_ids (ns ++ [n]) = new_ids ns ++ new_ids [n].
Proof. unfold new_ids. apply omap_app. Qed.

Lemma no_token t l : Forall (λ a, (token a < t)%nat) l → listening t l = 0%nat ∧ ids_of t l = ∅.
Proof.
  induction 1 as [|a l Ha _ [IH1 IH2]]; [done|]. rewrite listening_cons, ids_of_cons, ids_of_one, IH1, IH2.
  rewrite decide_False by lia. split; [|by rewrite union_empty_l_L].
  unfold listening. rewrite filter_cons, decide_False by lia. done.
Qed.

Lemma inv_active n c t : inv n c → m_is_running_sp c = Some t → is_active c = true.
Proof. intros I Ht. unfold is_active. rewrite Ht. by apply (inv_current _ _ I). Qed.

Lemma inv_start c c' :
  inv 1 c → m_next_connection_id c < 2 ^ 64 - 1 → start c = Ok tt c' → inv 1 c'.
Proof.
  intros I Hb. unfold start, start_pipe_connect. destruct (m_is_running_sp c) as [t0|] eqn:Et.
  { assert (flag t0 c = true) as Hf by (by apply (inv_current _ _ I)). unfold is_active, flag in *. simpl.
    destruct (flags c !! t0) as [b|] eqn:E; [|done]. simpl in Hf. subst b.
    by rewrite (lookup_app_l_Some _ _ _ _ E). }
  simpl. intros [= <-]. apply inv_pipe_connect; [|unfold flag; simpl; by rewrite list_lookup_middle|done].
  pose proof (inv_tokens _ _ I) as Htok. pose proof (no_token _ _ Htok) as [Hl0 Hi0]. split; simpl; try apply I.
  - intros t. unfold flag. simpl. destruct (decide (t < length (flags c))%nat) as [Hlt|Hge].
    + rewrite lookup_app_l by done. split; [|intros [= Hx]; lia].
      intros Hf. apply (inv_current _ _ I) in Hf. congruence.
    + rewrite lookup_app_r by lia. destruct (t - length (flags c))%nat as [|j] eqn:E; simpl; [|split; [done|intros [= Hx]; lia]].
      split; [|done]. intros _. f_equal. lia.
  - eapply Forall_impl; [done|]. simpl. intros a Ha. rewrite length_app. simpl. lia.
  - intros t [= <-]. done.
  - by rewrite Hi0, (inv_map _ _ I), Et.
  - rewrite rounds_snoc, (inv_rounds _ _ I). unfold is_active, flag. rewrite Et. simpl. by rewrite list_lookup_middle.
  - rewrite new_ids_snoc. simpl. rewrite app_nil_r. apply I.
  - rewrite new_ids_snoc. simpl. rewrite app_nil_r. apply I.
  - apply Forall_app. split; [apply I|by repeat constructor].
Qed.

Lemma inv_stopped n c t k l :
  inv n c → flag t c = true → attempts c ≡ₚ k ++ l →
  inv 1 (notify_on_stop (clear_connection_future_map (with_running None (<[t := false]> (flags c)) (with_attempts l c)))).
Proof.
  intros I Hf Hp. pose proof (proj1 (inv_current _ _ I t) Hf) as Ht. split; simpl; try done; try apply I.
  - intros t'. split; [|done]. unfold flag. simpl. destruct (decide (t = t')) as [<-|Hne].
    + destruct (decide (t < length (flags c))%nat); [by rewrite list_lookup_insert_eq|].
      by rewrite lookup_ge_None_2 by (rewrite length_insert; lia).
    + rewrite list_lookup_insert_ne by done. intros Hf'. apply (inv_current _ _ I) in Hf'. congruence.
  - pose proof (inv_tokens _ _ I) as Hk. rewrite Hp in Hk. apply Forall_app in Hk as [_ Hk]. by rewrite length_insert.
  - rewrite rounds_snoc, (inv_rounds _ _ I), (inv_active _ _ _ I Ht). done.
  - pose proof (inv_ids _ _ I) as Hd. rewrite Hp, fmap_app, <- app_assoc in Hd. apply NoDup_app in Hd as (_ & _ & Hd).
    rewrite new_ids_snoc. simpl. by rewrite app_nil_r.
  - pose proof (inv_next _ _ I) as Hd. rewrite Hp, fmap_app, <- app_assoc in Hd. apply Forall_app in Hd as [_ Hd].
    rewrite new_ids_snoc. simpl. by rewrite app_nil_r.
  - pose proof (inv_auth _ _ I) as Hd. rewrite Hp in Hd. by apply Forall_app in Hd as [_ Hd].
  - apply Forall_app. split; [apply I|by repeat constructor].
Qed.

Lemma inv_stop c : inv 1 c → inv 1 (stop c).
Proof.
  intros I. unfold stop, stop_impl. destruct (m_is_running_sp c) as [t|] eqn:Et; [|done].
  destruct (flag t c) eqn:Hf; [|done]. simpl.
  pose proof (inv_stopped 1 c t [] (attempts c) I Hf ltac:(done)) as I'. by destruct c.
Qed.

Lemma inv_accept n c i id t b :
  inv n c → attempts c !! i = Some (Attempt id t (WaitWrite b)) →
  inv n (finish i id (notify_on_new_connection id b t c)).
Proof.
  intros I Hi. assert (∀ t', m_is_running_sp c = Some t' → listening t' [Attempt id t (WaitWrite b)] = 0%nat) as H0.
  { intros t' _. unfold listening. rewrite filter_cons. simpl. rewrite decide_False by (by intros []). done. }
  pose proof (inv_attempt_ends n c i _ I Hi H0) as I'. simpl in I'. unfold notify_on_new_connection.
  destruct (flag t c) eqn:Hf; [|done]. pose proof (proj1 (inv_current _ _ I t) Hf) as Ht.
  pose proof (delete_perm _ _ _ Hi) as Hp. split; simpl; try apply I'; try apply I.
  - rewrite rounds_snoc, (inv_rounds _ _ I), (inv_active _ _ _ I Ht). simpl. f_equal. symmetry.
    by apply (inv_active _ _ _ I' Ht).
  - pose proof (inv_ids _ _ I) as Hd. rewrite Hp in Hd. csimpl in Hd. rewrite new_ids_snoc. simpl.
    by rewrite app_assoc, <- Permutation_cons_append.
  - pose proof (inv_next _ _ I) as Hd. rewrite Hp in Hd. csimpl in Hd. rewrite new_ids_snoc. simpl.
    by rewrite app_assoc, <- Permutation_cons_append.
  - apply Forall_app. split; [apply I|]. constructor; [|constructor].
    by apply (Forall_lookup_1 _ _ _ _ (inv_auth _ _ I) Hi).
Qed.

Lemma listening_one t a : listening t [a] = if decide (token a = t ∧ a_phase a = WaitPipe) then 1%nat else 0%nat.
Proof. unfold listening. rewrite filter_cons. by case_decide. Qed.

Lemma inv_pipe_result c i r : inv 1 c → m_next_connection_id c < 2 ^ 64 - 1 → inv 1 (pipe_result i r c).
Proof.
  intros I Hb. unfold pipe_result. destruct (attempts c !! i) as [[id t []]|] eqn:Hi; try done.
  destruct (PipeWaitRes.is_fail r).
  - unfold stop_impl. change (flag t (with_attempts (delete i (attempts c)) c)) with (flag t c).
    destruct (flag t c) eqn:Hf; simpl.
    + eapply (inv_stopped 1 c t [Attempt id t WaitPipe]); [done..|]. by apply delete_perm.
    + eapply inv_drop_stale; [done..|]. simpl. intros Ht%(inv_current _ _ I). congruence.
  - unfold start_pipe_connect. destruct (flag t c) eqn:Hf; simpl.
    + pose proof (proj1 (inv_current _ _ I t) Hf) as Ht. pose proof (inv_pipe_connect 1 c t I Hf Hb) as I2.
      assert (attempts (pipe_connect t c) !! i = Some (Attempt id t WaitPipe)) as Hi2 by (by apply lookup_app_l_Some).
      eapply (inv_replace 2 1); [exact I2|by apply delete_perm|by eapply insert_perm|done..|].
      intros t'. simpl. rewrite Ht. intros [= <-]. rewrite !listening_one. simpl.
      rewrite decide_False by (by intros []). by rewrite decide_True.
    + eapply (inv_replace 1 1); [exact I|by apply delete_perm|by eapply insert_perm|done..|].
      intros t' Ht'. rewrite !listening_one. simpl. assert (t ≠ t') by (intros ->; apply (inv_current _ _ I) in Ht'; congruence).
      rewrite !decide_False by (by intros []). done.
Qed.

Lemma inv_read_result c i r b : inv 1 c → inv 1 (read_result i r b c).
Proof.
  intros I. unfold read_result. destruct (attempts c !! i) as [[id t []]|] eqn:Hi; try done.
  destruct (PipeOpRes.is_fail r || negb (check_request b)) eqn:E.
  - eapply (inv_attempt_ends 1 c i (Attempt id t WaitRead)); [done..|]. intros t' _. rewrite listening_one.
    simpl. by rewrite decide_False by (by intros []).
  - apply orb_false_iff in E as [_ E%negb_false_iff].
    eapply (inv_replace 1 1); [exact I|by apply delete_perm|by eapply insert_perm|done..|].
    intros t' _. rewrite !listening_one. simpl. by rewrite !decide_False by (by intros []).
Qed.

Lemma inv_write_result c i r : inv 1 c → inv 1 (write_result i r c).
Proof.
  intros I. unfold write_result. destruct (attempts c !! i) as [[id t []]|] eqn:Hi; try done.
  destruct (PipeOpRes.is_fail r); [|by apply inv_accept].
  eapply (inv_attempt_ends 1 c i (Attempt id t (WaitWrite request))); [done..|]. intros t' _. rewrite listening_one.
  simpl. by rewrite decide_False by (by intros []).
Qed.

Lemma inv_step c c' : inv 1 c → step c c' → inv 1 c'.
Proof.
  intros I [c'' Hb Hs| |i r Hb|i r b|i r].
  - by eapply inv_start.
  - by apply inv_stop.
  - by apply inv_pipe_result.
  - by apply inv_read_result.
  - by apply inv_write_result.
Qed.

Lemma connector_reachable_inv c : rtc step create c → inv 1 c.
Proof. apply rtc_invariant; [apply connector_inv_create|apply inv_step]. Qed.
End facts.

(** ** Properties *)
Section properties.
Context `{Authenticator}.

(** C37: the server connector is always listening: while it is active exactly one
    pipe of the current [start] waits for a client, and otherwise none that
    would be served; the map of pending connections holds exactly the attempts
    of the current [start], and is empty when the connector is stopped. *)
Theorem server_connector_listens c :
  rtc step create c →
  match m_is_running_sp c with
  | Some t => is_active c = true ∧ listening t (attempts c) = 1%nat ∧
              m_connection_future_map c = ids_of t (attempts c)
  | None => is_active c = false ∧ get_pending_connections_count c = 0%nat ∧
            ∀ a, a ∈ attempts c → flag (token a) c = false
  end.
Proof.
  intros I%connector_reachable_inv. pose proof (inv_map _ _ I) as Hm. destruct (m_is_running_sp c) as [t|] eqn:Et.
  - split_and!; [by eapply inv_active|by apply (inv_listening _ _ I)|done].
  - split_and!.
    + unfold is_active. by rewrite Et.
    + unfold get_pending_connections_count. rewrite Hm. apply size_empty.
    + intros a _. destruct (flag (token a) c) eqn:Hf; [|done]. apply (inv_current _ _ I) in Hf. congruence.
Qed.

(** What the server connector reports is a sequence of rounds: [started], new
    connections, [stopped]; no connection is reported outside of a round, every
    reported connection has its own id, and its client sent a request that the
    authenticator accepted. *)
Theorem server_connector_reports c :
  rtc step create c →
  rounds (m_notify_strand c) = Some (is_active c) ∧
  NoDup (new_ids (m_notify_strand c)) ∧
  ∀ id b, NewConnection id b ∈ m_notify_strand c → check_request b = true.
Proof.
  intros I%connector_reachable_inv. split_and!.
  - apply (inv_rounds _ _ I).
  - by pose proof (inv_ids _ _ I) as (_ & _ & Hd)%NoDup_app.
  - intros id b Hin. pose proof (inv_new _ _ I) as Hn. rewrite Forall_forall in Hn. apply (Hn _ Hin).
Qed.

(** The messages of a handshake that loses nothing. *)
Definition handshake (i : nat) (c : impl) : ClientConnector.state * impl :=
  let c := pipe_result i PipeWaitRes.success c in
  let '(s, req) := ClientConnector.pipe_result PipeWaitRes.success ClientConnector.create_connection_async in
  match req with
  | None => (s, c)
  | Some req =>
      let s := ClientConnector.write_result PipeOpRes.success s in
      let c := read_result i PipeOpRes.success req c in
      match attempts c !! i with
      | Some (Attempt _ _ (WaitWrite b)) =>
          (ClientConnector.read_result PipeOpRes.success (create_response b) s, write_result i PipeOpRes.success c)
      | _ => (s, c)
      end
  end.

(** A client and a running server whose authenticators agree connect: when
    the pipe and the messages of the handshake get through, the client has its
    connection, the server reports the client's, and goes on listening. *)
Theorem handshake_connects `{!AuthenticatorLaws} c i id t :
  rtc step create c → m_next_connection_id c < 2 ^ 64 - 1 →
  m_is_running_sp c = Some t → attempts c !! i = Some (Attempt id t WaitPipe) →
  let '(s, c') := handshake i c in
  s = ClientConnector.Connected ∧ m_notify_strand c' = m_notify_strand c ++ [NewConnection id create_request] ∧
  is_active c' = true ∧ listening t (attempts c') = 1%nat.
Proof.
  intros I%connector_reachable_inv Hb Ht Hi.
  assert (flag t c = true) as Hf by (by apply (inv_current _ _ I)).
  pose proof (inv_pipe_result c i PipeWaitRes.success I Hb) as I1.
  assert (∃ l, pipe_result i PipeWaitRes.success c = with_attempts l (pipe_connect t c) ∧
               l !! i = Some (Attempt id t WaitRead)) as (l1 & E1 & Hl1).
  { unfold pipe_result. rewrite Hi. simpl. rewrite Hf. simpl. eexists. split; [done|].
    apply list_lookup_insert_eq. rewrite length_app. apply lookup_lt_Some in Hi. simpl. lia. }
  rewrite E1 in I1. set (c1 := with_attempts l1 (pipe_connect t c)) in *.
  pose proof (inv_read_result c1 i PipeOpRes.success create_request I1) as I2.
  assert (∃ l, read_result i PipeOpRes.success create_request c1 = with_attempts l c1 ∧
               l !! i = Some (Attempt id t (WaitWrite create_request))) as (l2 & E2 & Hl2).
  { unfold read_result. simpl. rewrite Hl1, request_accepted. simpl. eexists. split; [done|].
    apply list_lookup_insert_eq. by eapply lookup_lt_Some. }
  rewrite E2 in I2. pose proof (inv_write_result _ i PipeOpRes.success I2) as I3.
  unfold handshake. simpl. rewrite E1, E2. simpl. rewrite Hl2, response_accepted. simpl.
  assert (m_is_running_sp (write_result i PipeOpRes.success (with_attempts l2 c1)) = Some t ∧
          m_notify_strand (write_result i PipeOpRes.success (with_attempts l2 c1))
            = m_notify_strand c ++ [NewConnection id create_request]) as [Ht3 Hn3].
  { unfold write_result. simpl. rewrite Hl2. simpl. unfold notify_on_new_connection.
    change (flag t (with_attempts l2 c1)) with (flag t c). by rewrite Hf. }
  split_and!; [done|done|by eapply inv_active|by apply (inv_listening _ _ I3)].
Qed.
End properties.

(** ** A connector after [start] *)
Section example.
#[global] Instance simple_authenticator_laws b : @AuthenticatorLaws (simple_authenticator b).
Proof. by split. Qed.

Definition started : impl := match start create with Ok _ c => c | _ => create end.

Lemma started_reachable (A : Authenticator) : rtc step create started.
Proof. apply rtc_once. apply step_start; [done|reflexivity]. Qed.

Lemma server_connector_listens_witness :
  is_active started = true ∧ listening 0 (attempts started) = 1%nat ∧
  m_connection_future_map started = ids_of 0 (attempts started).
Proof. exact (@server_connector_listens (simple_authenticator 7) started (started_reachable _)). Defined.

Lemma server_connector_reports_witness : rounds (m_notify_strand started) = Some true.
Proof. exact (proj1 (@server_connector_reports (simple_authenticator 7) started (started_reachable _))). Defined.

Lemma handshake_connects_witness :
  (@handshake (simple_authenticator 7) 0 started).1 = ClientConnector.Connected.
Proof.
  pose proof (@handshake_connects (simple_authenticator 7) _ started 0 0 0 (started_reachable _)) as Hh.
  destruct (@handshake (simple_authenticator 7) 0 started) as [s c'].
  destruct Hh as [Hs _]; [done|reflexivity|reflexivity|exact Hs].
Defined.
End example.
