(* ===== verification/Endpoint.v ===== *)
(** * Client and server endpoints

    An endpoint is a channel over a connection with the callback that tells its
    end.  The client endpoint holds at most one; the server endpoint holds one
    for every client and reports their coming and going. *)
From S2P Require Import Prelude RpcTypes TransferMessageFacts Connection.
Local Open Scope Z_scope.

(** ** internal::endpoint *)
Module Endpoint.
(** [m_next_req_id] is the channel's; [m_on_stop] the task that completes the
    disconnect promise, until it is executed. *)
Record endpoint : Type := mk {
  m_next_req_id : Z;
  m_connection : Connection.impl;
  m_on_stop : option nat
}.

Definition create (c : Connection.impl) : endpoint := mk 0 c None.
Definition start (e : endpoint) : endpoint := mk (m_next_req_id e) (Connection.start (m_connection e)) (m_on_stop e).
Definition is_connected (e : endpoint) : bool := Connection.is_active (m_connection e).

(** The pipe executes the callback when it is invalidated: the tasks that
    become due after the connection went on as [c]. *)
Definition update (c : Connection.impl) (e : endpoint) : endpoint * list nat :=
  if Connection.is_running c then (mk (m_next_req_id e) c (m_on_stop e), [])
  else (mk (m_next_req_id e) c None, option_list (m_on_stop e)).

Definition set_disconnect_callback (callback : nat) (e : endpoint) : endpoint * list nat :=
  if Connection.is_running (m_connection e)
  then (mk (m_next_req_id e) (m_connection e) (Some callback), [])
  else (e, [callback]).
Definition disconnect (e : endpoint) : endpoint * list nat := update (Connection.deactivate (m_connection e)) e.
(** The connection is deactivated by its destructor. *)
Definition destroy (e : endpoint) : list nat := (disconnect e).2.

(** The future of a request: ready with a result, or the promise the connection
    completes. *)
Inductive request_future : Type :=
| Ready (r : RequestResult.request_result)
| Pending (promise : nat).

(** [make_request] of the method [idx] with the serialized request [pl]. *)
Definition make_request (idx : Z) (pl : list Z) (e : endpoint) : request_future * endpoint :=
  if decide (Z.of_nat (length pl) > Consts.MaxRequestProtoSize) then (Ready RequestResult.request_too_big, e)
  else
    let number := m_next_req_id e in
    (Pending (Connection.next_promise (m_connection e)),
     mk (u64 (number + 1)) (Connection.request_async number (req_frame number (u32 idx) pl) (m_connection e))
        (m_on_stop e)).
End Endpoint.

(** ** client_endpoint *)
Module ClientEndpoint.
Import Endpoint.

(** [next_disconnect] counts the disconnect futures handed out, [due] the tasks
    that complete them, in the order they were executed. *)
Record impl : Type := mk {
  m_endpoint : option endpoint;
  next_disconnect : nat;
  due : list nat
}.

Definition create : impl := mk None 0 [].

Definition is_connected (c : impl) : bool :=
  match m_endpoint c with Some e => Endpoint.is_connected e | None => false end.

(** [std::unique_ptr] assignment destroys the endpoint it replaces. *)
Definition establish_endpoint (conn : Connection.impl) (c : impl) : impl :=
  let p := next_disconnect c in
  let old := match m_endpoint c with Some e => Endpoint.destroy e | None => [] end in
  let '(e, now) := Endpoint.set_disconnect_callback p (Endpoint.create conn) in
  mk (Some (Endpoint.start e)) (S p) (due c ++ old ++ now).

Definition disconnect (c : impl) : impl :=
  match m_endpoint c with
  | Some e =>
      let '(e', fired) := Endpoint.disconnect e in
      mk None (next_disconnect c) (due c ++ fired ++ Endpoint.destroy e')
  | None => c
  end.

Definition make_request (idx : Z) (pl : list Z) (c : impl) : request_future * impl :=
  match m_endpoint c with
  | Some e =>
      if Endpoint.is_connected e
      then let '(f, e') := Endpoint.make_request idx pl e in (f, mk (Some e') (next_disconnect c) (due c))
      else (Ready RequestResult.no_connection, c)
  | None => (Ready RequestResult.no_connection, c)
  end.

(** A new connection was never started; the current one goes on on its own. *)
Inductive step (c : impl) : impl → Prop :=
| step_establish conn : Connection.m_state conn = Connection.never_started → step c (establish_endpoint conn c)
| step_disconnect : step c (disconnect c)
| step_request idx pl : step c (make_request idx pl c).2
| step_connection e conn :
    m_endpoint c = Some e → Connection.step (Endpoint.m_connection e) conn →
    step c (mk (Some (Endpoint.update conn e).1) (next_disconnect c) (due c ++ (Endpoint.update conn e).2)).
End ClientEndpoint.

(** ** server_endpoint *)
Module ServerEndpoint.
Import Endpoint.

Inductive connection_state : Type := connected | disconnected.

(** Disconnect promises are named after their connection.  [due] are the tasks
    that complete them, [continuations] what is attached to the completed ones,
    [strands] what is posted to the strand of each connection and [reported] the
    calls of [on_connection_change]. *)
Record impl : Type := mk {
  m_endpoints_map : gmap nat endpoint;
  m_is_finalizing : bool;
  due : list nat;
  continuations : list nat;
  strands : gmap nat (list connection_state);
  reported : list (nat * connection_state)
}.

Definition create : impl := mk ∅ false [] [] ∅ [].

Definition post (id : nat) (s : connection_state) (i : impl) : impl :=
  mk (m_endpoints_map i) (m_is_finalizing i) (due i) (continuations i)
     (<[id := default [] (strands i !! id) ++ [s]]> (strands i)) (reported i).
Definition with_map (m : gmap nat endpoint) (d : list nat) (i : impl) : impl :=
  mk m (m_is_finalizing i) d (continuations i) (strands i) (reported i).

(** [insert] keeps an endpoint that has the id already. *)
Definition process_new_connection (id : nat) (c : Connection.impl) (i : impl) : impl :=
  if m_is_finalizing i then i
  else
    let '(ep, now) := Endpoint.set_disconnect_callback id (Endpoint.create c) in
    let ep := Endpoint.start ep in
    post id connected
      (match m_endpoints_map i !! id with
       | None => with_map (<[id := ep]> (m_endpoints_map i)) (due i ++ now) i
       | Some _ => with_map (m_endpoints_map i) (due i ++ now ++ Endpoint.destroy ep) i
       end).

Definition remove_endpoint_from_map (id : nat) (i : impl) : impl :=
  match m_endpoints_map i !! id with
  | Some ep => with_map (delete id (m_endpoints_map i)) (due i ++ Endpoint.destroy ep) i
  | None => i
  end.

(** The continuation of a disconnect future. *)
Definition on_disconnect (id : nat) (i : impl) : impl := post id disconnected (remove_endpoint_from_map id i).

Definition finalize (i : impl) : impl :=
  let m := Endpoint.disconnect <$> m_endpoints_map i in
  mk (fst <$> m) true (due i ++ concat (snd <$> (map_to_list m).*2)) (continuations i) (strands i) (reported i).

Definition get_active_connections_count (i : impl) : nat := size (m_endpoints_map i).

Definition make_request (id : nat) (idx : Z) (pl : list Z) (i : impl) : request_future * impl :=
  match m_endpoints_map i !! id with
  | Some e =>
      if Endpoint.is_connected e
      then let '(f, e') := Endpoint.make_request idx pl e in (f, with_map (<[id := e']> (m_endpoints_map i)) (due i) i)
      else (Ready RequestResult.no_connection, i)
  | None => (Ready RequestResult.no_connection, i)
  end.

Definition make_request_all (idx : Z) (pl : list Z) (i : impl) : list (nat * request_future) * impl :=
  let m := Endpoint.make_request idx pl <$> m_endpoints_map i in
  (map_to_list (fst <$> m), with_map (snd <$> m) (due i) i).

(** A task completes a disconnect promise; its continuation runs later. *)
Definition complete_disconnect (id : nat) (d : list nat) (i : impl) : impl :=
  mk (m_endpoints_map i) (m_is_finalizing i) d (continuations i ++ [id]) (strands i) (reported i).
Definition run_strand (id : nat) (i : impl) : option impl :=
  match strands i !! id with
  | Some (s :: q) =>
      Some (mk (m_endpoints_map i) (m_is_finalizing i) (due i) (continuations i) (<[id := q]> (strands i))
               (reported i ++ [(id, s)]))
  | _ => None
  end.

(** The ids of the server connector are new: no strand has them yet. *)
Inductive step (i : impl) : impl → Prop :=
| step_new id c :
    strands i !! id = None → Connection.m_state c = Connection.never_started → step i (process_new_connection id c i)
| step_finalize : step i (finalize i)
| step_request id idx pl : step i (make_request id idx pl i).2
| step_request_all idx pl : step i (make_request_all idx pl i).2
| step_connection id e c :
    m_endpoints_map i !! id = Some e → Connection.step (Endpoint.m_connection e) c →
    step i (with_map (<[id := (Endpoint.update c e).1]> (m_endpoints_map i)) (due i ++ (Endpoint.update c e).2) i)
| step_due d1 id d2 : due i = d1 ++ id :: d2 → step i (complete_disconnect id (d1 ++ d2) i)
| step_continuation l1 id l2 :
    continuations i = l1 ++ id :: l2 →
    step i (on_disconnect id
              (mk (m_endpoints_map i) (m_is_finalizing i) (due i) (l1 ++ l2) (strands i) (reported i)))
| step_strand id i' : run_strand id i = Some i' → step i i'.
End ServerEndpoint.
