(* ===== verification/EndpointFacts.v ===== *)
(** * Correctness of the endpoints

    Disconnect futures complete exactly once, the server reports each client
    once as connected and once as disconnected and drops its endpoint, and
    requests reach exactly the connections they name. *)
From S2P Require Import Prelude RpcTypes TransferMessageFacts Timer Connection Endpoint.
Local Open Scope Z_scope.

(** ** Endpoints *)

(** The callback is stored exactly while the pipe is up. *)
Definition armed (p : nat) (e : Endpoint.endpoint) : Prop :=
  if Connection.is_running (Endpoint.m_connection e) then Endpoint.m_on_stop e = Some p else Endpoint.m_on_stop e = None.
Definition pending (p : nat) (e : Endpoint.endpoint) : nat := occ p (option_list (Endpoint.m_on_stop e)).

Lemma running_start c : Connection.is_running (Connection.start c) = Connection.is_running c.
Proof.
  unfold Connection.start. case_decide; [|done]. simpl. unfold Connection.start_watching.
  by destruct (PeriodicTimer.start _ _).
Qed.
Lemma running_request n m c : Connection.is_running (Connection.request_async n m c) = Connection.is_running c.
Proof. unfold Connection.request_async. by case_match. Qed.

Lemma armed_establish p c :
  let '(e, now) := Endpoint.set_disconnect_callback p (Endpoint.create c) in
  armed p (Endpoint.start e) ∧ now ++ option_list (Endpoint.m_on_stop (Endpoint.start e)) = [p].
Proof.
  unfold Endpoint.set_disconnect_callback, armed. simpl.
  destruct (Connection.is_running c) eqn:E; simpl; by rewrite running_start, E.
Qed.

Lemma armed_update p c e :
  armed p e → (Connection.is_running (Endpoint.m_connection e) = false → Connection.is_running c = false) →
  armed p (Endpoint.update c e).1 ∧
  (Endpoint.update c e).2 ++ option_list (Endpoint.m_on_stop (Endpoint.update c e).1) = option_list (Endpoint.m_on_stop e).
Proof.
  unfold armed, Endpoint.update. destruct (Connection.is_running c) eqn:E; simpl; rewrite E; [|by rewrite app_nil_r].
  destruct (Connection.is_running (Endpoint.m_connection e)); [done|]. intros _ Hf. by discriminate Hf.
Qed.

Lemma armed_request p idx pl e :
  armed p e → armed p (Endpoint.make_request idx pl e).2 ∧
  Endpoint.m_on_stop (Endpoint.make_request idx pl e).2 = Endpoint.m_on_stop e.
Proof. unfold Endpoint.make_request. case_decide; [done|]. unfold armed. simpl. by rewrite running_request. Qed.

Lemma destroy_due e : Endpoint.destroy e = option_list (Endpoint.m_on_stop e).
Proof. done. Qed.

(** A pipe that is down stays down. *)
Lemma running_complete n r m c : Connection.is_running (Connection.complete_request n r m c) = Connection.is_running c.
Proof. unfold Connection.complete_request. by case_match. Qed.
Lemma running_sent n c : Connection.is_running (Connection.process_request_sent n c) = Connection.is_running c.
Proof. unfold Connection.process_request_sent. by repeat case_match. Qed.
Lemma running_dispatch m c : Connection.is_running (Connection.dispatch_receive_event m c) = Connection.is_running c.
Proof.
  unfold Connection.dispatch_receive_event, Connection.handle_received_request, Connection.handle_received_response.
  repeat case_match; simplify_eq/=; by rewrite ?running_complete.
Qed.
Lemma running_watch c : Connection.is_running c = false → Connection.is_running (Connection.process_watch_event c) = false.
Proof. intros Hr. unfold Connection.process_watch_event. by repeat case_match. Qed.

Lemma running_step c c' : Connection.step c c' → Connection.is_running c = false → Connection.is_running c' = false.
Proof.
  intros Hs Hr. destruct Hs as [| | |n m Hn Hm Ht|s1 s s2 r Hs|m Hm|r Hm Hr'|s1 m s2 res Hs|t|t fired T Ht|t Ht Hp|t Ht Hp|n Hn];
    simpl; try done.
  - by rewrite running_start.
  - by rewrite running_request.
  - destruct s; simpl; [|done]. destruct r; simpl; by rewrite ?running_complete, ?running_sent.
  - by rewrite running_dispatch.
  - destruct fired; [|done]. by rewrite running_complete.
  - by apply running_watch.
Qed.

(** ** The client endpoint *)
Module ClientFacts.
Import ClientEndpoint.

Definition pending_of (c : impl) : list nat :=
  match m_endpoint c with Some e => option_list (Endpoint.m_on_stop e) | None => [] end.
Record inv (c : impl) : Prop := {
  inv_once : due c ++ pending_of c ≡ₚ seq 0 (next_disconnect c);
  inv_armed : match m_endpoint c with Some e => ∃ p, armed p e | None => True end
}.

Lemma client_inv_create : inv create.
Proof. by split. Qed.

Lemma client_inv_step c c' : inv c → step c c' → inv c'.
Proof.
  intros [Ho Ha] Hs. destruct Hs as [conn Hc| |idx pl|e conn He Hst].
  - unfold establish_endpoint. pose proof (armed_establish (next_disconnect c) conn) as Hn.
    destruct (Endpoint.set_disconnect_callback _ _) as [e now]. destruct Hn as [Hn1 Hn2].
    split; [|simpl; by eexists]. unfold pending_of in *. cbn [due m_endpoint next_disconnect].
    rewrite seq_S, <- Ho. simpl.
    assert (match m_endpoint c with Some e => Endpoint.destroy e | None => [] end
            = match m_endpoint c with Some e => option_list (Endpoint.m_on_stop e) | None => [] end) as ->
      by (by destruct (m_endpoint c)).
    rewrite <- !app_assoc. simpl in Hn2. by rewrite Hn2.
  - unfold disconnect. destruct (m_endpoint c) as [e|] eqn:E; [|by constructor; simpl; rewrite ?E].
    split; [|done]. simpl. unfold pending_of in *. rewrite E in Ho. simpl. by rewrite !app_nil_r.
  - unfold make_request. destruct (m_endpoint c) as [e|] eqn:E; [|by constructor; simpl; rewrite ?E].
    destruct (Endpoint.is_connected e); [|by constructor; simpl; rewrite ?E]. destruct Ha as [p Ha].
    destruct (armed_request p idx pl e Ha) as [Ha' Hs]. destruct (Endpoint.make_request idx pl e) as [f e'].
    split; simpl; [|by eexists]. unfold pending_of in *. rewrite E in Ho. simpl in *. by rewrite Hs.
  - rewrite He in Ha. destruct Ha as [p Ha]. destruct (armed_update p conn e Ha) as [Ha' Hu].
    { by apply running_step. }
    split; simpl; [|by eexists]. unfold pending_of in *. rewrite He in Ho. simpl. by rewrite <- app_assoc, Hu.
Qed.

Lemma client_reachable_inv c : rtc step create c → inv c.
Proof. generalize client_inv_create. generalize create. intros c0 I Hr. induction Hr; eauto using client_inv_step. Qed.
End ClientFacts.

(** ** The server endpoint *)
Module ServerFacts.
Import ServerEndpoint.

Definition reports_of (id : nat) (i : impl) : list connection_state :=
  omap (λ r, if decide (r.1 = id) then Some r.2 else None) (reported i).
(** Everything the owner of the endpoint is told of a connection, in order. *)
Definition story (id : nat) (i : impl) : list connection_state := reports_of id i ++ default [] (strands i !! id).
(** The tasks under way for a disconnect. *)
Definition under_way (id : nat) (i : impl) : nat := (occ id (due i) + occ id (continuations i))%nat.

Definition id_inv (id : nat) (i : impl) : Prop :=
  match m_endpoints_map i !! id with
  | Some e =>
      story id i = [connected] ∧ armed id e ∧ is_Some (strands i !! id) ∧
      under_way id i = (if Connection.is_running (Endpoint.m_connection e) then 0 else 1)%nat ∧
      (m_is_finalizing i = true → Connection.is_running (Endpoint.m_connection e) = false)
  | None =>
      under_way id i = 0%nat ∧
      story id i = match strands i !! id with Some _ => [connected; disconnected] | None => [] end
  end.
Definition inv (i : impl) : Prop := ∀ id, id_inv id i.

Lemma server_inv_create : inv create.
Proof. intros id. done. Qed.

Lemma armed_due id id' e :
  armed id e → occ id' (option_list (Endpoint.m_on_stop e)) =
    if decide (id' = id) then (if Connection.is_running (Endpoint.m_connection e) then 1 else 0)%nat else 0%nat.
Proof.
  unfold armed. destruct (Connection.is_running _); intros ->; simpl; [|by case_decide].
  rewrite occ_cons, occ_nil. case_decide; lia.
Qed.

Lemma id_inv_ext id i i' :
  id_inv id i → m_endpoints_map i' !! id = m_endpoints_map i !! id → strands i' !! id = strands i !! id →
  reports_of id i' = reports_of id i → under_way id i' = under_way id i → m_is_finalizing i' = m_is_finalizing i →
  id_inv id i'.
Proof. unfold id_inv, story. by intros H -> -> -> -> ->. Qed.

Lemma inv_new_connection id0 c i :
  inv i → strands i !! id0 = None → inv (process_new_connection id0 c i).
Proof.
  intros I Hs. unfold process_new_connection. destruct (m_is_finalizing i) eqn:Hf; [done|].
  pose proof (I id0) as I0. unfold id_inv in I0. rewrite Hs in I0. unfold story in I0. rewrite Hs in I0.
  destruct (m_endpoints_map i !! id0) as [e|] eqn:Hm; [by destruct I0 as (_ & _ & [? [=]] & _)|].
  destruct I0 as [Hu Hst]. simpl in Hst. rewrite app_nil_r in Hst.
  pose proof (armed_establish id0 c) as Hn.
  destruct (Endpoint.set_disconnect_callback id0 (Endpoint.create c)) as [ep now]. destruct Hn as [Ha Hn].
  intros id. destruct (decide (id = id0)) as [->|Hne].
  - unfold id_inv, story, under_way in *. simpl. rewrite !lookup_insert_eq, Hs. simpl.
    change (reports_of id0 (post _ _ _)) with (reports_of id0 i). rewrite Hst, occ_app, Hf. split_and!; try done.
    pose proof (armed_due id0 id0 _ Ha) as Hd. rewrite decide_True in Hd by done.
    assert (occ id0 (now ++ option_list (Endpoint.m_on_stop (Endpoint.start ep))) = 1%nat) as Ho.
    { rewrite Hn, occ_cons, occ_nil, decide_True by done. done. }
    rewrite occ_app, Hd in Ho. simpl in *. destruct (Connection.is_running _); lia.
  - apply (id_inv_ext id i); [apply I|simpl; by rewrite lookup_insert_ne..|done| |done].
    unfold under_way. simpl. rewrite occ_app.
    assert (occ id (now ++ option_list (Endpoint.m_on_stop (Endpoint.start ep))) = 0%nat) as Ho.
    { by rewrite Hn, occ_cons, occ_nil, decide_False. }
    rewrite occ_app in Ho. lia.
Qed.

(** The callbacks of all endpoints: each id once if its endpoint has it. *)
Lemma occ_callbacks (M : gmap nat Endpoint.endpoint) id :
  (∀ id e, M !! id = Some e → armed id e) →
  occ id (concat ((λ e, option_list (Endpoint.m_on_stop e)) <$> (map_to_list M).*2)) =
    match M !! id with
    | Some e => if Connection.is_running (Endpoint.m_connection e) then 1%nat else 0%nat
    | None => 0%nat
    end.
Proof.
  induction M as [|k e M Hk IH] using map_ind; intros Ha; [done|].
  assert (∀ l l' : list (list nat), l ≡ₚ l' → occ id (concat l) = occ id (concat l')) as Hperm.
  { intros l l' Hp. apply occ_perm. induction Hp; simpl; [done|by f_equiv|by rewrite !app_assoc, (Permutation_app_comm y x)|by etrans]. }
  rewrite (Hperm _ ((λ e, option_list (Endpoint.m_on_stop e)) <$> (e :: (map_to_list M).*2))).
  2: { rewrite map_to_list_insert by done. done. }
  rewrite fmap_cons. cbn [concat]. rewrite occ_app, IH, (armed_due k).
  - destruct (decide (id = k)) as [->|Hne]; [by rewrite lookup_insert_eq, Hk|].
    by rewrite lookup_insert_ne.
  - apply Ha. by rewrite lookup_insert_eq.
  - intros id' e' He'. apply Ha. rewrite lookup_insert_ne; [done|]. intros ->. congruence.
Qed.

Lemma inv_armed_all i : inv i → ∀ id e, m_endpoints_map i !! id = Some e → armed id e.
Proof. intros I id e He. pose proof (I id) as Hi. unfold id_inv in Hi. rewrite He in Hi. tauto. Qed.

Lemma inv_finalize i : inv i → inv (finalize i).
Proof.
  intros I id. pose proof (I id) as Hi. pose proof (occ_callbacks (m_endpoints_map i) id (inv_armed_all i I)) as Ho.
  unfold id_inv, under_way, story in *. simpl. rewrite !lookup_fmap.
  assert (snd <$> (map_to_list (Endpoint.disconnect <$> m_endpoints_map i)).*2
          = (λ e, option_list (Endpoint.m_on_stop e)) <$> (map_to_list (m_endpoints_map i)).*2) as ->.
  { rewrite map_to_list_fmap, <- !list_fmap_compose. by apply list_fmap_ext. }
  rewrite occ_app, Ho. change (reports_of id (finalize i)) with (reports_of id i).
  destruct (m_endpoints_map i !! id) as [e|]; simpl; [|by rewrite Nat.add_0_r].
  destruct Hi as (H1 & H2 & H3 & H4 & H5). split_and!; try done.
  destruct (Connection.is_running (Endpoint.m_connection e)); lia.
Qed.

(** An endpoint goes on as [e']. *)
Lemma inv_update id0 e e' fired i :
  inv i → m_endpoints_map i !! id0 = Some e → armed id0 e' →
  (Connection.is_running (Endpoint.m_connection e) = false → Connection.is_running (Endpoint.m_connection e') = false) →
  fired ++ option_list (Endpoint.m_on_stop e') = option_list (Endpoint.m_on_stop e) →
  inv (with_map (<[id0 := e']> (m_endpoints_map i)) (due i ++ fired) i).
Proof.
  intros I He Ha Hr Hf id. pose proof (I id0) as I0. unfold id_inv in I0. rewrite He in I0.
  destruct I0 as (H1 & H2 & H3 & H4 & H5).
  assert (occ id fired + occ id (option_list (Endpoint.m_on_stop e')) = occ id (option_list (Endpoint.m_on_stop e)))%nat as Ho.
  { by rewrite <- occ_app, Hf. }
  rewrite (armed_due id0 id e' Ha), (armed_due id0 id e H2) in Ho.
  destruct (decide (id = id0)) as [->|Hne].
  - unfold id_inv, under_way, story in *. simpl. rewrite lookup_insert_eq, occ_app. split_and!; try done.
    + destruct (Connection.is_running (Endpoint.m_connection e)) eqn:E1, (Connection.is_running (Endpoint.m_connection e'));
        lia.
    + intros Hfin. by apply Hr, H5.
  - apply (id_inv_ext id i); [apply I|simpl; by rewrite lookup_insert_ne|done|done| |done].
    unfold under_way. simpl. rewrite occ_app. lia.
Qed.

Lemma inv_make_request id0 idx pl i : inv i → inv (make_request id0 idx pl i).2.
Proof.
  intros I. unfold make_request. destruct (m_endpoints_map i !! id0) as [e|] eqn:He; [|done].
  destruct (Endpoint.is_connected e); [|done].
  destruct (armed_request id0 idx pl e (inv_armed_all i I id0 e He)) as [Ha Hs].
  pose proof (inv_update id0 e (Endpoint.make_request idx pl e).2 [] i I He Ha) as H. rewrite app_nil_r in H.
  destruct (Endpoint.make_request idx pl e) as [f e'] eqn:E. simpl in *. apply H; [|by rewrite Hs].
  revert E. unfold Endpoint.make_request. case_decide; intros [= _ <-]; [done|]. simpl. by rewrite running_request.
Qed.

Lemma inv_make_request_all idx pl i : inv i → inv (make_request_all idx pl i).2.
Proof.
  intros I id. pose proof (I id) as Hi. unfold id_inv, under_way, story in *. simpl. rewrite !lookup_fmap.
  change (reports_of id (with_map _ _ i)) with (reports_of id i).
  destruct (m_endpoints_map i !! id) as [e|]; simpl; [|done]. destruct Hi as (H1 & H2 & H3 & H4 & H5).
  assert (Connection.is_running (Endpoint.m_connection (Endpoint.make_request idx pl e).2)
          = Connection.is_running (Endpoint.m_connection e)) as ->.
  { unfold Endpoint.make_request. case_decide; [done|]. simpl. by rewrite running_request. }
  split_and!; try done. by apply armed_request.
Qed.

Lemma inv_due d1 id0 d2 i : inv i → due i = d1 ++ id0 :: d2 → inv (complete_disconnect id0 (d1 ++ d2) i).
Proof.
  intros I Hd id. apply (id_inv_ext id i); [apply I|done..| |done].
  unfold under_way. simpl. rewrite Hd, !occ_app, !occ_cons, occ_nil. lia.
Qed.

Lemma inv_continuation l1 id0 l2 i :
  inv i → continuations i = l1 ++ id0 :: l2 →
  inv (on_disconnect id0 (mk (m_endpoints_map i) (m_is_finalizing i) (due i) (l1 ++ l2) (strands i) (reported i))).
Proof.
  intros I Hc. pose proof (I id0) as I0. unfold id_inv, under_way in I0.
  assert (occ id0 (continuations i) = S (occ id0 (l1 ++ l2))) as Ho.
  { rewrite Hc, !occ_app, occ_cons, decide_True by done. lia. }
  destruct (m_endpoints_map i !! id0) as [e|] eqn:He; [|lia]. destruct I0 as (H1 & H2 & H3 & H4 & H5).
  unfold armed in H2. destruct (Connection.is_running (Endpoint.m_connection e)) eqn:Er; [lia|].
  unfold on_disconnect, remove_endpoint_from_map. simpl. rewrite He, destroy_due, H2. simpl. rewrite app_nil_r.
  intros id. destruct (decide (id = id0)) as [->|Hne].
  - unfold id_inv, under_way, story in *. simpl. rewrite lookup_delete_eq, lookup_insert_eq. split; [lia|]. simpl.
    change (reports_of id0 (post _ _ _)) with (reports_of id0 i). by rewrite app_assoc, H1.
  - apply (id_inv_ext id i); [apply I|simpl; by rewrite lookup_delete_ne|simpl; by rewrite lookup_insert_ne|done| |done].
    unfold under_way. simpl. rewrite Hc, !occ_app, occ_cons, decide_False by done. lia.
Qed.

Lemma inv_strand id0 i i' : inv i → run_strand id0 i = Some i' → inv i'.
Proof.
  intros I. unfold run_strand. destruct (strands i !! id0) as [[|s q]|] eqn:Es; try done. intros [= <-] id.
  pose proof (I id) as Hi. destruct (decide (id = id0)) as [->|Hne].
  - assert (story id0 (mk (m_endpoints_map i) (m_is_finalizing i) (due i) (continuations i) (<[id0 := q]> (strands i))
                          (reported i ++ [(id0, s)])) = story id0 i) as Hst.
    { unfold story, reports_of. simpl. rewrite lookup_insert_eq, Es, omap_app. simpl. rewrite decide_True by done.
      simpl. by rewrite <- app_assoc. }
    unfold id_inv, under_way in *. rewrite Hst. simpl. rewrite lookup_insert_eq. rewrite Es in Hi.
    destruct (m_endpoints_map i !! id0); [|done]. destruct Hi as (H1 & H2 & _ & H4 & H5). by split_and!.
  - apply (id_inv_ext id i); [done|done|simpl; by rewrite lookup_insert_ne| |done|done].
    unfold reports_of. simpl. rewrite omap_app. simpl. rewrite decide_False by done. by rewrite app_nil_r.
Qed.

Lemma server_inv_step i i' : inv i → step i i' → inv i'.
Proof.
  intros I Hst. destruct Hst as [id c Hs Hc| |id idx pl|idx pl|id e c He Hst|d1 id d2 Hd|l1 id l2 Hc|id i' Hs].
  - by apply inv_new_connection.
  - by apply inv_finalize.
  - by apply inv_make_request.
  - by apply inv_make_request_all.
  - pose proof (running_step _ _ Hst) as Hr'.
    destruct (armed_update id c e (inv_armed_all _ I id e He) Hr') as [Ha Hu].
    eapply inv_update; [done..| |done]. intros Hf. unfold Endpoint.update. rewrite (Hr' Hf). simpl. by apply Hr'.
  - by apply inv_due.
  - by apply inv_continuation.
  - by eapply inv_strand.
Qed.

Lemma server_reachable_inv i : rtc step create i → inv i.
Proof. apply rtc_invariant; [apply server_inv_create|apply server_inv_step]. Qed.
End ServerFacts.

(** ** Properties *)

(** The server endpoint tells a connection's story exactly: [connected], then
    [disconnected], in this order and once each; a client has an endpoint
    exactly between the two; when nothing is under way every endpoint has a
    pipe that is up, and after [finalize] none is left. *)
Theorem server_reports_connections (i : ServerEndpoint.impl) :
  rtc ServerEndpoint.step ServerEndpoint.create i →
  (∀ id, ServerFacts.story id i `prefix_of` [ServerEndpoint.connected; ServerEndpoint.disconnected] ∧
         (is_Some (ServerEndpoint.m_endpoints_map i !! id) ↔ ServerFacts.story id i = [ServerEndpoint.connected])) ∧
  (ServerEndpoint.due i = [] → ServerEndpoint.continuations i = [] →
   (∀ id e, ServerEndpoint.m_endpoints_map i !! id = Some e →
      Connection.is_running (Endpoint.m_connection e) = true) ∧
   (ServerEndpoint.m_is_finalizing i = true → ServerEndpoint.get_active_connections_count i = 0%nat)).
Proof.
  intros I%ServerFacts.server_reachable_inv. split.
  - intros id. pose proof (I id) as Hi. unfold ServerFacts.id_inv in Hi.
    destruct (ServerEndpoint.m_endpoints_map i !! id) as [e|].
    + destruct Hi as (-> & _). split; [by exists [ServerEndpoint.disconnected]|]. split; [done|]. by eexists.
    + destruct Hi as (_ & ->). destruct (ServerEndpoint.strands i !! id).
      * split; [done|]. split; [by intros []|done].
      * split; [by eexists|]. split; [by intros []|done].
  - intros Hd Hc. assert (∀ id e, ServerEndpoint.m_endpoints_map i !! id = Some e →
      Connection.is_running (Endpoint.m_connection e) = true ∧ ServerEndpoint.m_is_finalizing i = false) as Hall.
    { intros id e He. pose proof (I id) as Hi. unfold ServerFacts.id_inv, ServerFacts.under_way in Hi.
      rewrite He, Hd, Hc in Hi. destruct Hi as (_ & _ & _ & Hu & Hf).
      destruct (Connection.is_running _); [|done]. split; [done|].
      destruct (ServerEndpoint.m_is_finalizing i); [|done]. by discriminate Hf. }
    split; [intros id e He; by apply (Hall id e)|]. intros Hf. apply map_size_empty_iff, map_empty. intros id.
    destruct (ServerEndpoint.m_endpoints_map i !! id) as [e|] eqn:He; [|done].
    destruct (Hall id e He). congruence.
Qed.

(** Requests of the server go where they are told: a request to an unknown or
    disconnected client is answered with [no_connection] and changes nothing;
    any other only concerns the connection it names; a request to all reaches
    every endpoint once. *)
Theorem server_requests (i : ServerEndpoint.impl) id idx pl :
  ((ServerEndpoint.make_request id idx pl i).1 = Endpoint.Ready RequestResult.no_connection ↔
   ∀ e, ServerEndpoint.m_endpoints_map i !! id = Some e → Endpoint.is_connected e = false) ∧
  ((ServerEndpoint.make_request id idx pl i).1 = Endpoint.Ready RequestResult.no_connection →
   (ServerEndpoint.make_request id idx pl i).2 = i) ∧
  (∀ id', id' ≠ id → ServerEndpoint.m_endpoints_map (ServerEndpoint.make_request id idx pl i).2 !! id'
                     = ServerEndpoint.m_endpoints_map i !! id') ∧
  NoDup (ServerEndpoint.make_request_all idx pl i).1.*1 ∧
  (∀ id' f, (id', f) ∈ (ServerEndpoint.make_request_all idx pl i).1 ↔
     ∃ e, ServerEndpoint.m_endpoints_map i !! id' = Some e ∧ f = (Endpoint.make_request idx pl e).1).
Proof.
  unfold ServerEndpoint.make_request. split_and!.
  - destruct (ServerEndpoint.m_endpoints_map i !! id) as [e|] eqn:He; [|done].
    destruct (Endpoint.is_connected e) eqn:Hc.
    + split; [|intros H; by specialize (H e eq_refl); congruence].
      unfold Endpoint.make_request. by case_decide.
    + split; [|done]. by intros _ e' [= <-].
  - destruct (ServerEndpoint.m_endpoints_map i !! id) as [e|] eqn:He; [|done].
    destruct (Endpoint.is_connected e); [|done]. unfold Endpoint.make_request. by case_decide.
  - intros id' Hne. destruct (ServerEndpoint.m_endpoints_map i !! id) as [e|]; [|done].
    destruct (Endpoint.is_connected e); [|done]. destruct (Endpoint.make_request idx pl e). simpl. by rewrite lookup_insert_ne.
  - apply NoDup_fst_map_to_list.
  - intros id' f. unfold ServerEndpoint.make_request_all. simpl. rewrite elem_of_map_to_list, !lookup_fmap.
    destruct (ServerEndpoint.m_endpoints_map i !! id') as [e|]; simpl; [|split; [done|by intros (e & ? & _)]].
    split; [intros [= <-]; by exists e|by intros (e' & [= <-] & ->)].
Qed.

(** Every disconnect future of the client endpoint completes exactly once:
    those of replaced, dropped and lost connections have been completed, and
    only that of the current connection, while its pipe is up, has not; after
    [disconnect] all have; a request without a connection gets
    [no_connection]. *)
Theorem client_disconnects_once (c : ClientEndpoint.impl) :
  rtc ClientEndpoint.step ClientEndpoint.create c →
  ClientEndpoint.due c ++ ClientFacts.pending_of c ≡ₚ seq 0 (ClientEndpoint.next_disconnect c) ∧
  (ClientEndpoint.is_connected c = true → length (ClientFacts.pending_of c) = 1%nat) ∧
  ClientEndpoint.due (ClientEndpoint.disconnect c) ≡ₚ seq 0 (ClientEndpoint.next_disconnect c) ∧
  ClientEndpoint.is_connected (ClientEndpoint.disconnect c) = false ∧
  ∀ idx pl, (ClientEndpoint.make_request idx pl c).1 = Endpoint.Ready RequestResult.no_connection ↔
            ClientEndpoint.is_connected c = false.
Proof.
  intros I%ClientFacts.client_reachable_inv. pose proof I as [Ho Ha].
  pose proof (ClientFacts.client_inv_step c _ I (ClientEndpoint.step_disconnect c)) as [Ho' _].
  unfold ClientEndpoint.is_connected, ClientEndpoint.disconnect, ClientFacts.pending_of, ClientEndpoint.make_request in *.
  destruct (ClientEndpoint.m_endpoint c) as [e|] eqn:E; simpl in *.
  - destruct Ha as [p Ha]. rewrite app_nil_r in Ho'. split_and!; [done| |done|done|].
    + intros Hc. unfold Endpoint.is_connected, Connection.is_active in Hc. apply andb_true_iff in Hc as [_ Hr].
      unfold armed in Ha. rewrite Hr in Ha. by rewrite Ha.
    + intros idx pl. destruct (Endpoint.is_connected e); [|done]. unfold Endpoint.make_request. by case_decide.
  - rewrite E in *. rewrite app_nil_r in Ho'. by split_and!.
Qed.

(** ** A server with one client, a client with a connection *)
Definition one_client : ServerEndpoint.impl :=
  ServerEndpoint.process_new_connection 5 (Connection.create true 10) ServerEndpoint.create.

Lemma server_reports_connections_witness :
  ServerFacts.story 5 one_client = [ServerEndpoint.connected] ∧
  ∀ e, ServerEndpoint.m_endpoints_map one_client !! 5%nat = Some e →
       Connection.is_running (Endpoint.m_connection e) = true.
Proof.
  destruct (server_reports_connections one_client) as [Hs Hi].
  - apply rtc_once. by apply ServerEndpoint.step_new.
  - split; [apply (Hs 5%nat); by eexists|]. intros e. by apply Hi.
Defined.

Definition connected_client : ClientEndpoint.impl :=
  ClientEndpoint.establish_endpoint (Connection.create false 10) ClientEndpoint.create.

Lemma client_disconnects_once_witness :
  length (ClientFacts.pending_of connected_client) = 1%nat ∧
  ClientEndpoint.due (ClientEndpoint.disconnect connected_client) ≡ₚ [0%nat].
Proof.
  destruct (client_disconnects_once connected_client) as (_ & Hp & Hd & _).
  - apply rtc_once. by apply ClientEndpoint.step_establish.
  - split; [by apply Hp|exact Hd].
Defined.
