(* ===== verification/Server.v ===== *)
(** * The server endpoint as a whole

    [server_endpoint] builds a connector, feeds the connections it reports to
    the endpoints and the changes of its state to the application, and ends
    with its destructor.  The composition discharges what the model of the
    endpoints assumes of the connector. *)
From S2P Require Import Prelude RpcTypes Connection Connector Endpoint.
Local Open Scope Z_scope.

Module Server.
Section server.
Context `{Authenticator}.

Inductive server_endpoint_state : Type := start_listening_state | stop_listening_state.

(** The owner has the [server_endpoint]; its destructor finalizes the shared
    [impl], which is destroyed when the last task lets go of it. *)
Inductive lifetime : Type := Owned | Finalized | Expired.
#[global] Instance lifetime_eq_dec : EqDecision lifetime.
Proof. solve_decision. Defined.

(** [notified] counts the tasks of the notify strand that ran, [changes] the
    calls of [on_change_state]. *)
Record server : Type := mk {
  m_connector : ServerConnector.impl;
  m_impl : ServerEndpoint.impl;
  life : lifetime;
  notified : nat;
  changes : list server_endpoint_state
}.

Definition create : server := mk ServerConnector.create ServerEndpoint.create Owned 0 [].

Definition with_connector (c : ServerConnector.impl) (s : server) : server :=
  mk c (m_impl s) (life s) (notified s) (changes s).
Definition with_impl (i : ServerEndpoint.impl) (s : server) : server :=
  mk (m_connector s) i (life s) (notified s) (changes s).

(** ** What the application calls *)
Definition start_listening (s : server) : outcome server unit :=
  match ServerConnector.start (m_connector s) with
  | Ok _ c => Ok tt (with_connector c s)
  | Throw e c => Throw e (with_connector c s)
  | UB => UB
  end.
Definition stop_listening (s : server) : server := with_connector (ServerConnector.stop (m_connector s)) s.
Definition is_listening (s : server) : bool := ServerConnector.is_active (m_connector s).
Definition get_active_connections_count (s : server) : nat :=
  ServerEndpoint.get_active_connections_count (m_impl s).
Definition make_request (id : nat) (idx : Z) (pl : list Z) (s : server) : Endpoint.request_future * server :=
  let '(f, i) := ServerEndpoint.make_request id idx pl (m_impl s) in (f, with_impl i s).
Definition make_request_all (idx : Z) (pl : list Z) (s : server) : list (nat * Endpoint.request_future) * server :=
  let '(fs, i) := ServerEndpoint.make_request_all idx pl (m_impl s) in (fs, with_impl i s).

(** [~server_endpoint], and later the members of [impl]: the endpoints, then
    the connector, which stops. *)
Definition destroy (s : server) : server :=
  mk (m_connector s) (ServerEndpoint.finalize (m_impl s)) Finalized (notified s) (changes s).
Definition expire (s : server) : server :=
  let i := m_impl s in
  mk (ServerConnector.stop (m_connector s))
     (ServerEndpoint.with_map ∅
        (ServerEndpoint.due i ++ concat (Endpoint.destroy <$> (map_to_list (ServerEndpoint.m_endpoints_map i)).*2)) i)
     Expired (notified s) (changes s).

(** ** The callbacks of the connector *)
Definition on_new_connection (id : Z) (c : Connection.impl) (s : server) : server :=
  if decide (life s = Expired) then s
  else with_impl (ServerEndpoint.process_new_connection (Z.to_nat id) c (m_impl s)) s.
Definition on_change_state (x : server_endpoint_state) (s : server) : server :=
  mk (m_connector s) (m_impl s) (life s) (notified s) (changes s ++ [x]).

(** The next task of the notify strand; [c] is the new connection. *)
Definition run_notification (c : Connection.impl) (s : server) : option server :=
  n ← ServerConnector.m_notify_strand (m_connector s) !! notified s;
  let s := mk (m_connector s) (m_impl s) (life s) (S (notified s)) (changes s) in
  Some (match n with
        | ServerConnector.Started => on_change_state start_listening_state s
        | ServerConnector.Stopped => on_change_state stop_listening_state s
        | ServerConnector.NewConnection id _ => on_new_connection id c s
        end).

(** ** Steps *)

(** The endpoints go on by themselves; without [impl] only what was posted is
    left to run. *)
Inductive impl_step (s : server) : ServerEndpoint.impl → Prop :=
| impl_connection id e c :
    life s ≠ Expired → ServerEndpoint.m_endpoints_map (m_impl s) !! id = Some e →
    Connection.step (Endpoint.m_connection e) c →
    impl_step s (ServerEndpoint.with_map (<[id := (Endpoint.update c e).1]> (ServerEndpoint.m_endpoints_map (m_impl s)))
                   (ServerEndpoint.due (m_impl s) ++ (Endpoint.update c e).2) (m_impl s))
| impl_due d1 id d2 :
    ServerEndpoint.due (m_impl s) = d1 ++ id :: d2 →
    impl_step s (ServerEndpoint.complete_disconnect id (d1 ++ d2) (m_impl s))
| impl_continuation l1 id l2 :
    ServerEndpoint.continuations (m_impl s) = l1 ++ id :: l2 →
    impl_step s (ServerEndpoint.on_disconnect id
                   (ServerEndpoint.mk (ServerEndpoint.m_endpoints_map (m_impl s)) (ServerEndpoint.m_is_finalizing (m_impl s))
                      (ServerEndpoint.due (m_impl s)) (l1 ++ l2) (ServerEndpoint.strands (m_impl s))
                      (ServerEndpoint.reported (m_impl s))))
| impl_strand id i' : ServerEndpoint.run_strand id (m_impl s) = Some i' → impl_step s i'.

Inductive step (s : server) : server → Prop :=
| step_start s' :
    life s = Owned → ServerConnector.m_next_connection_id (m_connector s) < 2 ^ 64 - 1 →
    start_listening s = Ok tt s' → step s s'
| step_stop : life s = Owned → step s (stop_listening s)
| step_request id idx pl : life s = Owned → step s (make_request id idx pl s).2
| step_request_all idx pl : life s = Owned → step s (make_request_all idx pl s).2
| step_destroy : life s = Owned → step s (destroy s)
| step_expire : life s = Finalized → step s (expire s)
(** The continuations of the connector. *)
| step_pipe i r :
    ServerConnector.m_next_connection_id (m_connector s) < 2 ^ 64 - 1 →
    step s (with_connector (ServerConnector.pipe_result i r (m_connector s)) s)
| step_read i r b : step s (with_connector (ServerConnector.read_result i r b (m_connector s)) s)
| step_write i r : step s (with_connector (ServerConnector.write_result i r (m_connector s)) s)
| step_notification c s' :
    Connection.m_state c = Connection.never_started → run_notification c s = Some s' → step s s'
| step_impl i : impl_step s i → step s (with_impl i s).
End server.
End Server.
