(* ===== verification/ServerRun.v ===== *)
(** * Correctness of the server endpoint as a whole

    The connector gives every connection an id of its own, so the endpoints
    never meet an id twice; the application is told of authenticated clients
    only, and of each one's end, also after the server was destroyed. *)
From S2P Require Import Prelude RpcTypes Connection Connector Endpoint.
From S2P Require ConnectorFacts EndpointFacts.
From S2P Require Import Server.
Import Server.
Local Open Scope nat_scope.

Section run.
Context `{Authenticator}.
Implicit Types (s : server) (i : ServerEndpoint.impl).

Abbreviation strand s := (ServerConnector.m_notify_strand (m_connector s)).
Abbreviation story := EndpointFacts.ServerFacts.story.
Abbreviation under_way := EndpointFacts.ServerFacts.under_way.

(** The notifications that were delivered, and what they tell of the state. *)
Definition delivered s : list ServerConnector.notification := take (notified s) (strand s).
Definition change_of (n : ServerConnector.notification) : option server_endpoint_state :=
  match n with
  | ServerConnector.Started => Some start_listening_state
  | ServerConnector.Stopped => Some stop_listening_state
  | ServerConnector.NewConnection _ _ => None
  end.

(** ** After the endpoints are gone *)
Record gone_inv i : Prop := {
  gone_map : ServerEndpoint.m_endpoints_map i = ∅;
  gone_story id :
    under_way id i ≤ 1 ∧
    story id i ++ (if decide (under_way id i = 1) then [ServerEndpoint.disconnected] else []) =
      match ServerEndpoint.strands i !! id with
      | Some _ => [ServerEndpoint.connected; ServerEndpoint.disconnected]
      | None => []
      end
}.

Lemma gone_ext id i i' :
  (under_way id i ≤ 1 ∧
   story id i ++ (if decide (under_way id i = 1) then [ServerEndpoint.disconnected] else []) =
     match ServerEndpoint.strands i !! id with
     | Some _ => [ServerEndpoint.connected; ServerEndpoint.disconnected] | None => [] end) →
  under_way id i' = under_way id i → ServerEndpoint.strands i' !! id = ServerEndpoint.strands i !! id →
  EndpointFacts.ServerFacts.reports_of id i' = EndpointFacts.ServerFacts.reports_of id i →
  under_way id i' ≤ 1 ∧
  story id i' ++ (if decide (under_way id i' = 1) then [ServerEndpoint.disconnected] else []) =
    match ServerEndpoint.strands i' !! id with
    | Some _ => [ServerEndpoint.connected; ServerEndpoint.disconnected] | None => [] end.
Proof. unfold EndpointFacts.ServerFacts.story. by intros Hi -> -> ->. Qed.

Lemma gone_due d1 id0 d2 i :
  gone_inv i → ServerEndpoint.due i = d1 ++ id0 :: d2 → gone_inv (ServerEndpoint.complete_disconnect id0 (d1 ++ d2) i).
Proof.
  intros [Hm Hs] Hd. split; [done|]. intros id. eapply gone_ext; [apply Hs| |done|done].
  unfold EndpointFacts.ServerFacts.under_way. simpl. rewrite Hd, !occ_app, !occ_cons, occ_nil. lia.
Qed.

Lemma gone_continuation l1 id0 l2 i :
  gone_inv i → ServerEndpoint.continuations i = l1 ++ id0 :: l2 →
  gone_inv (ServerEndpoint.on_disconnect id0
    (ServerEndpoint.mk (ServerEndpoint.m_endpoints_map i) (ServerEndpoint.m_is_finalizing i) (ServerEndpoint.due i)
       (l1 ++ l2) (ServerEndpoint.strands i) (ServerEndpoint.reported i))).
Proof.
  intros [Hm Hs] Hc. unfold ServerEndpoint.on_disconnect, ServerEndpoint.remove_endpoint_from_map. simpl.
  rewrite Hm, lookup_empty. split; [done|]. intros id. specialize (Hs id). destruct (decide (id = id0)) as [-> |Hne].
  - unfold EndpointFacts.ServerFacts.under_way, EndpointFacts.ServerFacts.story in *. simpl.
    rewrite Hc, !occ_app, occ_cons, decide_True in Hs by done.
    assert (occ id0 (ServerEndpoint.due i) + (occ id0 l1 + (1 + occ id0 l2)) = 1) as Ho by lia.
    rewrite Ho, decide_True in Hs by done. destruct Hs as [_ Hs]. rewrite lookup_insert_eq, !occ_app.
    rewrite decide_False by lia. split; [lia|]. rewrite app_nil_r.
    change (EndpointFacts.ServerFacts.reports_of id0 (ServerEndpoint.post _ _ _))
      with (EndpointFacts.ServerFacts.reports_of id0 i).
    simpl. rewrite app_assoc, Hs. destruct (ServerEndpoint.strands i !! id0); [done|].
    simpl in Hs. by destruct (EndpointFacts.ServerFacts.reports_of id0 i).
  - eapply gone_ext; [exact Hs| |simpl; by rewrite lookup_insert_ne|done].
    unfold EndpointFacts.ServerFacts.under_way. simpl. rewrite Hc, !occ_app, occ_cons, decide_False by done. lia.
Qed.

Lemma gone_strand id0 i i' : gone_inv i → ServerEndpoint.run_strand id0 i = Some i' → gone_inv i'.
Proof.
  intros [Hm Hs]. unfold ServerEndpoint.run_strand.
  destruct (ServerEndpoint.strands i !! id0) as [[|x q]|] eqn:Es; try done. intros [= <-]. split; [done|].
  intros id. specialize (Hs id). destruct (decide (id = id0)) as [-> |Hne].
  - unfold EndpointFacts.ServerFacts.under_way, EndpointFacts.ServerFacts.story, EndpointFacts.ServerFacts.reports_of in *.
    simpl. rewrite Es in Hs. rewrite lookup_insert_eq, omap_app. simpl. rewrite decide_True by done. simpl.
    by rewrite <- (app_assoc _ [x] q).
  - eapply gone_ext; [exact Hs|done|simpl; by rewrite lookup_insert_ne|].
    unfold EndpointFacts.ServerFacts.reports_of. simpl. rewrite omap_app. simpl.
    rewrite decide_False by done. by rewrite app_nil_r.
Qed.

(** The endpoints of a finalized server have nothing left to complete. *)
Lemma gone_expire s :
  EndpointFacts.ServerFacts.inv (m_impl s) → ServerEndpoint.m_is_finalizing (m_impl s) = true →
  gone_inv (m_impl (expire s)).
Proof.
  intros I Hf. split; [done|].
  assert (concat (Endpoint.destroy <$> (map_to_list (ServerEndpoint.m_endpoints_map (m_impl s))).*2) = []) as Hc.
  { apply concat_nil_Forall, Forall_fmap, Forall_fmap, Forall_forall. intros [id e] Hin%elem_of_map_to_list. simpl.
    pose proof (I id) as Hi. unfold EndpointFacts.ServerFacts.id_inv in Hi. rewrite Hin in Hi.
    destruct Hi as (_ & Ha & _ & _ & Hr). unfold EndpointFacts.armed in Ha. rewrite (Hr Hf) in Ha.
    by rewrite EndpointFacts.destroy_due, Ha. }
  intros id. pose proof (I id) as Hi. unfold EndpointFacts.ServerFacts.id_inv in Hi.
  unfold EndpointFacts.ServerFacts.under_way, EndpointFacts.ServerFacts.story in *. simpl. rewrite Hc, app_nil_r.
  change (EndpointFacts.ServerFacts.reports_of id (ServerEndpoint.with_map _ _ _))
    with (EndpointFacts.ServerFacts.reports_of id (m_impl s)).
  destruct (ServerEndpoint.m_endpoints_map (m_impl s) !! id) as [e|].
  - destruct Hi as (Hst & _ & [q Hq] & Hu & Hr). rewrite (Hr Hf) in Hu. rewrite Hu, Hst, Hq.
    split; [lia|]. by rewrite decide_True.
  - destruct Hi as [Hu ->]. rewrite Hu. split; [lia|]. rewrite decide_False by lia. by rewrite app_nil_r.
Qed.

(** ** The invariant *)
Record server_inv s : Prop := {
  si_connector : ConnectorFacts.inv 1 (m_connector s);
  si_notified : notified s ≤ length (strand s);
  si_changes : changes s = omap change_of (delivered s);
  si_known id : is_Some (ServerEndpoint.strands (m_impl s) !! id) →
    ∃ z b, id = Z.to_nat z ∧ ServerConnector.NewConnection z b ∈ delivered s;
  si_told z b : life s = Owned → ServerConnector.NewConnection z b ∈ delivered s →
    is_Some (ServerEndpoint.strands (m_impl s) !! Z.to_nat z);
  si_impl : if decide (life s = Expired) then gone_inv (m_impl s)
            else EndpointFacts.ServerFacts.inv (m_impl s) ∧
                 ServerEndpoint.m_is_finalizing (m_impl s) = bool_decide (life s = Finalized)
}.

(** The connector only adds notifications. *)
Lemma strand_grows c c' :
  ServerConnector.step c c' → ∃ ns, ServerConnector.m_notify_strand c' = ServerConnector.m_notify_strand c ++ ns.
Proof.
  assert (∀ t x, ∃ ns, ServerConnector.m_notify_strand (ServerConnector.stop_impl t x) = ServerConnector.m_notify_strand x ++ ns) as Hstop.
  { intros t x. unfold ServerConnector.stop_impl. destruct t; [|exists []; by rewrite app_nil_r].
    destruct (negb _); [exists []; by rewrite app_nil_r|]. by eexists. }
  intros Hs. destruct Hs as [c' _ Hst| |i r _|i r b|i r].
  - unfold ServerConnector.start, ServerConnector.start_pipe_connect in Hst.
    destruct (ServerConnector.is_active _); [done|]. injection Hst as <-. by eexists.
  - apply Hstop.
  - unfold ServerConnector.pipe_result. destruct (_ !! i) as [[id t []]|]; try (exists []; by rewrite app_nil_r).
    destruct (PipeWaitRes.is_fail r).
    + destruct (Hstop (Some t) (ServerConnector.with_attempts (delete i (ServerConnector.attempts c)) c)) as [ns Hns]. by exists ns.
    + unfold ServerConnector.start_pipe_connect. destruct (negb _); exists []; by rewrite app_nil_r.
  - unfold ServerConnector.read_result. destruct (_ !! i) as [[id t []]|]; try (exists []; by rewrite app_nil_r).
    destruct (_ || _); exists []; by rewrite app_nil_r.
  - unfold ServerConnector.write_result. destruct (_ !! i) as [[id t []]|]; try (exists []; by rewrite app_nil_r).
    unfold ServerConnector.notify_on_new_connection.
    destruct (PipeOpRes.is_fail r); [exists []; by rewrite app_nil_r|].
    destruct (ServerConnector.flag t c); [by eexists|exists []; by rewrite app_nil_r].
Qed.

(** A step of the connector: nothing is delivered by it. *)
Lemma si_connector_step s c :
  server_inv s → ServerConnector.step (m_connector s) c → server_inv (with_connector c s).
Proof.
  intros [H1 H2 H3 H4 H5 H6] Hst. destruct (strand_grows _ _ Hst) as [ns Hns].
  assert (delivered (with_connector c s) = delivered s) as Hd.
  { unfold delivered. simpl. rewrite Hns, take_app_le by done. done. }
  split; try rewrite Hd; try done.
  - eapply ConnectorFacts.inv_step; done.
  - simpl. rewrite Hns, length_app. lia.
Qed.

(** A change of the endpoints that starts and ends no strand. *)
Lemma si_impl_step s i :
  server_inv s →
  (∀ id, is_Some (ServerEndpoint.strands i !! id) ↔ is_Some (ServerEndpoint.strands (m_impl s) !! id)) →
  (if decide (life s = Expired) then gone_inv i
   else EndpointFacts.ServerFacts.inv i ∧ ServerEndpoint.m_is_finalizing i = bool_decide (life s = Finalized)) →
  server_inv (with_impl i s).
Proof.
  intros [H1 H2 H3 H4 H5 H6] Hd Hi. split; try done.
  - intros id Hid. by apply H4, Hd.
  - intros z b Ho Hin. apply Hd. by eapply H5.
Qed.

(** ** The steps *)
Lemma under_way_strand s id :
  server_inv s → id ∈ ServerEndpoint.continuations (m_impl s) → is_Some (ServerEndpoint.strands (m_impl s) !! id).
Proof.
  intros I Hin. apply occ_elem in Hin. pose proof (si_impl _ I) as Hi. case_decide.
  - destruct Hi as [_ Hs]. destruct (Hs id) as [Hu Hst]. unfold EndpointFacts.ServerFacts.under_way in *.
    rewrite decide_True in Hst by lia. destruct (ServerEndpoint.strands (m_impl s) !! id); [by eexists|].
    by apply app_eq_nil in Hst as [_ ?].
  - destruct Hi as [Hi _]. specialize (Hi id). unfold EndpointFacts.ServerFacts.id_inv, EndpointFacts.ServerFacts.under_way in Hi.
    destruct (ServerEndpoint.m_endpoints_map (m_impl s) !! id); [tauto|lia].
Qed.

Lemma insert_same_dom {A} (m : gmap nat A) k x : is_Some (m !! k) → ∀ id, is_Some (<[k := x]> m !! id) ↔ is_Some (m !! id).
Proof.
  intros Hk id. destruct (decide (id = k)) as [-> |]; [|by rewrite lookup_insert_ne].
  rewrite lookup_insert_eq. split; [done|by eexists].
Qed.

Lemma si_impl_inv s i : server_inv s → impl_step s i → server_inv (with_impl i s).
Proof.
  intros I Hst. pose proof (si_impl _ I) as Hi.
  assert (∀ i', ServerEndpoint.step (m_impl s) i' → life s ≠ Expired →
            ServerEndpoint.m_is_finalizing i' = ServerEndpoint.m_is_finalizing (m_impl s) →
            if decide (life s = Expired) then gone_inv i'
            else EndpointFacts.ServerFacts.inv i' ∧ ServerEndpoint.m_is_finalizing i' = bool_decide (life s = Finalized)) as Hlive.
  { intros i' Hs Hne Hf. rewrite decide_False in * by done. destruct Hi as [Hi Hfin].
    split; [by eapply EndpointFacts.ServerFacts.server_inv_step|by rewrite Hf]. }
  destruct Hst as [id e c Hne He Hc|d1 id d2 Hd|l1 id l2 Hc|id i' Hr].
  - apply si_impl_step; [done|done|]. apply Hlive; [by eapply ServerEndpoint.step_connection|done|done].
  - apply si_impl_step; [done|done|]. destruct (decide (life s = Expired)) as [E|E].
    + by apply gone_due.
    + apply Hlive; [by apply ServerEndpoint.step_due|done|done].
  - apply si_impl_step; [done| |].
    + assert (is_Some (ServerEndpoint.strands (m_impl s) !! id)) as Hk.
      { apply under_way_strand; [done|]. rewrite Hc. apply elem_of_app. right. left. }
      intros id'. unfold ServerEndpoint.on_disconnect, ServerEndpoint.remove_endpoint_from_map. simpl.
      destruct (ServerEndpoint.m_endpoints_map (m_impl s) !! id); simpl; by apply insert_same_dom.
    + destruct (decide (life s = Expired)) as [E|E]; [by apply gone_continuation|].
      apply Hlive; [by apply ServerEndpoint.step_continuation|done|]. unfold ServerEndpoint.on_disconnect, ServerEndpoint.remove_endpoint_from_map. simpl.
      by destruct (ServerEndpoint.m_endpoints_map (m_impl s) !! id).
  - assert (ServerEndpoint.m_is_finalizing i' = ServerEndpoint.m_is_finalizing (m_impl s) ∧
            ∀ id', is_Some (ServerEndpoint.strands i' !! id') ↔ is_Some (ServerEndpoint.strands (m_impl s) !! id')) as [Hf Hk].
    { unfold ServerEndpoint.run_strand in Hr. destruct (ServerEndpoint.strands (m_impl s) !! id) as [[|x q]|] eqn:E; try done.
      injection Hr as <-. split; [done|]. simpl. apply insert_same_dom. by rewrite E. }
    apply si_impl_step; [done|done|]. destruct (decide (life s = Expired)) as [E|E]; [by eapply gone_strand|].
    apply Hlive; [by eapply ServerEndpoint.step_strand|done|done].
Qed.

Lemma delivered_S s n :
  strand s !! notified s = Some n →
  take (S (notified s)) (strand s) = delivered s ++ [n].
Proof. intros Hn. unfold delivered. by apply take_S_r. Qed.

(** The id of a connection that is delivered was not delivered before. *)
Lemma delivered_fresh s z b :
  server_inv s → strand s !! notified s = Some (ServerConnector.NewConnection z b) →
  ServerEndpoint.strands (m_impl s) !! Z.to_nat z = None.
Proof.
  intros I Hn. destruct (ServerEndpoint.strands (m_impl s) !! Z.to_nat z) eqn:E; [|done]. exfalso.
  destruct (si_known _ I (Z.to_nat z)) as (z' & b' & Hz & Hin); [by rewrite E|].
  pose proof (si_connector _ I) as Ic. pose proof (ConnectorFacts.inv_ids _ _ Ic) as (_ & _ & Hd)%NoDup_app.
  pose proof (ConnectorFacts.inv_next _ _ Ic) as Hnext. apply Forall_app in Hnext as [_ Hnext].
  rewrite Forall_forall in Hnext.
  assert (strand s = delivered s ++ ServerConnector.NewConnection z b :: drop (S (notified s)) (strand s)) as Hsplit
    by (unfold delivered; by rewrite take_drop_middle).
  rewrite Hsplit in Hd, Hnext. unfold ConnectorFacts.new_ids in Hd, Hnext. rewrite omap_app in Hd, Hnext. simpl in Hd, Hnext.
  assert (z' ∈ omap (λ n, match n with ServerConnector.NewConnection id _ => Some id | _ => None end) (delivered s)) as Hz'.
  { apply list_elem_of_omap. by eexists. }
  assert (0 ≤ z ∧ 0 ≤ z')%Z as [H1 H2].
  { split; [apply (Hnext z)|apply (Hnext z')]; rewrite elem_of_app; [right; left|by left]. }
  assert (z' = z) as -> by lia. apply NoDup_app in Hd as (_ & Hd & _). apply (Hd z Hz'). left.
Qed.

Lemma si_notification c s s' :
  server_inv s → Connection.m_state c = Connection.never_started → run_notification c s = Some s' → server_inv s'.
Proof.
  intros I Hc Hr. unfold run_notification in Hr. destruct (strand s !! notified s) as [n|] eqn:Hn; [|done].
  simpl in Hr. pose proof (delivered_S _ _ Hn) as Hd. pose proof (lookup_lt_Some _ _ _ Hn) as Hl.
  pose proof I as [H1 H2 H3 H4 H5 H6].
  destruct n as [| |z b]; injection Hr as <-.
  1,2: split; unfold delivered; simpl; try done; rewrite ?Hd, ?omap_app;
    [simpl; by rewrite H3|intros id Hid; destruct (H4 id Hid) as (z & b & Hz & Hin); exists z, b; rewrite elem_of_app; auto|
     intros z b Ho [Hin|Hin%list_elem_of_singleton]%elem_of_app; [by eapply H5|done]].
  pose proof (delivered_fresh _ _ _ I Hn) as Hfresh. unfold on_new_connection. simpl.
  destruct (decide (life s = Expired)) as [E|E].
  - split; unfold delivered; simpl; try done; rewrite ?Hd, ?omap_app; simpl; rewrite ?app_nil_r; [done| |congruence|by rewrite E].
    intros id Hid. destruct (H4 id Hid) as (z' & b' & Hz & Hin). exists z', b'. rewrite elem_of_app. auto.
  - destruct H6 as [Hi Hf].
    assert (∀ id, is_Some (ServerEndpoint.strands (ServerEndpoint.process_new_connection (Z.to_nat z) c (m_impl s)) !! id) →
              id = Z.to_nat z ∨ is_Some (ServerEndpoint.strands (m_impl s) !! id)) as Hdom.
    { intros id. unfold ServerEndpoint.process_new_connection. destruct (ServerEndpoint.m_is_finalizing (m_impl s)); [by right|].
      destruct (Endpoint.set_disconnect_callback _ _) as [ep now]. simpl.
      destruct (decide (id = Z.to_nat z)); [by left|right].
      destruct (ServerEndpoint.m_endpoints_map (m_impl s) !! Z.to_nat z); simpl in *; by rewrite lookup_insert_ne in *. }
    split; unfold delivered; simpl; try done; rewrite ?Hd, ?omap_app; simpl; rewrite ?app_nil_r; [done| | |].
    + intros id [-> |Hid]%Hdom.
      * exists z, b. rewrite elem_of_app. split; [done|right; left].
      * destruct (H4 id Hid) as (z' & b' & Hz & Hin). exists z', b'. rewrite elem_of_app. auto.
    + intros z' b' Ho Hin. unfold ServerEndpoint.process_new_connection. rewrite Ho in Hf. simpl in Hf. rewrite Hf.
      destruct (Endpoint.set_disconnect_callback _ _) as [ep now].
      assert (is_Some (<[Z.to_nat z := default [] (ServerEndpoint.strands (m_impl s) !! Z.to_nat z) ++ [ServerEndpoint.connected]]>
                (ServerEndpoint.strands (m_impl s)) !! Z.to_nat z')) as Hs.
      { destruct (decide (Z.to_nat z' = Z.to_nat z)) as [-> |Hne]; [by rewrite lookup_insert_eq|].
        rewrite lookup_insert_ne by done. apply elem_of_app in Hin as [Hin|[= -> ->]%list_elem_of_singleton]; [by eapply H5|done]. }
      simpl. by destruct (ServerEndpoint.m_endpoints_map (m_impl s) !! Z.to_nat z).
    + rewrite decide_False by done. split.
      * eapply EndpointFacts.ServerFacts.server_inv_step; [done|]. by apply ServerEndpoint.step_new.
      * unfold ServerEndpoint.process_new_connection. destruct (ServerEndpoint.m_is_finalizing (m_impl s)) eqn:Ef; [by rewrite Ef|].
        destruct (Endpoint.set_disconnect_callback _ _) as [ep now]. simpl.
        destruct (ServerEndpoint.m_endpoints_map (m_impl s) !! Z.to_nat z); simpl; by rewrite Ef.
Qed.

Lemma whole_server_inv_step s s' : server_inv s → step s s' → server_inv s'.
Proof.
  intros I Hst. pose proof (si_impl _ I) as Hi.
  destruct Hst as [s' Ho Hb Hs|Ho|id idx pl Ho|idx pl Ho|Ho|Ho|i r Hb|i r b|i r|c s' Hc Hr|i Hi'].
  - unfold start_listening in Hs. destruct (ServerConnector.start (m_connector s)) as [[] c|e c|] eqn:E; [|done..].
    injection Hs as <-. apply si_connector_step; [done|]. by apply ServerConnector.step_start.
  - apply si_connector_step; [done|apply ServerConnector.step_stop].
  - rewrite Ho in Hi. destruct Hi as [Hi Hf].
    pose proof (EndpointFacts.ServerFacts.inv_make_request id idx pl _ Hi) as Hi'. unfold make_request.
    assert (∀ x, ServerEndpoint.strands (ServerEndpoint.make_request id idx pl (m_impl s)).2 = x →
                 ServerEndpoint.strands (m_impl s) = x) as Hx.
    { intros x <-. unfold ServerEndpoint.make_request. repeat case_match; done. }
    assert (ServerEndpoint.m_is_finalizing (ServerEndpoint.make_request id idx pl (m_impl s)).2
            = ServerEndpoint.m_is_finalizing (m_impl s)) as Hfx.
    { unfold ServerEndpoint.make_request. repeat case_match; done. }
    destruct (ServerEndpoint.make_request id idx pl (m_impl s)) as [f i]. simpl in *.
    apply si_impl_step; [done|intros id'; by rewrite (Hx _ eq_refl)|]. rewrite Ho. simpl. by rewrite Hfx.
  - rewrite Ho in Hi. destruct Hi as [Hi Hf]. unfold make_request_all. simpl.
    apply si_impl_step; [done|done|]. rewrite Ho. simpl. split; [|done].
    by apply (EndpointFacts.ServerFacts.inv_make_request_all idx pl).
  - rewrite Ho in Hi. destruct Hi as [Hi Hf]. destruct I as [H1 H2 H3 H4 H5 H6]. split; try done.
    simpl. split; [by apply EndpointFacts.ServerFacts.inv_finalize|done].
  - rewrite Ho in Hi. destruct Hi as [Hi Hf]. pose proof (gone_expire s Hi Hf) as Hg.
    destruct (strand_grows _ _ (ServerConnector.step_stop (m_connector s))) as [ns Hns].
    destruct I as [H1 H2 H3 H4 H5 H6].
    assert (delivered (expire s) = delivered s) as Hd by (unfold delivered; simpl; by rewrite Hns, take_app_le).
    split; try rewrite Hd; try done.
    + eapply ConnectorFacts.inv_step; [done|apply ServerConnector.step_stop].
    + simpl. rewrite Hns, length_app. lia.
  - apply si_connector_step; [done|by apply ServerConnector.step_pipe].
  - apply si_connector_step; [done|apply ServerConnector.step_read].
  - apply si_connector_step; [done|apply ServerConnector.step_write].
  - by eapply si_notification.
  - by apply si_impl_inv.
Qed.

Lemma whole_server_inv_create : server_inv create.
Proof.
  split; try done.
  - apply ConnectorFacts.connector_inv_create.
  - intros id [x Hx]. done.
  - intros z b _ Hin. by apply elem_of_nil in Hin.
Qed.

Lemma whole_server_reachable_inv s : rtc step create s → server_inv s.
Proof. apply rtc_invariant; [apply whole_server_inv_create|apply whole_server_inv_step]. Qed.

(** ** What the application is told *)

(** Changes of state alternate; [listening] is the state before them. *)
Fixpoint alternates (listening : bool) (cs : list server_endpoint_state) : bool :=
  match cs with
  | [] => true
  | start_listening_state :: cs => negb listening && alternates true cs
  | stop_listening_state :: cs => listening && alternates false cs
  end.

Lemma observe_none ns : foldl ConnectorFacts.observe None ns = None.
Proof. induction ns as [|n ns IH]; [done|]. simpl. by destruct n. Qed.

Lemma rounds_alternate ns b b' :
  foldl ConnectorFacts.observe (Some b) ns = Some b' → alternates b (omap change_of ns) = true.
Proof.
  revert b. induction ns as [|n ns IH]; intros b; [done|]. simpl.
  destruct n, b; simpl; rewrite ?observe_none; try done; apply IH.
Qed.

Lemma rounds_prefix ns ns' b : ConnectorFacts.rounds (ns ++ ns') = Some b → ∃ b', ConnectorFacts.rounds ns = Some b'.
Proof.
  unfold ConnectorFacts.rounds. rewrite foldl_app. destruct (foldl _ _ ns); [by eexists|].
  by rewrite observe_none.
Qed.

Lemma changes_alternate s : server_inv s → alternates false (changes s) = true.
Proof.
  intros I. rewrite (si_changes _ I). pose proof (ConnectorFacts.inv_rounds _ _ (si_connector _ I)) as Hr.
  rewrite <- (take_drop (notified s) (strand s)) in Hr. apply rounds_prefix in Hr as [b Hr].
  by eapply rounds_alternate.
Qed.

Lemma story_known s id :
  server_inv s → story id (m_impl s) ≠ [] →
  ∃ z b, id = Z.to_nat z ∧ ServerConnector.NewConnection z b ∈ delivered s ∧ check_request b = true.
Proof.
  intros I Hne. assert (is_Some (ServerEndpoint.strands (m_impl s) !! id)) as Hs.
  { pose proof (si_impl _ I) as Hi. case_decide.
    - destruct Hi as [_ Hi]. destruct (Hi id) as [_ Hst]. destruct (ServerEndpoint.strands (m_impl s) !! id); [by eexists|].
      by apply app_eq_nil in Hst as [? _].
    - destruct Hi as [Hi _]. specialize (Hi id). unfold EndpointFacts.ServerFacts.id_inv in Hi.
      destruct (ServerEndpoint.m_endpoints_map (m_impl s) !! id); [tauto|].
      destruct (ServerEndpoint.strands (m_impl s) !! id); [by eexists|]. by destruct Hi. }
  destruct (si_known _ I id Hs) as (z & b & Hz & Hin). exists z, b. split_and!; [done|done|].
  pose proof (ConnectorFacts.inv_new _ _ (si_connector _ I)) as Hn. rewrite Forall_forall in Hn.
  apply (Hn (ServerConnector.NewConnection z b)). eapply elem_of_submseteq; [exact Hin|].
  apply submseteq_take.
Qed.

Lemma story_prefix s id :
  server_inv s → story id (m_impl s) `prefix_of` [ServerEndpoint.connected; ServerEndpoint.disconnected].
Proof.
  intros I. pose proof (si_impl _ I) as Hi. case_decide.
  - destruct Hi as [_ Hi]. destruct (Hi id) as [_ Hst]. destruct (ServerEndpoint.strands (m_impl s) !! id).
    + rewrite <- Hst. by apply prefix_app_r.
    + apply app_eq_nil in Hst as [-> _]. apply prefix_nil.
  - destruct Hi as [Hi _]. specialize (Hi id). unfold EndpointFacts.ServerFacts.id_inv in Hi.
    destruct (ServerEndpoint.m_endpoints_map (m_impl s) !! id).
    + destruct Hi as [-> _]. by exists [ServerEndpoint.disconnected].
    + destruct Hi as [_ ->]. destruct (ServerEndpoint.strands (m_impl s) !! id); [done|apply prefix_nil].
Qed.

Lemma story_told s z b :
  server_inv s → life s = Owned → ServerConnector.NewConnection z b ∈ delivered s → story (Z.to_nat z) (m_impl s) ≠ [].
Proof.
  intros I Ho Hin. destruct (si_told _ I z b Ho Hin) as [q Hq]. pose proof (si_impl _ I) as Hi. rewrite Ho in Hi.
  destruct Hi as [Hi _]. specialize (Hi (Z.to_nat z)). unfold EndpointFacts.ServerFacts.id_inv in Hi. rewrite Hq in Hi.
  destruct (ServerEndpoint.m_endpoints_map (m_impl s) !! Z.to_nat z); [destruct Hi as [-> _]|destruct Hi as [_ ->]]; done.
Qed.

(** ** A destroyed server *)
Lemma expired_stopped s :
  rtc step create s → life s = Expired → ServerConnector.m_is_running_sp (m_connector s) = None.
Proof.
  intros Hr. assert (server_inv s ∧ (life s = Expired → ServerConnector.m_is_running_sp (m_connector s) = None)) as [_ H0]; [|done].
  revert Hr. apply (rtc_invariant step
    (λ s, server_inv s ∧ (life s = Expired → ServerConnector.m_is_running_sp (m_connector s) = None))).
  { split; [apply whole_server_inv_create|done]. }
  intros s1 s2 [I Hx] Hst. split; [by eapply whole_server_inv_step|]. revert Hx.
  assert (∀ t c, ServerConnector.m_is_running_sp c = None →
            ServerConnector.m_is_running_sp (ServerConnector.stop_impl t c) = None) as Hstop.
  { intros [t|] c Hc; [|done]. simpl. by destruct (negb _). }
  destruct Hst as [s' Ho Hb Hs|Ho|id idx pl Ho|idx pl Ho|Ho|Ho|i r Hb|i r b|i r|c s' Hc Hn|i Hi']; intros Hx.
  - unfold start_listening in Hs. destruct (ServerConnector.start _); simplify_eq. simpl. congruence.
  - simpl. congruence.
  - unfold make_request. destruct (ServerEndpoint.make_request _ _ _ _). simpl. congruence.
  - unfold make_request_all. simpl. congruence.
  - done.
  - intros _. simpl. unfold ServerConnector.stop. pose proof (si_connector _ I) as Ic.
    destruct (ServerConnector.m_is_running_sp (m_connector s1)) as [t|] eqn:Et; [|done]. simpl.
    by rewrite (proj2 (ConnectorFacts.inv_current _ _ Ic t) Et).
  - intros He. specialize (Hx He). simpl. unfold ServerConnector.pipe_result.
    destruct (_ !! i) as [[id t []]|]; try done. destruct (PipeWaitRes.is_fail r); [by apply Hstop|].
    unfold ServerConnector.start_pipe_connect. by destruct (negb _).
  - intros He. specialize (Hx He). simpl. unfold ServerConnector.read_result.
    destruct (_ !! i) as [[id t []]|]; try done. by destruct (_ || _).
  - intros He. specialize (Hx He). simpl. unfold ServerConnector.write_result, ServerConnector.notify_on_new_connection.
    destruct (_ !! i) as [[id t []]|]; try done. destruct (PipeOpRes.is_fail r); [done|].
    by destruct (ServerConnector.flag _ _).
  - unfold run_notification in Hn. destruct (_ !! notified s1) as [[]|]; simplify_eq/=; [done..|].
    unfold on_new_connection. by case_decide.
  - done.
Qed.
End run.

Abbreviation story := EndpointFacts.ServerFacts.story.

(** C38: the whole server: the application is told in turn that the server listens and
    that it does not; it is told of a connection only if the authenticator
    accepted the request of that client, first that it is connected and later,
    once, that it is not; while the server exists it is told of every
    connection the connector delivers; and after the server was destroyed it no
    longer listens and, when everything posted has run, every client that was
    reported connected was reported disconnected. *)
Theorem server_reports_its_life `{Authenticator} s :
  rtc step create s →
  alternates false (changes s) = true ∧
  (∀ id, story id (m_impl s) `prefix_of` [ServerEndpoint.connected; ServerEndpoint.disconnected] ∧
     (story id (m_impl s) ≠ [] → ∃ z b, id = Z.to_nat z ∧ ServerConnector.NewConnection z b ∈ delivered s ∧
                                         check_request b = true)) ∧
  (life s = Owned → ∀ z b, ServerConnector.NewConnection z b ∈ delivered s → story (Z.to_nat z) (m_impl s) ≠ []) ∧
  (life s = Expired → is_listening s = false ∧
     (ServerEndpoint.due (m_impl s) = [] → ServerEndpoint.continuations (m_impl s) = [] →
      ∀ id, story id (m_impl s) = [] ∨ story id (m_impl s) = [ServerEndpoint.connected; ServerEndpoint.disconnected])).
Proof.
  intros Hr. pose proof (whole_server_reachable_inv s Hr) as I. split_and!.
  - by apply changes_alternate.
  - intros id. split; [by apply story_prefix|by apply story_known].
  - intros Ho z b. by apply story_told.
  - intros He. split.
    { unfold is_listening, ServerConnector.is_active. by rewrite (expired_stopped s Hr He). }
    intros Hd Hc id. pose proof (si_impl _ I) as Hi. rewrite decide_True in Hi by done.
    destruct Hi as [_ Hi]. destruct (Hi id) as [_ Hst]. unfold EndpointFacts.ServerFacts.under_way in Hst.
    rewrite Hd, Hc in Hst. simpl in Hst. rewrite app_nil_r in Hst.
    destruct (ServerEndpoint.strands (m_impl s) !! id); auto.
Qed.

(** ** A server with one client that is destroyed *)
Definition or_else (s : server) (o : outcome server unit) : server := match o with Ok _ s' => s' | _ => s end.
Definition listening_server : server := or_else create (start_listening create).
Definition accepted_server (A : Authenticator) : server :=
  let s := listening_server in
  let c := ServerConnector.pipe_result 0 PipeWaitRes.success (m_connector s) in
  let c := ServerConnector.read_result 0 PipeOpRes.success create_request c in
  with_connector (ServerConnector.write_result 0 PipeOpRes.success c) s.
Definition notified_server (n : nat) (s : server) : server :=
  Nat.iter n (λ s, default s (run_notification (Connection.create true 10) s)) s.
Definition reporting_server : server := notified_server 2 (accepted_server (simple_authenticator 7)).

Lemma reporting_server_reachable : rtc (@step (simple_authenticator 7)) create reporting_server.
Proof.
  eapply rtc_l; [apply (@step_start (simple_authenticator 7) create listening_server); [done|done|reflexivity]|].
  eapply rtc_l; [apply (@step_pipe (simple_authenticator 7) _ 0 PipeWaitRes.success); done|].
  eapply rtc_l; [apply (@step_read (simple_authenticator 7) _ 0 PipeOpRes.success [7%Z])|].
  eapply rtc_l; [apply (@step_write (simple_authenticator 7) _ 0 PipeOpRes.success)|].
  eapply rtc_l; [apply (@step_notification (simple_authenticator 7) _ (Connection.create true 10)); [done|reflexivity]|].
  eapply rtc_l; [apply (@step_notification (simple_authenticator 7) _ (Connection.create true 10)); [done|reflexivity]|].
  apply rtc_refl.
Qed.

Lemma server_reports_its_life_witness :
  changes reporting_server = [start_listening_state] ∧ story 0 (m_impl reporting_server) ≠ [].
Proof.
  split; [reflexivity|].
  apply (proj1 (proj2 (proj2 (@server_reports_its_life (simple_authenticator 7) reporting_server reporting_server_reachable)))
           eq_refl 0%Z [7%Z]).
  vm_compute. right. left.
Defined.
