(* ===== verification/Client.v ===== *)
(** * The client endpoint as a whole

    [client_endpoint] connects through its connector: every connect future
    runs a handshake and, when it succeeds, replaces the endpoint and hands out
    the future of the disconnect.  The continuations lock weak pointers to the
    shared [impl], which the destructor of the client lets go of. *)
From S2P Require Import Prelude RpcTypes Connection Connector Endpoint EndpointFacts.
Local Open Scope nat_scope.

Module Client.
Section client.
Context `{Authenticator}.

(** The future of [connect_async]: pending, the disconnect future, or an exception. *)
Inductive connect_result : Type := Waiting | Gives (disconnect : nat) | Throws (e : exn).
Record connect : Type := Connect { handshake : ClientConnector.state; result : connect_result }.

Record client : Type := mk {
  m_impl : ClientEndpoint.impl;
  alive : bool;
  connects : list connect
}.
Definition create : client := mk ClientEndpoint.create true [].

Definition with_connect (i : nat) (x : connect) (c : client) : client :=
  mk (m_impl c) (alive c) (<[i := x]> (connects c)).
Definition with_impl (e : ClientEndpoint.impl) (c : client) : client := mk e (alive c) (connects c).

Definition connect_async (c : client) : client :=
  mk (m_impl c) (alive c) (connects c ++ [Connect ClientConnector.create_connection_async Waiting]).

(** A continuation of the handshake whose operation has [succeeded] locks its
    weak pointer before it goes on. *)
Definition continue (succeeded : bool) (s : ClientConnector.state) (c : client) : ClientConnector.state :=
  if succeeded && negb (alive c) then ClientConnector.Failed bad_weak_ptr else s.

Definition pipe_result (i : nat) (r : PipeWaitRes.pipe_wait_res) (c : client) : client :=
  match connects c !! i with
  | Some (Connect ClientConnector.WaitPipe x) =>
      with_connect i (Connect (continue (negb (PipeWaitRes.is_fail r))
                                 (ClientConnector.pipe_result r ClientConnector.WaitPipe).1 c) x) c
  | _ => c
  end.
Definition write_result (i : nat) (r : PipeOpRes.pipe_op_res) (c : client) : client :=
  match connects c !! i with
  | Some (Connect ClientConnector.WaitWrite x) =>
      with_connect i (Connect (continue (negb (PipeOpRes.is_fail r))
                                 (ClientConnector.write_result r ClientConnector.WaitWrite) c) x) c
  | _ => c
  end.
Definition read_result (i : nat) (r : PipeOpRes.pipe_op_res) (b : message) (c : client) : client :=
  match connects c !! i with
  | Some (Connect ClientConnector.WaitRead x) =>
      with_connect i (Connect (continue (negb (PipeOpRes.is_fail r))
                                 (ClientConnector.read_result r b ClientConnector.WaitRead) c) x) c
  | _ => c
  end.

(** The continuation of [connect_async], with the connection that was made. *)
Definition finish (i : nat) (conn : Connection.impl) (c : client) : client :=
  match connects c !! i with
  | Some (Connect ClientConnector.Connected Waiting) =>
      if alive c
      then with_impl (ClientEndpoint.establish_endpoint conn (m_impl c))
             (with_connect i (Connect ClientConnector.Connected (Gives (ClientEndpoint.next_disconnect (m_impl c)))) c)
      else with_connect i (Connect ClientConnector.Connected (Throws bad_weak_ptr)) c
  | Some (Connect (ClientConnector.Failed e) Waiting) =>
      with_connect i (Connect (ClientConnector.Failed e) (Throws e)) c
  | _ => c
  end.

Definition is_connected (c : client) : bool := ClientEndpoint.is_connected (m_impl c).
Definition disconnect (c : client) : client := with_impl (ClientEndpoint.disconnect (m_impl c)) c.
Definition make_request (idx : Z) (pl : list Z) (c : client) : Endpoint.request_future * client :=
  let '(f, e) := ClientEndpoint.make_request idx pl (m_impl c) in (f, with_impl e c).

(** The members of [impl]: the endpoint is destroyed. *)
Definition destroy (c : client) : client :=
  let e := m_impl c in
  mk (ClientEndpoint.mk None (ClientEndpoint.next_disconnect e)
        (ClientEndpoint.due e ++ match ClientEndpoint.m_endpoint e with Some e => Endpoint.destroy e | None => [] end))
     false (connects c).

Inductive step (c : client) : client → Prop :=
| step_connect : alive c = true → step c (connect_async c)
| step_pipe i r : step c (pipe_result i r c)
| step_write i r : step c (write_result i r c)
| step_read i r b : step c (read_result i r b c)
| step_finish i conn : Connection.m_state conn = Connection.never_started → step c (finish i conn c)
| step_disconnect : alive c = true → step c (disconnect c)
| step_request idx pl : alive c = true → step c (make_request idx pl c).2
| step_connection e conn :
    ClientEndpoint.m_endpoint (m_impl c) = Some e → Connection.step (Endpoint.m_connection e) conn →
    step c (with_impl (ClientEndpoint.mk (Some (Endpoint.update conn e).1) (ClientEndpoint.next_disconnect (m_impl c))
                         (ClientEndpoint.due (m_impl c) ++ (Endpoint.update conn e).2)) c)
| step_destroy : alive c = true → step c (destroy c).

(** The disconnect futures that were handed out. *)
Definition given (x : connect) : list nat := match result x with Gives p => [p] | _ => [] end.
Definition handed_out (c : client) : list nat := concat (given <$> connects c).
End client.
End Client.

Import Client.

(** ** Correctness *)
Section facts.
Context `{Authenticator}.
Implicit Types (c : client).

(** What a connect future may be while the client is [up], and after: a
    handshake fails with the error of its pipe or its authentication, and only
    once the client is gone with [bad_weak_ptr]; a future that is settled gives a
    disconnect future when the handshake connected and throws what the handshake
    threw, and only once the client is gone [bad_weak_ptr] instead. *)
Definition handshake_ok (up : bool) (s : ClientConnector.state) : Prop :=
  match s with
  | ClientConnector.Failed e => e = runtime_error ∨ (e = bad_weak_ptr ∧ up = false)
  | _ => True
  end.
Definition connect_ok (up : bool) (x : connect) : Prop :=
  handshake_ok up (handshake x) ∧
  match result x with
  | Waiting => True
  | Gives _ => handshake x = ClientConnector.Connected
  | Throws e =>
      handshake x = ClientConnector.Failed e ∨
      (handshake x = ClientConnector.Connected ∧ e = bad_weak_ptr ∧ up = false)
  end.

Lemma settled_exactly x :
  connect_ok true x → result x ≠ Waiting →
  ((∃ p, result x = Gives p) ↔ handshake x = ClientConnector.Connected).
Proof.
  intros [_ Hr] Hw. destruct (result x) as [|p|e]; [done|by split; [|exists p]|].
  destruct Hr as [Hr|(_ & _ & ?)]; [|done]. rewrite Hr. split; [by intros [p ?]|done].
Qed.

Record client_inv c : Prop := {
  ci_impl : ClientFacts.inv (m_impl c);
  ci_given : handed_out c ≡ₚ seq 0 (ClientEndpoint.next_disconnect (m_impl c));
  ci_ok : Forall (connect_ok (alive c)) (connects c);
  ci_dead : alive c = false → ClientEndpoint.m_endpoint (m_impl c) = None
}.

Lemma given_insert (l : list connect) i x y :
  l !! i = Some x → concat (given <$> <[i := y]> l) ++ given x ≡ₚ concat (given <$> l) ++ given y.
Proof.
  intros (l1 & l2 & -> & ->)%list_elem_of_split_length.
  rewrite insert_app_r_alt, Nat.sub_diag by done. simpl. rewrite !fmap_app, !concat_app. simpl.
  rewrite <- !app_assoc. apply Permutation_app_head.
  rewrite (app_assoc (given y)), (Permutation_app_comm (given y ++ _)).
  by rewrite (Permutation_app_comm (given y)).
Qed.

(** A connect future that stays without a disconnect future. *)
Lemma ci_connect c i x y :
  client_inv c → connects c !! i = Some x → given x = [] → given y = [] → connect_ok (alive c) y →
  client_inv (with_connect i y c).
Proof.
  intros [I1 I2 I3 I4] Hi Hx Hy Hok. split; [done| | |done].
  - unfold handed_out in *. simpl. pose proof (given_insert _ _ _ y Hi) as Hp.
    rewrite Hx, Hy, !app_nil_r in Hp. by rewrite Hp.
  - simpl. by apply Forall_insert.
Qed.

Lemma ci_same_impl c e :
  client_inv c → ClientFacts.inv e → ClientEndpoint.next_disconnect e = ClientEndpoint.next_disconnect (m_impl c) →
  (alive c = false → ClientEndpoint.m_endpoint e = None) → client_inv (with_impl e c).
Proof. intros [I1 I2 I3 I4] He Hn Hd. split; [done| |done|done]. simpl. rewrite Hn. done. Qed.

(** The result is pending while the handshake goes on. *)
Lemma waiting_given c i s x :
  client_inv c → connects c !! i = Some (Connect s x) → s ≠ ClientConnector.Connected →
  (∀ e, s ≠ ClientConnector.Failed e) → x = Waiting.
Proof.
  intros I Hi Hc Hf. pose proof (Forall_lookup_1 _ _ _ _ (ci_ok _ I) Hi) as Hok. destruct Hok as [_ Hok]. simpl in Hok.
  destruct x; [done|by destruct Hok|]. destruct Hok as [Hok|[Hok _]]; [by destruct (Hf e)|done].
Qed.

Lemma ci_handshake c i s s' x :
  client_inv c → connects c !! i = Some (Connect s x) → s ≠ ClientConnector.Connected →
  (∀ e, s ≠ ClientConnector.Failed e) → handshake_ok (alive c) s' → client_inv (with_connect i (Connect s' x) c).
Proof.
  intros I Hi Hc Hf Hok. pose proof (waiting_given _ _ _ _ I Hi Hc Hf) as ->. by apply (ci_connect c i _ _ I Hi).
Qed.

(** A continuation fails with the error of the operation, or finds the client gone. *)
Lemma continue_ok b s c : handshake_ok (alive c) s → handshake_ok (alive c) (continue b s c).
Proof. unfold continue. destruct b; [|done]. simpl. destruct (alive c) eqn:E; [done|]. intros _. simpl. by right. Qed.
Lemma connect_ok_gone up x : connect_ok up x → connect_ok false x.
Proof.
  intros [Hs Hr]. split.
  - destruct (handshake x); try done. destruct Hs as [?|[? _]]; [by left|by right].
  - destruct (result x); try done. destruct Hr as [?|(? & ? & _)]; [by left|by right].
Qed.

Lemma ci_finish c i conn :
  client_inv c → Connection.m_state conn = Connection.never_started → client_inv (finish i conn c).
Proof.
  intros I Hconn. unfold finish. destruct (connects c !! i) as [[s x]|] eqn:Hi; [|done].
  destruct s as [| | | |e], x; try done.
  - destruct (alive c) eqn:Ha; [|eapply ci_connect; [done|done|done|done|split; [done|by right]]].
    pose proof I as [I1 I2 I3 I4]. split.
    + by apply (ClientFacts.client_inv_step (m_impl c)); [|apply ClientEndpoint.step_establish].
    + unfold handed_out in *. simpl.
      pose proof (given_insert _ _ _ (Connect ClientConnector.Connected (Gives (ClientEndpoint.next_disconnect (m_impl c)))) Hi) as Hp.
      change (given (Connect ClientConnector.Connected Waiting)) with (@nil nat) in Hp. rewrite app_nil_r in Hp.
      rewrite Hp. unfold ClientEndpoint.establish_endpoint. destruct (Endpoint.set_disconnect_callback _ _). simpl.
      rewrite I2. by rewrite <- seq_S.
    + simpl. by apply Forall_insert.
    + simpl. congruence.
  - pose proof (Forall_lookup_1 _ _ _ _ (ci_ok _ I) Hi) as [Hs _]. simpl in Hs.
    eapply ci_connect; [done|done|done|done|]. split; [done|by left].
Qed.

Lemma whole_client_inv_step c c' : client_inv c → step c c' → client_inv c'.
Proof.
  intros I Hst. pose proof I as [I1 I2 I3 I4].
  destruct Hst as [Ha|i r|i r|i r b|i conn Hc|Ha|idx pl Ha|e conn He Hs|Ha].
  - split; try done.
    + unfold handed_out in *. simpl. rewrite fmap_app, concat_app. simpl. by rewrite !app_nil_r.
    + simpl. apply Forall_app. split; [done|by repeat constructor].
  - unfold pipe_result. destruct (connects c !! i) as [[[] x]|] eqn:Hi; try done.
    eapply ci_handshake; [done|done|done|done|]. apply continue_ok. simpl. repeat case_match; simpl; auto.
  - unfold write_result. destruct (connects c !! i) as [[[] x]|] eqn:Hi; try done.
    eapply ci_handshake; [done|done|done|done|]. apply continue_ok. simpl. repeat case_match; simpl; auto.
  - unfold read_result. destruct (connects c !! i) as [[[] x]|] eqn:Hi; try done.
    eapply ci_handshake; [done|done|done|done|]. apply continue_ok. simpl. repeat case_match; simpl; auto.
  - by apply ci_finish.
  - apply ci_same_impl; [done| | |congruence].
    + by apply (ClientFacts.client_inv_step (m_impl c)); [|apply ClientEndpoint.step_disconnect].
    + unfold ClientEndpoint.disconnect. by destruct (ClientEndpoint.m_endpoint (m_impl c)).
  - pose proof (ClientFacts.client_inv_step _ _ I1 (ClientEndpoint.step_request (m_impl c) idx pl)) as I1'.
    assert (ClientEndpoint.next_disconnect (ClientEndpoint.make_request idx pl (m_impl c)).2
            = ClientEndpoint.next_disconnect (m_impl c)) as Hn.
    { unfold ClientEndpoint.make_request. repeat case_match; done. }
    unfold make_request. destruct (ClientEndpoint.make_request idx pl (m_impl c)) as [f e]. simpl in *.
    apply ci_same_impl; [done|done|done|congruence].
  - apply ci_same_impl; [done| |done|].
    + eapply ClientFacts.client_inv_step; [done|]. by apply (ClientEndpoint.step_connection _ e).
    + simpl. intros Hd. specialize (I4 Hd). congruence.
  - destruct I1 as [Ho Hm]. split; [|done|by eapply Forall_impl, connect_ok_gone|done]. split; [|done]. unfold ClientFacts.pending_of in *. simpl.
    rewrite app_nil_r, <- Ho. by destruct (ClientEndpoint.m_endpoint (m_impl c)).
Qed.

Lemma whole_client_reachable_inv c : rtc step create c → client_inv c.
Proof.
  apply rtc_invariant; [|apply whole_client_inv_step]. by split.
Qed.
End facts.

(** C39: the whole client.  While the client is there a connect future that is
    settled gives a disconnect future exactly when its handshake connected, and
    throws what the handshake threw otherwise; the continuation settles every
    future whose handshake connected, with [bad_weak_ptr] only once the client is
    gone.  Every successful connect has a disconnect future of its own, and each
    of these is completed exactly once, by the end of the connection, the next
    connect, [disconnect] or the destruction of the client, after which none is
    pending. *)
Theorem client_connects `{Authenticator} c :
  rtc step create c →
  Forall (connect_ok (alive c)) (connects c) ∧
  (alive c = true → Forall (λ x, result x ≠ Waiting →
     ((∃ p, result x = Gives p) ↔ handshake x = ClientConnector.Connected)) (connects c)) ∧
  (∀ i conn, connects c !! i = Some (Connect ClientConnector.Connected Waiting) →
     connects (finish i conn c) !! i =
       Some (Connect ClientConnector.Connected
               (if alive c then Gives (ClientEndpoint.next_disconnect (m_impl c)) else Throws bad_weak_ptr))) ∧
  handed_out c ≡ₚ seq 0 (ClientEndpoint.next_disconnect (m_impl c)) ∧
  ClientEndpoint.due (m_impl c) ++ ClientFacts.pending_of (m_impl c) ≡ₚ handed_out c ∧
  (alive c = false → is_connected c = false ∧ ClientEndpoint.due (m_impl c) ≡ₚ handed_out c).
Proof.
  intros Hr. pose proof (whole_client_reachable_inv c Hr) as [[Ho Ha] I2 I3 I4].
  split_and!; [done| | |done|by rewrite Ho, I2|].
  - intros Hal. rewrite Hal in I3. eapply Forall_impl; [exact I3|]. by apply settled_exactly.
  - intros i conn Hi. unfold finish. rewrite Hi. apply lookup_lt_Some in Hi.
    destruct (alive c); simpl; by apply list_lookup_insert_eq.
  - intros Hd. specialize (I4 Hd). unfold is_connected, ClientEndpoint.is_connected, ClientFacts.pending_of in *.
    rewrite I4 in *. split; [done|]. by rewrite app_nil_r, <- I2 in Ho.
Qed.

(** ** A client that connects and is destroyed *)
Definition connected_client (A : Authenticator) : client :=
  finish 0 (Connection.create true 10)
    (read_result 0 PipeOpRes.success (create_response create_request)
       (write_result 0 PipeOpRes.success (pipe_result 0 PipeWaitRes.success (connect_async create)))).
Definition destroyed_client : client := destroy (connected_client (simple_authenticator 7)).

Lemma destroyed_client_reachable : rtc (@step (simple_authenticator 7)) create destroyed_client.
Proof.
  eapply rtc_l; [by apply (@step_connect (simple_authenticator 7))|].
  eapply rtc_l; [apply (@step_pipe (simple_authenticator 7) _ 0 PipeWaitRes.success)|].
  eapply rtc_l; [apply (@step_write (simple_authenticator 7) _ 0 PipeOpRes.success)|].
  eapply rtc_l; [apply (@step_read (simple_authenticator 7) _ 0 PipeOpRes.success [7%Z])|].
  eapply rtc_l; [by apply (@step_finish (simple_authenticator 7) _ 0 (Connection.create true 10))|].
  eapply rtc_l; [by apply (@step_destroy (simple_authenticator 7))|]. apply rtc_refl.
Qed.

Lemma client_connects_witness :
  handed_out destroyed_client = [0] ∧ ClientEndpoint.due (m_impl destroyed_client) ≡ₚ handed_out destroyed_client.
Proof.
  split; [reflexivity|].
  apply (proj2 (proj2 (proj2 (proj2 (proj2 (@client_connects (simple_authenticator 7) destroyed_client destroyed_client_reachable))))) eq_refl).
Defined.
