(* ===== verification/TcpPipe.v ===== *)
(** * TCP pipe endpoints

    Messages travel over a byte stream, each behind its size in four bytes, in
    big-endian order.  Reads and writes queue up; one socket operation of each
    kind is under way, and transfers any part of its buffer. *)
From S2P Require Import Prelude RpcTypes BigEndian Timer.
Local Open Scope Z_scope.

Module TcpPipe.
Abbreviation timer := (MultipleTimer.multiple_timer (bool * Z)).

Definition s_header_size : nat := 4.

(** Completed promises. *)
Inductive completion : Type :=
| WriteDone (p : nat) (r : PipeOpRes.pipe_op_res)
| ReadDone (p : nat) (r : PipeOpRes.pipe_op_res) (buffer : list Z).

(** The part the two kinds of operations share, as the handlers use it. *)
Class StreamOperation (Op : Type) : Type := {
  is_header_completed : Op → bool;
  is_payload_completed : Op → bool;
  (** [is_payload_buffer_valid] of a read *)
  can_start_payload : Op → bool;
  take_pending_result : PipeOpRes.pipe_op_res → Op → option completion * Op
}.

(** ** write_operation *)
Record write_operation : Type := WriteOperation {
  w_payload_buffer : list Z;
  w_bytes_transferred : nat;
  w_is_promise_resolved : bool;
  w_promise : nat
}.
Definition m_write_header_big_endian (o : write_operation) : list Z :=
  be_encode s_header_size (u32 (Z.of_nat (length (w_payload_buffer o)))).
Definition w_add_bytes (n : nat) (o : write_operation) : write_operation :=
  WriteOperation (w_payload_buffer o) (w_bytes_transferred o + n) (w_is_promise_resolved o) (w_promise o).
Definition get_unwritten_header_buffer (o : write_operation) : list Z :=
  drop (w_bytes_transferred o) (m_write_header_big_endian o).
Definition get_unwritten_payload_buffer (o : write_operation) : list Z :=
  drop (w_bytes_transferred o - s_header_size) (w_payload_buffer o).
#[global] Instance write_stream_operation : StreamOperation write_operation := {|
  is_header_completed o := bool_decide (s_header_size ≤ w_bytes_transferred o)%nat;
  is_payload_completed o :=
    bool_decide (w_bytes_transferred o = s_header_size + length (w_payload_buffer o))%nat;
  can_start_payload _ := true;
  take_pending_result r o :=
    if w_is_promise_resolved o then (None, o)
    else (Some (WriteDone (w_promise o) r),
          WriteOperation (w_payload_buffer o) (w_bytes_transferred o) true (w_promise o))
|}.

(** ** read_operation

    [r_data] is what was read so far: the bytes of [m_header], then those of
    [m_payload_buffer], whose size is [r_payload_size] once it is allocated. *)
Record read_operation : Type := ReadOperation {
  r_data : list Z;
  r_payload_size : option nat;
  r_is_promise_resolved : bool;
  r_promise : nat
}.
Definition m_bytes_read (o : read_operation) : nat := length (r_data o).
Definition r_add_bytes (bytes : list Z) (o : read_operation) : read_operation :=
  let data := r_data o ++ bytes in
  let size :=
    match r_payload_size o with
    | Some s => Some s
    | None =>
        if decide (length data = s_header_size) then
          let message_size := be_decode (take s_header_size data) in
          if decide (message_size ≠ 0 ∧ message_size ≤ Consts.MaxTransferMessageSize)
          then Some (Z.to_nat message_size) else None
        else None
    end in
  ReadOperation data size (r_is_promise_resolved o) (r_promise o).
(** The room in the buffer of the next read of the socket. *)
Definition unread_header_size (o : read_operation) : nat := s_header_size - m_bytes_read o.
Definition unread_payload_size (o : read_operation) : nat :=
  default 0%nat (r_payload_size o) - (m_bytes_read o - s_header_size).
#[global] Instance read_stream_operation : StreamOperation read_operation := {|
  is_header_completed o := bool_decide (s_header_size ≤ m_bytes_read o)%nat;
  is_payload_completed o :=
    match r_payload_size o with
    | Some s => bool_decide (m_bytes_read o = s + s_header_size)%nat
    | None => false
    end;
  can_start_payload o := bool_decide (is_Some (r_payload_size o));
  take_pending_result r o :=
    if r_is_promise_resolved o then (None, o)
    else (Some (ReadDone (r_promise o) r (if PipeOpRes.is_success r then drop s_header_size (r_data o) else [])),
          ReadOperation (r_data o) (r_payload_size o) true (r_promise o))
|}.

(** ** The queues of operations

    [operations] lists the oldest operation, the back of the list of the code,
    first; [under_way] is the socket operation started for it. *)
Record operation_data (Op : Type) : Type := OperationData { id : Z; op : Op; timer_id : option Z }.
Arguments OperationData {_}.
Arguments id {_}.
Arguments op {_}.
Arguments timer_id {_}.
Inductive phase : Type := Header | Payload.
Record queue (Op : Type) : Type := Queue { operations : list (operation_data Op); under_way : option phase }.
Arguments Queue {_}.
Arguments operations {_}.
Arguments under_way {_}.

(** The socket: open or not, and [m_was_invalidated_by_fail]. *)
Record socket : Type := Socket { is_open : bool; m_was_invalidated_by_fail : bool }.
Inductive error_code : Type := no_error | operation_aborted | other_error.
#[global] Instance error_code_eq_dec : EqDecision error_code.
Proof. solve_decision. Defined.

(** What a handler leaves: the queue, the timers, the promises to complete, and
    whether it invalidates the endpoint. *)
Record handled (Op : Type) : Type := Handled {
  h_queue : queue Op;
  h_timer : timer;
  pending_results : list completion;
  h_invalidate : bool
}.
Arguments Handled {_}.
Arguments h_queue {_}.
Arguments h_timer {_}.
Arguments pending_results {_}.
Arguments h_invalidate {_}.

Section operations.
Context {Op : Type} `{StreamOperation Op}.

Definition cancel_timer (d : operation_data Op) (t : timer) : timer :=
  match timer_id d with Some i => MultipleTimer.cancel i t | None => t end.

Definition complete_all_operations_unsafe (r : PipeOpRes.pipe_op_res) (q : queue Op) (t : timer)
    (results : list completion) (inv : bool) : handled Op :=
  Handled (Queue [] None) (foldl (λ t d, cancel_timer d t) t (operations q))
          (results ++ omap (λ d, (take_pending_result r (op d)).1) (operations q)) inv.

Definition closed_result (s : socket) : PipeOpRes.pipe_op_res :=
  if m_was_invalidated_by_fail s then PipeOpRes.failed else PipeOpRes.canceled.

(** [start_write_header_async] and [start_read_header_async]. *)
Definition start_header_async (s : socket) (q : queue Op) (t : timer) (results : list completion) : handled Op :=
  if negb (is_open s) then complete_all_operations_unsafe (closed_result s) q t results false
  else Handled (Queue (operations q) (Some Header)) t results false.

(** [start_write_payload_async] and [start_read_payload_async]. *)
Definition start_payload_async (s : socket) (q : queue Op) (t : timer) (results : list completion) : handled Op :=
  match operations q with
  | [] => Handled q t results false
  | d :: _ =>
      if negb (can_start_payload (op d)) then complete_all_operations_unsafe PipeOpRes.failed q t results true
      else if negb (is_open s) then complete_all_operations_unsafe (closed_result s) q t results false
      else Handled (Queue (operations q) (Some Payload)) t results false
  end.

Definition on_error (ec : error_code) (s : socket) (q : queue Op) (t : timer) : handled Op :=
  if bool_decide (ec = operation_aborted) || negb (is_open s)
  then complete_all_operations_unsafe (closed_result s) q t [] false
  else complete_all_operations_unsafe PipeOpRes.failed q t [] true.

(** The handlers, after [add_bytes] on the oldest operation. *)
Definition on_header_operation (ec : error_code) (s : socket) (q : queue Op) (t : timer) : handled Op :=
  match operations q with
  | [] => Handled q t [] false
  | d :: _ =>
      if bool_decide (ec ≠ no_error) then on_error ec s q t
      else if negb (is_header_completed (op d)) then start_header_async s q t []
      else start_payload_async s q t []
  end.
Definition on_payload_operation (ec : error_code) (s : socket) (q : queue Op) (t : timer) : handled Op :=
  match operations q with
  | [] => Handled q t [] false
  | d :: rest =>
      if bool_decide (ec ≠ no_error) then on_error ec s q t
      else if negb (is_payload_completed (op d)) then start_payload_async s q t []
      else
        let results := option_list (take_pending_result PipeOpRes.success (op d)).1 in
        let t := cancel_timer d t in
        match rest with
        | [] => Handled (Queue [] None) t results false
        | _ => start_header_async s (Queue rest None) t results
        end
  end.

(** A new operation at the front of the list. *)
Definition push_operation (d : operation_data Op) (s : socket) (q : queue Op) (t : timer) : handled Op :=
  let q' := Queue (operations q ++ [d]) (under_way q) in
  if decide (length (operations q') = 1%nat) then start_header_async s q' t [] else Handled q' t [] false.

(** The timeout of the operation with number [i]: its promise is completed, and
    it leaves the queue unless it is the one under way.  Numbers are distinct
    (up to 2^64 operations), so it does not matter from which end the search
    starts. *)
Definition timeout_result (s : socket) : PipeOpRes.pipe_op_res :=
  if is_open s then PipeOpRes.timeout else closed_result s.
Fixpoint time_out_rest (i : Z) (r : PipeOpRes.pipe_op_res) (l : list (operation_data Op))
    : list (operation_data Op) * option completion :=
  match l with
  | [] => ([], None)
  | d :: l' =>
      if decide (id d = i) then (l', (take_pending_result r (op d)).1)
      else let '(l'', c) := time_out_rest i r l' in (d :: l'', c)
  end.
Definition time_out (i : Z) (s : socket) (q : queue Op) : queue Op * option completion :=
  let r := timeout_result s in
  match operations q with
  | [] => (q, None)
  | d :: l =>
      if decide (id d = i)
      then let '(c, o) := take_pending_result r (op d) in
           (Queue (OperationData (id d) o (timer_id d) :: l) (under_way q), c)
      else let '(l', c) := time_out_rest i r l in (Queue (d :: l') (under_way q), c)
  end.
End operations.

(** ** The endpoint

    [sent] and [received] are the bytes the socket took and gave so far,
    [written] and [consumed] the messages whose last byte was among them. *)
Record impl : Type := mk {
  m_write : queue write_operation;
  m_next_write_op_id : Z;
  m_read : queue read_operation;
  m_next_read_op_id : Z;
  m_socket : socket;
  m_disconnect_callbacks : list nat;
  m_timer : timer;
  executed : list nat;
  next_promise : nat;
  log : list completion;
  sent : list Z;
  received : list Z;
  written : list (list Z);
  consumed : list (list Z)
}.

Definition create : impl :=
  mk (Queue [] None) 0 (Queue [] None) 0 (Socket true false) [] MultipleTimer.create [] 0 [] [] [] [] [].

Definition is_connected (e : impl) : bool := is_open (m_socket e).

Definition set_disconnect_callback (callback : nat) (e : impl) : impl :=
  if is_open (m_socket e)
  then mk (m_write e) (m_next_write_op_id e) (m_read e) (m_next_read_op_id e) (m_socket e)
          (m_disconnect_callbacks e ++ [callback]) (m_timer e) (executed e) (next_promise e) (log e)
          (sent e) (received e) (written e) (consumed e)
  else mk (m_write e) (m_next_write_op_id e) (m_read e) (m_next_read_op_id e) (m_socket e)
          (m_disconnect_callbacks e) (m_timer e) (executed e ++ [callback]) (next_promise e) (log e)
          (sent e) (received e) (written e) (consumed e).

Definition invalidate_unsafe (by_cancel : bool) (e : impl) : impl :=
  mk (m_write e) (m_next_write_op_id e) (m_read e) (m_next_read_op_id e)
     (if is_open (m_socket e) then Socket false (negb by_cancel) else m_socket e)
     [] (m_timer e) (executed e ++ m_disconnect_callbacks e) (next_promise e) (log e)
     (sent e) (received e) (written e) (consumed e).
(** The operations under way end with [operation_aborted] later. *)
Definition invalidate (e : impl) : impl := invalidate_unsafe true e.

(** The result of a handler of the write or read queue becomes the state;
    [publish_results] completes the promises. *)
Definition finish_write (h : handled write_operation) (e : impl) : impl :=
  let e := if h_invalidate h then invalidate_unsafe false e else e in
  mk (h_queue h) (m_next_write_op_id e) (m_read e) (m_next_read_op_id e) (m_socket e) (m_disconnect_callbacks e)
     (h_timer h) (executed e) (next_promise e) (log e ++ pending_results h) (sent e) (received e) (written e) (consumed e).
Definition finish_read (h : handled read_operation) (e : impl) : impl :=
  let e := if h_invalidate h then invalidate_unsafe false e else e in
  mk (m_write e) (m_next_write_op_id e) (h_queue h) (m_next_read_op_id e) (m_socket e) (m_disconnect_callbacks e)
     (h_timer h) (executed e) (next_promise e) (log e ++ pending_results h) (sent e) (received e) (written e) (consumed e).

(** The timer of an operation with a timeout. *)
Definition start_timer (timeout : option Z) (w : bool) (i : Z) (t : timer) : option Z * timer :=
  match timeout with
  | Some _ => let '(k, t') := MultipleTimer.start (w, i) t in (Some k, t')
  | None => (None, t)
  end.

Definition write_async (msg : list Z) (timeout : option Z) (e : impl) : impl :=
  let p := next_promise e in
  let i := m_next_write_op_id e in
  if is_open (m_socket e) then
    let '(k, t) := start_timer timeout true i (m_timer e) in
    let e' := mk (m_write e) (u64 (i + 1)) (m_read e) (m_next_read_op_id e) (m_socket e) (m_disconnect_callbacks e)
                 t (executed e) (S p) (log e) (sent e) (received e) (written e) (consumed e) in
    finish_write (push_operation (OperationData i (WriteOperation msg 0 false p) k) (m_socket e) (m_write e) t) e'
  else
    mk (m_write e) i (m_read e) (m_next_read_op_id e) (m_socket e) (m_disconnect_callbacks e)
       (m_timer e) (executed e) (S p) (log e ++ [WriteDone p PipeOpRes.failed]) (sent e) (received e) (written e) (consumed e).

Definition read_async (timeout : option Z) (e : impl) : impl :=
  let p := next_promise e in
  let i := m_next_read_op_id e in
  if is_open (m_socket e) then
    let '(k, t) := start_timer timeout false i (m_timer e) in
    let e' := mk (m_write e) (m_next_write_op_id e) (m_read e) (u64 (i + 1)) (m_socket e) (m_disconnect_callbacks e)
                 t (executed e) (S p) (log e) (sent e) (received e) (written e) (consumed e) in
    finish_read (push_operation (OperationData i (ReadOperation [] None false p) k) (m_socket e) (m_read e) t) e'
  else
    mk (m_write e) (m_next_write_op_id e) (m_read e) i (m_socket e) (m_disconnect_callbacks e)
       (m_timer e) (executed e) (S p) (log e ++ [ReadDone p PipeOpRes.failed []]) (sent e) (received e) (written e) (consumed e).

(** The socket took [n] bytes of the buffer of the write under way. *)
Definition write_some (ec : error_code) (n : nat) (e : impl) : option impl :=
  match operations (m_write e), under_way (m_write e) with
  | d :: rest, Some ph =>
      let buffer := match ph with Header => get_unwritten_header_buffer (op d) | Payload => get_unwritten_payload_buffer (op d) end in
      if decide (n ≤ length buffer)%nat then
        let o := w_add_bytes n (op d) in
        let q := Queue (OperationData (id d) o (timer_id d) :: rest) None in
        let h := match ph with Header => on_header_operation | Payload => on_payload_operation end
                   ec (m_socket e) q (m_timer e) in
        Some (finish_write h
          (mk (m_write e) (m_next_write_op_id e) (m_read e) (m_next_read_op_id e) (m_socket e) (m_disconnect_callbacks e)
              (m_timer e) (executed e) (next_promise e) (log e) (sent e ++ take n buffer) (received e)
              (written e ++ if is_payload_completed o then [w_payload_buffer o] else []) (consumed e)))
      else None
  | _, _ => None
  end.

(** The socket put [bytes] into the buffer of the read under way. *)
Definition read_some (ec : error_code) (bytes : list Z) (e : impl) : option impl :=
  match operations (m_read e), under_way (m_read e) with
  | d :: rest, Some ph =>
      let room := match ph with Header => unread_header_size (op d) | Payload => unread_payload_size (op d) end in
      if decide (length bytes ≤ room)%nat then
        let o := r_add_bytes bytes (op d) in
        let q := Queue (OperationData (id d) o (timer_id d) :: rest) None in
        let h := match ph with Header => on_header_operation | Payload => on_payload_operation end
                   ec (m_socket e) q (m_timer e) in
        Some (finish_read h
          (mk (m_write e) (m_next_write_op_id e) (m_read e) (m_next_read_op_id e) (m_socket e) (m_disconnect_callbacks e)
              (m_timer e) (executed e) (next_promise e) (log e) (sent e) (received e ++ bytes) (written e)
              (consumed e ++ if is_payload_completed o then [drop s_header_size (r_data o)] else [])))
      else None
  | _, _ => None
  end.

Definition with_timer (t : timer) (e : impl) : impl :=
  mk (m_write e) (m_next_write_op_id e) (m_read e) (m_next_read_op_id e) (m_socket e) (m_disconnect_callbacks e)
     t (executed e) (next_promise e) (log e) (sent e) (received e) (written e) (consumed e).

(** The callback of a timer: the operation with its number times out. *)
Definition timeout_callback (w : bool) (i : Z) (e : impl) : impl :=
  if w then
    let '(q, c) := time_out i (m_socket e) (m_write e) in
    mk q (m_next_write_op_id e) (m_read e) (m_next_read_op_id e) (m_socket e) (m_disconnect_callbacks e)
       (m_timer e) (executed e) (next_promise e) (log e ++ option_list c) (sent e) (received e) (written e) (consumed e)
  else
    let '(q, c) := time_out i (m_socket e) (m_read e) in
    mk (m_write e) (m_next_write_op_id e) q (m_next_read_op_id e) (m_socket e) (m_disconnect_callbacks e)
       (m_timer e) (executed e) (next_promise e) (log e ++ option_list c) (sent e) (received e) (written e) (consumed e).
Definition run_timer (k : Z) (e : impl) : option impl :=
  match MultipleTimer.run_handler k (m_timer e) with
  | None => None
  | Some (fired, t) =>
      Some (match fired with Some (w, i) => timeout_callback w i (with_timer t e) | None => with_timer t e end)
  end.

(** Messages are not empty and their size fits the header; bytes are bytes; socket
    operations are only aborted by closing the socket. *)
Inductive step (e : impl) : impl → Prop :=
| step_write msg timeout :
    0 < Z.of_nat (length msg) < 2 ^ 32 → step e (write_async msg timeout e)
| step_read timeout : step e (read_async timeout e)
| step_callback cb : step e (set_disconnect_callback cb e)
| step_invalidate : step e (invalidate e)
| step_write_some ec n e' :
    (ec = operation_aborted → is_open (m_socket e) = false) → write_some ec n e = Some e' → step e e'
| step_read_some ec bytes e' :
    (ec = operation_aborted → is_open (m_socket e) = false) → Forall is_byte bytes →
    read_some ec bytes e = Some e' → step e e'
| step_expire k : step e (with_timer (MultipleTimer.expire k (m_timer e)) e)
| step_timer k e' : run_timer k e = Some e' → step e e'.
End TcpPipe.
