(* ===== verification/TcpPipeFacts.v ===== *)
(** * Correctness of TCP pipe endpoints

    Promises complete exactly once, and an operation waits exactly while a
    socket operation is under way; what the handlers do to the queues. *)
From S2P Require Import Prelude RpcTypes BigEndian Timer TcpPipe.
Import TcpPipe.
Local Open Scope Z_scope.

Definition c_promise (c : completion) : nat := match c with WriteDone p _ | ReadDone p _ _ => p end.

(** ** The queues *)
Class StreamOperationLaws (Op : Type) `{StreamOperation Op} : Type := {
  promise_of : Op → option nat;
  take_promise r o : c_promise <$> (take_pending_result r o).1 = promise_of o;
  take_resolves r o : promise_of (take_pending_result r o).2 = None
}.
#[global] Instance write_laws : StreamOperationLaws write_operation.
Proof.
  refine {| promise_of o := if w_is_promise_resolved o then None else Some (w_promise o) |};
    intros r o; simpl; destruct (w_is_promise_resolved o) eqn:E; simpl; by rewrite ?E.
Defined.
#[global] Instance read_laws : StreamOperationLaws read_operation.
Proof.
  refine {| promise_of o := if r_is_promise_resolved o then None else Some (r_promise o) |};
    intros r o; simpl; destruct (r_is_promise_resolved o) eqn:E; simpl; by rewrite ?E.
Defined.

Section queues.
Context {Op : Type} `{StreamOperationLaws Op}.
Implicit Types (q : queue Op) (l : list (operation_data Op)) (d : operation_data Op).

Definition waiting l : list nat := omap (λ d, promise_of (op d)) l.
#[local] Arguments waiting : simpl never.
Definition outstanding (h : handled Op) : list nat :=
  (c_promise <$> pending_results h) ++ waiting (operations (h_queue h)).
(** A socket operation is under way exactly while an operation waits. *)
Definition driven q : Prop := operations q = [] ↔ under_way q = None.

Lemma waiting_app l1 l2 : waiting (l1 ++ l2) = waiting l1 ++ waiting l2.
Proof. apply omap_app. Qed.
Lemma waiting_cons d l : waiting (d :: l) = option_list (promise_of (op d)) ++ waiting l.
Proof. unfold waiting. simpl. by destruct (promise_of (op d)). Qed.
Lemma taken r l : c_promise <$> omap (λ d, (take_pending_result r (op d)).1) l = waiting l.
Proof.
  induction l as [|d l IH]; [done|]. rewrite waiting_cons, <- (take_promise r (op d)), <- IH. simpl.
  by destruct (take_pending_result r (op d)).1.
Qed.

Lemma complete_all_outstanding r q t rs b :
  outstanding (complete_all_operations_unsafe r q t rs b) = (c_promise <$> rs) ++ waiting (operations q) ∧
  driven (h_queue (complete_all_operations_unsafe r q t rs b)).
Proof. unfold outstanding. simpl. by rewrite fmap_app, taken, app_nil_r. Qed.

Lemma start_header_outstanding s q t rs :
  operations q ≠ [] →
  outstanding (start_header_async s q t rs) = (c_promise <$> rs) ++ waiting (operations q) ∧
  driven (h_queue (start_header_async s q t rs)).
Proof.
  intros Hq. unfold start_header_async. destruct (is_open s); simpl; [|apply complete_all_outstanding].
  split; [done|]. by unfold driven.
Qed.

Lemma start_payload_outstanding s q t rs :
  operations q ≠ [] →
  outstanding (start_payload_async s q t rs) = (c_promise <$> rs) ++ waiting (operations q) ∧
  driven (h_queue (start_payload_async s q t rs)).
Proof.
  intros Hq. unfold start_payload_async. destruct (operations q) as [|d l] eqn:E; [done|]. rewrite <- E.
  destruct (can_start_payload (op d)); simpl; [|apply complete_all_outstanding].
  destruct (is_open s); simpl; [|apply complete_all_outstanding]. split; [done|]. unfold driven. simpl. by rewrite E.
Qed.

Lemma on_error_outstanding ec s q t :
  outstanding (on_error ec s q t) = waiting (operations q) ∧ driven (h_queue (on_error ec s q t)).
Proof. unfold on_error. case_match; apply complete_all_outstanding. Qed.

Lemma on_header_outstanding ec s q t :
  operations q ≠ [] →
  outstanding (on_header_operation ec s q t) = waiting (operations q) ∧ driven (h_queue (on_header_operation ec s q t)).
Proof.
  intros Hq. unfold on_header_operation. destruct (operations q) as [|d l] eqn:E; [done|]. rewrite <- E.
  assert (operations q ≠ []) as Hq' by (by rewrite E).
  case_match; [apply on_error_outstanding|]. case_match; [by apply start_header_outstanding|by apply start_payload_outstanding].
Qed.

Lemma on_payload_outstanding ec s q t :
  operations q ≠ [] →
  outstanding (on_payload_operation ec s q t) = waiting (operations q) ∧ driven (h_queue (on_payload_operation ec s q t)).
Proof.
  intros Hq. unfold on_payload_operation. destruct (operations q) as [|d l] eqn:E; [done|]. rewrite <- E.
  assert (operations q ≠ []) as Hq' by (by rewrite E).
  case_match; [apply on_error_outstanding|]. case_match; [by apply start_payload_outstanding|]. rewrite E, waiting_cons.
  rewrite <- (take_promise PipeOpRes.success (op d)).
  assert (∀ o : option completion, c_promise <$> option_list o = option_list (c_promise <$> o)) as Ho by (by intros []).
  destruct l as [|d' l]; [unfold outstanding; simpl; by rewrite Ho|]. rewrite <- Ho. by apply start_header_outstanding.
Qed.

Lemma push_outstanding d s q t :
  driven q → outstanding (push_operation d s q t) = waiting (operations q) ++ option_list (promise_of (op d)) ∧
             driven (h_queue (push_operation d s q t)).
Proof.
  intros Hd. unfold push_operation.
  assert (waiting (operations q) ++ option_list (promise_of (op d)) = waiting (operations q ++ [d])) as ->.
  { rewrite waiting_app, (waiting_cons d []). unfold waiting. simpl. by rewrite app_nil_r. }
  case_decide as Hl; [apply start_header_outstanding; by destruct (operations q)|]. split; [done|].
  unfold driven in *. simpl in *. split; [by intros [_ [=]]%app_nil|]. intros Hu%Hd. by rewrite Hu in Hl.
Qed.

Lemma time_out_outstanding i s q :
  (c_promise <$> option_list (time_out i s q).2) ++ waiting (operations (time_out i s q).1) ≡ₚ waiting (operations q) ∧
  (driven q → driven (time_out i s q).1).
Proof.
  assert (∀ o : option completion, c_promise <$> option_list o = option_list (c_promise <$> o)) as Ho by (by intros []).
  assert (∀ r l, (c_promise <$> option_list (time_out_rest i r l).2) ++ waiting (time_out_rest i r l).1 ≡ₚ waiting l) as Hrest.
  { intros r l. induction l as [|d l IH]; [done|]. cbn [time_out_rest]. rewrite waiting_cons. case_decide.
    - simpl. by rewrite Ho, take_promise.
    - destruct (time_out_rest i r l) as [l' c]. simpl in *. rewrite waiting_cons, <- IH. solve_Permutation. }
  unfold time_out, driven. destruct (operations q) as [|d l] eqn:E; [simpl; by rewrite E|]. case_decide.
  - pose proof (take_promise (timeout_result s) (op d)) as Hp. pose proof (take_resolves (timeout_result s) (op d)) as Hr.
    destruct (take_pending_result (timeout_result s) (op d)) as [c o]. simpl in *. split; [|intros Hd; split; [done|by intros ?%Hd]].
    rewrite !waiting_cons, Ho, Hp. simpl. by rewrite Hr.
  - specialize (Hrest (timeout_result s) l). destruct (time_out_rest i (timeout_result s) l) as [l' c]. simpl in *.
    split; [|intros Hd; split; [done|by intros ?%Hd]]. rewrite !waiting_cons, <- Hrest. solve_Permutation.
Qed.
End queues.
Arguments waiting : simpl never.
Arguments outstanding : simpl never.

(** ** Promises *)
Definition promises (e : impl) : list nat :=
  (c_promise <$> log e) ++ waiting (operations (m_write e)) ++ waiting (operations (m_read e)).
Record promise_inv (e : impl) : Prop := {
  inv_once : promises e ≡ₚ seq 0 (next_promise e);
  inv_write_driven : driven (m_write e);
  inv_read_driven : driven (m_read e)
}.

Lemma promises_finish_write h e :
  promises (finish_write h e) ≡ₚ (c_promise <$> log e) ++ outstanding h ++ waiting (operations (m_read e)) ∧
  m_write (finish_write h e) = h_queue h ∧ m_read (finish_write h e) = m_read e ∧
  next_promise (finish_write h e) = next_promise e.
Proof.
  unfold promises, finish_write, outstanding. destruct (h_invalidate h); simpl; (split; [|done]);
    rewrite fmap_app; solve_Permutation.
Qed.
Lemma promises_finish_read h e :
  promises (finish_read h e) ≡ₚ (c_promise <$> log e) ++ waiting (operations (m_write e)) ++ outstanding h ∧
  m_read (finish_read h e) = h_queue h ∧ m_write (finish_read h e) = m_write e ∧
  next_promise (finish_read h e) = next_promise e.
Proof.
  unfold promises, finish_read, outstanding. destruct (h_invalidate h); simpl; (split; [|done]);
    rewrite fmap_app; solve_Permutation.
Qed.

Lemma promise_inv_write msg timeout e : promise_inv e → promise_inv (write_async msg timeout e).
Proof.
  intros [Ho Hw Hr]. unfold write_async. destruct (is_open (m_socket e)).
  - destruct (start_timer timeout true _ _) as [k t].
    pose proof (push_outstanding (OperationData (m_next_write_op_id e) (WriteOperation msg 0 false (next_promise e)) k)
                  (m_socket e) (m_write e) t Hw) as [Hp Hd].
    match goal with |- promise_inv (finish_write ?h ?e') => destruct (promises_finish_write h e') as (H1 & H2 & H3 & H4) end.
    split; [|by rewrite H2|by rewrite H3]. rewrite H1, H4, Hp. cbn [next_promise log m_read m_write]. rewrite seq_S, <- Ho. unfold promises. simpl.
    solve_Permutation.
  - split; [|done..]. unfold promises. cbn [log m_write m_read next_promise]. rewrite seq_S, <- Ho. unfold promises.
    rewrite fmap_app. simpl. solve_Permutation.
Qed.

Lemma promise_inv_read timeout e : promise_inv e → promise_inv (read_async timeout e).
Proof.
  intros [Ho Hw Hr]. unfold read_async. destruct (is_open (m_socket e)).
  - destruct (start_timer timeout false _ _) as [k t].
    pose proof (push_outstanding (OperationData (m_next_read_op_id e) (ReadOperation [] None false (next_promise e)) k)
                  (m_socket e) (m_read e) t Hr) as [Hp Hd].
    match goal with |- promise_inv (finish_read ?h ?e') => destruct (promises_finish_read h e') as (H1 & H2 & H3 & H4) end.
    split; [|by rewrite H3|by rewrite H2]. rewrite H1, H4, Hp. cbn [next_promise log m_read m_write]. rewrite seq_S, <- Ho. unfold promises. simpl.
    solve_Permutation.
  - split; [|done..]. unfold promises. cbn [log m_write m_read next_promise]. rewrite seq_S, <- Ho. unfold promises.
    rewrite fmap_app. simpl. solve_Permutation.
Qed.

Lemma promise_inv_write_some ec n e e' : promise_inv e → write_some ec n e = Some e' → promise_inv e'.
Proof.
  intros [Ho Hw Hr]. unfold write_some. destruct (operations (m_write e)) as [|d rest] eqn:Eq; [done|].
  destruct (under_way (m_write e)) as [ph|]; [|done]. case_decide; [|done]. intros [= <-].
  set (q := Queue (OperationData (id d) (w_add_bytes n (op d)) (timer_id d) :: rest) None).
  assert (waiting (operations q) = waiting (operations (m_write e))) as Hq.
  { rewrite Eq. unfold q. cbn [operations]. by rewrite !waiting_cons. }
  match goal with |- promise_inv (finish_write ?h ?e') => destruct (promises_finish_write h e') as (H1 & H2 & H3 & H4);
    assert (outstanding h = waiting (operations q) ∧ driven (h_queue h)) as [Hh Hd] end.
  { destruct ph; [by apply on_header_outstanding|by apply on_payload_outstanding]. }
  split; [|by rewrite H2|by rewrite H3]. rewrite H1, H4, Hh, Hq. simpl. done.
Qed.

Lemma promise_inv_read_some ec bytes e e' : promise_inv e → read_some ec bytes e = Some e' → promise_inv e'.
Proof.
  intros [Ho Hw Hr]. unfold read_some. destruct (operations (m_read e)) as [|d rest] eqn:Eq; [done|].
  destruct (under_way (m_read e)) as [ph|]; [|done]. case_decide; [|done]. intros [= <-].
  set (q := Queue (OperationData (id d) (r_add_bytes bytes (op d)) (timer_id d) :: rest) None).
  assert (waiting (operations q) = waiting (operations (m_read e))) as Hq.
  { rewrite Eq. unfold q. cbn [operations]. by rewrite !waiting_cons. }
  match goal with |- promise_inv (finish_read ?h ?e') => destruct (promises_finish_read h e') as (H1 & H2 & H3 & H4);
    assert (outstanding h = waiting (operations q) ∧ driven (h_queue h)) as [Hh Hd] end.
  { destruct ph; [by apply on_header_outstanding|by apply on_payload_outstanding]. }
  split; [|by rewrite H3|by rewrite H2]. rewrite H1, H4, Hh, Hq. simpl. done.
Qed.

Lemma promise_inv_timeout w i e : promise_inv e → promise_inv (timeout_callback w i e).
Proof.
  intros [Ho Hw Hr]. unfold timeout_callback. destruct w.
  - pose proof (time_out_outstanding i (m_socket e) (m_write e)) as [Hp Hd].
    destruct (time_out i (m_socket e) (m_write e)) as [q c]. simpl in *. split; simpl; [|by apply Hd|done].
    rewrite <- Ho. unfold promises. simpl. rewrite fmap_app, <- Hp. solve_Permutation.
  - pose proof (time_out_outstanding i (m_socket e) (m_read e)) as [Hp Hd].
    destruct (time_out i (m_socket e) (m_read e)) as [q c]. simpl in *. split; simpl; [|done|by apply Hd].
    rewrite <- Ho. unfold promises. simpl. rewrite fmap_app, <- Hp. solve_Permutation.
Qed.

Lemma promise_inv_step e e' : promise_inv e → step e e' → promise_inv e'.
Proof.
  intros I Hs. destruct Hs as [msg timeout Hm|timeout|cb| |ec n e' Ha Hs|ec bytes e' Ha Hb Hs|k|k e' Hs].
  - by apply promise_inv_write.
  - by apply promise_inv_read.
  - unfold set_disconnect_callback. case_match; destruct I; by split.
  - destruct I. by split.
  - by eapply promise_inv_write_some.
  - by eapply promise_inv_read_some.
  - destruct I. by split.
  - revert Hs. unfold run_timer. destruct (MultipleTimer.run_handler k (m_timer e)) as [[fired t]|]; [|done].
    assert (promise_inv (with_timer t e)) as I' by (destruct I; by split).
    intros [= <-]. destruct fired as [[w i]|]; [by apply promise_inv_timeout|done].
Qed.

(** ** What the handlers do to the queues *)
Section handlers.
Context {Op : Type} `{StreamOperation Op}.
Implicit Types (q : queue Op) (d : operation_data Op).

(** The queue is emptied, and the socket is closed or will be. *)
Definition dropped (s : socket) (h : handled Op) : Prop :=
  h_queue h = Queue [] None ∧ (is_open s = true → h_invalidate h = true).

Lemma on_header_cases ec s q t d rest :
  operations q = d :: rest → (ec = operation_aborted → is_open s = false) →
  let h := on_header_operation ec s q t in
  dropped s h ∨
  (h_queue h = Queue (d :: rest) (Some Header) ∧ is_header_completed (op d) = false ∧ h_invalidate h = false) ∨
  (h_queue h = Queue (d :: rest) (Some Payload) ∧ is_header_completed (op d) = true ∧
   can_start_payload (op d) = true ∧ h_invalidate h = false).
Proof.
  intros Hq Ha. unfold dropped, on_header_operation, on_error, start_header_async, start_payload_async. rewrite Hq. simpl.
  destruct ec; simpl.
  - destruct (is_header_completed (op d)); simpl.
    + destruct (can_start_payload (op d)); simpl; [|by left]. destruct (is_open s); simpl; [|by left]. right. by right.
    + destruct (is_open s); simpl; [|by left]. right. by left.
  - left. rewrite Ha by done. done.
  - left. destruct (is_open s); by split.
Qed.

Lemma on_payload_cases ec s q t d rest :
  operations q = d :: rest → (ec = operation_aborted → is_open s = false) →
  let h := on_payload_operation ec s q t in
  dropped s h ∨
  (h_queue h = Queue (d :: rest) (Some Payload) ∧ is_payload_completed (op d) = false ∧
   can_start_payload (op d) = true ∧ h_invalidate h = false) ∨
  (is_payload_completed (op d) = true ∧ h_invalidate h = false ∧
   h_queue h = match rest with [] => Queue [] None | _ => Queue rest (Some Header) end).
Proof.
  intros Hq Ha. unfold dropped, on_payload_operation, on_error, start_header_async, start_payload_async. rewrite Hq. simpl.
  destruct ec; simpl.
  - destruct (is_payload_completed (op d)); simpl.
    + destruct rest as [|d' rest]; [right; by right|]. destruct (is_open s); simpl; [|by left]. right. by right.
    + destruct (can_start_payload (op d)); simpl; [|by left]. destruct (is_open s); simpl; [|by left]. right. by left.
  - left. rewrite Ha by done. done.
  - left. destruct (is_open s); by split.
Qed.

Lemma push_cases d s q t :
  is_open s = true →
  h_queue (push_operation d s q t) =
    Queue (operations q ++ [d]) (match operations q with [] => Some Header | _ => under_way q end) ∧
  h_invalidate (push_operation d s q t) = false.
Proof.
  intros Ho. unfold push_operation, start_header_async. rewrite Ho. destruct (operations q) as [|d' l]; simpl; [done|].
  rewrite decide_False; [done|]. rewrite length_app. simpl. lia.
Qed.
End handlers.

Lemma open_finish_write h e :
  is_open (m_socket (finish_write h e)) = is_open (m_socket e) && negb (h_invalidate h) ∧
  sent (finish_write h e) = sent e ∧ written (finish_write h e) = written e ∧ m_write (finish_write h e) = h_queue h ∧
  received (finish_write h e) = received e ∧ consumed (finish_write h e) = consumed e ∧ m_read (finish_write h e) = m_read e.
Proof.
  unfold finish_write. destruct (h_invalidate h); simpl; split_and!; try done; [|by rewrite andb_true_r].
  destruct (is_open (m_socket e)) eqn:E; simpl; [done|]. by rewrite E.
Qed.
Lemma open_finish_read h e :
  is_open (m_socket (finish_read h e)) = is_open (m_socket e) && negb (h_invalidate h) ∧
  sent (finish_read h e) = sent e ∧ written (finish_read h e) = written e ∧ m_write (finish_read h e) = m_write e ∧
  received (finish_read h e) = received e ∧ consumed (finish_read h e) = consumed e ∧ m_read (finish_read h e) = h_queue h.
Proof.
  unfold finish_read. destruct (h_invalidate h); simpl; split_and!; try done; [|by rewrite andb_true_r].
  destruct (is_open (m_socket e)) eqn:E; simpl; [done|]. by rewrite E.
Qed.
