(* ===== verification/TcpStream.v ===== *)
(** * The messages on the stream of a TCP pipe

    The bytes an endpoint sends are the frames of its messages, one after the
    other, whatever pieces the socket takes. *)
From S2P Require Import Prelude RpcTypes BigEndian Timer TcpPipe TcpPipeFacts.
Import TcpPipe.
Local Open Scope Z_scope.

(** A message on the stream. *)
Definition frame (m : list Z) : list Z := be_encode s_header_size (u32 (Z.of_nat (length m))) ++ m.
Definition valid_message (m : list Z) : Prop := 0 < Z.of_nat (length m) < 2 ^ 32.
Arguments frame : simpl never.

Lemma length_frame m : length (frame m) = (4 + length m)%nat.
Proof. unfold frame. by rewrite length_app, length_be_encode. Qed.

(** ** What was sent *)
Definition write_phase_ok (ph : option phase) (o : write_operation) : Prop :=
  match ph with
  | Some Header => (w_bytes_transferred o < 4)%nat
  | Some Payload => (4 ≤ w_bytes_transferred o < 4 + length (w_payload_buffer o))%nat
  | None => False
  end.
(** [partial] is what was sent of the message under way; with none it is empty
    as long as the socket is open. *)
Definition write_stream (bytes : list Z) (ms : list (list Z)) (q : queue write_operation) (open : bool) : Prop :=
  ∃ partial, bytes = concat (frame <$> ms) ++ partial ∧ Forall valid_message ms ∧
    match operations q with
    | [] => (open = true → partial = []) ∧
            ∃ m, valid_message m ∧ partial `prefix_of` frame m ∧ (length partial < length (frame m))%nat
    | d :: rest =>
        partial = take (w_bytes_transferred (op d)) (frame (w_payload_buffer (op d))) ∧
        valid_message (w_payload_buffer (op d)) ∧ write_phase_ok (under_way q) (op d) ∧
        Forall (λ d, w_bytes_transferred (op d) = 0%nat ∧ valid_message (w_payload_buffer (op d))) rest
    end.

(** A part of a frame sent in pieces. *)
Lemma header_piece o n :
  (w_bytes_transferred o < 4)%nat → (n ≤ length (get_unwritten_header_buffer o))%nat →
  take (w_bytes_transferred o) (frame (w_payload_buffer o)) ++ take n (get_unwritten_header_buffer o)
    = take (w_bytes_transferred o + n) (frame (w_payload_buffer o)) ∧ (w_bytes_transferred o + n ≤ 4)%nat.
Proof.
  unfold get_unwritten_header_buffer, m_write_header_big_endian, frame. rewrite length_drop, length_be_encode.
  unfold s_header_size. intros Hb Hn. split; [|lia].
  rewrite !take_app_le by (rewrite length_be_encode; lia). apply take_take_drop.
Qed.
Lemma payload_piece o n :
  (4 ≤ w_bytes_transferred o)%nat → (n ≤ length (get_unwritten_payload_buffer o))%nat →
  take (w_bytes_transferred o) (frame (w_payload_buffer o)) ++ take n (get_unwritten_payload_buffer o)
    = take (w_bytes_transferred o + n) (frame (w_payload_buffer o)).
Proof.
  unfold get_unwritten_payload_buffer, frame. unfold s_header_size. intros Hb Hn.
  rewrite !take_app_ge by (rewrite length_be_encode; lia). rewrite !length_be_encode.
  rewrite <- app_assoc, take_take_drop. do 2 f_equal. lia.
Qed.

Lemma write_stream_close bytes ms q open : write_stream bytes ms q open → write_stream bytes ms q false.
Proof.
  intros (p & Hb & Hv & Hq). exists p. split_and!; [done..|]. destruct (operations q); [|done].
  destruct Hq as [_ Hm]. by split.
Qed.

Lemma write_stream_push bytes ms q d s t :
  write_stream bytes ms q (is_open s) → is_open s = true → w_bytes_transferred (op d) = 0%nat →
  valid_message (w_payload_buffer (op d)) →
  write_stream bytes ms (h_queue (push_operation d s q t)) (is_open s).
Proof.
  intros (p & Hb & Hv & Hq) Ho H0 Hm. destruct (push_cases d s q t Ho) as [-> _].
  exists p. split_and!; [done..|]. simpl. destruct (operations q) as [|d' l]; simpl.
  - destruct Hq as [Hp _]. rewrite H0, (Hp Ho). split_and!; [done|done|simpl; lia|constructor].
  - destruct Hq as (H1 & H2 & H3 & H4). split_and!; [done..|]. apply Forall_app. split; [done|]. by constructor.
Qed.

(** The message under way after [n] more bytes, whichever phase it is in. *)
Lemma write_stream_piece ph o n :
  write_phase_ok (Some ph) o → valid_message (w_payload_buffer o) →
  let buffer := match ph with Header => get_unwritten_header_buffer o | Payload => get_unwritten_payload_buffer o end in
  (n ≤ length buffer)%nat →
  take (w_bytes_transferred o) (frame (w_payload_buffer o)) ++ take n buffer
    = take (w_bytes_transferred o + n) (frame (w_payload_buffer o)) ∧
  (w_bytes_transferred o + n ≤ length (frame (w_payload_buffer o)))%nat ∧
  (ph = Header → (w_bytes_transferred o + n ≤ 4)%nat) ∧ (ph = Payload → (4 ≤ w_bytes_transferred o + n)%nat).
Proof.
  intros Hph Hm. rewrite length_frame. destruct ph; simpl in *; intros Hn.
  - destruct (header_piece o n Hph Hn) as [E Hle]. split_and!; [done|lia|done|done].
  - destruct Hph as [H1 H2]. split_and!; [by apply payload_piece| |done|lia].
    unfold get_unwritten_payload_buffer, s_header_size in Hn. rewrite length_drop in Hn. lia.
Qed.

(** The queue was emptied in the middle of a message, or right after one. *)
Lemma write_stream_dropped ms m k :
  Forall valid_message ms → valid_message m → (k ≤ 4 + length m)%nat →
  write_stream (concat (frame <$> ms) ++ take k (frame m))
    (ms ++ if bool_decide (k = 4 + length m)%nat then [m] else []) (Queue [] None) false.
Proof.
  intros Hv Hm Hk. case_bool_decide as Hd.
  - exists []. split_and!.
    + rewrite fmap_app, concat_app, take_ge by (rewrite length_frame; lia). simpl. by rewrite !app_nil_r.
    + apply Forall_app. split; [done|]. by constructor.
    + split; [done|]. exists m. split_and!; [done|by eexists|rewrite length_frame; simpl; lia].
  - exists (take k (frame m)). split_and!.
    + by rewrite app_nil_r.
    + by rewrite app_nil_r.
    + split; [done|]. exists m. split_and!; [done|apply prefix_take|rewrite length_take, length_frame; lia].
Qed.

(** A message is complete. *)
Lemma write_stream_next ms m rest open :
  Forall valid_message ms → valid_message m →
  Forall (λ d, w_bytes_transferred (op d) = 0%nat ∧ valid_message (w_payload_buffer (op d))) rest →
  write_stream (concat (frame <$> ms) ++ take (4 + length m) (frame m)) (ms ++ [m])
    (match rest with [] => Queue [] None | _ => Queue rest (Some Header) end) open.
Proof.
  intros Hv Hm Hr. exists []. split_and!.
  - rewrite fmap_app, concat_app, take_ge by (rewrite length_frame; lia). simpl. by rewrite !app_nil_r.
  - apply Forall_app. split; [done|]. by constructor.
  - destruct rest as [|d rest]; simpl.
    + split; [done|]. exists m. split_and!; [done|by eexists|lia].
    + apply Forall_cons in Hr as [[H0 Hd] Hr]. rewrite H0. split_and!; [done|done|simpl; lia|done].
Qed.

Lemma write_stream_write_some ec n e e' :
  write_stream (sent e) (written e) (m_write e) (is_open (m_socket e)) →
  (ec = operation_aborted → is_open (m_socket e) = false) → write_some ec n e = Some e' →
  write_stream (sent e') (written e') (m_write e') (is_open (m_socket e')).
Proof.
  intros (p & Hb & Hv & Hq) Ha. unfold write_some. destruct (operations (m_write e)) as [|d rest] eqn:Eq; [done|].
  destruct (under_way (m_write e)) as [ph|]; [|done]. destruct Hq as (-> & Hm & Hph & Hrest).
  case_decide as Hn; [|done]. destruct (write_stream_piece ph (op d) n Hph Hm Hn) as (Hpiece & Hle & HH & HP).
  set (buffer := match ph with Header => _ | Payload => _ end) in *.
  set (o := w_add_bytes n (op d)). set (q := Queue (OperationData (id d) o (timer_id d) :: rest) None).
  match goal with |- Some (finish_write ?h ?e0) = _ → _ =>
    intros <-%(inj Some); destruct (open_finish_write h e0) as (-> & -> & -> & -> & _) end.
  cbn [sent written m_socket]. rewrite length_frame in Hle.
  rewrite Hb, <- app_assoc, Hpiece. change (w_payload_buffer (op d)) with (w_payload_buffer o) in *.
  change (w_bytes_transferred (op d) + n)%nat with (w_bytes_transferred o) in *.
  set (h := match ph with Header => _ | Payload => _ end ec (m_socket e) q (m_timer e)).
  change (is_payload_completed o) with (bool_decide (w_bytes_transferred o = 4 + length (w_payload_buffer o))%nat).
  assert (0 < length (w_payload_buffer o))%nat as Hlen by (unfold valid_message in Hm; lia).
  assert (dropped (m_socket e) h → write_stream (concat (frame <$> written e) ++ take (w_bytes_transferred o) (frame (w_payload_buffer o)))
    (written e ++ (if bool_decide (w_bytes_transferred o = 4 + length (w_payload_buffer o))%nat then [w_payload_buffer o] else []))
    (h_queue h) (is_open (m_socket e) && negb (h_invalidate h))) as Hdrop.
  { intros [-> Hi]. assert (is_open (m_socket e) && negb (h_invalidate h) = false) as ->.
    { destruct (is_open (m_socket e)); [|done]. by rewrite Hi. }
    by apply write_stream_dropped. }
  destruct ph.
  - rewrite bool_decide_eq_false_2 in * by (specialize (HH eq_refl); lia). rewrite app_nil_r in *.
    destruct (on_header_cases ec (m_socket e) q (m_timer e) _ rest eq_refl Ha) as [Hd|[(E1 & E2 & E3)|(E1 & E2 & E3 & E4)]];
      [by apply Hdrop|..]; unfold h; rewrite E1; eexists; (split_and!; [done..|]); simpl; split_and!; try done.
    + simpl in E2. apply bool_decide_eq_false in E2. unfold s_header_size in E2. simpl. lia.
    + simpl in E2. apply bool_decide_eq_true in E2. unfold s_header_size in E2. simpl. lia.
    + specialize (HH eq_refl). simpl in *. lia.
  - destruct (on_payload_cases ec (m_socket e) q (m_timer e) _ rest eq_refl Ha) as [Hd|[(E1 & E2 & E3 & E4)|(E1 & E2 & E3)]];
      [by apply Hdrop|..]; unfold h.
    + change (bool_decide (w_bytes_transferred o = 4 + length (w_payload_buffer o))%nat = false) in E2.
      rewrite E1, E2, app_nil_r. apply bool_decide_eq_false in E2.
      eexists; (split_and!; [done..|]); simpl; split_and!; try done; specialize (HP eq_refl); simpl in *; lia.
    + change (bool_decide (w_bytes_transferred o = 4 + length (w_payload_buffer o))%nat = true) in E1.
      rewrite E1, E3. apply bool_decide_eq_true in E1. rewrite E1. by apply write_stream_next.
Qed.

(** A timeout changes neither what was sent of the oldest message nor the order
    of the others. *)
Lemma time_out_cases {Op} `{StreamOperation Op} i s (q : queue Op) :
  under_way (time_out i s q).1 = under_way q ∧
  match operations q with
  | [] => operations (time_out i s q).1 = []
  | d :: rest => ∃ d' rest', operations (time_out i s q).1 = d' :: rest' ∧ rest' `sublist_of` rest ∧
                   (op d' = op d ∨ op d' = (take_pending_result (timeout_result s) (op d)).2)
  end.
Proof.
  assert (∀ r (l : list (operation_data Op)), (time_out_rest i r l).1 `sublist_of` l) as Hrest.
  { intros r l. induction l as [|d l IH]; [done|]. cbn [time_out_rest]. case_decide; [by apply sublist_cons|].
    destruct (time_out_rest i r l). by apply sublist_skip. }
  unfold time_out. destruct (operations q) as [|d l]  eqn:E; [done|]. case_decide.
  - destruct (take_pending_result _ _) as [c o] eqn:Et. split; [done|]. eexists _, l. split_and!; [done..|]. by right.
  - specialize (Hrest (timeout_result s) l). destruct (time_out_rest _ _ _) as [l' c]. split; [done|].
    eexists d, l'. split_and!; [done..|]. by left.
Qed.

Lemma write_stream_time_out bytes ms q open i s :
  write_stream bytes ms q open → write_stream bytes ms (time_out i s q).1 open.
Proof.
  intros (p & Hb & Hv & Hq). exists p. split_and!; [done..|].
  destruct (time_out_cases i s q) as [Hu Hc]. rewrite Hu. destruct (operations q) as [|d rest]; [by rewrite Hc|].
  destruct Hc as (d' & rest' & -> & Hsub & Hd). destruct Hq as (-> & H1 & H2 & H3).
  assert (w_bytes_transferred (op d') = w_bytes_transferred (op d) ∧ w_payload_buffer (op d') = w_payload_buffer (op d)) as [E1 E2].
  { destruct Hd as [->| ->]; [done|]. simpl. by destruct (w_is_promise_resolved (op d)). }
  unfold write_phase_ok in *. rewrite E1, E2. split_and!; [done..|by eapply Forall_sublist].
Qed.

Definition writer_ok (e : impl) : Prop :=
  write_stream (sent e) (written e) (m_write e) (is_open (m_socket e)).

Lemma writer_ok_read h e : writer_ok e → writer_ok (finish_read h e).
Proof.
  unfold writer_ok. destruct (open_finish_read h e) as (-> & -> & -> & -> & _). intros Hw.
  destruct (h_invalidate h); simpl; rewrite ?andb_true_r, ?andb_false_r; [by eapply write_stream_close|done].
Qed.

Lemma writer_ok_write msg timeout e : valid_message msg → writer_ok e → writer_ok (write_async msg timeout e).
Proof.
  intros Hm Hw. unfold write_async. destruct (is_open (m_socket e)) eqn:Eo; [|done].
  destruct (start_timer timeout true _ _) as [k t]. unfold writer_ok in *.
  set (d := OperationData _ _ _). set (e' := mk _ _ _ _ _ _ _ _ _ _ _ _ _ _).
  destruct (open_finish_write (push_operation d (m_socket e) (m_write e) t) e') as (-> & -> & -> & -> & _).
  destruct (push_cases d (m_socket e) (m_write e) t Eo) as [_ ->]. simpl. rewrite andb_true_r. by apply write_stream_push.
Qed.

Lemma writer_ok_timeout w i e : writer_ok e → writer_ok (timeout_callback w i e).
Proof.
  intros Hw. unfold timeout_callback. destruct w; [|by destruct (time_out _ _ _)].
  pose proof (write_stream_time_out _ _ _ _ i (m_socket e) Hw). by destruct (time_out _ _ _).
Qed.

Lemma writer_ok_step e e' : writer_ok e → step e e' → writer_ok e'.
Proof.
  intros Hw Hs. destruct Hs as [msg timeout Hm|timeout|cb| |ec n e' Ha Hs|ec bytes e' Ha Hb Hs|k|k e' Hs].
  - by apply writer_ok_write.
  - unfold read_async. destruct (is_open (m_socket e)); [|done].
    destruct (start_timer timeout false _ _). by apply writer_ok_read.
  - unfold set_disconnect_callback. by destruct (is_open (m_socket e)).
  - apply write_stream_close in Hw. unfold writer_ok, invalidate, invalidate_unsafe. simpl.
    destruct (is_open (m_socket e)) eqn:E; [done|]. by rewrite E.
  - by eapply write_stream_write_some.
  - revert Hs. unfold read_some. destruct (operations (m_read e)); [done|]. destruct (under_way (m_read e)); [|done].
    case_decide; [|done]. intros <-%(inj Some). by apply writer_ok_read.
  - done.
  - revert Hs. unfold run_timer. destruct (MultipleTimer.run_handler k (m_timer e)) as [[[[w i]|] t]|]; [..|done];
      intros <-%(inj Some); [by apply writer_ok_timeout|done].
Qed.

Lemma writer_ok_reachable e : rtc step create e → writer_ok e.
Proof.
  apply rtc_invariant; [|apply writer_ok_step]. exists []. split_and!; [done..|]. split; [done|].
  exists [0]. split_and!; [done|by eexists|vm_compute; lia].
Qed.
