(* ===== verification/TcpRoundTrip.v ===== *)
(** * Reading messages off a TCP stream, and the round trip

    The reader takes the bytes it received apart into the messages that were
    framed by the writer; what its reads deliver are these messages. *)
From S2P Require Import Prelude RpcTypes BigEndian Timer TcpPipe TcpPipeFacts TcpStream.
Import TcpPipe.
Local Open Scope Z_scope.

(** ** What was received *)
Definition read_phase_ok (ph : option phase) (o : read_operation) : Prop :=
  match ph with
  | Some Header => (length (r_data o) < 4)%nat ∧ r_payload_size o = None
  | Some Payload => ∃ s, r_payload_size o = Some s ∧ (4 ≤ length (r_data o) < 4 + s)%nat ∧
                      be_decode (take 4 (r_data o)) = Z.of_nat s
  | None => False
  end.
Definition read_stream (bytes : list Z) (ms : list (list Z)) (q : queue read_operation) (open : bool) : Prop :=
  Forall is_byte bytes ∧ Forall valid_message ms ∧
  ∃ partial, bytes = concat (frame <$> ms) ++ partial ∧
    match operations q with
    | [] => open = true → partial = []
    | d :: rest =>
        partial = r_data (op d) ∧ read_phase_ok (under_way q) (op d) ∧
        Forall (λ d, r_data (op d) = [] ∧ r_payload_size (op d) = None) rest
    end.

(** A header announces the size of the payload behind it. *)
Lemma frame_of_header data s :
  Forall is_byte data → be_decode (take 4 data) = Z.of_nat s → (length data = 4 + s)%nat → data = frame (drop 4 data).
Proof.
  intros Hb Hs Hl. unfold frame. rewrite length_drop, Hl, <- (take_drop 4 data) at 1. f_equal.
  assert (length (take 4 data) = 4%nat) as H4 by (rewrite length_take; lia).
  pose proof (be_decode_range (take 4 data) (Forall_take _ _ _ Hb)) as Hr. rewrite H4, Hs in Hr.
  replace (4 + s - 4)%nat with s by lia. rewrite wrap_small by (change (256 ^ Z.of_nat 4) with (2 ^ 32) in Hr; lia).
  rewrite <- Hs. unfold s_header_size. rewrite <- H4 at 2. symmetry. apply be_encode_decode, Forall_take, Hb.
Qed.

(** The message under way after [bytes] more. *)
Lemma r_add_header bytes o :
  read_phase_ok (Some Header) o → Forall is_byte (r_data o ++ bytes) → (length bytes ≤ unread_header_size o)%nat →
  let o' := r_add_bytes bytes o in
  (length (r_data o') ≤ 4)%nat ∧ is_payload_completed o' = false ∧
  (is_header_completed o' = false → read_phase_ok (Some Header) o') ∧
  (is_header_completed o' = true → can_start_payload o' = true → read_phase_ok (Some Payload) o').
Proof.
  intros [Hl Hn] Hbytes Hb. unfold unread_header_size, m_bytes_read, s_header_size in Hb. unfold r_add_bytes. rewrite Hn.
  unfold s_header_size. cbn [r_data r_payload_size is_header_completed is_payload_completed can_start_payload read_stream_operation].
  unfold m_bytes_read. cbn [r_data]. rewrite length_app. unfold s_header_size. split; [lia|].
  case_decide as H4; [case_decide as Hv|]; simpl.
  - assert (0 < Z.to_nat (be_decode (take 4 (r_data o ++ bytes))))%nat as Hp.
    { destruct Hv. pose proof (be_decode_range _ (Forall_take _ 4 _ Hbytes)). lia. }
    split_and!; [|intros E; apply bool_decide_eq_false in E; lia|].
    + apply bool_decide_eq_false. lia.
    + intros _ _. eexists. split_and!; [done|simpl; rewrite length_app; lia..|]. simpl. lia.
  - split_and!; [done|intros E; apply bool_decide_eq_false in E; lia|done].
  - split_and!; [done|intros E; split; [|done]; simpl; rewrite length_app; lia|intros E; apply bool_decide_eq_true in E; lia].
Qed.

Lemma r_add_payload bytes o :
  read_phase_ok (Some Payload) o → Forall is_byte (r_data o ++ bytes) → (length bytes ≤ unread_payload_size o)%nat →
  let o' := r_add_bytes bytes o in
  (is_payload_completed o' = false → read_phase_ok (Some Payload) o') ∧
  (is_payload_completed o' = true → r_data o' = frame (drop 4 (r_data o')) ∧ valid_message (drop 4 (r_data o'))).
Proof.
  intros (s & Es & [H1 H2] & Hd) Hbytes Hb. unfold unread_payload_size, m_bytes_read, s_header_size in Hb.
  unfold r_add_bytes. rewrite Es in *. simpl in Hb. cbn [is_payload_completed read_stream_operation r_payload_size r_data].
  unfold m_bytes_read, s_header_size. cbn [r_data].
  assert (be_decode (take 4 (r_data o ++ bytes)) = Z.of_nat s) as Hd' by (by rewrite take_app_le by lia).
  split; intros E.
  - apply bool_decide_eq_false in E. exists s. rewrite length_app in E. split_and!; simpl; rewrite ?length_app; [done|lia..|done].
  - apply bool_decide_eq_true in E. split; [apply (frame_of_header _ s); [done..|lia]|].
    pose proof (be_decode_range _ (Forall_take _ 4 _ Hbytes)) as Hr. rewrite Hd', length_take in Hr.
    replace (4 `min` length (r_data o ++ bytes))%nat with 4%nat in Hr by lia.
    unfold valid_message. rewrite length_drop, E. change (256 ^ Z.of_nat 4) with (2 ^ 32) in Hr. lia.
Qed.

Lemma read_stream_close bytes ms q open : read_stream bytes ms q open → read_stream bytes ms q false.
Proof. intros (Hb & Hv & p & Hp & Hq). split_and!; [done..|]. exists p. split; [done|]. by destruct (operations q). Qed.

Lemma read_stream_push bytes ms q d s t :
  read_stream bytes ms q (is_open s) → is_open s = true → r_data (op d) = [] → r_payload_size (op d) = None →
  read_stream bytes ms (h_queue (push_operation d s q t)) (is_open s).
Proof.
  intros (Hb & Hv & p & Hp & Hq) Ho H0 Hm. destruct (push_cases d s q t Ho) as [-> _].
  split_and!; [done..|]. exists p. split; [done|]. simpl. destruct (operations q) as [|d' l]; simpl.
  - rewrite H0, (Hq Ho). split_and!; [done|simpl; lia|done|constructor].
  - destruct Hq as (H1 & H2 & H3). split_and!; [done..|]. apply Forall_app. split; [done|]. by constructor.
Qed.

Lemma read_stream_time_out bytes ms q open i s :
  read_stream bytes ms q open → read_stream bytes ms (time_out i s q).1 open.
Proof.
  intros (Hb & Hv & p & Hp & Hq). split_and!; [done..|]. exists p. split; [done|].
  destruct (time_out_cases i s q) as [Hu Hc]. rewrite Hu. destruct (operations q) as [|d rest]; [by rewrite Hc|].
  destruct Hc as (d' & rest' & -> & Hsub & Hd). destruct Hq as (-> & H1 & H2).
  assert (r_data (op d') = r_data (op d) ∧ r_payload_size (op d') = r_payload_size (op d)) as [E1 E2].
  { destruct Hd as [->| ->]; [done|]. simpl. by destruct (r_is_promise_resolved (op d)). }
  unfold read_phase_ok in *. rewrite E1, E2. split_and!; [done..|by eapply Forall_sublist].
Qed.

(** A whole message was read, and the queue went on to the next or was emptied. *)
Lemma read_stream_next bytes ms data rest q open :
  Forall is_byte bytes → Forall valid_message ms → bytes = concat (frame <$> ms) ++ data →
  data = frame (drop 4 data) ∧ valid_message (drop 4 data) →
  Forall (λ d, r_data (op d) = [] ∧ r_payload_size (op d) = None) rest →
  q = Queue [] None ∨ q = match rest with [] => Queue [] None | _ => Queue rest (Some Header) end →
  read_stream bytes (ms ++ [drop 4 data]) q open.
Proof.
  intros Hb Hv Hp [Hf Hm] Hr Hq. split_and!; [done|by apply Forall_app; split; [|constructor]|].
  exists []. split; [rewrite Hp, Hf, fmap_app, concat_app; simpl; by rewrite !app_nil_r|].
  destruct Hq as [->| ->]; [done|]. destruct rest as [|d rest]; [done|]. simpl.
  apply Forall_cons in Hr as [[H1 H2] Hr]. rewrite H1, H2. split_and!; [done|simpl; lia|done|done].
Qed.

Lemma read_stream_read_some ec bytes e e' :
  read_stream (received e) (consumed e) (m_read e) (is_open (m_socket e)) →
  (ec = operation_aborted → is_open (m_socket e) = false) → Forall is_byte bytes → read_some ec bytes e = Some e' →
  read_stream (received e') (consumed e') (m_read e') (is_open (m_socket e')).
Proof.
  intros (Hby & Hv & p & Hb & Hq) Ha Hbytes. unfold read_some. destruct (operations (m_read e)) as [|d rest] eqn:Eq; [done|].
  destruct (under_way (m_read e)) as [ph|]; [|done]. destruct Hq as (-> & Hph & Hrest). case_decide as Hn; [|done].
  set (o := r_add_bytes bytes (op d)). set (q := Queue (OperationData (id d) o (timer_id d) :: rest) None).
  match goal with |- Some (finish_read ?h ?e0) = _ → _ =>
    intros <-%(inj Some); destruct (open_finish_read h e0) as (-> & _ & _ & _ & -> & -> & ->) end.
  cbn [received consumed m_socket].
  assert (Forall is_byte (r_data (op d) ++ bytes)) as Hd.
  { rewrite Hb in Hby. apply Forall_app in Hby as [_ Hby]. by apply Forall_app. }
  assert (Forall is_byte (received e ++ bytes)) as Hby' by (by apply Forall_app).
  assert (received e ++ bytes = concat (frame <$> consumed e) ++ r_data o) as Hrec by (by rewrite Hb, <- app_assoc).
  set (h := match ph with Header => _ | Payload => _ end ec (m_socket e) q (m_timer e)).
  assert (dropped (m_socket e) h → is_open (m_socket e) && negb (h_invalidate h) = false) as Hclosed.
  { intros [_ Hi]. destruct (is_open (m_socket e)); [|done]. by rewrite Hi. }
  destruct ph.
  - destruct (r_add_header bytes (op d) Hph Hd Hn) as (H4 & Hc & HH & HP). fold o in H4, Hc, HH, HP.
    rewrite Hc, app_nil_r. split_and!; [done..|]. exists (r_data o). split; [done|].
    destruct (on_header_cases ec (m_socket e) q (m_timer e) _ rest eq_refl Ha) as [Hdr|[(E1 & E2 & E3)|(E1 & E2 & E3 & E4)]].
    + rewrite Hclosed by done. destruct Hdr as [Hdr _]. change (h_queue h) with (h_queue (on_header_operation ec (m_socket e) q (m_timer e))). by rewrite Hdr.
    + unfold h. rewrite E1. simpl. split; [done|]. split; [|done]. by apply HH.
    + unfold h. rewrite E1. simpl. split; [done|]. split; [|done]. by apply HP.
  - destruct (r_add_payload bytes (op d) Hph Hd Hn) as [HI HC]. fold o in HI, HC.
    destruct (on_payload_cases ec (m_socket e) q (m_timer e) _ rest eq_refl Ha) as [Hdr|[(E1 & E2 & E3 & E4)|(E1 & E2 & E3)]].
    + rewrite Hclosed by done. destruct Hdr as [Hdr _]. change (h_queue h) with (h_queue (on_payload_operation ec (m_socket e) q (m_timer e))).
      rewrite Hdr. destruct (is_payload_completed o); [eapply read_stream_next; eauto|].
      rewrite app_nil_r. split_and!; [done..|]. by exists (r_data o).
    + unfold h. change (is_payload_completed o = false) in E2. rewrite E1, E2, app_nil_r. split_and!; [done..|]. exists (r_data o).
      split; [done|]. simpl. split; [done|]. split; [|done]. by apply HI.
    + unfold h. change (is_payload_completed o = true) in E1. rewrite E1, E3. eapply read_stream_next; eauto.
Qed.

Definition reader_ok (e : impl) : Prop :=
  read_stream (received e) (consumed e) (m_read e) (is_open (m_socket e)).

Lemma reader_ok_write h e : reader_ok e → reader_ok (finish_write h e).
Proof.
  unfold reader_ok. destruct (open_finish_write h e) as (-> & _ & _ & _ & -> & -> & ->). intros Hr.
  destruct (h_invalidate h); simpl; rewrite ?andb_true_r, ?andb_false_r; [by eapply read_stream_close|done].
Qed.

Lemma reader_ok_read timeout e : reader_ok e → reader_ok (read_async timeout e).
Proof.
  intros Hr. unfold read_async. destruct (is_open (m_socket e)) eqn:Eo; [|done].
  destruct (start_timer timeout false _ _) as [k t]. unfold reader_ok in *.
  set (d := OperationData _ _ _). set (e' := mk _ _ _ _ _ _ _ _ _ _ _ _ _ _).
  destruct (open_finish_read (push_operation d (m_socket e) (m_read e) t) e') as (-> & _ & _ & _ & -> & -> & ->).
  destruct (push_cases d (m_socket e) (m_read e) t Eo) as [_ ->]. simpl. rewrite andb_true_r. by apply read_stream_push.
Qed.

Lemma reader_ok_timeout w i e : reader_ok e → reader_ok (timeout_callback w i e).
Proof.
  intros Hr. unfold timeout_callback. destruct w; [by destruct (time_out _ _ _)|].
  pose proof (read_stream_time_out _ _ _ _ i (m_socket e) Hr). by destruct (time_out _ _ _).
Qed.

Lemma reader_ok_step e e' : reader_ok e → step e e' → reader_ok e'.
Proof.
  intros Hr Hs. destruct Hs as [msg timeout Hm|timeout|cb| |ec n e' Ha Hs|ec bytes e' Ha Hb Hs|k|k e' Hs].
  - unfold write_async. destruct (is_open (m_socket e)); [|done].
    destruct (start_timer timeout true _ _). by apply reader_ok_write.
  - by apply reader_ok_read.
  - unfold set_disconnect_callback. by destruct (is_open (m_socket e)).
  - apply read_stream_close in Hr. unfold reader_ok, invalidate, invalidate_unsafe. simpl.
    destruct (is_open (m_socket e)) eqn:E; [done|]. by rewrite E.
  - revert Hs. unfold write_some. destruct (operations (m_write e)); [done|]. destruct (under_way (m_write e)); [|done].
    case_decide; [|done]. intros <-%(inj Some). by apply reader_ok_write.
  - by eapply read_stream_read_some.
  - done.
  - revert Hs. unfold run_timer. destruct (MultipleTimer.run_handler k (m_timer e)) as [[[[w i]|] t]|]; [..|done];
      intros <-%(inj Some); [by apply reader_ok_timeout|done].
Qed.

Lemma reader_ok_reachable e : rtc step create e → reader_ok e.
Proof. apply rtc_invariant; [|apply reader_ok_step]. split_and!; [done..|]. by exists []. Qed.

(** ** What the reads deliver *)
Definition delivery (c : completion) : option (list Z) :=
  match c with ReadDone _ PipeOpRes.success buffer => Some buffer | _ => None end.
Definition deliveries (cs : list completion) : list (list Z) := omap delivery cs.
#[local] Arguments deliveries : simpl never.

Lemma deliveries_app cs1 cs2 : deliveries (cs1 ++ cs2) = deliveries cs1 ++ deliveries cs2.
Proof. apply omap_app. Qed.

(** Only a success delivers. *)
Class SilentFailures (Op : Type) `{StreamOperation Op} : Prop :=
  silent_failure r (o : Op) : r ≠ PipeOpRes.success → deliveries (option_list (take_pending_result r o).1) = [].
#[global] Instance write_silent : SilentFailures write_operation.
Proof. intros r o _. simpl. by destruct (w_is_promise_resolved o). Qed.
#[global] Instance read_silent : SilentFailures read_operation.
Proof. intros r o Hr. simpl. destruct (r_is_promise_resolved o); [done|]. by destruct r. Qed.

Section silent.
Context {Op : Type} `{SilentFailures Op}.
Implicit Types q : queue Op.

Lemma closed_result_fails s : closed_result s ≠ PipeOpRes.success.
Proof. unfold closed_result. by case_match. Qed.

Lemma complete_all_silent r q t rs b :
  r ≠ PipeOpRes.success → deliveries (pending_results (complete_all_operations_unsafe r q t rs b)) = deliveries rs.
Proof.
  intros Hr. simpl. rewrite deliveries_app. rewrite <- app_nil_r. f_equal. induction (operations q) as [|d l IH]; [done|].
  pose proof (silent_failure r (op d) Hr) as Hd. simpl. destruct (take_pending_result r (op d)).1 as [c|]; [|done].
  change (deliveries (option_list (Some c) ++ omap (λ d, (take_pending_result r (op d)).1) l) = []). by rewrite deliveries_app, IH, Hd.
Qed.

Lemma start_header_silent s q t rs : deliveries (pending_results (start_header_async s q t rs)) = deliveries rs.
Proof. unfold start_header_async. case_match; [|done]. by apply complete_all_silent, closed_result_fails. Qed.
Lemma start_payload_silent s q t rs : deliveries (pending_results (start_payload_async s q t rs)) = deliveries rs.
Proof.
  unfold start_payload_async. case_match; [done|]. case_match; [by apply complete_all_silent|].
  case_match; [|done]. by apply complete_all_silent, closed_result_fails.
Qed.
Lemma on_error_silent ec s q t : deliveries (pending_results (on_error ec s q t)) = [].
Proof. unfold on_error. case_match; rewrite complete_all_silent; auto using closed_result_fails. Qed.
Lemma on_header_silent ec s q t : deliveries (pending_results (on_header_operation ec s q t)) = [].
Proof.
  unfold on_header_operation. case_match; [done|]. case_match; [apply on_error_silent|].
  case_match; [apply start_header_silent|apply start_payload_silent].
Qed.
Lemma on_payload_deliveries ec s q t d rest :
  operations q = d :: rest →
  deliveries (pending_results (on_payload_operation ec s q t)) `sublist_of`
    (if is_payload_completed (op d) then deliveries (option_list (take_pending_result PipeOpRes.success (op d)).1) else []).
Proof.
  intros Hq. unfold on_payload_operation. rewrite Hq. case_match; [rewrite on_error_silent; apply sublist_nil_l|].
  destruct (is_payload_completed (op d)); simpl; [|by rewrite start_payload_silent]. destruct rest; [done|]. by rewrite start_header_silent.
Qed.
Lemma push_silent d s q t : deliveries (pending_results (push_operation d s q t)) = [].
Proof. unfold push_operation. case_decide; [apply start_header_silent|done]. Qed.
Lemma time_out_silent i s q : deliveries (option_list (time_out i s q).2) = [].
Proof.
  assert (timeout_result s ≠ PipeOpRes.success) as Hr.
  { unfold timeout_result. case_match; [done|]. apply closed_result_fails. }
  assert (∀ l : list (operation_data Op), deliveries (option_list (time_out_rest i (timeout_result s) l).2) = []) as Hl.
  { induction l as [|d l IH]; [done|]. cbn [time_out_rest]. case_decide; [by apply silent_failure|].
    by destruct (time_out_rest i (timeout_result s) l). }
  unfold time_out. destruct (operations q) as [|d l]; [done|]. case_decide.
  - pose proof (silent_failure _ (op d) Hr). by destruct (take_pending_result _ _).
  - specialize (Hl l). by destruct (time_out_rest _ _ _).
Qed.
End silent.

(** Every message a read delivered was taken off the stream, in this order. *)
Definition delivered_ok (e : impl) : Prop := deliveries (log e) `sublist_of` consumed e.

Lemma log_finish_write h e : log (finish_write h e) = log e ++ pending_results h ∧ consumed (finish_write h e) = consumed e.
Proof. unfold finish_write. by destruct (h_invalidate h). Qed.
Lemma log_finish_read h e : log (finish_read h e) = log e ++ pending_results h ∧ consumed (finish_read h e) = consumed e.
Proof. unfold finish_read. by destruct (h_invalidate h). Qed.

Lemma delivered_ok_more e cs ms e' :
  delivered_ok e → log e' = log e ++ cs → consumed e' = consumed e ++ ms → deliveries cs `sublist_of` ms → delivered_ok e'.
Proof. unfold delivered_ok. intros Hd -> -> Hs. rewrite deliveries_app. by apply sublist_app. Qed.

Lemma delivered_ok_silent e cs e' :
  delivered_ok e → log e' = log e ++ cs → consumed e' = consumed e → deliveries cs = [] → delivered_ok e'.
Proof. intros Hd Hl Hc Hs. eapply (delivered_ok_more e cs []); [done|done|by rewrite app_nil_r|by rewrite Hs]. Qed.

Lemma delivered_ok_write_some ec n e e' : delivered_ok e → write_some ec n e = Some e' → delivered_ok e'.
Proof.
  intros Hd. unfold write_some. destruct (operations (m_write e)) as [|d rest]; [done|].
  destruct (under_way (m_write e)) as [ph|]; [|done]. case_decide; [|done].
  match goal with |- Some (finish_write ?h ?e0) = _ → _ =>
    intros <-%(inj Some); destruct (log_finish_write h e0) as [Hl Hc]; eapply delivered_ok_silent; [done|exact Hl|exact Hc|] end.
  destruct ph; [apply on_header_silent|]. apply sublist_nil_r.
  etrans; [by eapply on_payload_deliveries|]. destruct (is_payload_completed _); [|apply sublist_nil_l].
  cbn [take_pending_result write_stream_operation op]. by destruct (w_is_promise_resolved _).
Qed.

Lemma delivered_ok_read_some ec bytes e e' : delivered_ok e → read_some ec bytes e = Some e' → delivered_ok e'.
Proof.
  intros Hd. unfold read_some. destruct (operations (m_read e)) as [|d rest]; [done|].
  destruct (under_way (m_read e)) as [ph|]; [|done]. case_decide; [|done].
  match goal with |- Some (finish_read ?h ?e0) = _ → _ =>
    intros <-%(inj Some); destruct (log_finish_read h e0) as [Hl Hc]; eapply delivered_ok_more; [done|exact Hl|exact Hc|] end.
  destruct ph; [rewrite on_header_silent; apply sublist_nil_l|].
  etrans; [by eapply on_payload_deliveries|]. cbn [op]. destruct (is_payload_completed _); [|apply sublist_nil_l].
  cbn [take_pending_result read_stream_operation]. destruct (r_is_promise_resolved _); [apply sublist_nil_l|done].
Qed.

Lemma delivered_ok_step e e' : delivered_ok e → step e e' → delivered_ok e'.
Proof.
  intros Hd Hs. destruct Hs as [msg timeout Hm|timeout|cb| |ec n e' Ha Hs|ec bytes e' Ha Hb Hs|k|k e' Hs].
  - unfold write_async. destruct (is_open (m_socket e)); [|by eapply delivered_ok_silent].
    destruct (start_timer timeout true _ _). match goal with |- delivered_ok (finish_write ?h ?e0) =>
      destruct (log_finish_write h e0) as [Hl Hc] end. eapply delivered_ok_silent; [done|exact Hl|exact Hc|apply push_silent].
  - unfold read_async. destruct (is_open (m_socket e)); [|by eapply delivered_ok_silent].
    destruct (start_timer timeout false _ _). match goal with |- delivered_ok (finish_read ?h ?e0) =>
      destruct (log_finish_read h e0) as [Hl Hc] end. eapply delivered_ok_silent; [done|exact Hl|exact Hc|apply push_silent].
  - unfold set_disconnect_callback. by destruct (is_open (m_socket e)).
  - done.
  - by eapply delivered_ok_write_some.
  - by eapply delivered_ok_read_some.
  - done.
  - revert Hs. unfold run_timer. destruct (MultipleTimer.run_handler k (m_timer e)) as [[[[[] i]|] t]|]; [..|done];
      intros <-%(inj Some); [..|done]; unfold timeout_callback.
    + pose proof (time_out_silent i (m_socket (with_timer t e)) (m_write (with_timer t e))). destruct (time_out _ _ _).
      by eapply delivered_ok_silent.
    + pose proof (time_out_silent i (m_socket (with_timer t e)) (m_read (with_timer t e))). destruct (time_out _ _ _).
      by eapply delivered_ok_silent.
Qed.

(** ** The round trip *)
Lemma frame_app_inj m1 m2 x y :
  valid_message m1 → valid_message m2 → frame m1 ++ x = frame m2 ++ y → m1 = m2 ∧ x = y.
Proof.
  intros H1 H2 E. unfold frame in E. rewrite <- !app_assoc in E. apply app_inj_1 in E as [Eh E]; [|by rewrite !length_be_encode].
  apply (f_equal be_decode) in Eh. unfold s_header_size, valid_message in *.
  rewrite !wrap_small, !be_decode_encode_id in Eh by (change (256 ^ Z.of_nat 4) with (2 ^ 32); lia).
  apply app_inj_1 in E; [done|lia].
Qed.

Lemma frames_prefix cs ws p1 p2 m :
  Forall valid_message cs → Forall valid_message ws → valid_message m → p2 `prefix_of` frame m → (length p2 < length (frame m))%nat →
  concat (frame <$> cs) ++ p1 `prefix_of` concat (frame <$> ws) ++ p2 → cs `prefix_of` ws.
Proof.
  intros Hc Hw Hm Hp Hl. revert ws Hw. induction Hc as [|c cs Hv Hc IH]; intros ws Hw [k E]; [apply prefix_nil|].
  cbn [fmap list_fmap concat] in *. rewrite <- !app_assoc in E. destruct Hw as [|w ws Hvw Hw]; cbn [fmap list_fmap concat app] in E.
  - destruct Hp as [k' Hp]. exfalso. rewrite E, <- !app_assoc in Hp.
    rewrite <- (app_nil_r (frame m)) in Hp. apply frame_app_inj in Hp as [-> _]; [|done..].
    apply (f_equal length) in E. rewrite !length_app in E. lia.
  - rewrite <- app_assoc in E. apply frame_app_inj in E as [-> E]; [|done..]. apply prefix_cons, IH; [done|].
    exists k. rewrite <- app_assoc. done.
Qed.

(** The reader keeps no whole message back. *)
Lemma read_partial_short ph o m x :
  read_phase_ok ph o → valid_message m → r_data o = frame m ++ x → False.
Proof.
  intros Hph Hm E. pose proof (length_frame m) as Hl. pose proof (f_equal length E) as Hlen. rewrite length_app in Hlen.
  destruct ph as [[]|]; simpl in Hph; [lia| |done]. destruct Hph as (s & _ & Hs & Hd). unfold frame in E.
  unfold valid_message in Hm. rewrite E, <- app_assoc, take_app_length' in Hd by (by rewrite length_be_encode).
  rewrite wrap_small, be_decode_encode_id in Hd by (change (256 ^ Z.of_nat s_header_size) with (2 ^ 32); lia). lia.
Qed.

Lemma drained_reader_has_all a b :
  writer_ok a → reader_ok b → operations (m_write a) = [] → is_open (m_socket a) = true → is_open (m_socket b) = true →
  received b = sent a → consumed b `prefix_of` written a → consumed b = written a.
Proof.
  intros (pa & Ha & Hva & Hqa) (_ & _ & pb & Hb & Hqb) Ew Oa Ob Er [[|m ms] Ec]; [by rewrite app_nil_r in Ec|].
  exfalso. rewrite Ew in Hqa. destruct Hqa as [Hpa _]. rewrite (Hpa Oa), app_nil_r in Ha.
  rewrite Ec in Ha, Hva. apply Forall_app in Hva as [_ [Hm _]%Forall_cons].
  rewrite Er, Ha, fmap_app, concat_app in Hb. apply app_inv_head in Hb. cbn [fmap list_fmap concat] in Hb.
  destruct (operations (m_read b)) as [|d rest]; [|destruct Hqb as (E & Hph & _); rewrite E in Hb; by eapply read_partial_short].
  rewrite (Hqb Ob) in Hb. apply app_nil in Hb as [Hb _]. apply (f_equal length) in Hb. by rewrite length_frame in Hb.
Qed.

(** What the reader took off the stream is a first part of what was written. *)
Lemma consumed_prefix a b :
  writer_ok a → reader_ok b → received b `prefix_of` sent a → consumed b `prefix_of` written a.
Proof.
  intros (pa & Ha & Hva & Hqa) (_ & Hvb & pb & Hb & _) Hpre. rewrite Ha, Hb in Hpre.
  destruct (operations (m_write a)) as [|d rest].
  - destruct Hqa as (_ & m & Hm & Hp & Hl). by eapply frames_prefix.
  - destruct Hqa as (-> & Hm & Hph & _). eapply frames_prefix; [done..|apply prefix_take| |done].
    rewrite length_take, length_frame. unfold write_phase_ok in Hph. repeat case_match; [lia..|done].
Qed.

(** C25: the round trip of the TCP framing.  When the bytes that reached the
    reading end [b] are a part of those the writing end [a] sent, from the
    first, then however the two sockets cut the stream up, whatever timeouts
    and failures there were at either end, the messages [b] took off the stream
    are the first messages [a] wrote, whole and in order, and what the reads
    delivered are messages among these, in this order, none twice.  When both
    ends are open, nothing is left to write, and all bytes arrived, every
    message was taken off. *)
Theorem tcp_round_trip a b :
  rtc step create a → rtc step create b → received b `prefix_of` sent a →
  consumed b `prefix_of` written a ∧ deliveries (log b) `sublist_of` consumed b ∧
  (operations (m_write a) = [] → is_open (m_socket a) = true → is_open (m_socket b) = true → received b = sent a →
   consumed b = written a).
Proof.
  intros Ra Rb Hpre. pose proof (writer_ok_reachable a Ra) as Wa. pose proof (reader_ok_reachable b Rb) as Wb.
  pose proof (consumed_prefix a b Wa Wb Hpre) as Hc.
  split_and!; [done| |by intros; apply drained_reader_has_all].
  revert Rb. apply (rtc_invariant _ delivered_ok); [apply sublist_nil_l|apply delivered_ok_step].
Qed.

(** C26: a promise of an endpoint is completed once, or its operation still
    waits: the promises completed and those of the queues are those given out,
    each once.  An operation waits in a queue exactly while a socket operation
    of this kind is under way, so none is stranded. *)
Theorem tcp_promises_once e :
  rtc step create e →
  (c_promise <$> log e) ++ waiting (operations (m_write e)) ++ waiting (operations (m_read e)) ≡ₚ seq 0 (next_promise e) ∧
  (operations (m_write e) = [] ↔ under_way (m_write e) = None) ∧
  (operations (m_read e) = [] ↔ under_way (m_read e) = None).
Proof.
  intros Hr. assert (promise_inv e) as [H1 H2 H3]; [|done]. revert Hr. apply rtc_invariant; [|apply promise_inv_step].
  by split.
Qed.

(** ** Witnesses: a message of two bytes, cut up on both sides *)
Definition write_pieces (ns : list nat) (e : impl) : impl :=
  foldl (λ e n, default e (write_some no_error n e)) e ns.
Definition read_pieces (pieces : list (list Z)) (e : impl) : impl :=
  foldl (λ e bytes, default e (read_some no_error bytes e)) e pieces.
Lemma write_pieces_reachable ns e : rtc step e (write_pieces ns e).
Proof.
  revert e. induction ns as [|n ns IH]; intros e; [apply rtc_refl|]. simpl.
  destruct (write_some no_error n e) as [e'|] eqn:E; [|apply IH]. eapply rtc_l; [by eapply (step_write_some _ no_error n)|apply IH].
Qed.
Lemma read_pieces_reachable pieces e : Forall (Forall is_byte) pieces → rtc step e (read_pieces pieces e).
Proof.
  intros Hp. revert e. induction Hp as [|bytes pieces Hb Hp IH]; intros e; [apply rtc_refl|]. simpl.
  destruct (read_some no_error bytes e) as [e'|] eqn:E; [|apply IH]. eapply rtc_l; [by eapply (step_read_some _ no_error bytes)|apply IH].
Qed.

Definition writer : impl := write_pieces [3; 1; 2]%nat (write_async [7; 8] (Some 100) create).
Definition reader : impl := read_pieces [[0; 0]; [0; 2]; [7]; [8]] (read_async None (read_async None create)).
Lemma writer_reachable : rtc step create writer.
Proof. eapply rtc_l; [by apply (step_write _ [7; 8] (Some 100))|]. apply write_pieces_reachable. Qed.
Lemma reader_reachable : rtc step create reader.
Proof.
  eapply rtc_l; [apply (step_read _ None)|]. eapply rtc_l; [apply (step_read _ None)|].
  apply read_pieces_reachable. by repeat constructor.
Qed.

Lemma tcp_round_trip_witness :
  deliveries (log reader) = [[7; 8]] ∧ consumed reader = written writer.
Proof.
  split; [reflexivity|].
  refine (proj2 (proj2 (tcp_round_trip writer reader writer_reachable reader_reachable _)) _ _ _ _); [by exists []|reflexivity..].
Defined.

Lemma tcp_promises_once_witness :
  (c_promise <$> log reader) ++ waiting (operations (m_write reader)) ++ waiting (operations (m_read reader)) ≡ₚ [0%nat; 1%nat].
Proof. exact (proj1 (tcp_promises_once reader reader_reachable)). Defined.
