(* ===== verification/TcpServerEnv.v ===== *)
(** * The server environment of TCP pipes

    [tcp_pipe_server_env]: operations that accept a client queue up, and the
    oldest has an [async_accept] under way.  The operations are objects of
    their own, shared by the queue, the handler of the accept and the threads
    that cancel them.  A promise is completed outside of every mutex, so that
    what was decided ([completing]) and what was published ([log]) are two
    things; the callback of [finally] runs still later ([finalizers]). *)
From S2P Require Import Prelude RpcTypes Timer.
Local Open Scope Z_scope.

Module TcpServerEnv.
Abbreviation timer := (MultipleTimer.multiple_timer Z).

(** ** create_operation

    [on_completed_id] is the number its [finally] callback passes on. *)
Record create_operation : Type := CreateOperation {
  m_was_started : bool;
  m_was_canceled : bool;
  m_canceled_by_timer : bool;
  on_completed_id : Z
}.
Record create_operation_data : Type := CreateOperationData {
  id : Z;
  client_id : Z;
  timer_id : option Z;
  op : nat
}.

(** An accept that asio holds: waiting, or its handler queued with a socket or
    an error. *)
Inductive accept : Type := Accepting | Accepted (socket : option nat).

Record completion : Type := Completion {
  c_promise : nat;
  c_result : PipeWaitRes.pipe_wait_res;
  c_endpoint : option nat
}.

(** [m_create_operations] lists the oldest operation, the back of the list of the
    code, first.  Operations and their promises are numbered alike. *)
Record impl : Type := mk {
  m_next_id : Z;
  m_create_operations : list create_operation_data;
  m_timer : timer;
  ops : gmap nat create_operation;
  m_acceptor : list (nat * accept);
  completing : list completion;
  finalizers : list Z;
  log : list completion;
  next_promise : nat;
  next_socket : nat
}.

Definition with_timer (t : timer) (e : impl) : impl :=
  mk (m_next_id e) (m_create_operations e) t (ops e) (m_acceptor e) (completing e) (finalizers e) (log e)
     (next_promise e) (next_socket e).
Definition with_queue (q : list create_operation_data) (e : impl) : impl :=
  mk (m_next_id e) q (m_timer e) (ops e) (m_acceptor e) (completing e) (finalizers e) (log e)
     (next_promise e) (next_socket e).
Definition with_ops (os : gmap nat create_operation) (acc : list (nat * accept)) (e : impl) : impl :=
  mk (m_next_id e) (m_create_operations e) (m_timer e) os acc (completing e) (finalizers e) (log e)
     (next_promise e) (next_socket e).
Definition with_completing (cs : list completion) (e : impl) : impl :=
  mk (m_next_id e) (m_create_operations e) (m_timer e) (ops e) (m_acceptor e) cs (finalizers e) (log e)
     (next_promise e) (next_socket e).

(** The constructor: [make_address_v4], [open], [bind] and [listen] may throw. *)
Definition create (port : Z) (address_ok listen_ok : bool) : exn + impl :=
  if decide (65535 < port) then inl invalid_argument
  else if negb address_ok then inl system_error
  else if negb listen_ok then inl system_error
  else inr (mk 0 [] MultipleTimer.create ∅ [] [] [] [] 0 0).

Definition wait_result (by_timer : bool) : PipeWaitRes.pipe_wait_res :=
  if by_timer then PipeWaitRes.timeout else PipeWaitRes.canceled.

(** ** Operations *)
Definition op_start (p : nat) (e : impl) : impl :=
  with_ops (alter (λ o, CreateOperation true (m_was_canceled o) (m_canceled_by_timer o) (on_completed_id o)) p (ops e))
           (m_acceptor e ++ [(p, Accepting)]) e.

(** [acceptor::cancel]: waiting accepts end with an error. *)
Definition abort_accept (a : accept) : accept :=
  match a with Accepting => Accepted None | a => a end.
Definition acceptor_cancel (acc : list (nat * accept)) : list (nat * accept) := prod_map (λ p, p) abort_accept <$> acc.

Definition op_cancel (by_timer : bool) (p : nat) (e : impl) : option PipeWaitRes.pipe_wait_res * impl :=
  match ops e !! p with
  | None => (None, e)
  | Some o =>
      if m_was_canceled o then (None, e)
      else
        let os := <[p := CreateOperation (m_was_started o) true by_timer (on_completed_id o)]> (ops e) in
        if m_was_started o then (None, with_ops os (acceptor_cancel (m_acceptor e)) e)
        else (Some (wait_result by_timer), with_ops os (m_acceptor e) e)
  end.

(** The handler of the accept of [p], with the result of the socket options. *)
Definition accept_result (o : create_operation) (socket : option nat) (option_ec : bool) : PipeWaitRes.pipe_wait_res * option nat :=
  if m_was_canceled o then (wait_result (m_canceled_by_timer o), None)
  else match socket with
       | None => (PipeWaitRes.failed, None)
       | Some s => if option_ec then (PipeWaitRes.failed, None) else (PipeWaitRes.success, Some s)
       end.
Definition on_accept (option_ec : bool) (e : impl) : option impl :=
  match m_acceptor e with
  | (p, Accepted socket) :: acc =>
      match ops e !! p with
      | Some o =>
          let '(r, s) := accept_result o socket option_ec in
          Some (with_completing (completing e ++ [Completion p r s]) (with_ops (ops e) acc e))
      | None => None
      end
  | _ => None
  end.

(** [complete]: the promise gets its value, and the callback of [finally] is due. *)
Definition complete (i : nat) (e : impl) : option impl :=
  match completing e !! i with
  | Some c =>
      match ops e !! c_promise c with
      | Some o =>
          Some (mk (m_next_id e) (m_create_operations e) (m_timer e) (ops e) (m_acceptor e) (delete i (completing e))
                   (finalizers e ++ [on_completed_id o]) (log e ++ [c]) (next_promise e) (next_socket e))
      | None => None
      end
  | None => None
  end.

(** ** The environment *)
Definition cancel_timer (d : create_operation_data) (t : timer) : timer :=
  match timer_id d with Some i => MultipleTimer.cancel i t | None => t end.

Definition create_pipe (cid : Z) (timeout : option Z) (e : impl) : impl :=
  let i := m_next_id e in
  let p := next_promise e in
  let '(tid, t) :=
    match timeout with
    | Some _ => let '(k, t) := MultipleTimer.start i (m_timer e) in (Some k, t)
    | None => (None, m_timer e)
    end in
  let q := m_create_operations e ++ [CreateOperationData i cid tid p] in
  let e := mk (u64 (i + 1)) q t (<[p := CreateOperation false false false i]> (ops e)) (m_acceptor e) (completing e)
              (finalizers e) (log e) (S p) (next_socket e) in
  if decide (length q = 1%nat) then op_start p e else e.

Definition cancel_and_decide (by_timer : bool) (p : nat) (e : impl) : impl :=
  let '(r, e) := op_cancel by_timer p e in
  with_completing (completing e ++ option_list ((λ r, Completion p r None) <$> r)) e.

Definition on_timeout (i : Z) (e : impl) : impl :=
  match m_create_operations e with
  | [] => e
  | d :: l =>
      if decide (id d = i) then cancel_and_decide true (op d) e
      else
        match list_find (λ d, id d = i) l with
        | Some (n, d') => cancel_and_decide true (op d') (with_queue (d :: delete n l) e)
        | None => e
        end
  end.

Definition on_completed (i : Z) (e : impl) : impl :=
  match m_create_operations e with
  | d :: l =>
      if decide (id d = i) then
        let e := with_queue l (with_timer (cancel_timer d (m_timer e)) e) in
        match l with [] => e | d' :: _ => op_start (op d') e end
      else e
  | [] => e
  end.

Definition selected (cid : option Z) (d : create_operation_data) : bool :=
  match cid with None => true | Some c => bool_decide (client_id d = c) end.

(** The operations behind the oldest leave the queue, from the newest on; the
    oldest stays until its accept has ended. *)
Definition cancel_operation (e : impl) (d : create_operation_data) : impl :=
  cancel_and_decide false (op d) (with_timer (cancel_timer d (m_timer e)) e).
Definition cancel_pending_server_endpoints (cid : option Z) (e : impl) : impl :=
  match m_create_operations e with
  | [] => e
  | d :: l =>
      let gone := filter (λ d, Is_true (selected cid d)) l in
      let kept := filter (λ d, ¬ Is_true (selected cid d)) l in
      let e := foldl cancel_operation (with_queue (d :: kept) e) (reverse gone) in
      if selected cid d then cancel_operation e d else e
  end.
(** [~tcp_pipe_server_env]. *)
Definition destroy (e : impl) : impl := cancel_pending_server_endpoints None e.

Definition run_timer (k : Z) (e : impl) : option impl :=
  match MultipleTimer.run_handler k (m_timer e) with
  | None => None
  | Some (fired, t) =>
      Some (match fired with Some i => on_timeout i (with_timer t e) | None => with_timer t e end)
  end.

Definition run_finalizer (n : nat) (e : impl) : option impl :=
  match finalizers e !! n with
  | None => None
  | Some i =>
      Some (on_completed i (mk (m_next_id e) (m_create_operations e) (m_timer e) (ops e) (m_acceptor e) (completing e)
                               (delete n (finalizers e)) (log e) (next_promise e) (next_socket e)))
  end.

(** The operating system accepts a client, or the accept fails. *)
Definition accept_ends (ok : bool) (e : impl) : option impl :=
  match m_acceptor e with
  | (p, Accepting) :: acc =>
      Some (mk (m_next_id e) (m_create_operations e) (m_timer e) (ops e)
               ((p, Accepted (if ok then Some (next_socket e) else None)) :: acc) (completing e) (finalizers e) (log e)
               (next_promise e) (if ok then S (next_socket e) else next_socket e))
  | _ => None
  end.

(** Identifiers are not used up within a run. *)
Inductive step (e : impl) : impl → Prop :=
| step_create cid timeout : m_next_id e < 2 ^ 64 - 1 → step e (create_pipe cid timeout e)
| step_cancel cid : step e (cancel_pending_server_endpoints cid e)
| step_accept ok e' : accept_ends ok e = Some e' → step e e'
| step_on_accept option_ec e' : on_accept option_ec e = Some e' → step e e'
| step_complete i e' : complete i e = Some e' → step e e'
| step_finalize n e' : run_finalizer n e = Some e' → step e e'
| step_expire k : step e (with_timer (MultipleTimer.expire k (m_timer e)) e)
| step_timer k e' : run_timer k e = Some e' → step e e'.
End TcpServerEnv.
