(* ===== verification/TcpServerEnvFacts.v ===== *)
(** * Correctness of the server environment of TCP pipes

    Every promise is completed exactly once, at most one accept is under way,
    and the queue never stalls. *)
From S2P Require Import Prelude RpcTypes Timer TcpServerEnv.
Import TcpServerEnv.
Local Open Scope Z_scope.

(** ** Invariant

    [gone] are operations that left the queue and are about to be cancelled. *)
Definition fresh_op (e : impl) (p : nat) : Prop :=
  ∃ o, ops e !! p = Some o ∧ m_was_started o = false ∧ m_was_canceled o = false.
Definition started_op (e : impl) (p : nat) : Prop := ∃ o, ops e !! p = Some o ∧ m_was_started o = true.

(** Where the promises are. *)
Definition accounted (gone : list nat) (e : impl) : list nat :=
  (c_promise <$> log e) ++ (c_promise <$> completing e) ++ (fst <$> m_acceptor e) ++ gone ++
  (op <$> tail (m_create_operations e)).

(** The oldest operation: its accept is under way, its completion is being
    published, or its successor is about to be started. *)
Definition driven (e : impl) (d : create_operation_data) : Prop :=
  op d ∈ fst <$> m_acceptor e ∨ op d ∈ c_promise <$> completing e ∨ id d ∈ finalizers e.

Definition good_completion (e : impl) (c : completion) : Prop :=
  match c_endpoint c with
  | Some s => c_result c = PipeWaitRes.success ∧ (s < next_socket e)%nat
  | None => c_result c ≠ PipeWaitRes.success
  end.

(** The sockets that were accepted and not dropped. *)
Definition accepted_socket (a : nat * accept) : option nat :=
  match a.2 with Accepted s => s | Accepting => None end.
Definition sockets (e : impl) : list nat :=
  omap c_endpoint (log e) ++ omap c_endpoint (completing e) ++
  omap accepted_socket (m_acceptor e).

Record inv_gone (gone : list nat) (e : impl) : Prop := {
  inv_once : accounted gone e ≡ₚ seq 0 (next_promise e);
  inv_next : m_next_id e = Z.of_nat (next_promise e) ∧ m_next_id e < 2 ^ 64;
  inv_queue d : d ∈ m_create_operations e → id d = Z.of_nat (op d);
  inv_ops p : (p < next_promise e)%nat → ∃ o, ops e !! p = Some o ∧ on_completed_id o = Z.of_nat p;
  inv_head d : head (m_create_operations e) = Some d → started_op e (op d) ∧ (op d < next_promise e)%nat ∧ driven e d;
  inv_tail d : d ∈ tail (m_create_operations e) → fresh_op e (op d);
  inv_doomed p : p ∈ gone → fresh_op e p;
  inv_accepts p : p ∈ fst <$> m_acceptor e → ∃ d, head (m_create_operations e) = Some d ∧ op d = p;
  inv_final i : i ∈ finalizers e → ∃ p, i = Z.of_nat p ∧ p ∈ c_promise <$> log e;
  inv_good c : c ∈ log e ++ completing e → good_completion e c;
  inv_sockets : NoDup (sockets e) ∧ Forall (λ s, (s < next_socket e)%nat) (sockets e);
  inv_waiting p : (p, Accepting) ∈ m_acceptor e → ∃ o, ops e !! p = Some o ∧ m_was_canceled o = false
}.
Abbreviation inv := (inv_gone []).

(** A promise is in one place. *)
Lemma accounted_once gone e p : inv_gone gone e → (occ p (accounted gone e) ≤ 1)%nat.
Proof. intros I. apply occ_NoDup. rewrite (inv_once _ _ I). apply NoDup_seq. Qed.

Lemma accepting_with_timer gone t e : inv_gone gone e → inv_gone gone (with_timer t e).
Proof. by intros []. Qed.

(** ** Cancelling *)
Lemma fst_acceptor_cancel acc : fst <$> acceptor_cancel acc = fst <$> acc.
Proof. unfold acceptor_cancel. rewrite <- list_fmap_compose. by apply list_fmap_ext. Qed.

Lemma sockets_acceptor_cancel acc : omap accepted_socket (acceptor_cancel acc) = omap accepted_socket acc.
Proof.
  unfold acceptor_cancel. induction acc as [|[p [|[s|]]] acc IH]; [done|exact IH| |exact IH].
  rewrite fmap_cons. cbn [omap list_omap accepted_socket prod_map abort_accept snd]. by f_equal.
Qed.

(** An operation that left the queue before it was started. *)
Lemma inv_cancel_gone gone by_timer p e :
  inv_gone (p :: gone) e → inv_gone gone (cancel_and_decide by_timer p e).
Proof.
  intros I. destruct (inv_doomed _ _ I p) as (o & Ho & Hs & Hc); [by left|].
  assert ((p ∉ gone) ∧ p ∉ (op <$> tail (m_create_operations e))) as [Hg Ht].
  { split; intros Hin; pose proof (accounted_once _ _ p I) as H1; unfold accounted in H1;
      rewrite !occ_app, occ_cons, decide_True in H1 by done; apply occ_elem in Hin; lia. }
  unfold cancel_and_decide, op_cancel. rewrite Ho, Hc, Hs. simpl.
  assert (∀ p' o', p' ≠ p → ops e !! p' = Some o' →
            (<[p := CreateOperation false true by_timer (on_completed_id o)]> (ops e)) !! p' = Some o') as Hne.
  { intros p' o' Hp'. by rewrite lookup_insert_ne. }
  destruct I as [H1 H2 H3 H4 H5 H6 H7 H8 H9 H10 [H11 H12] Hw]. split; simpl; try done.
  - rewrite <- H1. unfold accounted. simpl. rewrite fmap_app. simpl. solve_Permutation.
  - intros p' Hp'. destruct (decide (p' = p)) as [->|Hp]; [rewrite lookup_insert_eq|rewrite lookup_insert_ne by done].
    + destruct (H4 p Hp') as (o' & Ho' & Hi). rewrite Ho in Ho'. simplify_eq. by eexists.
    + by apply H4.
  - intros d Hd. destruct (H5 d Hd) as ((o' & Ho' & Hs') & Hlt & Hdr). split_and!; [|done|].
    + exists o'. split; [|done]. apply Hne; [|done]. intros Hp. rewrite Hp in Ho'. congruence.
    + unfold driven in *. simpl. rewrite fmap_app, elem_of_app. tauto.
  - intros d Hd. destruct (H6 d Hd) as (o' & Ho' & Hf). exists o'. split; [|done]. apply Hne; [|done].
    intros Hp. apply Ht. rewrite <- Hp. by apply list_elem_of_fmap_2.
  - intros p' Hp'. destruct (H7 p') as (o' & Ho' & Hf); [by right|]. exists o'. split; [|done]. apply Hne; [|done]. by intros ->.
  - intros c [Hc'|[Hc'| ->%list_elem_of_singleton]%elem_of_app]%elem_of_app;
      [apply H10, elem_of_app; by auto..|]. by destruct by_timer.
  - unfold sockets in *. simpl. rewrite omap_app. simpl. by rewrite app_nil_r.
  - intros p' Hp'. destruct (Hw p' Hp') as (o' & Ho' & Hc'). exists o'. split; [|done]. apply Hne; [|done].
    intros ->. apply (list_elem_of_fmap_2 fst), H8 in Hp' as (d & Hd & Hp). destruct (H5 d Hd) as ((o2 & Ho2 & Hs2) & _).
    rewrite Hp in Ho2. simpl in Ho2. congruence.
Qed.

(** The oldest operation, whose accept is under way or has ended. *)
Lemma inv_cancel_head gone by_timer d e :
  inv_gone gone e → head (m_create_operations e) = Some d → inv_gone gone (cancel_and_decide by_timer (op d) e).
Proof.
  intros I Hd. destruct (inv_head _ _ I d Hd) as ((o & Ho & Hs) & Hlt & Hdr).
  unfold cancel_and_decide, op_cancel. rewrite Ho. destruct (m_was_canceled o) eqn:Ec; simpl.
  { rewrite app_nil_r. by destruct I. }
  rewrite Hs. simpl. rewrite app_nil_r.
  set (o' := CreateOperation true true by_timer (on_completed_id o)).
  assert (∀ p, fresh_op e p → ∃ o0, (<[op d := o']> (ops e)) !! p = Some o0 ∧ m_was_started o0 = false ∧ m_was_canceled o0 = false) as Hfr.
  { intros p (o0 & Ho0 & Hf). exists o0. split; [|done]. rewrite lookup_insert_ne; [done|]. intros <-. destruct Hf. congruence. }
  destruct I as [H1 H2 H3 H4 H5 H6 H7 H8 H9 H10 [H11 H12] Hw]. split; simpl; try done.
  - unfold accounted in *. simpl. by rewrite fst_acceptor_cancel.
  - intros p Hp. destruct (decide (p = op d)) as [->|Hne]; [rewrite lookup_insert_eq|rewrite lookup_insert_ne by done; by apply H4].
    destruct (H4 _ Hp) as (o0 & Ho0 & Hi). rewrite Ho in Ho0. simplify_eq. by eexists.
  - intros d' Hd'. assert (d' = d) as -> by congruence. split_and!; [|done|].
    + exists o'. simpl. by rewrite lookup_insert_eq.
    + unfold driven in *. simpl. by rewrite fst_acceptor_cancel.
  - intros d' Hd'. apply Hfr, H6, Hd'.
  - intros p Hp. apply Hfr, H7, Hp.
  - rewrite fst_acceptor_cancel. done.
  - unfold sockets in *. simpl. by rewrite sockets_acceptor_cancel.
  - intros p ([q a] & E & _)%list_elem_of_fmap. by destruct a.
Qed.

(** Operations behind the oldest leave the queue. *)
Lemma accepting_leave d l kept lost e :
  inv e → m_create_operations e = d :: l → l ≡ₚ lost ++ kept → inv_gone (op <$> lost) (with_queue (d :: kept) e).
Proof.
  intros [H1 H2 H3 H4 H5 H6 H7 H8 H9 H10 H11 Hw] Hq Hl. rewrite Hq in *. split; simpl in *; try done.
  - rewrite <- H1. unfold accounted. simpl. rewrite Hq. simpl. rewrite Hl, fmap_app. done.
  - intros d' [->|Hd']%elem_of_cons; apply H3; [by left|]. right. rewrite Hl. apply elem_of_app. by right.
  - intros d' Hd'. apply H6. rewrite Hl. apply elem_of_app. by right.
  - intros p (d' & -> & Hd')%list_elem_of_fmap. apply H6. rewrite Hl. apply elem_of_app. by left.
Qed.

Lemma inv_on_timeout i e : inv e → inv (on_timeout i e).
Proof.
  intros I. unfold on_timeout. destruct (m_create_operations e) as [|d l] eqn:Hq; [done|].
  case_decide; [apply inv_cancel_head; [done|by rewrite Hq]|].
  destruct (list_find _ l) as [[n d']|] eqn:Ef; [|done]. apply list_find_Some in Ef as (Hd' & _ & _).
  apply inv_cancel_gone. apply (accepting_leave d l (delete n l) [d'] e); [done..|]. by apply delete_Permutation.
Qed.

Lemma inv_cancel_operations lost gone e :
  inv_gone (gone ++ (op <$> lost)) e → inv_gone gone (foldl cancel_operation e lost).
Proof.
  revert e. induction lost as [|d lost IH]; intros e I; simpl; [by rewrite app_nil_r in I|].
  apply IH. unfold cancel_operation. apply inv_cancel_gone, accepting_with_timer.
  destruct I as [H1 H2 H3 H4 H5 H6 H7 H8 H9 H10 H11 Hw]. split; try done.
  - rewrite <- H1. unfold accounted. simpl. solve_Permutation.
  - intros p Hp. apply H7. revert Hp. rewrite elem_of_cons, !elem_of_app. simpl. rewrite elem_of_cons. tauto.
Qed.

Lemma queue_cancel_operation d e : m_create_operations (cancel_operation e d) = m_create_operations e.
Proof.
  unfold cancel_operation, cancel_and_decide, op_cancel. simpl.
  destruct (ops e !! op d) as [o|]; [|done]. destruct (m_was_canceled o); [done|]. by destruct (m_was_started o).
Qed.
Lemma queue_cancel_operations lost e : m_create_operations (foldl cancel_operation e lost) = m_create_operations e.
Proof. revert e. induction lost as [|d lost IH]; intros e; [done|]. simpl. by rewrite IH, queue_cancel_operation. Qed.

Lemma accepting_cancel_pending cid e : inv e → inv (cancel_pending_server_endpoints cid e).
Proof.
  intros I. unfold cancel_pending_server_endpoints. destruct (m_create_operations e) as [|d l] eqn:Hq; [done|].
  set (kept := filter _ l). set (lost := filter _ l).
  assert (inv (foldl cancel_operation (with_queue (d :: kept) e) (reverse lost))) as I'.
  { apply inv_cancel_operations. simpl. apply (accepting_leave d l); [done..|].
    rewrite reverse_Permutation. symmetry. apply filter_app_complement. }
  destruct (selected cid d); [|done]. apply inv_cancel_head; [by apply accepting_with_timer|].
  simpl. by rewrite queue_cancel_operations.
Qed.

(** ** The other steps *)
Lemma accounted_lt gone e p : inv_gone gone e → p ∈ accounted gone e → (p < next_promise e)%nat.
Proof. intros I Hp. rewrite (inv_once _ _ I) in Hp. apply elem_of_seq in Hp. lia. Qed.

Lemma accepts_empty gone e : inv_gone gone e → m_create_operations e = [] → m_acceptor e = [].
Proof.
  intros I Hq. destruct (m_acceptor e) as [|[p a] acc] eqn:E; [done|].
  destruct (inv_accepts _ _ I p) as (d & Hd & _); [rewrite E; by left|]. by rewrite Hq in Hd.
Qed.

(** The next operations become the queue, and the oldest is started. *)
Lemma inv_op_start d rest e :
  inv_gone (op <$> d :: rest) e → m_create_operations e = [] → (∀ d', d' ∈ d :: rest → id d' = Z.of_nat (op d')) →
  inv (op_start (op d) (with_queue (d :: rest) e)).
Proof.
  intros I Hq Hids. pose proof (accepts_empty _ _ I Hq) as Ha.
  assert (op d < next_promise e)%nat as Hlt.
  { eapply accounted_lt; [done|]. unfold accounted. rewrite !elem_of_app. right. right. right. left. by left. }
  assert (op d ∉ op <$> rest) as Hnew.
  { intros Hin. pose proof (accounted_once _ _ (op d) I) as H1. unfold accounted in H1.
    rewrite !occ_app, fmap_cons, occ_cons, decide_True in H1 by done. apply occ_elem in Hin. lia. }
  destruct (inv_doomed _ _ I (op d)) as (o & Ho & _ & Hcan); [by left|].
  destruct I as [H1 H2 H3 H4 H5 H6 H7 H8 H9 H10 H11 Hw]. unfold op_start. simpl. rewrite Ha.
  split; simpl; try done.
  - rewrite <- H1. unfold accounted. simpl. rewrite Hq, Ha. simpl. solve_Permutation.
  - intros p Hp. destruct (H4 p Hp) as (o' & Ho' & Hi). destruct (decide (p = op d)) as [->|Hne];
      [rewrite lookup_alter_eq, Ho'|rewrite lookup_alter_ne by done]; eauto.
  - intros d' [= <-]. split_and!; [|done|].
    + eexists. simpl. rewrite lookup_alter_eq, Ho. by split.
    + left. simpl. by left.
  - intros d' Hd'. destruct (H7 (op d')) as (o' & Ho' & Hf); [right; by apply list_elem_of_fmap_2|].
    exists o'. split; [|done]. simpl. rewrite lookup_alter_ne; [done|]. intros E. apply Hnew. rewrite E. by apply list_elem_of_fmap_2.
  - intros p Hp. by apply elem_of_nil in Hp.
  - intros p ->%list_elem_of_singleton. by exists d.
  - unfold sockets in *. simpl in *. by rewrite Ha in H11.
  - intros p Hp. apply list_elem_of_singleton in Hp. simplify_eq. rewrite lookup_alter_eq, Ho. eexists. by split.
Qed.

Lemma inv_create_pipe cid timeout e : inv e → m_next_id e < 2 ^ 64 - 1 → inv (create_pipe cid timeout e).
Proof.
  intros I Hlt. unfold create_pipe.
  destruct (match timeout with Some _ => _ | None => _ end) as [tid t].
  set (p := next_promise e). set (d := CreateOperationData (m_next_id e) cid tid p).
  pose proof (inv_next _ _ I) as [Hn _].
  set (e' := mk _ _ _ _ _ _ _ _ _ _).
  assert (∀ p' o, (p' < p)%nat → ops e !! p' = Some o → ops e' !! p' = Some o) as Hold.
  { intros p' o Hp' Ho. simpl. rewrite lookup_insert_ne; [done|lia]. }
  assert (∀ p', fresh_op e p' → (p' < p)%nat → fresh_op e' p') as Hfr.
  { intros p' (o & Ho & Hf) Hp'. exists o. split; [by apply Hold|done]. }
  assert (fresh_op e' p) as Hfp by (eexists; simpl; rewrite lookup_insert_eq; by split).
  assert (inv_gone [p] (with_queue (m_create_operations e) e')) as I'.
  { assert (∀ p', p' ∈ accounted [] e → (p' < p)%nat) as Hacc by (intros p' Hp'; by eapply accounted_lt).
    destruct I as [H1 H2 H3 H4 H5 H6 H7 H8 H9 H10 H11 Hw].
    split; [change (next_promise _) with (S p); fold p in H1; rewrite seq_S, <- H1; unfold accounted; simpl; solve_Permutation|simpl; try done..].
    - rewrite wrap_small by lia. lia.
    - intros p' Hp'. destruct (decide (p' = p)) as [->|Hne].
      + rewrite lookup_insert_eq. eexists. split; [done|]. simpl. lia.
      + rewrite lookup_insert_ne by done. apply H4. unfold p in *. lia.
    - intros d' Hd'. destruct (H5 d' Hd') as ((o & Ho & Hs) & Hl & Hdr). split_and!; [|lia|done].
      exists o. split; [by apply Hold|done].
    - intros d' Hd'. apply Hfr; [by apply H6|]. apply Hacc. unfold accounted. rewrite !elem_of_app.
      do 4 right. by apply list_elem_of_fmap_2.
    - intros p' ->%list_elem_of_singleton. done.
    - intros p' Hp'. destruct (Hw p' Hp') as (o & Ho & Hc). exists o. split; [|done]. apply Hold; [|done].
      apply Hacc. unfold accounted. rewrite !elem_of_app. right. right. left. by apply (list_elem_of_fmap_2 fst) in Hp'. }
  case_decide as Hl.
  - destruct (m_create_operations e) as [|d0 q] eqn:Hq; [|rewrite length_app in Hl; simpl in Hl; lia].
    apply (inv_op_start d [] (with_queue [] e')); [done|done|]. by intros d' ->%list_elem_of_singleton.
  - destruct (m_create_operations e) as [|d0 q] eqn:Hq; [by rewrite length_app in Hl|].
    destruct I' as [H1 H2 H3 H4 H5 H6 H7 H8 H9 H10 H11 Hw]. split; try done.
    + rewrite <- H1. unfold accounted. simpl. rewrite fmap_app. simpl. solve_Permutation.
    + cbn [m_create_operations e']. intros d' [Hd'| ->%list_elem_of_singleton]%elem_of_app; [by apply H3|]. done.
    + simpl. intros d' [Hd'| ->%list_elem_of_singleton]%elem_of_app; [by apply H6|]. done.
    + intros p' Hp'. by apply elem_of_nil in Hp'.
Qed.

Lemma inv_accept_ends ok e e' : inv e → accept_ends ok e = Some e' → inv e'.
Proof.
  unfold accept_ends. intros [H1 H2 H3 H4 H5 H6 H7 H8 H9 H10 [H11 H12] Hw].
  destruct (m_acceptor e) as [|[p []] acc] eqn:Ea; [done| |done]. intros [= <-].
  split; try done; unfold accounted, driven, sockets, good_completion in *; simpl in *; rewrite ?Ea in *; try done.
  - intros c Hc. specialize (H10 c Hc). destruct (c_endpoint c), ok; try done. destruct H10. split; [done|lia].
  - destruct ok; simpl in *; [|done]. split.
    + rewrite !app_assoc. rewrite <- (Permutation_middle _ _ (next_socket e)). apply NoDup_cons. split; [|by rewrite <- app_assoc].
      intros Hin. rewrite <- app_assoc in Hin. rewrite Forall_forall in H12. specialize (H12 _ Hin). lia.
    + rewrite !app_assoc. rewrite <- (Permutation_middle _ _ (next_socket e)). constructor; [lia|].
      rewrite <- app_assoc. eapply Forall_impl; [done|]. simpl. lia.
  - intros q Hq. apply Hw. apply elem_of_cons in Hq as [Hq|Hq]; [by destruct ok|by right].
Qed.

Lemma inv_on_accept option_ec e e' : inv e → on_accept option_ec e = Some e' → inv e'.
Proof.
  unfold on_accept. intros [H1 H2 H3 H4 H5 H6 H7 H8 H9 H10 [H11 H12] Hw].
  destruct (m_acceptor e) as [|[p [|socket]] acc] eqn:Ea; [done|done|].
  destruct (ops e !! p) as [o|] eqn:Eo; [|done].
  destruct (accept_result o socket option_ec) as [r s] eqn:Er. intros [= <-].
  assert (s = None ∧ r ≠ PipeWaitRes.success ∨ s = socket ∧ is_Some s ∧ r = PipeWaitRes.success) as Hrs.
  { unfold accept_result, wait_result in Er. repeat case_match; simplify_eq/=; eauto. }
  split; try done; unfold accounted, driven, sockets, good_completion in *; simpl in *; rewrite ?Ea in *; try done.
  - rewrite <- H1, fmap_app. simpl. solve_Permutation.
  - intros d Hd. destruct (H5 d Hd) as (Hst & Hl & Hdr). split_and!; [done..|]. rewrite fmap_app, elem_of_app. simpl.
    rewrite fmap_cons, elem_of_cons in Hdr. rewrite list_elem_of_singleton. tauto.
  - intros p' Hp'. apply H8. by right.
  - intros c [Hc|[Hc| ->%list_elem_of_singleton]%elem_of_app]%elem_of_app; [apply H10, elem_of_app; by auto..|]. simpl.
    destruct Hrs as [[-> ?]|(-> & [s' ->] & ->)]; [done|]. split; [done|].
    rewrite Forall_forall in H12. apply H12. rewrite !elem_of_app. simpl. right. right. by left.
  - rewrite omap_app. simpl. destruct Hrs as [[-> ?]|(-> & [s' ->] & ->)]; simpl.
    + rewrite app_nil_r. assert (Hsub : omap c_endpoint (log e) ++ omap c_endpoint (completing e) ++ omap accepted_socket acc
        `sublist_of` omap c_endpoint (log e) ++ omap c_endpoint (completing e) ++ omap accepted_socket ((p, Accepted socket) :: acc)).
      { apply sublist_app; [done|]. apply sublist_app; [done|]. simpl. destruct socket; [by apply sublist_cons|done]. }
      split; [by eapply sublist_NoDup|by eapply Forall_sublist].
    + simpl in H11, H12. by rewrite <- !app_assoc.
  - intros q Hq. apply Hw. by right.
Qed.

Lemma accepting_complete i e e' : inv e → complete i e = Some e' → inv e'.
Proof.
  unfold complete. intros I. destruct (completing e !! i) as [c|] eqn:Ec; [|done].
  assert (c_promise c < next_promise e)%nat as Hlt.
  { eapply accounted_lt; [done|]. unfold accounted. rewrite !elem_of_app. right. left.
    apply list_elem_of_fmap_2. by eapply list_elem_of_lookup_2. }
  destruct (inv_ops _ _ I _ Hlt) as (o & Ho & Hi). rewrite Ho. intros [= <-].
  destruct I as [H1 H2 H3 H4 H5 H6 H7 H8 H9 H10 [H11 H12] Hw].
  pose proof (delete_Permutation _ _ _ Ec) as Hp. pose proof (fmap_Permutation c_promise _ _ Hp) as Hpp.
  assert (omap c_endpoint (completing e) ≡ₚ option_list (c_endpoint c) ++ omap c_endpoint (delete i (completing e))) as Hpe.
  { etrans; [apply omap_Permutation, Hp|]. simpl. by destruct (c_endpoint c). }
  assert (∀ c', c' ∈ completing e ↔ c' = c ∨ c' ∈ delete i (completing e)) as Hin.
  { intros c'. rewrite <- elem_of_cons. by apply elem_of_Permutation_proper. }
  split; try done; simpl.
  - rewrite <- H1. unfold accounted. simpl. rewrite Hpp. rewrite fmap_app. simpl. solve_Permutation.
  - intros d Hd. destruct (H5 d Hd) as (Hs & Hl & Hdr). split_and!; [done..|]. unfold driven in *. simpl.
    rewrite elem_of_app, list_elem_of_singleton. destruct Hdr as [?|[Hdr|?]]; [by left| |tauto].
    rewrite Hpp, fmap_cons, elem_of_cons in Hdr. destruct Hdr as [Hdr|?]; [|tauto]. right. right. right.
    rewrite Hi, <- Hdr. apply H3. destruct (m_create_operations e); simplify_eq/=. by left.
  - intros j [Hj| ->%list_elem_of_singleton]%elem_of_app.
    + destruct (H9 j Hj) as (p & -> & Hp'). exists p. split; [done|]. rewrite fmap_app, elem_of_app. by left.
    + exists (c_promise c). split; [done|]. rewrite fmap_app, elem_of_app. right. by left.
  - intros c' Hc'. apply H10. revert Hc'. rewrite !elem_of_app, list_elem_of_singleton, Hin. tauto.
  - unfold sockets in *. simpl. rewrite omap_app. simpl. rewrite Hpe in H11, H12.
    destruct (c_endpoint c); simpl in *; rewrite ?app_nil_r, <- ?app_assoc; done.
Qed.

Lemma accepting_run_finalizer n e e' : inv e → run_finalizer n e = Some e' → inv e'.
Proof.
  unfold run_finalizer. intros I. destruct (finalizers e !! n) as [j|] eqn:Ej; [|done].
  intros [= <-]. set (e1 := mk _ _ _ _ _ _ _ _ _ _). pose proof (delete_Permutation _ _ _ Ej) as Hp.
  assert (∀ k, k ∈ finalizers e ↔ k = j ∨ k ∈ delete n (finalizers e)) as Hin.
  { intros k. rewrite <- elem_of_cons. by apply elem_of_Permutation_proper. }
  destruct (inv_final _ _ I j) as (p & -> & Hlog); [apply Hin; by left|].
  unfold on_completed. simpl. destruct (m_create_operations e) as [|d l] eqn:Hq.
  { destruct I as [H1 H2 H3 H4 H5 H6 H7 H8 H9 H10 H11 Hw]. rewrite Hq in *. split; try done; simpl; rewrite ?Hq; try done.
    - rewrite <- H1. unfold accounted. simpl. by rewrite Hq.
    - intros k Hk. apply H9, Hin. by right. }
  assert (id d = Z.of_nat (op d)) as Hid by (apply (inv_queue _ _ I); rewrite Hq; by left).
  case_decide as Hd.
  - (* the oldest has ended, so that no accept is under way *)
    assert (op d = p) as Hop by lia.
    assert (m_acceptor e = []) as Ha.
    { destruct (m_acceptor e) as [|[q a] acc] eqn:Ea; [done|]. exfalso.
      destruct (inv_accepts _ _ I q) as (d' & Hd' & Hq'); [rewrite Ea; by left|]. rewrite Hq in Hd'. simplify_eq/=.
      pose proof (accounted_once _ _ (op d') I) as H1. unfold accounted in H1. apply occ_elem in Hlog.
      rewrite !occ_app, Ea, fmap_cons, occ_cons, decide_True in H1 by done. lia. }
    assert (inv_gone (op <$> l) (with_queue [] e1)) as I1.
    { destruct I as [H1 H2 H3 H4 H5 H6 H7 H8 H9 H10 H11 Hw]. split; try done; simpl in *; rewrite ?Ha, ?Hq in *; try done.
      - rewrite <- H1. unfold accounted. simpl. rewrite Hq, Ha. simpl. by rewrite app_nil_r.
      - intros d' Hd'. by apply elem_of_nil in Hd'.
      - intros d' Hd'. by apply elem_of_nil in Hd'.
      - intros q (d' & -> & Hd')%list_elem_of_fmap. by apply H6.
      - intros q Hq'. by apply elem_of_nil in Hq'.
      - intros k Hk. apply H9, Hin. by right. }
    destruct l as [|d' l]; [exact (accepting_with_timer _ _ _ I1)|].
    apply (inv_op_start d' l (with_timer (cancel_timer d (m_timer e)) (with_queue [] e1))); [exact (accepting_with_timer _ _ _ I1)|done|].
    intros d0 Hd0. apply (inv_queue _ _ I). rewrite Hq. by right.
  - destruct I as [H1 H2 H3 H4 H5 H6 H7 H8 H9 H10 H11 Hw]. rewrite Hq in *. split; try done; simpl; rewrite ?Hq; try done.
    + rewrite <- H1. unfold accounted. simpl. by rewrite Hq.
    + intros d' [= <-]. destruct (H5 d eq_refl) as (Hs & Hl & Hdr). split_and!; [done..|]. unfold driven in *. simpl.
      rewrite Hin in Hdr. tauto.
    + intros k Hk. apply H9, Hin. by right.
Qed.

Lemma accepting_step e e' : inv e → step e e' → inv e'.
Proof.
  intros I Hs. destruct Hs as [cid tmo Hb|cid|ok e' Hs|oec e' Hs|i e' Hs|n e' Hs|k|k e' Hs].
  - by apply inv_create_pipe.
  - by apply accepting_cancel_pending.
  - by eapply inv_accept_ends.
  - by eapply inv_on_accept.
  - by eapply accepting_complete.
  - by eapply accepting_run_finalizer.
  - by apply accepting_with_timer.
  - revert Hs. unfold run_timer. destruct (MultipleTimer.run_handler k (m_timer e)) as [[[i|] t]|]; [..|done];
      intros [= <-]; [apply inv_on_timeout|]; by apply accepting_with_timer.
Qed.

(** A state that the constructor gave and steps reached. *)
Definition reachable (e : impl) : Prop := ∃ port e0, create port true true = inr e0 ∧ rtc step e0 e.

Lemma accepting_reachable e : reachable e → inv e.
Proof.
  intros (port & e0 & Hc & Hr). revert Hr. apply rtc_invariant; [|apply accepting_step].
  unfold create in Hc. case_decide; simplify_eq/=. split; simpl; try done.
  - intros d Hd. by apply elem_of_nil in Hd.
  - intros p Hp. lia.
  - intros d Hd. by apply elem_of_nil in Hd.
  - intros p Hp. by apply elem_of_nil in Hp.
  - intros p Hp. by apply elem_of_nil in Hp.
  - intros p Hp. by apply elem_of_nil in Hp.
  - intros p Hp. by apply elem_of_nil in Hp.
  - split; constructor.
  - intros p Hp. by apply elem_of_nil in Hp.
Qed.

(** Cancelling everything leaves nothing to wait for. *)
Lemma cancel_head_aborts by_timer d e :
  inv e → head (m_create_operations e) = Some d → ∀ p, (p, Accepting) ∉ m_acceptor (cancel_and_decide by_timer (op d) e).
Proof.
  intros I Hd p Hp. destruct (inv_head _ _ I d Hd) as ((o & Ho & Hs) & _). revert Hp.
  unfold cancel_and_decide, op_cancel. rewrite Ho. destruct (m_was_canceled o) eqn:Ec; simpl.
  - intros Hp. destruct (inv_waiting _ _ I p Hp) as (o' & Ho' & Hc').
    apply (list_elem_of_fmap_2 fst), (inv_accepts _ _ I) in Hp as (d' & Hd' & Hp). rewrite Hd in Hd'. simplify_eq/=. congruence.
  - rewrite Hs. simpl. intros ([q a] & E & _)%list_elem_of_fmap. by destruct a.
Qed.

Lemma destroy_drains e :
  inv e → (∀ p, (p, Accepting) ∉ m_acceptor (destroy e)) ∧ tail (m_create_operations (destroy e)) = [].
Proof.
  intros I. unfold destroy, cancel_pending_server_endpoints. destruct (m_create_operations e) as [|d l] eqn:Hq.
  { split; [|by rewrite Hq]. intros p Hp. rewrite (accepts_empty _ _ I Hq) in Hp. by apply elem_of_nil in Hp. }
  set (kept := filter _ l). set (lost := filter _ l).
  assert (kept = []) as Hk.
  { unfold kept. clear. induction l as [|d' l IH]; [done|]. rewrite filter_cons, decide_False; [done|]. intros Hn. by apply Hn. }
  assert (inv (foldl cancel_operation (with_queue (d :: kept) e) (reverse lost))) as I'.
  { apply inv_cancel_operations. simpl. apply (accepting_leave d l); [done..|].
    rewrite reverse_Permutation. symmetry. apply filter_app_complement. }
  simpl. split.
  - apply (cancel_head_aborts false); [by apply accepting_with_timer|]. simpl. by rewrite queue_cancel_operations.
  - by rewrite queue_cancel_operation, queue_cancel_operations, Hk.
Qed.

(** C23: the server environment.  Every promise of [create_pipe] is in exactly one
    place: completed, about to be completed, its accept under way, or waiting
    in the queue behind the oldest; so it is completed at most once.  A
    completion carries an endpoint exactly when it succeeded, and no socket is
    handed out twice.  The queue never stalls: its oldest operation has an
    accept under way, or is being completed, or its successor is about to be
    started, and only the oldest accepts.  When nothing is under way every
    promise was completed.  Destroying the environment leaves no accept that
    waits for a client and nobody in the queue behind the oldest. *)
Theorem tcp_server_env_serves e :
  reachable e →
  ((c_promise <$> log e) ++ (c_promise <$> completing e) ++ (fst <$> m_acceptor e) ++ (op <$> tail (m_create_operations e))
     ≡ₚ seq 0 (next_promise e)) ∧
  (∀ c, c ∈ log e → c_result c = PipeWaitRes.success ↔ is_Some (c_endpoint c)) ∧ NoDup (omap c_endpoint (log e)) ∧
  (∀ d rest, m_create_operations e = d :: rest →
     op d ∈ fst <$> m_acceptor e ∨ op d ∈ c_promise <$> completing e ∨ id d ∈ finalizers e) ∧
  (length (m_acceptor e) ≤ 1)%nat ∧
  (m_acceptor e = [] → completing e = [] → finalizers e = [] → c_promise <$> log e ≡ₚ seq 0 (next_promise e)) ∧
  (∀ p, (p, Accepting) ∉ m_acceptor (destroy e)) ∧ tail (m_create_operations (destroy e)) = [].
Proof.
  intros I%accepting_reachable. split_and!.
  - exact (inv_once _ _ I).
  - intros c Hc. pose proof (inv_good _ _ I c) as Hg. unfold good_completion in Hg. rewrite elem_of_app in Hg.
    specialize (Hg (or_introl Hc)). destruct (c_endpoint c); [by destruct Hg|]. split; [done|by intros []].
  - destruct (inv_sockets _ _ I) as [Hn _]. unfold sockets in Hn. by apply NoDup_app in Hn as [Hn _].
  - intros d rest Hq. apply (inv_head _ _ I). by rewrite Hq.
  - destruct (m_acceptor e) as [|[p a] [|[q b] acc]] eqn:Ea; simpl; [lia|lia|]. exfalso.
    destruct (inv_accepts _ _ I p) as (d & Hd & Hp); [rewrite Ea; by left|].
    destruct (inv_accepts _ _ I q) as (d' & Hd' & Hq); [rewrite Ea; right; by left|].
    assert (p = q) as <- by congruence. pose proof (accounted_once _ _ p I) as H1. unfold accounted in H1. rewrite Ea in H1.
    rewrite !occ_app in H1. cbn [fmap list_fmap fst] in H1. rewrite !occ_cons, decide_True in H1 by done. lia.
  - intros Ha Hc Hf. pose proof (inv_once _ _ I) as H1. unfold accounted in H1. rewrite Ha, Hc in H1. simpl in H1.
    destruct (m_create_operations e) as [|d l] eqn:Hq; [by rewrite app_nil_r in H1|]. exfalso.
    destruct (inv_head _ _ I d) as (_ & _ & Hdr); [by rewrite Hq|]. unfold driven in Hdr. rewrite Ha, Hc, Hf in Hdr.
    destruct Hdr as [H|[H|H]]; by apply elem_of_nil in H.
  - apply destroy_drains, I.
  - apply destroy_drains, I.
Qed.

(** Two servers wait, a client comes, and the first gets it. *)
Definition served : option impl :=
  match create 8080 true true with
  | inl _ => None
  | inr e =>
      let e := create_pipe 2 None (create_pipe 1 None e) in
      e ← accept_ends true e; e ← on_accept false e; e ← complete 0 e; run_finalizer 0 e
  end.

Lemma tcp_server_env_serves_witness :
  ∃ e, served = Some e ∧ log e = [Completion 0 PipeWaitRes.success (Some 0%nat)] ∧
       (op <$> m_create_operations e) = [1%nat] ∧ NoDup (omap c_endpoint (log e)).
Proof.
  eexists. split; [vm_compute; reflexivity|]. split; [reflexivity|]. split; [reflexivity|].
  refine (proj1 (proj2 (proj2 (tcp_server_env_serves _ _)))). eexists 8080, _. split; [reflexivity|].
  eapply rtc_l; [by apply (step_create _ 1 None)|]. eapply rtc_l; [by apply (step_create _ 2 None)|].
  eapply rtc_l; [by eapply (step_accept _ true)|]. eapply rtc_l; [by eapply (step_on_accept _ false)|].
  eapply rtc_l; [by eapply (step_complete _ 0)|]. eapply rtc_l; [by eapply (step_finalize _ 0)|]. apply rtc_refl.
Defined.
