(* ===== verification/TcpClientEnv.v ===== *)
(** * The client environment of TCP pipes

    [tcp_pipe_client_env]: every operation connects a socket of its own.  A map
    holds the operations until the [finally] callback of their future has run,
    so that a timeout or a cancellation finds them. *)
From S2P Require Import Prelude RpcTypes Timer.
Local Open Scope Z_scope.

Module TcpClientEnv.
Abbreviation timer := (MultipleTimer.multiple_timer Z).

(** ** open_operation

    [on_completed] is what its [finally] callback captures. *)
Record open_operation : Type := OpenOperation {
  m_client_id : Z;
  m_is_socket_valid : bool;
  m_was_canceled : bool;
  m_canceled_by_timer : bool;
  on_completed : Z * option Z
}.

(** A connect that asio holds: under way, or its handler queued with or without
    an error. *)
Inductive connect : Type := Connecting | Connected (ec : bool).

(** The endpoint is named by the operation whose socket it got. *)
Record completion : Type := Completion {
  c_promise : nat;
  c_result : PipeWaitRes.pipe_wait_res;
  c_endpoint : option nat
}.

Record impl : Type := mk {
  m_next_id : Z;
  m_open_operations : gmap Z nat;
  m_timer : timer;
  ops : gmap nat open_operation;
  connects : gmap nat connect;
  completing : list completion;
  finalizers : list (Z * option Z);
  log : list completion;
  next_promise : nat
}.

Definition with_timer (t : timer) (e : impl) : impl :=
  mk (m_next_id e) (m_open_operations e) t (ops e) (connects e) (completing e) (finalizers e) (log e) (next_promise e).
Definition with_ops (os : gmap nat open_operation) (cs : gmap nat connect) (e : impl) : impl :=
  mk (m_next_id e) (m_open_operations e) (m_timer e) os cs (completing e) (finalizers e) (log e) (next_promise e).

Definition create (is_valid_ipv4 : bool) (port : Z) : exn + impl :=
  if negb is_valid_ipv4 then inl invalid_argument
  else if decide (65535 < port) then inl invalid_argument
  else inr (mk 0 ∅ MultipleTimer.create ∅ ∅ [] [] [] 0).

Definition wait_result (by_timer : bool) : PipeWaitRes.pipe_wait_res :=
  if by_timer then PipeWaitRes.timeout else PipeWaitRes.canceled.

(** A future that is ready from the start. *)
Definition ready (p : nat) (r : PipeWaitRes.pipe_wait_res) (e : impl) : impl :=
  match ops e !! p with
  | Some o => mk (m_next_id e) (m_open_operations e) (m_timer e) (ops e) (connects e) (completing e)
                 (finalizers e ++ [on_completed o]) (log e ++ [Completion p r None]) (next_promise e)
  | None => e
  end.

(** The outcome of opening the socket and setting its options. *)
Record socket_outcome : Type := SocketOutcome { open_ec : bool; no_delay_ec : bool; keep_alive_ec : bool }.

Definition start (p : nat) (s : socket_outcome) (e : impl) : impl :=
  match ops e !! p with
  | None => e
  | Some o =>
      if m_was_canceled o then ready p (wait_result (m_canceled_by_timer o)) e
      else if open_ec s then ready p PipeWaitRes.failed e
      else if no_delay_ec s then ready p PipeWaitRes.failed e
      else if keep_alive_ec s then ready p PipeWaitRes.failed e
      else with_ops (ops e) (<[p := Connecting]> (connects e)) e
  end.

(** [socket::close] ends a connect that is under way with an error. *)
Definition abort_connect (c : connect) : connect := match c with Connecting => Connected true | c => c end.

Definition cancel (by_timer : bool) (p : nat) (e : impl) : impl :=
  match ops e !! p with
  | None => e
  | Some o =>
      if m_was_canceled o then e
      else with_ops
             (<[p := OpenOperation (m_client_id o) (m_is_socket_valid o) true by_timer (on_completed o)]> (ops e))
             (if m_is_socket_valid o then alter abort_connect p (connects e) else connects e) e
  end.

(** The handler of the connect of [p]: what is decided under the mutex ... *)
Definition on_connect (p : nat) (e : impl) : option impl :=
  match connects e !! p, ops e !! p with
  | Some (Connected ec), Some o =>
      let '(r, ep, valid) :=
        if m_was_canceled o then (wait_result (m_canceled_by_timer o), None, m_is_socket_valid o)
        else if (ec : bool) then (PipeWaitRes.failed, None, m_is_socket_valid o)
        else (PipeWaitRes.success, Some p, false) in
      Some (mk (m_next_id e) (m_open_operations e) (m_timer e)
               (<[p := OpenOperation (m_client_id o) valid (m_was_canceled o) (m_canceled_by_timer o) (on_completed o)]> (ops e))
               (delete p (connects e)) (completing e ++ [Completion p r ep]) (finalizers e) (log e) (next_promise e))
  | _, _ => None
  end.

(** ... and the promise, which is completed without it. *)
Definition complete (i : nat) (e : impl) : option impl :=
  match completing e !! i with
  | Some c =>
      match ops e !! c_promise c with
      | Some o => Some (mk (m_next_id e) (m_open_operations e) (m_timer e) (ops e) (connects e) (delete i (completing e))
                           (finalizers e ++ [on_completed o]) (log e ++ [c]) (next_promise e))
      | None => None
      end
  | None => None
  end.

(** ** The environment *)
Definition open_pipe (cid : Z) (timeout : option Z) (s : socket_outcome) (e : impl) : impl :=
  let i := m_next_id e in
  let p := next_promise e in
  let '(tid, t) :=
    match timeout with
    | Some _ => let '(k, t) := MultipleTimer.start i (m_timer e) in (Some k, t)
    | None => (None, m_timer e)
    end in
  start p s (mk (u64 (i + 1)) (<[i := p]> (m_open_operations e)) t
                (<[p := OpenOperation cid true false false (i, tid)]> (ops e)) (connects e) (completing e)
                (finalizers e) (log e) (S p)).

Definition on_timeout (i : Z) (e : impl) : impl :=
  match m_open_operations e !! i with Some p => cancel true p e | None => e end.

Definition run_finalizer (n : nat) (e : impl) : option impl :=
  match finalizers e !! n with
  | None => None
  | Some (i, tid) =>
      let t := match tid with Some k => MultipleTimer.cancel k (m_timer e) | None => m_timer e end in
      Some (mk (m_next_id e) (delete i (m_open_operations e)) t (ops e) (connects e) (completing e)
               (delete n (finalizers e)) (log e) (next_promise e))
  end.

Definition selected (cid : option Z) (e : impl) (p : nat) : bool :=
  match cid, ops e !! p with
  | None, _ => true
  | Some c, Some o => bool_decide (m_client_id o = c)
  | Some _, None => false
  end.
Definition cancel_pending_client_endpoints (cid : option Z) (e : impl) : impl :=
  foldl (λ e' p, if selected cid e p then cancel false p e' else e') e (snd <$> map_to_list (m_open_operations e)).
(** [~tcp_pipe_client_env]. *)
Definition destroy (e : impl) : impl := cancel_pending_client_endpoints None e.

Definition run_timer (k : Z) (e : impl) : option impl :=
  match MultipleTimer.run_handler k (m_timer e) with
  | None => None
  | Some (fired, t) =>
      Some (match fired with Some i => on_timeout i (with_timer t e) | None => with_timer t e end)
  end.

(** The operating system connects the socket, or fails to. *)
Definition connect_ends (p : nat) (ec : bool) (e : impl) : option impl :=
  match connects e !! p with
  | Some Connecting => Some (with_ops (ops e) (<[p := Connected ec]> (connects e)) e)
  | _ => None
  end.

(** Identifiers are not used up within a run. *)
Inductive step (e : impl) : impl → Prop :=
| step_open cid timeout s : m_next_id e < 2 ^ 64 - 1 → step e (open_pipe cid timeout s e)
| step_cancel cid : step e (cancel_pending_client_endpoints cid e)
| step_connect p ec e' : connect_ends p ec e = Some e' → step e e'
| step_on_connect p e' : on_connect p e = Some e' → step e e'
| step_complete i e' : complete i e = Some e' → step e e'
| step_finalize n e' : run_finalizer n e = Some e' → step e e'
| step_expire k : step e (with_timer (MultipleTimer.expire k (m_timer e)) e)
| step_timer k e' : run_timer k e = Some e' → step e e'.
End TcpClientEnv.
