(* ===== verification/TcpClientEnvFacts.v ===== *)
(** * Correctness of the client environment of TCP pipes

    Every promise is completed exactly once, a pending operation is always
    found by a timeout or a cancellation, and the map does not grow for ever. *)
From S2P Require Import Prelude RpcTypes Timer TcpClientEnv.
Import TcpClientEnv.
Local Open Scope Z_scope.

(** The promises whose result is decided. *)
Definition decided (e : impl) : list nat := c_promise <$> log e ++ completing e.
Definition connecting (e : impl) (p : nat) : Prop := is_Some (connects e !! p).

Definition good_completion (c : completion) : Prop :=
  match c_endpoint c with
  | Some s => c_result c = PipeWaitRes.success ∧ s = c_promise c
  | None => c_result c ≠ PipeWaitRes.success
  end.

(** [limbo] are operations that are neither decided nor connecting yet. *)
Record inv_limbo (limbo : list nat) (e : impl) : Prop := {
  inv_nodup : NoDup (limbo ++ decided e);
  inv_all p : (p < next_promise e)%nat ↔ p ∈ limbo ∨ p ∈ decided e ∨ connecting e p;
  inv_disjoint p : connecting e p → (p ∉ limbo) ∧ p ∉ decided e;
  inv_next : m_next_id e = Z.of_nat (next_promise e) ∧ m_next_id e < 2 ^ 64;
  inv_ops p : (p < next_promise e)%nat → ∃ o, ops e !! p = Some o ∧ (on_completed o).1 = Z.of_nat p;
  inv_map i p : m_open_operations e !! i = Some p →
    i = Z.of_nat p ∧ (p ∈ limbo ∨ connecting e p ∨ p ∈ c_promise <$> completing e ∨ i ∈ fst <$> finalizers e);
  inv_pending p : p ∈ limbo ∨ connecting e p ∨ p ∈ c_promise <$> completing e → m_open_operations e !! Z.of_nat p = Some p;
  inv_final i : i ∈ fst <$> finalizers e → ∃ p, i = Z.of_nat p ∧ p ∈ c_promise <$> log e;
  inv_good c : c ∈ log e ++ completing e → good_completion c;
  inv_waiting p : connects e !! p = Some Connecting →
    ∃ o, ops e !! p = Some o ∧ m_was_canceled o = false ∧ m_is_socket_valid o = true
}.
Abbreviation inv := (inv_limbo []).

Lemma opening_with_timer t e : inv e → inv (with_timer t e).
Proof. by intros []. Qed.

(** ** Cancelling *)
Lemma inv_cancel by_timer p e : inv e → inv (cancel by_timer p e).
Proof.
  intros I. unfold cancel. destruct (ops e !! p) as [o|] eqn:Eo; [|done]. destruct (m_was_canceled o) eqn:Ec; [done|].
  set (cs := if m_is_socket_valid o then _ else _). set (o' := OpenOperation _ _ _ _ _).
  assert (∀ q, is_Some (cs !! q) ↔ connecting e q) as Hcs.
  { intros q. unfold cs, connecting. destruct (m_is_socket_valid o); [|done]. apply lookup_alter_is_Some. }
  destruct I as [H1 H2 H3 H4 H5 H6 H7 H8 H9 H10].
  split; try done; unfold connecting in *; simpl in *; try setoid_rewrite Hcs; try done.
  - intros q Hq. destruct (H5 q Hq) as (oq & Hoq & Hi).
    destruct (decide (q = p)) as [->|Hne]; [rewrite lookup_insert_eq|rewrite lookup_insert_ne by done; eauto].
    rewrite Eo in Hoq. simplify_eq. eexists. by split.
  - intros q Hq. destruct (decide (q = p)) as [->|Hne].
    + exfalso. unfold cs in Hq. destruct (m_is_socket_valid o) eqn:Ev.
      * rewrite lookup_alter_eq in Hq. destruct (connects e !! p) as [[]|]; simplify_eq/=.
      * destruct (H10 p Hq) as (oq & Hoq & _ & Hv). congruence.
    + rewrite lookup_insert_ne by done. apply H10. unfold cs in Hq. destruct (m_is_socket_valid o); [|done].
      by rewrite lookup_alter_ne in Hq.
Qed.

Lemma opening_cancel_pending cid e : inv e → inv (cancel_pending_client_endpoints cid e).
Proof.
  intros I. unfold cancel_pending_client_endpoints. generalize (selected cid e). intros sel.
  generalize (snd <$> map_to_list (m_open_operations e)). intros ps. revert e I.
  induction ps as [|p ps IH]; intros e I; [done|]. simpl. apply IH. destruct (sel p); [by apply inv_cancel|done].
Qed.

(** ** Operations in limbo *)
Lemma limbo_lt p e : inv_limbo [p] e → (p < next_promise e)%nat.
Proof. intros I. apply (inv_all _ _ I). left. by left. Qed.

(** A new operation ... *)
Lemma opening_new i p tid cid t e :
  inv e → i = m_next_id e → p = next_promise e → i < 2 ^ 64 - 1 →
  inv_limbo [p] (mk (u64 (i + 1)) (<[i := p]> (m_open_operations e)) t
                    (<[p := OpenOperation cid true false false (i, tid)]> (ops e)) (connects e) (completing e)
                    (finalizers e) (log e) (S p)).
Proof.
  intros I -> -> Hb. pose proof (inv_next _ _ I) as [Hn _]. set (p := next_promise e) in *.
  assert (∀ q, q ∈ decided e ∨ connecting e q → q ≠ p) as Hne.
  { intros q Hq ->. assert (p < next_promise e)%nat; [|lia]. apply (inv_all _ _ I). by right. }
  destruct I as [H1 H2 H3 H4 H5 H6 H7 H8 H9 H10]. unfold decided, connecting in *.
  split; unfold decided, connecting in *; simpl; try done.
  - apply NoDup_cons. split; [|done]. intros Hin. by apply (Hne p); [left|].
  - intros q. rewrite list_elem_of_singleton. specialize (H2 q). rewrite elem_of_nil in H2. split.
    + intros Hq. destruct (decide (q = p)); [auto|]. assert (q < next_promise e)%nat as Hl by lia. apply H2 in Hl. tauto.
    + intros [->|Hq]; [lia|]. assert (q < next_promise e)%nat; [|lia]. tauto.
  - intros q Hq. rewrite list_elem_of_singleton. split; [by apply Hne; right|by apply H3].
  - rewrite wrap_small by lia. lia.
  - intros q Hq. destruct (decide (q = p)) as [->|Hqp]; [rewrite lookup_insert_eq|rewrite lookup_insert_ne by done; apply H5; lia].
    eexists. split; [done|]. simpl. lia.
  - intros j q. destruct (decide (j = m_next_id e)) as [->|Hji]; [rewrite lookup_insert_eq|rewrite lookup_insert_ne by done].
    + intros [= <-]. split; [lia|]. left. by left.
    + intros [-> Hor]%H6. rewrite elem_of_nil in Hor. split; [done|tauto].
  - intros q. rewrite list_elem_of_singleton. intros [->|Hq]; [rewrite Hn; apply lookup_insert_eq|].
    rewrite lookup_insert_ne; [by apply H7; right|]. intros E. apply (Hne q); [|lia]. rewrite fmap_app, elem_of_app. tauto.
  - intros q Hq. rewrite lookup_insert_ne; [by apply H10|]. intros E. by apply (Hne q); [right|].
Qed.

(** ... whose future is ready from the start, ... *)
Lemma inv_ready p r e : inv_limbo [p] e → r ≠ PipeWaitRes.success → inv (ready p r e).
Proof.
  intros I Hr. unfold ready. destruct (inv_ops _ _ I p (limbo_lt _ _ I)) as (o & Ho & Hi). rewrite Ho.
  destruct I as [H1 H2 H3 H4 H5 H6 H7 H8 H9 H10]. unfold decided, connecting in *.
  split; unfold decided, connecting in *; simpl; try done.
  - eapply (NoDup_Permutation_proper _ (p :: (c_promise <$> log e ++ completing e))); [|done].
    rewrite !fmap_app. simpl. solve_Permutation.
  - intros q. rewrite H2, !fmap_app, !elem_of_app. simpl. rewrite !list_elem_of_singleton, elem_of_nil. tauto.
  - intros q Hq. split; [apply not_elem_of_nil|]. destruct (H3 q Hq) as [Hl Hd]. revert Hl Hd.
    rewrite !fmap_app, !elem_of_app. simpl. rewrite list_elem_of_singleton. tauto.
  - intros j q [-> Hor]%H6. split; [done|]. rewrite fmap_app, elem_of_app. simpl. rewrite !list_elem_of_singleton in *. rewrite Hi.
    destruct Hor as [->|Hor]; tauto.
  - intros q. rewrite elem_of_nil. intros Hq. apply H7. tauto.
  - intros j. rewrite !fmap_app, elem_of_app. simpl. rewrite list_elem_of_singleton. intros [(q & -> & Hq)%H8| ->].
    + exists q. rewrite elem_of_app. auto.
    + exists p. rewrite elem_of_app, list_elem_of_singleton. auto.
  - intros c. rewrite !elem_of_app, list_elem_of_singleton. specialize (H9 c). rewrite elem_of_app in H9. intros [[Hc| ->]|Hc]; auto; done.
Qed.

(** ... or that starts to connect, ... *)
Lemma inv_connect p o e :
  inv_limbo [p] e → ops e !! p = Some o → m_was_canceled o = false → m_is_socket_valid o = true →
  inv (with_ops (ops e) (<[p := Connecting]> (connects e)) e).
Proof.
  intros [H1 H2 H3 H4 H5 H6 H7 H8 H9 H10] Ho Hc Hv.
  assert (∀ q, is_Some (<[p := Connecting]> (connects e) !! q) ↔ q = p ∨ connecting e q) as Hcon.
  { intros q. unfold connecting. destruct (decide (q = p)) as [->|Hq]; [rewrite lookup_insert_eq|rewrite lookup_insert_ne by done].
    - split; eauto.
    - tauto. }
  split; unfold decided, connecting in *; simpl; try done; try (setoid_rewrite Hcon).
  - by apply NoDup_cons in H1 as [_ H1].
  - intros q. rewrite H2, list_elem_of_singleton, elem_of_nil. tauto.
  - intros q. rewrite elem_of_nil. intros [->|Hq]; [|split; [tauto|by apply H3]].
    apply NoDup_cons in H1 as [H1 _]. tauto.
  - intros j q [-> Hor]%H6. rewrite list_elem_of_singleton in Hor. tauto.
  - intros q. rewrite elem_of_nil. intros Hq. apply H7. rewrite list_elem_of_singleton. tauto.
  - intros q Hq. destruct (decide (q = p)) as [->|Hqp]; [eauto|]. rewrite lookup_insert_ne in Hq by done. by apply H10.
Qed.

(** ... or whose handler has decided. *)
Lemma inv_decide c e :
  inv_limbo [c_promise c] e → good_completion c →
  inv (mk (m_next_id e) (m_open_operations e) (m_timer e) (ops e) (connects e) (completing e ++ [c]) (finalizers e) (log e)
          (next_promise e)).
Proof.
  intros [H1 H2 H3 H4 H5 H6 H7 H8 H9 H10] Hg. unfold decided, connecting in *.
  split; unfold decided, connecting in *; simpl; try done.
  - eapply (NoDup_Permutation_proper _ (c_promise c :: (c_promise <$> log e ++ completing e))); [|done].
    rewrite !fmap_app. simpl. solve_Permutation.
  - intros q. rewrite H2, !fmap_app, !elem_of_app. simpl. rewrite !list_elem_of_singleton, elem_of_nil. tauto.
  - intros q Hq. split; [apply not_elem_of_nil|]. destruct (H3 q Hq) as [Hl Hd]. revert Hl Hd.
    rewrite !fmap_app, !elem_of_app. simpl. rewrite list_elem_of_singleton. tauto.
  - intros j q [-> Hor]%H6. split; [done|]. rewrite fmap_app, elem_of_app. simpl. rewrite !list_elem_of_singleton in *. tauto.
  - intros q. rewrite fmap_app, elem_of_app, elem_of_nil. simpl. rewrite list_elem_of_singleton. intros Hq. apply H7.
    rewrite list_elem_of_singleton. tauto.
  - intros c'. rewrite !elem_of_app, list_elem_of_singleton. specialize (H9 c'). rewrite elem_of_app in H9.
    intros [Hc|[Hc| ->]]; auto; done.
Qed.

(** ** Steps *)
Lemma inv_open_pipe cid timeout s e : inv e → m_next_id e < 2 ^ 64 - 1 → inv (open_pipe cid timeout s e).
Proof.
  intros I Hb. unfold open_pipe. destruct (match timeout with Some _ => _ | None => _ end) as [tid t].
  pose proof (opening_new (m_next_id e) (next_promise e) tid cid t e I eq_refl eq_refl Hb) as I'.
  unfold start. simpl. rewrite lookup_insert_eq. simpl.
  destruct (open_ec s); [by apply inv_ready|]. destruct (no_delay_ec s); [by apply inv_ready|].
  destruct (keep_alive_ec s); [by apply inv_ready|].
  eapply (inv_connect _ (OpenOperation cid true false false (m_next_id e, tid)) _ I'); [apply lookup_insert_eq|done..].
Qed.

Lemma inv_connect_ends p ec e e' : inv e → connect_ends p ec e = Some e' → inv e'.
Proof.
  unfold connect_ends. intros I. destruct (connects e !! p) as [[]|] eqn:Ec; [|done..]. intros [= <-].
  assert (∀ q, is_Some (<[p := Connected ec]> (connects e) !! q) ↔ connecting e q) as Hcon.
  { intros q. unfold connecting. destruct (decide (q = p)) as [->|Hq]; [rewrite lookup_insert_eq, Ec|by rewrite lookup_insert_ne].
    split; eauto. }
  destruct I as [H1 H2 H3 H4 H5 H6 H7 H8 H9 H10].
  split; unfold connecting in *; simpl; try done; try setoid_rewrite Hcon; try done.
  intros q Hq. destruct (decide (q = p)) as [->|Hqp]; [by rewrite lookup_insert_eq in Hq|].
  rewrite lookup_insert_ne in Hq by done. by apply H10.
Qed.

Lemma inv_on_connect p e e' : inv e → on_connect p e = Some e' → inv e'.
Proof.
  unfold on_connect. intros I. destruct (connects e !! p) as [[|ec]|] eqn:Ec; [done| |done].
  destruct (ops e !! p) as [o|] eqn:Eo; [|done].
  destruct (if m_was_canceled o then _ else _) as [[r ep] valid] eqn:Er. intros [= <-].
  set (o' := OpenOperation _ valid _ _ _).
  assert (inv_limbo [p] (with_ops (<[p := o']> (ops e)) (delete p (connects e)) e)) as I'.
  { destruct I as [H1 H2 H3 H4 H5 H6 H7 H8 H9 H10].
    assert (connecting e p) as Hcp by (by eexists).
    assert (∀ q, is_Some (delete p (connects e) !! q) ↔ q ≠ p ∧ connecting e q) as Hcon.
    { intros q. unfold connecting. rewrite lookup_delete_is_Some. split; (intros [? ?]; split; [congruence|done]). }
    split; unfold connecting in *; simpl; try done; try setoid_rewrite Hcon.
    - apply NoDup_cons. split; [by apply H3|done].
    - intros q. rewrite H2, elem_of_nil, list_elem_of_singleton. unfold decided. simpl. destruct (decide (q = p)) as [->|]; tauto.
    - intros q [Hne Hq]. rewrite list_elem_of_singleton. split; [done|by apply H3].
    - intros q Hq. destruct (H5 q Hq) as (oq & Hoq & Hi). destruct (decide (q = p)) as [->|Hne];
        [rewrite lookup_insert_eq|rewrite lookup_insert_ne by done; eauto]. rewrite Eo in Hoq. simplify_eq. eexists. by split.
    - intros j q [-> Hor]%H6. rewrite list_elem_of_singleton. rewrite elem_of_nil in Hor. destruct (decide (q = p)); tauto.
    - intros q. rewrite list_elem_of_singleton. intros Hq. apply H7. destruct Hq as [->|]; tauto.
    - intros q Hq. apply lookup_delete_Some in Hq as [Hne Hq]. rewrite lookup_insert_ne by done. by apply H10. }
  apply (inv_decide (Completion p r ep) _ I'). unfold good_completion. simpl.
  unfold wait_result in Er. repeat case_match; simplify_eq/=; auto.
Qed.

Lemma opening_complete i e e' : inv e → complete i e = Some e' → inv e'.
Proof.
  unfold complete. intros I. destruct (completing e !! i) as [c|] eqn:Ec; [|done].
  pose proof (delete_Permutation _ _ _ Ec) as Hp. pose proof (fmap_Permutation c_promise _ _ Hp) as Hpp.
  assert (∀ q, q ∈ c_promise <$> completing e ↔ q = c_promise c ∨ q ∈ c_promise <$> delete i (completing e)) as Hin.
  { intros q. rewrite <- elem_of_cons. by apply elem_of_Permutation_proper. }
  assert (c_promise c < next_promise e)%nat as Hlt.
  { apply (inv_all _ _ I). right. left. unfold decided. rewrite fmap_app, elem_of_app, Hin. auto. }
  destruct (inv_ops _ _ I _ Hlt) as (o & Ho & Hi). rewrite Ho. intros [= <-].
  destruct I as [H1 H2 H3 H4 H5 H6 H7 H8 H9 H10]. unfold decided, connecting in *.
  assert (∀ q, q ∈ c_promise <$> (log e ++ [c]) ++ delete i (completing e) ↔ q ∈ c_promise <$> log e ++ completing e) as Hdec.
  { intros q. rewrite !fmap_app, !elem_of_app, Hin. simpl. rewrite list_elem_of_singleton. tauto. }
  split; unfold decided, connecting in *; simpl; try done; try setoid_rewrite Hdec; try done.
  - eapply NoDup_Permutation_proper, H1. simpl. rewrite !fmap_app, Hpp. simpl. solve_Permutation.
  - intros j q [-> Hor]%H6. split; [done|]. rewrite Hin in Hor. rewrite fmap_app, elem_of_app. simpl.
    rewrite list_elem_of_singleton, Hi. destruct Hor as [?|[?|[[-> |?]|?]]]; tauto.
  - intros q Hq. apply H7. rewrite Hin. tauto.
  - intros j. rewrite !fmap_app, elem_of_app. simpl. rewrite list_elem_of_singleton. intros [(q & -> & Hq)%H8| ->].
    + exists q. rewrite elem_of_app. auto.
    + exists (c_promise c). rewrite elem_of_app, list_elem_of_singleton. auto.
  - intros c' Hc'. apply H9. revert Hc'. rewrite !elem_of_app, list_elem_of_singleton.
    assert (c' ∈ completing e ↔ c' = c ∨ c' ∈ delete i (completing e)) as ->; [|tauto].
    rewrite <- elem_of_cons. by apply elem_of_Permutation_proper.
Qed.

Lemma opening_run_finalizer n e e' : inv e → run_finalizer n e = Some e' → inv e'.
Proof.
  unfold run_finalizer. intros I. destruct (finalizers e !! n) as [[i tid]|] eqn:En; [|done]. intros [= <-].
  pose proof (delete_Permutation _ _ _ En) as Hp.
  assert (∀ j, j ∈ fst <$> finalizers e ↔ j = i ∨ j ∈ fst <$> delete n (finalizers e)) as Hin.
  { intros j. rewrite <- elem_of_cons. change (i :: (fst <$> delete n (finalizers e))) with (fst <$> (i, tid) :: delete n (finalizers e)).
    apply elem_of_Permutation_proper. by apply fmap_Permutation. }
  destruct (inv_final _ _ I i) as (p & -> & Hp'); [apply Hin; by left|].
  destruct I as [H1 H2 H3 H4 H5 H6 H7 H8 H9 H10].
  split; unfold connecting in *; simpl; try done.
  - intros j q [Hne Hq]%lookup_delete_Some. destruct (H6 j q Hq) as [-> Hor]. split; [done|].
    rewrite Hin in Hor. destruct Hor as [?|[?|[?|[?|?]]]]; [tauto..|lia|tauto].
  - intros q Hq. rewrite lookup_delete_ne; [by apply H7|]. intros E. assert (q = p) as -> by lia.
    destruct Hq as [Hq|[Hq|Hq]]; [by apply elem_of_nil in Hq| |].
    + destruct (H3 p Hq) as [_ Hd]. apply Hd. unfold decided. rewrite fmap_app, elem_of_app. by left.
    + apply (occ_NoDup p) in H1. simpl in H1. unfold decided in H1. rewrite fmap_app, occ_app in H1.
      apply occ_elem in Hp', Hq. lia.
  - intros j Hj. apply H8, Hin. by right.
Qed.

Lemma opening_step e e' : inv e → step e e' → inv e'.
Proof.
  intros I Hs. destruct Hs as [cid tmo s Hb|cid|p ec e' Hs|p e' Hs|i e' Hs|n e' Hs|k|k e' Hs].
  - by apply inv_open_pipe.
  - by apply opening_cancel_pending.
  - by eapply inv_connect_ends.
  - by eapply inv_on_connect.
  - by eapply opening_complete.
  - by eapply opening_run_finalizer.
  - by apply opening_with_timer.
  - revert Hs. unfold run_timer. destruct (MultipleTimer.run_handler k (m_timer e)) as [[[i|] t]|]; [..|done];
      intros [= <-]; [|by apply opening_with_timer]. unfold on_timeout. simpl.
    destruct (m_open_operations e !! i); [apply inv_cancel|]; by apply opening_with_timer.
Qed.

Definition reachable (e : impl) : Prop := ∃ port e0, create true port = inr e0 ∧ rtc step e0 e.

Lemma opening_reachable e : reachable e → inv e.
Proof.
  intros (port & e0 & Hc & Hr). revert Hr. apply rtc_invariant; [|apply opening_step].
  unfold create in Hc. simpl in Hc. case_decide; simplify_eq/=. split; unfold connecting, decided; simpl; try done.
  - constructor.
  - intros p. rewrite elem_of_nil, lookup_empty. split; [lia|]. intros [[]|[[]|[x Hx]]]. done.
  - intros p. rewrite lookup_empty. by intros [].
  - intros p Hp. lia.
  - intros p. rewrite elem_of_nil, lookup_empty. intros [[]|[[x Hx]|Hx]]; done.
  - intros i Hi. by apply elem_of_nil in Hi.
  - intros c Hc. by apply elem_of_nil in Hc.
Qed.

(** Cancelling everything leaves nothing to wait for. *)
Lemma cancel_keeps by_timer p q e :
  connects e !! q ≠ Some Connecting → connects (cancel by_timer p e) !! q ≠ Some Connecting.
Proof.
  intros Hq. unfold cancel. destruct (ops e !! p) as [o|]; [|done]. destruct (m_was_canceled o); [done|]. simpl.
  destruct (m_is_socket_valid o); [|done]. destruct (decide (p = q)) as [->|]; [|by rewrite lookup_alter_ne].
  rewrite lookup_alter_eq. by destruct (connects e !! q) as [[]|].
Qed.

Lemma cancel_aborts by_timer p e : inv e → connects (cancel by_timer p e) !! p ≠ Some Connecting.
Proof.
  intros I. unfold cancel. destruct (ops e !! p) as [o|] eqn:Eo.
  2: { intros (o & Ho & _)%(inv_waiting _ _ I). congruence. }
  destruct (m_was_canceled o) eqn:Ec.
  { intros (o' & Ho & Hc & _)%(inv_waiting _ _ I). congruence. }
  simpl. destruct (m_is_socket_valid o) eqn:Ev.
  - rewrite lookup_alter_eq. by destruct (connects e !! p) as [[]|].
  - intros (o' & Ho & _ & Hv)%(inv_waiting _ _ I). congruence.
Qed.

Lemma destroy_aborts e p : inv e → connects (destroy e) !! p ≠ Some Connecting.
Proof.
  intros I. unfold destroy, cancel_pending_client_endpoints. simpl.
  assert (p ∈ (snd <$> map_to_list (m_open_operations e)) ∨ connects e !! p ≠ Some Connecting) as Hp.
  { destruct (connects e !! p) as [[]|] eqn:E; [left|by right..].
    assert (m_open_operations e !! Z.of_nat p = Some p) as Hm by (apply (inv_pending _ _ I); right; left; by eexists).
    apply list_elem_of_fmap. exists (Z.of_nat p, p). split; [done|]. by apply elem_of_map_to_list. }
  revert Hp. generalize (snd <$> map_to_list (m_open_operations e)). intros ps. revert e I.
  induction ps as [|q ps IH]; intros e I Hp; simpl; [by destruct Hp as [Hp|]; [apply elem_of_nil in Hp|]|].
  apply IH; [by apply inv_cancel|]. destruct Hp as [[->|Hp]%elem_of_cons|Hp]; [right; by apply cancel_aborts|by left|right; by apply cancel_keeps].
Qed.

(** C24: the client environment.  Every promise of [open_pipe] is connecting or
    decided, never both, and decided once; exactly the completions that
    succeeded carry an endpoint, the one of their own socket.  An operation that
    is connecting or about to be completed is in the map, so that its timeout
    and a cancellation find it, and the map holds nothing else but operations
    whose [finally] callback is due: when nothing is under way it is empty and
    every promise was completed.  Destroying the environment leaves no connect
    that waits for a server. *)
Theorem tcp_client_env_opens e :
  reachable e →
  NoDup (c_promise <$> log e ++ completing e) ∧
  (∀ p, (p < next_promise e)%nat ↔ p ∈ (c_promise <$> log e ++ completing e) ∨ is_Some (connects e !! p)) ∧
  (∀ p, is_Some (connects e !! p) → (p ∉ (c_promise <$> log e ++ completing e)) ∧ m_open_operations e !! Z.of_nat p = Some p) ∧
  (∀ c, c ∈ log e → c_endpoint c = if decide (c_result c = PipeWaitRes.success) then Some (c_promise c) else None) ∧
  (∀ i p, m_open_operations e !! i = Some p →
     is_Some (connects e !! p) ∨ p ∈ (c_promise <$> completing e) ∨ i ∈ (fst <$> finalizers e)) ∧
  (connects e = ∅ → completing e = [] → finalizers e = [] →
     m_open_operations e = ∅ ∧ c_promise <$> log e ≡ₚ seq 0 (next_promise e)) ∧
  (∀ p, connects (destroy e) !! p ≠ Some Connecting).
Proof.
  intros I%opening_reachable. split_and!.
  - exact (inv_nodup _ _ I).
  - intros p. rewrite (inv_all _ _ I p), elem_of_nil. unfold decided, connecting. tauto.
  - intros p Hp. split; [by apply (inv_disjoint _ _ I)|]. apply (inv_pending _ _ I). by right; left.
  - intros c Hc. pose proof (inv_good _ _ I c) as Hg. unfold good_completion in Hg. rewrite elem_of_app in Hg.
    specialize (Hg (or_introl Hc)). destruct (c_endpoint c); [destruct Hg as [Hg ->]; by rewrite decide_True|by rewrite decide_False].
  - intros i p [_ Hor]%(inv_map _ _ I). rewrite elem_of_nil in Hor. unfold connecting in Hor. tauto.
  - intros Ha Hc Hf. split.
    + apply map_eq. intros i. rewrite lookup_empty. destruct (m_open_operations e !! i) as [p|] eqn:Ei; [|done]. exfalso.
      destruct (inv_map _ _ I i p Ei) as [_ Hor]. unfold connecting in Hor. rewrite Ha, Hc, Hf, lookup_empty in Hor.
      rewrite !elem_of_nil in Hor. destruct Hor as [?|[[]|[?|?]]]; done.
    + pose proof (inv_nodup _ _ I) as Hn. unfold decided in Hn. rewrite Hc, app_nil_r in Hn.
      apply NoDup_Permutation; [done|apply NoDup_seq|]. intros p. rewrite elem_of_seq.
      pose proof (inv_all _ _ I p) as Hall. unfold decided, connecting in Hall.
      rewrite Hc, Ha, app_nil_r, lookup_empty, elem_of_nil in Hall. split.
      * intros Hp. assert (p < next_promise e)%nat; [|lia]. tauto.
      * intros Hp. destruct Hall as [Hall _]. destruct Hall as [[]|[?|[]]]; [lia|done|done].
  - intros p. by apply destroy_aborts.
Qed.

(** A client that times out while it connects. *)
Definition timed_out : option impl :=
  match create true 8080 with
  | inl _ => None
  | inr e =>
      let e := open_pipe 1 (Some 50) (SocketOutcome false false false) e in
      e ← run_timer 0 (with_timer (MultipleTimer.expire 0 (m_timer e)) e);
      e ← on_connect 0 e; complete 0 e
  end.

Lemma tcp_client_env_opens_witness :
  ∃ e, timed_out = Some e ∧ log e = [Completion 0 PipeWaitRes.timeout None] ∧ NoDup (c_promise <$> log e ++ completing e).
Proof.
  eexists. split; [vm_compute; reflexivity|]. split; [reflexivity|].
  refine (proj1 (tcp_client_env_opens _ _)). eexists 8080, _. split; [reflexivity|].
  eapply rtc_l; [by apply (step_open _ 1 (Some 50) (SocketOutcome false false false))|].
  eapply rtc_l; [apply (step_expire _ 0)|]. eapply rtc_l; [by eapply (step_timer _ 0)|].
  eapply rtc_l; [by eapply (step_on_connect _ 0)|]. eapply rtc_l; [by eapply (step_complete _ 0)|]. apply rtc_refl.
Defined.
