(* ===== verification/WinOperation.v ===== *)
(** * Operations on Windows named pipes

    [win_pipe_read_operation], [win_pipe_write_operation] and the result every
    operation carries.  A message is read in chunks: the first buffer has 8192
    bytes, every further one twice the size of the last, up to the largest
    transfer message. *)
From S2P Require Import Prelude RpcTypes.
Local Open Scope Z_scope.

(** ** The result of an operation, an atomic variable *)
Module WinRes.
Inductive win_pipe_operation_res : Type := unknown | success | canceled | timeout | failed.
#[global] Instance win_pipe_operation_res_eq_dec : EqDecision win_pipe_operation_res.
Proof. solve_decision. Defined.

(** [compare_exchange_strong] from [expected]. *)
Definition exchange (expected desired r : win_pipe_operation_res) : win_pipe_operation_res :=
  if decide (r = expected) then desired else r.
Definition set_success (r : win_pipe_operation_res) : win_pipe_operation_res := success.
Definition set_canceled_if_possible : win_pipe_operation_res → win_pipe_operation_res := exchange unknown canceled.
Definition set_timeout_if_possible : win_pipe_operation_res → win_pipe_operation_res := exchange unknown timeout.
(** Of a read or a write: a failure also takes the place of a timeout. *)
Definition set_failed_if_possible (r : win_pipe_operation_res) : win_pipe_operation_res :=
  if decide (r = unknown) then failed else exchange timeout failed r.
(** Of a create operation. *)
Definition set_failed_if_unknown : win_pipe_operation_res → win_pipe_operation_res := exchange unknown failed.

(** [unknown] cannot be a result: the conversions assert. *)
Definition to_pipe_op_res (r : win_pipe_operation_res) : option PipeOpRes.pipe_op_res :=
  match r with
  | canceled => Some PipeOpRes.canceled
  | success => Some PipeOpRes.success
  | timeout => Some PipeOpRes.timeout
  | failed => Some PipeOpRes.failed
  | unknown => None
  end.
Definition to_pipe_wait_res (r : win_pipe_operation_res) : option PipeWaitRes.pipe_wait_res :=
  match r with
  | success => Some PipeWaitRes.success
  | canceled => Some PipeWaitRes.canceled
  | timeout => Some PipeWaitRes.timeout
  | failed => Some PipeWaitRes.failed
  | unknown => None
  end.
End WinRes.
Import WinRes.

(** What the system reports of a read or write: at once or with a completion
    packet. *)
Inductive io_status : Type :=
| IoSuccess (bytes : list Z)
| IoMoreData (bytes : list Z)
| IoAborted (bytes_transferred : Z)
| IoError (bytes_transferred : Z).

(** ** win_pipe_read_operation *)
Module ReadOperation.
Definition first_chunk : nat := Z.to_nat 8192.
Definition MaxTransferMessageSize : nat := Z.to_nat Consts.MaxTransferMessageSize.

(** [m_buffers]: the bytes of each buffer, [None] while indeterminate. *)
Record read_operation : Type := mk {
  m_buffers : list (list (option Z));
  m_read_bytes : Z;
  m_res : win_pipe_operation_res
}.
Definition create : read_operation := mk [replicate first_chunk None] 0 unknown.

Definition with_res (f : win_pipe_operation_res → win_pipe_operation_res) (o : read_operation) : read_operation :=
  mk (m_buffers o) (m_read_bytes o) (f (m_res o)).

Definition add_read_bytes (bytes : Z) (o : read_operation) : read_operation :=
  mk (m_buffers o) (u32 (m_read_bytes o + bytes)) (m_res o).

Definition back_size (o : read_operation) : nat := length (default [] (last (m_buffers o))).
Definition total_size (o : read_operation) : nat := sum_list_with length (m_buffers o).
Definition add_buffer_chunk (o : read_operation) : bool * read_operation :=
  if decide (MaxTransferMessageSize ≤ total_size o)%nat then (false, o)
  else
    let new_size := ((back_size o * 2) `min` (MaxTransferMessageSize - total_size o))%nat in
    (true, mk (m_buffers o ++ [replicate new_size None]) (m_read_bytes o) (m_res o)).

(** [ReadFile] puts bytes at the front of the last buffer. *)
Fixpoint fill_last (bytes : list Z) (bs : list (list (option Z))) : list (list (option Z)) :=
  match bs with
  | [] => []
  | [b] => [(Some <$> bytes) ++ drop (length bytes) b]
  | b :: bs' => b :: fill_last bytes bs'
  end.
Definition store (bytes : list Z) (o : read_operation) : read_operation :=
  mk (fill_last bytes (m_buffers o)) (m_read_bytes o) (m_res o).

(** The loop of [start] over what the successive calls of [ReadFile] return: done
    or pending, in which case a packet comes, a full buffer, or an error.  The
    result tells whether [ec] is set. *)
Inductive call : Type := CallPending | CallMoreData (bytes : list Z) | CallError.
Fixpoint start (calls : list call) (o : read_operation) : bool * read_operation :=
  match calls with
  | CallMoreData bytes :: calls' =>
      let o := add_read_bytes (Z.of_nat (back_size o)) (store bytes o) in
      let '(added, o) := add_buffer_chunk o in
      if (added : bool) then start calls' o else (true, o)
  | CallError :: _ => (true, o)
  | CallPending :: _ | [] => (false, o)
  end.

(** [merge_buffers]; [None] would be an indeterminate byte. *)
Fixpoint copy_bytes (src : list (option Z)) (ans : list (option Z)) (size : nat) : list (option Z) :=
  match src with
  | [] => ans
  | x :: src' => if decide (length ans < size)%nat then copy_bytes src' (ans ++ [x]) size else ans
  end.
Definition merge_buffers (buffers : list (list (option Z))) (size : nat) : list (option Z) :=
  let ans := foldl (λ ans b, if decide (length ans < size)%nat then copy_bytes b ans size else ans) [] buffers in
  ans ++ replicate (size - length ans) None.

(** The buffer of a resolved operation. *)
Definition result (o : read_operation) : list (option Z) :=
  if decide (m_res o = success) then merge_buffers (m_buffers o) (Z.to_nat (m_read_bytes o)) else [].

(** What the worker does with a completion packet. *)
Inductive next : Type := Resolve (o : read_operation) | ReadRest (o : read_operation).
Definition on_packet (st : io_status) (o : read_operation) : next :=
  match st with
  | IoSuccess bytes => Resolve (with_res set_success (add_read_bytes (Z.of_nat (length bytes)) (store bytes o)))
  | IoMoreData bytes =>
      let '(added, o) := add_buffer_chunk (add_read_bytes (Z.of_nat (length bytes)) (store bytes o)) in
      if (added : bool) then ReadRest o else Resolve (with_res set_failed_if_possible o)
  | IoError n => Resolve (with_res set_failed_if_possible (add_read_bytes n o))
  | IoAborted n => Resolve (add_read_bytes n o)
  end.
(** [cancel] calls [CancelIo] only before anything was read. *)
Definition cancels (o : read_operation) : bool := bool_decide (m_read_bytes o = 0).
End ReadOperation.

(** ** win_pipe_write_operation *)
Module WriteOperation.
Record write_operation : Type := mk { m_buffer : list Z; m_res : win_pipe_operation_res }.
Definition create (buffer : list Z) : write_operation := mk buffer unknown.
Definition with_res (f : win_pipe_operation_res → win_pipe_operation_res) (o : write_operation) : write_operation :=
  mk (m_buffer o) (f (m_res o)).
(** [start]: whether [ec] is set, of what [WriteFile] returns. *)
Definition start (calls : list ReadOperation.call) : bool :=
  match calls with
  | ReadOperation.CallPending :: _ | [] => false
  | ReadOperation.CallMoreData _ :: _ | ReadOperation.CallError :: _ => true
  end.
Definition on_packet (st : io_status) (o : write_operation) : write_operation :=
  match st with
  | IoSuccess _ => with_res set_success o
  | IoAborted _ => o
  | IoMoreData _ | IoError _ => with_res set_failed_if_possible o
  end.
End WriteOperation.
