(* ===== verification/WinReadFacts.v ===== *)
(** * Reading a message from a Windows pipe

    A read operation returns the message whatever its size, up to the largest
    transfer message, and fails on a larger one. *)
From S2P Require Import Prelude RpcTypes WinOperation.
Import WinRes ReadOperation.
Local Open Scope Z_scope.

#[local] Arguments first_chunk : simpl never.
#[local] Arguments MaxTransferMessageSize : simpl never.

Lemma max_size_fits : Z.of_nat MaxTransferMessageSize < 2 ^ 32.
Proof. unfold MaxTransferMessageSize. by rewrite Z2Nat.id. Qed.
Lemma first_chunk_fits : (first_chunk ≤ MaxTransferMessageSize)%nat.
Proof. unfold first_chunk, MaxTransferMessageSize. apply Z2Nat.inj_le; done. Qed.
#[local] Opaque first_chunk MaxTransferMessageSize.

(** ** merge_buffers takes the first bytes of the buffers *)
Lemma copy_bytes_take src ans size :
  (length ans ≤ size)%nat → copy_bytes src ans size = ans ++ take (size - length ans) src.
Proof.
  revert ans. induction src as [|x src IH]; intros ans Hl; simpl; [by rewrite take_nil, app_nil_r|].
  case_decide as Hlt.
  - rewrite IH by (rewrite length_app; simpl; lia). rewrite <- app_assoc, length_app. simpl.
    replace (size - length ans)%nat with (S (size - (length ans + 1))) by lia. done.
  - replace (size - length ans)%nat with 0%nat by lia. simpl. by rewrite app_nil_r.
Qed.

Lemma merge_buffers_take bs size :
  (size ≤ length (concat bs))%nat → merge_buffers bs size = take size (concat bs).
Proof.
  intros Hs. unfold merge_buffers.
  assert (∀ ans, (length ans ≤ size)%nat →
    foldl (λ ans b, if decide (length ans < size)%nat then copy_bytes b ans size else ans) ans bs
      = ans ++ take (size - length ans) (concat bs)) as Hf.
  { clear. induction bs as [|b bs IH]; intros ans Hl; simpl; [by rewrite take_nil, app_nil_r|]. case_decide as Hlt.
    - rewrite copy_bytes_take by done. rewrite IH by (rewrite length_app, length_take; lia).
      rewrite <- app_assoc, take_app, length_app, length_take. do 3 f_equal. lia.
    - rewrite IH by done. by replace (size - length ans)%nat with 0%nat by lia. }
  rewrite Hf by (simpl; lia). simpl. rewrite length_take, Nat.sub_0_r.
  replace (size - size `min` length (concat bs))%nat with 0%nat by lia. simpl. by rewrite app_nil_r.
Qed.

(** ** The chunks *)
Lemma fill_last_snoc bytes bs b : fill_last bytes (bs ++ [b]) = bs ++ [(Some <$> bytes) ++ drop (length bytes) b].
Proof. induction bs as [|b' bs IH]; [done|]. simpl. rewrite IH. by destruct bs. Qed.

Lemma sum_list_length {A} (bs : list (list A)) : sum_list_with length bs = length (concat bs).
Proof. induction bs as [|b bs IH]; simpl; [done|]. by rewrite length_app, IH. Qed.

(** [taken] was read into full buffers, and a new one of [n] bytes is there. *)
Definition has_read (taken : list Z) (n : nat) (o : read_operation) : Prop :=
  ∃ bs, m_buffers o = bs ++ [replicate n None] ∧ concat bs = Some <$> taken ∧ m_read_bytes o = Z.of_nat (length taken).
Definition reading (taken : list Z) (n : nat) (o : read_operation) : Prop := has_read taken n o ∧ m_res o = unknown.

Lemma reading_sizes taken n o : has_read taken n o → back_size o = n ∧ total_size o = (length taken + n)%nat.
Proof.
  intros (bs & Hb & Hc & _). unfold back_size, total_size. rewrite Hb, last_snoc. simpl. split; [apply length_replicate|].
  rewrite sum_list_length, concat_app, Hc, length_app, length_fmap. simpl. by rewrite app_nil_r, length_replicate.
Qed.

(** The rest of the message fits. *)
Lemma reading_success taken n o rest :
  has_read taken n o → (length rest ≤ n)%nat → Z.of_nat (length (taken ++ rest)) < 2 ^ 32 →
  ∃ o', on_packet (IoSuccess rest) o = Resolve o' ∧ m_res o' = success ∧ result o' = Some <$> taken ++ rest.
Proof.
  intros (bs & Hb & Hc & Hr) Hl Hsz. eexists. split; [done|]. split; [done|].
  unfold result. rewrite decide_True by done. simpl. rewrite Hb, fill_last_snoc, Hr. rewrite length_app in Hsz.
  rewrite wrap_small by lia. rewrite <- Nat2Z.inj_add, Nat2Z.id.
  assert (concat (bs ++ [(Some <$> rest) ++ drop (length rest) (replicate n (None : option Z))])
            = (Some <$> taken ++ rest) ++ drop (length rest) (replicate n None)) as E.
  { rewrite concat_app, Hc, fmap_app. simpl. by rewrite app_nil_r, app_assoc. }
  rewrite merge_buffers_take; rewrite E.
  - rewrite <- length_app, <- (length_fmap Some (taken ++ rest)). apply take_app_length.
  - rewrite length_app, length_fmap, length_app. lia.
Qed.

(** It does not, and there is room for another chunk, or there is none. *)
Definition next_chunk (taken n : nat) : nat := ((n * 2) `min` (MaxTransferMessageSize - (taken + n)))%nat.
Lemma reading_more taken n o bytes :
  has_read taken n o → length bytes = n → Z.of_nat (length taken + n) < 2 ^ 32 →
  let o1 := add_read_bytes (Z.of_nat n) (store bytes o) in
  if decide (MaxTransferMessageSize ≤ length taken + n)%nat then add_buffer_chunk o1 = (false, o1)
  else ∃ o2, add_buffer_chunk o1 = (true, o2) ∧ m_res o2 = m_res o ∧
             has_read (taken ++ bytes) (next_chunk (length taken) n) o2.
Proof.
  intros (bs & Hb & Hc & Hr) Hn Hsz o1.
  assert (m_buffers o1 = bs ++ [Some <$> bytes]) as Hb1.
  { simpl. rewrite Hb, fill_last_snoc, drop_ge by (rewrite length_replicate; lia). by rewrite app_nil_r. }
  assert (back_size o1 = n ∧ total_size o1 = (length taken + n)%nat) as [Hbs Hts].
  { unfold back_size, total_size. rewrite Hb1, last_snoc, sum_list_length, concat_app, Hc, length_app. simpl.
    rewrite app_nil_r, !length_fmap. lia. }
  unfold add_buffer_chunk. rewrite Hts, Hbs. case_decide; [done|]. eexists. split; [done|]. split; [done|].
  exists (bs ++ [Some <$> bytes]). simpl. rewrite <- Hb1. simpl. rewrite Hb, fill_last_snoc.
  rewrite drop_ge by (rewrite length_replicate; lia). rewrite app_nil_r.
  split_and!; [done|by rewrite concat_app, Hc, fmap_app; simpl; rewrite app_nil_r|].
  rewrite Hr, wrap_small by lia. rewrite length_app. lia.
Qed.

Lemma reading_create : reading [] first_chunk create.
Proof. split; [|done]. by exists []. Qed.

(** ** A whole read *)
Section read.
(** The pipe is in message mode: a read returns the rest of the message, or fills
    the buffer and leaves what did not fit. *)
Context (ReadFile : nat → list Z → io_status * list Z).
Hypothesis read_rest : ∀ n rest, (length rest ≤ n)%nat → ReadFile n rest = (IoSuccess rest, []).
Hypothesis read_more : ∀ n rest, (n < length rest)%nat → ReadFile n rest = (IoMoreData (take n rest), drop n rest).

(** [sched] tells for each call whether a full buffer is reported at once or
    with a packet. *)
Fixpoint read_run (sched : list bool) (rest : list Z) (o : read_operation) : option read_operation :=
  match sched with
  | [] => None
  | at_once :: sched' =>
      let '(st, rest') := ReadFile (back_size o) rest in
      match st, at_once with
      | IoMoreData bytes, true =>
          let '(ec, o') := start [CallMoreData bytes] o in
          if (ec : bool) then Some (with_res set_failed_if_possible o') else read_run sched' rest' o'
      | _, _ =>
          match on_packet st o with
          | Resolve o' => Some o'
          | ReadRest o' => read_run sched' rest' o'
          end
      end
  end.

(** What becomes of the message. *)
Definition read_spec (m : list Z) (o : read_operation) : Prop :=
  if decide (length m ≤ MaxTransferMessageSize)%nat then m_res o = success ∧ result o = Some <$> m
  else m_res o = failed ∧ result o = [].

Lemma read_step_more taken n o rest at_once sched :
  reading taken n o → (n < length rest)%nat → Z.of_nat (length taken + n) < 2 ^ 32 →
  if decide (MaxTransferMessageSize ≤ length taken + n)%nat
  then ∃ o', read_run (at_once :: sched) rest o = Some o' ∧ m_res o' = failed
  else ∃ o', read_run (at_once :: sched) rest o = read_run sched (drop n rest) o' ∧
             reading (taken ++ take n rest) (next_chunk (length taken) n) o'.
Proof.
  intros [Hr Hu] Hn Hsz. destruct (reading_sizes _ _ _ Hr) as [Hbs _].
  assert (length (take n rest) = n) as Htk by (rewrite length_take; lia).
  pose proof (reading_more taken n o (take n rest) Hr Htk Hsz) as Hm. cbn [read_run]. rewrite Hbs, read_more by done.
  destruct at_once; cbn [start on_packet]; rewrite ?Htk, ?Hbs; case_decide.
  - rewrite Hm. eexists. split; [done|]. simpl in *. by rewrite Hu.
  - destruct Hm as (o2 & -> & Er & Ho2). exists o2. split; [done|]. split; [done|by rewrite Er].
  - rewrite Hm. eexists. split; [done|]. simpl in *. by rewrite Hu.
  - destruct Hm as (o2 & -> & Er & Ho2). exists o2. split; [done|]. split; [done|by rewrite Er].
Qed.

Lemma read_step_rest taken n o rest at_once sched :
  reading taken n o → (length rest ≤ n)%nat → Z.of_nat (length taken + n) < 2 ^ 32 →
  ∃ o', read_run (at_once :: sched) rest o = Some o' ∧ m_res o' = success ∧ result o' = Some <$> taken ++ rest.
Proof.
  intros [Hr _] Hl Hsz. destruct (reading_sizes _ _ _ Hr) as [Hbs _].
  destruct (reading_success taken n o rest) as (o' & E & ? & ?); [done..|rewrite length_app; lia|].
  exists o'. split; [|done]. cbn [read_run]. rewrite Hbs, read_rest by done. by rewrite E.
Qed.

(** The calls of [ReadFile] it may take when a buffer of [n] bytes follows [taken]
    bytes already read. *)
Fixpoint calls_left (fuel taken n : nat) : nat :=
  match fuel with
  | O => O
  | S fuel' =>
      if decide (MaxTransferMessageSize ≤ taken + n)%nat then 1
      else S (calls_left fuel' (taken + n) (next_chunk taken n))
  end.

Lemma read_run_spec fuel taken n o rest sched :
  reading taken n o → (0 < n)%nat → (length taken + n ≤ MaxTransferMessageSize)%nat →
  (MaxTransferMessageSize - (length taken + n) < fuel)%nat →
  (calls_left fuel (length taken) n ≤ length sched)%nat →
  ∃ o', read_run sched rest o = Some o' ∧ read_spec (taken ++ rest) o'.
Proof.
  pose proof max_size_fits as Hmax.
  revert taken n o rest sched.
  induction fuel as [|fuel IH]; intros taken n o rest sched Hr Hn Hle Hf Hc; [lia|].
  cbn [calls_left] in Hc.
  destruct sched as [|a sched]; [case_decide; simpl in Hc; lia|].
  destruct (decide (length rest ≤ n)%nat) as [Hl|Hl].
  - destruct (read_step_rest taken n o rest a sched) as (o' & E & ? & ?); [done..|lia|].
    exists o'. split; [done|]. unfold read_spec.
    destruct (decide (length (taken ++ rest) ≤ MaxTransferMessageSize)%nat) as [?|Hd]; [split; assumption|]. rewrite length_app in Hd. lia.
  - pose proof (read_step_more taken n o rest a sched Hr ltac:(lia) ltac:(lia)) as Hm. case_decide as Hx.
    + destruct Hm as (o' & E & Hfail). exists o'. split; [done|]. unfold read_spec.
      destruct (decide (length (taken ++ rest) ≤ MaxTransferMessageSize)%nat) as [Hd|?]; [rewrite length_app in Hd; lia|]. split; [exact Hfail|].
      unfold result. rewrite Hfail. reflexivity.
    + destruct Hm as (o' & -> & Hr').
      assert (length (taken ++ take n rest) = length taken + n)%nat as El by (rewrite length_app, length_take; lia).
      replace (taken ++ rest) with ((taken ++ take n rest) ++ drop n rest) by by rewrite <- app_assoc, take_drop.
      apply (IH _ (next_chunk (length taken) n)); rewrite ?El; unfold next_chunk in *; [done|lia..|]. simpl in Hc. lia.
Qed.

#[local] Transparent first_chunk MaxTransferMessageSize.
(** Eight buffers have room for every transfer message: 8192 * (1 + 2 + ... + 64)
    bytes and the rest. *)
Lemma calls_left_create : calls_left (S MaxTransferMessageSize) 0 first_chunk = 8%nat.
Proof. vm_compute. reflexivity. Qed.

(** C27: Reading a message from a Windows pipe in message mode: whatever the message
    and whichever calls of [ReadFile] report a full buffer at once or with a
    completion packet, at most eight calls end the operation; it succeeds with
    exactly the bytes of the message when it is no longer than the largest transfer
    message, no byte of an unfilled buffer among them, and fails with an empty
    buffer when it is longer. *)
Theorem win_read_message sched m :
  (8 ≤ length sched)%nat → ∃ o, read_run sched m create = Some o ∧ read_spec m o.
Proof.
  intros Hs. apply (read_run_spec (S MaxTransferMessageSize) [] first_chunk create m sched reading_create).
  - unfold first_chunk. lia.
  - exact first_chunk_fits.
  - lia.
  - simpl length. by rewrite calls_left_create.
Qed.
End read.

(** A pipe in message mode. *)
Definition message_mode (n : nat) (rest : list Z) : io_status * list Z :=
  if decide (length rest ≤ n)%nat then (IoSuccess rest, []) else (IoMoreData (take n rest), drop n rest).
Lemma win_read_message_witness :
  ∃ o, read_run message_mode [true; false; true; false; true; false; true; false] [1; 2; 3] create = Some o ∧
       read_spec [1; 2; 3] o.
Proof.
  apply (win_read_message message_mode); [| |simpl; lia]; intros n rest Hl; unfold message_mode.
  - by rewrite decide_True.
  - rewrite decide_False; [done|lia].
Defined.
