(* ===== verification/WinPipe.v ===== *)
(** * The endpoint of a Windows named pipe

    [win_pipe_endpoint] and the part of [win_pipe_iocp_owner] that reads and
    writes.  Reads and writes queue up; the oldest operation of a queue is
    handed to the thread that issues the calls of its kind, and the system
    answers with a completion packet that the worker handles.  The value of a
    promise reaches the callback of [then] later: it closes the pipe if the
    operation failed and removes the operation from its queue. *)
From S2P Require Import Prelude RpcTypes Timer WinOperation.
Import WinRes.
Local Open Scope Z_scope.

(** ** What the endpoint and the owner use of an operation *)
Inductive verdict (Op : Type) : Type := Finished (o : Op) | MoreToRead (o : Op).
Arguments Finished {Op} o.
Arguments MoreToRead {Op} o.

Class Operation (Op : Type) : Type := {
  op_res : Op → win_pipe_operation_res;
  op_with_res : (win_pipe_operation_res → win_pipe_operation_res) → Op → Op;
  op_start : list ReadOperation.call → Op → bool * Op;
  op_packet : io_status → Op → verdict Op;
  op_cancels : Op → bool;
  op_value : Op → list (option Z)
}.

#[global] Instance read_operation_ops : Operation ReadOperation.read_operation := {
  op_res := ReadOperation.m_res;
  op_with_res := ReadOperation.with_res;
  op_start := ReadOperation.start;
  op_packet := λ st o, match ReadOperation.on_packet st o with
                       | ReadOperation.Resolve o' => Finished o'
                       | ReadOperation.ReadRest o' => MoreToRead o'
                       end;
  op_cancels := ReadOperation.cancels;
  op_value := ReadOperation.result
}.
#[global] Instance write_operation_ops : Operation WriteOperation.write_operation := {
  op_res := WriteOperation.m_res;
  op_with_res := WriteOperation.with_res;
  op_start := λ calls o, (WriteOperation.start calls, o);
  op_packet := λ st o, Finished (WriteOperation.on_packet st o);
  op_cancels := λ _, true;
  op_value := λ _, []
}.

(** ** The operations of one kind *)
Module WinPipe.
(** The tasks of the thread of the owner: [Start] is the function of [read_async]
    and [write_async] up to the check of the result, [DoStart] the rest of it. *)
Inductive task : Type := Start (p : nat) | DoStart (p : nat) | Rest (p : nat) | Cancel (p : nat).

(** What the system has of an operation; [abortable] is set by [CancelIo] and by
    closing the handle. *)
Inductive io : Type := Pending (p : nat) (abortable : bool) | Packet (p : nat) (st : io_status).

Record op_data : Type := OpData { id : Z; timer_id : option Z; op : nat }.

(** An operation and what the callback of its future captures. *)
Record shared_op (Op : Type) : Type := SharedOp { the_op : Op; captured : op_data }.
Arguments SharedOp {Op}.
Arguments the_op {Op}.
Arguments captured {Op}.

(** A promise with its value; [checked]: the callback went past [invalidate_impl]. *)
Record resolved : Type := Resolved {
  r_data : op_data;
  r_res : win_pipe_operation_res;
  r_value : list (option Z);
  checked : bool
}.

(** [m_ops] lists the oldest operation, the back of the list of the code, first.
    [started] are the operations whose first call was made, in this order. *)
Record side (Op : Type) : Type := Side {
  m_next_op_id : Z;
  m_ops : list op_data;
  heap : gmap nat (shared_op Op);
  next_op : nat;
  thread : list task;
  ios : list io;
  resolving : list nat;
  callbacks : list resolved;
  log : list (nat * option PipeOpRes.pipe_op_res * list (option Z));
  started : list nat
}.
Arguments Side {Op}.
Arguments m_next_op_id {Op}.
Arguments m_ops {Op}.
Arguments heap {Op}.
Arguments next_op {Op}.
Arguments thread {Op}.
Arguments ios {Op}.
Arguments resolving {Op}.
Arguments callbacks {Op}.
Arguments log {Op}.
Arguments started {Op}.

Section side.
Context {Op : Type} `{Operation Op}.
Implicit Types s : side Op.

Definition empty_side : side Op := Side 0 [] ∅ 0 [] [] [] [] [] [].

Definition with_ops (q : list op_data) s : side Op :=
  Side (m_next_op_id s) q (heap s) (next_op s) (thread s) (ios s) (resolving s) (callbacks s) (log s) (started s).
Definition with_thread (ts : list task) s : side Op :=
  Side (m_next_op_id s) (m_ops s) (heap s) (next_op s) ts (ios s) (resolving s) (callbacks s) (log s) (started s).
Definition with_ios (l : list io) s : side Op :=
  Side (m_next_op_id s) (m_ops s) (heap s) (next_op s) (thread s) l (resolving s) (callbacks s) (log s) (started s).
Definition with_resolving (l : list nat) s : side Op :=
  Side (m_next_op_id s) (m_ops s) (heap s) (next_op s) (thread s) (ios s) l (callbacks s) (log s) (started s).
Definition with_callbacks (l : list resolved) s : side Op :=
  Side (m_next_op_id s) (m_ops s) (heap s) (next_op s) (thread s) (ios s) (resolving s) l (log s) (started s).
Definition with_started (l : list nat) s : side Op :=
  Side (m_next_op_id s) (m_ops s) (heap s) (next_op s) (thread s) (ios s) (resolving s) (callbacks s) (log s) l.

Definition update (f : Op → Op) (p : nat) s : side Op :=
  Side (m_next_op_id s) (m_ops s) (alter (λ so, SharedOp (f (the_op so)) (captured so)) p (heap s)) (next_op s)
       (thread s) (ios s) (resolving s) (callbacks s) (log s) (started s).
Definition set_result (f : win_pipe_operation_res → win_pipe_operation_res) (p : nat) s : side Op :=
  update (op_with_res f) p s.

(** [resolve] of an operation: the promise takes its result and its value. *)
Definition resolve (p : nat) s : option (side Op) :=
  (λ so, with_callbacks (callbacks s ++ [Resolved (captured so) (op_res (the_op so)) (op_value (the_op so)) false]) s)
  <$> heap s !! p.

(** [win_pipe_iocp_owner::write_async] and [read_async], [cancel_write] and
    [cancel_read], [read_rest_async]. *)
Definition post (t : task) s : side Op := with_thread (thread s ++ [t]) s.

(** The queueing part of [write_async] and [read_async] of the endpoint. *)
Definition push (o : Op) (tid : option Z) s : side Op :=
  let p := next_op s in
  let d := OpData (m_next_op_id s) tid p in
  let q := m_ops s ++ [d] in
  let s := Side (u64 (m_next_op_id s + 1)) q (<[p := SharedOp o d]> (heap s)) (S p) (thread s) (ios s) (resolving s)
                (callbacks s) (log s) (started s) in
  if decide (length q = 1%nat) then post (Start p) s else s.

(** The thread runs its next task, [calls] being the answers of the system. *)
Definition abortable (i : io) : io := match i with Pending p _ => Pending p true | i => i end.
Definition start_io (pipe : bool) (calls : list ReadOperation.call) (p : nat) s : option (side Op) :=
  match heap s !! p with
  | None => None
  | Some so =>
      let '(ec, o) := op_start (if pipe then calls else [ReadOperation.CallError]) (the_op so) in
      let s := update (λ _, o) p s in
      if (ec : bool) then resolve p (set_result set_failed_if_possible p s)
      else Some (with_ios (ios s ++ [Pending p false]) s)
  end.
Definition run_task (pipe : bool) (calls : list ReadOperation.call) s : option (side Op) :=
  match thread s with
  | [] => None
  | t :: ts =>
      let s := with_thread ts s in
      match t with
      | Start p =>
          match heap s !! p with
          | None => None
          | Some so =>
              if decide (op_res (the_op so) = unknown) then Some (with_thread (DoStart p :: ts) s) else resolve p s
          end
      | DoStart p => start_io pipe calls p (with_started (started s ++ [p]) s)
      | Rest p => start_io pipe calls p s
      | Cancel p =>
          (λ so, if op_cancels (the_op so) then with_ios (abortable <$> ios s) s else s) <$> heap s !! p
      end
  end.

(** The system ends a call; it does so with [ERROR_OPERATION_ABORTED] only when
    asked to. *)
Definition is_aborted (st : io_status) : bool := match st with IoAborted _ => true | _ => false end.
Definition io_ends (st : io_status) s : option (side Op) :=
  match ios s with
  | Pending p ab :: l => if is_aborted st && negb ab then None else Some (with_ios (Packet p st :: l) s)
  | _ => None
  end.

(** [run_worker_loop] for a packet of a read or a write. *)
Definition run_worker s : option (side Op) :=
  match ios s with
  | Packet p st :: l =>
      match heap s !! p with
      | None => None
      | Some so =>
          match op_packet st (the_op so) with
          | Finished o => resolve p (update (λ _, o) p (with_ios l s))
          | MoreToRead o => Some (post (Rest p) (update (λ _, o) p (with_ios l s)))
          end
      end
  | _ => None
  end.

(** What [cancel_write_op_by_timeout] and [cancel_read_op_by_timeout] do under the
    mutex, and the call of [resolve] they make outside of it. *)
Definition cancel_op_by_timeout (i : Z) s : side Op :=
  match list_find (λ d, id d = i) (m_ops s) with
  | None => s
  | Some (n, d) =>
      let s := set_result set_timeout_if_possible (op d) s in
      if decide (Some (id d) = id <$> head (m_ops s)) then post (Cancel (op d)) s
      else with_resolving (resolving s ++ [op d]) (with_ops (delete n (m_ops s)) s)
  end.
Definition resolve_timed_out (n : nat) s : option (side Op) :=
  match resolving s !! n with
  | Some p => resolve p (with_resolving (delete n (resolving s)) s)
  | None => None
  end.

(** [complete_write_op] and [complete_read_op]; the second component tells
    whether the timer is to be cancelled. *)
Definition complete_op (i : Z) s : side Op * bool :=
  match m_ops s with
  | d :: l =>
      if decide (id d = i) then
        let s := with_ops l s in
        (match l with [] => s | d' :: _ => post (Start (op d')) s end, true)
      else (s, false)
  | [] => (s, false)
  end.

(** The end of the callback of [then]: the result is published. *)
Definition finish_callback (n : nat) (r : resolved) s : side Op * bool :=
  complete_op (id (r_data r))
    (Side (m_next_op_id s) (m_ops s) (heap s) (next_op s) (thread s) (ios s) (resolving s) (delete n (callbacks s))
          (log s ++ [(op (r_data r), to_pipe_op_res (r_res r), r_value r)]) (started s)).

(** [invalidate_impl] for one of the queues; closing the handle aborts its calls. *)
Definition invalidate_side (by_cancel : bool) s : side Op :=
  let f := if by_cancel then set_canceled_if_possible else set_failed_if_possible in
  let s := foldl (λ s d, set_result f (op d) s) s (m_ops s) in
  with_ios (abortable <$> ios s) s.

(** What happens on a side without the endpoint. *)
Inductive side_step (pipe : bool) s : side Op → Prop :=
| side_task calls s' : run_task pipe calls s = Some s' → side_step pipe s s'
| side_io st s' : io_ends st s = Some s' → side_step pipe s s'
| side_packet s' : run_worker s = Some s' → side_step pipe s s'
| side_resolve n s' : resolve_timed_out n s = Some s' → side_step pipe s s'.
End side.

(** ** The endpoint *)
Abbreviation timer := (MultipleTimer.multiple_timer (bool * Z)).
Record impl : Type := mk {
  m_pipe : bool;
  m_disconnect_callbacks : list nat;
  executed : list nat;
  m_timer : timer;
  writes : side WriteOperation.write_operation;
  reads : side ReadOperation.read_operation
}.
Definition create : impl := mk true [] [] MultipleTimer.create empty_side empty_side.
Definition is_connected (e : impl) : bool := m_pipe e.

Definition with_timer (t : timer) (e : impl) : impl :=
  mk (m_pipe e) (m_disconnect_callbacks e) (executed e) t (writes e) (reads e).
Definition with_writes (s : side WriteOperation.write_operation) (e : impl) : impl :=
  mk (m_pipe e) (m_disconnect_callbacks e) (executed e) (m_timer e) s (reads e).
Definition with_reads (s : side ReadOperation.read_operation) (e : impl) : impl :=
  mk (m_pipe e) (m_disconnect_callbacks e) (executed e) (m_timer e) (writes e) s.

Definition set_disconnect_callback (callback : nat) (e : impl) : impl :=
  if m_pipe e then mk true (m_disconnect_callbacks e ++ [callback]) (executed e) (m_timer e) (writes e) (reads e)
  else mk false (m_disconnect_callbacks e) (executed e ++ [callback]) (m_timer e) (writes e) (reads e).

(** The future is ready, or that of the promise with the number given. *)
Definition start_timer (w : bool) (i : Z) (timeout : option Z) (t : timer) : option Z * timer :=
  match timeout with
  | Some _ => let '(k, t) := MultipleTimer.start (w, i) t in (Some k, t)
  | None => (None, t)
  end.
Definition write_async (msg : list Z) (timeout : option Z) (e : impl) : (PipeOpRes.pipe_op_res + nat) * impl :=
  if negb (m_pipe e) then (inl PipeOpRes.failed, e)
  else
    let '(tid, t) := start_timer true (m_next_op_id (writes e)) timeout (m_timer e) in
    (inr (next_op (writes e)), with_writes (push (WriteOperation.create msg) tid (writes e)) (with_timer t e)).
Definition read_async (timeout : option Z) (e : impl) : (PipeOpRes.pipe_op_res + nat) * impl :=
  if negb (m_pipe e) then (inl PipeOpRes.failed, e)
  else
    let '(tid, t) := start_timer false (m_next_op_id (reads e)) timeout (m_timer e) in
    (inr (next_op (reads e)), with_reads (push ReadOperation.create tid (reads e)) (with_timer t e)).

Definition invalidate_impl (by_cancel : bool) (e : impl) : impl :=
  if m_pipe e then
    mk false [] (executed e ++ m_disconnect_callbacks e) (m_timer e)
       (invalidate_side by_cancel (writes e)) (invalidate_side by_cancel (reads e))
  else e.
(** Also the destructor. *)
Definition invalidate (e : impl) : impl := invalidate_impl true e.

Definition cancel_write_op_by_timeout (op_id : Z) (e : impl) : impl := with_writes (cancel_op_by_timeout op_id (writes e)) e.
Definition cancel_read_op_by_timeout (op_id : Z) (e : impl) : impl := with_reads (cancel_op_by_timeout op_id (reads e)) e.

Definition run_timer (k : Z) (e : impl) : option impl :=
  match MultipleTimer.run_handler k (m_timer e) with
  | None => None
  | Some (fired, t) =>
      let e := with_timer t e in
      Some (match fired with
            | Some (true, i) => cancel_write_op_by_timeout i e
            | Some (false, i) => cancel_read_op_by_timeout i e
            | None => e
            end)
  end.

(** The callbacks of [then]: first the check for a failure, then the rest. *)
Definition mark (r : resolved) : resolved := Resolved (r_data r) (r_res r) (r_value r) true.
Definition check_callback {Op} (n : nat) (s : side Op) : option (win_pipe_operation_res * side Op) :=
  match callbacks s !! n with
  | Some r => if checked r then None else Some (r_res r, with_callbacks (<[n := mark r]> (callbacks s)) s)
  | None => None
  end.
Definition check_failed (r : win_pipe_operation_res) (e : impl) : impl :=
  if decide (r = failed) then invalidate_impl false e else e.
Definition write_callback (n : nat) (e : impl) : option impl :=
  '(r, s) ← check_callback n (writes e); Some (check_failed r (with_writes s e)).
Definition read_callback (n : nat) (e : impl) : option impl :=
  '(r, s) ← check_callback n (reads e); Some (check_failed r (with_reads s e)).

Definition cancel_timer (done : bool) (r : resolved) (t : timer) : timer :=
  match timer_id (r_data r) with
  | Some k => if done then MultipleTimer.cancel k t else t
  | None => t
  end.
Definition write_callback_end (n : nat) (e : impl) : option impl :=
  match callbacks (writes e) !! n with
  | Some r =>
      if checked r then
        let '(s, done) := finish_callback n r (writes e) in
        Some (with_timer (cancel_timer done r (m_timer e)) (with_writes s e))
      else None
  | None => None
  end.
Definition read_callback_end (n : nat) (e : impl) : option impl :=
  match callbacks (reads e) !! n with
  | Some r =>
      if checked r then
        let '(s, done) := finish_callback n r (reads e) in
        Some (with_timer (cancel_timer done r (m_timer e)) (with_reads s e))
      else None
  | None => None
  end.

(** Identifiers are not used up within a run. *)
Inductive step (e : impl) : impl → Prop :=
| step_write msg timeout : m_next_op_id (writes e) < 2 ^ 64 - 1 → step e (write_async msg timeout e).2
| step_read timeout : m_next_op_id (reads e) < 2 ^ 64 - 1 → step e (read_async timeout e).2
| step_invalidate : step e (invalidate e)
| step_callback cb : step e (set_disconnect_callback cb e)
| step_writes s : side_step (m_pipe e) (writes e) s → step e (with_writes s e)
| step_reads s : side_step (m_pipe e) (reads e) s → step e (with_reads s e)
| step_write_callback n e' : write_callback n e = Some e' → step e e'
| step_read_callback n e' : read_callback n e = Some e' → step e e'
| step_write_callback_end n e' : write_callback_end n e = Some e' → step e e'
| step_read_callback_end n e' : read_callback_end n e = Some e' → step e e'
| step_expire k : step e (with_timer (MultipleTimer.expire k (m_timer e)) e)
| step_timer k e' : run_timer k e = Some e' → step e e'.
End WinPipe.
