(* ===== verification/WinPipeFacts.v ===== *)
(** * Correctness of the endpoint of a Windows pipe

    Every promise gets one value, the assertions on results hold, the calls of a
    kind are made one at a time in the order of the operations, and no queue
    stalls. *)
From stdpp Require Import sorting.
From S2P Require Import Prelude RpcTypes Timer WinOperation WinPipe.
Import WinRes WinPipe.
Local Open Scope Z_scope.

(** ** What the endpoint relies on of the operations *)
Definition packet_res (st : io_status) (r : win_pipe_operation_res) : win_pipe_operation_res :=
  match st with
  | IoSuccess _ => success
  | IoAborted _ => r
  | IoMoreData _ | IoError _ => set_failed_if_possible r
  end.

Class OperationLaws (Op : Type) `{Operation Op} : Prop := {
  op_res_with f o : op_res (op_with_res f o) = f (op_res o);
  op_res_start calls o : op_res (op_start calls o).2 = op_res o;
  op_start_error o : (op_start [ReadOperation.CallError] o).1 = true;
  op_packet_finished st o o' : op_packet st o = Finished o' → op_res o' = packet_res st (op_res o);
  op_packet_more st o o' : op_packet st o = MoreToRead o' → op_res o' = op_res o
}.

Lemma add_buffer_chunk_res o : ReadOperation.m_res (ReadOperation.add_buffer_chunk o).2 = ReadOperation.m_res o.
Proof. unfold ReadOperation.add_buffer_chunk. by case_decide. Qed.
Lemma read_start_res calls o : ReadOperation.m_res (ReadOperation.start calls o).2 = ReadOperation.m_res o.
Proof.
  revert o. induction calls as [|[|bytes|] calls IH]; intros o; [done..| |done]. cbn [ReadOperation.start].
  set (o1 := ReadOperation.add_read_bytes _ _). pose proof (add_buffer_chunk_res o1) as E.
  destruct (ReadOperation.add_buffer_chunk o1) as [[] o']; [by rewrite IH|done].
Qed.
Lemma read_packet_res st o :
  match ReadOperation.on_packet st o with
  | ReadOperation.Resolve o' => ReadOperation.m_res o' = packet_res st (ReadOperation.m_res o)
  | ReadOperation.ReadRest o' => ReadOperation.m_res o' = ReadOperation.m_res o
  end.
Proof.
  destruct st as [bytes|bytes|n|n]; [done| |done..]. cbn [ReadOperation.on_packet].
  set (o1 := ReadOperation.add_read_bytes _ _). pose proof (add_buffer_chunk_res o1) as E.
  destruct (ReadOperation.add_buffer_chunk o1) as [[] o']; [done|].
  cbn [ReadOperation.m_res ReadOperation.with_res snd packet_res] in *. by rewrite E.
Qed.
#[global] Instance write_operation_laws : OperationLaws WriteOperation.write_operation.
Proof. split; [done..| |done]. intros [] o o' [= <-]; reflexivity. Qed.
#[global] Instance read_operation_laws : OperationLaws ReadOperation.read_operation.
Proof.
  split; [done|exact read_start_res|done|..]; intros st o o'; cbn [op_packet op_res read_operation_ops];
    pose proof (read_packet_res st o) as Hp; by destruct (ReadOperation.on_packet st o); intros [= <-].
Qed.

(** A setter never makes a result unknown again, and these decide it. *)
Lemma set_failed_decides r : set_failed_if_possible r ≠ unknown.
Proof. by destruct r. Qed.
Lemma set_canceled_decides r : set_canceled_if_possible r ≠ unknown.
Proof. by destruct r. Qed.
Lemma set_timeout_decides r : set_timeout_if_possible r ≠ unknown.
Proof. by destruct r. Qed.
Lemma packet_decides st r : (is_aborted st = true → r ≠ unknown) → packet_res st r ≠ unknown.
Proof. destruct st; simpl; intros Hr; [done|apply set_failed_decides|by apply Hr|apply set_failed_decides]. Qed.
#[local] Hint Resolve set_failed_decides set_canceled_decides set_timeout_decides : core.

Definition task_op (t : task) : option nat :=
  match t with Start p | DoStart p | Rest p => Some p | Cancel _ => None end.
Definition is_start (t : task) : bool := match t with Start _ | DoStart _ => true | _ => false end.
Definition io_op (i : io) : nat := match i with Pending p _ | Packet p _ => p end.
Definition may_abort (i : io) : bool :=
  match i with Pending _ ab => ab | Packet _ st => is_aborted st end.

(** Before a task to cancel [p] runs, the thread and the system have no other
    operation than [p]. *)
Fixpoint cancels_ok (owners : list nat) (ts : list task) : Prop :=
  match ts with
  | [] => True
  | Cancel p :: ts' => Forall (eq p) owners ∧ cancels_ok owners ts'
  | (Start p | DoStart p | Rest p) :: ts' => cancels_ok (p :: owners) ts'
  end.
Lemma cancels_ok_mono owners owners' ts : owners' ⊆ owners → cancels_ok owners ts → cancels_ok owners' ts.
Proof.
  revert owners owners'. induction ts as [|[p|p|p|p] ts IH]; intros ow ow' Hs; simpl; [done|..].
  1-3: apply IH; set_solver.
  intros [Hp Ht]. split; [|by eapply IH]. rewrite Forall_forall in *. intros q Hq. by apply Hp, Hs.
Qed.
Lemma cancels_ok_snoc owners ts t : task_op t ≠ None → cancels_ok owners ts → cancels_ok owners (ts ++ [t]).
Proof.
  intros Ht. revert owners. induction ts as [|[p|p|p|p] ts IH]; intros ow; simpl; [by destruct t|by apply IH..|].
  intros [Hp Hts]. split; [done|by apply IH].
Qed.
Lemma cancels_ok_cancel owners ts p :
  Forall (eq p) owners → Forall (eq p) (omap task_op ts) → cancels_ok owners ts → cancels_ok owners (ts ++ [Cancel p]).
Proof.
  revert owners. induction ts as [|[q|q|q|q] ts IH]; intros ow Ho Ht; simpl; [done|..].
  1-3: apply Forall_cons in Ht as [-> Ht]; apply IH; [by constructor|done].
  intros [Hq Hts]. split; [done|by apply IH].
Qed.

Section side.
Context {Op : Type} `{OperationLaws Op}.
Implicit Types s : side Op.

(** ** Invariant of a side

    [lost] are the promises in the hands of the code that runs. *)
Definition decided s (p : nat) : Prop := ∃ so, heap s !! p = Some so ∧ op_res (the_op so) ≠ unknown.
Definition tokens s : list nat := omap task_op (thread s) ++ (io_op <$> ios s).
Definition answered s : list nat := (λ r, op (r_data r)) <$> callbacks s.
Definition accounted (lost : list nat) s : list nat :=
  ((λ c, c.1.1) <$> log s) ++ answered s ++ resolving s ++ tokens s ++ lost ++ (op <$> tail (m_ops s)).
(** The operations for which no call was made yet. *)
Definition unstarted s : list op_data := if existsb is_start (thread s) then m_ops s else tail (m_ops s).

Record side_inv (lost : list nat) (pipe : bool) s : Prop := {
  si_once : accounted lost s ≡ₚ seq 0 (next_op s);
  si_next : m_next_op_id s = Z.of_nat (next_op s) ∧ m_next_op_id s < 2 ^ 64;
  si_queue d : d ∈ m_ops s → id d = Z.of_nat (op d) ∧ (op d < next_op s)%nat;
  si_heap p : (p < next_op s)%nat →
    ∃ so, heap s !! p = Some so ∧ op (captured so) = p ∧ id (captured so) = Z.of_nat p;
  si_fresh p : (next_op s ≤ p)%nat → heap s !! p = None;
  si_head d : head (m_ops s) = Some d → op d ∈ tokens s ∨ op d ∈ answered s ∨ op d ∈ lost;
  si_tokens p : p ∈ tokens s → ∃ d, head (m_ops s) = Some d ∧ op d = p;
  si_cancels : cancels_ok (io_op <$> ios s) (thread s);
  si_cancel p : Cancel p ∈ thread s → decided s p;
  si_abort i : i ∈ ios s → may_abort i = true → decided s (io_op i);
  si_resolving p : p ∈ resolving s → decided s p;
  si_callbacks r : r ∈ callbacks s → r_res r ≠ unknown ∧ id (r_data r) = Z.of_nat (op (r_data r));
  si_log c : c ∈ log s → is_Some c.1.2;
  si_closed d : pipe = false → d ∈ m_ops s → decided s (op d);
  si_order : StronglySorted lt (started s ++ (op <$> unstarted s)) ∧ Forall (λ p, (p < next_op s)%nat) (started s)
}.

Lemma side_inv_empty pipe : side_inv [] pipe (empty_side : side Op).
Proof.
  split; simpl; try done; try (intros ? Hin; by apply elem_of_nil in Hin).
  - intros p Hp. lia.
  - intros d _ Hin. by apply elem_of_nil in Hin.
  - by split; constructor.
Qed.

(** A promise is in one place. *)
Lemma side_accounted_once lost pipe s p : side_inv lost pipe s → (occ p (accounted lost s) ≤ 1)%nat.
Proof. intros I. apply occ_NoDup. rewrite (si_once _ _ _ I). apply NoDup_seq. Qed.
Lemma side_accounted_lt lost pipe s p : side_inv lost pipe s → p ∈ accounted lost s → (p < next_op s)%nat.
Proof. intros I Hp. rewrite (si_once _ _ _ I) in Hp. apply elem_of_seq in Hp. lia. Qed.

(** ** The operations as objects *)
Lemma decided_update f q s p :
  (∀ so, heap s !! q = Some so → op_res (the_op so) ≠ unknown → op_res (f (the_op so)) ≠ unknown) →
  decided s p → decided (update f q s) p.
Proof.
  intros Hf (so & Hso & Hr). unfold decided. simpl. destruct (decide (q = p)) as [->|Hne].
  - rewrite lookup_alter_eq, Hso. eexists. split; [done|]. simpl. by apply Hf.
  - rewrite lookup_alter_ne by done. by exists so.
Qed.

Lemma side_inv_update lost pipe f q s :
  (∀ so, heap s !! q = Some so → op_res (the_op so) ≠ unknown → op_res (f (the_op so)) ≠ unknown) →
  side_inv lost pipe s → side_inv lost pipe (update f q s).
Proof.
  intros Hf I. assert (∀ p, decided s p → decided (update f q s) p) as Hd by (intros p; by apply decided_update).
  destruct I. split; try done; [| |by auto..].
  - intros p Hp. destruct (si_heap0 p Hp) as (so & Hso & Hi). simpl. destruct (decide (q = p)) as [->|Hne].
    + rewrite lookup_alter_eq, Hso. by eexists.
    + rewrite lookup_alter_ne by done. by exists so.
  - intros p Hp. simpl. rewrite lookup_alter_None. by apply si_fresh0.
Qed.

Lemma inv_set_result lost pipe f q s :
  (∀ r, r ≠ unknown → f r ≠ unknown) → side_inv lost pipe s → side_inv lost pipe (set_result f q s).
Proof. intros Hf. apply side_inv_update. intros so _. rewrite op_res_with. apply Hf. Qed.

Lemma decided_set_result f p s :
  (∀ r, f r ≠ unknown) → is_Some (heap s !! p) → decided (set_result f p s) p.
Proof.
  intros Hf [so Hso]. unfold decided. simpl. rewrite lookup_alter_eq, Hso. eexists. split; [done|]. simpl. by rewrite op_res_with.
Qed.

(** The promise in hand gets its value. *)
Lemma inv_resolve lost pipe p s s' :
  side_inv (p :: lost) pipe s → decided s p → resolve p s = Some s' → side_inv lost pipe s'.
Proof.
  intros I (so & Hso & Hr). unfold resolve. rewrite Hso. intros [= <-].
  assert (p < next_op s)%nat as Hlt.
  { eapply side_accounted_lt; [done|]. unfold accounted. rewrite !elem_of_app, elem_of_cons. tauto. }
  destruct I. destruct (si_heap0 p Hlt) as (so' & Hso' & Hp & Hi). rewrite Hso in Hso'. simplify_eq.
  split; try done.
  - rewrite <- si_once0. unfold accounted, answered. simpl. rewrite fmap_app. simpl. solve_Permutation.
  - intros d Hd. destruct (si_head0 d Hd) as [?|[?|[E|?]%elem_of_cons]]; [by left| | |by right; right].
    + right. left. unfold answered in *. simpl. rewrite fmap_app, elem_of_app. by left.
    + right. left. unfold answered. simpl. rewrite fmap_app, elem_of_app. right. rewrite E. by left.
  - intros r [Hin| ->%list_elem_of_singleton]%elem_of_app; [by apply si_callbacks0|]. done.
Qed.

(** ** The thread and the system *)
Lemma sorted_sublist (l k : list nat) : l `sublist_of` k → StronglySorted lt k → StronglySorted lt l.
Proof.
  induction 1 as [|x l k Hs IH|x l k Hs IH]; [done|..]; intros [Hx Hk]%StronglySorted_cons; [|by apply IH].
  apply StronglySorted_cons. split; [by eapply Forall_sublist|by apply IH].
Qed.
Lemma unstarted_sublist ts s : thread s = ts → tail (m_ops s) `sublist_of` unstarted s.
Proof. intros _. unfold unstarted. destruct (existsb _ _), (m_ops s); simpl; [done|by apply sublist_cons|done..]. Qed.

(** The thread takes its next task. *)
Lemma inv_take_task t ts pipe s :
  thread s = t :: ts → side_inv [] pipe s → side_inv (option_list (task_op t)) pipe (with_thread ts s).
Proof.
  intros Ht I. assert (existsb is_start (thread s) = is_start t || existsb is_start ts) as Hx by by rewrite Ht.
  destruct I. split; try done.
  - rewrite <- si_once0. unfold accounted, tokens. rewrite Ht. simpl. destruct (task_op t); simpl; solve_Permutation.
  - intros d Hd. destruct (si_head0 d Hd) as [Hin|[?|?%elem_of_nil]]; [|by auto|done].
    unfold tokens in *. simpl in *. rewrite Ht in Hin. simpl in Hin.
    destruct (task_op t); [|by left]. apply elem_of_cons in Hin as [->|?]; [right; right; by left|by left].
  - intros p Hp. apply si_tokens0. unfold tokens in *. rewrite Ht. simpl in *. destruct (task_op t); [by right|done].
  - rewrite Ht in si_cancels0. simpl. destruct t; simpl in si_cancels0; [..|by destruct si_cancels0];
      eapply cancels_ok_mono, si_cancels0; clear; set_solver.
  - intros p Hp. apply (si_cancel0 p). rewrite Ht. by right.
  - destruct si_order0 as [Hs Hl]. split; [|done]. eapply sorted_sublist, Hs. simpl. apply sublist_app; [done|].
    apply fmap_sublist. unfold unstarted. rewrite Hx. simpl. destruct (existsb is_start ts); [by rewrite orb_true_r|].
    destruct (is_start t); simpl; [|done]. destruct (m_ops s); [done|by apply sublist_cons].
Qed.

(** Its operation is the oldest one, and is the one that waiting cancellations
    are for. *)
Definition owner p s : Prop := (∃ d, head (m_ops s) = Some d ∧ op d = p) ∧ cancels_ok (p :: (io_op <$> ios s)) (thread s).
Lemma taken_owner t ts p pipe s :
  thread s = t :: ts → task_op t = Some p → side_inv [] pipe s → owner p (with_thread ts s).
Proof.
  intros Ht Hp I. split.
  - apply (si_tokens _ _ _ I). unfold tokens. rewrite Ht. simpl. rewrite Hp. by left.
  - pose proof (si_cancels _ _ _ I) as Hc. rewrite Ht in Hc. destruct t; simpl in *; by simplify_eq.
Qed.

(** The operation goes to the system, or back to the thread. *)
Lemma inv_give_io lost pipe p s :
  owner p s → side_inv (p :: lost) pipe s → side_inv lost pipe (with_ios (ios s ++ [Pending p false]) s).
Proof.
  intros [Hd Hc] I. destruct I. split; try done.
  - rewrite <- si_once0. unfold accounted, tokens. simpl. rewrite fmap_app. simpl. solve_Permutation.
  - intros d Hd'. unfold tokens in *. simpl. rewrite fmap_app, !elem_of_app. simpl.
    destruct (si_head0 d Hd') as [?%elem_of_app|[?|[->|?]%elem_of_cons]]; rewrite ?elem_of_cons; tauto.
  - intros q. unfold tokens in *. simpl. rewrite fmap_app, !elem_of_app. simpl. intros [Hq|[Hq| ->%list_elem_of_singleton]];
      [apply si_tokens0; rewrite elem_of_app; by auto..|done].
  - simpl. eapply cancels_ok_mono, Hc. rewrite fmap_app. simpl. clear. set_solver.
  - simpl. intros i [Hi| ->%list_elem_of_singleton]%elem_of_app; [by apply si_abort0|done].
Qed.

Lemma inv_give_thread lost pipe t p s :
  task_op t = Some p → (is_start t = true → StronglySorted lt (started s ++ (op <$> m_ops s))) →
  (∃ d, head (m_ops s) = Some d ∧ op d = p) →
  side_inv (p :: lost) pipe s → side_inv lost pipe (post t s).
Proof.
  intros Ht Hst Hd I. destruct I. unfold post. split; try done.
  - rewrite <- si_once0. unfold accounted, tokens. simpl. rewrite omap_app. simpl. rewrite Ht. solve_Permutation.
  - intros d Hd'. unfold tokens in *. simpl. rewrite omap_app. simpl. rewrite Ht. rewrite !elem_of_app.
    destruct (si_head0 d Hd') as [?%elem_of_app|[?|[->|?]%elem_of_cons]]; rewrite ?list_elem_of_singleton; tauto.
  - intros q. unfold tokens in *. simpl. rewrite omap_app. simpl. rewrite Ht, !elem_of_app, list_elem_of_singleton.
    intros [[Hq| ->]|Hq]; [|done|]; apply si_tokens0; rewrite elem_of_app; by auto.
  - simpl. apply cancels_ok_snoc; [by rewrite Ht|done].
  - intros q [Hq|Hq%list_elem_of_singleton]%elem_of_app; [by apply (si_cancel0 q)|]. by subst t.
  - destruct si_order0 as [Hs Hl]. split; [|done]. unfold unstarted in *. simpl. rewrite existsb_app. simpl.
    destruct (existsb is_start (thread s)); simpl; [done|]. destruct (is_start t) eqn:Et; simpl; [|done].
    by apply Hst.
Qed.

Lemma inv_start_io lost pipe calls p s s' :
  owner p s → side_inv (p :: lost) pipe s → start_io pipe calls p s = Some s' → side_inv lost pipe s'.
Proof.
  intros Ho I. unfold start_io. destruct (heap s !! p) as [so|] eqn:Hso; [|done].
  set (cs := if pipe then calls else _). pose proof (op_res_start cs (the_op so)) as Hr.
  destruct (op_start cs (the_op so)) as [ec o] eqn:Es. simpl in Hr.
  assert (side_inv (p :: lost) pipe (update (λ _, o) p s)) as I1.
  { apply side_inv_update; [|done]. intros so' Hso' Hu. rewrite Hso in Hso'. simplify_eq. by rewrite Hr. }
  destruct ec.
  - apply inv_resolve; [by apply inv_set_result|]. apply decided_set_result; [done|].
    simpl. rewrite lookup_alter_eq, Hso. by eexists.
  - intros [= <-]. by apply (inv_give_io lost pipe p (update (λ _, o) p s)).
Qed.

(** The thread has at most one task of the oldest operation. *)
Lemma one_start p ts pipe s : thread s = DoStart p :: ts → side_inv [] pipe s → existsb is_start ts = false.
Proof.
  intros Ht I. apply not_true_iff_false. intros (t & Hin%list_elem_of_In & Hst)%existsb_exists.
  pose proof (side_accounted_once _ _ _ p I) as H1. unfold accounted, tokens in H1. rewrite Ht in H1.
  change (omap task_op (DoStart p :: ts)) with (p :: omap task_op ts) in H1.
  rewrite !occ_app, occ_cons, decide_True in H1 by done.
  assert (∃ q, task_op t = Some q) as [q Hq'] by (destruct t; [by eexists..|done]).
  assert (q ∈ omap task_op ts) as Hqin by (apply list_elem_of_omap; by exists t).
  assert (q = p) as ->.
  { destruct (si_tokens _ _ _ I q) as (d2 & Hd2 & <-); [unfold tokens; rewrite Ht; simpl; right; rewrite elem_of_app; by left|].
    destruct (si_tokens _ _ _ I p) as (d3 & Hd3 & <-); [unfold tokens; rewrite Ht; by left|]. by simplify_eq. }
  apply occ_elem in Hqin. lia.
Qed.

Lemma inv_mark_started p ts pipe s :
  thread s = DoStart p :: ts → side_inv [] pipe s →
  side_inv [p] pipe (with_started (started s ++ [p]) (with_thread ts s)).
Proof.
  intros Ht I. pose proof (one_start _ _ _ _ Ht I) as Hone. pose proof (inv_take_task _ _ _ _ Ht I) as I1. simpl in I1.
  destruct (taken_owner _ _ p _ _ Ht eq_refl I) as [(d & Hd & Hdp) _].
  pose proof (si_order _ _ _ I) as [Hs Hl]. unfold unstarted in Hs. rewrite Ht in Hs. simpl in Hs, Hd.
  destruct (m_ops s) as [|d' l] eqn:Hq; [done|]. simplify_eq/=.
  destruct (si_queue _ _ _ I d) as [_ Hlt]; [rewrite Hq; by left|].
  destruct I1. split; try done. split; [|by apply Forall_app; split; [|by constructor]].
  simpl. unfold unstarted. simpl. rewrite Hq, Hone, <- app_assoc. done.
Qed.

Lemma io_op_abortable (l : list io) : io_op <$> (abortable <$> l) = io_op <$> l.
Proof. rewrite <- list_fmap_compose. apply list_fmap_ext. by intros ? [] _. Qed.
Lemma inv_abort_ios lost pipe s :
  (∀ p, p ∈ io_op <$> ios s → decided s p) → side_inv lost pipe s → side_inv lost pipe (with_ios (abortable <$> ios s) s).
Proof.
  intros Hd I. destruct I. split; try done; unfold accounted, tokens in *; simpl in *; rewrite ?io_op_abortable; try done.
  intros i Hi _. apply Hd. rewrite <- io_op_abortable. by apply list_elem_of_fmap_2.
Qed.

Lemma inv_start_check p ts pipe s :
  thread s = Start p :: ts → side_inv [] pipe s → side_inv [] pipe (with_thread (DoStart p :: ts) s).
Proof.
  intros Ht I. destruct I. split; try done.
  - rewrite <- si_once0. unfold accounted, tokens. simpl. by rewrite Ht.
  - intros d Hd. destruct (si_head0 d Hd) as [Hin|?]; [left|by right]. unfold tokens in *. by rewrite Ht in Hin.
  - intros q Hq. apply si_tokens0. unfold tokens. by rewrite Ht.
  - by rewrite Ht in si_cancels0.
  - intros q [?|Hq]%elem_of_cons; [done|]. apply (si_cancel0 q). rewrite Ht. by right.
  - unfold unstarted in *. by rewrite Ht in si_order0.
Qed.

Lemma inv_run_task pipe calls s s' : side_inv [] pipe s → run_task pipe calls s = Some s' → side_inv [] pipe s'.
Proof.
  intros I. unfold run_task. destruct (thread s) as [|t ts] eqn:Ht; [done|].
  pose proof (inv_take_task t ts pipe s Ht I) as I1. pose proof (λ p Hp, taken_owner t ts p pipe s Ht Hp I) as Ho.
  destruct t as [p|p|p|p]; simpl in I1.
  - destruct (heap _ !! p) as [so|] eqn:Hso; [|done]. case_decide as Hr.
    + intros [= <-]. exact (inv_start_check p ts pipe s Ht I).
    + apply inv_resolve; [done|]. by exists so.
  - apply inv_start_io; [exact (Ho p eq_refl)|exact (inv_mark_started p ts pipe s Ht I)].
  - apply inv_start_io; [exact (Ho p eq_refl)|done].
  - simpl. destruct (heap s !! p) as [so|]; simpl; [|done]. intros [= <-]. destruct (op_cancels (the_op so)); [|done].
    pose proof (si_cancels _ _ _ I) as Hc. pose proof (si_cancel _ _ _ I p) as Hp. rewrite Ht in Hc, Hp.
    apply (inv_abort_ios [] pipe (with_thread ts s)); [|done]. intros q Hq. destruct Hc as [Hc _].
    rewrite Forall_forall in Hc. rewrite <- (Hc q Hq). apply Hp. by left.
Qed.

Lemma inv_io_ends pipe st s s' : side_inv [] pipe s → io_ends st s = Some s' → side_inv [] pipe s'.
Proof.
  intros I. unfold io_ends. destruct (ios s) as [|[p ab|] l] eqn:Hi; [done| |done].
  destruct (is_aborted st && negb ab) eqn:Ea; [done|]. intros [= <-].
  destruct I. split; try done; unfold accounted, tokens in *; rewrite Hi in *; try done.
  simpl. intros i [->|Hin]%elem_of_cons Hm; [|apply si_abort0; [by right|done]]. simpl in *.
  rewrite Hm in Ea. simpl in Ea. apply negb_false_iff in Ea. subst ab. apply (si_abort0 (Pending p true)); [by left|done].
Qed.

Lemma inv_run_worker pipe s s' : side_inv [] pipe s → run_worker s = Some s' → side_inv [] pipe s'.
Proof.
  intros I. unfold run_worker. destruct (ios s) as [|[|p st] l] eqn:Hi; [done..|].
  destruct (heap s !! p) as [so|] eqn:Hso; [|done].
  assert (∃ d, head (m_ops s) = Some d ∧ op d = p) as Hd.
  { apply (si_tokens _ _ _ I). unfold tokens. rewrite Hi, elem_of_app. right. by left. }
  assert (side_inv [p] pipe (with_ios l s)) as I1.
  { destruct I. split; try done; unfold accounted, tokens in *; rewrite ?Hi in *; simpl in *; try done.
    - rewrite <- si_once0. solve_Permutation.
    - intros d Hd'. destruct (si_head0 d Hd') as [[?|[->|?]%elem_of_cons]%elem_of_app|[?|?%elem_of_nil]];
        rewrite ?elem_of_app, ?list_elem_of_singleton; tauto.
    - intros q Hq. apply si_tokens0. rewrite elem_of_app in Hq. rewrite elem_of_app, elem_of_cons. tauto.
    - eapply cancels_ok_mono, si_cancels0. clear. set_solver.
    - intros i Hin. apply si_abort0. by right. }
  assert (is_aborted st = true → op_res (the_op so) ≠ unknown) as Hab.
  { intros Ha. destruct (si_abort _ _ _ I (Packet p st)) as (so' & Hso' & Hu); [rewrite Hi; by left|done|].
    simpl in Hso'. rewrite Hso in Hso'. by simplify_eq. }
  destruct (op_packet st (the_op so)) as [o|o] eqn:Ep.
  - apply op_packet_finished in Ep. assert (op_res o ≠ unknown) as Ho by (rewrite Ep; by apply packet_decides).
    apply inv_resolve.
    + by apply side_inv_update.
    + exists (SharedOp o (captured so)). split; [|done]. simpl. by rewrite lookup_alter_eq, Hso.
  - apply op_packet_more in Ep. intros [= <-]. apply (inv_give_thread [] pipe (Rest p) p); [done..|].
    apply side_inv_update; [|done]. intros so' Hso' Hu. simpl in Hso'. rewrite Hso in Hso'. simplify_eq. by rewrite Ep.
Qed.

(** ** The endpoint on a side *)
Lemma inv_resolve_timed_out pipe n s s' : side_inv [] pipe s → resolve_timed_out n s = Some s' → side_inv [] pipe s'.
Proof.
  intros I. unfold resolve_timed_out. destruct (resolving s !! n) as [p|] eqn:Hn; [|done].
  pose proof (list_elem_of_lookup_2 _ _ _ Hn) as Hin. pose proof (delete_Permutation _ _ _ Hn) as Hp.
  apply inv_resolve; [|by apply (si_resolving _ _ _ I)]. revert Hp. generalize (delete n (resolving s)). intros l Hp.
  destruct I. split; try done.
  - rewrite <- si_once0. unfold accounted, tokens, answered in *. simpl. rewrite Hp. solve_Permutation.
  - intros d Hd. destruct (si_head0 d Hd) as [?|[?|?%elem_of_nil]]; [by left|by right; left|done].
  - intros q Hq. apply si_resolving0. rewrite Hp. by right.
Qed.

Lemma inv_side_step pipe s s' : side_inv [] pipe s → side_step pipe s s' → side_inv [] pipe s'.
Proof.
  intros I []; [by eapply inv_run_task|by eapply inv_io_ends|by eapply inv_run_worker|by eapply inv_resolve_timed_out].
Qed.

(** A new operation. *)
Lemma no_tokens pipe lost s : side_inv lost pipe s → m_ops s = [] → tokens s = [].
Proof.
  intros I Hq. destruct (tokens s) as [|p l] eqn:E; [done|].
  destruct (si_tokens _ _ _ I p) as (d & Hd & _); [rewrite E; by left|]. by rewrite Hq in Hd.
Qed.
Lemma no_start s : tokens s = [] → existsb is_start (thread s) = false.
Proof.
  unfold tokens. intros [Ht _]%app_nil. induction (thread s) as [|[] ts IH]; simpl in *; [done..|]. by apply IH.
Qed.

Lemma inv_enqueue o tid s :
  let p := next_op s in
  let d := OpData (m_next_op_id s) tid p in
  side_inv [] true s → m_next_op_id s < 2 ^ 64 - 1 →
  side_inv (match m_ops s with [] => [p] | _ => [] end) true
    (Side (u64 (m_next_op_id s + 1)) (m_ops s ++ [d]) (<[p := SharedOp o d]> (heap s)) (S p) (thread s) (ios s)
          (resolving s) (callbacks s) (log s) (started s)).
Proof.
  intros p d I Hlt. set (s' := Side _ _ _ _ _ _ _ _ _ _). pose proof (si_next _ _ _ I) as [Hn _].
  pose proof (no_tokens _ _ _ I) as Hnt.
  assert (∀ q so, heap s !! q = Some so → heap s' !! q = Some so) as Hold.
  { intros q so Hq. simpl. rewrite lookup_insert_ne; [done|]. intros <-. by rewrite (si_fresh _ _ _ I p) in Hq. }
  assert (∀ q, decided s q → decided s' q) as Hdec by (intros q (so & Hso & Hu); exists so; eauto).
  assert (∀ d', head (m_ops s') = Some d' → head (m_ops s) = Some d' ∨ m_ops s = [] ∧ d' = d) as Hhd.
  { intros d'. simpl. destruct (m_ops s); simpl; intros [= <-]; by auto. }
  assert (unstarted s' = unstarted s ++ (match m_ops s with [] => [] | _ => [d] end)) as Hun.
  { unfold unstarted. simpl. destruct (m_ops s) eqn:Em; [rewrite (no_start s) by auto; done|]. by destruct (existsb _ _). }
  destruct I. split; try done; try (by auto).
  - change (next_op s') with (S p). rewrite seq_S. fold p in si_once0. rewrite <- si_once0. unfold accounted, tokens, answered. simpl.
    destruct (m_ops s); simpl; [solve_Permutation|]. rewrite fmap_app. simpl. solve_Permutation.
  - simpl. rewrite wrap_small by lia. lia.
  - simpl. intros d' [Hin| ->%list_elem_of_singleton]%elem_of_app; [|simpl; unfold p; lia].
    apply si_queue0 in Hin. lia.
  - simpl. intros q Hq. destruct (decide (q = p)) as [->|Hne].
    + rewrite lookup_insert_eq. by eexists.
    + destruct (si_heap0 q) as (so & Hso & ?); [unfold p in *; lia|]. exists so. by rewrite lookup_insert_ne.
  - simpl. intros q Hq. rewrite lookup_insert_ne by lia. apply si_fresh0. unfold p in *. lia.
  - intros d' [Hd'|[-> ->]]%Hhd; [|right; right; by left]. destruct (si_head0 d' Hd') as [?|[?|?%elem_of_nil]]; by auto.
  - intros q Hq. destruct (si_tokens0 q Hq) as (d' & Hd' & <-). exists d'. split; [|done]. simpl.
    by destruct (m_ops s).
  - destruct si_order0 as [Hs Hl]. assert (Forall (λ q, (q < S p)%nat) (started s)) as Hl'.
    { eapply Forall_impl; [exact Hl|]. simpl. unfold p. lia. }
    split; [|done]. rewrite Hun, fmap_app. simpl. destruct (m_ops s) as [|d0 l] eqn:Em; [by rewrite app_nil_r|].
    rewrite app_assoc. apply StronglySorted_app. split_and!; [|done|by repeat constructor].
    intros x1 x2 Hx1 ->%list_elem_of_singleton. simpl.
    apply elem_of_app in Hx1 as [Hx1|(d' & -> & Hd')%list_elem_of_fmap].
    + rewrite Forall_forall in Hl. by apply Hl.
    + apply si_queue0. unfold unstarted in Hd'. rewrite Em in Hd'.
      destruct (existsb _ _); [done|by right].
Qed.

Lemma inv_push o tid s : side_inv [] true s → m_next_op_id s < 2 ^ 64 - 1 → side_inv [] true (push o tid s).
Proof.
  intros I Hlt. pose proof (inv_enqueue o tid s I Hlt) as I1. unfold push. rewrite length_app. simpl.
  destruct (m_ops s) as [|d l] eqn:Hq; simpl in *; [|case_decide; [lia|done]].
  eapply inv_give_thread; [done| |by eexists|done].
  intros _. simpl. destruct (si_order _ _ _ I) as [Hs Hl]. apply StronglySorted_app. split_and!.
  - intros x1 x2 Hx1 ->%list_elem_of_singleton. rewrite Forall_forall in Hl. by apply Hl.
  - by apply StronglySorted_app in Hs as (_ & ? & _).
  - by repeat constructor.
Qed.

(** A timeout. *)
Lemma inv_post_cancel d pipe s :
  head (m_ops s) = Some d → decided s (op d) → side_inv [] pipe s → side_inv [] pipe (post (Cancel (op d)) s).
Proof.
  intros Hd Hdec I. assert (∀ q, q ∈ tokens s → op d = q) as Htok.
  { intros q Hq. destruct (si_tokens _ _ _ I q Hq) as (d' & Hd' & <-). congruence. }
  assert (omap task_op (thread s ++ [Cancel (op d)]) = omap task_op (thread s)) as Eo by by rewrite omap_app, app_nil_r.
  destruct I. split; try done; unfold accounted, tokens, unstarted in *; simpl; rewrite ?Eo; try done.
  - apply cancels_ok_cancel; [..|done]; apply Forall_forall; intros q Hq; apply Htok; rewrite elem_of_app; by auto.
  - intros q [Hq|[= ->]%list_elem_of_singleton]%elem_of_app; [by apply (si_cancel0 q)|done].
  - rewrite existsb_app. simpl. by rewrite !orb_false_r.
Qed.

Lemma inv_time_out_waiting d0 l n d pipe s :
  m_ops s = d0 :: l → l !! n = Some d → decided s (op d) → side_inv [] pipe s →
  side_inv [] pipe (with_resolving (resolving s ++ [op d]) (with_ops (d0 :: delete n l) s)).
Proof.
  intros Hq Hn Hdec I. pose proof (delete_Permutation _ _ _ Hn) as Hp. pose proof (sublist_delete l n) as Hsub.
  assert (∀ d', d' ∈ d0 :: delete n l → d' ∈ m_ops s) as Hin.
  { intros d' Hd'. rewrite Hq. rewrite elem_of_cons in *. destruct Hd' as [?|Hd']; [by left|right].
    by eapply elem_of_sublist. }
  destruct I. split; try done; try (by auto).
  - rewrite <- si_once0. unfold accounted, tokens, answered. simpl. rewrite Hq. simpl.
    generalize (delete n l) Hp. intros l' ->. solve_Permutation.
  - intros d' Hd'. apply si_head0. by rewrite Hq.
  - intros q Hq'. rewrite Hq in si_tokens0. by apply si_tokens0.
  - simpl. intros q [?| ->%list_elem_of_singleton]%elem_of_app; [by apply si_resolving0|done].
  - intros d' Hpipe Hd'. apply si_closed0; by auto.
  - destruct si_order0 as [Hs Hl]. split; [|done]. eapply sorted_sublist, Hs. simpl. apply sublist_app; [done|].
    apply fmap_sublist. unfold unstarted. rewrite Hq. simpl. destruct (existsb _ _); [by constructor|done].
Qed.

Lemma inv_cancel_op_by_timeout i pipe s : side_inv [] pipe s → side_inv [] pipe (cancel_op_by_timeout i s).
Proof.
  intros I. unfold cancel_op_by_timeout. destruct (list_find _ (m_ops s)) as [[n d]|] eqn:Ef; [|done].
  apply list_find_Some in Ef as (Hn & Hi & Hmin). pose proof (list_elem_of_lookup_2 _ _ _ Hn) as Hin.
  assert (decided (set_result set_timeout_if_possible (op d) s) (op d)) as Hdec.
  { apply decided_set_result; [done|]. destruct (si_queue _ _ _ I d Hin) as [_ Hlt].
    destruct (si_heap _ _ _ I _ Hlt) as (so & Hso & _). by exists so. }
  assert (side_inv [] pipe (set_result set_timeout_if_possible (op d) s)) as I1 by by apply inv_set_result.
  cbn [m_ops set_result update]. destruct (m_ops s) as [|d0 l] eqn:Hq; [done|]. simpl.
  case_decide as Hh.
  - apply (inv_post_cancel d pipe (set_result set_timeout_if_possible (op d) s)); [|done..]. simpl. rewrite Hq. simpl.
    f_equal. destruct n as [|n]; [by simplify_eq/=|]. by destruct (Hmin 0%nat d0 eq_refl); [lia|simplify_eq].
  - destruct n as [|n]; [by simplify_eq/=|].
    by apply (inv_time_out_waiting d0 l n d pipe (set_result set_timeout_if_possible (op d) s)).
Qed.

(** The callbacks. *)
Lemma inv_check_callback n r pipe s s' : side_inv [] pipe s → check_callback n s = Some (r, s') → side_inv [] pipe s'.
Proof.
  intros I. unfold check_callback. destruct (callbacks s !! n) as [c|] eqn:Hc; [|done].
  destruct (checked c); [done|]. intros [= <- <-].
  assert ((λ r, op (r_data r)) <$> <[n := mark c]> (callbacks s) = answered s) as Ea.
  { unfold answered. rewrite list_fmap_insert. apply list_insert_id. by rewrite list_lookup_fmap, Hc. }
  destruct I. split; try done; unfold accounted, answered in *; simpl; rewrite ?Ea; try done.
  intros r [k [(_ & <- & _)|[_ Hr]]%list_lookup_insert_Some]%list_elem_of_lookup; [apply (si_callbacks0 c)|apply si_callbacks0];
    by eapply list_elem_of_lookup_2.
Qed.

(** [publish q r cbs s]: the result of [r] is published, the other callbacks
    are [cbs], and the queue is [q]. *)
Definition publish (q : list op_data) (r : resolved) (cbs : list resolved) s : side Op :=
  Side (m_next_op_id s) q (heap s) (next_op s) (thread s) (ios s) (resolving s) cbs
       (log s ++ [(op (r_data r), to_pipe_op_res (r_res r), r_value r)]) (started s).

Lemma inv_publish r cbs pipe s :
  callbacks s ≡ₚ r :: cbs → (∀ d, head (m_ops s) = Some d → op d ≠ op (r_data r)) →
  side_inv [] pipe s → side_inv [] pipe (publish (m_ops s) r cbs s).
Proof.
  intros Hp Hne I. destruct (si_callbacks _ _ _ I r) as [Hru _]; [rewrite Hp; by left|].
  destruct I. split; try done.
  - rewrite <- si_once0. unfold accounted, answered. simpl. rewrite Hp, fmap_app. simpl. solve_Permutation.
  - intros d Hd. destruct (si_head0 d Hd) as [?|[Ha|?%elem_of_nil]]; [by left| |done]. right. left.
    unfold answered in Ha. rewrite Hp in Ha. simpl in Ha. apply elem_of_cons in Ha as [?|?]; [by destruct (Hne d Hd)|done].
  - intros c Hc. apply si_callbacks0. rewrite Hp. by right.
  - simpl. intros c [?| ->%list_elem_of_singleton]%elem_of_app; [by apply si_log0|]. simpl. by destruct (r_res r).
Qed.

Lemma inv_publish_pop d l r cbs pipe s :
  m_ops s = d :: l → op d = op (r_data r) → callbacks s ≡ₚ r :: cbs → tokens s = [] →
  side_inv [] pipe s →
  side_inv (match l with [] => [] | d' :: _ => [op d'] end) pipe (publish l r cbs s).
Proof.
  intros Hq Hd Hp Ht I. destruct (si_callbacks _ _ _ I r) as [Hru _]; [rewrite Hp; by left|].
  pose proof (no_start s Ht) as Hns.
  destruct I. split; try done.
  - rewrite <- si_once0. unfold accounted, answered, tokens. simpl. rewrite Hp, Hq, fmap_app. simpl.
    destruct l; simpl; solve_Permutation.
  - intros d' Hd'. apply si_queue0. rewrite Hq. by right.
  - simpl. intros d' Hd'. right. right. destruct l; simplify_eq/=. by left.
  - intros q Hin. change (tokens (publish l r cbs s)) with (tokens s) in Hin. rewrite Ht in Hin. by apply elem_of_nil in Hin.
  - intros c Hc. apply si_callbacks0. rewrite Hp. by right.
  - simpl. intros c [?| ->%list_elem_of_singleton]%elem_of_app; [by apply si_log0|]. simpl. by destruct (r_res r).
  - simpl. intros d' Hpipe Hd'. apply si_closed0; [done|]. rewrite Hq. by right.
  - destruct si_order0 as [Hs Hl]. split; [|done]. eapply sorted_sublist, Hs. simpl. apply sublist_app; [done|].
    apply fmap_sublist. unfold unstarted. simpl. rewrite Hns, Hq. destruct l; [done|by apply sublist_cons].
Qed.

Lemma inv_finish_callback n r pipe s :
  side_inv [] pipe s → callbacks s !! n = Some r → side_inv [] pipe (finish_callback n r s).1.
Proof.
  intros I Hn. pose proof (list_elem_of_lookup_2 _ _ _ Hn) as Hr. pose proof (delete_Permutation _ _ _ Hn) as Hp.
  destruct (si_callbacks _ _ _ I r Hr) as [Hru Hrid].
  assert (op (r_data r) ∉ tokens s) as Hnt.
  { intros Hin%occ_elem. pose proof (side_accounted_once _ _ _ (op (r_data r)) I) as H1. unfold accounted in H1.
    apply (list_elem_of_fmap_2 (λ r, op (r_data r))), occ_elem in Hr. rewrite !occ_app in H1. unfold answered in H1. lia. }
  unfold finish_callback, complete_op. simpl. revert Hp. generalize (delete n (callbacks s)). intros cbs Hp.
  destruct (m_ops s) as [|d l] eqn:Hq.
  { replace [] with (m_ops s) by done. apply (inv_publish r cbs); [done|by rewrite Hq|done]. }
  assert (id d = Z.of_nat (op d)) as Hid by (apply (si_queue _ _ _ I); rewrite Hq; by left).
  case_decide as E; simpl.
  - assert (op d = op (r_data r)) as Ed by lia.
    assert (tokens s = []) as Ht.
    { destruct (tokens s) as [|q ts] eqn:Et; [done|]. destruct (si_tokens _ _ _ I q) as (d' & Hd' & <-); [rewrite Et; by left|].
      rewrite Hq in Hd'. simplify_eq/=. destruct Hnt. rewrite Ed. by left. }
    pose proof (inv_publish_pop d l r cbs pipe s Hq Ed Hp Ht I) as I1. destruct l as [|d' l]; [done|].
    eapply inv_give_thread; [done| |by eexists|exact I1]. intros _. simpl.
    destruct (si_order _ _ _ I) as [Hs _]. unfold unstarted in Hs. by rewrite (no_start s Ht), Hq in Hs.
  - rewrite <- Hq. apply (inv_publish r cbs); [done| |done]. rewrite Hq. intros ? [= <-]. lia.
Qed.

(** The pipe is closed. *)
Lemma foldl_set_result f q s :
  foldl (λ s d, set_result f (op d) s) s q =
  Side (m_next_op_id s) (m_ops s) (heap (foldl (λ s d, set_result f (op d) s) s q)) (next_op s) (thread s) (ios s)
       (resolving s) (callbacks s) (log s) (started s).
Proof. revert s. induction q as [|d q IH]; intros s; simpl; [by destruct s|]. rewrite IH. done. Qed.

Lemma inv_set_results f q lost pipe s :
  (∀ r, f r ≠ unknown) → side_inv lost pipe s → (∀ d, d ∈ q → (op d < next_op s)%nat) →
  let s' := foldl (λ s d, set_result f (op d) s) s q in
  side_inv lost pipe s' ∧ (∀ p, decided s p → decided s' p) ∧ ∀ d, d ∈ q → decided s' (op d).
Proof.
  intros Hf. revert s. induction q as [|d q IH]; intros s I Hlt; simpl.
  { split_and!; [done..|]. intros d Hd. by apply elem_of_nil in Hd. }
  destruct (IH (set_result f (op d) s)) as (I' & Hm & Hd); [by apply inv_set_result|intros d' Hd'; apply Hlt; by right|].
  split_and!; [done| |].
  - intros p Hp. apply Hm, decided_update; [|done]. intros so _ _. by rewrite op_res_with.
  - intros d' [->|Hd']%elem_of_cons; [|by apply Hd]. apply Hm, decided_set_result; [done|].
    destruct (si_heap _ _ _ I (op d)) as (so & Hso & _); [apply Hlt; by left|by exists so].
Qed.

Lemma inv_invalidate_side by_cancel s : side_inv [] true s → side_inv [] false (invalidate_side by_cancel s).
Proof.
  intros I. unfold invalidate_side. set (f := if by_cancel then _ else _).
  assert (∀ r, f r ≠ unknown) as Hf by (unfold f; destruct by_cancel; auto).
  destruct (inv_set_results f (m_ops s) [] true s Hf I) as (I' & _ & Hd); [intros d Hd; by apply (si_queue _ _ _ I)|].
  pose proof (foldl_set_result f (m_ops s) s) as E. revert I' Hd E. generalize (foldl (λ s d, set_result f (op d) s) s (m_ops s)).
  intros s' I' Hd E. assert (m_ops s' = m_ops s) as Eq by by rewrite E.
  assert (side_inv [] false s') as I2.
  { destruct I'. split; try done. intros d _. rewrite Eq. apply Hd. }
  apply inv_abort_ios; [|done]. intros p Hp. destruct (si_tokens _ _ _ I2 p) as (d & Hh & <-).
  { unfold tokens. rewrite elem_of_app. by right. }
  apply Hd. rewrite <- Eq. by apply head_Some_elem_of.
Qed.
End side.

(** ** What a side promises *)
Section promise.
Context {Op : Type} `{OperationLaws Op}.
Implicit Types s : side Op.

(** The promises that got their value, and those on the way to it. *)
Definition kept s : list nat := (λ c, c.1.1) <$> log s.
Definition on_the_way s : list nat := answered s ++ resolving s ++ tokens s ++ (op <$> tail (m_ops s)).

Record side_ok (pipe : bool) s : Prop := {
  ok_once : kept s ++ on_the_way s ≡ₚ seq 0 (next_op s);
  ok_results : Forall (λ c, is_Some c.1.2) (log s) ∧ Forall (λ r, r_res r ≠ unknown) (callbacks s);
  ok_driven : m_ops s ≠ [] → tokens s ++ answered s ≠ [];
  ok_calls : (length (ios s) ≤ 1)%nat ∧ StronglySorted lt (started s);
  ok_closed : pipe = false → Forall (λ d, decided s (op d)) (m_ops s)
}.

Lemma one_io pipe s : side_inv [] pipe s → (length (ios s) ≤ 1)%nat.
Proof.
  intros I. destruct (ios s) as [|i [|j l]] eqn:Hi; simpl; [lia..|exfalso].
  assert (∀ k, k ∈ [i; j] → ∃ d, head (m_ops s) = Some d ∧ op d = io_op k) as Hh.
  { intros k Hk. apply (si_tokens _ _ _ I). unfold tokens. rewrite Hi, elem_of_app. right. apply list_elem_of_fmap_2.
    rewrite !elem_of_cons in *. rewrite elem_of_nil in Hk. tauto. }
  destruct (Hh i) as (d & Hd & Ei); [by left|]. destruct (Hh j) as (d' & Hd' & Ej); [right; by left|].
  rewrite Hd in Hd'. simplify_eq. pose proof (side_accounted_once _ _ _ (io_op i) I) as H1.
  unfold accounted, tokens in H1. rewrite Hi in H1. rewrite !occ_app in H1. simpl in H1.
  rewrite !occ_cons, decide_True, decide_True in H1 by congruence. lia.
Qed.

Lemma side_inv_ok pipe s : side_inv [] pipe s → side_ok pipe s.
Proof.
  intros I. split.
  - rewrite <- (si_once _ _ _ I). done.
  - split; apply Forall_forall; [apply (si_log _ _ _ I)|]. intros r Hr. by apply (si_callbacks _ _ _ I).
  - destruct (m_ops s) as [|d l] eqn:Hq; [done|]. intros _ [Ht Ha]%app_nil.
    destruct (si_head _ _ _ I d) as [Hin|[Hin|Hin]]; [by rewrite Hq|..]; rewrite ?Ht, ?Ha in Hin; by apply elem_of_nil in Hin.
  - split; [by eapply one_io|]. destruct (si_order _ _ _ I) as [Hs _]. by apply StronglySorted_app in Hs as (_ & ? & _).
  - intros Hp. apply Forall_forall. intros d Hd. by apply (si_closed _ _ _ I).
Qed.
End promise.

(** ** The endpoint *)
Record inv (e : impl) : Prop := {
  inv_writes : side_inv [] (m_pipe e) (writes e);
  inv_reads : side_inv [] (m_pipe e) (reads e);
  inv_callbacks : m_pipe e = false → m_disconnect_callbacks e = []
}.

Lemma inv_invalidate_impl by_cancel e : inv e → inv (invalidate_impl by_cancel e).
Proof.
  intros I. pose proof I as [Hw Hr Hc]. unfold invalidate_impl. destruct (m_pipe e) eqn:Hp; [|done].
  split; simpl; [by apply inv_invalidate_side..|done].
Qed.
Lemma inv_check_failed r e : inv e → inv (check_failed r e).
Proof. intros I. unfold check_failed. case_decide; [by apply inv_invalidate_impl|done]. Qed.

Lemma inv_win_step e e' : inv e → step e e' → inv e'.
Proof.
  intros I Hs. pose proof I as [Hw Hr Hc].
  destruct Hs as [msg tmo Hlt|tmo Hlt| |cb|s Hs|s Hs|n e' Hcb|n e' Hcb|n e' Hcb|n e' Hcb|k|k e' Hk].
  - unfold write_async. destruct (m_pipe e) eqn:Hp; [|done]. simpl. destruct (start_timer _ _ _ _) as [tid t]. simpl.
    split; simpl; rewrite Hp; [by apply inv_push|done..].
  - unfold read_async. destruct (m_pipe e) eqn:Hp; [|done]. simpl. destruct (start_timer _ _ _ _) as [tid t]. simpl.
    split; simpl; rewrite Hp; [done|by apply inv_push|done].
  - by apply inv_invalidate_impl.
  - unfold set_disconnect_callback. destruct (m_pipe e) eqn:Hp; by split.
  - split; [by eapply inv_side_step|done..].
  - split; [done|by eapply inv_side_step|done].
  - unfold write_callback in Hcb. apply bind_Some in Hcb as ([r s] & Hck & [= <-]).
    apply inv_check_failed. split; [by eapply inv_check_callback|done..].
  - unfold read_callback in Hcb. apply bind_Some in Hcb as ([r s] & Hck & [= <-]).
    apply inv_check_failed. split; [done|by eapply inv_check_callback|done].
  - unfold write_callback_end in Hcb. destruct (callbacks (writes e) !! n) as [r|] eqn:Hn; [|done].
    destruct (checked r); [|done]. pose proof (inv_finish_callback n r _ _ Hw Hn) as Hf.
    destruct (finish_callback n r (writes e)) as [s d]. simplify_eq. by split.
  - unfold read_callback_end in Hcb. destruct (callbacks (reads e) !! n) as [r|] eqn:Hn; [|done].
    destruct (checked r); [|done]. pose proof (inv_finish_callback n r _ _ Hr Hn) as Hf.
    destruct (finish_callback n r (reads e)) as [s d]. simplify_eq. by split.
  - by split.
  - unfold run_timer in Hk. destruct (MultipleTimer.run_handler k (m_timer e)) as [[[[[] i]|] t]|]; simplify_eq;
      split; simpl; try done; by apply inv_cancel_op_by_timeout.
Qed.

Lemma win_reachable_inv e : rtc step create e → inv e.
Proof.
  apply rtc_invariant; [split; [apply side_inv_empty..|done]|apply inv_win_step].
Qed.

(** C28: In every run of a Windows pipe endpoint and its I/O threads, whatever calls,
    timeouts, completion packets and closings interleave: a promise of a read or
    a write gets one result at most and until then is somewhere on the way to it; no
    operation is ever resolved with an unknown result, the assertions of [resolve]
    and [to_pipe_op_res]; a queue that has operations has its oldest one under way;
    of each kind the system has one call at a time, made in the order of the
    operations; and once the pipe is closed every queued operation has its result
    and no disconnect callback is left. *)
Theorem win_pipe_promises e :
  rtc step create e →
  side_ok (m_pipe e) (writes e) ∧ side_ok (m_pipe e) (reads e) ∧ (m_pipe e = false → m_disconnect_callbacks e = []).
Proof. intros [Hw Hr Hc]%win_reachable_inv. split_and!; [by apply side_inv_ok..|done]. Qed.

(** A write that the system ends, and a read that a closing cancels. *)
Definition one_write_state : impl :=
  let e := (write_async [1; 2] None create).2 in
  let e := (read_async (Some 5) e).2 in
  let s := default (writes e) (s ← run_task true [] (writes e); s ← run_task true [] s;
                                s ← io_ends (IoSuccess []) s; run_worker s) in
  let e := invalidate (with_writes s e) in
  default e (e ← write_callback 0 e; write_callback_end 0 e).
Lemma one_write_reachable : rtc step create one_write_state.
Proof.
  eapply rtc_l; [apply (step_write create [1; 2] None); vm_compute; reflexivity|].
  eapply rtc_l; [apply (step_read _ (Some 5)); vm_compute; reflexivity|].
  eapply rtc_l; [eapply step_writes, (side_task _ _ []); vm_compute; reflexivity|].
  eapply rtc_l; [eapply step_writes, (side_task _ _ []); vm_compute; reflexivity|].
  eapply rtc_l; [eapply step_writes, (side_io _ _ (IoSuccess [])); vm_compute; reflexivity|].
  eapply rtc_l; [eapply step_writes, side_packet; vm_compute; reflexivity|].
  eapply rtc_l; [apply step_invalidate|].
  eapply rtc_l; [eapply (step_write_callback _ 0%nat); vm_compute; reflexivity|].
  eapply rtc_l; [eapply (step_write_callback_end _ 0%nat); vm_compute; reflexivity|].
  vm_compute. reflexivity.
Qed.
Lemma win_pipe_promises_witness :
  (side_ok false (writes one_write_state) ∧ side_ok false (reads one_write_state) ∧
   (m_pipe one_write_state = false → m_disconnect_callbacks one_write_state = [])) ∧
  log (writes one_write_state) = [(0%nat, Some PipeOpRes.success, [])].
Proof.
  split; [|vm_compute; reflexivity]. apply (win_pipe_promises one_write_state). exact one_write_reachable.
Defined.
