(* ===== verification/WinPipeDrain.v ===== *)
(** * A closed Windows pipe comes to rest

    Once the pipe is closed, the threads, the system and the callbacks have a
    bounded number of steps to make, and when none is left every promise has its
    value. *)
From S2P Require Import Prelude RpcTypes WinOperation WinPipe WinPipeFacts.
Import WinRes WinPipe.
Local Open Scope nat_scope.

(** What happens without a call of the application and without a timer. *)
Inductive internal (e : impl) : impl → Prop :=
| internal_writes s : side_step (m_pipe e) (writes e) s → internal e (with_writes s e)
| internal_reads s : side_step (m_pipe e) (reads e) s → internal e (with_reads s e)
| internal_write_callback n e' : write_callback n e = Some e' → internal e e'
| internal_read_callback n e' : read_callback n e = Some e' → internal e e'
| internal_write_callback_end n e' : write_callback_end n e = Some e' → internal e e'
| internal_read_callback_end n e' : read_callback_end n e = Some e' → internal e e'.

Lemma internal_step e e' : internal e e' → step e e'.
Proof. intros []; by econstructor. Qed.

(** ** The work a side has left *)
Definition task_work (t : task) : nat := match t with Start _ => 7 | DoStart _ => 6 | Rest _ => 3 | Cancel _ => 1 end.
Definition io_work (i : io) : nat := match i with Pending _ _ => 5 | Packet _ _ => 4 end.
Definition callback_work (r : resolved) : nat := if checked r then 1 else 2.

Section side.
Context {Op : Type} `{OperationLaws Op}.
Implicit Types s : side Op.

Definition work s : nat :=
  8 * length (tail (m_ops s)) + sum_list_with task_work (thread s) + sum_list_with io_work (ios s) +
  3 * length (resolving s) + sum_list_with callback_work (callbacks s).

Lemma sum_list_delete {A} (f : A → nat) l n x : l !! n = Some x → sum_list_with f l = f x + sum_list_with f (delete n l).
Proof. intros Hn. rewrite (delete_Permutation _ _ _ Hn) at 1. done. Qed.

Lemma resolve_work p s s' : resolve p s = Some s' → work s' = work s + 2.
Proof.
  unfold resolve. destruct (heap s !! p); [|done]. intros [= <-]. unfold work. simpl. rewrite sum_list_with_app. simpl. lia.
Qed.

Lemma start_io_work calls p s s' : start_io false calls p s = Some s' → work s' = work s + 2.
Proof.
  unfold start_io. destruct (heap s !! p) as [so|]; [|done]. pose proof (op_start_error (the_op so)) as He.
  destruct (op_start _ (the_op so)) as [ec o]. simpl in He. subst ec. intros E%resolve_work. done.
Qed.

Lemma work_abortable l : sum_list_with io_work (abortable <$> l) = sum_list_with io_work l.
Proof. induction l as [|[] l IH]; [done|..]; rewrite fmap_cons; simpl; by rewrite IH. Qed.

Lemma side_step_work s s' : side_step false s s' → work s' < work s.
Proof.
  intros [calls s1 Hs|st s1 Hs|s1 Hs|n s1 Hs].
  - unfold run_task in Hs. destruct (thread s) as [|t ts] eqn:Ht; [done|].
    assert (work s = work (with_thread ts s) + task_work t) as -> by (unfold work; rewrite Ht; simpl; lia).
    destruct t as [p|p|p|p]; simpl.
    + destruct (heap _ !! p); [|done]. case_decide; simplify_eq.
      * unfold work. simpl. lia.
      * apply resolve_work in Hs. lia.
    + apply start_io_work in Hs. unfold work in *. simpl in *. lia.
    + apply start_io_work in Hs. lia.
    + simpl in Hs. destruct (heap s !! p) as [so|]; simplify_eq/=. destruct (op_cancels _); [|lia].
      unfold work. simpl. rewrite work_abortable. lia.
  - unfold io_ends in Hs. destruct (ios s) as [|[p ab|] l] eqn:Hi; [done| |done]. case_match; simplify_eq.
    unfold work. simpl. rewrite Hi. simpl. lia.
  - unfold run_worker in Hs. destruct (ios s) as [|[|p st] l] eqn:Hi; [done..|].
    assert (work s = work (with_ios l s) + 4) as -> by (unfold work; rewrite Hi; simpl; lia).
    destruct (heap s !! p) as [so|]; [|done]. destruct (op_packet st (the_op so)).
    + apply resolve_work in Hs. unfold work in *. simpl in *. lia.
    + simplify_eq. unfold work. simpl. rewrite sum_list_with_app. simpl. lia.
  - unfold resolve_timed_out in Hs. destruct (resolving s !! n) as [p|] eqn:Hn; [|done].
    apply resolve_work in Hs. rewrite Hs. apply (sum_list_delete (λ _, 1)) in Hn.
    assert (∀ l : list nat, sum_list_with (λ _, 1) l = length l) as Hl by (induction l; simpl; auto).
    rewrite !Hl in Hn. unfold work. simpl. lia.
Qed.

Lemma check_callback_work n r s s' : check_callback n s = Some (r, s') → work s' < work s.
Proof.
  unfold check_callback. destruct (callbacks s !! n) as [c|] eqn:Hn; [|done]. destruct (checked c) eqn:Hc; [done|].
  intros [= <- <-]. unfold work. simpl. rewrite insert_take_drop by by eapply lookup_lt_Some.
  rewrite <- (take_drop_middle _ _ _ Hn) at 3. rewrite !sum_list_with_app. simpl.
  assert (callback_work c = 2) as -> by (unfold callback_work; by rewrite Hc).
  change (callback_work (mark c)) with 1. lia.
Qed.

Lemma finish_callback_work n r s : callbacks s !! n = Some r → work (finish_callback n r s).1 < work s.
Proof.
  intros Hn. pose proof (sum_list_delete callback_work _ _ _ Hn) as Hs.
  assert (1 ≤ callback_work r) as Hr by (unfold callback_work; case_match; lia).
  unfold finish_callback, complete_op. simpl. destruct (m_ops s) as [|d l] eqn:Hq.
  - unfold work. simpl. rewrite Hq. simpl. lia.
  - case_decide; [destruct l as [|d' l]|]; unfold work; simpl; rewrite ?Hq, ?sum_list_with_app; simpl; lia.
Qed.

(** ** While something is on the way, there is a step *)
Lemma heap_accounted pipe p s : side_inv [] pipe s → p ∈ accounted [] s → is_Some (heap s !! p).
Proof.
  intros I Hp. destruct (si_heap _ _ _ I p) as (so & Hso & _); [by eapply side_accounted_lt|by exists so].
Qed.
Lemma is_Some_resolve p s : is_Some (heap s !! p) → is_Some (resolve p s).
Proof. intros [so Hso]. unfold resolve. rewrite Hso. by eexists. Qed.
Lemma is_Some_update f q p s : is_Some (heap s !! p) → is_Some (heap (update f q s) !! p).
Proof.
  intros [so Hso]. simpl. destruct (decide (q = p)) as [->|]; [rewrite lookup_alter_eq|rewrite lookup_alter_ne by done];
    rewrite Hso; by eexists.
Qed.
Lemma is_Some_start_io pipe calls p s : is_Some (heap s !! p) → is_Some (start_io pipe calls p s).
Proof.
  intros Hp. unfold start_io. destruct Hp as [so Hso] eqn:E. rewrite Hso. destruct (op_start _ _) as [[] o]; [|by eexists].
  apply is_Some_resolve, is_Some_update, is_Some_update. by eexists.
Qed.

Lemma side_progress pipe s :
  side_inv [] pipe s → thread s ≠ [] ∨ ios s ≠ [] ∨ resolving s ≠ [] → ∃ s', side_step pipe s s'.
Proof.
  intros I [Ht|[Hi|Hr]].
  - destruct (thread s) as [|t ts] eqn:E; [done|].
    assert (is_Some (heap s !! match t with Start p | DoStart p | Rest p | Cancel p => p end)) as Hh.
    { destruct t as [p|p|p|p]; [..|destruct (si_cancel _ _ _ I p) as (so & Hso & _); [rewrite E; by left|by exists so]];
        apply (heap_accounted pipe); try done; unfold accounted, tokens; rewrite E, !elem_of_app; do 3 right; left; left; by left. }
    assert (is_Some (run_task pipe [] s)) as [s' Hs]; [|exists s'; by eapply side_task].
    unfold run_task. rewrite E. destruct t as [p|p|p|p]; simpl.
    + destruct Hh as [so Hso]. rewrite Hso. case_decide; [by eexists|]. apply is_Some_resolve. by exists so.
    + by apply is_Some_start_io.
    + by apply is_Some_start_io.
    + destruct Hh as [so Hso]. rewrite Hso. by eexists.
  - destruct (ios s) as [|[p ab|p st] l] eqn:E; [done|..].
    + eexists. eapply (side_io _ _ (IoError 0)). unfold io_ends. by rewrite E.
    + assert (is_Some (heap s !! p)) as [so Hso].
      { apply (heap_accounted pipe); [done|]. unfold accounted, tokens. rewrite E, !elem_of_app. do 3 right. left. right. by left. }
      assert (is_Some (run_worker s)) as [s' Hs]; [|exists s'; by eapply side_packet].
      unfold run_worker. rewrite E, Hso. destruct (op_packet st (the_op so)); [|by eexists].
      apply is_Some_resolve, is_Some_update. by exists so.
  - destruct (resolving s) as [|p l] eqn:E; [done|].
    assert (is_Some (heap s !! p)) as Hp.
    { apply (heap_accounted pipe); [done|]. unfold accounted. rewrite E, !elem_of_app. right. right. left. by left. }
    assert (is_Some (resolve_timed_out 0 s)) as [s' Hs]; [|exists s'; by eapply side_resolve].
    unfold resolve_timed_out. rewrite E. simpl. by apply is_Some_resolve.
Qed.

(** A side at rest has kept its promises. *)
Lemma side_at_rest pipe s :
  side_inv [] pipe s → (∀ s', ¬ side_step pipe s s') → callbacks s = [] → kept s ≡ₚ seq 0 (next_op s) ∧ m_ops s = [].
Proof.
  intros I Hn Hc. destruct (decide (thread s = [])) as [Ht|Ht];
    [|exfalso; destruct (side_progress pipe s) as [s' Hs]; [by auto..|by destruct (Hn s')]].
  destruct (decide (resolving s = [])) as [Hr|Hr]; [|exfalso; destruct (side_progress pipe s) as [s' Hs]; [by auto..|by destruct (Hn s')]].
  assert (ios s = []) as Hi.
  { destruct (ios s) eqn:E; [done|]. destruct (side_progress pipe s) as [s' Hs]; [done|rewrite E; by auto|by destruct (Hn s')]. }
  assert (m_ops s = []) as Hq.
  { destruct (m_ops s) as [|d l] eqn:Hq; [done|]. destruct (si_head _ _ _ I d) as [Hin|[Hin|Hin]]; [by rewrite Hq|..];
      unfold tokens, answered in Hin; rewrite ?Ht, ?Hi, ?Hc in Hin; by apply elem_of_nil in Hin. }
  split; [|done]. rewrite <- (si_once _ _ _ I). unfold accounted, kept, answered, tokens. rewrite Hr, Ht, Hi, Hc, Hq. simpl.
  by rewrite app_nil_r.
Qed.
End side.

(** ** The endpoint *)
Definition total_work (e : impl) : nat := work (writes e) + work (reads e).

Lemma check_failed_closed r e : m_pipe e = false → check_failed r e = e.
Proof. intros Hp. unfold check_failed, invalidate_impl. rewrite Hp. by case_decide. Qed.

Lemma internal_work e e' : m_pipe e = false → internal e e' → m_pipe e' = false ∧ total_work e' < total_work e.
Proof.
  intros Hp Hs. destruct Hs as [s Hs|s Hs|n e' Hc|n e' Hc|n e' Hc|n e' Hc].
  - rewrite Hp in Hs. apply side_step_work in Hs. split; [done|]. unfold total_work. simpl. lia.
  - rewrite Hp in Hs. apply side_step_work in Hs. split; [done|]. unfold total_work. simpl. lia.
  - unfold write_callback in Hc. apply bind_Some in Hc as ([r s] & Hck%check_callback_work & [= <-]).
    rewrite check_failed_closed by done. split; [done|]. unfold total_work. simpl. lia.
  - unfold read_callback in Hc. apply bind_Some in Hc as ([r s] & Hck%check_callback_work & [= <-]).
    rewrite check_failed_closed by done. split; [done|]. unfold total_work. simpl. lia.
  - unfold write_callback_end in Hc. destruct (callbacks (writes e) !! n) as [r|] eqn:Hn; [|done].
    destruct (checked r); [|done]. apply finish_callback_work in Hn. destruct (finish_callback n r (writes e)).
    simplify_eq. split; [done|]. unfold total_work. simpl in *. lia.
  - unfold read_callback_end in Hc. destruct (callbacks (reads e) !! n) as [r|] eqn:Hn; [|done].
    destruct (checked r); [|done]. apply finish_callback_work in Hn. destruct (finish_callback n r (reads e)).
    simplify_eq. split; [done|]. unfold total_work. simpl in *. lia.
Qed.

Lemma closed_terminates e : m_pipe e = false → Acc (flip internal) e.
Proof.
  remember (total_work e) as n eqn:En. revert e En. induction (lt_wf n) as [n _ IH]. intros e -> Hp.
  constructor. intros e' Hs. destruct (internal_work e e' Hp Hs) as [Hp' Hw]. by eapply IH.
Qed.

(** Callbacks can always run. *)
Lemma no_callbacks e : (∀ e', ¬ internal e e') → callbacks (writes e) = [] ∧ callbacks (reads e) = [].
Proof.
  intros Hn. split.
  - destruct (callbacks (writes e)) as [|r l] eqn:Hc; [done|]. exfalso. destruct (checked r) eqn:Hr.
    + eapply Hn, (internal_write_callback_end _ 0). unfold write_callback_end. rewrite Hc. simpl. rewrite Hr.
      by rewrite (surjective_pairing (finish_callback _ _ _)).
    + eapply Hn, (internal_write_callback _ 0). unfold write_callback, check_callback. rewrite Hc. simpl. by rewrite Hr.
  - destruct (callbacks (reads e)) as [|r l] eqn:Hc; [done|]. exfalso. destruct (checked r) eqn:Hr.
    + eapply Hn, (internal_read_callback_end _ 0). unfold read_callback_end. rewrite Hc. simpl. rewrite Hr.
      by rewrite (surjective_pairing (finish_callback _ _ _)).
    + eapply Hn, (internal_read_callback _ 0). unfold read_callback, check_callback. rewrite Hc. simpl. by rewrite Hr.
Qed.

(** C29: Once a Windows pipe endpoint is closed, the I/O threads, the system and the
    callbacks of the futures can make finitely many steps only, in every order;
    and in every reachable state, closed or not, in which none is left, every promise
    of a read and of a write has its value and both queues are empty. *)
Theorem win_pipe_comes_to_rest e :
  rtc step create e →
  (m_pipe e = false → Acc (flip internal) e) ∧
  ((∀ e', ¬ internal e e') →
   (kept (writes e) ≡ₚ seq 0 (next_op (writes e)) ∧ m_ops (writes e) = []) ∧
   (kept (reads e) ≡ₚ seq 0 (next_op (reads e)) ∧ m_ops (reads e) = [])).
Proof.
  intros [Hw Hr _]%win_reachable_inv. split; [apply closed_terminates|]. intros Hn.
  destruct (no_callbacks e Hn) as [Hcw Hcr]. split.
  - eapply side_at_rest; [done| |done]. intros s' Hs. by eapply Hn, internal_writes.
  - eapply side_at_rest; [done| |done]. intros s' Hs. by eapply Hn, internal_reads.
Qed.

Lemma win_pipe_comes_to_rest_witness :
  Acc (flip internal) one_write_state.
Proof. apply (win_pipe_comes_to_rest one_write_state); [apply one_write_reachable|vm_compute; reflexivity]. Defined.
