(* ===== verification/WinWorker.v ===== *)
(** * The completion port and the life of its owner

    [iocp] of win-lib over a completion port of Windows, and
    [win_pipe_iocp_owner] from its construction to its destruction: the worker
    thread handles the packets of the port until it finds the one that
    interrupts it, and the two threads that issue reads and writes are pools. *)
From S2P Require Import Prelude ThreadPool.
Import ThreadPool.
Local Open Scope Z_scope.

(** ** iocp

    A port of the system: the handles it is associated with, and packets.
    [GetQueuedCompletionStatus] waits for the oldest packet; the other calls
    succeed or fail with an error code, [outcome]. *)
Module Iocp.
Record packet : Type := Packet {
  p_result : bool;
  p_bytes : Z;
  p_key : Z;
  p_overlapped : option nat;
  p_error : Z
}.
Record port : Type := Port { handles : list (nat * Z); packets : list packet }.
Abbreviation M := (prog port).

Definition ERROR_SUCCESS : Z := 0.
Record completion_status : Type := Status {
  success : bool;
  bytes_transferred : Z;
  key : Z;
  overlapped : option nat;
  error : Z
}.

(** The constructor; [None] is a handle that is not null. *)
Definition create (outcome : option Z) : M unit :=
  match outcome with None => ret tt | Some _ => throw system_error end.

(** The overloads with [ec] and those that throw; [None] is a handle that is null
    or invalid, for which an assertion fails. *)
Definition associate_ec (outcome : option Z) (h : option nat) (k : Z) : M Z :=
  match h, outcome with
  | None, _ => undefined
  | Some h, None => λ s, Ok ERROR_SUCCESS (Port (handles s ++ [(h, k)]) (packets s))
  | Some _, Some error => ret error
  end.
Definition throw_if (m : M Z) : M unit :=
  bind m (λ ec, if decide (ec = ERROR_SUCCESS) then ret tt else throw system_error).
Definition associate (outcome : option Z) (h : option nat) (k : Z) : M unit := throw_if (associate_ec outcome h k).

Definition post_ec (outcome : option Z) (bytes k : Z) (ov : option nat) : M Z :=
  match outcome with
  | None => λ s, Ok ERROR_SUCCESS (Port (handles s) (packets s ++ [Packet true bytes k ov ERROR_SUCCESS]))
  | Some error => ret error
  end.
Definition post (outcome : option Z) (bytes k : Z) (ov : option nat) : M unit := throw_if (post_ec outcome bytes k ov).

(** Without a time limit; [None]: there is no packet, the call waits. *)
Definition get (s : port) : option (completion_status * port) :=
  match packets s with
  | [] => None
  | p :: l =>
      Some (if p_result p then Status true (p_bytes p) (p_key p) (p_overlapped p) ERROR_SUCCESS
            else Status false (p_bytes p) (p_key p) (p_overlapped p) (p_error p),
            Port (handles s) l)
  end.
End Iocp.

(** ** win_pipe_iocp_owner *)
Module IocpOwner.
Section owner.
(** Tasks of the threads, as of a pool. *)
Context {T : Type} (posts : T → list T) (throws : T → bool).

Inductive win_pipe_iocp_key : Type := interrupt_iocp | process_operation.
Definition to_ulong (k : win_pipe_iocp_key) : Z := match k with interrupt_iocp => 0 | process_operation => 1 end.

Inductive worker : Type := Looping | Returned.
(** Where the destructor is: it joins the worker, then stops the two pools. *)
Inductive life : Type := Alive | JoinWorker | StopReads | StopWrites | Destroyed.

(** [completed] are the operations whose packets came, [handled] those the
    worker took, in order. *)
Record owner : Type := mk {
  m_iocp : Iocp.port;
  m_read_iocp_thread : pool T;
  m_write_iocp_thread : pool T;
  m_worker : worker;
  destroying : life;
  completed : list nat;
  handled : list nat
}.
Implicit Types o : owner.

Definition create : owner :=
  mk (Iocp.Port [] []) (ThreadPool.create 1) (ThreadPool.create 1) Looping Alive [] [].

(** A call of the system ended. *)
Definition operation_ends (p : Iocp.packet) (op : nat) o : owner :=
  mk (Iocp.Port (Iocp.handles (m_iocp o)) (Iocp.packets (m_iocp o) ++ [p])) (m_read_iocp_thread o) (m_write_iocp_thread o)
     (m_worker o) (destroying o) (completed o ++ [op]) (handled o).

(** One round of [run_worker_loop]; [None]: it waits, or a failed assertion. *)
Definition run_worker_loop o : option owner :=
  match m_worker o, Iocp.get (m_iocp o) with
  | Looping, Some (st, port) =>
      if decide (Iocp.key st = to_ulong interrupt_iocp) then
        Some (mk port (m_read_iocp_thread o) (m_write_iocp_thread o) Returned (destroying o) (completed o) (handled o))
      else
        match decide (Iocp.key st = to_ulong process_operation), Iocp.overlapped st with
        | left _, Some op =>
            Some (mk port (m_read_iocp_thread o) (m_write_iocp_thread o) Looping (destroying o) (completed o) (handled o ++ [op]))
        | _, _ => None
        end
  | _, _ => None
  end.

(** [post] with [ec]; the assertion that it did not fail. *)
Definition interrupt_worker_loop (outcome : option Z) o : option owner :=
  match Iocp.post_ec outcome 0 (to_ulong interrupt_iocp) None (m_iocp o) with
  | Ok ec port =>
      if decide (ec = Iocp.ERROR_SUCCESS) then
        Some (mk port (m_read_iocp_thread o) (m_write_iocp_thread o) (m_worker o) (destroying o) (completed o) (handled o))
      else None
  | _ => None
  end.

Definition with_reads (p : pool T) o : owner :=
  mk (m_iocp o) p (m_write_iocp_thread o) (m_worker o) (destroying o) (completed o) (handled o).
Definition with_writes (p : pool T) o : owner :=
  mk (m_iocp o) (m_read_iocp_thread o) p (m_worker o) (destroying o) (completed o) (handled o).
Definition with_life (l : life) o : owner :=
  mk (m_iocp o) (m_read_iocp_thread o) (m_write_iocp_thread o) (m_worker o) l (completed o) (handled o).

Definition all_left (p : pool T) : Prop := ∀ w, w ∈ m_thread_group p → w = Exited.

(** The destructor, from one wait to the next. *)
Inductive destructor o : owner → Prop :=
| destroy o' : destroying o = Alive → interrupt_worker_loop None o = Some o' → destructor o (with_life JoinWorker o')
| joined : destroying o = JoinWorker → m_worker o = Returned →
    destructor o (with_life StopReads (with_reads (stop_begin (m_read_iocp_thread o)) o))
| reads_stopped : destroying o = StopReads → all_left (m_read_iocp_thread o) →
    destructor o (with_life StopWrites (with_writes (stop_begin (m_write_iocp_thread o))
                                         (with_reads (stop_end (m_read_iocp_thread o)) o)))
| writes_stopped : destroying o = StopWrites → all_left (m_write_iocp_thread o) →
    destructor o (with_life Destroyed (with_writes (stop_end (m_write_iocp_thread o)) o)).

(** What the threads of the owner do. *)
Inductive thread_step o : owner → Prop :=
| worker_round o' : run_worker_loop o = Some o' → thread_step o o'
| read_thread i p : worker_step posts throws i (m_read_iocp_thread o) p → thread_step o (with_reads p o)
| write_thread i p : worker_step posts throws i (m_write_iocp_thread o) p → thread_step o (with_writes p o)
| destructor_step o' : destructor o o' → thread_step o o'.

(** Packets of operations have the key of the handle and name the operation. *)
Inductive step o : owner → Prop :=
| step_thread o' : thread_step o o' → step o o'
| step_packet p op :
    Iocp.p_key p = to_ulong process_operation → Iocp.p_overlapped p = Some op → step o (operation_ends p op o)
| step_post_read t : step o (with_reads (ThreadPool.post t (m_read_iocp_thread o)) o)
| step_post_write t : step o (with_writes (ThreadPool.post t (m_write_iocp_thread o)) o).

(** ** Correctness *)
Definition ops (l : list Iocp.packet) : list nat := omap Iocp.p_overlapped l.
Definition good (p : Iocp.packet) : Prop :=
  Iocp.p_key p = to_ulong interrupt_iocp ∧ Iocp.p_overlapped p = None ∨
  Iocp.p_key p = to_ulong process_operation ∧ is_Some (Iocp.p_overlapped p).
Definition interrupts (l : list Iocp.packet) : list Iocp.packet := filter (λ p, Iocp.p_key p = to_ulong interrupt_iocp) l.

(** Where the interrupting packet is. *)
Definition interrupted o : Prop :=
  match destroying o, m_worker o with
  | Alive, w => w = Looping ∧ interrupts (Iocp.packets (m_iocp o)) = []
  | JoinWorker, Looping => length (interrupts (Iocp.packets (m_iocp o))) = 1%nat
  | _, w => w = Returned ∧ interrupts (Iocp.packets (m_iocp o)) = []
  end.
Record owner_inv o : Prop := {
  oi_ops : handled o ++ ops (Iocp.packets (m_iocp o)) = completed o;
  oi_good : Forall good (Iocp.packets (m_iocp o));
  oi_interrupted : interrupted o;
  oi_reads : rtc (ThreadPool.step posts throws) (ThreadPool.create 1) (m_read_iocp_thread o) ∧
    m_join_threads (m_read_iocp_thread o) =
      match destroying o with Alive | JoinWorker => NotCalled | StopReads => Joining | _ => Done end;
  oi_writes : rtc (ThreadPool.step posts throws) (ThreadPool.create 1) (m_write_iocp_thread o) ∧
    m_join_threads (m_write_iocp_thread o) =
      match destroying o with StopWrites => Joining | Destroyed => Done | _ => NotCalled end
}.

Lemma worker_step_joins i p p' : worker_step posts throws i p p' → m_join_threads p' = m_join_threads p.
Proof. by intros []. Qed.

Lemma reach_worker i p p' :
  rtc (ThreadPool.step posts throws) (ThreadPool.create 1) p → worker_step posts throws i p p' →
  rtc (ThreadPool.step posts throws) (ThreadPool.create 1) p'.
Proof. intros Hr Hs. eapply rtc_r; [done|by econstructor]. Qed.
Lemma reach_post t p :
  rtc (ThreadPool.step posts throws) (ThreadPool.create 1) p →
  rtc (ThreadPool.step posts throws) (ThreadPool.create 1) (ThreadPool.post t p).
Proof. intros Hr. eapply rtc_r; [done|constructor]. Qed.

Lemma owner_inv_step o o' : owner_inv o → step o o' → owner_inv o'.
Proof.
  intros I Hs. pose proof I as [Ho Hg Hi [Rr Jr] [Rw Jw]].
  destruct Hs as [o' [o1 Hw|i p Hw|i p Hw|o1 Hd]|p op Hk Hov|t|t].
  - unfold run_worker_loop in Hw. destruct (m_worker o) eqn:Ew; [|done]. unfold Iocp.get in Hw.
    destruct (Iocp.packets (m_iocp o)) as [|p l] eqn:Ep; [done|]. apply Forall_cons in Hg as [Hp Hl].
    assert (∀ b : bool, Iocp.key (if b then Iocp.Status true (Iocp.p_bytes p) (Iocp.p_key p) (Iocp.p_overlapped p) Iocp.ERROR_SUCCESS
      else Iocp.Status false (Iocp.p_bytes p) (Iocp.p_key p) (Iocp.p_overlapped p) (Iocp.p_error p)) = Iocp.p_key p) as Ek by by intros [].
    assert (∀ b : bool, Iocp.overlapped (if b then Iocp.Status true (Iocp.p_bytes p) (Iocp.p_key p) (Iocp.p_overlapped p) Iocp.ERROR_SUCCESS
      else Iocp.Status false (Iocp.p_bytes p) (Iocp.p_key p) (Iocp.p_overlapped p) (Iocp.p_error p)) = Iocp.p_overlapped p) as Eo by by intros [].
    rewrite Ek, Eo in Hw. unfold interrupted in Hi. rewrite Ew, Ep in Hi. unfold interrupts in Hi. rewrite filter_cons in Hi.
    unfold ops in Ho. simpl in Ho. destruct Hp as [[Hk Hn]|[Hk [op Hn]]]; rewrite Hk, Hn in *; simpl in *; injection Hw as <-.
    + split; simpl; try done. unfold interrupted. simpl. unfold interrupts.
      destruct (destroying o); [by destruct Hi|split; [done|]; by apply nil_length_inv; injection Hi|by destruct Hi..].
    + split; simpl; try done. by rewrite <- app_assoc.
  - split; try done. simpl. split; [exact (reach_worker _ _ _ Rr Hw)|]. by rewrite (worker_step_joins _ _ _ Hw).
  - split; try done. simpl. split; [exact (reach_worker _ _ _ Rw Hw)|]. by rewrite (worker_step_joins _ _ _ Hw).
  - destruct Hd as [o2 Hl Hx|Hl Hw|Hl Hx|Hl Hx]; rewrite Hl in *.
    + unfold interrupt_worker_loop in Hx. simpl in Hx. injection Hx as <-. unfold interrupted in Hi. rewrite Hl in Hi.
      destruct Hi as [Hw Hi]. split; simpl; try done.
      * unfold ops in *. rewrite omap_app. simpl. by rewrite app_nil_r.
      * apply Forall_app. split; [done|]. constructor; [by left|constructor].
      * unfold interrupted. simpl. rewrite Hw. unfold interrupts in *. by rewrite filter_app, Hi.
    + unfold interrupted in Hi. rewrite Hl, Hw in Hi. split; simpl; try done.
      * unfold interrupted. simpl. by rewrite Hw.
      * split; [|done]. eapply rtc_r; [exact Rr|by constructor].
    + split; simpl; try done.
      * unfold interrupted in *. rewrite Hl in Hi. done.
      * split; [|done]. eapply rtc_r; [exact Rr|by constructor].
      * split; [|done]. eapply rtc_r; [exact Rw|by constructor].
    + split; simpl; try done.
      * unfold interrupted in *. rewrite Hl in Hi. done.
      * split; [|done]. eapply rtc_r; [exact Rw|by constructor].
  - split; simpl; try done.
    + unfold ops in *. rewrite omap_app, app_assoc, Ho. simpl. by rewrite Hov.
    + apply Forall_app. split; [done|]. constructor; [right|constructor]. by rewrite Hov.
    + unfold interrupted in *. simpl. unfold interrupts in *. rewrite filter_app, filter_cons, decide_False by (by rewrite Hk).
      rewrite filter_nil, app_nil_r. exact Hi.
  - split; try done. simpl. split; [by apply reach_post|done].
  - split; try done. simpl. split; [by apply reach_post|done].
Qed.

Lemma owner_reachable_inv o : rtc step create o → owner_inv o.
Proof.
  apply rtc_invariant; [by split|exact owner_inv_step].
Qed.

(** The worker handles packets in the order they came and goes on until the
    destructor; the destructor never waits for good: there is always a thread that
    can go on; and at its end every task of the two threads that was accepted has
    run once. *)
Lemma owner_life o :
  rtc step create o →
  handled o `prefix_of` completed o ∧
  (destroying o = Alive → m_worker o = Looping) ∧
  (destroying o ≠ Alive → destroying o ≠ Destroyed → ∃ o', thread_step o o') ∧
  (destroying o = Destroyed → m_worker o = Returned ∧
     ran (m_read_iocp_thread o) ≡ₚ accepted (m_read_iocp_thread o) ∧
     ran (m_write_iocp_thread o) ≡ₚ accepted (m_write_iocp_thread o)).
Proof.
  intros I%owner_reachable_inv. pose proof I as [Ho Hg Hi [Rr Jr] [Rw Jw]]. unfold interrupted in Hi. split_and!.
  - rewrite <- Ho. by eexists.
  - intros E. rewrite E in Hi. by destruct Hi.
  - intros Ha Hd. destruct (destroying o) eqn:El; try done.
    + destruct (m_worker o) eqn:Ew; [|eexists; by eapply destructor_step, joined].
      assert (∃ o', run_worker_loop o = Some o') as [o' Hw]; [|exists o'; by constructor].
      unfold run_worker_loop. rewrite Ew. unfold Iocp.get. destruct (Iocp.packets (m_iocp o)) as [|p l]; [done|].
      apply Forall_cons in Hg as [[[Hk Hn]|[Hk [op Hn]]] _]; destruct (Iocp.p_result p); simpl; rewrite Hk, ?Hn; simpl; by eexists.
    + destruct (joining_goes_on posts throws (m_read_iocp_thread o)) as [Hx|(i & p' & Hx)];
        [by eapply pool_reachable_inv|done|eexists; by eapply destructor_step, reads_stopped|eexists; by eapply read_thread].
    + destruct (joining_goes_on posts throws (m_write_iocp_thread o)) as [Hx|(i & p' & Hx)];
        [by eapply pool_reachable_inv|done|eexists; by eapply destructor_step, writes_stopped|eexists; by eapply write_thread].
  - intros E. rewrite E in *. destruct Hi as [Hi _]. split; [done|].
    split; eapply (pool_done_ran posts throws 1); (done || lia).
Qed.
End owner.
End IocpOwner.
