(* ===== verification/WinEnv.v ===== *)
(** * The environments of Windows pipes

    [win_pipe_server_env] with [win_pipe_create_operation], and
    [win_pipe_client_env] with [win_pipe_open_operation].  Both keep a map of the
    operations under way and finish them with the same callbacks ([Front]); they
    differ in how an operation gets its pipe. *)
From S2P Require Import Prelude RpcTypes Timer WinOperation.
Import WinRes.
Local Open Scope Z_scope.

(** ** What both environments do *)
Module Front.
Abbreviation timer := (MultipleTimer.multiple_timer Z).

Record operation_info : Type := Info { op : nat; client_id : Z; timer_id : option Z }.

(** The value of the future an operation gave, with the pipe in it. *)
Record answer : Type := Answer { a_result : exn + option PipeWaitRes.pipe_wait_res; a_handle : option nat }.

(** A future that has its value, and the identifier that its [finally] callback
    captures; after it the callback of [then] is due. *)
Record answered : Type := Answered { an_promise : nat; an_id : Z; an_answer : answer }.

(** [log] has what the application gets: a result and an endpoint, named by its
    pipe; [closed] are the pipes that were closed. *)
Record front : Type := mk {
  m_next_id : Z;
  m_pending_operations : gmap Z operation_info;
  m_timer : timer;
  next_promise : nat;
  finals : list answered;
  thens : list answered;
  log : list (nat * answer);
  closed : list nat
}.
Definition create : front := mk 0 ∅ MultipleTimer.create 0 [] [] [] [].

Definition with_timer (t : timer) (f : front) : front :=
  mk (m_next_id f) (m_pending_operations f) t (next_promise f) (finals f) (thens f) (log f) (closed f).

(** [create_pipe] and [open_pipe]: a new operation [next_promise]. *)
Definition add (cid : Z) (timeout : option Z) (f : front) : front :=
  let i := m_next_id f in
  let '(tid, t) :=
    match timeout with
    | Some _ => let '(k, t) := MultipleTimer.start i (m_timer f) in (Some k, t)
    | None => (None, m_timer f)
    end in
  mk (u64 (i + 1)) (<[i := Info (next_promise f) cid tid]> (m_pending_operations f)) t (S (next_promise f))
     (finals f) (thens f) (log f) (closed f).

(** The promise of an operation gets its value. *)
Definition give (p : nat) (i : Z) (a : answer) (f : front) : front :=
  mk (m_next_id f) (m_pending_operations f) (m_timer f) (next_promise f) (finals f ++ [Answered p i a]) (thens f)
     (log f) (closed f).
Definition close (hs : list nat) (f : front) : front :=
  mk (m_next_id f) (m_pending_operations f) (m_timer f) (next_promise f) (finals f) (thens f) (log f) (closed f ++ hs).

(** The callback of [finally]. *)
Definition run_finally (n : nat) (f : front) : option front :=
  match finals f !! n with
  | None => None
  | Some a =>
      let t :=
        match m_pending_operations f !! an_id a with
        | Some i => match timer_id i with Some k => MultipleTimer.cancel k (m_timer f) | None => m_timer f end
        | None => m_timer f
        end in
      Some (mk (m_next_id f) (delete (an_id a) (m_pending_operations f)) t (next_promise f) (delete n (finals f))
               (thens f ++ [a]) (log f) (closed f))
  end.

(** The callback of the last [then]: an endpoint takes the pipe of a success, any
    other pipe is closed. *)
Definition endpoint_of (a : answer) : option nat :=
  match a_result a with inr (Some PipeWaitRes.success) => a_handle a | _ => None end.
Definition run_then (n : nat) (f : front) : option front :=
  match thens f !! n with
  | None => None
  | Some a =>
      let e := endpoint_of (an_answer a) in
      let dropped := match e with Some _ => [] | None => option_list (a_handle (an_answer a)) end in
      Some (mk (m_next_id f) (m_pending_operations f) (m_timer f) (next_promise f) (finals f) (delete n (thens f))
               (log f ++ [(an_promise a, Answer (a_result (an_answer a)) e)]) (closed f ++ dropped))
  end.

(** The operations a timeout or a cancellation is for. *)
Definition timed_out (i : Z) (f : front) : list nat := option_list (op <$> m_pending_operations f !! i).
Definition is_selected (cid : option Z) (i : operation_info) : bool :=
  match cid with None => true | Some c => bool_decide (client_id i = c) end.
Definition selected (cid : option Z) (f : front) : list nat :=
  op <$> filter (λ i, Is_true (is_selected cid i)) (map_to_list (m_pending_operations f)).*2.
End Front.

(** ** win_pipe_server_env *)
Module WinServerEnv.
Import Front.
Record create_operation : Type := CreateOperation { m_pipe : option nat; m_res : win_pipe_operation_res }.
Definition new_operation : create_operation := CreateOperation None unknown.

(** Tasks of the thread of the owner. *)
Inductive task : Type := Create (p : nat) | Cancel (p : nat) (by_timeout : bool).

(** [ios]: a wait for a client, or the packet of its end. *)
Record impl : Type := mk {
  fr : front;
  ops : gmap nat create_operation;
  thread : list task;
  ios : list (nat * option bool);
  next_handle : nat
}.
Definition create : impl := mk Front.create ∅ [] [] 0.
Definition with_front (f : front) (e : impl) : impl := mk f (ops e) (thread e) (ios e) (next_handle e).
Definition with_op (p : nat) (o : create_operation) (e : impl) : impl :=
  mk (fr e) (<[p := o]> (ops e)) (thread e) (ios e) (next_handle e).
Definition with_thread (ts : list task) (e : impl) : impl := mk (fr e) (ops e) ts (ios e) (next_handle e).
Definition with_ios (l : list (nat * option bool)) (e : impl) : impl := mk (fr e) (ops e) (thread e) l (next_handle e).

(** [cancel_create] of the owner. *)
Definition cancel_create (by_timeout : bool) (ps : list nat) (e : impl) : impl :=
  with_thread (thread e ++ ((λ p, Cancel p by_timeout) <$> ps)) e.

Definition create_pipe (cid : Z) (timeout : option Z) (e : impl) : impl :=
  let p := next_promise (fr e) in
  mk (add cid timeout (fr e)) (<[p := new_operation]> (ops e)) (thread e ++ [Create p]) (ios e) (next_handle e).
(** Also the destructor, for all clients. *)
Definition cancel_pending_server_endpoints (cid : option Z) (e : impl) : impl :=
  cancel_create false (selected cid (fr e)) e.
Definition run_timer (k : Z) (e : impl) : option impl :=
  match MultipleTimer.run_handler k (m_timer (fr e)) with
  | None => None
  | Some (fired, t) =>
      let e := with_front (with_timer t (fr e)) e in
      Some (match fired with Some i => cancel_create true (timed_out i (fr e)) e | None => e end)
  end.

(** [resolve], and the conversion of the result by [create_pipe_async]. *)
Definition resolve (p : nat) (o : create_operation) (e : impl) : impl :=
  let f := fr e in
  let i := Z.of_nat p in
  let e := with_op p (CreateOperation None (m_res o)) e in
  with_front (if decide (m_res o = success) then give p i (Answer (inr (to_pipe_wait_res (m_res o))) (m_pipe o)) f
              else give p i (Answer (inr (to_pipe_wait_res (m_res o))) None) (close (option_list (m_pipe o)) f)) e.

(** How the task of [create_pipe_async] ends. *)
Inductive create_end : Type := CreateFails | AssociateFails | ConnectWaits | ConnectedAlready | ConnectFails.
Definition set_res (f : win_pipe_operation_res → win_pipe_operation_res) (o : create_operation) : create_operation :=
  CreateOperation (m_pipe o) (f (m_res o)).
Definition do_create (c : create_end) (p : nat) (o : create_operation) (e : impl) : impl :=
  match c with
  | CreateFails => resolve p (set_res set_failed_if_unknown o) e
  | _ =>
      let o := CreateOperation (Some (next_handle e)) (m_res o) in
      let e := mk (fr e) (ops e) (thread e) (ios e) (S (next_handle e)) in
      match c with
      | ConnectWaits => with_ios (ios e ++ [(p, None)]) (with_op p o e)
      | ConnectedAlready => resolve p (set_res set_success o) e
      | _ => resolve p (set_res set_failed_if_unknown o) e
      end
  end.
(** A cancellation sets the result; the wait it aborts ends with a packet of
    failure. *)
Definition run_task (c : create_end) (e : impl) : option impl :=
  match thread e with
  | [] => None
  | t :: ts =>
      let e := with_thread ts e in
      match t with
      | Create p => (λ o, do_create c p o e) <$> ops e !! p
      | Cancel p by_timeout =>
          (λ o, with_op p (set_res (if by_timeout then set_timeout_if_possible else set_canceled_if_possible) o) e)
          <$> ops e !! p
      end
  end.
Definition wait_ends (n : nat) (ok : bool) (e : impl) : option impl :=
  match ios e !! n with
  | Some (p, None) => Some (with_ios (<[n := (p, Some ok)]> (ios e)) e)
  | _ => None
  end.
(** [run_worker_loop] for a packet of a create operation. *)
Definition run_worker (n : nat) (e : impl) : option impl :=
  match ios e !! n with
  | Some (p, Some ok) =>
      (λ o, resolve p (set_res (if (ok : bool) then set_success else set_failed_if_unknown) o) (with_ios (delete n (ios e)) e))
      <$> ops e !! p
  | _ => None
  end.

(** Identifiers are not used up within a run. *)
Inductive step (e : impl) : impl → Prop :=
| step_create cid timeout : m_next_id (fr e) < 2 ^ 64 - 1 → step e (create_pipe cid timeout e)
| step_cancel cid : step e (cancel_pending_server_endpoints cid e)
| step_task c e' : run_task c e = Some e' → step e e'
| step_wait n ok e' : wait_ends n ok e = Some e' → step e e'
| step_worker n e' : run_worker n e = Some e' → step e e'
| step_finally n f : run_finally n (fr e) = Some f → step e (with_front f e)
| step_then n f : run_then n (fr e) = Some f → step e (with_front f e)
| step_expire k : step e (with_front (with_timer (MultipleTimer.expire k (m_timer (fr e))) (fr e)) e)
| step_timer k e' : run_timer k e = Some e' → step e e'.
End WinServerEnv.

(** ** win_pipe_client_env *)
Module WinClientEnv.
Import Front.
Inductive cancel_event : Type := none | canceled | canceled_by_timeout.
#[global] Instance cancel_event_eq_dec : EqDecision cancel_event.
Proof. solve_decision. Defined.

(** The thread of an operation is about to try, or waits between two tries. *)
Inductive phase : Type := Trying | Sleeping.
Record open_operation : Type := OpenOperation { m_cancel_event : cancel_event; m_thread : phase }.

(** [ops]: the operations whose thread has not set its promise; [next_handle]
    numbers the pipes opened. *)
Record impl : Type := mk { fr : front; ops : gmap nat open_operation; next_handle : nat }.
Definition create : impl := mk Front.create ∅ 0.
Definition with_front (f : front) (e : impl) : impl := mk f (ops e) (next_handle e).

Definition open_pipe (cid : Z) (timeout : option Z) (e : impl) : impl :=
  mk (add cid timeout (fr e)) (<[next_promise (fr e) := OpenOperation none Trying]> (ops e)) (next_handle e).

Definition cancel (by_timeout : bool) (o : open_operation) : open_operation :=
  if decide (m_cancel_event o = none)
  then OpenOperation (if by_timeout then canceled_by_timeout else canceled) (m_thread o) else o.
Definition cancel_all (by_timeout : bool) (ps : list nat) (e : impl) : impl :=
  mk (fr e) (foldr (alter (cancel by_timeout)) (ops e) ps) (next_handle e).
Definition cancel_pending_client_endpoints (cid : option Z) (e : impl) : impl :=
  cancel_all false (selected cid (fr e)) e.
Definition run_timer (k : Z) (e : impl) : option impl :=
  match MultipleTimer.run_handler k (m_timer (fr e)) with
  | None => None
  | Some (fired, t) =>
      let e := with_front (with_timer t (fr e)) e in
      Some (match fired with Some i => cancel_all true (timed_out i (fr e)) e | None => e end)
  end.

(** How a turn of the loop of [do_openning] ends: [CreateFileW] gives a pipe and
    [SetNamedPipeHandleState] succeeds or not, the pipe is busy or not there, or
    another error.  The first callback of the future associates the pipe of a
    success with the completion port, or throws. *)
Inductive try_end : Type := Opened (associated : bool) | StateFails | Busy | OpenFails.
Definition finish (p : nat) (a : answer) (lost : list nat) (e : impl) : impl :=
  mk (give p (Z.of_nat p) a (close lost (fr e))) (delete p (ops e)) (next_handle e).
Definition new_handle (e : impl) : impl := mk (fr e) (ops e) (S (next_handle e)).
Definition do_openning (t : try_end) (p : nat) (e : impl) : option impl :=
  match ops e !! p with
  | Some (OpenOperation c Trying) =>
      let h := next_handle e in
      Some (match t with
            | Opened true => finish p (Answer (inr (to_pipe_wait_res success)) (Some h)) [] (new_handle e)
            | Opened false => finish p (Answer (inl system_error) None) [h] (new_handle e)
            | StateFails => finish p (Answer (inr (to_pipe_wait_res failed)) (Some h)) [] (new_handle e)
            | OpenFails => finish p (Answer (inr (to_pipe_wait_res failed)) None) [] e
            | Busy => mk (fr e) (<[p := OpenOperation c Sleeping]> (ops e)) (next_handle e)
            end)
  | _ => None
  end.
(** [wait_for] returns: because of a cancellation, or after 100 milliseconds. *)
Definition wake (p : nat) (e : impl) : option impl :=
  match ops e !! p with
  | Some (OpenOperation c Sleeping) =>
      Some (match c with
            | none => mk (fr e) (<[p := OpenOperation c Trying]> (ops e)) (next_handle e)
            | canceled_by_timeout => finish p (Answer (inr (to_pipe_wait_res timeout)) None) [] e
            | canceled => finish p (Answer (inr (to_pipe_wait_res WinRes.canceled)) None) [] e
            end)
  | _ => None
  end.

Inductive step (e : impl) : impl → Prop :=
| step_open cid timeout : m_next_id (fr e) < 2 ^ 64 - 1 → step e (open_pipe cid timeout e)
| step_cancel cid : step e (cancel_pending_client_endpoints cid e)
| step_try t p e' : do_openning t p e = Some e' → step e e'
| step_wake p e' : wake p e = Some e' → step e e'
| step_finally n f : run_finally n (fr e) = Some f → step e (with_front f e)
| step_then n f : run_then n (fr e) = Some f → step e (with_front f e)
| step_expire k : step e (with_front (with_timer (MultipleTimer.expire k (m_timer (fr e))) (fr e)) e)
| step_timer k e' : run_timer k e = Some e' → step e e'.
End WinClientEnv.
