(* ===== verification/WinEnvFacts.v ===== *)
(** * Correctness of the environments of Windows pipes

    Every request for an endpoint is answered once, and no pipe is lost or given
    away twice. *)
From S2P Require Import Prelude RpcTypes Timer WinOperation WinEnv.
Import WinRes Front.
Local Open Scope Z_scope.

(** ** The part both environments share

    [active] are the operations that have not set their promise, [held] the
    pipes they have, [n] the number of pipes there were. *)
Definition good_answer (a : answer) : Prop :=
  match a_result a with
  | inr None => False
  | inr (Some PipeWaitRes.success) => is_Some (a_handle a)
  | _ => True
  end.
(** What the application gets: an endpoint with a success, and only then. *)
Definition good_outcome (c : nat * answer) : Prop :=
  a_result c.2 ≠ inr None ∧ (is_Some (a_handle c.2) ↔ a_result c.2 = inr (Some PipeWaitRes.success)).

Definition handle_of (a : answered) : option nat := a_handle (an_answer a).
Definition endpoints (f : front) : list nat := omap (λ c, a_handle c.2) (log f).

Record front_inv (active held : list nat) (n : nat) (f : front) : Prop := {
  fi_once : (log f).*1 ++ (an_promise <$> thens f) ++ (an_promise <$> finals f) ++ active ≡ₚ seq 0 (next_promise f);
  fi_next : m_next_id f = Z.of_nat (next_promise f) ∧ m_next_id f < 2 ^ 64;
  fi_ids a : a ∈ finals f → an_id a = Z.of_nat (an_promise a);
  fi_pending i x : m_pending_operations f !! i = Some x → i = Z.of_nat (op x) ∧ op x ∈ active ++ (an_promise <$> finals f);
  fi_found p : p ∈ active ++ (an_promise <$> finals f) → is_Some (m_pending_operations f !! Z.of_nat p);
  fi_handles : endpoints f ++ omap handle_of (thens f) ++ omap handle_of (finals f) ++ held ++ closed f ≡ₚ seq 0 n;
  fi_good a : a ∈ finals f ++ thens f → good_answer (an_answer a);
  fi_log c : c ∈ log f → good_outcome c
}.

#[global] Instance front_inv_proper : Proper ((≡ₚ) ==> (≡ₚ) ==> (=) ==> (=) ==> iff) front_inv.
Proof.
  assert (∀ ac ac' h h' n f, ac ≡ₚ ac' → h ≡ₚ h' → front_inv ac h n f → front_inv ac' h' n f) as Hp.
  { intros ac ac' h h' n f Ha Hh []. split; try done.
    - by rewrite <- Ha.
    - intros i x Hi. rewrite <- Ha. by apply fi_pending0.
    - intros p. rewrite <- Ha. apply fi_found0.
    - by rewrite <- Hh. }
  intros ac ac' Ha h h' Hh n ? <- f ? <-. split; apply Hp; done.
Qed.

Lemma front_inv_create : front_inv [] [] 0 Front.create.
Proof. split; try done; intros ? Hin; by apply elem_of_nil in Hin. Qed.

Lemma front_inv_timer active held n t f : front_inv active held n f → front_inv active held n (with_timer t f).
Proof. by intros []. Qed.

Lemma front_inv_add cid timeout active held n f :
  front_inv active held n f → m_next_id f < 2 ^ 64 - 1 → front_inv (next_promise f :: active) held n (add cid timeout f).
Proof.
  intros I Hlt. unfold add. destruct (match timeout with Some _ => _ | None => _ end) as [tid t].
  pose proof (fi_next _ _ _ _ I) as [Hn _].
  assert (m_pending_operations f !! m_next_id f = None) as Hnew.
  { destruct (m_pending_operations f !! m_next_id f) as [x|] eqn:E; [|done]. exfalso.
    destruct (fi_pending _ _ _ _ I _ _ E) as [Hx Hin].
    assert (op x ∈ seq 0 (next_promise f)) as Hs.
    { rewrite <- (fi_once _ _ _ _ I). rewrite !elem_of_app in *. tauto. }
    apply elem_of_seq in Hs. lia. }
  destruct I. split; try done.
  - change (next_promise (Front.mk _ _ _ _ _ _ _ _)) with (S (next_promise f)). rewrite seq_S, <- fi_once0. simpl. solve_Permutation.
  - simpl. rewrite wrap_small by lia. lia.
  - simpl. intros i x [[<- <-]|[Hne Hi]]%lookup_insert_Some; simpl; [split; [done|by left]|].
    destruct (fi_pending0 _ _ Hi). split; [done|by right].
  - simpl. intros p [->|Hp]%elem_of_cons; [rewrite <- Hn, lookup_insert_eq; by eexists|].
    rewrite lookup_insert_ne; [by apply fi_found0|]. intros E. destruct (fi_found0 p Hp) as [x Hx]. rewrite <- E in Hx. congruence.
Qed.

Lemma front_inv_give p a active held n f :
  front_inv (p :: active) (option_list (a_handle a) ++ held) n f → good_answer a →
  front_inv active held n (give p (Z.of_nat p) a f).
Proof.
  intros [] Ha. split; try done.
  - rewrite <- fi_once0. simpl. rewrite fmap_app. simpl. solve_Permutation.
  - simpl. intros b [?| ->%list_elem_of_singleton]%elem_of_app; [by apply fi_ids0|done].
  - intros i x Hi. destruct (fi_pending0 i x Hi) as [? Hin]. split; [done|]. simpl. rewrite fmap_app. simpl.
    revert Hin. rewrite !elem_of_app, elem_of_cons, list_elem_of_singleton. tauto.
  - intros q. simpl. rewrite fmap_app. simpl. rewrite !elem_of_app, list_elem_of_singleton. intros Hq. apply fi_found0.
    rewrite elem_of_app, elem_of_cons. tauto.
  - rewrite <- fi_handles0. simpl. rewrite omap_app. simpl. unfold handle_of at 3. simpl.
    destruct (a_handle a); simpl; solve_Permutation.
  - simpl. intros b Hb. rewrite !elem_of_app, list_elem_of_singleton in Hb.
    destruct Hb as [[Hb| ->]|Hb]; [|done|]; apply fi_good0; rewrite elem_of_app; by auto.
Qed.

Lemma front_inv_close hs active held n f : front_inv active (hs ++ held) n f → front_inv active held n (close hs f).
Proof. intros []. split; try done. rewrite <- fi_handles0. simpl. solve_Permutation. Qed.

Lemma front_inv_handle active held n f : front_inv active held n f → front_inv active (n :: held) (S n) f.
Proof. intros []. split; try done. rewrite seq_S, <- fi_handles0. simpl. solve_Permutation. Qed.

Lemma front_inv_finally k active held n f f' :
  front_inv active held n f → run_finally k f = Some f' → front_inv active held n f'.
Proof.
  intros I. unfold run_finally. destruct (finals f !! k) as [a|] eqn:Hk; [|done]. intros [= <-].
  pose proof (delete_Permutation _ _ _ Hk) as Hp. pose proof (list_elem_of_lookup_2 _ _ _ Hk) as Hin.
  revert Hp. generalize (delete k (finals f)). intros fs Hp.
  assert (an_promise a ∉ active ++ (an_promise <$> fs)) as Hone.
  { intros Hin'%occ_elem. pose proof (fi_once _ _ _ _ I) as H1. rewrite Hp in H1.
    apply occ_perm with (x := an_promise a) in H1. rewrite fmap_cons, !occ_app, occ_cons, decide_True in H1 by done.
    rewrite occ_app in Hin'. pose proof (occ_NoDup (an_promise a) _ (NoDup_seq 0 (next_promise f))). lia. }
  pose proof (fi_ids _ _ _ _ I a Hin) as Hid.
  destruct I. split; try done.
  - rewrite <- fi_once0. simpl. rewrite Hp, fmap_app. simpl. solve_Permutation.
  - intros b Hb. apply fi_ids0. rewrite Hp. by right.
  - simpl. intros i x [Hne Hi]%lookup_delete_Some. destruct (fi_pending0 _ _ Hi) as [-> Hx]. split; [done|].
    rewrite Hp in Hx. simpl in Hx. rewrite elem_of_app, elem_of_cons in Hx. rewrite elem_of_app.
    destruct Hx as [?|[E|?]]; [by left| |by right]. destruct Hne. by rewrite Hid, E.
  - simpl. intros p Hq. rewrite lookup_delete_ne.
    + apply fi_found0. rewrite Hp. simpl. rewrite elem_of_app, elem_of_cons in *. tauto.
    + rewrite Hid. intros E%Nat2Z.inj. by rewrite E in Hone.
  - rewrite <- fi_handles0. simpl. rewrite Hp, omap_app. simpl. destruct (handle_of a); solve_Permutation.
  - simpl. intros b Hb. apply fi_good0. rewrite Hp. rewrite !elem_of_app, list_elem_of_singleton in *. rewrite elem_of_cons. tauto.
Qed.

Lemma front_inv_then k active held n f f' :
  front_inv active held n f → run_then k f = Some f' → front_inv active held n f'.
Proof.
  intros I. unfold run_then. destruct (thens f !! k) as [a|] eqn:Hk; [|done]. intros [= <-].
  pose proof (delete_Permutation _ _ _ Hk) as Hp. pose proof (list_elem_of_lookup_2 _ _ _ Hk) as Hin.
  revert Hp. generalize (delete k (thens f)). intros ts Hp.
  assert (good_answer (an_answer a)) as Ha by (apply (fi_good _ _ _ _ I); rewrite elem_of_app; by right).
  destruct I. split; try done.
  - rewrite <- fi_once0. simpl. rewrite Hp, fmap_app. simpl. solve_Permutation.
  - rewrite <- fi_handles0. unfold endpoints. simpl. rewrite Hp, omap_app. simpl. unfold handle_of at 3, endpoint_of.
    destruct a as [p i [[x|[[]|]] [h|]]]; simpl in *; rewrite ?app_nil_r; solve_Permutation.
  - intros b Hb. apply fi_good0. rewrite Hp. simpl in Hb. rewrite elem_of_app, elem_of_cons in *. tauto.
  - simpl. intros c [?| ->%list_elem_of_singleton]%elem_of_app; [by apply fi_log0|]. unfold good_outcome, good_answer, endpoint_of in *.
    simpl. destruct (a_result (an_answer a)) as [x|[[]|]]; split; try done; split; try done; by intros [].
Qed.

(** ** The server environment *)
Section server.
Import WinServerEnv.
Implicit Types e : WinServerEnv.impl.

Definition created (t : task) : option nat := match t with Create p => Some p | Cancel _ _ => None end.
Definition creating e : list nat := omap created (thread e) ++ (ios e).*1.
Definition pipe_of (os : gmap nat create_operation) (p : nat) : option nat := os !! p ≫= m_pipe.
Definition held e : list nat := omap (pipe_of (ops e)) (ios e).*1.

Record server_inv e : Prop := {
  se_front : front_inv (creating e) (held e) (next_handle e) (fr e);
  se_task p : Create p ∈ thread e → ∃ o, ops e !! p = Some o ∧ m_pipe o = None ∧ m_res o ≠ success;
  se_io p : p ∈ (ios e).*1 → ∃ o, ops e !! p = Some o ∧ is_Some (m_pipe o) ∧ m_res o ≠ success
}.

Lemma omap_ext_in {A B} (f g : A → option B) (l : list A) : (∀ x, x ∈ l → f x = g x) → omap f l = omap g l.
Proof.
  induction l as [|x l IH]; intros Hf; [done|].
  assert (omap f l = omap g l) as E by (apply IH; intros y Hy; apply Hf; by right).
  unfold omap in *. simpl. rewrite (Hf x) by by left. by rewrite E.
Qed.

(** An operation is in one place. *)
Lemma creating_once e p : server_inv e → (occ p (creating e) ≤ 1)%nat.
Proof.
  intros I. pose proof (fi_once _ _ _ _ (se_front _ I)) as H1. apply occ_perm with (x := p) in H1. rewrite !occ_app in H1.
  pose proof (occ_NoDup p _ (NoDup_seq 0 (next_promise (fr e)))). lia.
Qed.

(** The operation in hand sets its promise. *)
Lemma server_inv_resolve p o e :
  front_inv (p :: creating e) (option_list (m_pipe o) ++ held e) (next_handle e) (fr e) →
  m_res o ≠ unknown → (m_res o = success → is_Some (m_pipe o)) →
  (∀ q, Create q ∈ thread e → ∃ o, ops e !! q = Some o ∧ m_pipe o = None ∧ m_res o ≠ success) →
  (∀ q, q ∈ (ios e).*1 → ∃ o, ops e !! q = Some o ∧ is_Some (m_pipe o) ∧ m_res o ≠ success) →
  p ∉ creating e → server_inv (resolve p o e).
Proof.
  intros I Hu Hs Ht Hi Hp.
  assert (∀ q, q ≠ p → ops (resolve p o e) !! q = ops e !! q) as Hops.
  { intros q Hq. unfold resolve. simpl. by rewrite lookup_insert_ne. }
  assert (held (resolve p o e) = held e) as Hheld.
  { apply omap_ext_in. intros q Hq. unfold pipe_of. rewrite Hops; [done|]. intros ->. apply Hp. unfold creating.
    rewrite elem_of_app. by right. }
  split.
  - rewrite Hheld. unfold resolve. cbn [fr with_front next_handle with_op]. change (creating (with_front _ _)) with (creating e).
    case_decide as Hr.
    + apply front_inv_give; [done|]. rewrite Hr. simpl. by apply Hs.
    + apply front_inv_give; [by apply front_inv_close|]. by destruct (m_res o).
  - intros q Hq. rewrite Hops; [by apply Ht|]. intros ->. apply Hp. unfold creating. rewrite elem_of_app. left.
    apply list_elem_of_omap. by exists (Create p).
  - intros q Hq. rewrite Hops; [by apply Hi|]. intros ->. apply Hp. unfold creating. rewrite elem_of_app. by right.
Qed.

Lemma server_inv_cancel by_timeout ps e : server_inv e → server_inv (cancel_create by_timeout ps e).
Proof.
  intros []. assert (omap created (thread e ++ ((λ p, Cancel p by_timeout) <$> ps)) = omap created (thread e)) as E.
  { rewrite omap_app. replace (omap created ((λ p, Cancel p by_timeout) <$> ps)) with ([] : list nat); [by rewrite app_nil_r|].
    by induction ps. }
  split; simpl.
  - unfold creating. simpl. by rewrite E.
  - intros p [?|(q & ? & _)%list_elem_of_fmap]%elem_of_app; [by apply se_task0|done].
  - done.
Qed.

Lemma server_inv_front f e :
  server_inv e → front_inv (creating e) (held e) (next_handle e) f → server_inv (with_front f e).
Proof. by intros [] ?. Qed.

Lemma server_inv_create_pipe cid timeout e :
  server_inv e → m_next_id (fr e) < 2 ^ 64 - 1 → server_inv (create_pipe cid timeout e).
Proof.
  intros I Hlt. set (p := next_promise (fr e)).
  assert (∀ q, q ∈ creating e → q ≠ p) as Hnew.
  { intros q Hq ->. assert (p ∈ seq 0 p) as Hs%elem_of_seq; [|lia].
    unfold p at 2. rewrite <- (fi_once _ _ _ _ (se_front _ I)), !elem_of_app. tauto. }
  destruct I as [Hf Ht Hi]. split.
  - change (next_handle (create_pipe cid timeout e)) with (next_handle e).
    replace (held (create_pipe cid timeout e)) with (held e).
    + unfold creating. simpl. rewrite omap_app. simpl. rewrite <- app_assoc. simpl. rewrite <- Permutation_middle.
      by apply front_inv_add.
    + symmetry. apply omap_ext_in. intros q Hq. unfold pipe_of. simpl. rewrite lookup_insert_ne; [done|].
      intros <-. apply (Hnew p); [|done]. unfold creating. rewrite elem_of_app. by right.
  - simpl. intros q [Hq|[= ->]%list_elem_of_singleton]%elem_of_app; [|rewrite lookup_insert_eq; by eexists].
    rewrite lookup_insert_ne; [by apply Ht|]. intros <-. apply (Hnew p); [|done]. unfold creating. rewrite elem_of_app.
    left. apply list_elem_of_omap. by exists (Create p).
  - simpl. intros q Hq. rewrite lookup_insert_ne; [by apply Hi|]. intros <-. apply (Hnew p); [|done].
    unfold creating. rewrite elem_of_app. by right.
Qed.

(** A cancellation keeps the pipe, and does not make it a success. *)
Lemma server_inv_set_res f p o e :
  (f = set_timeout_if_possible ∨ f = set_canceled_if_possible) → ops e !! p = Some o →
  server_inv e → server_inv (with_op p (set_res f o) e).
Proof.
  intros Hf Ho I. assert (m_res o ≠ success → f (m_res o) ≠ success) as Hs.
  { intros Hs. destruct Hf as [-> | ->]; by destruct (m_res o). }
  destruct I. split.
  - replace (held (with_op p (set_res f o) e)) with (held e); [done|]. apply omap_ext_in. intros q _. unfold pipe_of. simpl.
    destruct (decide (q = p)) as [->|]; [by rewrite lookup_insert_eq, Ho|by rewrite lookup_insert_ne].
  - simpl. intros q Hq. destruct (se_task0 q Hq) as (o' & Ho' & ? & ?). destruct (decide (q = p)) as [->|];
      [rewrite lookup_insert_eq|rewrite lookup_insert_ne by done; by exists o'].
    rewrite Ho in Ho'. simplify_eq. eexists. split; [done|]. simpl. auto.
  - simpl. intros q Hq. destruct (se_io0 q Hq) as (o' & Ho' & ? & ?). destruct (decide (q = p)) as [->|];
      [rewrite lookup_insert_eq|rewrite lookup_insert_ne by done; by exists o'].
    rewrite Ho in Ho'. simplify_eq. eexists. split; [done|]. simpl. auto.
Qed.

Lemma server_inv_do_create c p o ts e :
  server_inv e → thread e = Create p :: ts → ops e !! p = Some o → server_inv (do_create c p o (with_thread ts e)).
Proof.
  intros I Ht Ho. assert (p ∉ creating (with_thread ts e)) as Hp.
  { intros Hin%occ_elem. pose proof (creating_once e p I) as H1. unfold creating in *. rewrite Ht in H1. simpl in *.
    rewrite occ_cons, decide_True in H1 by done. unfold omap in *. lia. }
  destruct I as [Hf Htask Hio]. rewrite Ht in Htask.
  destruct (Htask p) as (o' & Ho' & Hpipe & Hs); [by left|]. rewrite Ho in Ho'. simplify_eq.
  assert (front_inv (p :: creating (with_thread ts e)) (held e) (next_handle e) (fr e)) as Hf1.
  { unfold creating in *. by rewrite Ht in Hf. }
  pose proof (front_inv_handle _ _ _ _ Hf1) as Hf2.
  assert (set_failed_if_unknown (m_res o') ≠ unknown ∧ set_failed_if_unknown (m_res o') ≠ success) as [Hu Hns]
    by by destruct (m_res o').
  assert (∀ q, Create q ∈ ts → ∃ o, ops e !! q = Some o ∧ m_pipe o = None ∧ m_res o ≠ success) as Ht'.
  { intros q Hq. apply Htask. by right. }
  destruct c; simpl; try by apply server_inv_resolve.
  - apply server_inv_resolve; simpl; try done. by rewrite Hpipe.
  - split.
    + unfold creating. simpl. rewrite fmap_app. simpl. rewrite (app_assoc (omap _ _)), <- Permutation_cons_append.
      unfold held. simpl. rewrite fmap_app, omap_app. simpl. unfold pipe_of at 2. simpl. rewrite lookup_insert_eq. simpl.
      rewrite <- Permutation_cons_append.
      replace (omap _ (ios e).*1) with (held e); [done|]. apply omap_ext_in. intros q Hq. unfold pipe_of.
      rewrite lookup_insert_ne; [done|]. intros <-. apply Hp. unfold creating. rewrite elem_of_app. by right.
    + simpl. intros q Hq. rewrite lookup_insert_ne; [by apply Ht'|]. intros <-. apply Hp. unfold creating.
      rewrite elem_of_app. left. apply list_elem_of_omap. by exists (Create p).
    + simpl. intros q. rewrite fmap_app, elem_of_app. intros Hq. destruct (decide (q = p)) as [->|Hne].
      * rewrite lookup_insert_eq. eexists. split; [done|]. by split; [eexists|].
      * rewrite lookup_insert_ne by done. apply Hio. destruct Hq as [?|?%list_elem_of_singleton]; done.
Qed.

Lemma server_inv_run_task c e e' : server_inv e → run_task c e = Some e' → server_inv e'.
Proof.
  intros I. unfold run_task. destruct (thread e) as [|[p|p by_timeout] ts] eqn:Ht; [done|..]; simpl;
    destruct (ops e !! p) as [o|] eqn:Ho; simpl; [|done| |done]; intros [= <-].
  - by apply server_inv_do_create.
  - apply server_inv_set_res; [destruct by_timeout; by auto|done|]. destruct I. split; simpl; [| |done].
    + unfold creating in *. by rewrite Ht in se_front0.
    + intros q Hq. apply se_task0. rewrite Ht. by right.
Qed.

Lemma server_inv_run_worker n e e' : server_inv e → run_worker n e = Some e' → server_inv e'.
Proof.
  intros I. unfold run_worker. destruct (ios e !! n) as [[p [ok|]]|] eqn:Hn; [|done..].
  destruct (ops e !! p) as [o|] eqn:Ho; simpl; [|done]. intros [= <-].
  pose proof (delete_Permutation _ _ _ Hn) as Hd. revert Hd. generalize (delete n (ios e)). intros l Hd.
  assert (p ∉ creating (with_ios l e)) as Hp.
  { intros Hin%occ_elem. pose proof (creating_once e p I) as H1. unfold creating in *. rewrite Hd in H1. rewrite fmap_cons in H1.
    simpl in *. rewrite !occ_app, occ_cons, decide_True in H1 by done. rewrite occ_app in Hin. unfold omap in *. lia. }
  assert (p ∈ (ios e).*1) as Hin by (rewrite Hd; by left).
  destruct I as [Hf Htask Hio]. destruct (Hio p Hin) as (o' & Ho' & [h Hpipe] & Hs). rewrite Ho in Ho'. simplify_eq.
  assert (front_inv (p :: creating (with_ios l e)) (h :: held (with_ios l e)) (next_handle e) (fr e)) as Hf1.
  { unfold creating, held in *. rewrite Hd in Hf. simpl in *. unfold pipe_of at 1 in Hf. rewrite Ho in Hf. simpl in Hf.
    rewrite Hpipe in Hf. by rewrite <- Permutation_middle in Hf. }
  apply server_inv_resolve; simpl; try done.
  - by rewrite Hpipe.
  - destruct ok; [done|]. by destruct (m_res o').
  - intros q Hq. apply Hio. rewrite Hd. by right.
Qed.

Lemma server_inv_wait_ends n ok e e' : server_inv e → wait_ends n ok e = Some e' → server_inv e'.
Proof.
  intros I. unfold wait_ends. destruct (ios e !! n) as [[p [|]]|] eqn:Hn; [done| |done]. intros [= <-].
  assert ((<[n := (p, Some ok)]> (ios e)).*1 = (ios e).*1) as E.
  { rewrite list_fmap_insert. apply list_insert_id. by rewrite list_lookup_fmap, Hn. }
  destruct I. split; unfold creating, held in *; simpl; by rewrite ?E.
Qed.

Lemma win_server_inv_step e e' : server_inv e → step e e' → server_inv e'.
Proof.
  intros I [cid tmo Hlt|cid|c e1 Hs|n ok e1 Hs|n e1 Hs|n f Hs|n f Hs|k|k e1 Hs].
  - by apply server_inv_create_pipe.
  - by apply server_inv_cancel.
  - by eapply server_inv_run_task.
  - by eapply server_inv_wait_ends.
  - by eapply server_inv_run_worker.
  - apply server_inv_front; [done|]. by eapply front_inv_finally, Hs; apply se_front.
  - apply server_inv_front; [done|]. by eapply front_inv_then, Hs; apply se_front.
  - apply server_inv_front; [done|]. apply front_inv_timer. by apply se_front.
  - unfold run_timer in Hs. destruct (MultipleTimer.run_handler k _) as [[[i|] t]|]; simplify_eq; [apply server_inv_cancel|];
      (apply server_inv_front; [done|]; apply front_inv_timer; by apply se_front).
Qed.
End server.

(** ** The client environment *)
Section client.
Import WinClientEnv.
Implicit Types e : WinClientEnv.impl.

Definition opening e : list nat := (map_to_list (ops e)).*1.
Definition client_inv e : Prop := front_inv (opening e) [] (next_handle e) (fr e).

Lemma keys_perm {A} (m : gmap nat A) p x : m !! p = Some x → (map_to_list m).*1 ≡ₚ p :: (map_to_list (delete p m)).*1.
Proof. intros Hp. by rewrite <- (map_to_list_delete m p x Hp). Qed.
Lemma keys_insert {A} (m : gmap nat A) p x y : m !! p = Some x → (map_to_list (<[p := y]> m)).*1 ≡ₚ (map_to_list m).*1.
Proof.
  intros Hp. rewrite (keys_perm (<[p := y]> m) p y) by apply lookup_insert_eq. rewrite (keys_perm m p x Hp).
  by rewrite delete_insert_eq.
Qed.
Lemma keys_alter {A} (m : gmap nat A) p f : (map_to_list (alter f p m)).*1 ≡ₚ (map_to_list m).*1.
Proof.
  destruct (m !! p) as [x|] eqn:Hp; [|by rewrite alter_id by congruence].
  replace (alter f p m) with (<[p := f x]> m); [by eapply keys_insert|].
  apply map_eq. intros q. destruct (decide (p = q)) as [->|];
    [by rewrite lookup_insert_eq, lookup_alter_eq, Hp|by rewrite lookup_insert_ne, lookup_alter_ne].
Qed.

Lemma client_inv_cancel by_timeout ps e : client_inv e → client_inv (cancel_all by_timeout ps e).
Proof.
  intros I. unfold client_inv, opening. simpl. assert ((map_to_list (foldr (alter (cancel by_timeout)) (ops e) ps)).*1 ≡ₚ opening e) as ->; [|done].
  induction ps as [|p ps IH]; simpl; [done|]. by rewrite keys_alter.
Qed.

Lemma client_inv_open_pipe cid timeout e :
  client_inv e → m_next_id (fr e) < 2 ^ 64 - 1 → client_inv (open_pipe cid timeout e).
Proof.
  intros I Hlt. assert (ops e !! next_promise (fr e) = None) as Hnew.
  { destruct (ops e !! next_promise (fr e)) as [o|] eqn:E; [|done]. exfalso.
    assert (next_promise (fr e) ∈ seq 0 (next_promise (fr e))) as Hs%elem_of_seq; [|lia].
    rewrite <- (fi_once _ _ _ _ I) at 1. rewrite !elem_of_app. do 3 right. unfold opening. apply list_elem_of_fmap.
    by exists (next_promise (fr e), o); rewrite elem_of_map_to_list. }
  unfold client_inv, opening. simpl. rewrite map_to_list_insert by done. by apply front_inv_add.
Qed.

(** The thread of an operation sets its promise. *)
Lemma client_inv_finish p o a lost e :
  ops e !! p = Some o → good_answer a →
  front_inv (opening e) (option_list (a_handle a) ++ lost) (next_handle e) (fr e) → client_inv (finish p a lost e).
Proof.
  intros Ho Ha I. unfold client_inv. change (next_handle (finish p a lost e)) with (next_handle e).
  apply front_inv_give; [|done]. apply front_inv_close. unfold opening in *. simpl.
  rewrite (keys_perm _ _ _ Ho) in I. rewrite app_nil_r, (Permutation_app_comm lost). exact I.
Qed.

Lemma client_inv_do_openning t p e e' : client_inv e → do_openning t p e = Some e' → client_inv e'.
Proof.
  intros I. unfold do_openning. destruct (ops e !! p) as [[c []]|] eqn:Ho; [|done..]. intros [= <-].
  pose proof (front_inv_handle _ _ _ _ I) as I1. destruct t as [[]| | |].
  - eapply client_inv_finish; [done|by eexists|done].
  - eapply client_inv_finish; [done..|]. done.
  - eapply client_inv_finish; [done..|]. done.
  - unfold client_inv, opening. simpl. by rewrite keys_insert.
  - eapply client_inv_finish; [done..|]. done.
Qed.

Lemma client_inv_wake p e e' : client_inv e → wake p e = Some e' → client_inv e'.
Proof.
  intros I. unfold wake. destruct (ops e !! p) as [[c []]|] eqn:Ho; [done| |done]. intros [= <-].
  destruct c; [|by eapply client_inv_finish..]. unfold client_inv, opening. simpl. by rewrite keys_insert.
Qed.

Lemma win_client_inv_step e e' : client_inv e → step e e' → client_inv e'.
Proof.
  intros I [cid tmo Hlt|cid|t p e1 Hs|p e1 Hs|n f Hs|n f Hs|k|k e1 Hs].
  - by apply client_inv_open_pipe.
  - by apply client_inv_cancel.
  - by eapply client_inv_do_openning.
  - by eapply client_inv_wake.
  - by eapply front_inv_finally.
  - by eapply front_inv_then.
  - by apply front_inv_timer.
  - unfold run_timer in Hs. destruct (MultipleTimer.run_handler k _) as [[[i|] t]|]; simplify_eq; [apply client_inv_cancel|];
      by apply front_inv_timer.
Qed.
End client.

(** ** What the environments promise *)
Record env_ok (under_way held : list nat) (n : nat) (f : front) : Prop := {
  eo_once : (log f).*1 ++ (an_promise <$> thens f) ++ (an_promise <$> finals f) ++ under_way ≡ₚ seq 0 (next_promise f);
  eo_outcomes : Forall good_outcome (log f);
  eo_handles : endpoints f ++ omap handle_of (thens f ++ finals f) ++ held ++ closed f ≡ₚ seq 0 n;
  eo_pending p : is_Some (m_pending_operations f !! Z.of_nat p) ↔ p ∈ under_way ++ (an_promise <$> finals f)
}.

Lemma front_inv_ok under_way held n f : front_inv under_way held n f → env_ok under_way held n f.
Proof.
  intros []. split; [done|by apply Forall_forall| |].
  - rewrite <- fi_handles0, omap_app. by rewrite <- app_assoc.
  - intros p. split; [|apply fi_found0]. intros [x Hx]. destruct (fi_pending0 _ _ Hx) as [->%Nat2Z.inj ?]. done.
Qed.

(** C30: In every run of the two environments of Windows pipes: a request for an
    endpoint is answered once at most and until then its operation is under way or a
    callback is due for it; the application gets an endpoint with a success and only
    then, and no result is unknown; every pipe that was opened belongs to one
    operation, answer or endpoint, or was closed, so none leaks and none is shared;
    and the map has exactly the operations that are not finished, so that a timeout
    or a cancellation reaches each of them. *)
Theorem win_envs_serve :
  (∀ e, rtc WinServerEnv.step WinServerEnv.create e →
        env_ok (creating e) (held e) (WinServerEnv.next_handle e) (WinServerEnv.fr e)) ∧
  (∀ e, rtc WinClientEnv.step WinClientEnv.create e →
        env_ok (opening e) [] (WinClientEnv.next_handle e) (WinClientEnv.fr e)).
Proof.
  split; intros e Hr; apply front_inv_ok.
  - apply se_front. revert Hr. apply rtc_invariant; [|apply win_server_inv_step].
    split; [apply front_inv_create|intros ? Hin; by apply elem_of_nil in Hin..].
  - revert Hr. apply (rtc_invariant _ client_inv); [apply front_inv_create|apply win_client_inv_step].
Qed.

(** Two servers, of which one is cancelled and one gets its client. *)
Definition two_servers : WinServerEnv.impl :=
  let e := WinServerEnv.create_pipe 7 None WinServerEnv.create in
  let e := WinServerEnv.create_pipe 8 (Some 10) e in
  default e (e ← WinServerEnv.run_task WinServerEnv.ConnectWaits e;
             e ← WinServerEnv.run_task WinServerEnv.ConnectWaits e;
             e ← Some (WinServerEnv.cancel_pending_server_endpoints (Some 7) e);
             e ← WinServerEnv.run_task WinServerEnv.ConnectFails e;
             e ← WinServerEnv.wait_ends 0 false e; e ← WinServerEnv.wait_ends 1 true e;
             e ← WinServerEnv.run_worker 0 e; e ← WinServerEnv.run_worker 0 e;
             f ← run_finally 0 (WinServerEnv.fr e); f ← run_finally 0 f; f ← run_then 0 f; f ← run_then 0 f;
             Some (WinServerEnv.with_front f e)).
Example two_servers_log :
  log (WinServerEnv.fr two_servers) =
    [(0%nat, Answer (inr (Some PipeWaitRes.canceled)) None); (1%nat, Answer (inr (Some PipeWaitRes.success)) (Some 1%nat))] ∧
  closed (WinServerEnv.fr two_servers) = [0%nat].
Proof. by vm_compute. Qed.
