(* ===== verification/CppTypes.v ===== *)
(** * Types of C++ and the functions of mpl on them

    The types the library computes with, in a form in which equality is
    [std::is_same]; what it uses of [<type_traits>] and [<tuple>]; and CL [mpl].
    A type function that the compiler may reject returns an option: [None] is
    an ill-formed type or an incomplete specialization. *)
From S2P Require Import Prelude.

(** ** Types *)
Inductive ref_qualifier : Type := NoRef | AmpRef | AmpAmpRef.
#[global] Instance ref_qualifier_eq_dec : EqDecision ref_qualifier.
Proof. solve_decision. Defined.

(** What follows the parameters of a function type; [q_ellipsis] is [...]. *)
Record fquals : Type := Quals {
  q_const : bool; q_volatile : bool; q_ref : ref_qualifier; q_noexcept : bool; q_ellipsis : bool
}.
#[global] Instance fquals_eq_dec : EqDecision fquals.
Proof. solve_decision. Defined.
Definition plain : fquals := Quals false false NoRef false false.

(** [Scalar] and [Class] are the application's types; the templates of the
    library that its type functions look for have constructors of their own. *)
Inductive ty : Type :=
| Void
| Scalar (n : nat)
| Class (n : nat)
| ExceptionPtr
| Tuple (ts : list ty)
| StdFunction (f : ty)
| Future (t : ty)
| FValue (t : ty)
| FTuple (ts : list ty)
| Fun (q : fquals) (r : ty) (args : list ty)
| Ptr (t : ty)
| MemPtr (c t : ty)
| Cv (c v : bool) (t : ty)
| LRef (t : ty)
| RRef (t : ty).

#[global] Instance ty_eq_dec : EqDecision ty.
Proof.
  refine (fix go t1 t2 := let _ : EqDecision ty := @go in
    match t1, t2 with
    | Void, Void => left _
    | Scalar n1, Scalar n2 => cast_if (decide (n1 = n2))
    | Class n1, Class n2 => cast_if (decide (n1 = n2))
    | ExceptionPtr, ExceptionPtr => left _
    | Tuple l1, Tuple l2 => cast_if (decide (l1 = l2))
    | StdFunction a1, StdFunction a2 => cast_if (decide (a1 = a2))
    | Future a1, Future a2 => cast_if (decide (a1 = a2))
    | FValue a1, FValue a2 => cast_if (decide (a1 = a2))
    | FTuple l1, FTuple l2 => cast_if (decide (l1 = l2))
    | Fun q1 r1 l1, Fun q2 r2 l2 => cast_if_and3 (decide (q1 = q2)) (decide (r1 = r2)) (decide (l1 = l2))
    | Ptr a1, Ptr a2 => cast_if (decide (a1 = a2))
    | MemPtr c1 a1, MemPtr c2 a2 => cast_if_and (decide (c1 = c2)) (decide (a1 = a2))
    | Cv c1 v1 a1, Cv c2 v2 a2 => cast_if_and3 (decide (c1 = c2)) (decide (v1 = v2)) (decide (a1 = a2))
    | LRef a1, LRef a2 => cast_if (decide (a1 = a2))
    | RRef a1, RRef a2 => cast_if (decide (a1 = a2))
    | _, _ => right _
    end); abstract congruence.
Defined.

(** ** Forms of types *)
Definition is_same (t u : ty) : bool := bool_decide (t = u).
Definition is_lvalue_reference (t : ty) : bool := match t with LRef _ => true | _ => false end.
Definition is_rvalue_reference (t : ty) : bool := match t with RRef _ => true | _ => false end.
Definition is_reference (t : ty) : bool := is_lvalue_reference t || is_rvalue_reference t.
Definition is_function (t : ty) : bool := match t with Fun _ _ _ => true | _ => false end.
Definition is_const (t : ty) : bool := match t with Cv c _ _ => c | _ => false end.
Definition is_volatile (t : ty) : bool := match t with Cv _ v _ => v | _ => false end.
Definition remove_reference (t : ty) : ty := match t with LRef t | RRef t => t | t => t end.
Definition remove_cv (t : ty) : ty := match t with Cv _ _ t => t | t => t end.
Definition is_void (t : ty) : bool := is_same (remove_cv t) Void.
(** A function type with [const], [volatile] or a reference qualifier. *)
Definition is_abominable (t : ty) : bool :=
  match t with Fun q _ _ => q_const q || q_volatile q || bool_decide (q_ref q ≠ NoRef) | _ => false end.
Definition is_referenceable (t : ty) : bool := negb (is_void t) && negb (is_abominable t).

(** The type with these qualifiers; on none it is the type itself. *)
Definition cv (c v : bool) (t : ty) : ty := if c || v then Cv c v t else t.

(** ** Types that exist, in their one form *)
Definition is_element (t : ty) : bool := negb (is_void t) && negb (is_function t).
Fixpoint valid (t : ty) : bool :=
  match t with
  | Void | Scalar _ | Class _ | ExceptionPtr => true
  | Tuple ts | FTuple ts => forallb (λ t, valid t && is_element t) ts
  | StdFunction f => match f with Fun q _ _ => bool_decide (q = plain) | _ => false end && valid f
  | Future t => valid t && negb (is_function t)
  | FValue t => valid t && is_element t
  | Fun _ r args =>
      valid r && negb (is_function r) &&
      forallb (λ t, valid t && is_element t && is_same (remove_cv t) t) args
  | Ptr t => valid t && negb (is_reference t) && negb (is_abominable t)
  | MemPtr c t =>
      match c with Class _ | StdFunction _ => valid c | _ => false end &&
      valid t && negb (is_reference t) && negb (is_void t)
  | Cv c v t =>
      (c || v) && valid t && negb (is_reference t) && negb (is_function t) && is_same (remove_cv t) t
  | LRef t | RRef t => valid t && negb (is_reference t) && is_referenceable t
  end.

(** ** What the library uses of the standard library and of the language *)
Module Std.
(** [const T], [volatile T] and [const volatile T]: nothing on references and functions. *)
Definition add_cv (c v : bool) (t : ty) : ty :=
  match t with
  | LRef _ | RRef _ | Fun _ _ _ => t
  | Cv c' v' t => cv (c || c') (v || v') t
  | t => cv c v t
  end.
Definition add_const : ty → ty := add_cv true false.
Definition remove_const (t : ty) : ty := match t with Cv _ v t => cv false v t | t => t end.

(** [T &] and [T &&] with the collapsing of references. *)
Definition lref (t : ty) : option ty :=
  match t with
  | LRef t | RRef t => Some (LRef t)
  | t => if is_referenceable t then Some (LRef t) else None
  end.
Definition rref (t : ty) : option ty :=
  match t with
  | LRef t => Some (LRef t)
  | RRef t => Some (RRef t)
  | t => if is_referenceable t then Some (RRef t) else None
  end.
Definition add_lvalue_reference (t : ty) : ty := default t (lref t).
Definition add_rvalue_reference (t : ty) : ty := default t (rref t).

Definition is_pointer (t : ty) : bool := match remove_cv t with Ptr _ => true | _ => false end.
Definition remove_pointer (t : ty) : ty := match remove_cv t with Ptr u => u | _ => t end.
Definition is_member_function_pointer (t : ty) : bool :=
  match remove_cv t with MemPtr _ (Fun _ _ _) => true | _ => false end.
Definition tuple_elements (t : ty) : option (list ty) := match t with Tuple ts => Some ts | _ => None end.
Definition tuple_size (t : ty) : option nat := length <$> tuple_elements t.
Definition tuple_element (i : nat) (t : ty) : option ty := ts ← tuple_elements t; ts !! i.

(** [R(Args...)]: the type of a parameter is adjusted. *)
Definition adjust (t : ty) : ty := if is_function t then Ptr t else remove_cv t.
Definition function_type (r : ty) (args : list ty) : ty := Fun plain r (adjust <$> args).
End Std.
Import Std.

(** ** mpl/type-transform *)
Module TypeTransform.
Definition remove_type_qualifiers (t : ty) : ty := remove_cv (remove_reference t).
Definition remove_c_ref (t : ty) : ty := Std.remove_const (remove_reference t).
Definition add_const (t : ty) : ty :=
  if is_lvalue_reference t then add_lvalue_reference (Std.add_const (remove_reference t))
  else if is_rvalue_reference t then add_rvalue_reference (Std.add_const (remove_reference t))
  else Std.add_const t.
Definition remove_const (t : ty) : option ty :=
  match t with
  | LRef t => lref (Std.remove_const t)
  | RRef t => rref (Std.remove_const t)
  | t => Some (Std.remove_const t)
  end.
Definition add_lvalue_ref_to_value (t : ty) : option ty :=
  if is_same t Void then Some Void
  else t_ref ← lref t; Some (if is_reference t then t else t_ref).
End TypeTransform.
Import TypeTransform.

(** ** mpl/type-traits *)
Module TypeTraits.
Definition is_const (t : ty) : bool := CppTypes.is_const (remove_reference t).
Definition is_value (t : ty) : bool := is_same t (remove_type_qualifiers t).
Definition is_lvalue_ref (t : ty) : option bool := is_same t <$> lref (remove_type_qualifiers t).
Definition is_rvalue_ref (t : ty) : option bool := is_same t <$> rref (remove_type_qualifiers t).
Definition is_const_value (t : ty) : bool := is_same t (add_cv true false (remove_type_qualifiers t)).
Definition is_const_lvalue_ref (t : ty) : option bool :=
  is_same t <$> lref (add_cv true false (remove_type_qualifiers t)).
Definition is_const_rvalue_ref (t : ty) : option bool :=
  is_same t <$> rref (add_cv true false (remove_type_qualifiers t)).
Definition is_volatile_value (t : ty) : bool := is_same t (add_cv false true (remove_type_qualifiers t)).
Definition is_volatile_lvalue_ref (t : ty) : option bool :=
  is_same t <$> lref (add_cv false true (remove_type_qualifiers t)).
Definition is_volatile_rvalue_ref (t : ty) : option bool :=
  is_same t <$> rref (add_cv false true (remove_type_qualifiers t)).
Definition is_const_volatile_value (t : ty) : bool := is_same t (add_cv true true (remove_type_qualifiers t)).
Definition is_const_volatile_lvalue_ref (t : ty) : option bool :=
  is_same t <$> lref (add_cv true true (remove_type_qualifiers t)).
Definition is_const_volatile_rvalue_ref (t : ty) : option bool :=
  is_same t <$> rref (add_cv true true (remove_type_qualifiers t)).
End TypeTraits.

(** ** mpl/function-transform: the qualifiers of functions *)
Module FunctionTransform.
Definition remove_function_qualifiers (t : ty) : option ty :=
  match t with
  | Fun q r args =>
      if decide (q = plain) then Some (function_type r args)
      else if decide (q = Quals false false NoRef true false) then Some (function_type r args)
      else None
  | _ => None
  end.

(** The qualifiers of the specializations, in the order of the source. *)
Definition member_function_specializations : list fquals :=
  [ Quals false false NoRef false false; Quals false false NoRef true false;
    Quals false false AmpRef false false; Quals false false AmpRef true false;
    Quals false false AmpAmpRef false false; Quals false false AmpAmpRef true false;
    Quals true false NoRef false false; Quals true false NoRef true false;
    Quals true false AmpRef false false; Quals true false AmpRef true false;
    Quals true false AmpAmpRef false false; Quals true false AmpAmpRef true false;
    Quals false true NoRef false false; Quals false true NoRef true false;
    Quals false true AmpRef false false; Quals false true AmpRef true false;
    Quals false true AmpAmpRef false false; Quals false true AmpAmpRef true false;
    Quals true true NoRef false false; Quals true true NoRef true false;
    Quals true true AmpRef false false; Quals true true AmpRef true false;
    Quals true true AmpAmpRef false false; Quals true true AmpAmpRef true false ].
Definition remove_member_function_qualifiers (t : ty) : option ty :=
  match t with
  | MemPtr c (Fun q r args) =>
      if decide (q ∈ member_function_specializations) then Some (MemPtr c (function_type r args)) else None
  | _ => None
  end.
End FunctionTransform.
Import FunctionTransform.

(** ** mpl/function-traits *)
Module FunctionTraits.
Record function_traits : Type := Traits {
  ret : ty; class_t : option ty; signature : ty; arg_as_tuple : list ty
}.
Definition arg_count (tr : function_traits) : nat := length (arg_as_tuple tr).
Definition arg (n : nat) (tr : function_traits) : option ty := arg_as_tuple tr !! n.

Definition function_traits_base (t : ty) : option function_traits :=
  match t with
  | MemPtr c (Fun q r args) =>
      if decide (q = plain) then Some (Traits r (Some c) (function_type r args) args) else None
  | Fun q r args => if decide (q = plain) then Some (Traits r None (function_type r args) args) else None
  | StdFunction (Fun q r args) =>
      if decide (q = plain) then Some (Traits r (Some t) (function_type r args) args) else None
  | _ => None
  end.

Definition is_std_function (t : ty) : bool :=
  match remove_type_qualifiers t with
  | StdFunction (Fun q _ _) => bool_decide (q = plain)
  | _ => false
  end.
Definition is_function_pointer (t : ty) : bool :=
  is_pointer (remove_type_qualifiers t) && is_function (remove_pointer (remove_type_qualifiers t)).

Section traits.
(** The member function [operator()] of a class of the application that has
    exactly one, with the class that declares it. *)
Context (call_operator : nat → option (nat * fquals * ty * list ty)).

(** [decltype(&T::operator())] *)
Definition decltype_call_operator (t : ty) : option ty :=
  match t with
  | Class n => '(c, q, r, args) ← call_operator n; Some (MemPtr (Class c) (Fun q r args))
  | StdFunction (Fun _ r args) => Some (MemPtr t (Fun (Quals true false NoRef false false) r args))
  | _ => None
  end.

(** The partial specializations that match, each with its base class. *)
Definition specializations (rec : ty → option function_traits) (F : ty) : list (option function_traits) :=
  let T := remove_type_qualifiers F in
  (if is_member_function_pointer T
   then [t ← remove_member_function_qualifiers T; function_traits_base t] else []) ++
  match decltype_call_operator T with
  | Some t => if negb (is_std_function F) then [rec t] else []
  | None => []
  end ++
  (if is_std_function F then [function_traits_base T] else []) ++
  (if is_function T then [t ← remove_function_qualifiers T; function_traits_base t] else []) ++
  (if is_function_pointer F
   then [t ← remove_function_qualifiers (remove_pointer T); function_traits_base t] else []).

(** The primary template is incomplete, and two matches are ambiguous. *)
Fixpoint traits_of (fuel : nat) (F : ty) : option function_traits :=
  match fuel with
  | O => None
  | S fuel => match specializations (traits_of fuel) F with [r] => r | _ => None end
  end.
Definition traits (F : ty) : option function_traits := traits_of 2 F.

Definition function_arg (n : nat) (F : ty) : option ty := tr ← traits F; arg n tr.
Definition function_ret (F : ty) : option ty := ret <$> traits F.
Definition function_class (F : ty) : option ty := tr ← traits F; class_t tr.
Definition function_signature (F : ty) : option ty := signature <$> traits F.
Definition function_args_as_tuple (F : ty) : option ty := Tuple ∘ arg_as_tuple <$> traits F.
Definition function_arg_count (F : ty) : option nat := arg_count <$> traits F.

(** mpl/function-transform/make-function-type *)
Definition make_function_type_base (r : ty) (t : ty) : option ty :=
  match t with Tuple args => Some (function_type r args) | _ => None end.
Definition make_function_type (F : ty) : option ty :=
  tr ← traits F; make_function_type_base (ret tr) (Tuple (arg_as_tuple tr)).
End traits.
End FunctionTraits.

(** ** mpl/tuple-traits and mpl/tuple-transform *)
Module TupleTransform.
Definition is_std_tuple (t : ty) : bool :=
  match remove_type_qualifiers t with Tuple _ => true | _ => false end.
Definition tuple_size (t : ty) : option nat := Std.tuple_size (remove_type_qualifiers t).
Definition tuple_element (t : ty) (i : nat) : option ty := Std.tuple_element i (remove_type_qualifiers t).

Fixpoint last_tuple_type_base (ts : list ty) : option ty :=
  match ts with
  | [] => None
  | [arg] => Some arg
  | _ :: args => last_tuple_type_base args
  end.
Definition last_tuple_type (t : ty) : option ty :=
  ts ← tuple_elements (remove_type_qualifiers t); last_tuple_type_base ts.

Definition merge_tuples (t1 t2 : ty) : option ty :=
  args1 ← tuple_elements (remove_type_qualifiers t1);
  args2 ← tuple_elements (remove_type_qualifiers t2);
  Some (Tuple (args1 ++ args2)).

Fixpoint remove_last_tuple_type_base (ts : list ty) : option ty :=
  match ts with
  | [] => None
  | [_] => Some (Tuple [])
  | first_arg :: args => base ← remove_last_tuple_type_base args; merge_tuples (Tuple [first_arg]) base
  end.
Definition remove_last_tuple_type (t : ty) : option ty :=
  ts ← tuple_elements (remove_type_qualifiers t); remove_last_tuple_type_base ts.

Definition swap_first_two_tuple_types (t : ty) : option ty :=
  match remove_type_qualifiers t with
  | Tuple (first :: second :: args) => Some (Tuple (second :: first :: args))
  | _ => None
  end.
End TupleTransform.
