(* ===== verification/CppTypesFacts.v ===== *)
(** * What the functions on types compute

    Every valid type is an unqualified type under one choice of qualifiers; the
    predicates on qualifiers recognise that choice, the transformations change
    it, and the traits of functions do not depend on it. *)
From S2P Require Import Prelude CppTypes.
Import Std TypeTransform FunctionTransform FunctionTraits TupleTransform.

Ltac split_bools :=
  repeat match goal with
    | H : Is_true (_ && _) |- _ => apply andb_True in H as [? ?]
    | H : Is_true (is_same _ _) |- _ => apply bool_decide_unpack in H
    | H : Is_true (bool_decide _) |- _ => apply bool_decide_unpack in H
    end.

(** ** Every type is an unqualified type with qualifiers *)
Definition qualify (r : ref_qualifier) (c v : bool) (u : ty) : ty :=
  match r with NoRef => cv c v u | AmpRef => LRef (cv c v u) | AmpAmpRef => RRef (cv c v u) end.
Definition unqualified (t : ty) : bool :=
  match t with Cv _ _ _ | LRef _ | RRef _ => false | _ => true end.

Lemma lref_value t : is_reference t = false → is_referenceable t → lref t = Some (LRef t).
Proof. intros Hr Hf%Is_true_true. unfold lref. rewrite Hf. by destruct t. Qed.
Lemma rref_value t : is_reference t = false → is_referenceable t → rref t = Some (RRef t).
Proof. intros Hr Hf%Is_true_true. unfold rref. rewrite Hf. by destruct t. Qed.

Section qualify.
Context (u : ty) (Hu : unqualified u).

Lemma is_void_cv c v : is_void (cv c v u) = is_same u Void.
Proof using Hu. destruct c, v, u; done. Qed.
Lemma is_referenceable_cv c v :
  is_function u = false ∨ (c || v) = false → is_referenceable (cv c v u) = is_referenceable u.
Proof using Hu. destruct c, v, u; naive_solver. Qed.

Lemma remove_type_qualifiers_qualify r c v : remove_type_qualifiers (qualify r c v u) = u.
Proof using Hu. destruct r, c, v, u; done. Qed.

(** Which qualifiers a type may have. *)
Lemma valid_qualify r c v :
  valid (qualify r c v u) =
  valid u && (negb (is_function u) || negb (c || v)) && (bool_decide (r = NoRef) || is_referenceable u).
Proof using Hu.
  assert (Hc : valid (cv c v u) = valid u && (negb (is_function u) || negb (c || v))).
  { unfold cv. destruct (c || v) eqn:E; simpl; [|by rewrite orb_true_r, andb_true_r].
    unfold is_same. rewrite E. destruct u; try done; simpl; rewrite ?bool_decide_eq_true_2 by done;
    by rewrite ?andb_true_r, ?andb_false_r. }
  assert (Hr : is_reference (cv c v u) = false) by (by destruct c, v, u).
  assert (Hf : negb (is_function u) || negb (c || v) → is_referenceable (cv c v u) = is_referenceable u).
  { intros H. apply is_referenceable_cv. by destruct (is_function u), (c || v); auto. }
  destruct r; simpl; rewrite ?Hc, ?Hr; simpl; try by rewrite andb_true_r.
  all: destruct (valid u); simpl; [|done]; destruct (negb _ || _); simpl; [|done]; by apply Hf.
Qed.

Lemma add_cv_qualify c v c' v' :
  is_function u = false → add_cv c v (qualify NoRef c' v' u) = qualify NoRef (c || c') (v || v') u.
Proof using Hu. intros. destruct c, v, c', v', u; done. Qed.
Lemma add_cv_function c v : is_function u → add_cv c v u = u.
Proof using Hu. by destruct u. Qed.
Lemma is_reference_cv c v : is_reference (cv c v u) = false.
Proof using Hu. by destruct c, v, u. Qed.
Lemma referenceable_valid r c v :
  valid (qualify r c v u) → is_referenceable u → is_referenceable (cv c v u).
Proof using Hu.
  rewrite valid_qualify. intros Hv Hr. split_bools. rewrite is_referenceable_cv; [done|].
  by destruct (is_function u), (c || v); auto.
Qed.
Lemma lref_qualify r c v :
  valid (qualify r c v u) → is_referenceable u → lref (qualify r c v u) = Some (qualify AmpRef c v u).
Proof using Hu.
  intros Hv Hr%(referenceable_valid r c v Hv). destruct r; [|done..]. by apply lref_value; [apply is_reference_cv|].
Qed.
Lemma rref_qualify c v :
  valid (qualify NoRef c v u) → is_referenceable u → rref (qualify NoRef c v u) = Some (qualify AmpAmpRef c v u).
Proof using Hu.
  intros Hv Hr%(referenceable_valid NoRef c v Hv). by apply rref_value; [apply is_reference_cv|].
Qed.
End qualify.

Lemma Cv_inner c v t : t ≠ Cv c v t.
Proof. revert c v. induction t; intros c' v' [=]; naive_solver. Qed.
Lemma valid_cv c v t : valid (Cv c v t) → unqualified t ∧ c || v.
Proof.
  simpl. intros H. split_bools. split; [|done].
  destruct t as [| | | | | | | | | | | |c' v' t|t|t]; try done. by eapply Cv_inner.
Qed.

Lemma valid_form t :
  valid t → ∃ r c v u, unqualified u ∧ t = qualify r c v u.
Proof.
  intros Hv.
  assert (Hc : ∀ t, valid t → is_reference t = false → ∃ c v u, unqualified u ∧ t = cv c v u).
  { clear. intros t Hv Hr. destruct (unqualified t) eqn:E; [exists false, false, t; by rewrite E|].
    destruct t as [| | | | | | | | | | | |c v t|t|t]; try done.
    apply valid_cv in Hv as [Hu Hcv]. exists c, v, t. split; [done|]. unfold cv. by destruct (c || v). }
  destruct (is_reference t) eqn:E.
  - destruct t as [| | | | | | | | | | | | |t|t]; try done; simpl in Hv; split_bools.
    all: destruct (Hc t) as (c & v & u & Hu & ->); [done|by apply negb_true_iff, Is_true_true|].
    + by exists AmpRef, c, v, u.
    + by exists AmpAmpRef, c, v, u.
  - destruct (Hc t) as (c & v & u & Hu & ->); [done..|]. by exists NoRef, c, v, u.
Qed.

(** Proves a property of valid types on their forms. *)
Ltac by_form t H :=
  let r := fresh "r" in let c := fresh "c" in let v := fresh "v" in let u := fresh "u" in
  let Hu := fresh "Hu" in
  destruct (valid_form t H) as (r & c & v & u & Hu & ->).

Lemma valid_remove_type_qualifiers t : valid t → valid (remove_type_qualifiers t) ∧ unqualified (remove_type_qualifiers t).
Proof.
  intros Hv. by_form t Hv. rewrite remove_type_qualifiers_qualify by done. split; [|done].
  rewrite valid_qualify in Hv by done. by split_bools.
Qed.

(** ** The predicates on qualifiers *)
Definition recognizes (r : ref_qualifier) (c v : bool) : ty → option bool :=
  match r, c, v with
  | NoRef, false, false => Some ∘ TypeTraits.is_value
  | AmpRef, false, false => TypeTraits.is_lvalue_ref
  | AmpAmpRef, false, false => TypeTraits.is_rvalue_ref
  | NoRef, true, false => Some ∘ TypeTraits.is_const_value
  | AmpRef, true, false => TypeTraits.is_const_lvalue_ref
  | AmpAmpRef, true, false => TypeTraits.is_const_rvalue_ref
  | NoRef, false, true => Some ∘ TypeTraits.is_volatile_value
  | AmpRef, false, true => TypeTraits.is_volatile_lvalue_ref
  | AmpAmpRef, false, true => TypeTraits.is_volatile_rvalue_ref
  | NoRef, true, true => Some ∘ TypeTraits.is_const_volatile_value
  | AmpRef, true, true => TypeTraits.is_const_volatile_lvalue_ref
  | AmpAmpRef, true, true => TypeTraits.is_const_volatile_rvalue_ref
  end.

Definition with_ref (r : ref_qualifier) (t : ty) : option ty :=
  match r with NoRef => Some t | AmpRef => lref t | AmpAmpRef => rref t end.
Lemma recognizes_spec r c v t :
  unqualified (remove_type_qualifiers t) →
  recognizes r c v t = is_same t <$> with_ref r (add_cv c v (remove_type_qualifiers t)).
Proof.
  intros Hu. assert (He : add_cv false false (remove_type_qualifiers t) = remove_type_qualifiers t)
    by by destruct (remove_type_qualifiers t).
  destruct r, c, v; try done; by rewrite He.
Qed.

Lemma qualify_inj r c v r' c' v' u :
  unqualified u → qualify r c v u = qualify r' c' v' u → (r, c, v) = (r', c', v').
Proof. intros Hu E. destruct r, c, v, r', c', v', u; simplify_eq/=; done. Qed.

Lemma is_same_qualify r c v r' c' v' u :
  unqualified u → is_same (qualify r' c' v' u) (qualify r c v u) = bool_decide ((r, c, v) = (r', c', v')).
Proof.
  intros Hu. apply bool_decide_ext. split; [intros E; symmetry|]; [by eapply qualify_inj|by intros [= -> -> ->]].
Qed.

(** Exactly one of the twelve predicates holds of a type that can be referred to. *)
Lemma qualifiers_recognized r c v r' c' v' u :
  unqualified u → valid u → is_referenceable u → is_function u = false →
  recognizes r c v (qualify r' c' v' u) = Some (bool_decide ((r, c, v) = (r', c', v'))).
Proof.
  intros Hu Hv Hr Hf.
  assert (Hq : ∀ r c v, with_ref r (add_cv c v u) = Some (qualify r c v u)).
  { intros r1 c1 v1. rewrite (add_cv_qualify u Hu _ _ false false) by done. rewrite !orb_false_r.
    assert (valid (qualify NoRef c1 v1 u)).
    { rewrite valid_qualify, Hf by done. simpl. by rewrite !andb_true_r. }
    destruct r1; [done|by apply lref_qualify|by apply rref_qualify]. }
  rewrite recognizes_spec; rewrite remove_type_qualifiers_qualify by done; [|done].
  rewrite Hq. simpl. by rewrite is_same_qualify.
Qed.

(** ** The transformations of qualifiers *)
Section transforms.
Context (u : ty) (Hu : unqualified u) (r : ref_qualifier) (c v : bool).

Lemma remove_reference_qualify : remove_reference (qualify r c v u) = qualify NoRef c v u.
Proof using Hu. destruct r; [|done..]. by destruct c, v, u. Qed.
Lemma remove_const_cv : Std.remove_const (cv c v u) = cv false v u.
Proof using Hu. by destruct c, v, u. Qed.
Lemma valid_unconst r' : valid (qualify r' c v u) → valid (qualify r' false v u).
Proof using Hu.
  rewrite !valid_qualify by done. intros H. split_bools. rewrite !andb_True. split_and!; try done.
  by destruct (is_function u), c, v.
Qed.
Context (Hv : valid (qualify r c v u)).

Lemma valid_unref : valid (qualify NoRef c v u).
Proof using Hu Hv.
  revert Hv. rewrite !valid_qualify by done. intros H. split_bools. rewrite !andb_True. by split_and!.
Qed.
Lemma valid_referenceable : r ≠ NoRef → is_referenceable u.
Proof using Hu Hv.
  intros Hr. revert Hv. rewrite !valid_qualify by done. intros H. split_bools. by rewrite bool_decide_eq_false_2 in *.
Qed.

Lemma remove_c_ref_qualify : remove_c_ref (qualify r c v u) = qualify NoRef false v u.
Proof using Hu. unfold remove_c_ref. rewrite remove_reference_qualify. apply remove_const_cv. Qed.

Lemma remove_const_qualify : remove_const (qualify r c v u) = Some (qualify r false v u).
Proof using Hu Hv.
  pose proof (valid_unconst NoRef valid_unref) as Hn. pose proof remove_const_cv as Hc.
  pose proof valid_referenceable as Hr. clear Hv.
  destruct r.
  - trans (Some (Std.remove_const (cv c v u))); [clear -Hu; by destruct c, v, u|by rewrite Hc].
  - simpl. rewrite Hc. apply (lref_qualify u Hu NoRef); [done|by apply Hr].
  - simpl. rewrite Hc. apply rref_qualify; [done..|by apply Hr].
Qed.

Lemma add_const_qualify :
  add_const (qualify r c v u) = qualify r (negb (is_function u) || c) v u.
Proof using Hu Hv.
  assert (Hc : Std.add_const (cv c v u) = cv (negb (is_function u) || c) v u).
  { pose proof valid_unref as Hw. rewrite valid_qualify in Hw by done. split_bools.
    destruct (is_function u) eqn:E; [|by apply (add_cv_qualify u Hu true false c v)].
    assert (c = false ∧ v = false) as [-> ->] by (by destruct c, v). apply (add_cv_function u Hu true false). by rewrite E. }
  assert (Hw : valid (qualify NoRef (negb (is_function u) || c) v u)).
  { pose proof valid_unref as Hw. rewrite valid_qualify in * by done. split_bools.
    rewrite !andb_True. split_and!; [done| |done]. by destruct (is_function u), c, v. }
  pose proof valid_referenceable as Hr. clear Hv. destruct r; simpl.
  - unfold add_const. assert (is_reference (cv c v u) = false) as Hf by (by apply is_reference_cv).
    apply orb_false_iff in Hf as [-> ->]. done.
  - unfold add_const. simpl. rewrite Hc. unfold add_lvalue_reference.
    assert (lref (cv _ v u) = _) as -> by (apply (lref_qualify u Hu NoRef _ _ Hw); by apply Hr). done.
  - unfold add_const. simpl. rewrite Hc. unfold add_rvalue_reference.
    assert (rref (cv _ v u) = _) as -> by (apply (rref_qualify u Hu _ _ Hw); by apply Hr). done.
Qed.

(** [None] for [const void] and for function types with qualifiers. *)
Lemma add_lvalue_ref_to_value_qualify :
  add_lvalue_ref_to_value (qualify r c v u) =
  if is_same (qualify r c v u) Void then Some Void
  else if is_referenceable u then Some (match r with NoRef => qualify AmpRef c v u | _ => qualify r c v u end)
  else None.
Proof using Hu Hv.
  unfold add_lvalue_ref_to_value. case_match eqn:Es; [done|]. clear Es.
  destruct (is_referenceable u) eqn:E.
  - rewrite lref_qualify by (try done; by rewrite E). simpl. clear Hv. destruct r; [|done..]. by rewrite is_reference_cv.
  - pose proof valid_unref as Hw. pose proof valid_referenceable as Hr. clear Hv. rewrite E in Hr.
    destruct r; [|by destruct Hr..].
    assert (is_referenceable (cv c v u) = false) as Hn.
    { rewrite is_referenceable_cv; [done..|]. rewrite valid_qualify in Hw by done.
      split_bools. by destruct (is_function u), (c || v); auto. }
    assert (is_reference (cv c v u) = false) by (by apply is_reference_cv).
    unfold lref. simpl. destruct (cv c v u) eqn:Ec; try done; by rewrite Hn.
Qed.
End transforms.

(** ** Functions *)
Lemma member_function_specializations_complete q :
  q ∈ member_function_specializations ↔ q_ellipsis q = false.
Proof.
  split.
  - revert q. apply Forall_forall. by repeat constructor.
  - destruct q as [[] [] [] [] []]; simpl; intros; try done; by apply (bool_decide_unpack _).
Qed.
Lemma member_function_specializations_unambiguous : NoDup member_function_specializations.
Proof. apply (bool_decide_unpack _). by vm_compute. Qed.

Lemma adjust_valid args :
  forallb (λ t, valid t && is_element t && is_same (remove_cv t) t) args → adjust <$> args = args.
Proof.
  induction args as [|t args IH]; [done|]. intros H. simpl in H. split_bools. rewrite fmap_cons, IH by done. f_equal.
  unfold adjust. unfold is_element in *. destruct (is_function t); [|done]. by rewrite andb_false_r in *.
Qed.
Lemma function_type_valid q r args : valid (Fun q r args) → function_type r args = Fun plain r args.
Proof. intros H. simpl in H. split_bools. unfold function_type.  by rewrite adjust_valid. Qed.
Lemma valid_plain q r args : valid (Fun q r args) = valid (Fun plain r args).
Proof. done. Qed.

Section callable.
Context (call_operator : nat → option (nat * fquals * ty * list ty)).
Context (call_operator_valid : ∀ n c q r args, call_operator n = Some (c, q, r, args) → valid (Fun q r args)).

(** What can be called with arguments of the types [args] and returns [r]: a
    function, a pointer to one, to a member function, [std::function], or an
    object with one [operator()]; none of them with an ellipsis. *)
Inductive callable : ty → ty → list ty → Prop :=
| callable_function ne r args : callable (Fun (Quals false false NoRef ne false) r args) r args
| callable_pointer ne r args : callable (Ptr (Fun (Quals false false NoRef ne false) r args)) r args
| callable_member c q r args : q_ellipsis q = false → callable (MemPtr c (Fun q r args)) r args
| callable_std_function r args : callable (StdFunction (Fun plain r args)) r args
| callable_object n c q r args :
    call_operator n = Some (c, q, r, args) → q_ellipsis q = false → callable (Class n) r args.

Lemma callable_det t r args r' args' : callable t r args → callable t r' args' → r = r' ∧ args = args'.
Proof. destruct 1; inversion 1; by simplify_eq. Qed.

Lemma member_base c q r args :
  valid (Fun q r args) →
  (t ← remove_member_function_qualifiers (MemPtr c (Fun q r args)); function_traits_base t) =
  if q_ellipsis q then None else Some (Traits r (Some c) (Fun plain r args) args).
Proof.
  intros Hv. unfold remove_member_function_qualifiers. rewrite (function_type_valid q) by done.
  destruct (q_ellipsis q) eqn:E.
  - rewrite decide_False; [done|]. rewrite member_function_specializations_complete. by rewrite E.
  - rewrite decide_True by by apply member_function_specializations_complete.
    cbn [mbind option_bind function_traits_base]. by rewrite (function_type_valid q).
Qed.
Lemma function_base q r args :
  valid (Fun q r args) →
  (t ← remove_function_qualifiers (Fun q r args); function_traits_base t) =
  if is_abominable (Fun q r args) || q_ellipsis q then None else Some (Traits r None (Fun plain r args) args).
Proof.
  intros Hv. unfold remove_function_qualifiers. rewrite !(function_type_valid q) by done.
  assert (Hp : function_traits_base (Fun plain r args) = Some (Traits r None (Fun plain r args) args)).
  { cbn [function_traits_base]. by rewrite decide_True, (function_type_valid q). }
  by destruct q as [[] [] [] [] []].
Qed.

(** The traits of an unqualified type. *)
Definition traits_spec (t : ty) : option function_traits :=
  match t with
  | Fun q r args | Ptr (Fun q r args) =>
      if is_abominable (Fun q r args) || q_ellipsis q then None else Some (Traits r None (Fun plain r args) args)
  | MemPtr c (Fun q r args) => if q_ellipsis q then None else Some (Traits r (Some c) (Fun plain r args) args)
  | StdFunction (Fun q r args) => Some (Traits r (Some t) (Fun plain r args) args)
  | Class n =>
      '(c, q, r, args) ← call_operator n;
      if (q : fquals).(q_ellipsis) then None else Some (Traits r (Some (Class c)) (Fun plain r args) args)
  | _ => None
  end.

Lemma traits_of_unqualified n F :
  unqualified (remove_type_qualifiers F) →
  traits_of call_operator n F = traits_of call_operator n (remove_type_qualifiers F).
Proof.
  intros Hu. destruct n as [|n]; [done|]. simpl.
  assert (remove_type_qualifiers (remove_type_qualifiers F) = remove_type_qualifiers F) as Ht
    by (by destruct (remove_type_qualifiers F)).
  unfold specializations, is_std_function, is_function_pointer. by rewrite !Ht.
Qed.
Lemma valid_member c q r args : valid (MemPtr c (Fun q r args)) → valid (Fun q r args).
Proof.
  change (valid (MemPtr c (Fun q r args)))
    with (match c with Class _ | StdFunction _ => valid c | _ => false end && valid (Fun q r args) && true && true).
  intros H. by split_bools.
Qed.
Lemma traits_of_S n F :
  traits_of call_operator (S n) F =
  match specializations call_operator (traits_of call_operator n) F with [r] => r | _ => None end.
Proof. done. Qed.
Lemma traits_of_member n c q r args :
  valid (Fun q r args) → traits_of call_operator (S n) (MemPtr c (Fun q r args)) = traits_spec (MemPtr c (Fun q r args)).
Proof. intros Hv. unfold traits_spec. by rewrite <-(member_base c q r args Hv). Qed.
Lemma traits_of_function n q r args :
  valid (Fun q r args) →
  traits_of call_operator (S n) (Fun q r args) = traits_spec (Fun q r args) ∧
  traits_of call_operator (S n) (Ptr (Fun q r args)) = traits_spec (Ptr (Fun q r args)).
Proof. intros Hv. unfold traits_spec. by rewrite <-(function_base q r args Hv). Qed.

Lemma traits_of_spec n F :
  valid F → traits_of call_operator (S (S n)) F = traits_spec (remove_type_qualifiers F).
Proof using call_operator_valid.
  intros HF. destruct (valid_remove_type_qualifiers F HF) as [Hv Hu].
  rewrite traits_of_unqualified by done.
  destruct (remove_type_qualifiers F) as [|k|k| |ts|f|t|t|ts|q r args|t|c t|c v t|t|t]; try done.
  - unfold traits_spec. destruct (call_operator k) as [[[[c q] r] args]|] eqn:E.
    + trans (traits_of call_operator (S n) (MemPtr (Class c) (Fun q r args))).
      * rewrite traits_of_S. unfold specializations. cbn [remove_type_qualifiers remove_reference remove_cv decltype_call_operator].
        by rewrite E.
      * rewrite traits_of_member by eauto. done.
    + cbn. by rewrite E.
  - destruct f as [| | | | | | | | |q r args| | | | |]; try done.
    change (Is_true (bool_decide (q = plain) && valid (Fun q r args))) in Hv.
    apply andb_True in Hv as [->%bool_decide_unpack Hv].
    trans (function_traits_base (StdFunction (Fun plain r args))); [done|]. cbn [function_traits_base].
    by rewrite decide_True, (function_type_valid plain).
  - by apply traits_of_function.
  - destruct t as [| | | | | | | | |q r args| | | | |]; try done. apply (traits_of_function (S n)).
    change (Is_true (valid (Fun q r args) && true && negb (is_abominable (Fun q r args)))) in Hv. by split_bools.
  - destruct t as [| | | | | | | | |q r args| | | | |]; try done. apply traits_of_member.
    by eapply valid_member.
Qed.
Lemma traits_spec_shape t tr :
  traits_spec t = Some tr → ∃ r c args, tr = Traits r c (Fun plain r args) args.
Proof. destruct t; simpl; intros; simplify_option_eq; repeat case_match; simplify_eq; eauto. Qed.
Lemma traits_spec_callable t r args :
  valid t → callable t r args ↔
  ∃ c, traits_spec t = Some (Traits r c (Fun plain r args) args) ∧ unqualified t.
Proof.
  intros Hv. split.
  - destruct 1 as [ne| ne|c q r args Hq| |n c q r args E Hq]; simpl; rewrite ?E; simpl; rewrite ?Hq; eauto.
  - intros (c & E & Hu). destruct t as [|k|k| |ts|f|t|t|ts|q r' args'|t|c' t|c' v t|t|t]; try done; simpl in E.
    + destruct (call_operator k) as [[[[c' q] r'] args']|] eqn:Ek; simplify_eq/=.
      destruct (q_ellipsis q) eqn:Eq; simplify_eq. by econstructor.
    + destruct f; simplify_eq. apply andb_True in Hv as [->%bool_decide_unpack _]. constructor.
    + destruct q as [[] [] [] ne []]; simplify_eq/=. constructor.
    + destruct t; try done. destruct q as [[] [] [] ne []]; simplify_eq/=. constructor.
    + destruct t; try done. destruct (q_ellipsis q) eqn:Eq; simplify_eq. by constructor.
Qed.

Lemma callable_valid t r args : valid t → callable t r args → valid (Fun plain r args).
Proof using call_operator_valid.
  intros Hv. destruct 1 as [ne| ne|c q r args Hq| |n c q r args E Hq]; try done.
  - change (Is_true (valid (Fun plain r args) && true && true)) in Hv. by split_bools.
  - by apply valid_member in Hv.
  - by apply call_operator_valid in E.
Qed.

Lemma callable_traits G r args :
  valid G → callable (remove_type_qualifiers G) r args →
  ∃ c, traits call_operator G = Some (Traits r c (Fun plain r args) args).
Proof using call_operator_valid.
  intros HG Hc. apply traits_spec_callable in Hc as (c & E & _); [|by apply valid_remove_type_qualifiers].
  rewrite <-(traits_of_spec 0) in E by done. by exists c.
Qed.
Lemma traits_callable G tr :
  valid G → traits call_operator G = Some tr →
  ∃ r args, callable (remove_type_qualifiers G) r args ∧ ret tr = r ∧ arg_as_tuple tr = args.
Proof using call_operator_valid.
  intros HG E. unfold traits in E. rewrite traits_of_spec in E by done.
  destruct (valid_remove_type_qualifiers G HG) as [Hv Hu].
  destruct (traits_spec_shape _ _ E) as (r & c & args & ->). exists r, args. split; [|done].
  apply traits_spec_callable; eauto.
Qed.

(** [make_function_type] and the traits of functions are defined exactly on
    what can be called, whatever the qualifiers of the type; they give its return
    and parameter types, no two specializations match, and the function type
    that results is its own function type. *)
Theorem function_types_computed F :
  valid F →
  (∀ S, make_function_type call_operator F = Some S ↔
        ∃ r args, callable (remove_type_qualifiers F) r args ∧ S = Fun plain r args) ∧
  (∀ r args, callable (remove_type_qualifiers F) r args →
     function_ret call_operator F = Some r ∧ function_signature call_operator F = Some (Fun plain r args) ∧
     function_args_as_tuple call_operator F = Some (Tuple args) ∧
     function_arg_count call_operator F = Some (length args) ∧
     ∀ n, function_arg call_operator n F = args !! n) ∧
  (∀ S, make_function_type call_operator F = Some S →
     valid S ∧ make_function_type call_operator S = Some S).
Proof using call_operator_valid.
  intros HF. destruct (valid_remove_type_qualifiers F HF) as [Hv Hu].
  assert (Hmake : ∀ G r args, valid G → callable (remove_type_qualifiers G) r args →
                    make_function_type call_operator G = Some (Fun plain r args)).
  { intros G r args HG Hc. destruct (callable_traits G r args HG Hc) as [c E].
    pose proof (callable_valid _ _ _ (proj1 (valid_remove_type_qualifiers G HG)) Hc).
    unfold make_function_type. rewrite E. simpl. by rewrite (function_type_valid plain). }
  assert (Hm : ∀ S, make_function_type call_operator F = Some S →
                 ∃ r args, callable (remove_type_qualifiers F) r args ∧ S = Fun plain r args).
  { intros S HS. destruct (traits call_operator F) as [tr|] eqn:E; [|by unfold make_function_type in HS; rewrite E in HS].
    destruct (traits_callable F tr HF E) as (r & args & Hc & _). exists r, args. split; [done|].
    rewrite (Hmake F r args HF Hc) in HS. by simplify_eq. }
  split_and!.
  - split; [apply Hm|]. intros (r & args & Hc & ->). by apply Hmake.
  - intros r args Hc. destruct (callable_traits F r args HF Hc) as (c & E).
    unfold function_ret, function_signature, function_args_as_tuple, function_arg_count, function_arg. by rewrite E.
  - intros S HS. destruct (Hm S HS) as (r & args & Hc & ->).
    pose proof (callable_valid _ _ _ Hv Hc). split; [done|].
    apply Hmake; [done|constructor].
Qed.
End callable.

Definition one_operator (n : nat) : option (nat * fquals * ty * list ty) :=
  if decide (n = 0) then Some (0, Quals true false NoRef true false, Void, [Scalar 1; LRef (Class 2)]) else None.
Lemma function_types_computed_witness :
  make_function_type one_operator (LRef (Cv true false (Class 0))) = Some (Fun plain Void [Scalar 1; LRef (Class 2)]).
Proof.
  assert (Hop : ∀ n c q r args, one_operator n = Some (c, q, r, args) → valid (Fun q r args)).
  { intros n c q r args. unfold one_operator. case_decide; [|done]. by intros [= <- <- <- <-]. }
  destruct (function_types_computed one_operator Hop (LRef (Cv true false (Class 0)))) as (Hm & _ & _); [done|].
  apply Hm. exists Void, [Scalar 1; LRef (Class 2)]. split; [|done]. by apply (callable_object _ 0 0 (Quals true false NoRef true false)).
Defined.

(** ** Tuples *)
Lemma last_tuple_type_base_spec ts : last_tuple_type_base ts = last ts.
Proof. induction ts as [|t [|t' ts] IH]; done. Qed.
Lemma remove_last_tuple_type_base_snoc ts t : remove_last_tuple_type_base (ts ++ [t]) = Some (Tuple ts).
Proof.
  induction ts as [|t' ts IH]; [done|]. simpl.
  destruct (ts ++ [t]) eqn:E; [by destruct ts|]. by rewrite IH.
Qed.

(** The last type and the rest make up the tuple. *)
Lemma tuple_type_split T ts t :
  remove_type_qualifiers T = Tuple (ts ++ [t]) →
  last_tuple_type T = Some t ∧ remove_last_tuple_type T = Some (Tuple ts) ∧
  merge_tuples (Tuple ts) (Tuple [t]) = Some (remove_type_qualifiers T).
Proof.
  intros HT. unfold last_tuple_type, remove_last_tuple_type. rewrite HT. simpl.
  by rewrite last_tuple_type_base_spec, last_snoc, remove_last_tuple_type_base_snoc.
Qed.
Lemma swap_first_two_twice T U :
  swap_first_two_tuple_types T = Some U → swap_first_two_tuple_types U = Some (remove_type_qualifiers T).
Proof. unfold swap_first_two_tuple_types. intros H.
  by destruct (remove_type_qualifiers T) as [| | | |[|t1 [|t2 ts]]| | | | | | | | | |]; simplify_eq/=. Qed.
Lemma merge_tuples_size T U V :
  merge_tuples T U = Some V → tuple_size V = (n ← tuple_size T; m ← tuple_size U; Some (n + m)).
Proof.
  unfold merge_tuples, tuple_size, Std.tuple_size. intros H.
  destruct (tuple_elements (remove_type_qualifiers T)), (tuple_elements (remove_type_qualifiers U)); simplify_eq/=.
  by rewrite length_app.
Qed.

Lemma valid_tuple ts : valid (Tuple ts) ↔ Forall (λ t, valid t ∧ is_element t) ts.
Proof.
  change (valid (Tuple ts)) with (forallb (λ t, valid t && is_element t) ts).
  induction ts as [|t ts IH]; [done|]. simpl. by rewrite Forall_cons, !andb_True, IH.
Qed.
Lemma tuple_elements_valid T ts :
  valid T → tuple_elements (remove_type_qualifiers T) = Some ts → Forall (λ t, valid t ∧ is_element t) ts.
Proof.
  intros Hv%valid_remove_type_qualifiers%proj1 E. destruct (remove_type_qualifiers T); simplify_eq/=. by apply valid_tuple.
Qed.
