(* ===== verification/FutureTypes.v ===== *)
(** * The types of futures

    Which callbacks [then], [catched], [finally] and [with] accept, the type of
    the future they give, and the calls in their bodies that the compiler has to
    accept as well.  Chains of these calls start at promises and ready futures. *)
From S2P Require Import Prelude CppTypes CppTypesFacts.
Import Std TypeTransform FunctionTraits.

(** ** is-future.h, future-store-type-or-self.h, future-tuple-utils.h *)
Module FutureTraits.
Definition is_future (t : ty) : bool := match remove_type_qualifiers t with Future _ => true | _ => false end.
Definition is_flattenable_future (t : ty) : bool := match t with Future _ => true | _ => false end.
Definition future_store_type_or_self (t : ty) : ty := match t with Future t => t | t => t end.

Definition is_nested_future_tuple (t : ty) : bool := match t with FTuple _ => true | _ => false end.
Definition is_future_tuple (t : ty) : bool :=
  match remove_type_qualifiers t with FTuple _ => true | _ => false end.
Definition future_tuple_has_reference (t : ty) : bool :=
  match remove_type_qualifiers t with FTuple ts => existsb is_reference ts | _ => false end.
End FutureTraits.
Import FutureTraits.

(** ** future-tuple.h *)
Module FutureTuple.
(** The class, with its [static_assert], and its deduction guide. *)
Definition ftuple (args : list ty) : option ty :=
  if forallb (λ t, negb (is_nested_future_tuple (remove_type_qualifiers t))) args then Some (FTuple args) else None.
Definition deduce (uargs : list ty) : option ty := ftuple (remove_type_qualifiers <$> uargs).
End FutureTuple.

Section futures.
(** What a call of a callable of the application returns, whether one of its
    types can be made from another, and its classes with one [operator()]. *)
Context (invoke_result : ty → list ty → option ty).
Context (is_constructible : ty → ty → bool).
Context (call_operator : nat → option (nat * fquals * ty * list ty)).

(** ** type-qualifiers-cast.h

    [from] is the type of the lvalue that is cast: reference and value
    parameters of [static_cast] differ in what they need. *)
Definition static_cast (to from : ty) : bool :=
  if is_reference to
  then implb (is_const from) (is_const (remove_reference to)) &&
       implb (is_volatile from) (is_volatile (remove_reference to))
  else is_constructible to from.
Definition type_qualifiers_cast (to from : ty) : bool :=
  is_same (remove_type_qualifiers to) (remove_type_qualifiers from) &&
  static_cast to (remove_reference from).

(** ** future_controller and future_value_state

    The parameter of [value_proxy], which is a reference or [void]. *)
Definition value_proxy_parameter (t : ty) : option ty :=
  p ← add_lvalue_ref_to_value t; if is_reference p || is_same p Void then Some p else None.
Definition future_controller (t : ty) : option ty := value_proxy_parameter t.

(** value-proxy.h, future.h, future-tuple.h: whether the constructors of
    [value_proxy] that [set_value] calls accept an argument of type [arg].  A
    reference binds to an expression of its own type, a future can only be moved,
    an [ftuple] is moved when all of its elements can be, or else copied; the
    rest is the application's. *)
Definition element_from (to arg : ty) : bool :=
  if is_reference to then is_same to arg || is_constructible to arg
  else match to with Future _ => is_same arg (RRef to) | _ => is_constructible to arg end.
Definition value_from (to arg : ty) : bool :=
  match to with
  | FTuple ts =>
      if is_same arg (RRef to)
      then forallb (λ t, element_from t (add_rvalue_reference t)) ts ||
           forallb (λ t, element_from t (add_lvalue_reference (Std.add_const t))) ts
      else is_constructible to arg
  | _ => element_from to arg
  end.
(** The overloads of [set_value]: without a value, with one of type [arg], with
    one and its source. *)
Definition can_set_void (t : ty) : bool := is_void t.
Definition can_set_value (t arg : ty) : bool := negb (is_void t) && value_from t arg.
Definition can_set_with_source (t arg : ty) : bool :=
  (is_reference t || future_tuple_has_reference t) && can_set_value t arg.
(** [set_value_state] takes the state of a controller of the same type. *)
Definition can_set_value_state (t source : ty) : bool := is_same t source.

(** ** promise *)
Definition promise (t : ty) : option ty :=
  if is_future t then None else _ ← future_controller t; Some t.
Definition promise_set_value (u : ty) : bool := negb (is_future u).

(** ** then *)
Definition then_result (t F : ty) : option ty :=
  if is_void t then invoke_result F [] else invoke_result F [FValue t].

(** The calls of [set_value] in the two overloads of [exec_then_on_success],
    with the value that the callback returned. *)
Definition exec_then_on_success (t ret_t : ty) : bool :=
  let result := add_rvalue_reference ret_t in
  if is_void t then
    if negb (is_void ret_t) then can_set_value ret_t result else can_set_void ret_t
  else if negb (is_void ret_t) then
    if is_reference ret_t || future_tuple_has_reference ret_t
    then can_set_with_source ret_t result else can_set_value ret_t result
  else can_set_void ret_t.

Definition flatten_future (fut : ty) : option ty :=
  if is_flattenable_future fut then
    let future_store := future_store_type_or_self fut in
    _ ← future_controller future_store;
    if (if is_void future_store then can_set_void future_store else can_set_value_state future_store future_store)
    then Some future_store else None
  else None.

(** The assertions of the method, with the one of [exec_then_on_success] for
    [void]; what the callback returns is stored in the body. *)
Definition then_ (t F : ty) : option ty :=
  ret_t ← then_result t F;
  if is_future ret_t && negb (is_flattenable_future ret_t) then None
  else
    _ ← future_controller ret_t;
    if is_void t && negb (bool_decide (function_arg_count call_operator F = Some 0)) then None
    else if negb (is_future ret_t) then Some ret_t else flatten_future ret_t.
Definition then_body (t F : ty) : bool :=
  match then_result t F with Some ret_t => exec_then_on_success t ret_t | None => false end.

(** ** catched *)
Definition get_on_success_for_catched_method (t ret_t child : ty) : bool :=
  if is_void t then can_set_void child
  else if is_void ret_t then can_set_void child
  else can_set_value_state child t.
Definition get_on_fail_for_catched_method (ret_t child : ty) : bool :=
  if negb (is_flattenable_future ret_t) then
    if negb (is_void ret_t) then can_set_value child (add_rvalue_reference ret_t) else can_set_void child
  else
    let future_store := future_store_type_or_self ret_t in
    TypeTraits.is_value ret_t &&
    (if is_void future_store then can_set_void child else can_set_value_state child future_store).

(** The assertions of the method; its body is checked by [catched_body]. *)
Definition catched (t F : ty) : option ty :=
  ret_t ← function_ret call_operator F;
  if bool_decide (function_arg_count call_operator F = Some 1) &&
     bool_decide (function_arg call_operator 0 F = Some ExceptionPtr)
  then
    if is_future ret_t && negb (is_flattenable_future ret_t) then None
    else if is_same (future_store_type_or_self ret_t) t || is_void ret_t then
      _ ← future_controller (future_store_type_or_self ret_t); Some (future_store_type_or_self ret_t)
    else None
  else None.
Definition catched_body (t F : ty) : bool :=
  match function_ret call_operator F with
  | Some ret_t =>
      get_on_success_for_catched_method t ret_t (future_store_type_or_self ret_t) &&
      get_on_fail_for_catched_method ret_t (future_store_type_or_self ret_t)
  | None => false
  end.

(** ** finally *)
Definition get_on_success_for_finally_method (t ret_t child : ty) : bool :=
  if is_void t then
    if is_void ret_t then can_set_void child else is_flattenable_future ret_t && can_set_void child
  else
    if is_void ret_t then can_set_value_state child t
    else is_flattenable_future ret_t && can_set_value_state child t.
Definition get_on_fail_for_finally_method (ret_t : ty) : bool :=
  if is_void ret_t then true else is_flattenable_future ret_t.

Definition finally_ (t F : ty) : option ty :=
  ret_t ← function_ret call_operator F;
  if bool_decide (function_arg_count call_operator F = Some 0) then
    if is_future ret_t && negb (is_flattenable_future ret_t) then None
    else if is_same ret_t Void || is_same ret_t (Future Void) then _ ← future_controller t; Some t
    else None
  else None.
Definition finally_body (t F : ty) : bool :=
  match function_ret call_operator F with
  | Some ret_t => get_on_success_for_finally_method t ret_t t && get_on_fail_for_finally_method ret_t
  | None => false
  end.

(** ** locked_fvalue

    [apply] passes each element of a tuple to its parameter; it is declared for
    tuples that are not [const].  The other values have one parameter. *)
Definition apply (F : ty) (types : list ty) : option ty :=
  ret_t ← function_ret call_operator F;
  n ← function_arg_count call_operator F;
  if bool_decide (n = length types) &&
     forallb (λ '(i, t), match function_arg call_operator i F with
                         | Some to => type_qualifiers_cast to t
                         | None => false
                         end) (imap (λ i t, (i, t)) types)
  then Some ret_t else None.
Definition with_ (t F : ty) : option ty :=
  match remove_type_qualifiers t with
  | FTuple types =>
      if is_same (remove_reference t) (FTuple types) then apply F types else None
  | _ =>
      ret_t ← function_ret call_operator F;
      arg_t ← function_arg call_operator 0 F;
      if bool_decide (function_arg_count call_operator F = Some 1) && type_qualifiers_cast arg_t t
      then Some ret_t else None
  end.

(** ** Chains of calls

    Futures come from promises, from values of type [arg] that are there (none for
    [void]), and from other futures; [type_of] is what the last one holds. *)
Inductive chain : Type :=
| GetFuture (t : ty)
| Ready (t arg : ty)
| Then (e : chain) (F : ty)
| Catched (e : chain) (F : ty)
| Finally (e : chain) (F : ty).

Definition ready (t : ty) : option ty := _ ← future_controller t; Some t.
Definition ready_body (t arg : ty) : bool := if is_void t then can_set_void t else can_set_value t arg.
Fixpoint type_of (e : chain) : option ty :=
  match e with
  | GetFuture t => promise t
  | Ready t _ => ready t
  | Then e F => t ← type_of e; then_ t F
  | Catched e F => t ← type_of e; catched t F
  | Finally e F => t ← type_of e; finally_ t F
  end.

(** The bodies that were instantiated on the way. *)
Fixpoint bodies (e : chain) : bool :=
  match e with
  | GetFuture _ => true
  | Ready t arg => ready_body t arg
  | Then e F => bodies e && match type_of e with Some t => then_body t F | None => false end
  | Catched e F => bodies e && match type_of e with Some t => catched_body t F | None => false end
  | Finally e F => bodies e && match type_of e with Some t => finally_body t F | None => false end
  end.

(** What the application makes the chain store: the type of each value, with
    the type of the expression it is made from. *)
Definition result_stored (ret_t : ty) : list (ty * ty) :=
  if is_void ret_t then [] else [(ret_t, add_rvalue_reference ret_t)].
Fixpoint stored (e : chain) : list (ty * ty) :=
  match e with
  | GetFuture _ => []
  | Ready t arg => if is_void t then [] else [(t, arg)]
  | Then e F => stored e ++ default [] (t ← type_of e; result_stored <$> then_result t F)
  | Catched e F =>
      stored e ++ default [] (ret_t ← function_ret call_operator F;
                              if is_flattenable_future ret_t then None else Some (result_stored ret_t))
  | Finally e _ => stored e
  end.

(** Whether the application itself put a future into the future: as a value
    that is there, or by a callback that returns a future of a future. *)
Fixpoint nested (e : chain) : bool :=
  match e with
  | GetFuture _ => false
  | Ready t _ => is_future t
  | Then e F => match t ← type_of e; then_result t F with Some (Future u) => is_future u | _ => false end
  | Catched e F => match function_ret call_operator F with Some Void => false | _ => nested e end
  | Finally e _ => nested e
  end.
End futures.

(** ** What the types promise *)
Lemma future_controller_void t p : is_void t → future_controller t = Some p → t = Void.
Proof.
  unfold future_controller, value_proxy_parameter, add_lvalue_ref_to_value, is_void.
  intros Hv%bool_decide_unpack. case_match eqn:E; [by intros; apply bool_decide_eq_true in E|].
  destruct t; simplify_eq/=. by destruct c, v.
Qed.

Lemma flatten_future_store u : flatten_future (Future u) = (_ ← future_controller u; Some u).
Proof.
  unfold flatten_future. simpl. destruct (future_controller u); simpl; [|done].
  unfold can_set_void, can_set_value_state, is_same. by destruct (is_void u); rewrite ?bool_decide_eq_true_2.
Qed.

(** [apply] calls exactly the callables with one parameter for each element,
    of the element's type up to qualifiers that may be added. *)
Section apply.
Context (is_constructible : ty → ty → bool).
Context (call_operator : nat → option (nat * fquals * ty * list ty)).
Context (call_operator_valid : ∀ n c q r args, call_operator n = Some (c, q, r, args) → valid (Fun q r args)).

Lemma apply_casts (ps : list ty) types :
  length ps = length types →
  forallb (λ '(i, t), match (ps !! i : option ty) with
                      | Some to => type_qualifiers_cast is_constructible to t
                      | None => false
                      end) (imap (λ i t, (i, t)) types) ↔
  Forall2 (λ to t, type_qualifiers_cast is_constructible to t) ps types.
Proof.
  intros Hl. rewrite forallb_True, Forall_lookup, Forall2_lookup. split.
  - intros H i. destruct (ps !! i) as [to|] eqn:E1, (types !! i) as [t|] eqn:E2; try constructor.
    + specialize (H i (i, t)). rewrite list_lookup_imap, E2 in H. specialize (H eq_refl). simpl in H. by rewrite E1 in H.
    + apply lookup_lt_Some in E1. apply lookup_ge_None in E2. lia.
    + apply lookup_ge_None in E1. apply lookup_lt_Some in E2. lia.
  - intros H i [j t]. rewrite list_lookup_imap. intros Hj.
    destruct (types !! i) as [t'|] eqn:E2; simplify_eq/=. specialize (H j). rewrite E2 in H. by inversion H.
Qed.

Lemma apply_spec F types r :
  valid F →
  apply is_constructible call_operator F types = Some r ↔
  ∃ ps, callable call_operator (remove_type_qualifiers F) r ps ∧
        Forall2 (λ to t, type_qualifiers_cast is_constructible to t) ps types.
Proof using call_operator_valid.
  intros HF. split.
  - unfold apply. intros H. destruct (traits call_operator F) as [tr|] eqn:E.
    + destruct (traits_callable call_operator call_operator_valid F tr HF E) as (r' & ps & Hc & <- & <-).
      unfold function_ret, function_arg_count, function_arg in H. rewrite E in H. simpl in H.
      unfold arg_count, arg in H. case_match eqn:Eb; [|done]. simplify_eq.
      apply andb_true_iff in Eb as [El%bool_decide_eq_true Eb%Is_true_true]. eexists. split; [done|].
      by apply apply_casts.
    + unfold function_ret in H. by rewrite E in H.
  - intros (ps & Hc & Hps).
    destruct (callable_traits call_operator call_operator_valid F r ps HF Hc) as (c & E).
    unfold apply, function_ret, function_arg_count, function_arg. rewrite E. simpl. unfold arg_count, arg. simpl.
    pose proof (Forall2_length _ _ _ Hps) as Hl. apply (apply_casts ps types) in Hps; [|done].
    apply Is_true_true in Hps. rewrite Hps. by rewrite bool_decide_eq_true_2.
Qed.
End apply.

Section sound.
Context (invoke_result : ty → list ty → option ty).
Context (is_constructible : ty → ty → bool).
Context (call_operator : nat → option (nat * fquals * ty * list ty)).
Context (invoke_result_valid : ∀ F args r, invoke_result F args = Some r → valid r && negb (is_function r)).

(** The types the application gives to promises and ready futures exist. *)
Fixpoint well_formed (e : chain) : bool :=
  match e with
  | GetFuture t | Ready t _ => valid (Future t)
  | Then e _ | Catched e _ | Finally e _ => well_formed e
  end.
Definition storable (l : list (ty * ty)) : bool := forallb (λ '(to, arg), value_from is_constructible to arg) l.
Lemma storable_app l l' : storable (l ++ l') = storable l && storable l'.
Proof. apply forallb_app. Qed.

(** A result is stored by [set_value] exactly when a value of its type can be
    made from it; the other conditions of the overloads always hold. *)
Lemma exec_then_storable t r : exec_then_on_success is_constructible t r = storable (result_stored r).
Proof.
  unfold exec_then_on_success, can_set_with_source, can_set_value, can_set_void, storable, result_stored.
  destruct (is_void r) eqn:Er, (is_void t); simpl; rewrite ?andb_true_r; try done.
  by destruct (is_reference r || future_tuple_has_reference r).
Qed.

(** For a future with a value every callback is accepted that returns no
    reference to a future; a future that is returned is flattened once. *)
Lemma then_accepts t F r :
  is_void t = false → invoke_result F [FValue t] = Some r →
  then_ invoke_result call_operator t F =
  match r with
  | Future u => _ ← future_controller u; Some u
  | _ => if is_future r then None else _ ← future_controller r; Some r
  end.
Proof.
  intros Ht Hr. unfold then_, then_result. rewrite Ht, Hr. cbn [mbind option_bind andb].
  destruct (is_future r) eqn:Ef.
  - destruct r; rewrite ?flatten_future_store; try done; cbn; by destruct (future_controller _).
  - destruct r; try done; cbn; by destruct (future_controller _).
Qed.

Lemma then_sound t F u :
  then_ invoke_result call_operator t F = Some u →
  ∃ r, then_result invoke_result t F = Some r ∧
       then_body invoke_result is_constructible t F = storable (result_stored r) ∧
       valid (Future u) ∧ is_Some (future_controller u) ∧
       is_future u = match r with Future v => is_future v | _ => false end.
Proof using invoke_result_valid.
  intros H. unfold then_body, then_ in *.
  destruct (then_result invoke_result t F) as [r|] eqn:E; [|done]. cbn [mbind option_bind] in H.
  exists r. split; [done|]. split; [apply exec_then_storable|].
  assert (∃ args, invoke_result F args = Some r) as [args Hr]
    by (unfold then_result in E; destruct (is_void t); eauto).
  apply invoke_result_valid in Hr as Hv.
  destruct (is_future r && negb (is_flattenable_future r)) eqn:Ef; [done|].
  destruct (future_controller r) as [p|] eqn:Ep; [|done]. cbn [mbind option_bind] in H.
  destruct (is_void t && _); [done|]. destruct (is_future r) eqn:Efr; simpl in H.
  - destruct r as [| | | | | |v| | | | | | | |]; try done. rewrite flatten_future_store in H.
    destruct (future_controller v) eqn:Ev; simplify_eq/=. rewrite Ev. apply andb_True in Hv as [Hv _]. by split; [|split].
  - simplify_eq. split; [done|]. split; [done|]. rewrite Efr. by destruct u.
Qed.

(** The assertions of [catched] and [finally] leave open only whether the
    result of the handler can be stored. *)
Lemma is_same_refl t : is_same t t = true.
Proof. by apply bool_decide_eq_true. Qed.
Lemma catched_sound t F u :
  catched call_operator t F = Some u →
  ∃ r, function_ret call_operator F = Some r ∧
       catched_body is_constructible call_operator t F =
         storable (default [] (if is_flattenable_future r then None else Some (result_stored r))) ∧
       u = match r with Void => Void | _ => t end.
Proof.
  unfold catched, catched_body. destruct (function_ret call_operator F) as [r|]; [|done]. cbn [mbind option_bind].
  case_match; [|done]. case_match eqn:Ef; [done|]. case_match eqn:Es; [|done].
  destruct (future_controller (future_store_type_or_self r)) as [p|] eqn:Ep; [|done]. intros [= <-].
  exists r. split; [done|].
  unfold get_on_success_for_catched_method, get_on_fail_for_catched_method, can_set_void, can_set_value,
    can_set_value_state, storable, result_stored.
  apply orb_true_iff in Es as [Es|Es].
  - apply bool_decide_eq_true in Es as Et. subst t. rewrite !is_same_refl. split.
    + destruct (is_flattenable_future r) eqn:El; simpl.
      * destruct r; try done. unfold TypeTraits.is_value. simpl. rewrite !is_same_refl. by destruct (is_void r).
      * assert (future_store_type_or_self r = r) as -> by by destruct r.
        destruct (is_void r); simpl; by rewrite ?andb_true_r.
    + by destruct r.
  - assert (future_store_type_or_self r = r) as Er by by destruct r. rewrite Er in *.
    assert (r = Void) as -> by (eapply future_controller_void; [by rewrite Es|done]).
    simpl. by destruct (is_void t).
Qed.
Lemma finally_sound t F u :
  finally_ call_operator t F = Some u → finally_body call_operator t F = true ∧ u = t.
Proof.
  unfold finally_, finally_body. destruct (function_ret call_operator F) as [r|]; [|done]. cbn [mbind option_bind].
  case_match; [|done]. case_match eqn:Ef; [done|]. case_match eqn:Es; [|done].
  destruct (future_controller t); [|done]. intros [= <-]. split; [|done].
  unfold get_on_success_for_finally_method, get_on_fail_for_finally_method, can_set_void, can_set_value_state.
  rewrite is_same_refl.
  by apply orb_true_iff in Es as [->%bool_decide_eq_true| ->%bool_decide_eq_true]; simpl; destruct (is_void t) eqn:E; rewrite ?E.
Qed.

End sound.

(** A promise of a number, a callback that gives a future of a reference, one
    that handles the exception and one that runs in any case; and two callbacks
    that return objects, one of a class that can be moved and one of a class that
    cannot. *)
Definition sample_operator (n : nat) : option (nat * fquals * ty * list ty) :=
  match n with
  | 0 => Some (0, Quals true false NoRef false false, Future (LRef (Class 9)), [FValue (Scalar 1)])
  | 1 => Some (1, plain, Void, [ExceptionPtr])
  | 2 => Some (2, Quals true false NoRef true false, Future Void, [])
  | 3 => Some (3, plain, Class 7, [])
  | 4 => Some (4, plain, Class 8, [])
  | _ => None
  end.
Definition sample_result (F : ty) (args : list ty) : option ty :=
  match F with
  | Class n => '(_, _, r, ps) ← sample_operator n; if bool_decide (args = ps) then Some r else None
  | _ => None
  end.
Definition sample_constructible (to arg : ty) : bool :=
  match to, arg with Class n, RRef (Class m) => bool_decide (n = m ∧ n ≠ 8) | _, _ => false end.
Definition sample_chain : chain := Finally (Catched (Then (GetFuture (Scalar 1)) (Class 0)) (Class 1)) (Class 2).
Definition moved_chain : chain := Then sample_chain (Class 3).
Definition unmovable_chain : chain := Then sample_chain (Class 4).
Lemma sample_result_valid F args r : sample_result F args = Some r → valid r && negb (is_function r).
Proof.
  destruct F as [| |[|[|[|[|[|n]]]]]| | | | | | | | | | | |]; try done; simpl; case_bool_decide; by intros [= <-].
Qed.

