(* ===== verification/TupleUtils.v ===== *)
(** * The utilities of tuples at run time

    CL [utils/internal/tuple-utils]: merging, swapping and splitting tuples of
    values and references, copying from lvalues and moving from rvalues.  An
    object is alive or was moved from; its value must not be read after that.
    Copies and moves of elements do not throw. *)
From S2P Require Import Prelude.

(** ** Objects, elements and the categories of expressions *)
Inductive cell : Type := Alive (v : Z) | MovedFrom.
Abbreviation store := (list cell).
Abbreviation M := (prog store).

(** An element of type [T], [T &] or [T &&]: its own object, or another one. *)
Inductive element : Type := Value (a : nat) | LRefTo (a : nat) | RRefTo (a : nat).
Inductive kind : Type := KValue | KLRef | KRRef.
Definition kind_of (e : element) : kind :=
  match e with Value _ => KValue | LRefTo _ => KLRef | RRefTo _ => KRRef end.

Inductive category : Type := Lvalue | Xvalue | ConstXvalue.
#[global] Instance category_eq_dec : EqDecision category.
Proof. solve_decision. Defined.
(** A tuple with the category of the expression that names it, and the same for
    an object. *)
Abbreviation tuple := (list element).
Abbreviation expr := (category * nat)%type.

(** [std::get<I>(std::forward<Tuple>(t))] *)
Definition get (c : category) (e : element) : expr :=
  match e with
  | Value a => (c, a)
  | LRefTo a => (Lvalue, a)
  | RRefTo a => (match c with Lvalue => Lvalue | _ => Xvalue end, a)
  end.

Definition copy_from (a : nat) : M nat := λ s,
  match s !! a with Some (Alive v) => Ok (length s) (s ++ [Alive v]) | _ => UB end.
Definition move_from (a : nat) : M nat := λ s,
  match s !! a with Some (Alive v) => Ok (length s) (<[a := MovedFrom]> s ++ [Alive v]) | _ => UB end.

(** The initialization of an element; [None] does not compile. *)
Definition construct (k : kind) (x : expr) : option (M element) :=
  match k, x with
  | KValue, (Xvalue, a) => Some (bind (move_from a) (λ b, ret (Value b)))
  | KValue, (_, a) => Some (bind (copy_from a) (λ b, ret (Value b)))
  | KLRef, (Lvalue, a) => Some (ret (LRefTo a))
  | KLRef, _ => None
  | KRRef, (Xvalue, a) => Some (ret (RRefTo a))
  | KRRef, _ => None
  end.

(** Braces initialize from left to right. *)
Fixpoint braces (l : list (kind * expr)) : option (M tuple) :=
  match l with
  | [] => Some (ret [])
  | (k, x) :: l =>
      m ← construct k x; ms ← braces l;
      Some (bind m (λ e, bind ms (λ t, ret (e :: t))))
  end.
(** Elements of the tuples' own types from their elements. *)
Definition element_init (ce : category * element) : kind * expr := (kind_of ce.2, get ce.1 ce.2).
Definition from_elements (l : list (category * element)) : option (M tuple) := braces (element_init <$> l).
(** The copy and the move constructor of [std::tuple]. *)
Definition tuple_construct (c : category) (t : tuple) : option (M tuple) := from_elements (pair c <$> t).

(** ** merge-tuples.h *)
Definition merge_two_tuples (c1 : category) (t1 : tuple) (c2 : category) (t2 : tuple) : option (M tuple) :=
  from_elements ((pair c1 <$> t1) ++ (pair c2 <$> t2)).

(** What is returned is known when the tuples are; [M] of an option keeps apart
    the two steps. *)
Fixpoint do_merge_rest (c : category) (t : tuple) (rest_tuples : list (category * tuple)) : M (option tuple) :=
  match rest_tuples with
  | [] => match tuple_construct c t with Some m => bind m (λ t', ret (Some t')) | None => ret None end
  | (c2, second) :: rest =>
      match merge_two_tuples c t c2 second with
      | Some m => bind m (λ merged, do_merge_rest Xvalue merged rest)
      | None => ret None
      end
  end.
Definition do_merge_tuples (ts : list (category * tuple)) : M (option tuple) :=
  match ts with (c, t) :: rest => do_merge_rest c t rest | [] => ret None end.

(** ** swap-first-two-tuple-elements.h

    The parameter is a tuple of its own, made from the argument. *)
Definition swap_first_two_tuple_elements2 (t : tuple) : option (M tuple) :=
  match t with
  | e0 :: e1 :: rest => from_elements (pair Xvalue <$> e1 :: e0 :: rest)
  | _ => None
  end.
Definition do_swap_first_two_tuple_elements (c : category) (t : tuple) : M (option tuple) :=
  match tuple_construct c t with
  | Some m => bind m (λ t', match swap_first_two_tuple_elements2 t' with
                            | Some m' => bind m' (λ r, ret (Some r))
                            | None => ret None
                            end)
  | None => ret None
  end.

(** ** extract-first-tuple-element.h, extract-last-tuple-element.h *)
Definition do_extract_first_tuple_element (c : category) (t : tuple) : option (M (tuple * tuple)) :=
  match t with
  | e :: rest =>
      left ← from_elements [(c, e)]; right ← from_elements (pair c <$> rest);
      Some (bind left (λ l, bind right (λ r, ret (l, r))))
  | [] => None
  end.
Definition do_extract_last_tuple_element (c : category) (t : tuple) : option (M (tuple * tuple)) :=
  match last t with
  | Some e =>
      left ← from_elements [(c, e)]; right ← from_elements (pair c <$> take (length t - 1) t);
      Some (bind left (λ l, bind right (λ r, ret (l, r))))
  | None => None
  end.

(** ** forward-tuple-element.h, tie-tuple.h *)
Definition do_forward_tuple_element (i : nat) (c : category) (t : tuple) : option expr :=
  e ← t !! i;
  Some (match e with
        | LRefTo a => (Lvalue, a)
        | RRefTo a => (Xvalue, a)
        | Value _ => get c e
        end).
Definition tie_type (e : element) : element :=
  match e with LRefTo a => LRefTo a | RRefTo a => RRefTo a | Value a => LRefTo a end.
Definition do_tie_tuple (t : tuple) : tuple := tie_type <$> t.

(** ** for-each-tuple-element.h and its reverse *)
Fixpoint call_each (f : expr → M unit) (xs : list expr) : M unit :=
  match xs with [] => ret tt | x :: xs => bind (f x) (λ _, call_each f xs) end.
Definition do_for_each_tuple_element (f : expr → M unit) (c : category) (t : tuple) : M unit :=
  call_each f (get c <$> t).
Definition do_for_each_tuple_element_reverse (f : expr → M unit) (c : category) (t : tuple) : M unit :=
  call_each f (get c <$> omap (λ i, t !! (length t - i - 1)) (seq 0 (length t))).

(** ** What a tuple shows *)
Inductive shown : Type := SValue (v : option Z) | SRef (k : kind) (a : nat).
Definition show (s : store) (e : element) : shown :=
  match e with
  | Value a => SValue (match s !! a with Some (Alive v) => Some v | _ => None end)
  | LRefTo a => SRef KLRef a
  | RRefTo a => SRef KRRef a
  end.
Definition owned (t : tuple) : list nat := omap (λ e, match e with Value a => Some a | _ => None end) t.
(** The objects that an expression for a tuple gives away. *)
Definition given (l : list (category * element)) : list nat :=
  omap (λ ce, match ce with (Xvalue, Value a) => Some a | _ => None end) l.
Definition kept (l : list (category * element)) : list nat :=
  omap (λ ce, match ce with (Xvalue, Value _) => None | (_, Value a) => Some a | _ => None end) l.
Definition compiles (ce : category * element) : Prop :=
  match ce with (Lvalue, RRefTo _) => False | _ => True end.
Definition readable (s : store) (e : element) : Prop :=
  match e with Value a => ∃ v, s !! a = Some (Alive v) | _ => True end.

Record sources (s : store) (l : list (category * element)) : Prop := Sources {
  src_compile : Forall compiles l;
  src_readable : Forall (readable s) l.*2;
  src_once : NoDup (given l);
  src_apart : ∀ a, a ∈ given l → a ∉ kept l
}.

(** The result of taking these elements: it has their values, in objects of
    its own, and exactly the objects given away were moved from. *)
Record taken (l : list (category * element)) (s : store) (t' : tuple) (s' : store) : Prop := Taken {
  tk_values : show s' <$> t' = show s <$> l.*2;
  tk_readable : Forall (readable s') t';
  tk_store : ∀ a, a < length s → s' !! a = if decide (a ∈ given l) then Some MovedFrom else s !! a;
  tk_length : length s ≤ length s';
  tk_fresh : Forall (λ a, length s ≤ a) (owned t');
  tk_once : NoDup (owned t')
}.

Lemma show_ext s s' e : (∀ a, e = Value a → s' !! a = s !! a) → show s' e = show s e.
Proof. destruct e; simpl; intros H; [|done..]. by rewrite H. Qed.
Lemma readable_ext s s' e : (∀ a, e = Value a → s' !! a = s !! a) → readable s e → readable s' e.
Proof. destruct e; simpl; intros H; [|done..]. by rewrite H. Qed.
Lemma readable_lt s a : readable s (Value a) → a < length s.
Proof. intros [v Hv]. by eapply lookup_lt_Some. Qed.

Lemma elem_of_owned a t : a ∈ owned t ↔ Value a ∈ t.
Proof.
  unfold owned. rewrite list_elem_of_omap. split; [|by exists (Value a)].
  intros (e & He & E). by destruct e; simplify_eq.
Qed.
Lemma elem_of_given a l : a ∈ given l ↔ (Xvalue, Value a) ∈ l.
Proof.
  unfold given. rewrite list_elem_of_omap. split; [|by exists (Xvalue, Value a)].
  intros ([[] []] & He & E); by simplify_eq.
Qed.
Lemma elem_of_values a l : Value a ∈ l.*2 → a ∈ given l ∨ a ∈ kept l.
Proof.
  rewrite list_elem_of_fmap. intros ([c e] & E & He). simpl in E. subst e. rewrite elem_of_given. destruct c; [|by left|].
  all: right; unfold kept; rewrite list_elem_of_omap; by eexists (_, _).
Qed.

Lemma construct_value c a s v :
  s !! a = Some (Alive v) →
  ∃ m s1, construct KValue (c, a) = Some m ∧ m s = Ok (Value (length s)) s1 ∧
          length s1 = S (length s) ∧ s1 !! length s = Some (Alive v) ∧
          ∀ b, b < length s → s1 !! b = if decide (c = Xvalue ∧ b = a) then Some MovedFrom else s !! b.
Proof.
  intros Hv. pose proof (lookup_lt_Some _ _ _ Hv).
  assert (He : ∀ s0 : store, length s0 = length s → (s0 ++ [Alive v]) !! length s = Some (Alive v)).
  { intros s0 Hs. by rewrite <-Hs, list_lookup_middle. }
  destruct (decide (c = Xvalue)) as [->|Hc].
  - eexists _, _. split; [done|]. unfold bind, move_from. rewrite Hv. split; [done|].
    rewrite length_app, length_insert. simpl. split; [lia|]. split; [by apply He; rewrite length_insert|].
    intros b Hb. rewrite lookup_app_l by by rewrite length_insert. rewrite list_lookup_insert.
    repeat case_decide; naive_solver.
  - exists (bind (copy_from a) (λ b, ret (Value b))), (s ++ [Alive v]). split; [by destruct c|].
    unfold bind, copy_from. rewrite Hv. split; [done|]. rewrite length_app. simpl. split; [lia|].
    split; [by apply He|]. intros b Hb. by rewrite lookup_app_l, decide_False by naive_solver.
Qed.

Lemma sources_tail s s1 c a l :
  sources s ((c, Value a) :: l) →
  (∀ b, b < length s → s1 !! b = if decide (c = Xvalue ∧ b = a) then Some MovedFrom else s !! b) →
  (∀ b, Value b ∈ l.*2 → s1 !! b = s !! b) ∧ sources s1 l.
Proof.
  intros [Hc Hr Ho Ha] Hs1. apply Forall_cons in Hc as [_ Hc]. simpl in Hr. apply Forall_cons in Hr as [_ Hr].
  assert (Hsame : ∀ b, Value b ∈ l.*2 → s1 !! b = s !! b).
  { intros b Hb. rewrite Hs1 by (eapply readable_lt; rewrite Forall_forall in Hr; by apply Hr).
    rewrite decide_False; [done|]. intros [-> ->]. simpl in Ho, Ha.
    apply NoDup_cons in Ho as [Hn _]. apply elem_of_values in Hb as [Hb|Hb]; [done|].
    by apply (Ha a); [left|]. }
  split; [done|]. split; [done| | |].
  - rewrite Forall_forall in *. intros e He. eapply readable_ext; [|by apply Hr]. intros b ->. by apply Hsame.
  - destruct c; simpl in Ho; [done|by apply NoDup_cons in Ho as [_ Ho]|done].
  - intros b Hg Hk. apply (Ha b); destruct c; simpl; rewrite ?elem_of_cons; auto.
Qed.

Lemma from_elements_cons c e l :
  from_elements ((c, e) :: l) =
  (m ← construct (kind_of e) (get c e); ms ← from_elements l; Some (bind m (λ e, bind ms (λ t, ret (e :: t))))).
Proof. done. Qed.

Lemma reference_taken c e l s :
  kind_of e ≠ KValue →
  (∀ s, sources s l → ∃ m t' s', from_elements l = Some m ∧ m s = Ok t' s' ∧ taken l s t' s') →
  sources s ((c, e) :: l) →
  ∃ m t' s', from_elements ((c, e) :: l) = Some m ∧ m s = Ok t' s' ∧ taken ((c, e) :: l) s t' s'.
Proof.
  intros He IH [Hc Hr Ho Ha]. simpl in Hr. apply Forall_cons in Hc as [Hce Hc]. apply Forall_cons in Hr as [Hre Hr].
  assert (Hg : given ((c, e) :: l) = given l) by (by destruct c, e).
  assert (Hk : kept ((c, e) :: l) = kept l) by (by destruct c, e).
  rewrite Hg in Ho. rewrite Hg, Hk in Ha.
  destruct (IH s) as (m & t' & s' & E & R & [V Rd St Le Fr On]); [by split|].
  exists (bind (ret e) (λ e, bind m (λ t, ret (e :: t)))), (e :: t'), s'.
  assert (construct (kind_of e) (get c e) = Some (ret e)) as Hcon by (by destruct c, e).
  split_and!; [by rewrite from_elements_cons, Hcon, E|by unfold bind, ret; rewrite R|].
  assert (show s' e = show s e) as Hshow by (by destruct e).
  assert (readable s' e) by (by destruct e). assert (owned (e :: t') = owned t') as Hown by (by destruct e).
  split; rewrite ?Hg, ?Hown; try done; [by rewrite !fmap_cons, Hshow, V|by constructor].
Qed.

Lemma from_elements_run l s :
  sources s l → ∃ m t' s', from_elements l = Some m ∧ m s = Ok t' s' ∧ taken l s t' s'.
Proof.
  revert s. induction l as [|[c e] l IH]; intros s Hs.
  { exists (ret []), [], s. split_and!; [done..|]. split; try done. constructor. }
  destruct e as [a|a|a].
  - assert (∃ v, s !! a = Some (Alive v)) as [v Hv] by (destruct Hs as [_ Hr _ _]; by inversion Hr).
    destruct (construct_value c a s v Hv) as (m1 & s1 & E1 & R1 & Hl1 & Hn1 & Hs1).
    destruct (sources_tail s s1 c a l Hs Hs1) as [Hsame Hs'].
    destruct (IH s1 Hs') as (m & t' & s' & E & R & [V Rd St Le Fr On]).
    exists (bind m1 (λ e, bind m (λ t, ret (e :: t)))), (Value (length s) :: t'), s'.
    split_and!; [by rewrite from_elements_cons; simpl kind_of; simpl get; rewrite E1, E|by unfold bind; rewrite R1, R|].
    assert (Hgl : ∀ b, b ∈ given l → b < length s).
    { intros b Hb. rewrite elem_of_given in Hb. destruct Hs as [_ Hr _ _]. apply Forall_cons in Hr as [_ Hr].
      eapply readable_lt. rewrite Forall_forall in Hr. apply Hr. by apply (list_elem_of_fmap_2 snd) in Hb. }
    assert (Hnew : s' !! length s = Some (Alive v)).
    { rewrite St by lia. rewrite decide_False; [done|]. intros Hb%Hgl. lia. }
    split.
    + rewrite !fmap_cons, V. simpl. rewrite Hnew, Hv. f_equal. apply list_fmap_ext. intros i e He. apply show_ext. intros b ->.
      apply Hsame. by eapply list_elem_of_lookup_2.
    + constructor; [by exists v|done].
    + intros b Hb. rewrite St by lia. rewrite Hs1 by done.
      destruct c; simpl; repeat case_decide; try done; rewrite ?elem_of_cons in *; naive_solver.
    + lia.
    + constructor; [done|]. eapply Forall_impl; [exact Fr|]. simpl. lia.
    + constructor; [|done]. intros Hb. rewrite Forall_forall in Fr. specialize (Fr _ Hb). lia.
  - by apply reference_taken.
  - by apply reference_taken.
Qed.

(** ** Steps after one another *)
Lemma given_app l k : given (l ++ k) = given l ++ given k.
Proof. apply omap_app. Qed.
Lemma kept_app l k : kept (l ++ k) = kept l ++ kept k.
Proof. apply omap_app. Qed.
Lemma given_xvalue t : given (pair Xvalue <$> t) = owned t.
Proof. induction t as [|[a|a|a] t IH]; [done|by apply (f_equal (cons a)) in IH|exact IH..]. Qed.
Lemma kept_xvalue t : kept (pair Xvalue <$> t) = [].
Proof. by induction t as [|[] t IH]. Qed.
Lemma snd_pair (c : category) (t : tuple) : (pair c <$> t).*2 = t.
Proof. rewrite <-list_fmap_compose. apply list_fmap_id. Qed.

Lemma given_perm l l' : l ≡ₚ l' → given l ≡ₚ given l'.
Proof. intros Hp. unfold given. by rewrite Hp. Qed.
Lemma sources_perm s l l' : l ≡ₚ l' → sources s l → sources s l'.
Proof.
  intros Hp [Hc Hr Ho Ha].
  pose proof (given_perm _ _ Hp) as Hg.
  assert (kept l ≡ₚ kept l') as Hk by (unfold kept; by rewrite Hp).
  split; rewrite <-?Hp, <-?Hg, <-?Hk; try done. intros a. rewrite <-Hg, <-Hk. apply Ha.
Qed.
Lemma sources_app s l k : sources s (l ++ k) → sources s l ∧ sources s k.
Proof.
  intros [Hc Hr Ho Ha]. rewrite fmap_app, given_app in *. rewrite kept_app in Ha.
  apply Forall_app in Hc as [? ?]. apply Forall_app in Hr as [? ?]. apply NoDup_app in Ho as (? & ? & ?).
  split; split; try done; intros a Hg Hk; apply (Ha a); rewrite elem_of_app; auto.
Qed.
Lemma sources_given s l a : sources s l → a ∈ given l → a < length s.
Proof.
  intros [_ Hr _ _] Ha. rewrite elem_of_given in Ha. eapply readable_lt.
  rewrite Forall_forall in Hr. apply Hr. by apply (list_elem_of_fmap_2 snd) in Ha.
Qed.

(** What is still to be taken is as it was. *)
Lemma sources_after s l k t' s' :
  sources s (l ++ k) → taken l s t' s' → (∀ a, Value a ∈ k.*2 → a < length s ∧ s' !! a = s !! a) ∧ sources s' k.
Proof.
  intros Hs [V Rd St Le Fr On]. pose proof (sources_app _ _ _ Hs) as [_ Hk].
  assert (Hsame : ∀ a, Value a ∈ k.*2 → a < length s ∧ s' !! a = s !! a).
  { intros a Hak. destruct Hk as [_ Hr _ _]. rewrite Forall_forall in Hr.
    pose proof (readable_lt _ _ (Hr _ Hak)). split; [done|]. rewrite St by done. rewrite decide_False; [done|].
    intros Hg. destruct Hs as [_ _ Ho Ha]. rewrite given_app in *. rewrite kept_app in Ha.
    apply elem_of_values in Hak as [Hak|Hak].
    - apply NoDup_app in Ho as (_ & Ho & _). by eapply Ho.
    - apply (Ha a); rewrite elem_of_app; auto. }
  split; [done|]. destruct Hk as [Hc Hr Ho Ha]. split; [done| |done..].
  rewrite Forall_forall in *. intros e He. eapply readable_ext; [|by apply Hr]. intros a ->. by apply Hsame.
Qed.
Lemma show_after s l k t' s' :
  sources s (l ++ k) → taken l s t' s' → show s' <$> k.*2 = show s <$> k.*2.
Proof.
  intros Hs Ht. apply list_fmap_ext. intros i e He. apply show_ext. intros a ->.
  eapply sources_after; [done..|]. by eapply list_elem_of_lookup_2.
Qed.

(** Taking two groups of elements, one after the other. *)
Lemma taken_app s l k t1 s1 t2 s2 :
  sources s (l ++ k) → taken l s t1 s1 → taken k s1 t2 s2 → taken (l ++ k) s (t1 ++ t2) s2.
Proof.
  intros Hs H1 H2. pose proof (sources_after _ _ _ _ _ Hs H1) as [Hsame Hk].
  pose proof (show_after _ _ _ _ _ Hs H1) as Hshow. pose proof (sources_app _ _ _ Hs) as [_ Hk0].
  destruct H1 as [V1 Rd1 St1 Le1 Fr1 On1], H2 as [V2 Rd2 St2 Le2 Fr2 On2].
  assert (Hkeep : ∀ a, Value a ∈ t1 → s2 !! a = s1 !! a).
  { intros a Ha. pose proof Ha as Hr. rewrite Forall_forall in Rd1. apply Rd1, readable_lt in Hr.
    rewrite St2 by done. rewrite decide_False; [done|]. intros Hg%(sources_given _ _ _ Hk0).
    rewrite <-elem_of_owned in Ha. rewrite Forall_forall in Fr1. specialize (Fr1 _ Ha). lia. }
  split.
  - rewrite !fmap_app. rewrite V2, Hshow, <-V1. f_equal. apply list_fmap_ext. intros i e He. apply show_ext.
    intros a ->. apply Hkeep. by eapply list_elem_of_lookup_2.
  - apply Forall_app. split; [|done]. rewrite Forall_forall in *. intros e He.
    eapply readable_ext; [|by apply Rd1]. intros a ->. by apply Hkeep.
  - intros a Ha. rewrite St2 by lia. rewrite St1 by done. rewrite given_app.
    repeat case_decide; rewrite ?elem_of_app in *; naive_solver.
  - lia.
  - unfold owned. rewrite omap_app. apply Forall_app. split; [done|]. eapply Forall_impl; [exact Fr2|]. simpl. lia.
  - unfold owned. rewrite omap_app. apply NoDup_app. split_and!; [done| |done]. intros a Ha1 Ha2.
    rewrite Forall_forall in Fr2. specialize (Fr2 _ Ha2). apply elem_of_owned in Ha1.
    rewrite Forall_forall in Rd1. apply Rd1, readable_lt in Ha1. lia.
Qed.

(** A tuple that was made can be given away whole, in any order, with what is left. *)
Lemma sources_again s l k t' s' t :
  sources s (l ++ k) → taken l s t' s' → t ≡ₚ t' → sources s' ((pair Xvalue <$> t) ++ k).
Proof.
  intros Hs Ht Hp. pose proof (sources_after _ _ _ _ _ Hs Ht) as [Hsame [Hc Hr Ho Ha]].
  pose proof (sources_app _ _ _ Hs) as [_ Hk0].
  destruct Ht as [V Rd St Le Fr On]. assert (owned t ≡ₚ owned t') as How by (unfold owned; by rewrite Hp).
  split.
  - apply Forall_app. split; [|done]. apply Forall_fmap, Forall_forall. by intros [] _.
  - rewrite fmap_app, snd_pair. apply Forall_app. by rewrite Hp.
  - rewrite given_app, given_xvalue. apply NoDup_app. rewrite How. split_and!; [done| |done].
    intros a Ho' Hg%(sources_given _ _ _ Hk0). rewrite How in Ho'. rewrite Forall_forall in Fr. specialize (Fr _ Ho'). lia.
  - intros a. rewrite given_app, given_xvalue, kept_app, kept_xvalue, elem_of_app. simpl. intros [Hg|Hg] Hkk; [|by eapply Ha].
    rewrite How in Hg. rewrite Forall_forall in Fr. specialize (Fr _ Hg).
    assert (Value a ∈ k.*2) as Hv.
    { unfold kept in Hkk. apply list_elem_of_omap in Hkk as ([c e] & Hin & E).
      assert (e = Value a) as -> by (destruct c, e; by simplify_eq). by apply (list_elem_of_fmap_2 snd) in Hin. }
    destruct (Hsame a Hv). lia.
Qed.
Lemma taken_again s l k t' s' t t'' s'' :
  sources s (l ++ k) → taken l s t' s' → t ≡ₚ t' → taken ((pair Xvalue <$> t) ++ k) s' t'' s'' →
  show s'' <$> t'' = (show s' <$> t) ++ (show s <$> k.*2) ∧ Forall (readable s'') t'' ∧
  (∀ a, a < length s → s'' !! a = if decide (a ∈ given (l ++ k)) then Some MovedFrom else s !! a) ∧
  length s ≤ length s'' ∧ Forall (λ a, length s ≤ a) (owned t'') ∧ NoDup (owned t'').
Proof.
  intros Hs Ht Hp [V'' Rd'' St'' Le'' Fr'' On'']. pose proof (show_after _ _ _ _ _ Hs Ht) as Hshow.
  destruct Ht as [V Rd St Le Fr On]. assert (owned t ≡ₚ owned t') as How by (unfold owned; by rewrite Hp).
  split_and!; [|done| |lia| |done].
  - by rewrite V'', fmap_app, snd_pair, fmap_app, Hshow.
  - intros a Ha. rewrite St'' by lia. rewrite St by done. rewrite !given_app, given_xvalue.
    assert (a ∉ owned t) by (rewrite How; intros Ho; rewrite Forall_forall in Fr; specialize (Fr _ Ho); lia).
    repeat case_decide; rewrite ?elem_of_app in *; naive_solver.
  - eapply Forall_impl; [exact Fr''|]. simpl. lia.
Qed.

Lemma from_two_run s l k :
  sources s (l ++ k) →
  ∃ m1 m2 t1 t2 s', from_elements l = Some m1 ∧ from_elements k = Some m2 ∧
    bind m1 (λ l, bind m2 (λ r, ret (l, r))) s = Ok (t1, t2) s' ∧ length t1 = length l ∧
    taken (l ++ k) s (t1 ++ t2) s'.
Proof.
  intros Hs. destruct (from_elements_run l s) as (m1 & t1 & s1 & E1 & R1 & H1); [by destruct (sources_app _ _ _ Hs)|].
  destruct (from_elements_run k s1) as (m2 & t2 & s2 & E2 & R2 & H2); [by destruct (sources_after _ _ _ _ _ Hs H1)|].
  exists m1, m2, t1, t2, s2. split_and!; [done..| | |].
  - unfold bind. by rewrite R1, R2.
  - pose proof (f_equal length (tk_values _ _ _ _ H1)) as Hl. by rewrite !length_fmap in Hl.
  - by eapply taken_app.
Qed.

(** ** The operations *)
Definition elements_of (ts : list (category * tuple)) : list (category * element) :=
  ts ≫= λ ct, pair ct.1 <$> ct.2.

Lemma do_merge_rest_run c t rest s :
  sources s ((pair c <$> t) ++ elements_of rest) →
  ∃ t' s', do_merge_rest c t rest s = Ok (Some t') s' ∧ taken ((pair c <$> t) ++ elements_of rest) s t' s'.
Proof.
  revert c t s. induction rest as [|[c2 second] rest IH]; intros c t s Hs.
  - unfold elements_of in *. simpl in *. rewrite app_nil_r in *.
    destruct (from_elements_run _ _ Hs) as (m & t' & s' & E & R & Ht). exists t', s'. split; [|done].
    unfold tuple_construct, bind. by rewrite E, R.
  - change (elements_of ((c2, second) :: rest)) with ((pair c2 <$> second) ++ elements_of rest) in *.
    rewrite app_assoc in *. destruct (sources_app _ _ _ Hs) as [Hl _].
    destruct (from_elements_run _ _ Hl) as (m & t1 & s1 & E & R & Ht).
    destruct (IH Xvalue t1 s1) as (t' & s' & R' & Ht'); [by eapply sources_again|].
    exists t', s'. split; [simpl; unfold merge_two_tuples, bind; by rewrite E, R|].
    destruct (taken_again _ _ _ _ _ _ _ _ Hs Ht (reflexivity _) Ht') as (V & ? & ? & ? & ? & ?).
    split; try done. rewrite V, fmap_app, fmap_app. f_equal. apply Ht.
Qed.

Lemma do_swap_run c e0 e1 rest s :
  sources s (pair c <$> e0 :: e1 :: rest) →
  ∃ t' s', do_swap_first_two_tuple_elements c (e0 :: e1 :: rest) s = Ok (Some t') s' ∧
           taken (pair c <$> e1 :: e0 :: rest) s t' s'.
Proof.
  intros Hs. destruct (from_elements_run _ _ Hs) as (m & t1 & s1 & E & R & Ht).
  pose proof (tk_values _ _ _ _ Ht) as V. rewrite snd_pair in V.
  destruct t1 as [|f0 [|f1 t1]]; [done..|]. rewrite !fmap_cons in V.
  assert (Hp : f1 :: f0 :: t1 ≡ₚ f0 :: f1 :: t1) by constructor.
  rewrite <-(app_nil_r (pair c <$> _)) in Hs.
  pose proof (sources_again _ _ _ _ _ _ Hs Ht Hp) as Hs1. rewrite app_nil_r in Hs1.
  destruct (from_elements_run _ _ Hs1) as (m' & t' & s' & E' & R' & Ht'). exists t', s'.
  split; [unfold do_swap_first_two_tuple_elements, tuple_construct, bind, swap_first_two_tuple_elements2; by rewrite E, R, E', R'|].
  rewrite <-(app_nil_r (pair Xvalue <$> _)) in Ht'.
  destruct (taken_again _ _ _ _ _ _ _ _ Hs Ht Hp Ht') as (V' & ? & St & ? & ? & ?).
  split; try done.
  - rewrite V', snd_pair. change (show s <$> ([] : list (category * element)).*2) with (@nil shown).
    rewrite app_nil_r, !fmap_cons. by injection V as -> -> ->.
  - intros a Ha. rewrite St by done. rewrite app_nil_r.
    assert (given (pair c <$> e0 :: e1 :: rest) ≡ₚ given (pair c <$> e1 :: e0 :: rest)) as Hg
      by apply given_perm, perm_swap.
    apply decide_ext. by rewrite Hg.
Qed.

Lemma do_extract_first_run c e rest s :
  sources s (pair c <$> e :: rest) →
  ∃ m l r s', do_extract_first_tuple_element c (e :: rest) = Some m ∧ m s = Ok (l, r) s' ∧
              length l = 1 ∧ taken (pair c <$> e :: rest) s (l ++ r) s'.
Proof.
  intros Hs. change (pair c <$> e :: rest) with ([(c, e)] ++ (pair c <$> rest)) in *.
  destruct (from_two_run _ _ _ Hs) as (m1 & m2 & l & r & s' & E1 & E2 & R & Hl & Ht).
  exists (bind m1 (λ l, bind m2 (λ r, ret (l, r)))), l, r, s'. split_and!; [|done..].
  simpl. by rewrite E1, E2.
Qed.
Lemma do_extract_last_run c e rest s :
  sources s (pair c <$> rest ++ [e]) →
  ∃ m l r s', do_extract_last_tuple_element c (rest ++ [e]) = Some m ∧ m s = Ok (l, r) s' ∧
              length l = 1 ∧ taken (pair c <$> e :: rest) s (l ++ r) s'.
Proof.
  intros Hs. assert (Hp : pair c <$> rest ++ [e] ≡ₚ [(c, e)] ++ (pair c <$> rest)).
  { rewrite fmap_app. simpl. by rewrite Permutation_app_comm. }
  apply (sources_perm _ _ _ Hp) in Hs.
  destruct (from_two_run _ _ _ Hs) as (m1 & m2 & l & r & s' & E1 & E2 & R & Hl & Ht).
  exists (bind m1 (λ l, bind m2 (λ r, ret (l, r)))), l, r, s'. split_and!; [|done..].
  unfold do_extract_last_tuple_element. rewrite last_snoc, length_app, Nat.add_sub, take_app_length. by rewrite E1, E2.
Qed.

(** Merging, swapping and splitting tuples whose elements can be read and are
    given away once: the values arrive in the specified order, exactly the
    objects given away were moved from, and no value is read afterwards. *)
Theorem tuples_rebuilt s :
  (∀ ts, ts ≠ [] → sources s (elements_of ts) →
     ∃ t' s', do_merge_tuples ts s = Ok (Some t') s' ∧ taken (elements_of ts) s t' s') ∧
  (∀ c e0 e1 rest, sources s (pair c <$> e0 :: e1 :: rest) →
     ∃ t' s', do_swap_first_two_tuple_elements c (e0 :: e1 :: rest) s = Ok (Some t') s' ∧
              taken (pair c <$> e1 :: e0 :: rest) s t' s') ∧
  (∀ c e rest, sources s (pair c <$> e :: rest) →
     ∃ m l r s', do_extract_first_tuple_element c (e :: rest) = Some m ∧ m s = Ok (l, r) s' ∧
                 length l = 1 ∧ taken (pair c <$> e :: rest) s (l ++ r) s') ∧
  (∀ c e rest, sources s (pair c <$> rest ++ [e]) →
     ∃ m l r s', do_extract_last_tuple_element c (rest ++ [e]) = Some m ∧ m s = Ok (l, r) s' ∧
                 length l = 1 ∧ taken (pair c <$> e :: rest) s (l ++ r) s').
Proof.
  split_and!; [|intros; by apply do_swap_run|intros; by apply do_extract_first_run|intros; by apply do_extract_last_run].
  intros [|[c t] rest] Hn Hs; [done|]. by apply do_merge_rest_run.
Qed.

(** An lvalue tuple is copied, an rvalue tuple is moved from. *)
Example merge_example :
  do_merge_tuples [(Lvalue, [Value 0; LRefTo 1]); (Xvalue, [Value 2])] [Alive 10; Alive 11; Alive 12] =
  Ok (Some [Value 5; LRefTo 1; Value 6])
     [Alive 10; Alive 11; MovedFrom; MovedFrom; MovedFrom; Alive 10; Alive 12].
Proof. done. Qed.

(** [forward_tuple_element] of a tied tuple names the elements themselves. *)
Lemma forward_tied i c t e :
  t !! i = Some e →
  do_forward_tuple_element i c (do_tie_tuple t) =
  Some (match e with Value a | LRefTo a => (Lvalue, a) | RRefTo a => (Xvalue, a) end).
Proof. intros He. unfold do_forward_tuple_element, do_tie_tuple. rewrite list_lookup_fmap, He. by destruct e. Qed.

(** The reverse visits the elements of the reversed tuple. *)
Lemma for_each_reverse f c t :
  do_for_each_tuple_element_reverse f c t = do_for_each_tuple_element f c (reverse t).
Proof.
  unfold do_for_each_tuple_element_reverse, do_for_each_tuple_element. do 2 f_equal.
  assert (H : ∀ n, n ≤ length t → omap (λ i, t !! (length t - i - 1)) (seq (length t - n) n) = reverse (take n t)).
  { induction n as [|n IH]; intros Hn; [done|]. destruct (lookup_lt_is_Some_2 t n) as [e He]; [lia|].
    rewrite (take_S_r _ _ e), reverse_snoc by done. simpl seq.
    replace (S (length t - S n)) with (length t - n) by lia. rewrite <-IH by lia. simpl.
    by replace (length t - (length t - S n) - 1) with n by lia; rewrite He. }
  specialize (H (length t) ltac:(lia)). by rewrite Nat.sub_diag, firstn_all in H.
Qed.
