(* ===== verification/Wrappers.v ===== *)
(** * Small utilities

    CL [utils/type-wrapper.h], [utils/type-qualifiers-cast.h],
    [utils/internal/do-on-destruct] and
    [memory/enable-shared-from-this-manual-set.h]. *)
From S2P Require Import Prelude CppTypes TupleUtils.
Import Std TypeTransform.
Local Open Scope nat_scope.

(** ** type_wrapper

    A wrapper of a value has its own object, one of a reference refers to another;
    [None] is the wrapper of [void].  Objects and expressions are those of
    [TupleUtils]. *)
Module TypeWrapper.
Record type_wrapper : Type := mk { type : ty; m_val : option element }.

(** What an initialization or assignment of an object of type [T] does: objects
    that are const are copied from. *)
Definition moves (T : ty) (c : category) : bool :=
  match c with Xvalue => negb (TypeTraits.is_const T) | _ => false end.

(** The constructors from a value; a reference binds to an expression of its
    category, and one to const to any lvalue. *)
Definition bind_reference (T : ty) (x : expr) : option element :=
  match T, x.1 with
  | LRef _, Lvalue => Some (LRefTo x.2)
  | LRef u, _ => if CppTypes.is_const u then Some (LRefTo x.2) else None
  | RRef _, Xvalue => Some (RRefTo x.2)
  | RRef u, ConstXvalue => if CppTypes.is_const u then Some (RRefTo x.2) else None
  | _, _ => None
  end.
Definition construct (T : ty) (x : expr) : option (M type_wrapper) :=
  if is_void T then None
  else if is_reference T then (λ e, ret (mk T (Some e))) <$> bind_reference T x
  else Some (bind (if moves T x.1 then move_from x.2 else copy_from x.2) (λ b, ret (mk T (Some (Value b))))).
Definition construct_void : type_wrapper := mk Void None.

(** The copy and the move constructor; a member that is an rvalue reference has
    no copy. *)
Definition copy_construct (w : type_wrapper) : option (M type_wrapper) :=
  match m_val w with
  | None => Some (ret w)
  | Some (RRefTo _) => None
  | Some (LRefTo a) => Some (ret w)
  | Some (Value a) => construct (type w) (Lvalue, a)
  end.
Definition move_construct (w : type_wrapper) : option (M type_wrapper) :=
  match m_val w with
  | None | Some (LRefTo _) | Some (RRefTo _) => Some (ret w)
  | Some (Value a) => construct (type w) (Xvalue, a)
  end.

(** [operator=] for an argument of type [U], where it takes part in overload
    resolution. *)
Definition assignable (T U : ty) : bool :=
  negb (is_void T) && negb (TypeTraits.is_const T) && is_same (remove_type_qualifiers U) (remove_type_qualifiers T).
Definition address (e : element) : nat := match e with Value a | LRefTo a | RRefTo a => a end.
Definition assign_object (c : category) (from to : nat) : M unit := λ s,
  match s !! from, s !! to with
  | Some (Alive v), Some _ =>
      let s := match c with Xvalue => <[from := MovedFrom]> s | _ => s end in Ok tt (<[to := Alive v]> s)
  | _, _ => UB
  end.
Definition assign (w : type_wrapper) (U : ty) (val : expr) : option (M unit) :=
  if assignable (type w) U then
    (λ e, if decide (val.2 ≠ address e) then assign_object val.1 val.2 (address e) else ret tt) <$> m_val w
  else None.

(** [to_underlying] and the conversions; [c]: the wrapper is const. *)
Definition to_underlying (c : bool) (w : type_wrapper) : option expr :=
  match m_val w with
  | None => None
  | Some (Value a) | Some (LRefTo a) => Some (Lvalue, a)
  | Some (RRefTo a) => Some (if c || TypeTraits.is_const (type w) then ConstXvalue else Xvalue, a)
  end.
End TypeWrapper.
Import TypeWrapper.

(** The object of a wrapper is read and written through it. *)
Lemma wrapper_assign w U c a e v s :
  assignable (type w) U = true → m_val w = Some e → s !! a = Some (Alive v) → is_Some (s !! address e) →
  ∃ m s', assign w U (c, a) = Some m ∧ m s = Ok tt s' ∧ s' !! address e = Some (Alive v) ∧
          (a = address e → s' = s) ∧
          (a ≠ address e → s' !! a = Some (if decide (c = Xvalue) then MovedFrom else Alive v)) ∧
          ∀ b, b ≠ a → b ≠ address e → s' !! b = s !! b.
Proof.
  intros Hu He Ha [o Ho]. unfold assign. rewrite Hu, He. simpl. case_decide as Hd.
  - eexists _, _. split; [done|]. split; [unfold assign_object; by rewrite Ha, Ho|].
    assert (address e < length s) as Hl by by eapply lookup_lt_Some. assert (a < length s) as Hl' by by eapply lookup_lt_Some.
    split_and!; [|done|..].
    + destruct c; rewrite list_lookup_insert_eq; rewrite ?length_insert; done.
    + intros _. destruct c; rewrite list_lookup_insert_ne by done; [done|by rewrite list_lookup_insert_eq|done].
    + intros b H1 H2. destruct c; by rewrite ?list_lookup_insert_ne by done.
  - eexists _, _. split; [done|]. split; [done|]. rewrite <- Hd. by split_and!.
Qed.

(** A wrapper of a value has an object that no one else has; a wrapper of a
    reference has that of its argument. *)
Lemma wrapper_construct T x s m :
  construct T x = Some m →
  match m s with
  | Ok w s' => ∃ e, m_val w = Some e ∧ type w = T ∧
      if is_reference T then address e = x.2 ∧ s' = s
      else address e = length s ∧ (moves T x.1 = false → ∀ b, b < length s → s' !! b = s !! b)
  | _ => True
  end.
Proof.
  unfold construct. destruct (is_void T); [done|]. destruct (is_reference T) eqn:Er.
  - intros (e & He & ->)%fmap_Some. simpl. exists e. split_and!; [done..| |done].
    destruct x as [c a], T; simpl in He; destruct c; try case_match; by simplify_eq.
  - intros [= <-]. unfold bind. destruct (moves T x.1).
    + unfold move_from. destruct (s !! x.2) as [[v|]|]; try done. exists (Value (length s)). by split_and!.
    + unfold copy_from. destruct (s !! x.2) as [[v|]|]; try done. exists (Value (length s)). split_and!; [done..|].
      intros _ b Hb. by rewrite lookup_app_l.
Qed.

(** ** type_qualifiers_cast

    The argument is an lvalue in the cast; a prvalue of a value type is a copy. *)
Module TypeQualifiersCast.
Definition type_qualifiers_cast (To From : ty) (a : nat) : option (M expr) :=
  if is_same (remove_type_qualifiers To) (remove_type_qualifiers From) then
    match To with
    | LRef _ => if negb (TypeTraits.is_const From) || TypeTraits.is_const To then Some (ret (Lvalue, a)) else None
    | RRef _ =>
        if negb (TypeTraits.is_const From) || TypeTraits.is_const To
        then Some (ret (if TypeTraits.is_const To then ConstXvalue else Xvalue, a)) else None
    | _ => Some (bind (copy_from a) (λ b, ret (Xvalue, b)))
    end
  else None.
End TypeQualifiersCast.
Import TypeQualifiersCast.

(** The casts never drop a const, and casts of references name the same object. *)
Lemma cast_same_object To From a m s :
  is_reference To = true → type_qualifiers_cast To From a = Some m →
  ∃ c, m s = Ok (c, a) s ∧ (TypeTraits.is_const From = true → TypeTraits.is_const To = true).
Proof.
  intros Hr. unfold type_qualifiers_cast. destruct (is_same _ _); [|done].
  destruct (TypeTraits.is_const From), (TypeTraits.is_const To); destruct To; try done; simpl; intros [= <-]; by eexists.
Qed.

(** ** do_on_destruct *)
Module DoOnDestruct.
Section do_on_destruct.
Context {S : Type} (call_operator : nat → option (nat * fquals * ty * list ty)).

(** The static assertions on the type of the function. *)
Definition is_valid (F : ty) : bool :=
  bool_decide (FunctionTraits.function_ret call_operator F = Some Void) &&
  bool_decide (FunctionTraits.function_arg_count call_operator F = Some 0).

(** The store is that of the program with [m_is_released]. *)
Definition release : prog (S * bool) unit := λ s, Ok tt (s.1, true).
Definition destruct (func : prog S unit) (s : S * bool) : outcome S unit :=
  if negb s.2 then
    match func s.1 with
    | Throw _ s' => Ok tt s'
    | r => r
    end
  else Ok tt s.1.

(** A block whose first declaration is the object. *)
Definition block {A} (func : prog S unit) (body : prog (S * bool) A) : prog S A := λ s,
  match body (s, false) with
  | Ok a s1 => match destruct func s1 with Ok _ s2 => Ok a s2 | Throw e s2 => Throw e s2 | UB => UB end
  | Throw e s1 => match destruct func s1 with Ok _ s2 => Throw e s2 | Throw _ _ | UB => UB end
  | UB => UB
  end.
End do_on_destruct.
End DoOnDestruct.
Import DoOnDestruct.

(** The function runs at the end of the block, however it is left, unless it was
    released, and the block ends as its body did: the destructor never throws. *)
Lemma block_runs {S A} (func : prog S unit) (body : prog (S * bool) A) s :
  func (match body (s, false) with Ok _ s1 | Throw _ s1 => s1.1 | UB => s end) ≠ UB →
  block func body s =
  match body (s, false) with
  | Ok a s1 => Ok a (if s1.2 then s1.1 else match func s1.1 with Ok _ s2 | Throw _ s2 => s2 | UB => s1.1 end)
  | Throw e s1 => Throw e (if s1.2 then s1.1 else match func s1.1 with Ok _ s2 | Throw _ s2 => s2 | UB => s1.1 end)
  | UB => UB
  end.
Proof.
  unfold block, DoOnDestruct.destruct. destruct (body (s, false)) as [a [s1 r]|e [s1 r]|]; simpl; [..|done];
    destruct r; simpl; try done; by destruct (func s1).
Qed.

(** ** enable_shared_from_this_manual_set

    Objects with the number of shared pointers to them; [None] is an empty weak
    pointer. *)
Module EnableSharedFromThis.
Record enable_shared_from_this_manual_set : Type := mk { m_ptr : option nat }.
Abbreviation counts := (gmap nat nat).

Definition create : enable_shared_from_this_manual_set := mk None.
Definition set_self_shared_ptr (ptr : nat) (o : enable_shared_from_this_manual_set) : enable_shared_from_this_manual_set :=
  mk (Some ptr).
(** The copy has no pointer, and assignment keeps the pointer there is. *)
Definition copy_construct (other : enable_shared_from_this_manual_set) : enable_shared_from_this_manual_set := create.
Definition assign (this other : enable_shared_from_this_manual_set) : enable_shared_from_this_manual_set := this.
Definition weak_from_this (o : enable_shared_from_this_manual_set) : option nat := m_ptr o.
Definition shared_from_this (o : enable_shared_from_this_manual_set) : prog counts nat := λ s,
  match m_ptr o with
  | Some p => match s !! p with Some (S n) => Ok p (<[p := S (S n)]> s) | _ => Throw bad_weak_ptr s end
  | None => Throw bad_weak_ptr s
  end.
End EnableSharedFromThis.
Import EnableSharedFromThis.

(** Only the object that was set gives pointers to itself, while there are any. *)
Lemma shared_from_this_self o other p n (s : counts) :
  s !! p = Some (S n) →
  shared_from_this (EnableSharedFromThis.assign (set_self_shared_ptr p o) other) s = Ok p (<[p := S (S n)]> s) ∧
  shared_from_this (EnableSharedFromThis.copy_construct (set_self_shared_ptr p o)) s = Throw bad_weak_ptr s.
Proof. intros Hp. unfold shared_from_this. simpl. by rewrite Hp. Qed.
