(* ===== verification/Pipe.v ===== *)
(** * What a connection relies on: pipes

    The interface [ipipe_endpoint] as a class: the operations of the two
    endpoints of a pipe, what they have completed, and what the pipe does on its
    own.  Its laws say that messages arrive in order, at most once, and that
    every read is completed at most once; a stronger class is for pipes that lose
    nothing as long as they are connected and no write fails. *)
From S2P Require Import Prelude RpcTypes.
Local Open Scope Z_scope.

Abbreviation message := (list Z).
(** Messages that a header of four bytes can announce. *)
Definition message_ok (m : message) : Prop := 0 < Z.of_nat (length m) < 2 ^ 32.

(** ** The operations

    An endpoint is named by its side: [true] is the server's.  Futures are
    numbers; [read_results] and [write_results] list the completed ones, oldest
    first.  [internal] is a step of strands, timers or sockets. *)
Class Pipe (P : Type) : Type := {
  pipe_create : P;
  is_connected : bool → P → bool;
  write_async : bool → message → option Z → P → P;
  read_async : bool → option Z → P → P;
  invalidate : bool → P → P;
  next_write : bool → P → nat;
  next_read : bool → P → nat;
  write_results : bool → P → list (nat * PipeOpRes.pipe_op_res);
  read_results : bool → P → list (nat * PipeOpRes.pipe_op_res * message);
  internal : P → P → Prop;
  (** Reads that wait, and messages of a side that are on their way. *)
  reading : bool → P → list nat;
  flight : bool → P → list message
}.

(** [only s x]: [x] for the side [s], nothing for the other. *)
Definition only {A} (s : bool) (x : list A) : bool → list A := λ s', if decide (s' = s) then x else [].
Definition nothing {A} : bool → list A := λ _, [].

Lemma only_same {A} s (x : list A) : only s x s = x.
Proof. unfold only. by case_decide. Qed.
Lemma only_other {A} s s' (x : list A) : s' ≠ s → only s x s' = [].
Proof. unfold only. by case_decide. Qed.
Lemma only_nil {A} s s' : only s [] s' = nothing s' :> list A.
Proof. unfold only. by case_decide. Qed.

Section pipe.
Context {P : Type} `{Pipe P}.

Definition received_message (x : nat * PipeOpRes.pipe_op_res * message) : option message :=
  let '(_, r, m) := x in if PipeOpRes.is_success r then Some m else None.
(** What the reads of a side were given. *)
Definition delivered (s : bool) (p : P) : list message := omap received_message (read_results s p).
(** Messages of the side [s] that reached the other one, and those that may. *)
Definition flow (s : bool) (p : P) : list message := delivered (negb s) p ++ flight s p.
Definition read_numbers (s : bool) (p : P) : list nat := (read_results s p).*1.*1 ++ reading s p.

(** A step in which messages were written and reads were asked for: nothing is
    made up, duplicated or reordered, and a disconnected endpoint stays so. *)
Record evolves (p p' : P) (written : bool → list message) (asked : bool → list nat) : Prop := Evolves {
  ev_flow s : flow s p' `sublist_of` flow s p ++ written s;
  ev_results s : read_results s p `prefix_of` read_results s p';
  ev_reads s : read_numbers s p' ≡ₚ read_numbers s p ++ asked s;
  ev_connected s : is_connected s p' → is_connected s p
}.
End pipe.

Class PipeLaws (P : Type) `{Pipe P} : Type := {
  pipe_inv : P → Prop;
  law_create : pipe_inv pipe_create;
  law_start s : is_connected s pipe_create ∧ read_numbers s pipe_create = [] ∧ flow s pipe_create = [];
  law_write s m t p : pipe_inv p → message_ok m →
    pipe_inv (write_async s m t p) ∧ evolves p (write_async s m t p) (only s [m]) nothing;
  law_read s t p : pipe_inv p →
    pipe_inv (read_async s t p) ∧ evolves p (read_async s t p) nothing (only s [next_read s p]) ∧
    next_read s p ∉ read_numbers s p;
  law_invalidate s p : pipe_inv p →
    pipe_inv (invalidate s p) ∧ evolves p (invalidate s p) nothing nothing ∧ is_connected s (invalidate s p) = false;
  law_internal p p' : pipe_inv p → internal p p' →
    pipe_inv p' ∧ evolves p p' nothing nothing
}.

(** ** Pipes that lose nothing

    [idle] is a pipe with nothing left to do on its own. *)
Section lossless.
Context {P : Type} `{Pipe P}.

(** Both endpoints are connected, and no write or read failed so far. *)
Definition undisturbed (p : P) : Prop := ∀ s,
  is_connected s p ∧ Forall (λ x, PipeOpRes.is_success x.2) (write_results s p) ∧
  Forall (λ x, PipeOpRes.is_success x.1.2) (read_results s p).
Definition keeps (p p' : P) (written : bool → list message) : Prop :=
  undisturbed p' → undisturbed p ∧ ∀ s, flow s p' = flow s p ++ written s.
End lossless.

Class LosslessPipe (P : Type) `{PipeLaws P} : Type := {
  idle : P → Prop;
  keeps_write s m t p : pipe_inv p → message_ok m → keeps p (write_async s m t p) (only s [m]);
  keeps_read s t p : pipe_inv p → keeps p (read_async s t p) nothing;
  keeps_invalidate s p : pipe_inv p → keeps p (invalidate s p) nothing;
  keeps_internal p p' : pipe_inv p → internal p p' → keeps p p' nothing;
  idle_empty s p : pipe_inv p → idle p → undisturbed p → reading (negb s) p ≠ [] → flight s p = []
}.

(** ** Sequences of steps *)
Section pipe_lemmas.
Context {P : Type} `{PipeLaws P}.
Implicit Types p : P.

Lemma evolves_refl p : evolves p p nothing nothing.
Proof. split; intros s; unfold nothing; by rewrite ?app_nil_r. Qed.
Lemma evolves_trans p1 p2 p3 w1 w2 r1 r2 :
  evolves p1 p2 w1 r1 → evolves p2 p3 w2 r2 →
  evolves p1 p3 (λ s, w1 s ++ w2 s) (λ s, r1 s ++ r2 s).
Proof.
  intros [F1 R1 N1 C1] [F2 R2 N2 C2]. split; intros s.
  - etrans; [apply F2|]. rewrite app_assoc. by apply sublist_app.
  - etrans; [apply R1|apply R2].
  - by rewrite N2, N1, app_assoc.
  - auto.
Qed.

Lemma evolves_ext p1 p2 w w' r r' :
  evolves p1 p2 w r → (∀ s, w s = w' s) → (∀ s, r s = r' s) → evolves p1 p2 w' r'.
Proof. intros [F R N C] Hw Hr. split; try done; intros s; by rewrite <- ?Hw, <- ?Hr. Qed.

Lemma delivered_mono p p' w r s : evolves p p' w r → delivered s p `prefix_of` delivered s p'.
Proof. intros [_ R _ _]. destruct (R s) as [new Hnew]. exists (omap received_message new). unfold delivered. by rewrite Hnew, omap_app. Qed.
End pipe_lemmas.
