(* ===== verification/MemPipeLaws.v ===== *)
(** * The in-memory pipe as a pipe

    The two [mem_buffer]s of a [mem_buffers] with their strands and timers give a
    pipe in the sense of the interface, and one that loses nothing while it is
    connected. *)
From S2P Require Import Prelude RpcTypes Timer MemPipe MemPipeFacts MemPipeEnv Pipe.
Local Open Scope Z_scope.

(** ** One direction *)
Module BufferLaws.
Import MemBuffer.
Abbreviation buffer := (mem_buffer message).
Implicit Types b : buffer.

(** What the strands, the timer and the clock do. *)
Inductive work b : buffer → Prop :=
| work_read b' :
    m_next_read_promise_id b < 2 ^ 64 - 1 → MultipleTimer.m_next_id (m_timer b) < 2 ^ 64 - 1 →
    run_read_strand b = Some b' → work b b'
| work_write b' : run_write_strand b = Some b' → work b b'
| work_expire t : work b (with_timer (MultipleTimer.expire t (m_timer b)) b)
| work_timer t b' : run_timer t b = Some b' → work b b'
| work_tick n : now b ≤ n → work b (with_now n b).

Lemma work_step b b' : work b b' → step b b'.
Proof. destruct 1; by econstructor. Qed.

(** Results of reads and writes, oldest first. *)
Definition read_result (c : completion message) : option (nat * PipeOpRes.pipe_op_res * message) :=
  match c with ReadDone p r d => Some (p, r, default [] d) | WriteDone _ _ _ => None end.
Definition write_result (c : completion message) : option (nat * PipeOpRes.pipe_op_res) :=
  match c with WriteDone p _ r => Some (p, r) | ReadDone _ _ _ => None end.
Definition reads (b : buffer) : list (nat * PipeOpRes.pipe_op_res * message) := omap read_result (log b).
Definition writes (b : buffer) : list (nat * PipeOpRes.pipe_op_res) := omap write_result (log b).
(** Reads that wait: in the strand and in the list. *)
Definition waiting (b : buffer) : list nat := (r_promise <$> m_read_strand b) ++ (promise <$> m_read_promises b).
(** Messages stored, and those of the writes in the strand. *)
Definition queued (j : write_job message) : option message :=
  match j with WriteJob _ d _ => Some d | ResolveJob => None end.
Definition pending (b : buffer) : list message := m_buffer b ++ omap queued (m_write_strand b).

Definition stream b : list message := omap received_message (reads b) ++ pending b.
Definition read_numbers b : list nat := (reads b).*1.*1 ++ waiting b.
Definition unfailing b : Prop :=
  Forall (λ x, PipeOpRes.is_success x.2) (writes b) ∧ Forall (λ x, PipeOpRes.is_success x.1.2) (reads b).

(** [b'] comes after [b], with the writes [w] and the reads [asked]. *)
Record advances b b' (w : list message) (asked : list nat) : Prop := Advances {
  adv_stream : stream b' `sublist_of` stream b ++ w;
  adv_log : log b `prefix_of` log b';
  adv_reads : read_numbers b' ≡ₚ read_numbers b ++ asked;
  adv_keeps : m_is_valid b' = true → unfailing b' → stream b' = stream b ++ w
}.

Lemma reads_mono b b' : log b `prefix_of` log b' → reads b `prefix_of` reads b'.
Proof. intros [l Hl]. unfold reads. rewrite Hl, omap_app. by eexists. Qed.
Lemma unfailing_mono b b' : log b `prefix_of` log b' → unfailing b' → unfailing b.
Proof.
  intros [l Hl]. unfold unfailing, writes, reads. rewrite Hl, !omap_app.
  by intros [[? _]%Forall_app [? _]%Forall_app].
Qed.

(** Nothing the interface shows has changed. *)
Lemma advances_same b b' :
  log b' = log b → m_buffer b' = m_buffer b → m_read_promises b' = m_read_promises b →
  m_read_strand b' = m_read_strand b → omap queued (m_write_strand b') = omap queued (m_write_strand b) →
  advances b b' [] [].
Proof.
  intros E1 E2 E3 E4 E5. unfold stream, read_numbers, waiting, pending, reads.
  split; unfold stream, read_numbers, waiting, pending, reads; by rewrite ?E1, ?E2, ?E3, ?E4, ?E5, ?app_nil_r.
Qed.

Lemma advances_write m t b : advances b (write_async m t b) [m] [].
Proof.
  unfold write_async. destruct (m_is_valid b) eqn:Ev;
    split; unfold stream, read_numbers, waiting, pending, unfailing, reads, writes; simpl; rewrite ?omap_app; simpl;
    rewrite ?app_nil_r, ?app_assoc; try done.
  - by apply sublist_inserts_r.
  - by eexists.
Qed.

Lemma advances_read t b : advances b (read_async t b) [] [next_promise b].
Proof.
  split; unfold stream, read_numbers, waiting, pending, reads; simpl; rewrite ?fmap_app, ?app_nil_r; try done.
  simpl. solve_Permutation.
Qed.

Lemma reads_failed (q : list read_promise_data) r :
  r ≠ PipeOpRes.success →
  let l := omap read_result ((λ el, ReadDone (promise el) r None) <$> q) in
  omap received_message l = [] ∧ l.*1.*1 = promise <$> q.
Proof.
  intros Hr. induction q as [|el q [IH1 IH2]]; [done|].
  destruct r; [done|..]; (split; [exact IH1|exact (f_equal (cons _) IH2)]).
Qed.

Lemma advances_invalidate c b : advances b (invalidate c b) [] [].
Proof.
  unfold invalidate. destruct (m_is_valid b) eqn:Ev; simpl; [|by apply advances_same].
  destruct (reads_failed (m_read_promises b) _ (MemPipeFacts.invalidation_result_fail c)) as [E1 E2]. simpl in E1, E2.
  split; unfold stream, read_numbers, waiting, pending, reads; simpl; try done; try (by eexists);
    rewrite ?omap_app, ?fmap_app, ?app_nil_r.
  - rewrite E1, app_nil_r. apply sublist_app; [done|]. by apply sublist_inserts_l.
  - rewrite E2. solve_Permutation.
Qed.

(** A read that waits is completed. *)
Lemma advances_answer b b' p r d :
  log b' = log b ++ [ReadDone p r d] → waiting b ≡ₚ p :: waiting b' →
  option_list (received_message (p, r, default [] d)) ++ pending b' = pending b →
  advances b b' [] [].
Proof.
  intros Hl Hw Hp. split; unfold stream, read_numbers, reads; rewrite ?Hl, ?omap_app, ?fmap_app, ?app_nil_r.
  - rewrite <- Hp. simpl. rewrite <- app_assoc. destruct (PipeOpRes.is_success r); simpl; done.
  - by eexists.
  - rewrite Hw. simpl. solve_Permutation.
  - intros _ _. rewrite <- Hp. simpl. rewrite <- app_assoc. destruct (PipeOpRes.is_success r); simpl; done.
Qed.

Lemma advances_work b b' : MemPipeFacts.inv b → work b b' → advances b b' [] [].
Proof.
  intros I Hst. destruct Hst as [b' _ _ E|b' E|t|t b' E|n Hn]; try (by apply advances_same).
  - unfold run_read_strand in E. destruct (m_read_strand b) as [|job q] eqn:Hq; [done|]. injection E as <-.
    unfold read_impl. simpl. destruct (m_is_valid b) eqn:Ev; simpl.
    + destruct (m_buffer b) as [|m rest] eqn:Eb.
      * destruct (match r_timeout job with Some _ => _ | None => _ end) as [tid T].
        split; unfold stream, read_numbers, waiting, pending, reads; simpl; rewrite ?Eb, ?Hq, ?fmap_app, ?app_nil_r; try done.
        simpl. solve_Permutation.
      * eapply advances_answer; [done|..]; unfold waiting, pending; simpl; by rewrite ?Hq, ?Eb.
    + destruct (MemPipeFacts.inv_invalid _ I Ev) as (_ & _ & Hres).
      eapply advances_answer; [done|unfold waiting; by rewrite Hq|]. unfold pending. simpl.
      destruct (r_started_while_valid job); [|done]. by destruct (m_read_invalidation_result b).
  - unfold run_write_strand in E. destruct (m_write_strand b) as [|[p data tp|] q] eqn:Hq; [done| |].
    + unfold write_impl in E. simpl in E.
      assert (∀ r, r ≠ PipeOpRes.success →
                advances b (set_value (WriteDone p data r) (with_write_strand (ResolveJob :: q) b)) [] []) as Hfail.
      { intros r Hr. split; unfold stream, read_numbers, waiting, pending, unfailing, reads, writes; simpl;
          rewrite ?omap_app, ?fmap_app, ?app_nil_r; simpl; rewrite ?app_nil_r; try done; [|by eexists|].
        - rewrite Hq. simpl. do 2 (apply sublist_app; [done|]). by apply sublist_inserts_l with (k := [data]).
        - intros _ [[_ [Hs _]%Forall_cons]%Forall_app _]. by destruct r. }
      destruct (m_is_valid b) eqn:Ev; simpl in E.
      2: { injection E as <-. pose proof (Hfail PipeOpRes.canceled) as Hf. by apply Hf. }
      destruct (match tp with Some tp => bool_decide (tp < now b) | None => false end); injection E as <-.
      * by apply (Hfail PipeOpRes.timeout).
      * split; unfold stream, read_numbers, waiting, pending, reads; simpl; rewrite ?omap_app, ?Hq, ?app_nil_r; simpl;
          rewrite ?app_nil_r, <- ?app_assoc; try done. by eexists.
    + injection E as <-. unfold resolve_read_promise. simpl.
      destruct (m_read_promises b) as [|el rp] eqn:Erp; [by apply advances_same; simpl; rewrite ?Hq|].
      destruct (m_buffer b) as [|m rest] eqn:Eb; [by apply advances_same; simpl; rewrite ?Hq|].
      eapply advances_answer; [done|..]; unfold waiting, pending; simpl; rewrite ?Hq, ?Erp, ?Eb; [|done].
      simpl. solve_Permutation.
  - unfold run_timer in E. destruct (MultipleTimer.run_handler t (m_timer b)) as [[fired T]|]; [|done].
    injection E as <-. destruct fired as [rid|]; [|by apply advances_same].
    unfold timeout_callback. simpl. destruct (list_find _ (m_read_promises b)) as [[i el]|] eqn:Ef; [|by apply advances_same].
    apply list_find_Some in Ef as (Hel & _). eapply advances_answer; [done| |done].
    unfold waiting. simpl. pose proof (fmap_Permutation promise _ _ (delete_Permutation _ _ _ Hel)) as Hperm.
    etrans; [apply Permutation_app_head, Hperm|]. simpl. solve_Permutation.
Qed.

Lemma next_fresh b : MemPipeFacts.inv b → next_promise b ∉ read_numbers b.
Proof.
  intros I Hin. assert (next_promise b ∈ MemPipeFacts.promises b) as Hp.
  { unfold read_numbers, waiting in Hin. unfold MemPipeFacts.promises.
    rewrite !elem_of_app in *. destruct Hin as [Hin|[Hin|Hin]]; [|by left|by right; left].
    right; right; right. apply list_elem_of_fmap in Hin as ([p m] & -> & Hin).
    apply list_elem_of_fmap in Hin as ([[q r] d] & [= -> ->] & Hin). unfold reads in Hin.
    apply list_elem_of_omap in Hin as (c & Hc & Hr). apply list_elem_of_fmap. exists c. split; [|done].
    destruct c; [done|]. by injection Hr as -> _ _. }
  rewrite (MemPipeFacts.inv_promises _ I) in Hp. apply elem_of_seq in Hp. lia.
Qed.
End BufferLaws.

(** ** The pipe *)
Module MemPipeLaws.
Import MemBuffers MemPipeEndpoint BufferLaws.
Abbreviation buffers := (mem_buffers message).
Implicit Types m : buffers.

Inductive work m : buffers → Prop :=
| work_c2s b : BufferLaws.work (m_client_to_server m) b →
    work m (mk b (m_server_to_client m) (m_invalidated m) (m_on_invalidate m) (executed m))
| work_s2c b : BufferLaws.work (m_server_to_client m) b →
    work m (mk (m_client_to_server m) b (m_invalidated m) (m_on_invalidate m) (executed m)).

#[export] Instance mem_pipe : Pipe buffers := {|
  pipe_create := create;
  Pipe.is_connected _ m := is_connected m;
  Pipe.write_async s msg t m := write_async s msg t m;
  Pipe.read_async s t m := read_async s t m;
  Pipe.invalidate s m := invalidate s m;
  next_write s m := MemBuffer.next_promise (outgoing s m);
  next_read s m := MemBuffer.next_promise (incoming s m);
  write_results s m := writes (outgoing s m);
  read_results s m := reads (incoming s m);
  internal := work;
  reading s m := waiting (incoming s m);
  flight s m := pending (outgoing s m)
|}.

Lemma incoming_negb s m : incoming (negb s) m = outgoing s m.
Proof. by destruct s. Qed.

Lemma work_valid (b b' : buffer) : BufferLaws.work b b' → MemBuffer.m_is_valid b' = MemBuffer.m_is_valid b.
Proof.
  destruct 1 as [b' _ _ E|b' E|t|t b' E|n Hn]; try done.
  - unfold MemBuffer.run_read_strand, MemBuffer.read_impl in E.
    repeat case_match; simplify_eq; simpl in *; congruence.
  - unfold MemBuffer.run_write_strand, MemBuffer.write_impl, MemBuffer.resolve_read_promise in E.
    repeat case_match; simplify_eq; simpl in *; congruence.
  - unfold MemBuffer.run_timer, MemBuffer.timeout_callback in E.
    repeat case_match; simplify_eq; simpl in *; congruence.
Qed.

Lemma work_endpoint_step m m' : work m m' → step m m'.
Proof.
  destruct 1 as [b Hb|b Hb]; constructor; first [by apply work_step|by apply work_valid].
Qed.

(** Both directions advance. *)
Lemma buffers_advance m m' written asked :
  inv m → inv m' → (m_invalidated m = true → m_invalidated m' = true) →
  (∀ s, advances (outgoing s m) (outgoing s m') (written s) (asked (negb s))) →
  evolves m m' written asked ∧ keeps m m' written.
Proof.
  intros I I' Hv H.
  assert (∀ s, m_invalidated m' = false → MemBuffer.m_is_valid (outgoing s m') = true) as Hvalid.
  { intros s Hi. destruct I' as [_ _ E1 E2 _]. destruct s; simpl; by rewrite ?E1, ?E2, Hi. }
  assert (∀ s (m0 : buffers), flow s m0 = stream (outgoing s m0)) as Hflow.
  { intros s m0. unfold flow, delivered. simpl. by rewrite incoming_negb. }
  split.
  - split; intros s.
    + rewrite !Hflow. apply H.
    + simpl. specialize (H (negb s)). rewrite <- !incoming_negb, negb_involutive in H. apply reads_mono, H.
    + specialize (H (negb s)). rewrite <- !incoming_negb, negb_involutive in H. apply H.
    + simpl. unfold is_connected, is_valid. destruct (m_invalidated m); [|done]. by rewrite (Hv eq_refl).
  - intros U. assert (∀ s, unfailing (outgoing s m')) as Hu.
    { intros s. split; [apply (U s)|]. rewrite <- incoming_negb. apply (U (negb s)). }
    assert (m_invalidated m' = false) as Hi'.
    { destruct (U true) as [Hc _]. simpl in Hc. unfold is_connected, is_valid in Hc. by destruct (m_invalidated m'). }
    assert (m_invalidated m = false) as Hi.
    { destruct (m_invalidated m); [|done]. by rewrite (Hv eq_refl) in Hi'. }
    split.
    + intros s. split; [by simpl; unfold is_connected, is_valid; rewrite Hi|].
      destruct (unfailing_mono _ _ (adv_log _ _ _ _ (H s)) (Hu s)) as [Hw _].
      destruct (unfailing_mono _ _ (adv_log _ _ _ _ (H (negb s))) (Hu (negb s))) as [_ Hr].
      simpl. split; [done|]. by rewrite <- (negb_involutive s), incoming_negb.
    + intros s. rewrite !Hflow. by apply H; [apply Hvalid|].
Qed.

Lemma buffers_write s msg t m : inv m →
  inv (write_async s msg t m) ∧
  evolves m (write_async s msg t m) (only s [msg]) nothing ∧ keeps m (write_async s msg t m) (only s [msg]).
Proof.
  intros I. assert (inv (write_async s msg t m)) as I' by (by eapply endpoint_inv_step, step_write).
  split; [done|]. apply buffers_advance; [done..|by destruct s|].
  intros s'. unfold nothing. destruct s, s'; simpl; (apply advances_write || by apply advances_same).
Qed.

Lemma buffers_read s t m : inv m →
  inv (read_async s t m) ∧
  evolves m (read_async s t m) nothing (only s [next_read s m]) ∧ keeps m (read_async s t m) nothing.
Proof.
  intros I. assert (inv (read_async s t m)) as I' by (by eapply endpoint_inv_step, step_read).
  split; [done|]. apply buffers_advance; [done..|by destruct s|].
  intros s'. unfold nothing. destruct s, s'; simpl; (apply advances_read || by apply advances_same).
Qed.

Lemma buffers_invalidate s m : inv m →
  inv (invalidate s m) ∧ evolves m (invalidate s m) nothing nothing ∧ keeps m (invalidate s m) nothing.
Proof.
  intros I. assert (inv (invalidate s m)) as I' by (by eapply endpoint_inv_step, step_invalidate).
  split; [done|]. apply buffers_advance; [done..|].
  intros s'. destruct s'; simpl; apply advances_invalidate.
Qed.

Lemma buffers_work m m' : inv m → work m m' →
  inv m' ∧ evolves m m' nothing nothing ∧ keeps m m' nothing.
Proof.
  intros I Hw. assert (inv m') as I' by (by eapply endpoint_inv_step, work_endpoint_step).
  split; [done|]. destruct I as [Ic Is Hc Hs Hcb]. pose proof Hw as Hw'.
  destruct Hw' as [b Hb|b Hb]; (apply buffers_advance; [by split|done|done|]);
    intros s'; destruct s'; simpl; (by apply advances_work) || by apply advances_same.
Qed.

#[export] Program Instance mem_pipe_laws : PipeLaws buffers := {| pipe_inv := inv |}.
Next Obligation. apply endpoint_inv_create. Qed.
Next Obligation. by intros []. Qed.
Next Obligation. intros s msg t m I _. by destruct (buffers_write s msg t m I) as (? & ? & _). Qed.
Next Obligation.
  intros s t m I. destruct (buffers_read s t m I) as (? & ? & _). split_and!; [done..|].
  destruct I as [Ic Is _ _ _]. destruct s; by apply next_fresh.
Qed.
Next Obligation. intros s m I. by destruct (buffers_invalidate s m I) as (? & ? & _). Qed.
Next Obligation. intros m m' I Hw. by destruct (buffers_work m m' I Hw) as (? & ? & _). Qed.

(** No task waits in a strand. *)
Definition mem_idle m : Prop :=
  ∀ s, MemBuffer.m_read_strand (incoming s m) = [] ∧ MemBuffer.m_write_strand (outgoing s m) = [].

#[export] Program Instance mem_lossless : LosslessPipe buffers := {| idle := mem_idle |}.
Next Obligation. intros s msg t m I _. by destruct (buffers_write s msg t m I) as (_ & _ & ?). Qed.
Next Obligation. intros s t m I. by destruct (buffers_read s t m I) as (_ & _ & ?). Qed.
Next Obligation. intros s m I. by destruct (buffers_invalidate s m I) as (_ & _ & ?). Qed.
Next Obligation. intros m m' I Hw. by destruct (buffers_work m m' I Hw) as (_ & _ & ?). Qed.
Next Obligation.
  intros s m I Hi Hc Hr. simpl in *. rewrite incoming_negb in Hr. destruct (Hi (negb s)) as [Hrs _].
  destruct (Hi s) as [_ Hws]. rewrite incoming_negb in Hrs. unfold waiting in Hr. rewrite Hrs in Hr. unfold pending.
  rewrite Hws. simpl. rewrite app_nil_r.
  assert (MemPipeFacts.inv (outgoing s m)) as Ib by (destruct I; by destruct s).
  destruct (MemPipeFacts.inv_wakeup _ Ib) as [Hn|Hn]; [by rewrite Hn in Hr|]. by rewrite Hws in Hn.
Qed.
End MemPipeLaws.

(** A write that waits when the other side invalidates the pipe ends with
    [canceled], not with [failed] like the reads. *)
Lemma peer_close_cancels_write (m : message) :
  let p := MemPipeEndpoint.invalidate false (MemPipeEndpoint.write_async true m None
             (MemPipeEndpoint.read_async true None MemBuffers.create)) in
  MemBuffer.log <$> MemBuffer.run_write_strand (MemPipeEndpoint.outgoing true p)
    = Some [MemBuffer.WriteDone 0 m PipeOpRes.canceled] ∧
  MemBuffer.log <$> MemBuffer.run_read_strand (MemPipeEndpoint.incoming true p)
    = Some [MemBuffer.ReadDone 0 PipeOpRes.failed None].
Proof. done. Qed.
