(* ===== verification/TcpPipeLaws.v ===== *)
(** * A connection of two TCP endpoints as a pipe

    Two [tcp_pipe_endpoint]s whose sockets are connected: what one receives is a
    first part of what the other sent.  They are a pipe in the sense of the
    interface, and as long as nothing fails they lose nothing. *)
From S2P Require Import Prelude RpcTypes BigEndian Timer TcpPipe TcpPipeFacts TcpStream TcpRoundTrip Pipe.
Import TcpPipe.
Local Open Scope Z_scope.

(** ** What one operation does to an endpoint *)
Module EndpointLaws.
Definition c_result (c : completion) : PipeOpRes.pipe_op_res := match c with WriteDone _ r | ReadDone _ r _ => r end.
Definition is_read (c : completion) : bool := match c with ReadDone _ _ _ => true | WriteDone _ _ => false end.
Definition read_result (c : completion) : option (nat * PipeOpRes.pipe_op_res * message) :=
  match c with ReadDone p r m => Some (p, r, m) | WriteDone _ _ => None end.
Definition write_result (c : completion) : option (nat * PipeOpRes.pipe_op_res) :=
  match c with WriteDone p r => Some (p, r) | ReadDone _ _ _ => None end.
Definition reads (e : impl) : list (nat * PipeOpRes.pipe_op_res * message) := omap read_result (log e).
Definition writes (e : impl) : list (nat * PipeOpRes.pipe_op_res) := omap write_result (log e).

(** Messages of the queue, and all that were accepted. *)
Definition unsent (e : impl) : list message := (λ d, w_payload_buffer (op d)) <$> operations (m_write e).
Definition got (e : impl) : list message := omap received_message (reads e).
Definition read_numbers (e : impl) : list nat := (reads e).*1.*1 ++ waiting (operations (m_read e)).

Definition clean (cs : list completion) : Prop := Forall (λ c, c_result c = PipeOpRes.success) cs.
Definition healthy (e : impl) : Prop := is_open (m_socket e) = true ∧ clean (log e).

Lemma got_app cs1 cs2 :
  omap received_message (omap read_result (cs1 ++ cs2))
  = omap received_message (omap read_result cs1) ++ omap received_message (omap read_result cs2).
Proof. by rewrite !omap_app. Qed.

(** *** The kinds of completions *)
Class OperationResults (Op : Type) `{StreamOperationLaws Op} : Type := {
  kind : bool;
  take_result r o c : (take_pending_result r o).1 = Some c → c_result c = r ∧ is_read c = kind
}.
#[global] Instance write_results_kind : OperationResults write_operation.
Proof. refine {| kind := false |}. intros r o c. simpl. destruct (w_is_promise_resolved o); [done|]. by intros [= <-]. Defined.
#[global] Instance read_results_kind : OperationResults read_operation.
Proof. refine {| kind := true |}. intros r o c. simpl. destruct (r_is_promise_resolved o); [done|]. by intros [= <-]. Defined.

Section kinds.
Context {Op : Type} `{OperationResults Op}.
Implicit Types q : queue Op.

Definition of_kind (cs : list completion) : Prop := Forall (λ c, is_read c = kind) cs.

Lemma take_kind r (o : Op) : of_kind (option_list (take_pending_result r o).1).
Proof.
  destruct (take_pending_result r o).1 as [c|] eqn:E; [|constructor].
  constructor; [by apply (take_result r o)|constructor].
Qed.
Lemma complete_all_kind r q t rs b : of_kind rs → of_kind (pending_results (complete_all_operations_unsafe r q t rs b)).
Proof.
  intros Hrs. apply Forall_app. split; [done|]. apply Forall_forall. intros c (d & Hd & Hc)%list_elem_of_omap.
  by apply (take_result r (op d)).
Qed.
Lemma start_header_kind s q t rs : of_kind rs → of_kind (pending_results (start_header_async s q t rs)).
Proof. intros. unfold start_header_async. case_match; [by apply complete_all_kind|done]. Qed.
Lemma start_payload_kind s q t rs : of_kind rs → of_kind (pending_results (start_payload_async s q t rs)).
Proof. intros. unfold start_payload_async. repeat case_match; try done; by apply complete_all_kind. Qed.
Lemma on_error_kind ec s q t : of_kind (pending_results (on_error ec s q t)).
Proof. unfold on_error. case_match; apply complete_all_kind; constructor. Qed.
Lemma on_header_kind ec s q t : of_kind (pending_results (on_header_operation ec s q t)).
Proof.
  unfold on_header_operation. case_match; [constructor|]. case_match; [apply on_error_kind|].
  case_match; [apply start_header_kind|apply start_payload_kind]; constructor.
Qed.
Lemma on_payload_kind ec s q t : of_kind (pending_results (on_payload_operation ec s q t)).
Proof.
  unfold on_payload_operation. case_match; [constructor|]. case_match; [apply on_error_kind|].
  case_match; [apply start_payload_kind; constructor|]. case_match; [apply take_kind|]. apply start_header_kind, take_kind.
Qed.
Lemma push_kind d s q t : of_kind (pending_results (push_operation d s q t)).
Proof. unfold push_operation. case_decide; [apply start_header_kind|]; constructor. Qed.

(** A timeout completes an operation with a failure. *)
Lemma timeout_result_fails s : timeout_result s ≠ PipeOpRes.success.
Proof. unfold timeout_result. case_match; [done|]. apply closed_result_fails. Qed.

Lemma time_out_rest_kind i r (l : list (operation_data Op)) :
  r ≠ PipeOpRes.success → of_kind (option_list (time_out_rest i r l).2) ∧
  (clean (option_list (time_out_rest i r l).2) → Forall (λ d, is_Some (promise_of (op d))) l → (time_out_rest i r l).1 = l).
Proof.
  intros Hr. induction l as [|d l IH]; [by split; [constructor|]|]. cbn [time_out_rest]. case_decide; simpl.
  - split; [apply take_kind|]. intros Hc [[p Hp] _]%Forall_cons. pose proof (take_promise r (op d)) as Ht. rewrite Hp in Ht.
    destruct (take_pending_result r (op d)).1 as [c|] eqn:E; [|done]. apply take_result in E as [E _].
    apply Forall_cons in Hc as [Hc _]. congruence.
  - destruct IH as [IH1 IH2]. destruct (time_out_rest i r l) as [l' c]. simpl in *. split; [done|].
    intros Hc [_ Hf]%Forall_cons. by rewrite IH2.
Qed.

Lemma time_out_kind i s q :
  of_kind (option_list (time_out i s q).2) ∧
  (clean (option_list (time_out i s q).2) → Forall (λ d, is_Some (promise_of (op d))) (operations q) → (time_out i s q).1 = q).
Proof.
  pose proof (timeout_result_fails s) as Hr. unfold time_out. destruct q as [[|d l] ph]; simpl; [by split; [constructor|]|]. case_decide.
  - pose proof (take_kind (timeout_result s) (op d)) as Hk. pose proof (take_promise (timeout_result s) (op d)) as Ht.
    pose proof (take_result (timeout_result s) (op d)) as Hres.
    destruct (take_pending_result (timeout_result s) (op d)) as [[c|] o]; simpl in *; (split; [done|]).
    + intros [Hc _]%Forall_cons. destruct (Hres c eq_refl) as [E _]. congruence.
    + intros _ [[p Hp] _]%Forall_cons. by rewrite Hp in Ht.
  - pose proof (time_out_rest_kind i (timeout_result s) l Hr) as [HA HB].
    destruct (time_out_rest i (timeout_result s) l) as [l' c]. simpl in *. split; [done|].
    intros Hc [_ Hf]%Forall_cons. by rewrite HB.
Qed.
End kinds.

(** *** The writing and the reading side *)

(** Nobody's promise is gone while everything succeeds. *)
Definition unresolved {Op} `{StreamOperationLaws Op} (q : queue Op) : Prop :=
  Forall (λ d, is_Some (promise_of (op d))) (operations q).
Record resolved_inv (e : impl) : Prop := {
  ri_write : clean (log e) → unresolved (m_write e);
  ri_read : clean (log e) → unresolved (m_read e)
}.

(** The messages [w] were accepted; what was not sent yet may get lost. *)
Definition out_moved (e e' : impl) (w : list message) : Prop :=
  ∃ u, written e' ++ unsent e' = written e ++ u ∧ u `sublist_of` unsent e ++ w ∧ (healthy e' → u = unsent e ++ w).
(** The messages [ms] were taken off the stream, and some of them delivered. *)
Definition in_moved (e e' : impl) : Prop :=
  ∃ ms ds, consumed e' = consumed e ++ ms ∧ got e' = got e ++ ds ∧ ds `sublist_of` ms ∧ (healthy e' → ds = ms).

Record moved (e e' : impl) (w : list message) (asked : list nat) : Prop := Moved {
  mv_log : log e `prefix_of` log e';
  mv_open : is_open (m_socket e') = true → is_open (m_socket e) = true;
  mv_out : out_moved e e' w;
  mv_in : in_moved e e';
  mv_reads : read_numbers e' ≡ₚ read_numbers e ++ asked;
  mv_resolved : resolved_inv e → resolved_inv e'
}.

Lemma out_same e e' : written e' = written e → operations (m_write e') = operations (m_write e) → out_moved e e' [].
Proof. intros E1 E2. exists (unsent e). rewrite app_nil_r. unfold unsent. by rewrite E1, E2. Qed.

Lemma reads_of_writes l : Forall (λ c, is_read c = false) l → omap read_result l = [].
Proof. induction 1 as [|[p r|p r m] l Hc _ IH]; [done|exact IH|discriminate]. Qed.

Lemma in_same e e' l :
  consumed e' = consumed e → log e' = log e ++ l → Forall (λ c, is_read c = false) l → in_moved e e'.
Proof.
  intros E1 E2 Hl. exists [], []. rewrite !app_nil_r. split_and!; try done. unfold got, reads. rewrite E2, got_app.
  rewrite (reads_of_writes l Hl). apply app_nil_r.
Qed.

Lemma reads_of_reads l : Forall (λ c, is_read c = true) l → (omap read_result l).*1.*1 = c_promise <$> l.
Proof. induction 1 as [|[p r|p r m] l Hc _ IH]; [done|discriminate|]. simpl. by f_equal. Qed.

Lemma numbers_same e e' l :
  log e' = log e ++ l → Forall (λ c, is_read c = false) l → operations (m_read e') = operations (m_read e) →
  read_numbers e' ≡ₚ read_numbers e ++ [].
Proof. intros E1 Hl E2. unfold read_numbers, reads. by rewrite E1, E2, omap_app, (reads_of_writes l Hl), !app_nil_r. Qed.

Lemma clean_app cs1 cs2 : clean (cs1 ++ cs2) ↔ clean cs1 ∧ clean cs2.
Proof. apply Forall_app. Qed.

Lemma moved_refl e : moved e e [] [].
Proof.
  split; try done; [by apply out_same|apply (in_same e e [])|apply (numbers_same e e [])];
    rewrite ?app_nil_r; (done || constructor).
Qed.

(** *** The queue of the writes changes *)
Lemma moved_finish_write e e0 h w :
  m_read e0 = m_read e → m_socket e0 = m_socket e → log e0 = log e → consumed e0 = consumed e →
  of_kind (Op := write_operation) (pending_results h) → (resolved_inv e → clean (log e) → unresolved (h_queue h)) →
  out_moved e (finish_write h e0) w →
  moved e (finish_write h e0) w [].
Proof.
  intros E1 E2 E3 E4 Hk Hres Ho. destruct (open_finish_write h e0) as (Eo & _ & _ & Eq & _ & Ec & Er).
  destruct (log_finish_write h e0) as [El _]. rewrite E3 in El. split; try done.
  - rewrite El. by eexists.
  - rewrite Eo, E2. by intros [? _]%andb_true_iff.
  - eapply in_same; [by rewrite Ec|exact El|exact Hk].
  - eapply numbers_same; [exact El|exact Hk|by rewrite Er, E1].
  - intros R. split; rewrite El; intros [Hc _]%clean_app; [rewrite Eq; auto|rewrite Er, E1; by apply R].
Qed.

Lemma moved_write_async m t e : moved e (write_async m t e) [m] [].
Proof.
  unfold write_async. destruct (is_open (m_socket e)) eqn:Eo.
  - destruct (start_timer t true _ _) as [k T]. set (d := OperationData _ _ _). set (e0 := mk _ _ _ _ _ _ _ _ _ _ _ _ _ _).
    destruct (push_cases d (m_socket e) (m_write e) T Eo) as [Eq Ei].
    apply moved_finish_write; try done; [apply push_kind|..].
    + intros R Hc. rewrite Eq. apply Forall_app. split; [by apply (ri_write _ R)|]. constructor; [by eexists|constructor].
    + destruct (open_finish_write (push_operation d (m_socket e) (m_write e) T) e0) as (_ & _ & Ew & Em & _).
      exists (unsent e ++ [m]). unfold unsent. rewrite Ew, Em, Eq. simpl. by rewrite fmap_app.
  - set (e' := mk _ _ _ _ _ _ _ _ _ _ _ _ _ _). assert (log e' = log e ++ [WriteDone (next_promise e) PipeOpRes.failed]) as El by done.
    split.
    + by eexists.
    + done.
    + exists (unsent e). split_and!; [done|by apply sublist_inserts_r|]. intros [Hh _]. simpl in Hh. congruence.
    + eapply in_same; [done|exact El|by repeat constructor].
    + eapply numbers_same; [exact El|by repeat constructor|done].
    + intros [R1 R2]. split; rewrite El; intros [Hc _]%clean_app; auto.
Qed.

Lemma moved_write_some ec n e e' :
  writer_ok e → (ec = operation_aborted → is_open (m_socket e) = false) → write_some ec n e = Some e' → moved e e' [] [].
Proof.
  intros (p & _ & _ & Hq) Ha. unfold write_some. destruct (operations (m_write e)) as [|d rest] eqn:Eq; [done|].
  destruct (under_way (m_write e)) as [ph|]; [|done]. destruct Hq as (_ & Hm & Hph & Hrest). case_decide as Hn; [|done].
  destruct (write_stream_piece ph (op d) n Hph Hm Hn) as (_ & _ & HH & _).
  set (o := w_add_bytes n (op d)). set (q := Queue (OperationData (id d) o (timer_id d) :: rest) None).
  set (h := match ph with Header => on_header_operation | Payload => on_payload_operation end ec (m_socket e) q (m_timer e)).
  set (e0 := mk _ _ _ _ _ _ _ _ _ _ _ _ _ _). intros [= <-].
  assert (of_kind (Op := write_operation) (pending_results h)) as Hk by (destruct ph; [apply on_header_kind|apply on_payload_kind]).
  assert (0 < length (w_payload_buffer (op d)))%nat as Hlen by (unfold valid_message in Hm; lia).
  (* the queue goes on, goes on with the next operation or is dropped *)
  assert (dropped (m_socket e) h ∨
          (operations (h_queue h) = operations q ∧ is_payload_completed o = false) ∨
          (operations (h_queue h) = rest ∧ is_payload_completed o = true)) as Hcases.
  { destruct ph.
    - assert (is_payload_completed o = false) as Hc.
      { simpl. apply bool_decide_eq_false. specialize (HH eq_refl). simpl in *. lia. }
      destruct (on_header_cases ec (m_socket e) q (m_timer e) _ rest eq_refl Ha) as [Hd|[(E & _)|(E & _)]];
        [by left|right; left; unfold h; by rewrite E..].
    - destruct (on_payload_cases ec (m_socket e) q (m_timer e) _ rest eq_refl Ha) as [Hd|[(E & Hc & _)|(Hc & _ & E)]];
        [by left|right; left; unfold h; by rewrite E|right; right; unfold h; rewrite E; by destruct rest]. }
  apply moved_finish_write; try done.
  - intros R Hc. pose proof (ri_write _ R Hc) as Hu. unfold unresolved in *. rewrite Eq in Hu.
    apply Forall_cons in Hu as [Hu1 Hu2]. destruct Hcases as [[-> _]|[[-> _]|[-> _]]]; [constructor|by constructor|done].
  - destruct (open_finish_write h e0) as (Eo & _ & Ew & Em & _).
    exists ((if is_payload_completed o then [w_payload_buffer o] else []) ++ unsent (finish_write h e0)).
    rewrite app_nil_r. split; [by rewrite Ew, app_assoc|]. unfold unsent. rewrite Em, Eq.
    destruct Hcases as [[-> Hi]|[[-> ->]|[-> ->]]]; [|by split..]. split.
    + destruct (is_payload_completed o); [apply sublist_skip|]; apply sublist_nil_l.
    + intros [Hopen _]. rewrite Eo in Hopen. apply andb_true_iff in Hopen as [Hopen Hinv]. rewrite (Hi Hopen) in Hinv. done.
Qed.

(** *** The queue of the reads changes *)
Lemma got_deliveries cs : omap received_message (omap read_result cs) = deliveries cs.
Proof. induction cs as [|[p r|p [] m] cs IH]; [done|exact IH| |exact IH..]. exact (f_equal (cons m) IH). Qed.

Lemma moved_finish_read e e0 h asked :
  m_write e0 = m_write e → m_socket e0 = m_socket e → log e0 = log e → written e0 = written e →
  of_kind (Op := read_operation) (pending_results h) → (resolved_inv e → clean (log e) → unresolved (h_queue h)) →
  outstanding h ≡ₚ waiting (operations (m_read e)) ++ asked → in_moved e (finish_read h e0) →
  moved e (finish_read h e0) [] asked.
Proof.
  intros E1 E2 E3 E4 Hk Hres Hout Hi. destruct (open_finish_read h e0) as (Eo & _ & Ew & Eq & _ & _ & Er).
  destruct (log_finish_read h e0) as [El _]. rewrite E3 in El. split; try done.
  - rewrite El. by eexists.
  - rewrite Eo, E2. by intros [? _]%andb_true_iff.
  - apply out_same; [by rewrite Ew|by rewrite Eq, E1].
  - unfold read_numbers, reads. rewrite El, Er, omap_app, !fmap_app, (reads_of_reads _ Hk), <- !app_assoc.
    f_equiv. exact Hout.
  - intros R. split; rewrite El; intros [Hc _]%clean_app; [rewrite Eq, E1; by apply R|rewrite Er; auto].
Qed.

Lemma moved_read_async t e : promise_inv e → moved e (read_async t e) [] [next_promise e].
Proof.
  intros I. unfold read_async. destruct (is_open (m_socket e)) eqn:Eo.
  - destruct (start_timer t false _ _) as [k T]. set (d := OperationData _ _ _). set (e0 := mk _ _ _ _ _ _ _ _ _ _ _ _ _ _).
    destruct (push_cases d (m_socket e) (m_read e) T Eo) as [Eq Ei].
    apply moved_finish_read; try done; [apply push_kind|..].
    + intros R Hc. rewrite Eq. apply Forall_app. split; [by apply (ri_read _ R)|]. constructor; [by eexists|constructor].
    + by rewrite (proj1 (push_outstanding d (m_socket e) (m_read e) T (inv_read_driven _ I))).
    + destruct (open_finish_read (push_operation d (m_socket e) (m_read e) T) e0) as (_ & _ & _ & _ & _ & Ec & _).
      destruct (log_finish_read (push_operation d (m_socket e) (m_read e) T) e0) as [El _].
      exists [], []. rewrite !app_nil_r. split_and!; try done. unfold got, reads.
      rewrite El, got_app, (got_deliveries (pending_results _)), push_silent, app_nil_r. done.
  - set (e' := mk _ _ _ _ _ _ _ _ _ _ _ _ _ _). assert (log e' = log e ++ [ReadDone (next_promise e) PipeOpRes.failed []]) as El by done.
    split.
    + by eexists.
    + done.
    + by apply out_same.
    + exists [], []. rewrite !app_nil_r. split_and!; try done. unfold got, reads. rewrite El, got_app. apply app_nil_r.
    + unfold read_numbers, reads. rewrite El, omap_app, !fmap_app. simpl. solve_Permutation.
    + intros [R1 R2]. split; rewrite El; intros [Hc _]%clean_app; auto.
Qed.

(** A read that is complete delivers while everything succeeds. *)
Lemma payload_delivers ec s (q : queue read_operation) t d rest :
  operations q = d :: rest → is_open s = true → h_invalidate (on_payload_operation ec s q t) = false →
  is_payload_completed (op d) = true → (ec = operation_aborted → is_open s = false) → is_Some (promise_of (op d)) →
  deliveries (pending_results (on_payload_operation ec s q t)) = [drop s_header_size (r_data (op d))].
Proof.
  intros Eq Ho Hi Hc Ha [p Hp]. unfold on_payload_operation, on_error, start_header_async in *. rewrite Eq, Hc in *.
  destruct ec; simpl in Hi; [|by rewrite Ha in Ho|by rewrite Ho in Hi]. simpl.
  assert (r_is_promise_resolved (op d) = false) as Hr by (simpl in Hp; by destruct (r_is_promise_resolved (op d))).
  destruct rest; simpl; rewrite ?Ho; simpl; by rewrite Hr.
Qed.

Lemma moved_read_some ec bytes e e' :
  reader_ok e → promise_inv e → resolved_inv e → (ec = operation_aborted → is_open (m_socket e) = false) →
  Forall is_byte bytes → read_some ec bytes e = Some e' → moved e e' [] [].
Proof.
  intros (Hby & _ & p & Hb & Hq) I R Ha Hbytes. unfold read_some. destruct (operations (m_read e)) as [|d rest] eqn:Eq; [done|].
  destruct (under_way (m_read e)) as [ph|]; [|done]. destruct Hq as (-> & Hph & Hrest). case_decide as Hn; [|done].
  set (o := r_add_bytes bytes (op d)). set (q := Queue (OperationData (id d) o (timer_id d) :: rest) None).
  set (h := match ph with Header => on_header_operation | Payload => on_payload_operation end ec (m_socket e) q (m_timer e)).
  set (e0 := mk _ _ _ _ _ _ _ _ _ _ _ _ _ _). intros [= <-].
  assert (of_kind (Op := read_operation) (pending_results h)) as Hk by (destruct ph; [apply on_header_kind|apply on_payload_kind]).
  assert (Forall is_byte (r_data (op d) ++ bytes)) as Hd.
  { rewrite Hb in Hby. apply Forall_app in Hby as [_ Hby]. by apply Forall_app. }
  assert (waiting (operations q) = waiting (operations (m_read e))) as Hw by (rewrite Eq; unfold q; cbn [operations]; by rewrite !waiting_cons).
  apply moved_finish_read; try done.
  - intros _ Hc. pose proof (ri_read _ R Hc) as Hu. unfold unresolved in *. rewrite Eq in Hu. apply Forall_cons in Hu as [Hu1 Hu2].
    assert (Forall (λ d, is_Some (promise_of (op d))) (operations q)) as Huq by by constructor.
    destruct ph.
    + by destruct (on_header_cases ec (m_socket e) q (m_timer e) _ rest eq_refl Ha) as [[E _]|[(E & _)|(E & _)]]; unfold h; rewrite E; [constructor|..].
    + destruct (on_payload_cases ec (m_socket e) q (m_timer e) _ rest eq_refl Ha) as [[E _]|[(E & _)|(_ & _ & E)]]; unfold h; rewrite E;
        [constructor|done|by destruct rest].
  - rewrite app_nil_r, <- Hw. destruct ph; unfold h; [by rewrite (proj1 (on_header_outstanding ec _ q _ ltac:(done)))|].
    by rewrite (proj1 (on_payload_outstanding ec _ q _ ltac:(done))).
  - destruct (open_finish_read h e0) as (Eo & _ & _ & _ & _ & Ec & _). destruct (log_finish_read h e0) as [El _].
    exists (if is_payload_completed o then [drop s_header_size (r_data o)] else []), (deliveries (pending_results h)).
    split; [by rewrite Ec|]. split; [unfold got, reads; by rewrite El, got_app, (got_deliveries (pending_results h))|]. split.
    + destruct ph; [unfold h; rewrite on_header_silent; apply sublist_nil_l|]. etrans; [by eapply on_payload_deliveries|].
      cbn [op]. destruct (is_payload_completed o); [|apply sublist_nil_l].
      cbn [take_pending_result read_stream_operation]. destruct (r_is_promise_resolved o); [apply sublist_nil_l|done].
    + intros [Hopen Hc]. rewrite Eo in Hopen. apply andb_true_iff in Hopen as [Hopen Hinv]. apply negb_true_iff in Hinv.
      rewrite El in Hc. apply clean_app in Hc as [Hc _]. pose proof (ri_read _ R Hc) as Hu. unfold unresolved in Hu. rewrite Eq in Hu.
      apply Forall_cons in Hu as [Hu _]. destruct ph.
      * destruct (r_add_header bytes (op d) Hph Hd Hn) as (_ & Hcomp & _). unfold o. rewrite Hcomp. unfold h. by rewrite on_header_silent.
      * unfold h in *. destruct (is_payload_completed o) eqn:Hcomp.
        -- by apply (payload_delivers ec (m_socket e) q (m_timer e) (OperationData (id d) o (timer_id d)) rest).
        -- apply sublist_nil_r. etrans; [by eapply on_payload_deliveries|]. cbn [op]. by rewrite Hcomp.
Qed.

(** *** Timers and the socket *)
Lemma moved_timeout w i e T : resolved_inv e → moved e (timeout_callback w i (with_timer T e)) [] [].
Proof.
  intros R. unfold timeout_callback. destruct w; simpl.
  - pose proof (time_out_kind i (m_socket e) (m_write e)) as [Hk Hq]. pose proof (time_out_cases i (m_socket e) (m_write e)) as [_ Hcases].
    destruct (time_out i (m_socket e) (m_write e)) as [q c]. simpl in *. set (e' := mk _ _ _ _ _ _ _ _ _ _ _ _ _ _).
    assert (log e' = log e ++ option_list c) as El by done. assert (clean (log e') → q = m_write e) as Hsame.
    { intros Hc. rewrite El in Hc. apply clean_app in Hc as [H1 H2]. apply Hq; [done|]. by apply R. }
    split; [by eexists|done| |by eapply in_same; [|exact El|exact Hk]|by eapply numbers_same; [exact El|exact Hk|]|].
    + exists (unsent e'). rewrite app_nil_r. split; [done|]. unfold unsent. simpl. split.
      * destruct (operations (m_write e)) as [|d rest]; [by rewrite Hcases|]. destruct Hcases as (d' & rest' & -> & Hs & Hd).
        assert (w_payload_buffer (op d') = w_payload_buffer (op d)) as Hp.
        { destruct Hd as [->| ->]; [done|]. simpl. by destruct (w_is_promise_resolved (op d)). }
        rewrite !fmap_cons, Hp. by apply sublist_skip, fmap_sublist.
      * intros [_ Hc]. by rewrite Hsame.
    + intros _. split; [|rewrite El; intros [Hc _]%clean_app; by apply R].
      intros Hc. simpl. rewrite (Hsame Hc). rewrite El in Hc. apply clean_app in Hc as [Hc _]. by apply R.
  - pose proof (time_out_kind i (m_socket e) (m_read e)) as [Hk Hq]. pose proof (time_out_silent i (m_socket e) (m_read e)) as Hd.
    pose proof (time_out_outstanding i (m_socket e) (m_read e)) as [Hperm _].
    destruct (time_out i (m_socket e) (m_read e)) as [q c]. simpl in *. set (e' := mk _ _ _ _ _ _ _ _ _ _ _ _ _ _).
    assert (log e' = log e ++ option_list c) as El by done.
    split; [by eexists|done|by apply out_same|..].
    + exists [], []. rewrite !app_nil_r. split_and!; try done. unfold got, reads.
      by rewrite El, got_app, (got_deliveries (option_list c)), Hd, app_nil_r.
    + unfold read_numbers, reads. rewrite El, app_nil_r, omap_app, !fmap_app, (reads_of_reads _ Hk), <- app_assoc. by f_equiv.
    + intros _. split; rewrite El; intros [Hc Hc2]%clean_app; [by apply R|]. simpl. rewrite Hq; [|done|]; by apply R.
Qed.

Lemma moved_with_timer T e : moved e (with_timer T e) [] [].
Proof. destruct (moved_refl e) as [A B C D E F]. split; [exact A..|exact B|exact C|exact D|exact E|]. intros [R1 R2]. by split. Qed.

Lemma moved_run_timer k e e' : resolved_inv e → run_timer k e = Some e' → moved e e' [] [].
Proof.
  intros R. unfold run_timer. destruct (MultipleTimer.run_handler k (m_timer e)) as [[[[w i]|] T]|]; [..|done]; intros [= <-].
  - by apply moved_timeout.
  - apply moved_with_timer.
Qed.

Lemma moved_invalidate e : moved e (invalidate e) [] [].
Proof.
  destruct (moved_refl e) as [A B C D E F]. unfold invalidate, invalidate_unsafe.
  split; [exact A| | |apply (in_same e _ []); [done|by rewrite app_nil_r|constructor]|exact E|].
  - simpl. destruct (is_open (m_socket e)) eqn:Eo; [done|by rewrite Eo].
  - by apply out_same.
  - intros [R1 R2]. by split.
Qed.
End EndpointLaws.

(** ** Two endpoints *)
Module TcpPair.
Import EndpointLaws.

Record pair : Type := Pair { ends : bool → impl }.
Implicit Types p : pair.
Definition set_end (s : bool) (e : impl) (p : pair) : pair := Pair (λ s', if decide (s' = s) then e else ends p s').

(** Sockets, timers: a socket gives a part of what the other one took. *)
Inductive work p : pair → Prop :=
| work_write s ec n e :
    (ec = operation_aborted → is_open (m_socket (ends p s)) = false) →
    write_some ec n (ends p s) = Some e → work p (set_end s e p)
| work_read s ec bytes e :
    (ec = operation_aborted → is_open (m_socket (ends p s)) = false) → Forall is_byte bytes →
    received (ends p s) ++ bytes `prefix_of` sent (ends p (negb s)) →
    read_some ec bytes (ends p s) = Some e → work p (set_end s e p)
| work_expire s k : work p (set_end s (with_timer (MultipleTimer.expire k (m_timer (ends p s))) (ends p s)) p)
| work_timer s k e : run_timer k (ends p s) = Some e → work p (set_end s e p).

#[export] Instance tcp_pipe : Pipe pair := {|
  pipe_create := Pair (λ _, create);
  Pipe.is_connected s p := is_connected (ends p s);
  Pipe.write_async s m t p := set_end s (write_async m t (ends p s)) p;
  Pipe.read_async s t p := set_end s (read_async t (ends p s)) p;
  Pipe.invalidate s p := set_end s (invalidate (ends p s)) p;
  next_write s p := next_promise (ends p s);
  next_read s p := next_promise (ends p s);
  write_results s p := writes (ends p s);
  read_results s p := reads (ends p s);
  internal := work;
  reading s p := waiting (operations (m_read (ends p s)));
  flight s p := drop (length (consumed (ends p (negb s)))) (written (ends p s)) ++ unsent (ends p s)
|}.

Record end_inv (e peer : impl) : Prop := EndInv {
  ei_writer : writer_ok e;
  ei_reader : reader_ok e;
  ei_promises : promise_inv e;
  ei_resolved : resolved_inv e;
  ei_stream : received e `prefix_of` sent peer
}.
Definition inv p : Prop := ∀ s, end_inv (ends p s) (ends p (negb s)).

Lemma clean_results cs :
  clean cs ↔ Forall (λ x, PipeOpRes.is_success x.2) (omap write_result cs) ∧
             Forall (λ x, PipeOpRes.is_success x.1.2) (omap read_result cs).
Proof.
  induction cs as [|[q r|q r m] cs IH]; [unfold clean; simpl; rewrite !Forall_nil; tauto|..]; unfold clean in *; rewrite Forall_cons, IH; simpl; rewrite Forall_cons; simpl;
    unfold PipeOpRes.is_success; rewrite bool_decide_spec; tauto.
Qed.

Lemma undisturbed_healthy p : undisturbed p ↔ ∀ s, healthy (ends p s).
Proof.
  unfold undisturbed, healthy.
  split; intros U s; destruct (U s) as [Ho Hc]; (split; [by apply Is_true_true|by apply clean_results]).
Qed.

(** Both ends moved. *)
Lemma ends_moved p p' w r :
  inv p → inv p' → (∀ s, moved (ends p s) (ends p' s) (w s) (r s)) → evolves p p' w r ∧ keeps p p' w.
Proof.
  intros I I' H.
  assert (∀ s, ∃ X ms ds, flow s p = got (ends p (negb s)) ++ flight s p ∧
     flow s p' = got (ends p (negb s)) ++ ds ++ X ∧ ds `sublist_of` ms ∧
     ms ++ X `sublist_of` flight s p ++ w s ∧
     (healthy (ends p' s) → healthy (ends p' (negb s)) → ds = ms ∧ ms ++ X = flight s p ++ w s)) as Hflow.
  { intros s. set (a := ends p s). set (b := ends p (negb s)). set (a' := ends p' s). set (b' := ends p' (negb s)).
    destruct (mv_out _ _ _ _ (H s)) as (u & Hu & Hsub & Hk). fold a a' in Hu, Hsub, Hk.
    destruct (mv_in _ _ _ _ (H (negb s))) as (ms & ds & Hc & Hg & Hds & Hkd). fold b b' in Hc, Hg, Hkd.
    assert (consumed b `prefix_of` written a) as [v Hv].
    { apply consumed_prefix; [apply (I s)|apply (I (negb s))|]. pose proof (ei_stream _ _ (I (negb s))) as Hs. by rewrite negb_involutive in Hs. }
    assert (consumed b' `prefix_of` written a') as [v' Hv'].
    { apply consumed_prefix; [apply (I' s)|apply (I' (negb s))|]. pose proof (ei_stream _ _ (I' (negb s))) as Hs. by rewrite negb_involutive in Hs. }
    exists (v' ++ unsent a'), ms, ds. unfold flow, delivered. simpl. fold a a' b b'.
    change (omap received_message (reads b)) with (got b). change (omap received_message (reads b')) with (got b').
    rewrite Hg, Hv, Hv', !drop_app_length, <- app_assoc.
    assert (ms ++ v' ++ unsent a' = v ++ u) as E.
    { rewrite Hv', Hv, Hc, <- !app_assoc in Hu. by apply app_inv_head in Hu. }
    split_and!; try done.
    - rewrite E, <- app_assoc. by apply sublist_app.
    - intros Ha Hb. split; [by apply Hkd|]. by rewrite E, (Hk Ha), app_assoc. }
  split.
  - split; intros s.
    + destruct (Hflow s) as (X & ms & ds & -> & -> & Hd & Hs & _). rewrite <- app_assoc. apply sublist_app; [done|].
      etrans; [|exact Hs]. by apply sublist_app.
    + simpl. unfold reads. destruct (mv_log _ _ _ _ (H s)) as [l ->]. rewrite omap_app. by eexists.
    + apply (mv_reads _ _ _ _ (H s)).
    + simpl. unfold is_connected. intros Ho. apply Is_true_true, (mv_open _ _ _ _ (H s)).
      by apply Is_true_true.
  - unfold keeps. rewrite !undisturbed_healthy. intros U. split.
    + intros s. destruct (U s) as [Ho Hc]. split; [by apply (mv_open _ _ _ _ (H s))|].
      destruct (mv_log _ _ _ _ (H s)) as [l Hl]. rewrite Hl in Hc. by apply clean_app in Hc as [? _].
    + intros s. destruct (Hflow s) as (X & ms & ds & -> & -> & _ & _ & Hk). destruct (Hk (U s) (U (negb s))) as [-> E].
      by rewrite E, app_assoc.
Qed.

(** One end moved. *)
Lemma end_moved s e p w r :
  inv p → moved (ends p s) e w r → writer_ok e → reader_ok e → promise_inv e →
  sent (ends p s) `prefix_of` sent e → received e `prefix_of` sent (ends p (negb s)) →
  inv (set_end s e p) ∧ evolves p (set_end s e p) (only s w) (only s r) ∧ keeps p (set_end s e p) (only s w).
Proof.
  intros I M Hw Hr Hp Hsent Hrec.
  assert (inv (set_end s e p)) as I'.
  { intros s'. pose proof (I s') as [W R Pr Re St]. unfold set_end. simpl. destruct (decide (s' = s)) as [->|Hs].
    - rewrite decide_False by (by destruct s). split; try done. apply (mv_resolved _ _ _ _ M), (ei_resolved _ _ (I s)).
    - assert (negb s' = s) as -> by (by destruct s, s'). rewrite decide_True by done. split; try done.
      assert (negb s' = s) as E by (by destruct s, s'). rewrite E in St. by etrans. }
  split; [done|]. apply ends_moved; [done..|]. intros s'. unfold set_end. simpl. destruct (decide (s' = s)) as [->|Hs].
  - by rewrite !only_same.
  - rewrite !only_other by done. apply moved_refl.
Qed.

(** Operations of the endpoints, and what the sockets and timers do. *)
Lemma sent_read_some ec bytes e e' :
  read_some ec bytes e = Some e' → sent e' = sent e ∧ received e' = received e ++ bytes.
Proof.
  unfold read_some. destruct (operations (m_read e)) as [|d rest]; [done|]. destruct (under_way (m_read e)) as [ph|]; [|done].
  case_decide; [|done].
  match goal with |- Some (finish_read ?h ?e0) = _ → _ => destruct (open_finish_read h e0) as (_ & E1 & _ & _ & E2 & _) end.
  by intros [= <-].
Qed.

Lemma sent_write_some ec n e e' :
  write_some ec n e = Some e' → sent e `prefix_of` sent e' ∧ received e' = received e.
Proof.
  unfold write_some. destruct (operations (m_write e)) as [|d rest]; [done|]. destruct (under_way (m_write e)) as [ph|]; [|done].
  case_decide; [|done].
  match goal with |- Some (finish_write ?h ?e0) = _ → _ => destruct (open_finish_write h e0) as (_ & E1 & _ & _ & E2 & _) end.
  intros <-%(inj Some). rewrite E1, E2. split; [by eexists|done].
Qed.

Lemma sent_run_timer k e e' : run_timer k e = Some e' → sent e' = sent e ∧ received e' = received e.
Proof.
  unfold run_timer, timeout_callback. destruct (MultipleTimer.run_handler k (m_timer e)) as [[[[[] i]|] T]|]; [..|done].
  - destruct (time_out _ _ _). by intros [= <-].
  - destruct (time_out _ _ _). by intros [= <-].
  - by intros [= <-].
Qed.

(** One end takes a step of the endpoint. *)
Lemma end_steps s e p w r :
  inv p → step (ends p s) e → moved (ends p s) e w r → sent (ends p s) `prefix_of` sent e →
  received e `prefix_of` sent (ends p (negb s)) →
  inv (set_end s e p) ∧ evolves p (set_end s e p) (only s w) (only s r) ∧ keeps p (set_end s e p) (only s w).
Proof.
  intros I St M Hs Hr. destruct (I s) as [W R Pr Re _].
  by apply end_moved; eauto using writer_ok_step, reader_ok_step, promise_inv_step.
Qed.

Lemma pair_write s m t p : inv p → message_ok m →
  inv (set_end s (write_async m t (ends p s)) p) ∧
  evolves p (set_end s (write_async m t (ends p s)) p) (only s [m]) (only s []) ∧
  keeps p (set_end s (write_async m t (ends p s)) p) (only s [m]).
Proof.
  intros I Hm. destruct (I s) as [W R Pr Re St].
  assert (sent (write_async m t (ends p s)) = sent (ends p s) ∧ received (write_async m t (ends p s)) = received (ends p s)) as [E1 E2].
  { unfold write_async. destruct (is_open _); [|done]. destruct (start_timer _ _ _ _).
    match goal with |- context[finish_write ?h ?e0] => destruct (open_finish_write h e0) as (_ & E1 & _ & _ & E2 & _) end. done. }
  apply end_steps; [done|by constructor|apply moved_write_async|by rewrite E1|by rewrite E2].
Qed.

Lemma pair_read s t p : inv p →
  inv (set_end s (read_async t (ends p s)) p) ∧
  evolves p (set_end s (read_async t (ends p s)) p) (only s []) (only s [next_promise (ends p s)]) ∧
  keeps p (set_end s (read_async t (ends p s)) p) (only s []).
Proof.
  intros I. destruct (I s) as [W R Pr Re St].
  assert (sent (read_async t (ends p s)) = sent (ends p s) ∧ received (read_async t (ends p s)) = received (ends p s)) as [E1 E2].
  { unfold read_async. destruct (is_open _); [|done]. destruct (start_timer _ _ _ _).
    match goal with |- context[finish_read ?h ?e0] => destruct (open_finish_read h e0) as (_ & E1 & _ & _ & E2 & _) end. done. }
  apply end_steps; [done|by constructor|by apply moved_read_async|by rewrite E1|by rewrite E2].
Qed.

Lemma pair_invalidate s p : inv p →
  inv (set_end s (invalidate (ends p s)) p) ∧
  evolves p (set_end s (invalidate (ends p s)) p) (only s []) (only s []) ∧
  keeps p (set_end s (invalidate (ends p s)) p) (only s []).
Proof. intros I. apply end_steps; [done|by constructor|apply moved_invalidate|done|apply I]. Qed.

Lemma pair_work p p' : inv p → work p p' → inv p' ∧ evolves p p' nothing nothing ∧ keeps p p' nothing.
Proof.
  intros I Hw. assert (∃ s, inv p' ∧ evolves p p' (only s []) (only s []) ∧ keeps p p' (only s [])) as (s & I' & E & K).
  { destruct Hw as [s ec n e Ha Hs|s ec bytes e Ha Hb Hp Hs|s k|s k e Hs]; exists s; destruct (I s) as [W R Pr Re St].
    - destruct (sent_write_some _ _ _ _ Hs) as [E1 E2].
      apply end_steps; [done|by eapply step_write_some|by eapply moved_write_some|done|by rewrite E2].
    - destruct (sent_read_some _ _ _ _ Hs) as [E1 E2].
      apply end_steps; [done|by eapply step_read_some|by eapply moved_read_some|by rewrite E1|by rewrite E2].
    - apply end_steps; [done|by constructor|apply moved_with_timer|done|done].
    - destruct (sent_run_timer _ _ _ Hs) as [E1 E2].
      apply end_steps; [done|by eapply step_timer|by eapply moved_run_timer|by rewrite E1|by rewrite E2]. }
  split_and!; [done|by eapply evolves_ext; [exact E|intros ?; apply only_nil..]|].
  intros U. destruct (K U) as [U' Hf]. split; [done|]. intros s'. by rewrite Hf, only_nil.
Qed.

Lemma numbers_fresh e : promise_inv e → next_promise e ∉ read_numbers e.
Proof.
  intros I Hin. assert (next_promise e ∈ promises e) as Hp.
  { unfold read_numbers in Hin. unfold promises. rewrite !elem_of_app in *. destruct Hin as [Hin|Hin]; [left|by right; right].
    apply list_elem_of_fmap in Hin as ([q m] & -> & Hin). apply list_elem_of_fmap in Hin as ([[q' r] d] & [= -> ->] & Hin).
    apply list_elem_of_omap in Hin as (c & Hc & Hr). apply list_elem_of_fmap. exists c. split; [|done].
    destruct c; [done|]. by injection Hr as -> _ _. }
  rewrite (inv_once _ I) in Hp. apply elem_of_seq in Hp. lia.
Qed.

Lemma pair_inv_create : inv (Pair (λ _, create)).
Proof.
  intros s. split; simpl; try done.
  - by apply writer_ok_reachable.
  - by apply reader_ok_reachable.
  - split; constructor.
Qed.

#[export] Program Instance tcp_pipe_laws : PipeLaws pair := {| pipe_inv := inv |}.
Next Obligation. apply pair_inv_create. Qed.
Next Obligation. done. Qed.
Next Obligation.
  intros s m t p I Hm. destruct (pair_write s m t p I Hm) as (? & E & _). split; [done|].
  by eapply evolves_ext; [exact E|done|intros ?; apply only_nil].
Qed.
Next Obligation.
  intros s t p I. destruct (pair_read s t p I) as (? & E & _). split_and!; [done| |by apply numbers_fresh, I].
  by eapply evolves_ext; [exact E|intros ?; apply only_nil|].
Qed.
Next Obligation.
  intros s p I. destruct (pair_invalidate s p I) as (? & E & _). split_and!; [done| |].
  - by eapply evolves_ext; [exact E|intros ?; apply only_nil..].
  - simpl. unfold set_end. simpl. rewrite decide_True by done. unfold is_connected, invalidate, invalidate_unsafe. simpl.
    by destruct (is_open (m_socket (ends p s))) eqn:Eo.
Qed.
Next Obligation. intros p p' I Hw. by destruct (pair_work p p' I Hw) as (? & ? & _). Qed.

(** Everything was written, and everything written has arrived. *)
Definition tcp_idle p : Prop :=
  ∀ s, operations (m_write (ends p s)) = [] ∧ received (ends p (negb s)) = sent (ends p s).

#[export] Program Instance tcp_lossless : LosslessPipe pair := {| idle := tcp_idle |}.
Next Obligation. intros s m t p I Hm. by destruct (pair_write s m t p I Hm) as (_ & _ & ?). Qed.
Next Obligation.
  intros s t p I U. destruct (pair_read s t p I) as (_ & _ & K). destruct (K U) as [U' Hf]. split; [done|].
  intros s'. by rewrite Hf, only_nil.
Qed.
Next Obligation.
  intros s p I U. destruct (pair_invalidate s p I) as (_ & _ & K). destruct (K U) as [U' Hf]. split; [done|].
  intros s'. by rewrite Hf, only_nil.
Qed.
Next Obligation. intros p p' I Hw. by destruct (pair_work p p' I Hw) as (_ & _ & ?). Qed.
Next Obligation.
  intros s p I Hi U _. destruct (Hi s) as [Hq Hr]. pose proof (proj1 (undisturbed_healthy p) U) as Hh.
  assert (consumed (ends p (negb s)) `prefix_of` written (ends p s)) as Hc.
  { apply consumed_prefix; [apply (I s)|apply (I (negb s))|by rewrite Hr]. }
  simpl. unfold unsent. rewrite Hq, app_nil_r.
  rewrite (drained_reader_has_all (ends p s) (ends p (negb s))); [apply drop_ge; lia|apply (I s)|apply (I (negb s))|done|apply Hh..|done|done].
Qed.
End TcpPair.
