(* ===== verification/WinPair.v ===== *)
(** * Two connected endpoints of a Windows pipe

    The system between the two [win_pipe_endpoint]s of a pipe in message mode: a
    message that [WriteFile] was called with is put behind those that are there
    while the call is pending, and [ReadFile] takes the rest of the oldest one, or
    fills its buffer and leaves what did not fit.  A call may fail or be aborted at
    any time. *)
From S2P Require Import Prelude RpcTypes Timer WinOperation WinPipe WinPipeFacts Pipe.
Import WinRes WinPipe.
Local Open Scope Z_scope.

Module WinPair.
Abbreviation write_side := (side WriteOperation.write_operation).
Abbreviation read_side := (side ReadOperation.read_operation).

(** ** The system *)

(** [ReadFile] at once reports full buffers; [taken] was read of the oldest
    message, and [w] are the rest of it and the messages behind. *)
Fixpoint reads_on (calls : list ReadOperation.call) (o : ReadOperation.read_operation) (taken : message)
    (w : list message) : option (message * list message) :=
  match calls with
  | ReadOperation.CallMoreData bytes :: calls' =>
      match w with
      | m :: w' =>
          let n := ReadOperation.back_size o in
          if decide (n < length m ∧ bytes = take n m)%nat then
            let '(added, o') :=
              ReadOperation.add_buffer_chunk
                (ReadOperation.add_read_bytes (Z.of_nat n) (ReadOperation.store bytes o)) in
            if (added : bool) then reads_on calls' o' (taken ++ bytes) (drop n m :: w')
            else Some (taken ++ bytes, drop n m :: w')
          else None
      | [] => None
      end
  | _ => Some (taken, w)
  end.
(** The calls the thread of the reads makes in its next task. *)
Definition answers (pipe : bool) (calls : list ReadOperation.call) (s : read_side) (taken : message)
    (w : list message) : option (message * list message) :=
  match thread s with
  | DoStart p :: _ | Rest p :: _ =>
      match heap s !! p with
      | Some so => reads_on (if pipe then calls else [ReadOperation.CallError]) (the_op so) taken w
      | None => None
      end
  | _ => Some (taken, w)
  end.
(** A pending read ends. *)
Definition gives (st : io_status) (s : read_side) (taken : message) (w : list message) : option (message * list message) :=
  match ios s with
  | Pending p _ :: _ =>
      match heap s !! p, st, w with
      | Some so, IoSuccess bytes, m :: w' =>
          if decide (bytes = m ∧ length m ≤ ReadOperation.back_size (the_op so))%nat then Some ([], w') else None
      | Some so, IoMoreData bytes, m :: w' =>
          let n := ReadOperation.back_size (the_op so) in
          if decide (n < length m ∧ bytes = take n m)%nat then Some (taken ++ bytes, drop n m :: w') else None
      | Some _, (IoAborted _ | IoError _), _ => Some (taken, w)
      | _, _, _ => None
      end
  | _ => None
  end.

(** ** The pair

    [wire s] are messages of the side [s] in the system, the oldest without what
    the other side has [taken] of it; [moved s]: the message of the pending write of
    [s] is among them.  Reads and writes of a side are numbered: those that were
    refused have odd numbers, those that were queued even ones; [results] are the
    results of the reads in order. *)
Record pair : Type := Pair {
  ends : bool → impl;
  wire : bool → list message;
  taken : bool → message;
  moved : bool → bool;
  results : bool → list (nat * PipeOpRes.pipe_op_res * message);
  refused_writes : bool → nat;
  refused_reads : bool → nat
}.
Implicit Types p : pair.

Definition upd {A} (s : bool) (x : A) (f : bool → A) : bool → A := λ s', if decide (s' = s) then x else f s'.

Definition create_pair : pair := Pair (λ _, create) (λ _, []) (λ _, []) (λ _, false) (λ _, []) (λ _, 0%nat) (λ _, 0%nat).

(** A read succeeds with known bytes only. *)
Definition known (v : list (option Z)) : message := omap (λ x, x) v.
Definition to_result (c : nat * option PipeOpRes.pipe_op_res * list (option Z)) : nat * PipeOpRes.pipe_op_res * message :=
  ((2 * c.1.1)%nat, default PipeOpRes.failed c.1.2, known c.2).
(** The endpoint of [s] moves on; results it publishes are added. *)
Definition set_end (s : bool) (e : impl) p : pair :=
  Pair (upd s e (ends p)) (wire p) (taken p) (moved p)
    (upd s (results p s ++ (to_result <$> drop (length (log (reads (ends p s)))) (log (reads e)))) (results p))
    (refused_writes p) (refused_reads p).
Definition set_moved (s b : bool) p : pair :=
  Pair (ends p) (wire p) (taken p) (upd s b (moved p)) (results p) (refused_writes p) (refused_reads p).
(** What the side [s] has read. *)
Definition set_taken (s : bool) (t : message) (w : list message) p : pair :=
  Pair (ends p) (upd (negb s) w (wire p)) (upd s t (taken p)) (moved p) (results p)
    (refused_writes p) (refused_reads p).

Definition buffer_of (s : write_side) (q : nat) : message :=
  match heap s !! q with Some so => WriteOperation.m_buffer (the_op so) | None => [] end.
Definition transfer (s : bool) (q : nat) p : pair :=
  set_moved s true
    (Pair (ends p) (upd s (wire p s ++ [buffer_of (writes (ends p s)) q]) (wire p)) (taken p) (moved p) (results p)
          (refused_writes p) (refused_reads p)).

(** A refused call has a future that is ready, [failed]. *)
Definition refuse_write (s : bool) p : pair :=
  Pair (ends p) (wire p) (taken p) (moved p) (results p) (upd s (S (refused_writes p s)) (refused_writes p)) (refused_reads p).
Definition refuse_read (s : bool) p : pair :=
  Pair (ends p) (wire p) (taken p) (moved p)
    (upd s (results p s ++ [((2 * refused_reads p s + 1)%nat, PipeOpRes.failed, [])]) (results p))
    (refused_writes p) (upd s (S (refused_reads p s)) (refused_reads p)).

(** The operations.  Identifiers are not used up within a run: a call that would
    use the last one counts as refused. *)
Definition room {Op} (s : side Op) : bool := m_next_op_id s <? 2 ^ 64 - 1.
Definition takes_write (s : bool) p : bool := m_pipe (ends p s) && room (writes (ends p s)).
Definition takes_read (s : bool) p : bool := m_pipe (ends p s) && room (reads (ends p s)).
Definition pair_write (s : bool) (m : message) (t : option Z) p : pair :=
  if takes_write s p then set_end s (write_async m t (ends p s)).2 p else refuse_write s p.
Definition pair_read (s : bool) (t : option Z) p : pair :=
  if takes_read s p then set_end s (read_async t (ends p s)).2 p else refuse_read s p.

(** What happens without a call of the application. *)
Inductive work p : pair → Prop :=
| work_write_task s calls t :
    run_task (m_pipe (ends p s)) calls (writes (ends p s)) = Some t →
    work p (set_end s (with_writes t (ends p s)) p)
| work_transfer s q ab l :
    ios (writes (ends p s)) = Pending q ab :: l → moved p s = false → work p (transfer s q p)
| work_write_io s st t :
    ((∃ bytes, st = IoSuccess bytes) → moved p s = true) → io_ends st (writes (ends p s)) = Some t →
    work p (set_end s (with_writes t (ends p s)) p)
| work_write_packet s t :
    run_worker (writes (ends p s)) = Some t →
    work p (set_moved s false (set_end s (with_writes t (ends p s)) p))
| work_write_late s n t :
    resolve_timed_out n (writes (ends p s)) = Some t → work p (set_end s (with_writes t (ends p s)) p)
| work_read_task s calls t tk w :
    run_task (m_pipe (ends p s)) calls (reads (ends p s)) = Some t →
    answers (m_pipe (ends p s)) calls (reads (ends p s)) (taken p s) (wire p (negb s)) = Some (tk, w) →
    work p (set_taken s tk w (set_end s (with_reads t (ends p s)) p))
| work_read_io s st t tk w :
    io_ends st (reads (ends p s)) = Some t →
    gives st (reads (ends p s)) (taken p s) (wire p (negb s)) = Some (tk, w) →
    work p (set_taken s tk w (set_end s (with_reads t (ends p s)) p))
| work_read_packet s t :
    run_worker (reads (ends p s)) = Some t → work p (set_end s (with_reads t (ends p s)) p)
| work_read_late s n t :
    resolve_timed_out n (reads (ends p s)) = Some t → work p (set_end s (with_reads t (ends p s)) p)
| work_write_callback s n e : write_callback n (ends p s) = Some e → work p (set_end s e p)
| work_read_callback s n e : read_callback n (ends p s) = Some e → work p (set_end s e p)
| work_write_callback_end s n e : write_callback_end n (ends p s) = Some e → work p (set_end s e p)
| work_read_callback_end s n e : read_callback_end n (ends p s) = Some e → work p (set_end s e p)
| work_expire s k : work p (set_end s (with_timer (MultipleTimer.expire k (m_timer (ends p s))) (ends p s)) p)
| work_timer s k e : run_timer k (ends p s) = Some e → work p (set_end s e p).

(** ** What is on its way *)

(** Operations for which no call was made; the write of the system whose message
    is not there yet. *)
Definition to_start {Op} (s : side Op) : list nat := op <$> unstarted s.
Definition to_move {Op} (moved : bool) (s : side Op) : list nat :=
  if moved then [] else match ios s with (Pending q _ | Packet q _) :: _ => [q] | [] => [] end.
Definition unsent (moved : bool) (s : write_side) : list message := buffer_of s <$> (to_move moved s ++ to_start s).

(** Messages that were read and are not published yet. *)
Definition bytes_read (o : ReadOperation.read_operation) : message := known (concat (ReadOperation.m_buffers o)).
Definition read_of (s : read_side) (q : nat) : message :=
  match heap s !! q with Some so => bytes_read (the_op so) | None => [] end.
Definition succeeded (r : resolved) : option message :=
  if decide (r_res r = success) then Some (known (r_value r)) else None.
Definition in_packet (s : read_side) : list message :=
  match ios s with Packet q (IoSuccess bytes) :: _ => [read_of s q ++ bytes] | _ => [] end.
Definition arrived (s : read_side) : list message := omap succeeded (callbacks s) ++ in_packet s.
(** The oldest message is whole again. *)
Definition attach (taken : message) (w : list message) : list message :=
  match w with [] => [] | m :: w' => (taken ++ m) :: w' end.

Definition queued_reads (s : read_side) : list nat := answered s ++ resolving s ++ tokens s ++ (op <$> tail (m_ops s)).

(** Writes whose result is decided. *)
Definition decided_writes (s : write_side) : list (nat * PipeOpRes.pipe_op_res) :=
  ((λ c, (c.1.1, default PipeOpRes.failed c.1.2)) <$> log s) ++
  ((λ r, (op (r_data r), default PipeOpRes.failed (to_pipe_op_res (r_res r)))) <$> callbacks s) ++
  ((λ q, (q, default PipeOpRes.failed (heap s !! q ≫= λ so, to_pipe_op_res (op_res (the_op so))))) <$> resolving s).

#[export] Instance win_pipe : Pipe pair := {|
  pipe_create := create_pair;
  Pipe.is_connected s p := is_connected (ends p s);
  Pipe.write_async := pair_write;
  Pipe.read_async := pair_read;
  Pipe.invalidate s p := set_end s (invalidate (ends p s)) p;
  next_write s p := if takes_write s p then (2 * next_op (writes (ends p s)))%nat else (2 * refused_writes p s + 1)%nat;
  next_read s p := if takes_read s p then (2 * next_op (reads (ends p s)))%nat else (2 * refused_reads p s + 1)%nat;
  write_results s p :=
    (prod_map (λ q, 2 * q)%nat (λ r, r) <$> decided_writes (writes (ends p s))) ++
    ((λ k, ((2 * k + 1)%nat, PipeOpRes.failed)) <$> seq 0 (refused_writes p s));
  read_results s p := results p s;
  internal := work;
  reading s p := (λ q, 2 * q)%nat <$> queued_reads (reads (ends p s));
  flight s p :=
    arrived (reads (ends p (negb s))) ++ attach (taken p (negb s)) (wire p s) ++ unsent (moved p s) (writes (ends p s))
|}.
End WinPair.
