(* ===== verification/WinPairFacts.v ===== *)
(** * The writes of a Windows pipe on their way

    The messages that a side was asked to write and the system does not have yet
    change with a step of the endpoint only as far as a write fails, and then the
    failure is on record. *)
From S2P Require Import Prelude RpcTypes Timer WinOperation WinPipe WinPipeFacts Pipe WinPair.
Import WinRes WinPipe WinPair.
Local Open Scope Z_scope.

(** ** Operations that are not done have not succeeded *)
Section side.
Context {Op : Type} `{OperationLaws Op}.
Implicit Types s : side Op.

Definition undone s (p : nat) : Prop := ∀ so, heap s !! p = Some so → op_res (the_op so) ≠ success.
Definition in_work s : list nat := tokens s ++ resolving s ++ (op <$> tail (m_ops s)).
Definition undone_inv (lost : list nat) s : Prop := ∀ p, p ∈ lost ++ in_work s → undone s p.

Lemma undone_sub lost lost' s s' :
  heap s' = heap s → lost' ++ in_work s' ⊆ lost ++ in_work s → undone_inv lost s → undone_inv lost' s'.
Proof. intros Hh Hs U p Hp so. rewrite Hh. by apply U, Hs. Qed.

Lemma undone_update lost f q s :
  (∀ so, heap s !! q = Some so → op_res (f (the_op so)) = success → op_res (the_op so) = success) →
  undone_inv lost s → undone_inv lost (update f q s).
Proof.
  intros Hf U p Hp so. simpl. destruct (decide (q = p)) as [->|Hne]; [rewrite lookup_alter_eq|rewrite lookup_alter_ne by done].
  - intros (so0 & Hso & ->)%fmap_Some. simpl. intros E%Hf; [|done]. by eapply U.
  - by apply U.
Qed.
Lemma undone_set_result lost f q s :
  (∀ r, f r = success → r = success) → undone_inv lost s → undone_inv lost (set_result f q s).
Proof. intros Hf. apply undone_update. intros so _. rewrite op_res_with. apply Hf. Qed.

Lemma failed_not_success r : set_failed_if_possible r = success → r = success.
Proof. by destruct r. Qed.
Lemma canceled_not_success r : set_canceled_if_possible r = success → r = success.
Proof. by destruct r. Qed.
Lemma timeout_not_success r : set_timeout_if_possible r = success → r = success.
Proof. by destruct r. Qed.

(** A promise that is resolved on its way fails. *)
Lemma resolve_result p s s' :
  resolve p s = Some s' →
  ∃ so, heap s !! p = Some so ∧
        s' = with_callbacks (callbacks s ++ [Resolved (captured so) (op_res (the_op so)) (op_value (the_op so)) false]) s.
Proof. unfold resolve. intros (so & Hso & ->)%fmap_Some. by exists so. Qed.
Lemma undone_resolve lost p s s' : undone_inv (p :: lost) s → resolve p s = Some s' → undone_inv lost s'.
Proof.
  intros U Hr. apply resolve_result in Hr as (so & _ & Hr). subst s'.
  eapply undone_sub, U; [done|]. simpl. intros q Hq. by right.
Qed.

Lemma undone_start_io lost pipe calls p s s' :
  undone_inv (p :: lost) s → start_io pipe calls p s = Some s' → undone_inv lost s'.
Proof.
  intros U. unfold start_io. destruct (heap s !! p) as [so|] eqn:Hso; [|done].
  set (cs := if pipe then calls else _). pose proof (op_res_start cs (the_op so)) as Hr.
  destruct (op_start cs (the_op so)) as [ec o]. simpl in Hr.
  assert (undone_inv (p :: lost) (update (λ _, o) p s)) as U1.
  { apply undone_update; [|done]. intros so' Hso' E. rewrite Hso in Hso'. simplify_eq. by rewrite <- Hr. }
  destruct ec.
  - apply undone_resolve, undone_set_result; [exact failed_not_success|done].
  - intros [= <-]. eapply undone_sub, U1; [done|]. unfold in_work, tokens. simpl. rewrite fmap_app. simpl. clear. set_solver.
Qed.

Lemma undone_run_task pipe calls s s' : undone_inv [] s → run_task pipe calls s = Some s' → undone_inv [] s'.
Proof.
  intros U. unfold run_task. destruct (thread s) as [|t ts] eqn:Ht; [done|].
  assert (undone_inv (option_list (task_op t)) (with_thread ts s)) as U1.
  { eapply undone_sub, U; [done|]. unfold in_work, tokens. rewrite Ht. simpl. destruct (task_op t); simpl; clear; set_solver. }
  destruct t as [p|p|p|p]; simpl in U1.
  - destruct (heap _ !! p); [|done]. case_decide; [|by apply undone_resolve]. intros [= <-].
    eapply undone_sub, U; [done|]. unfold in_work, tokens. rewrite Ht. simpl. done.
  - apply undone_start_io. eapply undone_sub, U1; done.
  - by apply undone_start_io.
  - intros (so & Hso & ->)%fmap_Some. destruct (op_cancels _); [|done]. eapply undone_sub, U1; [done|].
    unfold in_work, tokens. simpl. by rewrite io_op_abortable.
Qed.

Lemma undone_io_ends st s s' : undone_inv [] s → io_ends st s = Some s' → undone_inv [] s'.
Proof.
  intros U. unfold io_ends. destruct (ios s) as [|[p ab|] l] eqn:Hi; [done| |done]. case_match; [done|]. intros [= <-].
  eapply undone_sub, U; [done|]. unfold in_work, tokens. rewrite Hi. done.
Qed.

Lemma undone_token s p : undone_inv [] s → p ∈ tokens s → undone s p.
Proof. intros U Hp. apply U. unfold in_work. simpl. rewrite elem_of_app. by left. Qed.
(** The thread and the system have one operation at most, the oldest one. *)
Lemma tokens_one pipe s p l :
  side_inv [] pipe s → tokens s = p :: l →
  l = [] ∧ (∃ d k, m_ops s = d :: k ∧ op d = p) ∧ p ∉ answered s ++ resolving s ++ (op <$> tail (m_ops s)).
Proof.
  intros I Ht. pose proof (side_accounted_once _ _ _ p I) as Ho. unfold accounted in Ho.
  rewrite Ht, !occ_app, occ_cons, decide_True in Ho by done.
  destruct (si_tokens _ _ _ I p) as (d & Hd & Hp); [rewrite Ht; by left|]. split_and!.
  - destruct l as [|q l]; [done|]. exfalso.
    destruct (si_tokens _ _ _ I q) as (d' & Hd' & <-); [rewrite Ht; right; by left|].
    simplify_eq. rewrite occ_cons, decide_True in Ho by done. lia.
  - destruct (m_ops s) as [|d0 k]; [done|]. simplify_eq/=. by eexists _, _.
  - rewrite !not_elem_of_app. split_and!; intros Hin%occ_elem; lia.
Qed.
Lemma task_alone pipe t ts p s :
  side_inv [] pipe s → thread s = t :: ts → task_op t = Some p →
  ios s = [] ∧ omap task_op ts = [] ∧ ∃ d k, m_ops s = d :: k ∧ op d = p.
Proof.
  intros I Ht Hp. destruct (tokens_one pipe s p (omap task_op ts ++ (io_op <$> ios s)) I) as ([E1 E2%fmap_nil_inv]%app_nil & ? & _).
  - unfold tokens. rewrite Ht. simpl. by rewrite Hp.
  - done.
Qed.
Lemma io_alone pipe i l s :
  side_inv [] pipe s → ios s = i :: l → l = [] ∧ omap task_op (thread s) = [] ∧ ∃ d k, m_ops s = d :: k ∧ op d = io_op i.
Proof.
  intros I Hi. assert (io_op i ∈ tokens s) as Hin by (unfold tokens; rewrite Hi, elem_of_app; right; by left).
  destruct (tokens s) as [|p k] eqn:Et; [by apply elem_of_nil in Hin|].
  destruct (tokens_one _ _ _ _ I Et) as (-> & Hd & _). apply list_elem_of_singleton in Hin as <-.
  unfold tokens in Et. rewrite Hi in Et. simpl in Et. destruct (omap task_op (thread s)) as [|q k]; simpl in Et.
  - injection Et as E%fmap_nil_inv. done.
  - injection Et as _ E. by destruct k.
Qed.
(** A promise of the oldest operation has its value. *)
Lemma answer_alone pipe d k s : side_inv [] pipe s → m_ops s = d :: k → op d ∈ answered s → tokens s = [].
Proof.
  intros I Hq Hin. destruct (tokens s) as [|p l] eqn:Et; [done|].
  destruct (tokens_one _ _ _ _ I Et) as (_ & (d' & k' & Hd & <-) & Hn). rewrite Hq in Hd. simplify_eq.
  destruct Hn. rewrite elem_of_app. by left.
Qed.
Lemma no_start_tasks ts : omap task_op ts = [] → existsb WinPipeFacts.is_start ts = false.
Proof. induction ts as [|[] ts IH]; simpl; [done..|]. exact IH. Qed.

Lemma undone_run_worker pipe s s' : side_inv [] pipe s → undone_inv [] s → run_worker s = Some s' → undone_inv [] s'.
Proof.
  intros I U. unfold run_worker. destruct (ios s) as [|[|p st] l] eqn:Hi; [done..|].
  destruct (io_alone _ _ _ _ I Hi) as (-> & Ht & _). destruct (heap s !! p) as [so|] eqn:Hso; [|done].
  assert (p ∉ resolving s ++ (op <$> tail (m_ops s))) as Hp.
  { destruct (tokens_one pipe s p [] I) as (_ & _ & Hn); [unfold tokens; by rewrite Ht, Hi|].
    intros Hin. apply Hn. rewrite elem_of_app. by right. }
  destruct (op_packet st (the_op so)) as [o|o] eqn:Ep.
  - intros (so' & _ & ->)%resolve_result. intros q Hq so1.
    assert (q ∈ resolving s ++ (op <$> tail (m_ops s))) as Hq' by (unfold in_work, tokens in Hq; simpl in Hq; by rewrite Ht in Hq).
    simpl. rewrite lookup_alter_ne by (intros ->; done). apply U. simpl. unfold in_work. rewrite elem_of_app. by right.
  - apply op_packet_more in Ep. intros [= <-].
    assert (undone_inv [] (update (λ _, o) p s)) as U1.
    { apply undone_update; [|done]. intros so' Hso' E. rewrite Hso in Hso'. simplify_eq. by rewrite <- Ep. }
    eapply undone_sub, U1; [done|]. unfold in_work, tokens. simpl. rewrite Hi, omap_app. simpl. clear. set_solver.
Qed.

Lemma undone_resolve_timed_out n s s' : undone_inv [] s → resolve_timed_out n s = Some s' → undone_inv [] s'.
Proof.
  intros U. unfold resolve_timed_out. destruct (resolving s !! n) as [p|] eqn:Hn; [|done].
  apply undone_resolve. eapply undone_sub, U; [done|]. unfold in_work. simpl.
  pose proof (list_elem_of_lookup_2 _ _ _ Hn). pose proof (sublist_delete (resolving s) n) as Hs.
  intros q. rewrite elem_of_cons, !elem_of_app. simpl. intros [->|[?|[?|?]]]; [by auto| by auto| |by auto].
  right. left. by eapply elem_of_sublist.
Qed.

Lemma undone_check_callback n r s s' : undone_inv [] s → check_callback n s = Some (r, s') → undone_inv [] s'.
Proof.
  intros U. unfold check_callback. destruct (callbacks s !! n); [|done]. case_match; [done|]. by intros [= <- <-].
Qed.

Lemma undone_finish_callback n r s : undone_inv [] s → undone_inv [] (finish_callback n r s).1.
Proof.
  intros U. unfold finish_callback, complete_op. simpl. destruct (m_ops s) as [|d l] eqn:Hq; [simpl|case_decide; simpl].
  - eapply undone_sub, U; [done|]. unfold in_work. simpl. by rewrite Hq.
  - eapply undone_sub, U; [by destruct l|]. unfold in_work, tokens. rewrite Hq. destruct l; simpl; [clear; set_solver|].
    rewrite omap_app. simpl. clear. set_solver.
  - eapply undone_sub, U; [done|]. unfold in_work. simpl. by rewrite Hq.
Qed.

Lemma undone_cancel_op_by_timeout i s : undone_inv [] s → undone_inv [] (cancel_op_by_timeout i s).
Proof.
  intros U. unfold cancel_op_by_timeout. destruct (list_find _ (m_ops s)) as [[n d]|] eqn:Ef; [|done].
  apply list_find_Some in Ef as (Hn & _ & _).
  assert (undone_inv [] (set_result set_timeout_if_possible (op d) s)) as U1 by (apply undone_set_result; [exact timeout_not_success|done]).
  cbn [m_ops set_result update]. case_decide as Hh.
  - eapply undone_sub, U1; [done|]. unfold in_work, tokens. simpl. rewrite omap_app. simpl. by rewrite app_nil_r.
  - eapply undone_sub, U1; [done|]. unfold in_work, tokens. simpl. destruct (m_ops s) as [|d0 l]; [done|].
    destruct n as [|n]; [by simplify_eq/=|]. simpl in *. pose proof (list_elem_of_lookup_2 _ _ _ Hn) as Hin.
    pose proof (sublist_delete l n) as Hs. intros q. rewrite !elem_of_app, list_elem_of_singleton.
    intros [?|[[?| ->]|?]]; [by auto|by auto|..]; right; right; [by apply list_elem_of_fmap_2|].
    eapply elem_of_sublist; [done|]. by apply fmap_sublist.
Qed.

Lemma undone_push o tid s : op_res o ≠ success → undone_inv [] s → undone_inv [] (push o tid s).
Proof.
  intros Ho U p Hp so Hso.
  assert (heap (push o tid s) = <[next_op s := SharedOp o (OpData (m_next_op_id s) tid (next_op s))]> (heap s)) as Hh
    by (unfold push; by case_decide).
  rewrite Hh in Hso. destruct (decide (next_op s = p)) as [<-|Hne].
  - rewrite lookup_insert_eq in Hso. by simplify_eq.
  - rewrite lookup_insert_ne in Hso by done. eapply U; [|done]. simpl.
    assert (in_work (push o tid s) ⊆ next_op s :: in_work s) as Hs.
    { unfold push, in_work, tokens. rewrite length_app. simpl. destruct (m_ops s) as [|d l]; simpl.
      - rewrite omap_app. simpl. clear. set_solver.
      - case_decide; [simpl in *; lia|]. simpl. rewrite fmap_app. simpl. clear. set_solver. }
    apply Hs, elem_of_cons in Hp as [?|?]; [by subst|done].
Qed.

Lemma undone_invalidate_side by_cancel s : undone_inv [] s → undone_inv [] (invalidate_side by_cancel s).
Proof.
  intros U. unfold invalidate_side. set (f := if by_cancel then _ else _).
  assert (∀ r, f r = success → r = success) as Hf.
  { unfold f. destruct by_cancel; [exact canceled_not_success|exact failed_not_success]. }
  assert (∀ q s, undone_inv [] s → undone_inv [] (foldl (λ s d, set_result f (op d) s) s q)) as Hq.
  { induction q as [|d q IH]; intros s1 U1; simpl; [done|]. apply IH. by apply undone_set_result. }
  eapply undone_sub, (Hq (m_ops s)), U; [done|]. unfold in_work, tokens. simpl. by rewrite io_op_abortable.
Qed.
End side.

(** ** The writes *)
Implicit Types (m : bool) (s : write_side).

Definition clean {Op} (s : side Op) : Prop :=
  Forall (λ c, c.1.2 = Some PipeOpRes.success) (log s) ∧ Forall (λ r, r_res r = success) (callbacks s) ∧ resolving s = [].

Record write_inv m s : Prop := {
  wi_undone : undone_inv [] s;
  wi_moved : m = true → ios s ≠ [];
  wi_packet q bytes : Packet q (IoSuccess bytes) ∈ ios s → m = true;
  wi_rest q : Rest q ∉ thread s
}.

(** Of the messages on their way some may be dropped, if a write fails. *)
Record write_kept m s m' s' (new : list message) : Prop := {
  wk_log : log s `prefix_of` log s';
  wk_unsent : unsent m' s' `sublist_of` unsent m s ++ new;
  wk_clean : clean s' → clean s;
  wk_same : clean s' → unsent m' s' = unsent m s ++ new
}.

Definition pending m s : list nat := to_move m s ++ to_start s.

Lemma kept_intro m s m' s' :
  (∀ q, buffer_of s' q = buffer_of s q) → log s `prefix_of` log s' → pending m' s' `sublist_of` pending m s →
  (clean s' → clean s ∧ pending m' s' = pending m s) → write_kept m s m' s' [].
Proof.
  intros Hb Hl Hs Hc.
  assert (∀ l, buffer_of s' <$> l = buffer_of s <$> l) as Hf by (intros l; by apply list_fmap_ext).
  split; [done|..]; unfold unsent; fold (pending m' s') (pending m s); rewrite ?app_nil_r, ?Hf.
  - by apply fmap_sublist.
  - by intros [? _]%Hc.
  - by intros [_ ->]%Hc.
Qed.
Lemma kept_refl m s : write_kept m s m s [].
Proof. by apply kept_intro. Qed.
Lemma kept_trans m1 s1 m2 s2 m3 s3 : write_kept m1 s1 m2 s2 [] → write_kept m2 s2 m3 s3 [] → write_kept m1 s1 m3 s3 [].
Proof.
  intros [L1 U1 C1 S1] [L2 U2 C2 S2]. rewrite app_nil_r in *. split; rewrite ?app_nil_r; [by etrans..|by auto|].
  intros Hc. by rewrite S2, S1 by auto.
Qed.

(** *** Buffers stay *)
Lemma buffer_of_update f p s q :
  (∀ so, heap s !! p = Some so → WriteOperation.m_buffer (f (the_op so)) = WriteOperation.m_buffer (the_op so)) →
  buffer_of (update f p s) q = buffer_of s q.
Proof.
  intros Hf. unfold buffer_of. simpl. destruct (decide (p = q)) as [->|Hne]; [rewrite lookup_alter_eq|by rewrite lookup_alter_ne].
  destruct (heap s !! q) as [so|] eqn:E; [|done]. simpl. by apply Hf.
Qed.
Lemma buffer_of_set_result f p s q : buffer_of (set_result f p s) q = buffer_of s q.
Proof. by apply buffer_of_update. Qed.
Lemma buffer_of_set_results f l s q : buffer_of (foldl (λ s d, set_result f (op d) s) s l) q = buffer_of s q.
Proof. revert s. induction l as [|d l IH]; intros s; [done|]. simpl. rewrite IH. apply buffer_of_set_result. Qed.
Lemma update_start (pipe : bool) calls p s so :
  heap s !! p = Some so → update (λ _, (op_start (if pipe then calls else [ReadOperation.CallError]) (the_op so)).2) p s = s.
Proof.
  intros Hso. destruct s. unfold update. simpl in *. f_equal. apply map_eq. intros i.
  destruct (decide (p = i)) as [->|Hne]; [rewrite lookup_alter_eq, Hso; by destruct so|by rewrite lookup_alter_ne].
Qed.

(** *** A promise gets its value *)
Lemma resolve_clean {Op} `{OperationLaws Op} p (s s' : side Op) :
  resolve p s = Some s' → clean s' → clean s ∧ ¬ undone s p.
Proof.
  intros (so & Hso & ->)%resolve_result (Hl & Hc & Hr). simpl in *. apply Forall_app in Hc as [Hc [Hx _]%Forall_cons].
  split; [done|]. intros U. by apply (U so).
Qed.
Lemma resolve_rest {Op} `{OperationLaws Op} p (s s' : side Op) :
  resolve p s = Some s' →
  m_ops s' = m_ops s ∧ heap s' = heap s ∧ thread s' = thread s ∧ ios s' = ios s ∧ resolving s' = resolving s ∧ log s' = log s.
Proof. by intros (so & _ & ->)%resolve_result. Qed.
(** Its operation was to be started or moved. *)
Lemma kept_resolve m s m' s0 s' p :
  resolve p s0 = Some s' → undone s0 p → (∀ q, buffer_of s0 q = buffer_of s q) → log s0 = log s →
  pending m' s0 `sublist_of` pending m s → write_kept m s m' s' [].
Proof.
  intros Hr Hu Hb Hl Hs. destruct (resolve_rest _ _ _ Hr) as (E1 & E2 & E3 & E4 & E5 & E6). apply kept_intro.
  - intros q. rewrite <- Hb. unfold buffer_of. by rewrite E2.
  - by rewrite E6, Hl.
  - assert (pending m' s' = pending m' s0) as ->; [|done].
    unfold pending, to_move, to_start, unstarted. by rewrite E1, E3, E4.
  - intros Hc. by destruct (resolve_clean _ _ _ Hr Hc).
Qed.
Lemma write_inv_resolve m s0 s' p : resolve p s0 = Some s' → write_inv m s0 → write_inv m s'.
Proof.
  intros Hr [U M P R]. destruct (resolve_rest _ _ _ Hr) as (E1 & E2 & E3 & E4 & E5 & E6).
  split; rewrite ?E3, ?E4; try done. eapply undone_sub, U; [done|]. unfold in_work, tokens. by rewrite E1, E3, E4, E5.
Qed.

Definition is_success (st : io_status) : Prop := match st with IoSuccess _ => True | _ => False end.
#[export] Instance is_success_dec st : Decision (is_success st).
Proof. destruct st; apply _. Defined.

(** *** The thread and the system *)
Lemma unstarted_take {Op} `{OperationLaws Op} t ts (s : side Op) :
  thread s = t :: ts → unstarted (with_thread ts s) `sublist_of` unstarted s.
Proof.
  intros Ht. unfold unstarted. rewrite Ht. simpl. destruct (existsb _ ts); [by rewrite orb_true_r|].
  destruct (WinPipeFacts.is_start t); simpl; [|done]. destruct (m_ops s); [done|by apply sublist_cons].
Qed.
Lemma pending_take m t ts s : thread s = t :: ts → pending m (with_thread ts s) `sublist_of` pending m s.
Proof. intros Ht. apply sublist_app; [done|]. by eapply fmap_sublist, unstarted_take. Qed.
Lemma pending_abortable m s : pending m (with_ios (abortable <$> ios s) s) = pending m s.
Proof. unfold pending, to_move. simpl. by destruct m, (ios s) as [|[] l]. Qed.

Lemma write_start_io pipe calls m p ts s s' :
  side_inv [] pipe s → write_inv m s → thread s = DoStart p :: ts →
  start_io pipe calls p (with_started (started s ++ [p]) (with_thread ts s)) = Some s' →
  write_inv m s' ∧ write_kept m s m s' [].
Proof.
  intros I W Ht. destruct (task_alone _ _ _ p _ I Ht eq_refl) as (Hi & Hts & d & k & Hq & Hd).
  assert (m = false) as -> by (destruct m; [by destruct (wi_moved _ _ W)|done]).
  set (s0 := with_started _ _). intros Hs. pose proof Hs as Hs'. unfold start_io in Hs.
  destruct (heap s0 !! p) as [so|] eqn:Hso; [|done].
  pose proof (update_start pipe calls p s0 so Hso) as Eu. simpl in Eu.
  assert (∀ q, Rest q ∉ ts) as Hr by (intros q Hin; apply (wi_rest _ _ W q); rewrite Ht; by right).
  assert (undone_inv [p] s0) as U.
  { eapply undone_sub, (wi_undone _ _ W); [done|]. unfold in_work, tokens. rewrite Ht. simpl. done. }
  assert (write_inv false s0) as W0.
  { split; [|done| |done].
    - eapply undone_sub, U; [done|]. intros q. simpl. by right.
    - simpl. intros q bytes Hin. rewrite Hi in Hin. by apply elem_of_nil in Hin. }
  simpl in Hs. destruct (WriteOperation.start _).
  - rewrite Eu in Hs. split.
    + eapply write_inv_resolve; [done|]. split; try apply W0.
      apply undone_set_result; [exact failed_not_success|apply W0].
    + eapply (kept_resolve _ _ _ (set_result set_failed_if_possible p s0)); [done| | |done|].
      * assert (undone_inv [p] (set_result set_failed_if_possible p s0)) as U1 by (apply undone_set_result; [exact failed_not_success|done]).
        apply U1. by left.
      * intros q. by rewrite buffer_of_set_result.
      * exact (pending_take false _ _ _ Ht).
  - rewrite Eu in Hs. apply (inj Some) in Hs. rewrite <- Hs. split.
    + split; [|done| |done].
      * rewrite Hs. by eapply undone_start_io.
      * simpl. intros q bytes Hin. rewrite Hi in Hin. by apply list_elem_of_singleton in Hin.
    + assert (pending false (with_ios (ios s0 ++ [Pending p false]) s0) = pending false s) as Ep.
      { unfold pending, to_move, to_start, unstarted. simpl. by rewrite Hi, Ht, Hq, <- Hd, no_start_tasks. }
      apply kept_intro; [done|done|..]; by rewrite <- Ep.
Qed.

Lemma write_run_task pipe calls m s s' :
  side_inv [] pipe s → write_inv m s → run_task pipe calls s = Some s' → write_inv m s' ∧ write_kept m s m s' [].
Proof.
  intros I W Hs. pose proof (undone_run_task _ _ _ _ (wi_undone _ _ W) Hs) as U. pose proof Hs as Hs0. unfold run_task in Hs.
  destruct (thread s) as [|t ts] eqn:Ht; [done|].
  assert (∀ q, Rest q ∉ ts) as Hr by (intros q Hin; apply (wi_rest _ _ W q); rewrite Ht; by right).
  destruct t as [p|p|p|p].
  - destruct (heap _ !! p) as [so|] eqn:Hso; [|done]. case_decide as Hu.
    + simplify_eq. split; [split; [done|apply W..|]|].
      * simpl. intros q [?|?]%elem_of_cons; [done|by eapply Hr].
      * apply kept_intro; [done|done|..]; unfold pending, to_start, unstarted; simpl; by rewrite Ht.
    + destruct (resolve_rest _ _ _ Hs) as (_ & _ & E3 & E4 & _). split.
      * split; rewrite ?E3, ?E4; [done|apply W..|done].
      * eapply kept_resolve; [done| |done|done|by eapply pending_take].
        apply (wi_undone _ _ W). unfold in_work, tokens. rewrite Ht. by left.
  - by eapply write_start_io.
  - destruct (wi_rest _ _ W p). rewrite Ht. by left.
  - apply fmap_Some in Hs as (so & _ & ->).
    assert (pending m (with_thread ts s) = pending m s) as Ep by (unfold pending, to_start, unstarted; by rewrite Ht).
    destruct (op_cancels _); (split; [split; try done|]).
    + simpl. intros Hm. pose proof (wi_moved _ _ W Hm) as Hn. by destruct (ios s).
    + simpl. intros q bytes ([q' ab|q' st] & [= <- <-] & Hin)%list_elem_of_fmap. by eapply (wi_packet _ _ W).
    + apply kept_intro; [done|done|..]; rewrite (pending_abortable m (with_thread ts s)); by rewrite Ep.
    + apply W.
    + apply W.
    + apply kept_intro; [done|done|..]; by rewrite Ep.
Qed.

Lemma write_io_ends m st pipe s s' :
  ((∃ bytes, st = IoSuccess bytes) → m = true) → side_inv [] pipe s →
  write_inv m s → io_ends st s = Some s' → write_inv m s' ∧ write_kept m s m s' [].
Proof.
  intros Hst I W Hs. pose proof (undone_io_ends _ _ _ (wi_undone _ _ W) Hs) as U. unfold io_ends in Hs.
  destruct (ios s) as [|[p ab|] l] eqn:Hi; [done| |done]. case_match; [done|]. simplify_eq. split.
  - split; [done|done| |apply W]. simpl. intros q bytes [E|Hin]%elem_of_cons; [simplify_eq; eauto|].
    apply (wi_packet _ _ W q bytes). rewrite Hi. by right.
  - apply kept_intro; [done|done|..]; unfold pending, to_move; simpl; by rewrite Hi.
Qed.

Lemma write_run_worker m pipe s s' :
  side_inv [] pipe s → write_inv m s → run_worker s = Some s' → write_inv false s' ∧ write_kept m s false s' [].
Proof.
  intros I W Hs. pose proof (undone_run_worker _ _ _ I (wi_undone _ _ W) Hs) as U. unfold run_worker in Hs.
  destruct (ios s) as [|[|p st] l] eqn:Hi; [done..|]. destruct (io_alone _ _ _ _ I Hi) as (-> & _ & _).
  destruct (heap s !! p) as [so|] eqn:Hso; [|done]. simpl in Hs.
  set (s0 := update _ p (with_ios [] s)) in Hs. destruct (resolve_rest _ _ _ Hs) as (E1 & E2 & E3 & E4 & E5 & E6).
  assert (∀ q, buffer_of s0 q = buffer_of s q) as Hb.
  { intros q. unfold s0. rewrite buffer_of_update; [done|]. simpl. intros so' Hso'. rewrite Hso in Hso'. simplify_eq. by destruct st. }
  split; [split; rewrite ?E3, ?E4; try done|].
  - intros q bytes Hin. by apply elem_of_nil in Hin.
  - apply W.
  - assert (pending false s0 `sublist_of` pending m s) as Hsub by by apply sublist_inserts_l.
    destruct (decide (is_success st)) as [Hst|Hst].
    + destruct st as [bytes| | |]; [|done..].
      assert (m = true) as -> by (apply (wi_packet _ _ W p bytes); rewrite Hi; by left).
      assert (pending false s' = pending true s) as Ep.
      { unfold pending, to_move, to_start, unstarted. by rewrite E1, E3, E4. }
      apply kept_intro; [|by rewrite E6|by rewrite Ep|].
      * intros q. rewrite <- Hb. unfold buffer_of. by rewrite E2.
      * intros Hc. split; [|done]. by destruct (resolve_clean _ _ _ Hs Hc).
    + eapply kept_resolve; [done| |done|done|done]. intros so'. simpl. rewrite lookup_alter_eq, Hso. intros [= <-]. simpl.
      assert (undone s p) as Hu by (eapply undone_token; [apply W|]; unfold tokens; rewrite Hi, elem_of_app; right; by left).
      specialize (Hu so Hso). destruct st as [|bytes|n|n]; [done|..]; simpl in *; [|done|]; intros E%failed_not_success; done.
Qed.

(** *** Callbacks and timeouts *)
Lemma write_resolve_timed_out m n s s' :
  write_inv m s → resolve_timed_out n s = Some s' → write_inv m s' ∧ write_kept m s m s' [].
Proof.
  intros W Hs. pose proof (undone_resolve_timed_out _ _ _ (wi_undone _ _ W) Hs) as U. unfold resolve_timed_out in Hs.
  destruct (resolving s !! n) as [p|] eqn:Hn; [|done]. destruct (resolve_rest _ _ _ Hs) as (_ & _ & E3 & E4 & _). split.
  - split; rewrite ?E3, ?E4; [done|apply W..].
  - eapply kept_resolve; [done| |done..]. apply (wi_undone _ _ W). unfold in_work. rewrite !elem_of_app. right. right. left.
    by eapply list_elem_of_lookup_2.
Qed.

Lemma check_callback_same {Op} n r (s s' : side Op) :
  check_callback n s = Some (r, s') →
  (∃ c, callbacks s !! n = Some c ∧ r = r_res c ∧ checked c = false ∧ s' = with_callbacks (<[n := mark c]> (callbacks s)) s) ∧
  r_res <$> callbacks s' = r_res <$> callbacks s.
Proof.
  unfold check_callback. destruct (callbacks s !! n) as [c|] eqn:Hn; [|done]. destruct (checked c) eqn:Hc; [done|].
  intros [= <- <-]. split; [by eexists|]. simpl. rewrite list_fmap_insert. apply list_insert_id. by rewrite list_lookup_fmap, Hn.
Qed.
Lemma write_check_callback m n r s s' :
  write_inv m s → check_callback n s = Some (r, s') → write_inv m s' ∧ write_kept m s m s' [].
Proof.
  intros W Hs. pose proof (undone_check_callback _ _ _ _ (wi_undone _ _ W) Hs) as U.
  destruct (check_callback_same _ _ _ _ Hs) as [(c & _ & _ & _ & ->) Ec]. split; [by split; [|apply W..]|].
  apply kept_intro; [done..|]. intros (Hl & Hc & Hr). split; [|done]. split_and!; [done| |done].
  assert (Forall (λ r, r = success) (r_res <$> callbacks s)) as Hf by (rewrite <- Ec; by apply Forall_fmap).
  by apply Forall_fmap in Hf.
Qed.

Lemma write_finish_callback m n r pipe s :
  side_inv [] pipe s → write_inv m s → callbacks s !! n = Some r →
  write_inv m (finish_callback n r s).1 ∧ write_kept m s m (finish_callback n r s).1 [].
Proof.
  intros I W Hn. pose proof (undone_finish_callback n r _ (wi_undone _ _ W)) as U. pose proof (delete_Permutation _ _ _ Hn) as Hp.
  pose proof (list_elem_of_lookup_2 _ _ _ Hn) as Hr. destruct (si_callbacks _ _ _ I r Hr) as [_ Hid].
  assert (∀ s', callbacks s' = delete n (callbacks s) → resolving s' = resolving s →
                log s' = log s ++ [(op (r_data r), to_pipe_op_res (r_res r), r_value r)] → clean s' → clean s) as Hc.
  { intros s' E1 E2 E3 (Hl & Hcb & Hrs). rewrite E3 in Hl. apply Forall_app in Hl as [Hl [Hx _]%Forall_cons].
    split_and!; [done| |by rewrite <- E2]. rewrite Hp, <- E1. constructor; [|done]. simpl in Hx. by destruct (r_res r). }
  unfold finish_callback, complete_op in *. simpl in *. destruct (m_ops s) as [|d l] eqn:Hq; [|case_decide as E]; simpl in *.
  - split; [by split; [|apply W..]|]. apply kept_intro; [done|by eexists|..].
    + unfold pending, to_start, unstarted. simpl. by rewrite Hq.
    + intros Hcl. split; [by eapply Hc, Hcl|]. unfold pending, to_start, unstarted. simpl. by rewrite Hq.
  - assert (id d = Z.of_nat (op d)) as Hidd by (apply (si_queue _ _ _ I); rewrite Hq; by left).
    assert (tokens s = []) as Ht.
    { eapply answer_alone; [done..|]. replace (op d) with (op (r_data r)) by lia. by apply (list_elem_of_fmap_2 (λ r, op (r_data r))). }
    unfold tokens in Ht. apply app_nil in Ht as [Hts Hi%fmap_nil_inv]. pose proof (no_start_tasks _ Hts) as Hns. split.
    + split; [done|..].
      * intros Hm. by destruct (wi_moved _ _ W Hm).
      * intros q bytes. destruct l; apply (wi_packet _ _ W).
      * intros q. destruct l; simpl; [apply W|]. intros [Hin|Hin%list_elem_of_singleton]%elem_of_app; [by apply (wi_rest _ _ W q)|done].
    + match goal with |- write_kept _ _ _ ?x _ => assert (pending m x = pending m s) as Ep end.
      { unfold pending, to_move, to_start, unstarted. rewrite Hq, Hns. destruct l; simpl; [by rewrite Hns|].
        by rewrite existsb_app, Hns. }
      apply kept_intro; [by destruct l|destruct l; by eexists|by rewrite Ep|]. intros Hcl. split; [|done].
      by eapply Hc, Hcl; destruct l.
  - split; [by split; [|apply W..]|]. apply kept_intro; [done|by eexists|..].
    + unfold pending, to_start, unstarted. simpl. by rewrite Hq.
    + intros Hcl. split; [by eapply Hc, Hcl|]. unfold pending, to_start, unstarted. simpl. by rewrite Hq.
Qed.

Lemma write_cancel_op_by_timeout m i s :
  write_inv m s → write_inv m (cancel_op_by_timeout i s) ∧ write_kept m s m (cancel_op_by_timeout i s) [].
Proof.
  intros W. pose proof (undone_cancel_op_by_timeout i _ (wi_undone _ _ W)) as U.
  unfold cancel_op_by_timeout in *. destruct (list_find _ (m_ops s)) as [[n d]|] eqn:Ef; [|by split; [|apply kept_refl]].
  apply list_find_Some in Ef as (Hn & _ & _). cbn [m_ops set_result update] in *. case_decide as Hh.
  - split.
    + split; [done|apply W..|]. simpl. intros q [Hq|Hq%list_elem_of_singleton]%elem_of_app; [by apply (wi_rest _ _ W q)|done].
    + match goal with |- write_kept _ _ _ ?x _ => assert (pending m x = pending m s) as Ep end.
      { unfold pending, to_start, unstarted. simpl. by rewrite existsb_app, !orb_false_r. }
      apply kept_intro; [|done|by rewrite Ep|done]. intros q. by rewrite <- (buffer_of_set_result set_timeout_if_possible (op d) s q).
  - split; [by split; [|apply W..]|]. apply kept_intro; [|done|..].
    + intros q. by rewrite <- (buffer_of_set_result set_timeout_if_possible (op d) s q).
    + apply sublist_app; [done|]. apply fmap_sublist. unfold unstarted. simpl. destruct (existsb _ _); [apply sublist_delete|].
      destruct (m_ops s) as [|d0 l]; [done|]. destruct n as [|n]; [by simplify_eq/=|]. apply sublist_delete.
    + intros (_ & _ & Hr). simpl in Hr. by apply app_nil in Hr as [_ ?].
Qed.

Lemma write_invalidate_side m by_cancel s :
  write_inv m s → write_inv m (invalidate_side by_cancel s) ∧ write_kept m s m (invalidate_side by_cancel s) [].
Proof.
  intros W. pose proof (undone_invalidate_side by_cancel _ (wi_undone _ _ W)) as U. unfold invalidate_side in *.
  set (f := if by_cancel then _ else _) in *. pose proof (foldl_set_result f (m_ops s) s) as E.
  pose proof (buffer_of_set_results f (m_ops s) s) as Hb. revert E Hb U.
  generalize (foldl (λ s d, set_result f (op d) s) s (m_ops s)). intros s' E Hb U.
  assert (pending m (with_ios (abortable <$> ios s') s') = pending m s) as Ep by (rewrite pending_abortable; by rewrite E).
  rewrite E in U |- *. rewrite E in Ep. split.
  - split; [done|..]; simpl.
    + intros Hm. pose proof (wi_moved _ _ W Hm). by destruct (ios s).
    + intros q bytes ([q' ab|q' st] & [= <- <-] & Hin)%list_elem_of_fmap. by eapply (wi_packet _ _ W).
    + apply W.
  - apply kept_intro; [|done|by rewrite Ep|done]. intros q. rewrite <- Hb. by rewrite E.
Qed.

(** *** A new message *)
Lemma write_push m msg tid s :
  side_inv [] true s → write_inv m s →
  write_inv m (push (WriteOperation.create msg) tid s) ∧ write_kept m s m (push (WriteOperation.create msg) tid s) [msg].
Proof.
  intros I W. assert (op_res (WriteOperation.create msg) ≠ success) as Ho by done.
  pose proof (undone_push (WriteOperation.create msg) tid s Ho (wi_undone _ _ W)) as U.
  set (s' := push _ tid s) in *. set (p := next_op s).
  assert (∀ q, q ∈ pending m s → (q < p)%nat) as Hlt.
  { intros q [Hq|Hq]%elem_of_app.
    - eapply side_accounted_lt; [done|]. unfold accounted, tokens. rewrite !elem_of_app. do 3 right. left. right.
      unfold to_move in Hq. destruct m; [by apply elem_of_nil in Hq|]. destruct (ios s) as [|[] l];
        [by apply elem_of_nil in Hq|apply list_elem_of_singleton in Hq as ->; by left..].
    - apply list_elem_of_fmap in Hq as (d & -> & Hd). apply (si_queue _ _ _ I). unfold unstarted in Hd.
      destruct (existsb _ _); [done|]. destruct (m_ops s); [done|by right]. }
  assert (pending m s' = pending m s ++ [p] ∧ ios s' = ios s ∧ log s' = log s ∧ resolving s' = resolving s ∧
          callbacks s' = callbacks s ∧ (thread s' = thread s ∨ thread s' = thread s ++ [Start p])) as (Ep & E2 & E3 & E4 & E5 & E6).
  { unfold s', push. rewrite length_app. simpl. destruct (m_ops s) as [|d l] eqn:Hq; simpl.
    - pose proof (no_tokens _ _ _ I Hq) as Ht. pose proof (no_start _ Ht) as Hns. split_and!; try done; [|by right].
      unfold pending, to_move, to_start, unstarted. simpl. by rewrite existsb_app, Hns, orb_true_r, Hq, <- app_assoc.
    - case_decide; [lia|]. split_and!; try done; [|by left]. unfold pending, to_move, to_start, unstarted. simpl. rewrite Hq.
      destruct (existsb _ _); simpl; rewrite fmap_app; simpl; by rewrite <- ?app_assoc. }
  assert (heap s' = <[p := SharedOp (WriteOperation.create msg) (OpData (m_next_op_id s) tid p)]> (heap s)) as Hh
    by (unfold s', push; by case_decide).
  assert (unsent m s' = unsent m s ++ [msg]) as Eu.
  { unfold unsent. fold (pending m s') (pending m s). rewrite Ep, fmap_app. f_equal.
    - apply list_fmap_ext. intros i q Hq. unfold buffer_of. rewrite Hh, lookup_insert_ne; [done|].
      apply list_elem_of_lookup_2, Hlt in Hq. unfold p in *. lia.
    - unfold buffer_of. simpl. by rewrite Hh, lookup_insert_eq. }
  split; split; rewrite ?E2, ?E3; [done|apply W..| |done|by rewrite Eu| |done].
  - intros q Hq. destruct E6 as [E6|E6]; rewrite E6 in Hq; [by apply (wi_rest _ _ W q)|].
    apply elem_of_app in Hq as [Hq|Hq%list_elem_of_singleton]; [by apply (wi_rest _ _ W q)|done].
  - unfold clean. by rewrite E3, E4, E5.
Qed.

(** *** The results on record *)
Lemma decided_clean s lost pipe :
  side_inv lost pipe s → undone_inv [] s → Forall (λ x, PipeOpRes.is_success x.2) (decided_writes s) ↔ clean s.
Proof.
  intros I U. unfold decided_writes, clean. rewrite !Forall_app, !Forall_fmap. f_equiv; [|f_equiv].
  - apply Forall_iff. intros c. simpl. unfold PipeOpRes.is_success. rewrite bool_decide_spec.
    destruct c.1.2; simpl; [|done]. split; [by intros ->|by intros [=]].
  - apply Forall_iff. intros r. simpl. unfold PipeOpRes.is_success. rewrite bool_decide_spec.
    by destruct (r_res r).
  - split; [|intros ->; constructor]. destruct (resolving s) as [|q l] eqn:Hr; [done|]. intros [Hq _]%Forall_cons. exfalso.
    simpl in Hq. unfold PipeOpRes.is_success in Hq. rewrite bool_decide_spec in Hq.
    destruct (heap s !! q) as [so|] eqn:Hso; [|done]. simpl in Hq.
    assert (op_res (the_op so) ≠ success) as Hu.
    { apply (U q); [|done]. unfold in_work. rewrite Hr, !elem_of_app. right. right. left. by left. }
    simpl in Hu. by destruct (WriteOperation.m_res (the_op so)).
Qed.
