(* ===== verification/WinPairReads.v ===== *)
(** * The messages a Windows pipe reads

    No read loses a byte: what a side has read of a message is in the buffers of
    the read that goes on, or the pipe is closed before the next read starts. *)
From S2P Require Import Prelude RpcTypes Timer WinOperation WinReadFacts WinPipe WinPipeFacts Pipe WinPair WinPairFacts.
Import WinRes WinPipe WinPair.
Local Open Scope Z_scope.

Implicit Types s : read_side.

#[local] Opaque ReadOperation.MaxTransferMessageSize ReadOperation.first_chunk.

(** ** The buffers of a read *)
Definition chunk_ok (taken : message) (o : ReadOperation.read_operation) : Prop :=
  ∃ n, has_read taken n o ∧ (length taken + n ≤ ReadOperation.MaxTransferMessageSize)%nat.
Definition data_ok s (q : nat) : Prop := ∃ so, heap s !! q = Some so ∧ chunk_ok (bytes_read (the_op so)) (the_op so).
Definition room_of s (q : nat) : nat := match heap s !! q with Some so => ReadOperation.back_size (the_op so) | None => O end.

Lemma known_some (m : message) : known (Some <$> m) = m.
Proof. induction m as [|x m IH]; [done|]. change (x :: known (Some <$> m) = x :: m). by rewrite IH. Qed.
Lemma known_none n : known (replicate n None) = [].
Proof. by induction n as [|n IH]; [|exact IH]. Qed.
Lemma known_app l k : known (l ++ k) = known l ++ known k.
Proof. apply omap_app. Qed.

Lemma bytes_read_has taken n o : has_read taken n o → bytes_read o = taken.
Proof.
  intros (bs & Hb & Hc & _). unfold bytes_read. rewrite Hb, concat_app, Hc. simpl.
  by rewrite app_nil_r, known_app, known_some, known_none, app_nil_r.
Qed.
Lemma chunk_ok_bytes taken o : chunk_ok taken o → chunk_ok (bytes_read o) o ∧ bytes_read o = taken.
Proof. intros (n & Hr & Hn). rewrite (bytes_read_has _ _ _ Hr). split; [by exists n|done]. Qed.

(** Full buffers that [ReadFile] reports at once. *)
Lemma reads_on_start calls o taken w tk w' :
  reads_on calls o taken w = Some (tk, w') → chunk_ok taken o → (taken ≠ [] → w ≠ []) →
  attach tk w' = attach taken w ∧ (tk ≠ [] → w' ≠ []) ∧
  ((ReadOperation.start calls o).1 = false → chunk_ok tk (ReadOperation.start calls o).2).
Proof.
  pose proof max_size_fits as Hmax.
  revert o taken w. induction calls as [|[|bytes|] calls IH]; intros o taken w Hs (n & Hr & Hn) Hw; cbn [reads_on] in Hs.
  1,2,4: injection Hs as <- <-; split_and!; [done|exact Hw|]; intros _; exists n; split; assumption.
  destruct (reading_sizes _ _ _ Hr) as [Hb _]. rewrite Hb in Hs. destruct w as [|m w1]; [done|]. case_decide as Hc; [|done].
  destruct Hc as [Hlt ->]. assert (length (take n m) = n) as Htk by (rewrite length_take; lia).
  pose proof (reading_more taken n o (take n m) Hr Htk ltac:(lia)) as Hm. cbn [ReadOperation.start]. rewrite Hb.
  assert (attach (taken ++ take n m) (drop n m :: w1) = attach taken (m :: w1)) as Ea by (simpl; by rewrite <- app_assoc, take_drop).
  case_decide as Hfull.
  - rewrite Hm in Hs |- *. injection Hs as <- <-. split_and!; [exact Ea|intros _; discriminate|intros [=]].
  - destruct Hm as (o2 & E & _ & Ho2). rewrite E in Hs |- *. apply IH in Hs as (E1 & E2 & E3).
    + split_and!; [by rewrite E1|exact E2|exact E3].
    + eexists. split; [exact Ho2|]. rewrite length_app, Htk. unfold next_chunk. lia.
    + done.
Qed.

(** ** Invariant of the reads *)
Definition runs s (q : nat) : Prop := Rest q ∈ thread s ∨ q ∈ io_op <$> ios s.
Definition packet_fits (n : nat) (st : io_status) : Prop :=
  match st with IoSuccess bytes => length bytes ≤ n | IoMoreData bytes => length bytes = n | _ => True end%nat.
Definition of_head s (r : resolved) : Prop := ∃ d l, m_ops s = d :: l ∧ op d = op (r_data r).

Record read_ok (pipe : bool) s : Prop := {
  ro_undone : undone_inv [] s;
  ro_fresh q : q ∈ to_start s → data_ok s q ∧ read_of s q = [];
  ro_running q : runs s q → data_ok s q;
  ro_packet q st : Packet q st ∈ ios s → packet_fits (room_of s q) st;
  ro_abort i : i ∈ ios s → may_abort i = true → pipe = false ∨ read_of s (io_op i) = [];
  ro_canceled q so : heap s !! q = Some so → op_res (the_op so) = canceled → pipe = false;
  ro_success r : r ∈ callbacks s → r_res r = success → of_head s r
}.

(** What was taken of the oldest message, by the read that runs. *)
Definition progress s : message :=
  match ios s with
  | Pending q _ :: _ => read_of s q
  | Packet q (IoSuccess _) :: _ => []
  | Packet q (IoMoreData bytes) :: _ => read_of s q ++ bytes
  | Packet q _ :: _ => read_of s q
  | [] => match omap (λ t, match t with Rest q => Some q | _ => None end) (thread s) with q :: _ => read_of s q | [] => [] end
  end.
(** No read can start any more. *)
Definition stuck (pipe : bool) s : Prop :=
  (∀ q, ¬ runs s q) ∧
  (pipe = false ∨ tokens s = [] ∧ ∃ r, r ∈ callbacks s ∧ r_res r = failed ∧ checked r = false ∧ of_head s r).

Record read_inv (pipe : bool) s (t : message) (w : list message) : Prop := {
  rd_ok : read_ok pipe s;
  rd_taken : t = progress s ∨ stuck pipe s;
  rd_wire : t ≠ [] → w ≠ []
}.

(** Every byte that leaves the system is delivered or in the hands of a read. *)
Definition read_kept s (t : message) (w : list message) s' (t' : message) (w' : list message) : Prop :=
  ∃ new, log s' = log s ++ new ∧
         omap received_message (to_result <$> new) ++ arrived s' ++ attach t' w' = arrived s ++ attach t w.

Lemma read_kept_refl s t w : read_kept s t w s t w.
Proof. exists []. by rewrite app_nil_r. Qed.
Lemma read_kept_trans s1 t1 w1 s2 t2 w2 s3 t3 w3 :
  read_kept s1 t1 w1 s2 t2 w2 → read_kept s2 t2 w2 s3 t3 w3 → read_kept s1 t1 w1 s3 t3 w3.
Proof.
  intros (n1 & L1 & E1) (n2 & L2 & E2). exists (n1 ++ n2). split; [by rewrite L2, L1, app_assoc|].
  by rewrite fmap_app, omap_app, <- app_assoc, E2, E1.
Qed.
Lemma read_kept_silent s t w s' t' w' :
  log s' = log s → omap succeeded (callbacks s') = omap succeeded (callbacks s) →
  in_packet s' ++ attach t' w' = in_packet s ++ attach t w → read_kept s t w s' t' w'.
Proof. intros El Ec Ep. exists []. split; [by rewrite El, app_nil_r|]. unfold arrived. simpl. by rewrite Ec, <- !app_assoc, Ep. Qed.

(** *** Buffers stay *)
Definition content (s : read_side) (q : nat) : option (list (list (option Z)) * Z) :=
  (λ so, (ReadOperation.m_buffers (the_op so), ReadOperation.m_read_bytes (the_op so))) <$> heap s !! q.
Definition alike s s' : Prop := ∀ q, content s' q = content s q.

Section content.
Context s s' q (E : content s' q = content s q).
Lemma same_read_of : read_of s' q = read_of s q.
Proof. unfold content in E. unfold read_of. destruct (heap s !! q), (heap s' !! q); simplify_eq/=; [|done]. unfold bytes_read. congruence. Qed.
Lemma same_room_of : room_of s' q = room_of s q.
Proof.
  unfold content in E. unfold room_of. destruct (heap s !! q), (heap s' !! q); simplify_eq/=; [|done].
  unfold ReadOperation.back_size. congruence.
Qed.
Lemma same_data_ok : data_ok s q → data_ok s' q.
Proof.
  unfold content in E. intros (so & Hso & n & (bs & Hb & Hc & Hr) & Hn). rewrite Hso in E.
  destruct (heap s' !! q) as [so'|] eqn:Hso'; [|discriminate E]. simpl in E. injection E as E1 E2.
  assert (bytes_read (the_op so') = bytes_read (the_op so)) as Eb by (unfold bytes_read; by rewrite E1).
  exists so'. split; [exact Hso'|]. exists n. rewrite Eb. split; [|exact Hn]. exists bs. rewrite E1, E2. split_and!; assumption.
Qed.
End content.

Lemma alike_in_packet s s' : alike s s' → ios s' = ios s → in_packet s' = in_packet s.
Proof. intros A E. unfold in_packet. rewrite E. destruct (ios s) as [|[|q []] l]; try reflexivity. by rewrite (same_read_of s). Qed.
Definition rests (ts : list task) : list nat := omap (λ t, match t with Rest q => Some q | _ => None end) ts.
Lemma alike_progress s s' : alike s s' → ios s' = ios s → rests (thread s') = rests (thread s) → progress s' = progress s.
Proof.
  intros A E1 E2. unfold progress, rests in *. rewrite E1, E2. destruct (ios s) as [|[|q []] l]; rewrite ?(same_read_of s) by done; try done.
  destruct (omap _ (thread s)); [done|]. by rewrite (same_read_of s).
Qed.

Lemma alike_heap s s' : heap s' = heap s → alike s s'.
Proof. intros E q. unfold content. by rewrite E. Qed.
Lemma alike_trans s1 s2 s3 : alike s1 s2 → alike s2 s3 → alike s1 s3.
Proof. intros A1 A2 q. by rewrite A2, A1. Qed.
Lemma content_update f p s q : p ≠ q → content (update f p s) q = content s q.
Proof. intros Hne. unfold content. simpl. by rewrite lookup_alter_ne. Qed.
Lemma alike_set_result f p s : alike s (set_result f p s).
Proof.
  intros q. destruct (decide (p = q)) as [->|Hne]; [|by apply content_update]. unfold content. simpl. rewrite lookup_alter_eq.
  by destruct (heap s !! q).
Qed.
Lemma alike_set_results f l s : alike s (foldl (λ s d, set_result f (op d) s) s l).
Proof. revert s. induction l as [|d l IH]; intros s; [done|]. simpl. eapply alike_trans; [apply alike_set_result|apply IH]. Qed.

(** *** Nothing new is started *)
Lemma read_ok_mono (pipe : bool) s s' :
  read_ok pipe s → (∀ q, q ∈ to_start s' ∨ runs s' q → content s' q = content s q) → undone_inv [] s' →
  to_start s' ⊆ to_start s → (∀ q, runs s' q → runs s q) → ios s' ⊆ ios s →
  (∀ q so, heap s' !! q = Some so → op_res (the_op so) = canceled → pipe = false) →
  (∀ r, r ∈ callbacks s' → r_res r = success → of_head s' r) → read_ok pipe s'.
Proof.
  intros R A U Hs Hr Hi Hc Hcb. split; [done|..|done|done].
  - intros q Hq. destruct (ro_fresh _ _ R q) as [? ?]; [by apply Hs|]. assert (content s' q = content s q) as E by auto.
    split; [by eapply same_data_ok|by rewrite (same_read_of s)].
  - intros q Hq. eapply same_data_ok; [by auto|]. by apply (ro_running _ _ R), Hr.
  - intros q st Hq. rewrite (same_room_of s); [by apply (ro_packet _ _ R), Hi|]. apply A. right. right.
    by apply (list_elem_of_fmap_2 io_op) in Hq.
  - intros i Hin Ha. rewrite (same_read_of s); [by apply (ro_abort _ _ R), Ha; apply Hi|]. apply A. right. right.
    by apply list_elem_of_fmap_2.
Qed.

(** ** The thread and the system *)

(** A call for the oldest operation, which is in hand. *)
Lemma read_start_io pipe calls p d k so s s' t w tk w' :
  side_inv [p] pipe s → read_ok pipe s → undone s p → tokens s = [] → m_ops s = d :: k → op d = p →
  heap s !! p = Some so → (pipe = true → chunk_ok t (the_op so)) → (t ≠ [] → w ≠ []) → undone_inv [] s' →
  reads_on (if pipe then calls else [ReadOperation.CallError]) (the_op so) t w = Some (tk, w') →
  start_io pipe calls p s = Some s' →
  read_inv pipe s' tk w' ∧ read_kept s t w s' tk w'.
Proof.
  intros I R Hu Ht Hq Hd Hso Hck Hw U Hon Hs.
  assert (p ∉ op <$> tail (m_ops s)) as Hfresh.
  { pose proof (occ_NoDup p (accounted [p] s)) as Ho. rewrite (si_once _ _ _ I) in Ho at 1. specialize (Ho (NoDup_seq _ _)).
    unfold accounted in Ho. rewrite !occ_app, occ_cons, decide_True in Ho by done. intros Hin%occ_elem. lia. }
  destruct (app_nil (omap task_op (thread s)) (io_op <$> ios s)) as [[Hts Hi%fmap_nil_inv] _]; [exact Ht|].
  assert (to_start s = op <$> tail (m_ops s)) as Est by (unfold to_start, unstarted; by rewrite no_start_tasks).
  assert (rests (thread s) = []) as Hre.
  { clear -Hts. induction (thread s) as [|[] ts IH]; simpl in *; [done..|by apply IH]. }
  assert (∀ q, ¬ runs s q) as Hnr.
  { intros q [Hin|Hin]; [|rewrite Hi in Hin; by apply elem_of_nil in Hin].
    assert (q ∈ omap task_op (thread s)) as Hq' by (apply list_elem_of_omap; by eexists). rewrite Hts in Hq'. by apply elem_of_nil in Hq'. }
  unfold start_io in Hs. rewrite Hso in Hs. cbn [op_start read_operation_ops] in Hs.
  assert (pipe = true → attach tk w' = attach t w ∧ (tk ≠ [] → w' ≠ []) ∧
    ((ReadOperation.start (if pipe then calls else [ReadOperation.CallError]) (the_op so)).1 = false →
     chunk_ok tk (ReadOperation.start (if pipe then calls else [ReadOperation.CallError]) (the_op so)).2)) as Hst.
  { intros Hp. eapply reads_on_start; [exact Hon|by apply Hck|exact Hw]. }
  assert (attach tk w' = attach t w ∧ (tk ≠ [] → w' ≠ [])) as [Eatt Hw'].
  { destruct pipe; [destruct (Hst eq_refl) as (? & ? & _); by split|]. simpl in Hon. injection Hon as <- <-. by split. }
  assert (pipe = false → (ReadOperation.start (if pipe then calls else [ReadOperation.CallError]) (the_op so)).1 = true) as Hcl by by intros ->.
  pose proof (read_start_res (if pipe then calls else [ReadOperation.CallError]) (the_op so)) as Hres.
  destruct (ReadOperation.start _ (the_op so)) as [ec o]. simpl in Hst, Hcl, Hres.
  set (s1 := update (λ _, o) p s) in *.
  assert (∀ q so', heap s1 !! q = Some so' → op_res (the_op so') = canceled → pipe = false) as Hcan.
  { intros q so' Hso'. simpl in Hso'. destruct (decide (p = q)) as [<-|Hne].
    - rewrite lookup_alter_eq, Hso in Hso'. injection Hso' as <-. simpl. rewrite Hres. by eapply (ro_canceled _ _ R).
    - rewrite lookup_alter_ne in Hso' by done. by eapply (ro_canceled _ _ R). }
  destruct (si_heap _ _ _ I p) as (so0 & Hso0 & Hcap & _).
  { destruct (si_queue _ _ _ I d); [rewrite Hq; by left|by subst p]. }
  rewrite Hso in Hso0. injection Hso0 as <-.
  destruct ec.
  - apply resolve_result in Hs as (so2 & Hso2 & ->). cbn [set_result update heap s1] in Hso2.
    rewrite !lookup_alter_eq, Hso in Hso2. injection Hso2 as <-. cbn [the_op captured op_res op_with_res read_operation_ops].
    assert (ReadOperation.m_res o ≠ success) as Hns by (rewrite Hres; by apply Hu).
    assert (ReadOperation.m_res o = canceled → pipe = false) as Hcp by (rewrite Hres; by apply (ro_canceled _ _ R p)).
    split; [split|].
    + eapply read_ok_mono; [exact R|..]; try done.
      * intros q [Hin|Hin]; [|by destruct (Hnr q)]. change (q ∈ to_start s) in Hin. rewrite Est in Hin.
        assert (p ≠ q) as Hne by by intros ->. unfold content. simpl. by rewrite !lookup_alter_ne.
      * intros q so'. simpl. destruct (decide (p = q)) as [<-|Hne].
        -- rewrite !lookup_alter_eq, Hso. intros [= <-]. simpl. by destruct (ReadOperation.m_res o); auto.
        -- rewrite !lookup_alter_ne by done. apply (ro_canceled _ _ R).
      * simpl. intros r [Hr| ->%list_elem_of_singleton]%elem_of_app; [by apply (ro_success _ _ R)|]. simpl.
        intros E%failed_not_success. done.
    + right. split; [exact Hnr|]. destruct (decide (ReadOperation.m_res o = canceled)) as [E|E]; [left; by apply Hcp|].
      right. split; [exact Ht|]. eexists. split; [simpl; rewrite elem_of_app; right; by left|]. split_and!.
      * simpl. by destruct (ReadOperation.m_res o).
      * done.
      * exists d, k. simpl. split; [done|congruence].
    + exact Hw'.
    + apply read_kept_silent; [done|..].
      * simpl. rewrite omap_app. simpl. unfold succeeded at 2. simpl. rewrite decide_False; [apply app_nil_r|].
        by intros E%failed_not_success.
      * rewrite Eatt. unfold in_packet. simpl. by rewrite Hi.
  - assert (pipe = true) as -> by (destruct pipe; [done|by specialize (Hcl eq_refl)]).
    destruct (Hst eq_refl) as (_ & _ & Hco). specialize (Hco eq_refl). apply (inj Some) in Hs. subst s'.
    set (s' := with_ios _ s1) in *.
    assert (ios s' = [Pending p false]) as Hi' by (simpl; by rewrite Hi).
    assert (heap s' !! p = Some (SharedOp o (captured so))) as Hp by (simpl; by rewrite lookup_alter_eq, Hso).
    destruct (chunk_ok_bytes _ _ Hco) as [Hok Hb].
    assert (∀ q, runs s' q → q = p) as Hrun.
    { intros q [Hin|Hin]; [by destruct (Hnr q); left|]. rewrite Hi' in Hin. by apply list_elem_of_singleton in Hin. }
    split; [split|].
    + split; [done|..|exact Hcan|exact (ro_success _ _ R)].
      * intros q Hin. change (q ∈ to_start s) in Hin. destruct (ro_fresh _ _ R q Hin) as [Hda Hrd]. rewrite Est in Hin.
        assert (content s' q = content s q) as E by (apply (content_update (λ _, o)); by intros ->).
        split; [by eapply same_data_ok|by rewrite (same_read_of s)].
      * intros q ->%Hrun. eexists. split; [exact Hp|exact Hok].
      * intros q st. rewrite Hi'. by intros Hin%list_elem_of_singleton.
      * intros i. rewrite Hi'. by intros ->%list_elem_of_singleton.
    + left. unfold progress. rewrite Hi'. unfold read_of. rewrite Hp. by symmetry.
    + exact Hw'.
    + apply read_kept_silent; [done..|]. rewrite Eatt. unfold in_packet. by rewrite Hi', Hi.
Qed.

(** A promise of the oldest or a waiting operation fails. *)
Lemma succeeded_fails l r : r_res r ≠ success → omap succeeded (l ++ [r]) = omap succeeded l.
Proof. intros Hr. rewrite omap_app. simpl. unfold succeeded at 2. rewrite decide_False by done. apply app_nil_r. Qed.

Lemma rests_none ts : omap task_op ts = [] → rests ts = [].
Proof. induction ts as [|[] ts IH]; simpl; [done..|]. exact IH. Qed.

(** The tasks change, not what is read. *)
Lemma read_inv_mono pipe s t w s' :
  read_inv pipe s t w → undone_inv [] s' → heap s' = heap s → to_start s' ⊆ to_start s → rests (thread s') = rests (thread s) →
  ios s' = ios s → (∀ r, r ∈ callbacks s' → r_res r = success → of_head s' r) →
  (∀ r, pipe = true → r ∈ callbacks s → r_res r = failed → checked r = false → of_head s r → tokens s = [] →
        tokens s' = [] ∧ r ∈ callbacks s' ∧ of_head s' r) →
  read_inv pipe s' t w.
Proof.
  intros [R T W] U Hh Hs Hr Hi Hcb Hf. pose proof (alike_heap _ _ Hh) as A.
  assert (∀ q, Rest q ∈ thread s' → Rest q ∈ thread s) as Hrest.
  { intros q Hq. assert (q ∈ rests (thread s')) as Hin by (apply list_elem_of_omap; by eexists). rewrite Hr in Hin.
    apply list_elem_of_omap in Hin as ([] & Hin & [= ->]). done. }
  assert (∀ q, runs s' q → runs s q) as Hruns by (intros q [?|Hin]; [left; auto|right; by rewrite <- Hi]).
  split; [|..|done].
  - eapply read_ok_mono; [exact R|..]; try done; [by rewrite Hi|]. rewrite Hh. apply R.
  - rewrite (alike_progress s) by done. destruct T as [T|[Hn Hst]]; [by left|right]. split; [intros q Hq; by apply (Hn q), Hruns|].
    destruct Hst as [?|(Htk & r & H1 & H2 & H3 & H4)]; [by left|]. destruct pipe; [right|by left].
    destruct (Hf r) as (? & ? & ?); [done..|]. split; [done|]. by exists r.
Qed.

(** The calls of the system may be aborted. *)
Lemma read_inv_abortable pipe s t w :
  (∀ i, i ∈ ios s → pipe = false ∨ read_of s (io_op i) = []) → read_inv pipe s t w →
  read_inv pipe (with_ios (abortable <$> ios s) s) t w ∧ in_packet (with_ios (abortable <$> ios s) s) = in_packet s.
Proof.
  intros Ha [R T W]. set (s' := with_ios _ s).
  assert (io_op <$> ios s' = io_op <$> ios s) as Eo by apply io_op_abortable.
  assert (tokens s' = tokens s) as Et by (unfold tokens; by rewrite Eo).
  assert (∀ q, runs s' q ↔ runs s q) as Hr by (intros q; unfold runs; by rewrite Eo).
  split; [split; [split|..|done]|].
  - eapply undone_sub, (ro_undone _ _ R); [done|]. unfold in_work. by rewrite Et.
  - apply (ro_fresh _ _ R).
  - intros q Hq. by apply (ro_running _ _ R), Hr.
  - intros q st ([q' ab|q' st'] & [= <- <-] & Hin)%list_elem_of_fmap. by apply (ro_packet _ _ R).
  - intros i (i' & -> & Hin)%list_elem_of_fmap _. destruct i'; by apply (Ha _ Hin).
  - apply (ro_canceled _ _ R).
  - apply (ro_success _ _ R).
  - assert (progress s' = progress s) as -> by (unfold progress; simpl; by destruct (ios s) as [|[|q []] l]).
    destruct T as [T|[Hn Hst]]; [by left|right]. split; [intros q Hq; by apply (Hn q), Hr|]. by rewrite Et.
  - unfold in_packet. simpl. by destruct (ios s) as [|[|q []] l].
Qed.

Lemma read_run_task pipe calls s t w s' tk w' :
  side_inv [] pipe s → read_inv pipe s t w → run_task pipe calls s = Some s' → answers pipe calls s t w = Some (tk, w') →
  read_inv pipe s' tk w' ∧ read_kept s t w s' tk w'.
Proof.
  intros I RI Hs Hon. pose proof RI as [R T W]. pose proof (undone_run_task _ _ _ _ (ro_undone _ _ R) Hs) as U.
  unfold run_task in Hs. unfold answers in Hon. destruct (thread s) as [|tsk ts] eqn:Ht; [done|].
  assert (to_start (with_thread ts s) ⊆ to_start s) as Hsub.
  { intros q Hq. eapply elem_of_sublist; [exact Hq|]. by eapply fmap_sublist, unstarted_take. }
  destruct tsk as [p|p|p|p].
  - injection Hon as <- <-. destruct (heap _ !! p) as [so|] eqn:Hso; [|done]. simpl in Hso.
    assert (tokens s ≠ []) as Htok by (unfold tokens; by rewrite Ht). case_decide as Hu.
    + apply (inj Some) in Hs. subst s'. split; [|by apply read_kept_silent].
      eapply read_inv_mono; [exact RI|done|done|..|done|apply R|done].
      * unfold to_start, unstarted. simpl. by rewrite Ht.
      * simpl. by rewrite Ht.
    + apply resolve_result in Hs as (so' & Hso' & ->). simpl in Hso'. rewrite Hso in Hso'. injection Hso' as <-.
      assert (op_res (the_op so) ≠ success) as Hns.
      { eapply undone_token; [apply R| |exact Hso]. unfold tokens. rewrite Ht. by left. }
      split.
      * eapply read_inv_mono; [exact RI|done|done|exact Hsub| |done|..|done].
        -- simpl. by rewrite Ht.
        -- simpl. intros r [Hr| ->%list_elem_of_singleton]%elem_of_app; [by apply (ro_success _ _ R)|]. done.
      * apply read_kept_silent; [done|by apply succeeded_fails|done].
  - destruct (task_alone _ _ _ p _ I Ht eq_refl) as (Hi & Hts & d & k & Hq & Hd).
    destruct (heap s !! p) as [so|] eqn:Hso; [|done].
    assert (read_ok pipe (with_started (started s ++ [p]) (with_thread ts s))) as R0.
    { eapply read_ok_mono; [exact R|done|..|apply R|apply R]; [|exact Hsub| |done].
      - eapply undone_sub, (ro_undone _ _ R); [done|]. unfold in_work, tokens. simpl. rewrite Ht, Hi. simpl. rewrite Hts. simpl. clear. set_solver.
      - intros q [Hin|Hin]; [left; rewrite Ht; by right|by right]. }
    assert (p ∈ to_start s) as Hp by (unfold to_start, unstarted; rewrite Ht; simpl; rewrite Hq; simpl; rewrite Hd; by left).
    destruct (ro_fresh _ _ R p Hp) as [(so' & Hso' & Hck) Hrd]. rewrite Hso in Hso'. injection Hso' as <-.
    unfold read_of in Hrd. rewrite Hso in Hrd. rewrite Hrd in Hck.
    eapply (read_start_io pipe calls p d k so (with_started (started s ++ [p]) (with_thread ts s))); try done.
    + by eapply inv_mark_started.
    + change (undone s p). eapply undone_token; [apply R|]. unfold tokens. rewrite Ht. by left.
    + unfold tokens. simpl. by rewrite Hts, Hi.
    + intros Hpipe. destruct T as [->|[_ [?|[Htk _]]]]; [|congruence|unfold tokens in Htk; by rewrite Ht in Htk].
      unfold progress. rewrite Hi, Ht. cbn [omap list_omap]. pose proof (rests_none _ Hts) as E. unfold rests in E. by rewrite E.
  - destruct (task_alone _ _ _ p _ I Ht eq_refl) as (Hi & Hts & d & k & Hq & Hd).
    destruct (heap s !! p) as [so|] eqn:Hso; [|done].
    assert (read_ok pipe (with_thread ts s)) as R0.
    { eapply read_ok_mono; [exact R|done|..|apply R|apply R]; [|exact Hsub| |done].
      - eapply undone_sub, (ro_undone _ _ R); [done|]. unfold in_work, tokens. simpl. rewrite Ht, Hi. simpl. rewrite Hts. simpl. clear. set_solver.
      - intros q [Hin|Hin]; [left; rewrite Ht; by right|by right]. }
    assert (runs s p) as Hp by (left; rewrite Ht; by left).
    destruct (ro_running _ _ R p Hp) as (so' & Hso' & Hck). rewrite Hso in Hso'. injection Hso' as <-.
    eapply (read_start_io pipe calls p d k so (with_thread ts s)); try done.
    + exact (inv_take_task _ _ _ _ Ht I).
    + change (undone s p). eapply undone_token; [apply R|]. unfold tokens. rewrite Ht. by left.
    + unfold tokens. simpl. by rewrite Hts, Hi.
    + intros Hpipe. destruct T as [->|[Hn _]]; [|by destruct (Hn p)].
      unfold progress. rewrite Hi, Ht. cbn [omap list_omap]. unfold read_of. by rewrite Hso.
  - injection Hon as <- <-. apply fmap_Some in Hs as (so & Hso & ->). simpl in Hso.
    assert (read_inv pipe (with_thread ts s) t w) as RI1.
    { eapply read_inv_mono; [exact RI| |done|exact Hsub| |done|apply R|].
      - eapply undone_sub, (ro_undone _ _ R); [done|]. unfold in_work, tokens. by rewrite Ht.
      - simpl. by rewrite Ht.
      - intros r _ Hr _ _ Hh Htk. unfold tokens in Htk. rewrite Ht in Htk. by split_and!. }
    destruct (op_cancels (the_op so)) eqn:Ec; [|split; [done|by apply read_kept_silent]].
    destruct (read_inv_abortable pipe (with_thread ts s) t w) as [RI2 Ep]; [|done|].
    + intros i Hin. simpl in Hin. right. pose proof (si_cancels _ _ _ I) as Hc. rewrite Ht in Hc. destruct Hc as [Hc _].
      rewrite Forall_forall in Hc. assert (p = io_op i) as -> by (apply Hc; by apply list_elem_of_fmap_2).
      destruct (ro_running _ _ R (io_op i)) as (so' & Hso' & n & Hrd & _); [right; by apply list_elem_of_fmap_2|].
      rewrite Hso in Hso'. injection Hso' as <-. unfold read_of. simpl. rewrite Hso.
      cbn [op_cancels read_operation_ops] in Ec. apply bool_decide_eq_true in Ec. destruct Hrd as (bs & _ & _ & Hb).
      rewrite Ec in Hb. destruct (bytes_read (the_op so)); [done|]. simpl in Hb. lia.
    + split; [exact RI2|]. apply read_kept_silent; [done..|]. by rewrite Ep.
Qed.

(** The read that runs is the only one. *)
Lemma running_io pipe s t w i l :
  side_inv [] pipe s → read_inv pipe s t w → ios s = i :: l →
  ∃ so n d k, heap s !! io_op i = Some so ∧ has_read (read_of s (io_op i)) n (the_op so) ∧
    (length (read_of s (io_op i)) + n ≤ ReadOperation.MaxTransferMessageSize)%nat ∧ room_of s (io_op i) = n ∧
    t = progress s ∧ l = [] ∧ omap task_op (thread s) = [] ∧ m_ops s = d :: k ∧ op d = io_op i ∧ op (captured so) = io_op i ∧
    to_start s = op <$> tail (m_ops s) ∧ io_op i ∉ to_start s.
Proof.
  intros I [R T _] Hi. destruct (io_alone _ _ _ _ I Hi) as (-> & Hts & d & k & Hq & Hd).
  assert (runs s (io_op i)) as Hr by (right; rewrite Hi; by left).
  destruct (ro_running _ _ R _ Hr) as (so & Hso & n & Hrd & Hn).
  assert (read_of s (io_op i) = bytes_read (the_op so)) as Eb by (unfold read_of; by rewrite Hso).
  assert (to_start s = op <$> tail (m_ops s)) as Es by (unfold to_start, unstarted; by rewrite no_start_tasks).
  destruct (si_heap _ _ _ I (op d)) as (so' & Hso' & Hcap & _); [apply (si_queue _ _ _ I); rewrite Hq; by left|].
  rewrite Hd, Hso in Hso'. injection Hso' as <-.
  exists so, n, d, k. rewrite Eb. split_and!; try done.
  - unfold room_of. rewrite Hso. by apply (reading_sizes _ _ _ Hrd).
  - destruct T as [?|[Hnr _]]; [done|by destruct (Hnr (io_op i))].
  - congruence.
  - rewrite Es. destruct (tokens_one pipe s (io_op i) [] I) as (_ & _ & Hnot).
    { unfold tokens. by rewrite Hts, Hi. }
    rewrite !not_elem_of_app in Hnot. tauto.
Qed.

Lemma read_io_ends st pipe s t w s' tk w' :
  side_inv [] pipe s → read_inv pipe s t w → io_ends st s = Some s' → gives st s t w = Some (tk, w') →
  read_inv pipe s' tk w' ∧ read_kept s t w s' tk w'.
Proof.
  intros I RI Hs Hg. pose proof RI as [R T W]. pose proof (undone_io_ends _ _ _ (ro_undone _ _ R) Hs) as U.
  unfold io_ends in Hs. unfold gives in Hg. destruct (ios s) as [|[p ab|] l] eqn:Hi; [done| |done].
  destruct (running_io _ _ _ _ _ _ I RI Hi) as (so & n & d & k & Hso & Hrd & Hn & Hroom & Ht & -> & _). simpl in *.
  destruct (is_aborted st && negb ab) eqn:Eab; [done|]. apply (inj Some) in Hs. rewrite Hso in Hg.
  destruct (reading_sizes _ _ _ Hrd) as [Hbk _]. rewrite Hbk in Hg. unfold progress in Ht. rewrite Hi in Ht.
  assert (packet_fits n st ∧ tk = progress s' ∧ (tk ≠ [] → w' ≠ []) ∧ in_packet s' ++ attach tk w' = attach t w) as (Hfit & Ep & Hw & Ea).
  { unfold progress, in_packet. rewrite <- Hs. simpl. change (read_of (with_ios _ s) p) with (read_of s p). rewrite <- Ht.
    destruct st as [bytes|bytes|b|b]; [destruct w as [|m w1]; [done|]; case_decide as Hc; [|done]..|split_and!; by simplify_eq|].
    - destruct Hc as [-> Hl]. injection Hg as <- <-. split_and!; [done..|by destruct w1].
    - destruct Hc as [Hl ->]. injection Hg as <- <-. split_and!; [simpl; rewrite length_take; lia|done..|].
      simpl. by rewrite <- app_assoc, take_drop.
    - split_and!; by simplify_eq. }
  assert (ios s' = [Packet p st] ∧ heap s' = heap s) as [Hi' Hh] by by rewrite <- Hs.
  split; [split; [split|by left|done]|].
  - done.
  - rewrite <- Hs. apply (ro_fresh _ _ R).
  - intros q Hq. eapply same_data_ok; [unfold content; by rewrite Hh|]. apply (ro_running _ _ R). unfold runs in *. rewrite <- Hs in Hq.
    by rewrite Hi.
  - rewrite Hi'. intros q st' [= -> ->]%list_elem_of_singleton. rewrite (same_room_of s) by (unfold content; by rewrite Hh).
    by rewrite Hroom.
  - rewrite Hi'. intros i ->%list_elem_of_singleton Hm. simpl in Hm. rewrite Hm in Eab. destruct ab; [|done].
    rewrite (same_read_of s) by (unfold content; by rewrite Hh). apply (ro_abort _ _ R (Pending p true)); [|done]. rewrite Hi. by left.
  - rewrite Hh. apply (ro_canceled _ _ R).
  - rewrite <- Hs. apply (ro_success _ _ R).
  - apply read_kept_silent; [by rewrite <- Hs..|]. rewrite Ea. unfold in_packet. by rewrite Hi.
Qed.

(** The worker with a packet. *)
Lemma on_packet_cases st o taken n :
  has_read taken n o → (length taken + n ≤ ReadOperation.MaxTransferMessageSize)%nat → packet_fits n st →
  match op_packet st o with
  | Finished o' => ∀ bytes, st = IoSuccess bytes → known (op_value o') = taken ++ bytes
  | MoreToRead o' => ∃ bytes, st = IoMoreData bytes ∧ chunk_ok (taken ++ bytes) o'
  end.
Proof.
  pose proof max_size_fits as Hmax. intros Hr Hn Hf. cbn [op_packet op_value read_operation_ops].
  destruct st as [bytes|bytes|b|b]; cbn [ReadOperation.on_packet].
  - destruct (reading_success taken n o bytes Hr Hf) as (o' & E & _ & Ev).
    { rewrite length_app. simpl in Hf. lia. }
    cbn [ReadOperation.on_packet] in E. injection E as <-. intros bytes' [= <-]. rewrite Ev. apply known_some.
  - simpl in Hf. pose proof (reading_more taken n o bytes Hr Hf ltac:(lia)) as Hm. rewrite Hf. case_decide as Hfull.
    + rewrite Hm. intros ? [=].
    + destruct Hm as (o2 & -> & _ & Ho2). exists bytes. split; [done|]. eexists. split; [exact Ho2|].
      rewrite length_app, Hf. unfold next_chunk. lia.
  - intros ? [=].
  - intros ? [=].
Qed.

Lemma packet_res_canceled st r : packet_res st r = canceled → r = canceled.
Proof. destruct st; [done|..]; simpl; [|done|]; by destruct r. Qed.
Lemma packet_res_fails st r : r ≠ success → ¬ is_success st → packet_res st r ≠ success.
Proof. destruct st; [done|..]; simpl; [|done|]; by destruct r. Qed.

Lemma read_run_worker pipe s t w s' :
  side_inv [] pipe s → read_inv pipe s t w → run_worker s = Some s' → read_inv pipe s' t w ∧ read_kept s t w s' t w.
Proof.
  intros I RI Hs. pose proof RI as [R T W]. pose proof (undone_run_worker _ _ _ I (ro_undone _ _ R) Hs) as U.
  unfold run_worker in Hs. destruct (ios s) as [|[|p st] l] eqn:Hi; [done..|].
  destruct (running_io _ _ _ _ _ _ I RI Hi) as (so & n & d & k & Hso & Hrd & Hn & Hroom & Ht & -> & Hts & Hq & Hd & Hcap & Hst & Hp).
  simpl in Hso, Hrd, Hn, Hroom, Hd, Hcap, Hp. rewrite Hso in Hs.
  assert (packet_fits n st) as Hfit by (rewrite <- Hroom; apply (ro_packet _ _ R); rewrite Hi; by left).
  assert (op_res (the_op so) ≠ success) as Hns.
  { eapply undone_token; [apply R| |exact Hso]. unfold tokens. rewrite Hi, elem_of_app. right. by left. }
  pose proof (on_packet_cases st (the_op so) _ n Hrd Hn Hfit) as Hcase.
  assert (∀ q, Rest q ∉ thread s) as Hnr.
  { intros q Hin. assert (q ∈ omap task_op (thread s)) as Hq' by (apply list_elem_of_omap; by eexists).
    rewrite Hts in Hq'. by apply elem_of_nil in Hq'. }
  assert (∀ o q, p ≠ q → content (update (λ _, o) p (with_ios [] s)) q = content s q) as Hcont
    by (intros o q Hne; by rewrite content_update).
  destruct (op_packet st (the_op so)) as [o|o] eqn:Ep.
  - apply op_packet_finished in Ep. apply resolve_result in Hs as (so2 & Hso2 & ->). simpl in Hso2.
    rewrite lookup_alter_eq, Hso in Hso2. injection Hso2 as <-. simpl the_op. simpl captured.
    set (r := Resolved _ _ _ _). set (s1 := with_callbacks _ _).
    assert (rests (thread s) = []) as Hre by by apply rests_none.
    split; [split; [|..|done]|].
    + eapply read_ok_mono; [exact R|..]; try done.
      * intros q [Hin|[Hin|Hin]]; [|by destruct (Hnr q)|by apply elem_of_nil in Hin]. apply Hcont. by intros ->.
      * intros q [Hin|Hin]; [by destruct (Hnr q)|by apply elem_of_nil in Hin].
      * intros i Hin. by apply elem_of_nil in Hin.
      * intros q so'. simpl. destruct (decide (p = q)) as [<-|Hne].
        -- rewrite lookup_alter_eq, Hso. intros [= <-]. change (op_res o = canceled → pipe = false). rewrite Ep. intros E%packet_res_canceled.
           by eapply (ro_canceled _ _ R).
        -- rewrite lookup_alter_ne by done. apply (ro_canceled _ _ R).
      * simpl. intros r' [Hr| ->%list_elem_of_singleton]%elem_of_app; [by apply (ro_success _ _ R)|]. intros _. exists d, k.
        split; [done|]. simpl. congruence.
    + assert (progress s1 = []) as Epr by (unfold progress; simpl; fold (rests (thread s)); by rewrite Hre).
      assert (t = [] ∨ pipe = false ∨ op_res o = failed) as Hcs.
      { unfold progress in Ht. rewrite Hi in Ht. rewrite Ep. destruct st as [bytes|bytes|b|b]; [by left|..].
        - right. destruct (op_res (the_op so)) eqn:Er; simpl; try done; auto. left. by eapply (ro_canceled _ _ R).
        - rewrite Ht. destruct (ro_abort _ _ R (Packet p (IoAborted b))) as [?|?]; [rewrite Hi; by left|done|auto|by left].
        - right. destruct (op_res (the_op so)) eqn:Er; simpl; try done; auto. left. by eapply (ro_canceled _ _ R). }
      destruct Hcs as [->|Hcs]; [left; by rewrite Epr|right]. split.
      * intros q [Hin|Hin]; [by destruct (Hnr q)|by apply elem_of_nil in Hin].
      * destruct Hcs as [?|Hf]; [by left|right]. split; [unfold tokens; simpl; by rewrite Hts|]. exists r. split_and!; try done.
        -- simpl. rewrite elem_of_app. right. by left.
        -- exists d, k. split; [done|]. simpl. congruence.
    + destruct (decide (is_success st)) as [Hsu|Hsu].
      * destruct st as [bytes| | |]; [|done..]. exists []. split; [by rewrite app_nil_r|]. unfold arrived, in_packet. rewrite Hi. simpl.
        assert (succeeded r = Some (read_of s p ++ bytes)) as Er.
        { unfold succeeded. rewrite decide_True by exact Ep. by rewrite <- (Hcase bytes eq_refl). }
        rewrite omap_app, app_nil_r. simpl. by rewrite Er.
      * apply read_kept_silent; [done|apply succeeded_fails; change (op_res o ≠ success); rewrite Ep; by apply packet_res_fails|].
        unfold in_packet. rewrite Hi. by destruct st.
  - destruct Hcase as (bytes & -> & Hck). apply op_packet_more in Ep. apply (inj Some) in Hs. subst s'.
    set (s1 := post _ _) in *.
    assert (heap s1 !! p = Some (SharedOp o (captured so))) as Hp1 by (simpl; by rewrite lookup_alter_eq, Hso).
    destruct (chunk_ok_bytes _ _ Hck) as [Hok Hb].
    assert (∀ q, runs s1 q → q = p) as Hrun.
    { intros q [[Hin|Hin%list_elem_of_singleton]%elem_of_app|Hin]; [by destruct (Hnr q)|by simplify_eq|by apply elem_of_nil in Hin]. }
    split; [split; [split|..|done]|].
    + done.
    + intros q Hin. assert (q ∈ to_start s) as Hin'.
      { unfold to_start, unstarted in *. simpl in Hin. by rewrite existsb_app, !orb_false_r in Hin. }
      destruct (ro_fresh _ _ R q Hin') as [? ?].
      assert (content s1 q = content s q) as E by (apply Hcont; by intros ->).
      split; [by eapply same_data_ok|by rewrite (same_read_of s)].
    + intros q ->%Hrun. eexists. by split.
    + intros q st Hin. by apply elem_of_nil in Hin.
    + intros i Hin. by apply elem_of_nil in Hin.
    + intros q so'. simpl. destruct (decide (p = q)) as [<-|Hne].
      * rewrite lookup_alter_eq, Hso. intros [= <-]. change (op_res o = canceled → pipe = false). rewrite Ep. by apply (ro_canceled _ _ R p).
      * rewrite lookup_alter_ne by done. apply (ro_canceled _ _ R).
    + apply (ro_success _ _ R).
    + left. unfold progress in *. rewrite Hi in Ht. simpl. rewrite omap_app. pose proof (rests_none _ Hts) as E. unfold rests in E.
      rewrite E. simpl. rewrite Ht. unfold read_of at 2. rewrite Hp1. cbn [the_op]. by rewrite Hb.
    + apply read_kept_silent; [done..|]. unfold in_packet. by rewrite Hi.
Qed.

(** ** Callbacks and timeouts *)
Lemma read_resolve_timed_out pipe n s t w s' :
  read_inv pipe s t w → resolve_timed_out n s = Some s' → read_inv pipe s' t w ∧ read_kept s t w s' t w.
Proof.
  intros RI Hs. pose proof RI as [R T W]. pose proof (undone_resolve_timed_out _ _ _ (ro_undone _ _ R) Hs) as U.
  unfold resolve_timed_out in Hs. destruct (resolving s !! n) as [p|] eqn:Hn; [|done].
  apply resolve_result in Hs as (so & Hso & ->). simpl in Hso.
  assert (op_res (the_op so) ≠ success) as Hns.
  { apply (ro_undone _ _ R p); [|done]. unfold in_work. rewrite !elem_of_app. right. right. left. by eapply list_elem_of_lookup_2. }
  split; [|by apply read_kept_silent; [|apply succeeded_fails|]].
  eapply read_inv_mono; [exact RI|done..| |].
  - simpl. intros r [Hr| ->%list_elem_of_singleton]%elem_of_app; [by apply (ro_success _ _ R)|done].
  - intros r _ Hr _ _ Hh Htk. split_and!; [done|simpl; rewrite elem_of_app; by left|done].
Qed.

Lemma read_weaken pipe s t w : read_inv pipe s t w → read_inv false s t w.
Proof.
  intros [R T W]. split; [split; try apply R; by auto|..|done].
  - destruct T as [T|[Hn _]]; [by left|right]. by split; [|left].
Qed.

Lemma omap_insert_same {A B} (f : A → option B) (l : list A) (n : nat) x y : l !! n = Some x → f y = f x → omap f (<[n := y]> l) = omap f l.
Proof.
  revert n. induction l as [|z l IH]; intros [|n] Hn E; simplify_eq/=; [by rewrite E|]. by rewrite IH.
Qed.
Lemma omap_delete_none {A B} (f : A → option B) (l : list A) (n : nat) x : l !! n = Some x → f x = None → omap f (delete n l) = omap f l.
Proof. revert n. induction l as [|z l IH]; intros [|n] Hn E; simplify_eq/=; [by rewrite E|]. by rewrite IH. Qed.
Lemma omap_delete_alone {A B} (f : A → option B) (l : list A) (n : nat) x b :
  l !! n = Some x → f x = Some b → omap f (delete n l) = [] → omap f l = [b].
Proof.
  revert n. induction l as [|z l IH]; intros [|n] Hn E Hd; simplify_eq/=; [by rewrite E, Hd|].
  destruct (f z); [done|]. by eapply IH.
Qed.

Lemma read_check_callback pipe n r s t w s' :
  read_inv pipe s t w → check_callback n s = Some (r, s') →
  read_inv (if decide (r = failed) then false else pipe) s' t w ∧ read_kept s t w s' t w.
Proof.
  intros RI Hs. pose proof (undone_check_callback _ _ _ _ (ro_undone _ _ (rd_ok _ _ _ _ RI)) Hs) as U.
  destruct (check_callback_same _ _ _ _ Hs) as [(c & Hc & -> & Hck & ->) _].
  split; [|by apply read_kept_silent; [|eapply omap_insert_same|]].
  assert (read_inv (if decide (r_res c = failed) then false else pipe) s t w) as RI'.
  { case_decide; [by eapply read_weaken|done]. }
  eapply read_inv_mono; [exact RI'|done..| |].
  - simpl. intros r' (i & [(_ & <- & _)|[_ Hi]]%list_lookup_insert_Some)%list_elem_of_lookup Hr.
    + apply (ro_success _ _ (rd_ok _ _ _ _ RI) c); [by eapply list_elem_of_lookup_2|done].
    + apply (ro_success _ _ (rd_ok _ _ _ _ RI) r'); [by eapply list_elem_of_lookup_2|done].
  - intros r' Hp (i & Hi)%list_elem_of_lookup Hf _ Hh Htk. case_decide as Hd; [done|]. split_and!; [done| |done].
    apply (list_elem_of_lookup_2 _ i). simpl. rewrite list_lookup_insert_ne; [done|]. intros <-. congruence.
Qed.

(** A promise is answered once. *)
Lemma head_answer_once pipe n r r' s :
  side_inv [] pipe s → callbacks s !! n = Some r → r' ∈ delete n (callbacks s) → of_head s r → of_head s r' → False.
Proof.
  intros I Hn Hr' (d & l & Hq & Hd) (d' & l' & Hq' & Hd'). rewrite Hq in Hq'. simplify_eq.
  pose proof (side_accounted_once _ _ _ (op (r_data r)) I) as Ho. unfold accounted, answered in Ho.
  pose proof (delete_Permutation _ _ _ Hn) as Hp. revert Hp Hr'. generalize (delete n (callbacks s)). intros cbs Hp Hr'.
  rewrite Hp in Ho. rewrite !occ_app in Ho. cbn [fmap list_fmap] in Ho. rewrite occ_cons, decide_True in Ho by done.
  apply (list_elem_of_fmap_2 (λ r, op (r_data r))), occ_elem in Hr'. rewrite <- Hd', Hd in Hr'. unfold list_fmap in *. lia.
Qed.

Lemma read_finish_callback pipe n r s t w :
  side_inv [] pipe s → read_inv pipe s t w → callbacks s !! n = Some r → checked r = true →
  read_inv pipe (finish_callback n r s).1 t w ∧ read_kept s t w (finish_callback n r s).1 t w.
Proof.
  intros I RI Hn Hck. pose proof RI as [R T W]. pose proof (undone_finish_callback n r _ (ro_undone _ _ R)) as U.
  pose proof (list_elem_of_lookup_2 _ _ _ Hn) as Hr. destruct (si_callbacks _ _ _ I r Hr) as [_ Hid].
  pose proof (λ r', head_answer_once pipe n r r' s I Hn) as Hone.
  assert (∀ r', r' ∈ callbacks s → checked r' = false → r' ∈ delete n (callbacks s)) as Hdel.
  { intros r' Hr' Hc. rewrite (delete_Permutation _ _ _ Hn) in Hr'. apply elem_of_cons in Hr' as [->|?]; [congruence|done]. }
  assert (∀ r', r' ∈ delete n (callbacks s) → r' ∈ callbacks s) as Hsub.
  { intros r' Hr'. eapply elem_of_sublist; [exact Hr'|apply sublist_delete]. }
  assert (∀ s', log s' = log s ++ [(op (r_data r), to_pipe_op_res (r_res r), r_value r)] → callbacks s' = delete n (callbacks s) →
                heap s' = heap s → ios s' = ios s → read_kept s t w s' t w) as Hkept.
  { intros s' El Ec Eh Ei. eexists. split; [exact El|]. unfold arrived. rewrite Ec, (alike_in_packet s) by (done || by apply alike_heap).
    rewrite !app_assoc. do 2 f_equal. cbn [fmap list_fmap omap list_omap].
    assert (received_message (to_result (op (r_data r), to_pipe_op_res (r_res r), r_value r)) = succeeded r) as ->.
    { unfold received_message, to_result, succeeded. simpl. by destruct (r_res r). }
    destruct (succeeded r) as [v|] eqn:Er; [|by eapply omap_delete_none].
    assert (r_res r = success) as Hsu by (unfold succeeded in Er; by case_decide).
    assert (omap succeeded (delete n (callbacks s)) = []) as E0.
    { destruct (omap succeeded (delete n (callbacks s))) as [|v' vs] eqn:Ev; [done|]. exfalso.
      assert (v' ∈ omap succeeded (delete n (callbacks s))) as (r' & Hr' & Hv)%list_elem_of_omap by (rewrite Ev; by left).
      assert (r_res r' = success) by (unfold succeeded in Hv; by case_decide).
      apply (Hone r'); [done|by apply (ro_success _ _ R)|]. apply (ro_success _ _ R); [by apply Hsub|done]. }
    rewrite E0. by rewrite (omap_delete_alone _ _ _ _ _ Hn Er E0). }
  unfold finish_callback, complete_op in *. simpl in *. destruct (m_ops s) as [|d l] eqn:Hq; [|case_decide as E]; simpl in *.
  - split; [|by apply Hkept]. eapply read_inv_mono; [exact RI|done|done| |done|done|..].
    + unfold to_start, unstarted. simpl. by rewrite Hq.
    + intros r' Hr' Hs'. destruct (ro_success _ _ R r') as (d & l & Hq' & _); [by apply Hsub|done|congruence].
    + intros r' _ _ _ _ (d & l & Hq' & _). congruence.
  - assert (id d = Z.of_nat (op d)) as Hidd by (apply (si_queue _ _ _ I); rewrite Hq; by left).
    assert (of_head s r) as Hh by (exists d, l; split; [done|lia]).
    assert (tokens s = []) as Ht.
    { eapply answer_alone; [done..|]. replace (op d) with (op (r_data r)) by lia. by apply (list_elem_of_fmap_2 (λ r, op (r_data r))). }
    destruct (app_nil (omap task_op (thread s)) (io_op <$> ios s)) as [[Hts Hi%fmap_nil_inv] _]; [exact Ht|].
    pose proof (no_start_tasks _ Hts) as Hns. split; [|apply Hkept; by destruct l].
    eapply read_inv_mono; [exact RI|done|by destruct l| | |by destruct l|..].
    + unfold to_start, unstarted. rewrite Hq, Hns. destruct l; simpl; [by rewrite Hns|]. by rewrite existsb_app, Hns.
    + destruct l; [done|]. simpl. unfold rests. rewrite omap_app. simpl. by rewrite app_nil_r.
    + intros r' Hr' Hs'. destruct (Hone r'); [by destruct l|done|]. apply (ro_success _ _ R); [|done]. apply Hsub. by destruct l.
    + intros r' _ Hr' _ Hc Hh' _. destruct (Hone r'); [by apply Hdel|done|done].
  - split; [|by apply Hkept]. eapply read_inv_mono; [exact RI|done|done| |done|done|..].
    + unfold to_start, unstarted. simpl. by rewrite Hq.
    + intros r' Hr' Hs'. destruct (ro_success _ _ R r') as (d' & l' & Hq' & ?); [by apply Hsub|done|]. exists d', l'. by rewrite <- Hq, Hq'.
    + intros r' _ Hr' _ Hc (d' & l' & Hq' & ?) Htk. split_and!; [done|by apply Hdel|]. exists d', l'. by rewrite <- Hq, Hq'.
Qed.

(** Results other than [success] do not matter to what is read. *)
Lemma read_set_result pipe f q s t w :
  (∀ r, f r = success → r = success) → (∀ r, f r = canceled → r = canceled ∨ pipe = false) →
  read_inv pipe s t w → read_inv pipe (set_result f q s) t w.
Proof.
  intros Hf Hc [R T W]. pose proof (alike_set_result f q s) as A.
  split; [|by rewrite (alike_progress s)|done]. eapply read_ok_mono; [exact R|done|by apply undone_set_result, R|done..| |apply R].
  intros p so. simpl. destruct (decide (q = p)) as [->|Hne].
  - rewrite lookup_alter_eq. intros (so0 & Hso & ->)%fmap_Some. simpl. intros [E|?]%Hc; [|done]. by eapply (ro_canceled _ _ R).
  - rewrite lookup_alter_ne by done. apply (ro_canceled _ _ R).
Qed.
Lemma read_set_results pipe f l s t w :
  (∀ r, f r = success → r = success) → (∀ r, f r = canceled → r = canceled ∨ pipe = false) →
  read_inv pipe s t w → read_inv pipe (foldl (λ s d, set_result f (op d) s) s l) t w.
Proof. intros Hf Hc. revert s. induction l as [|d l IH]; intros s RI; [done|]. simpl. apply IH. by apply read_set_result. Qed.

Lemma read_cancel_op_by_timeout pipe i s t w :
  read_inv pipe s t w → read_inv pipe (cancel_op_by_timeout i s) t w ∧ read_kept s t w (cancel_op_by_timeout i s) t w.
Proof.
  intros RI. pose proof (undone_cancel_op_by_timeout i _ (ro_undone _ _ (rd_ok _ _ _ _ RI))) as U.
  unfold cancel_op_by_timeout in *. destruct (list_find _ (m_ops s)) as [[n d]|] eqn:Ef; [|split; [done|apply read_kept_refl]].
  apply list_find_Some in Ef as (Hn & _ & _).
  assert (read_inv pipe (set_result set_timeout_if_possible (op d) s) t w) as RI1.
  { apply read_set_result; [exact timeout_not_success| |done]. intros r. destruct r; simpl; by auto. }
  pose proof (alike_set_result set_timeout_if_possible (op d) s) as A. set (s1 := set_result set_timeout_if_possible (op d) s) in *.
  assert (m_ops s1 = m_ops s ∧ callbacks s1 = callbacks s ∧ ios s1 = ios s ∧ thread s1 = thread s ∧ log s1 = log s) as (E1 & E2 & E3 & E4 & E5) by done.
  assert (∀ s', heap s' = heap s1 → ios s' = ios s1 → log s' = log s1 → callbacks s' = callbacks s1 → read_kept s t w s' t w) as Hk.
  { intros s' F1 F2 F3 F4. apply read_kept_silent; [by rewrite F3|by rewrite F4|]. rewrite (alike_in_packet s); [done| |by rewrite F2].
    eapply alike_trans; [exact A|by apply alike_heap]. }
  case_decide as Hh.
  - split; [|by apply Hk]. eapply read_inv_mono; [exact RI1|done|done|..|done|apply RI1|].
    + unfold to_start, unstarted, post. simpl. by rewrite existsb_app, !orb_false_r.
    + unfold rests, post. simpl. rewrite omap_app. simpl. by rewrite app_nil_r.
    + intros r _ Hr _ _ Hhd Htk. split_and!; [|done|done]. unfold tokens, post. simpl. rewrite omap_app. simpl. by rewrite app_nil_r.
  - split; [|by apply Hk].
    assert (∃ d0 l, m_ops s1 = d0 :: l ∧ delete n (m_ops s1) = d0 :: delete (Nat.pred n) l) as (d0 & l & Hq & Hdel).
    { rewrite E1 in *. destruct (m_ops s) as [|d0 l]; [done|]. destruct n as [|n]; [by simplify_eq/=|]. by exists d0, l. }
    assert (∀ r, of_head s1 r → of_head (with_resolving (resolving s1 ++ [op d]) (with_ops (delete n (m_ops s1)) s1)) r) as Hhd.
    { intros r (d1 & l1 & Hq1 & Hd1). rewrite Hq in Hq1. simplify_eq. by exists d1, (delete (Nat.pred n) l1). }
    eapply read_inv_mono; [exact RI1|done|done| |done|done|..].
    + intros q (x & -> & Hx)%list_elem_of_fmap. apply list_elem_of_fmap_2. unfold unstarted in *. cbn [thread with_resolving with_ops m_ops] in Hx.
      rewrite Hdel in Hx. rewrite Hq. simpl in *. pose proof (sublist_delete l (Nat.pred n)) as Hs.
      destruct (existsb _ _); [|by eapply elem_of_sublist]. apply elem_of_cons in Hx as [->|Hx]; [by left|right; by eapply elem_of_sublist].
    + intros r Hr Hsu. by apply Hhd, (ro_success _ _ (rd_ok _ _ _ _ RI1)).
    + intros r _ Hr _ _ Hh' Htk. split_and!; [done|done|by apply Hhd].
Qed.

(** The pipe is closed. *)
Lemma read_invalidate_side pipe by_cancel s t w :
  read_inv pipe s t w → read_inv false (invalidate_side by_cancel s) t w ∧ read_kept s t w (invalidate_side by_cancel s) t w.
Proof.
  intros RI%read_weaken. unfold invalidate_side. set (f := if by_cancel then _ else _).
  assert (read_inv false (foldl (λ s d, set_result f (op d) s) s (m_ops s)) t w) as RI1.
  { apply read_set_results; [|by right|done]. unfold f. destruct by_cancel; [exact canceled_not_success|exact failed_not_success]. }
  pose proof (alike_set_results f (m_ops s) s) as A. pose proof (foldl_set_result f (m_ops s) s) as E.
  revert RI1 A E. generalize (foldl (λ s d, set_result f (op d) s) s (m_ops s)). intros s1 RI1 A E.
  assert (ios s1 = ios s ∧ callbacks s1 = callbacks s ∧ log s1 = log s) as (E1 & E2 & E3) by (rewrite E; done).
  destruct (read_inv_abortable false s1 t w) as [RI2 Ep]; [by left|done|]. split; [exact RI2|].
  apply read_kept_silent; [exact E3|simpl; by rewrite E2|]. rewrite Ep. by rewrite (alike_in_packet s).
Qed.

(** *** A new read *)
Lemma create_ok : chunk_ok [] ReadOperation.create.
Proof.
  exists ReadOperation.first_chunk. split; [apply reading_create|]. exact first_chunk_fits.
Qed.
Lemma read_push pipe tid s t w :
  side_inv [] pipe s → read_inv pipe s t w →
  read_inv pipe (push ReadOperation.create tid s) t w ∧ read_kept s t w (push ReadOperation.create tid s) t w.
Proof.
  intros I RI. pose proof RI as [R T W]. assert (op_res ReadOperation.create ≠ success) as Ho by done.
  pose proof (undone_push ReadOperation.create tid s Ho (ro_undone _ _ R)) as U.
  set (s' := push _ tid s) in *. set (p := next_op s).
  assert (heap s' = <[p := SharedOp ReadOperation.create (OpData (m_next_op_id s) tid p)]> (heap s)) as Hh
    by (unfold s', push; by case_decide).
  assert (ios s' = ios s ∧ log s' = log s ∧ callbacks s' = callbacks s ∧ (m_ops s ≠ [] → tokens s' = tokens s) ∧
          (∀ r, of_head s r → of_head s' r) ∧ rests (thread s') = rests (thread s) ∧ (∀ q, runs s' q → runs s q) ∧
          to_start s' ⊆ p :: to_start s) as (E1 & E2 & E3 & E4 & E5 & E6 & E7 & E8).
  { unfold s', push. rewrite length_app. simpl. destruct (m_ops s) as [|d l] eqn:Hq; simpl.
    - split_and!; try done.
      + intros r (d & l & Hq' & _). congruence.
      + unfold rests, post. simpl. rewrite omap_app. simpl. by rewrite app_nil_r.
      + intros q [[Hin|Hin%list_elem_of_singleton]%elem_of_app|Hin]; [by left|done|by right].
      + unfold to_start, unstarted, post. simpl. rewrite existsb_app, orb_true_r. simpl. clear. set_solver.
    - case_decide; [lia|]. split_and!; try done.
      + intros r (d' & l' & Hq' & Hd). rewrite Hq in Hq'. simplify_eq. by eexists _, _.
      + unfold to_start, unstarted. simpl. rewrite Hq. destruct (existsb _ _); simpl; rewrite fmap_app; simpl; clear; set_solver. }
  assert (∀ q, (q < p)%nat → content s' q = content s q) as Hc.
  { intros q Hq. unfold content. rewrite Hh, lookup_insert_ne; [done|]. intros <-. lia. }
  assert (∀ q, runs s q → (q < p)%nat) as Hlt.
  { intros q Hq. eapply side_accounted_lt; [done|]. unfold accounted, tokens. rewrite !elem_of_app. do 3 right. left.
    destruct Hq as [Hq|Hq]; [left|by right]. apply list_elem_of_omap. by exists (Rest q). }
  assert (∀ q, q ∈ to_start s → (q < p)%nat) as Hlt'.
  { intros q (d & -> & Hd)%list_elem_of_fmap. apply (si_queue _ _ _ I). unfold unstarted in Hd.
    destruct (existsb _ _); [done|]. destruct (m_ops s); [done|by right]. }
  assert (∀ i, i ∈ ios s → (io_op i < p)%nat) as Hlti by (intros i Hi; apply Hlt; right; by apply list_elem_of_fmap_2).
  split; [split; [split|..|done]|].
  - done.
  - intros q [->|Hq]%E8%elem_of_cons.
    + destruct (chunk_ok_bytes _ _ create_ok) as [Hk Hb]. split; [eexists; split; [by rewrite Hh, lookup_insert_eq|exact Hk]|].
      unfold read_of. rewrite Hh, lookup_insert_eq. exact Hb.
    + destruct (ro_fresh _ _ R q Hq). specialize (Hc q (Hlt' q Hq)). split; [by eapply same_data_ok|by rewrite (same_read_of s)].
  - intros q Hq%E7. eapply same_data_ok; [by apply Hc, Hlt|]. by apply (ro_running _ _ R).
  - rewrite E1. intros q st Hq. rewrite (same_room_of s); [by apply (ro_packet _ _ R)|]. by apply Hc, (Hlti (Packet q st)).
  - rewrite E1. intros i Hi Ha. rewrite (same_read_of s); [by apply (ro_abort _ _ R)|]. by apply Hc, Hlti.
  - intros q so. rewrite Hh. destruct (decide (p = q)) as [<-|Hne].
    + rewrite lookup_insert_eq. by intros [= <-].
    + rewrite lookup_insert_ne by done. apply (ro_canceled _ _ R).
  - rewrite E3. intros r Hr Hs. by apply E5, (ro_success _ _ R).
  - assert (progress s' = progress s) as ->.
    { unfold progress. rewrite E1. destruct (ios s) as [|i l] eqn:Hi.
      - fold (rests (thread s')) (rests (thread s)). rewrite E6. destruct (rests (thread s)) as [|q l] eqn:Er; [done|].
        rewrite (same_read_of s); [done|]. apply Hc, Hlt. left.
        assert (q ∈ rests (thread s)) as ([] & Hin & [= ->])%list_elem_of_omap by (rewrite Er; by left). done.
      - assert (read_of s' (io_op i) = read_of s (io_op i)) as E by (apply same_read_of, Hc, Hlti; rewrite ?Hi; by left).
        destruct i as [q ab|q []]; simpl in E; by rewrite ?E. }
    destruct T as [T|[Hn Hst]]; [by left|right]. split; [intros q Hq; by apply (Hn q), E7|].
    destruct Hst as [?|(Htk & r & H1 & H2 & H3 & H4)]; [by left|right]. rewrite E4; [|destruct H4 as (? & ? & -> & _); done].
    split; [done|]. exists r. rewrite E3. split_and!; try done. by apply E5.
  - apply read_kept_silent; [done|by rewrite E3|]. f_equal. unfold in_packet. rewrite E1.
    destruct (ios s) as [|[|q []] l] eqn:Hi; try done. rewrite (same_read_of s); [done|]. apply Hc, (Hlti (Packet q (IoSuccess bytes))).
    by left.
Qed.

Lemma read_inv_empty : read_inv true empty_side [] [].
Proof.
  split; [split|by left|done].
  - intros p Hp. by apply elem_of_nil in Hp.
  - intros q Hq. by apply elem_of_nil in Hq.
  - intros q [Hq|Hq]; by apply elem_of_nil in Hq.
  - intros q st Hq. by apply elem_of_nil in Hq.
  - intros i Hi. by apply elem_of_nil in Hi.
  - done.
  - intros r Hr. by apply elem_of_nil in Hr.
Qed.
