(* ===== verification/WinPipeLaws.v ===== *)
(** * Two Windows endpoints are a pipe

    The endpoints of a Windows pipe and the system between them have the laws of
    the interface, and lose nothing while both are connected and no write fails. *)
From S2P Require Import Prelude RpcTypes Timer WinOperation WinPipe WinPipeFacts Pipe WinPair WinPairFacts WinPairReads.
Import WinRes WinPipe WinPair.
Local Open Scope Z_scope.

Module WinPipeLaws.
Implicit Types (p : pair) (e : impl).

(** ** Operations are numbered by the calls only *)
Section next.
Context {Op : Type} `{OperationLaws Op}.
Implicit Types s : side Op.

Lemma next_resolve q s s' : resolve q s = Some s' → next_op s' = next_op s.
Proof. by intros (so & _ & ->)%resolve_result. Qed.
Lemma next_start_io pipe calls q s s' : start_io pipe calls q s = Some s' → next_op s' = next_op s.
Proof.
  unfold start_io. destruct (heap s !! q); [|done]. destruct (op_start _ _) as [[] o]; [by intros ->%next_resolve|by intros [= <-]].
Qed.
Lemma next_side_step pipe s s' : side_step pipe s s' → next_op s' = next_op s.
Proof.
  intros [calls s1 Hs|st s1 Hs|s1 Hs|n s1 Hs].
  - unfold run_task in Hs. destruct (thread s) as [|[q|q|q|q] ts]; [done|..].
    + destruct (heap _ !! q); [|done]. case_decide; [by simplify_eq|by apply next_resolve in Hs].
    + by apply next_start_io in Hs.
    + by apply next_start_io in Hs.
    + apply fmap_Some in Hs as (so & _ & ->). by destruct (op_cancels _).
  - unfold io_ends in Hs. destruct (ios s) as [|[] l]; [done| |done]. case_match; by simplify_eq.
  - unfold run_worker in Hs. destruct (ios s) as [|[|q st] l]; [done..|]. destruct (heap s !! q); [|done].
    destruct (op_packet _ _); [by apply next_resolve in Hs|by simplify_eq].
  - unfold resolve_timed_out in Hs. destruct (resolving s !! n); [|done]. by apply next_resolve in Hs.
Qed.
Lemma next_check_callback n r s s' : check_callback n s = Some (r, s') → next_op s' = next_op s.
Proof. intros Hs. by destruct (check_callback_same _ _ _ _ Hs) as [(c & _ & _ & _ & ->) _]. Qed.
Lemma next_finish_callback n r s : next_op (finish_callback n r s).1 = next_op s.
Proof. unfold finish_callback, complete_op. simpl. destruct (m_ops s) as [|d l]; [done|]. case_decide; [by destruct l|done]. Qed.
Lemma next_cancel_op_by_timeout i s : next_op (cancel_op_by_timeout i s) = next_op s.
Proof. unfold cancel_op_by_timeout. destruct (list_find _ _) as [[n d]|]; [|done]. by case_decide. Qed.
Lemma next_invalidate_side by_cancel s : next_op (invalidate_side by_cancel s) = next_op s.
Proof. unfold invalidate_side. simpl. by rewrite foldl_set_result. Qed.
Lemma next_push o tid s : next_op (push o tid s) = S (next_op s).
Proof. unfold push. by case_decide. Qed.
End next.

(** ** What an endpoint does *)

(** From [e] to [e']: the messages [written] were accepted and [asked] reads; [m]
    tells whether the message of the pending write is in the system, [t] is what
    was taken of the oldest message of [w] that the endpoint receives. *)
Record moves e m t w e' m' t' w' (written : list message) (asked : nat) : Prop := Moves {
  mv_writes : write_inv m' (writes e') ∧ write_kept m (writes e) m' (writes e') written;
  mv_reads : read_inv (m_pipe e') (reads e') t' w' ∧ read_kept (reads e) t w (reads e') t' w';
  mv_next : next_op (reads e') = (next_op (reads e) + asked)%nat;
  mv_connected : m_pipe e' = true → m_pipe e = true
}.
Record end_inv e m t w : Prop := EndInv {
  ei_inv : inv e;
  ei_writes : write_inv m (writes e);
  ei_reads : read_inv (m_pipe e) (reads e) t w
}.

Lemma moves_refl e m t w : end_inv e m t w → moves e m t w e m t w [] 0.
Proof. intros [_ W R]. split; [split; [done|apply kept_refl]|split; [done|apply read_kept_refl]|lia|done]. Qed.

Lemma moves_writes e m t w m' s' written :
  end_inv e m t w → write_inv m' s' ∧ write_kept m (writes e) m' s' written →
  moves e m t w (with_writes s' e) m' t w written 0.
Proof. intros [_ W R] Hw. split; [done|split; [done|apply read_kept_refl]|simpl; lia|done]. Qed.
Lemma moves_reads e m t w s' t' w' :
  end_inv e m t w → read_inv (m_pipe e) s' t' w' ∧ read_kept (reads e) t w s' t' w' → next_op s' = next_op (reads e) →
  moves e m t w (with_reads s' e) m t' w' [] 0.
Proof. intros [_ W R] Hr Hn. split; [split; [done|apply kept_refl]|done|simpl; lia|done]. Qed.
Lemma moves_timer e m t w T : end_inv e m t w → moves e m t w (with_timer T e) m t w [] 0.
Proof. intros [_ W R]. split; [split; [done|apply kept_refl]|split; [done|apply read_kept_refl]|simpl; lia|done]. Qed.

Lemma moves_trans e1 m1 t1 w1 e2 m2 t2 w2 e3 m3 t3 w3 :
  moves e1 m1 t1 w1 e2 m2 t2 w2 [] 0 → moves e2 m2 t2 w2 e3 m3 t3 w3 [] 0 → moves e1 m1 t1 w1 e3 m3 t3 w3 [] 0.
Proof.
  intros [[_ W1] [_ R1] N1 C1] [[W W2] [R R2] N2 C2].
  split; [split; [done|by eapply kept_trans]|split; [done|by eapply read_kept_trans]|lia|auto].
Qed.

Lemma moves_invalidate_impl b e m t w : end_inv e m t w → moves e m t w (invalidate_impl b e) m t w [] 0.
Proof.
  intros E. pose proof E as [_ W R]. unfold invalidate_impl. destruct (m_pipe e) eqn:Hp; [|by apply moves_refl].
  split; cbn [reads writes m_pipe]; [by apply write_invalidate_side|by eapply read_invalidate_side|rewrite next_invalidate_side; lia|done].
Qed.
Lemma moves_check_failed r e m t w : end_inv e m t w → moves e m t w (check_failed r e) m t w [] 0.
Proof. intros E. unfold check_failed. case_decide; [by apply moves_invalidate_impl|by apply moves_refl]. Qed.

Lemma moves_write_callback n e m t w e' :
  end_inv e m t w → write_callback n e = Some e' → moves e m t w e' m t w [] 0.
Proof.
  intros E Hs. unfold write_callback in Hs. apply bind_Some in Hs as ([r s] & Hck & [= <-]).
  assert (moves e m t w (with_writes s e) m t w [] 0) as M by (apply moves_writes; [done|eapply write_check_callback; [apply E|done]]).
  eapply moves_trans; [exact M|]. apply moves_check_failed. destruct M as [[W _] [R _] _ _]. split; [|done..].
  destruct (ei_inv _ _ _ _ E) as [I1 I2 I3]. split; [by eapply inv_check_callback|done..].
Qed.

Lemma moves_read_callback n e m t w e' :
  end_inv e m t w → read_callback n e = Some e' → moves e m t w e' m t w [] 0.
Proof.
  intros E Hs. unfold read_callback in Hs. apply bind_Some in Hs as ([r s] & Hck & [= <-]).
  pose proof E as [_ W R]. pose proof (next_check_callback _ _ _ _ Hck) as Hn.
  destruct (read_check_callback _ _ _ _ _ _ _ R Hck) as [R1 K1]. unfold check_failed. case_decide as Hr.
  - unfold invalidate_impl. simpl. destruct (m_pipe e) eqn:Hp.
    + destruct (read_invalidate_side _ false _ _ _ R1) as [R2 K2].
      split; cbn [reads writes m_pipe with_reads];
        [by apply write_invalidate_side|split; [done|by eapply read_kept_trans]|rewrite next_invalidate_side, Hn; lia|done].
    + apply moves_reads; [done|by rewrite Hp|done].
  - by apply moves_reads.
Qed.

Lemma moves_write_callback_end n e m t w e' :
  end_inv e m t w → write_callback_end n e = Some e' → moves e m t w e' m t w [] 0.
Proof.
  intros E Hs. unfold write_callback_end in Hs. destruct (callbacks (writes e) !! n) as [r|] eqn:Hn; [|done].
  destruct (checked r); [|done].
  pose proof (write_finish_callback m n r _ _ (inv_writes _ (ei_inv _ _ _ _ E)) (ei_writes _ _ _ _ E) Hn) as Hf.
  destruct (finish_callback n r (writes e)) as [s d]. injection Hs as <-. simpl in Hf.
  destruct (moves_writes e m t w m s [] E Hf). by split.
Qed.
Lemma moves_read_callback_end n e m t w e' :
  end_inv e m t w → read_callback_end n e = Some e' → moves e m t w e' m t w [] 0.
Proof.
  intros E Hs. unfold read_callback_end in Hs. destruct (callbacks (reads e) !! n) as [r|] eqn:Hn; [|done].
  destruct (checked r) eqn:Hc; [|done].
  pose proof (read_finish_callback _ n r _ _ _ (inv_reads _ (ei_inv _ _ _ _ E)) (ei_reads _ _ _ _ E) Hn Hc) as Hf.
  pose proof (next_finish_callback n r (reads e)) as Hx.
  destruct (finish_callback n r (reads e)) as [s d]. injection Hs as <-. simpl in Hf, Hx.
  destruct (moves_reads e m t w s t w E Hf Hx). by split.
Qed.

Lemma moves_run_timer k e m t w e' : end_inv e m t w → run_timer k e = Some e' → moves e m t w e' m t w [] 0.
Proof.
  intros E Hs. unfold run_timer in Hs. destruct (MultipleTimer.run_handler k (m_timer e)) as [[[[[] i]|] T]|]; [..|done]; injection Hs as <-.
  - destruct (moves_writes e m t w m _ [] E (write_cancel_op_by_timeout m i _ (ei_writes _ _ _ _ E))). by split.
  - destruct (moves_reads e m t w _ t w E (read_cancel_op_by_timeout _ i _ _ _ (ei_reads _ _ _ _ E)) (next_cancel_op_by_timeout i _)).
    by split.
  - by apply moves_timer.
Qed.

Lemma moves_write_async e m t w msg tmo :
  end_inv e m t w → m_pipe e = true → moves e m t w (write_async msg tmo e).2 m t w [msg] 0.
Proof.
  intros E Hp. unfold write_async. rewrite Hp. simpl. destruct (start_timer _ _ _ _) as [tid T]. simpl.
  pose proof (inv_writes _ (ei_inv _ _ _ _ E)) as I. rewrite Hp in I.
  destruct (moves_writes e m t w m _ [msg] E (write_push m msg tid _ I (ei_writes _ _ _ _ E))). by split.
Qed.
Lemma moves_read_async e m t w tmo :
  end_inv e m t w → m_pipe e = true → moves e m t w (read_async tmo e).2 m t w [] 1.
Proof.
  intros E Hp. unfold read_async. rewrite Hp. simpl. destruct (start_timer _ _ _ _) as [tid T]. simpl.
  pose proof E as [I W R]. pose proof (inv_reads _ I) as Ir.
  split; cbn [reads writes m_pipe with_reads with_timer];
    [split; [done|apply kept_refl]|by apply read_push|rewrite next_push; lia|done].
Qed.

(** ** The pair *)
Definition even (l : list nat) : list nat := (λ q, 2 * q)%nat <$> l.
#[local] Instance even_proper : Proper ((≡ₚ) ==> (≡ₚ)) even.
Proof. intros l k E. unfold even. by rewrite E. Qed.
Definition odd (n : nat) : list nat := (λ k, 2 * k + 1)%nat <$> seq 0 n.

Record pair_inv p : Prop := PairInv {
  pi_ends s : end_inv (ends p s) (moved p s) (taken p s) (wire p (negb s));
  pi_results s : (results p s).*1.*1 ≡ₚ even (kept (reads (ends p s))) ++ odd (refused_reads p s)
}.

Lemma pair_read_numbers s p : pair_inv p →
  read_numbers s p ≡ₚ even (seq 0 (next_op (reads (ends p s)))) ++ odd (refused_reads p s).
Proof.
  intros I. unfold read_numbers. simpl. rewrite (pi_results _ I s).
  rewrite <- (si_once _ _ _ (inv_reads _ (ei_inv _ _ _ _ (pi_ends _ I s)))). unfold even, accounted, queued_reads, kept.
  rewrite (fmap_app _ (_ <$> log _)). solve_Permutation.
Qed.

Lemma odd_S n : odd (S n) = odd n ++ [(2 * n + 1)%nat].
Proof. unfold odd. by rewrite seq_S, fmap_app. Qed.
Lemma even_odd q l n : (2 * q)%nat ∈ even l ++ odd n → q ∈ l.
Proof.
  rewrite elem_of_app. unfold even, odd. intros [(q' & E & Hq)%list_elem_of_fmap|(k & E & _)%list_elem_of_fmap]; [|lia].
  by replace q with q' by lia.
Qed.
Lemma odd_even k l n : (2 * k + 1)%nat ∈ even l ++ odd n → (k < n)%nat.
Proof.
  rewrite elem_of_app. unfold even, odd. intros [(q' & E & _)%list_elem_of_fmap|(k' & E & Hk%elem_of_seq)%list_elem_of_fmap]; lia.
Qed.

(** Both endpoints are connected and nothing failed. *)
Lemma win_undisturbed p : pair_inv p →
  undisturbed p ↔ ∀ s, m_pipe (ends p s) = true ∧ clean (writes (ends p s)) ∧ refused_writes p s = 0%nat ∧
                       Forall (λ x, PipeOpRes.is_success x.1.2) (results p s).
Proof.
  intros I. unfold undisturbed. apply forall_proper. intros s. simpl.
  destruct (pi_ends _ I s) as [[Iw _ _] [U _ _ _] _]. rewrite Is_true_true. unfold is_connected. f_equiv.
  rewrite <- (decided_clean _ _ _ Iw U), Forall_app, !Forall_fmap. simpl.
  assert (Forall ((λ x, PipeOpRes.is_success x.2) ∘ (λ k, ((2 * k + 1)%nat, PipeOpRes.failed))) (seq 0 (refused_writes p s)) ↔
          refused_writes p s = 0%nat) as ->.
  { destruct (refused_writes p s) as [|n]; simpl; [by split|]. by split; [intros [? _]%Forall_cons|]. }
  tauto.
Qed.

Lemma win_flow s p :
  flow s p = omap received_message (results p (negb s)) ++ arrived (reads (ends p (negb s))) ++
             attach (taken p (negb s)) (wire p s) ++ unsent (moved p s) (writes (ends p s)).
Proof. done. Qed.

(** The endpoint [s] moves. *)
Record advances (s : bool) p p' : Prop := Advances {
  ad_ends : ends p' (negb s) = ends p (negb s);
  ad_wire : wire p' s = wire p s;
  ad_taken : taken p' (negb s) = taken p (negb s);
  ad_moved : moved p' (negb s) = moved p (negb s);
  ad_results : results p' s =
    results p s ++ (to_result <$> drop (length (log (reads (ends p s)))) (log (reads (ends p' s))));
  ad_other : results p' (negb s) = results p (negb s);
  ad_refused s' : refused_writes p' s' = refused_writes p s' ∧ refused_reads p' s' = refused_reads p s'
}.

Lemma bool_sides (P : bool → Prop) s : P s → P (negb s) → ∀ s', P s'.
Proof. destruct s; simpl; by intros ? ? []. Qed.

Section advances.
Context (s : bool) p p' (written : list message) (asked : nat) (I : pair_inv p) (A : advances s p p') (Ie : inv (ends p' s)).
Context (M : moves (ends p s) (moved p s) (taken p s) (wire p (negb s))
                   (ends p' s) (moved p' s) (taken p' s) (wire p' (negb s)) written asked).

Lemma advances_new : ∃ new, log (reads (ends p' s)) = log (reads (ends p s)) ++ new ∧
  results p' s = results p s ++ (to_result <$> new) ∧
  omap received_message (to_result <$> new) ++ arrived (reads (ends p' s)) ++ attach (taken p' s) (wire p' (negb s)) =
  arrived (reads (ends p s)) ++ attach (taken p s) (wire p (negb s)).
Proof.
  destruct (mv_reads _ _ _ _ _ _ _ _ _ _ M) as [_ (new & Hl & He)]. exists new. split_and!; [done| |done].
  rewrite (ad_results _ _ _ A), Hl. by rewrite drop_app_length.
Qed.

Lemma advances_inv : pair_inv p'.
Proof.
  destruct advances_new as (new & Hl & Hr & _). destruct M as [[W _] [R _] _ _]. split; refine (bool_sides _ s _ _).
  - done.
  - rewrite negb_involutive, (ad_ends _ _ _ A), (ad_taken _ _ _ A), (ad_wire _ _ _ A), (ad_moved _ _ _ A).
    pose proof (pi_ends _ I (negb s)) as E. by rewrite negb_involutive in E.
  - rewrite Hr, !fmap_app. unfold kept. rewrite Hl, fmap_app, (proj2 (ad_refused _ _ _ A s)). unfold even. rewrite fmap_app.
    rewrite (pi_results _ I s). unfold even, kept. rewrite <- !list_fmap_compose. solve_Permutation.
  - rewrite (ad_other _ _ _ A), (ad_ends _ _ _ A), (proj2 (ad_refused _ _ _ A (negb s))). apply (pi_results _ I).
Qed.

Lemma advances_flow :
  flow (negb s) p' = flow (negb s) p ∧ flow s p' `sublist_of` flow s p ++ written ∧
  (clean (writes (ends p' s)) → flow s p' = flow s p ++ written).
Proof.
  destruct advances_new as (new & _ & Hr & He). destruct M as [[_ [_ Hu _ Hs]] _ _ _]. rewrite !win_flow, negb_involutive.
  rewrite (ad_other _ _ _ A), (ad_ends _ _ _ A), (ad_taken _ _ _ A), (ad_wire _ _ _ A), (ad_moved _ _ _ A), Hr.
  rewrite <- !app_assoc. split_and!.
  - rewrite omap_app, <- app_assoc. f_equal. rewrite !app_assoc. f_equal. by rewrite <- !app_assoc.
  - do 3 (apply sublist_app; [done|]). exact Hu.
  - intros Hc. by rewrite Hs.
Qed.

Lemma advances_spec :
  evolves p p' (only s written) (only s (even (seq (next_op (reads (ends p s))) asked))) ∧ keeps p p' (only s written).
Proof.
  pose proof advances_inv as I'. destruct advances_new as (new & _ & Hr & _). destruct advances_flow as (Fo & Fs & Fe).
  destruct M as [[_ [_ _ Hcl _]] _ Hn Hc]. split.
  - split; refine (bool_sides _ s _ _); rewrite ?only_same, ?only_other by (by destruct s); rewrite ?app_nil_r.
    + done.
    + by rewrite Fo.
    + simpl. rewrite Hr. by eexists.
    + simpl. by rewrite (ad_other _ _ _ A).
    + rewrite !pair_read_numbers by done. rewrite Hn, (proj2 (ad_refused _ _ _ A s)), seq_app. unfold even. rewrite fmap_app.
      simpl. solve_Permutation.
    + rewrite !pair_read_numbers by done. by rewrite (ad_ends _ _ _ A), (proj2 (ad_refused _ _ _ A (negb s))).
    + simpl. unfold is_connected. rewrite !Is_true_true. exact Hc.
    + simpl. by rewrite (ad_ends _ _ _ A).
  - unfold keeps. rewrite !win_undisturbed by done. intros U. split.
    + refine (bool_sides _ s _ _).
      * destruct (U s) as (Hp & Hw & Hf & Hs). rewrite (proj1 (ad_refused _ _ _ A s)) in Hf. rewrite Hr in Hs.
        apply Forall_app in Hs as [Hs _]. by split_and!; [apply Hc|apply Hcl| |].
      * destruct (U (negb s)) as (Hp & Hw & Hf & Hs). rewrite (proj1 (ad_refused _ _ _ A (negb s))) in Hf.
        rewrite (ad_ends _ _ _ A) in *. rewrite (ad_other _ _ _ A) in Hs. done.
    + refine (bool_sides _ s _ _); rewrite ?only_same, ?only_other by (by destruct s); rewrite ?app_nil_r; [|done].
      apply Fe. by destruct (U s) as (_ & ? & _).
Qed.
End advances.

(** ** The operations and what happens between them *)
Definition lawful p p' (written : bool → list message) (asked : bool → list nat) : Prop :=
  pair_inv p' ∧ evolves p p' written asked ∧ keeps p p' written.

Lemma lawful_ext p p' w w' r r' :
  lawful p p' w r → (∀ s, w s = w' s) → (∀ s, r s = r' s) → lawful p p' w' r'.
Proof.
  intros (I & E & K) Hw Hr. split_and!; [done|by eapply evolves_ext|]. intros U. destruct (K U) as [U' Hf].
  split; [done|]. intros s. by rewrite Hf, Hw.
Qed.

Lemma moves_lawful s p p' written asked :
  pair_inv p → advances s p p' → step (ends p s) (ends p' s) →
  moves (ends p s) (moved p s) (taken p s) (wire p (negb s))
        (ends p' s) (moved p' s) (taken p' s) (wire p' (negb s)) written asked →
  lawful p p' (only s written) (only s (even (seq (next_op (reads (ends p s))) asked))).
Proof.
  intros I A St M. assert (inv (ends p' s)) as Ie by (eapply inv_win_step; [apply (ei_inv _ _ _ _ (pi_ends _ I s))|done]).
  split; [by eapply advances_inv|by eapply advances_spec].
Qed.

Lemma upd_same {A} s (x : A) f : upd s x f s = x.
Proof. unfold upd. by rewrite decide_True. Qed.
Lemma upd_other {A} s (x : A) f : upd s x f (negb s) = f (negb s).
Proof. unfold upd. rewrite decide_False; [done|by destruct s]. Qed.
Lemma upd_negb {A} s (x : A) f : upd (negb s) x f s = f s.
Proof. unfold upd. rewrite decide_False; [done|by destruct s]. Qed.

Lemma advances_set_end s e p : advances s p (set_end s e p).
Proof. split; simpl; rewrite ?upd_same, ?upd_other; done. Qed.
Lemma advances_set_moved s m p p' : advances s p p' → advances s p (set_moved s m p').
Proof. intros []. split; simpl; rewrite ?upd_other; done. Qed.
Lemma advances_set_taken s t w p p' : advances s p p' → advances s p (set_taken s t w p').
Proof. intros []. split; simpl; rewrite ?upd_negb, ?upd_other; done. Qed.

Lemma end_moves s p e written asked :
  pair_inv p → step (ends p s) e →
  moves (ends p s) (moved p s) (taken p s) (wire p (negb s)) e (moved p s) (taken p s) (wire p (negb s)) written asked →
  lawful p (set_end s e p) (only s written) (only s (even (seq (next_op (reads (ends p s))) asked))).
Proof.
  intros I St M. apply moves_lawful; [done|apply advances_set_end|..]; simpl; by rewrite !upd_same.
Qed.
Lemma end_works s p e :
  pair_inv p → step (ends p s) e →
  moves (ends p s) (moved p s) (taken p s) (wire p (negb s)) e (moved p s) (taken p s) (wire p (negb s)) [] 0 →
  lawful p (set_end s e p) nothing nothing.
Proof. intros I St M. eapply lawful_ext; [by apply end_moves|intros ?; apply only_nil..]. Qed.

(** *** Refused calls *)
Lemma refuse_write_lawful s m p : pair_inv p → lawful p (refuse_write s p) (only s [m]) nothing.
Proof.
  intros I. assert (pair_inv (refuse_write s p)) as I' by (split; apply I). split; [done|split].
  - split; intros s'; rewrite ?app_nil_r; try done. by apply sublist_inserts_r.
  - unfold keeps. rewrite (win_undisturbed (refuse_write s p)) by done. intros U. destruct (U s) as (_ & _ & Hf & _).
    simpl in Hf. by rewrite upd_same in Hf.
Qed.

Lemma refuse_read_lawful s p :
  pair_inv p → lawful p (refuse_read s p) nothing (only s [(2 * refused_reads p s + 1)%nat]).
Proof.
  intros I.
  assert (pair_inv (refuse_read s p)) as I'.
  { split; [apply (pi_ends _ I)|]. intros s'. simpl. unfold upd. case_decide as Hs; [subst s'|apply (pi_results _ I)].
    rewrite !fmap_app, (pi_results _ I), odd_S. simpl. by rewrite app_assoc. }
  split; [done|split].
  - split; intros s'.
    + unfold nothing. rewrite app_nil_r, !win_flow. simpl. unfold upd. case_decide as Hs; [|done].
      rewrite omap_app, Hs. simpl. by rewrite app_nil_r.
    + simpl. unfold upd. case_decide as Hs; [subst s'; by eexists|done].
    + rewrite !pair_read_numbers by done. simpl. unfold upd, only. case_decide as Hs; [subst s'|by rewrite app_nil_r].
      by rewrite odd_S, app_assoc.
    + done.
  - unfold keeps. rewrite (win_undisturbed (refuse_read s p)) by done. intros U. destruct (U s) as (_ & _ & _ & Hf).
    simpl in Hf. rewrite upd_same in Hf. by apply Forall_app in Hf as [_ [? _]%Forall_cons].
Qed.

(** *** Calls *)
Lemma pair_write_lawful s m t p : pair_inv p → lawful p (pair_write s m t p) (only s [m]) nothing.
Proof.
  intros I. unfold pair_write. destruct (takes_write s p) eqn:Ht; [|by apply refuse_write_lawful].
  apply andb_true_iff in Ht as [Hp Hr].
  eapply lawful_ext; [apply (end_moves s p _ [m] 0); [done|by constructor; apply Z.ltb_lt|]|done|intros ?; apply only_nil].
  apply moves_write_async; [apply I|done].
Qed.
Lemma pair_read_lawful s t p : pair_inv p → lawful p (pair_read s t p) nothing (only s [next_read s p]).
Proof.
  intros I. unfold pair_read. simpl. destruct (takes_read s p) eqn:Ht; [|by apply refuse_read_lawful].
  apply andb_true_iff in Ht as [Hp Hr].
  eapply lawful_ext; [apply (end_moves s p _ [] 1); [done|by constructor; apply Z.ltb_lt|]|intros ?; apply only_nil|done].
  apply moves_read_async; [apply I|done].
Qed.
Lemma pair_invalidate_lawful s p : pair_inv p → lawful p (set_end s (invalidate (ends p s)) p) nothing nothing.
Proof. intros I. apply end_works; [done|constructor|]. apply moves_invalidate_impl, I. Qed.

(** *** A message goes over to the system *)
Lemma attach_snoc t w m : (t ≠ [] → w ≠ []) → attach t (w ++ [m]) = attach t w ++ [m].
Proof. intros H. destruct w as [|m0 w]; [|done]. destruct t; [done|]. by destruct H. Qed.

Lemma transfer_lawful s q ab l p :
  pair_inv p → ios (writes (ends p s)) = Pending q ab :: l → moved p s = false → lawful p (transfer s q p) nothing nothing.
Proof.
  intros I Hi Hm. set (m := buffer_of (writes (ends p s)) q).
  assert (∀ s', results (transfer s q p) s' = results p s' ∧ ends (transfer s q p) s' = ends p s') as Hsame by done.
  pose proof (pi_ends _ I) as He.
  assert (pair_inv (transfer s q p)) as I'.
  { split; [|apply (pi_results _ I)]. refine (bool_sides _ s _ _).
    - destruct (He s) as [Ie [U M P R] Rd]. split; simpl; [done|..].
      + rewrite upd_same. split; [done|by rewrite Hi|done|done].
      + by rewrite upd_other.
    - destruct (He (negb s)) as [Ie W [Ro Rt Rw]]. split; simpl; [done|by rewrite upd_other|].
      rewrite negb_involutive, upd_same. split; [done|done|]. intros _ E. by apply app_nil in E as [_ ?]. }
  assert (∀ s', flow s' (transfer s q p) = flow s' p) as Hf.
  { refine (bool_sides _ s _ _); rewrite !win_flow; simpl; rewrite ?upd_same, ?upd_other; [|done].
    do 2 f_equal. rewrite attach_snoc.
    - rewrite <- app_assoc. f_equal. unfold unsent, to_move. rewrite Hm, Hi. done.
    - intros Ht. pose proof (rd_wire _ _ _ _ (ei_reads _ _ _ _ (He (negb s))) Ht) as Hw. by rewrite negb_involutive in Hw. }
  split; [done|split].
  - split; intros s'; unfold nothing; rewrite ?app_nil_r; [by rewrite Hf|done|done|done].
  - unfold keeps. rewrite !win_undisturbed by done. intros U. split; [exact U|]. intros s'. unfold nothing. by rewrite app_nil_r, Hf.
Qed.

Lemma work_lawful p p' : pair_inv p → work p p' → lawful p p' nothing nothing.
Proof.
  intros I Hw.
  destruct Hw as [s calls t Hs|s q ab l Hi Hm|s st t Hst Hs|s t Hs|s n t Hs|s calls t tk w Hs Ha|s st t tk w Hs Hg|s t Hs|s n t Hs
                 |s n e Hs|s n e Hs|s n e Hs|s n e Hs|s k|s k e Hs];
    pose proof (pi_ends _ I s) as E; pose proof E as [Ie W R]; pose proof Ie as [Iw Ir _].
  - apply end_works; [done|by eapply step_writes, side_task|]. apply moves_writes; [done|by eapply write_run_task].
  - by eapply transfer_lawful.
  - apply end_works; [done|by eapply step_writes, side_io|]. apply moves_writes; [done|by eapply write_io_ends].
  - eapply lawful_ext; [apply (moves_lawful s _ _ [] 0); [done|apply advances_set_moved, advances_set_end|..]|intros ?; apply only_nil..];
      simpl; rewrite !upd_same; [by eapply step_writes, side_packet|]. apply moves_writes; [done|by eapply write_run_worker].
  - apply end_works; [done|by eapply step_writes, side_resolve|]. apply moves_writes; [done|by eapply write_resolve_timed_out].
  - eapply lawful_ext; [apply (moves_lawful s _ _ [] 0); [done|apply advances_set_taken, advances_set_end|..]|intros ?; apply only_nil..];
      simpl; rewrite !upd_same; [by eapply step_reads, side_task|].
    apply moves_reads; [done|by eapply read_run_task|by eapply next_side_step, side_task].
  - eapply lawful_ext; [apply (moves_lawful s _ _ [] 0); [done|apply advances_set_taken, advances_set_end|..]|intros ?; apply only_nil..];
      simpl; rewrite !upd_same; [by eapply step_reads, side_io|].
    apply moves_reads; [done|by eapply read_io_ends|by eapply (next_side_step (m_pipe (ends p s))), side_io].
  - apply end_works; [done|by eapply step_reads, side_packet|].
    apply moves_reads; [done|by eapply read_run_worker|by eapply (next_side_step (m_pipe (ends p s))), side_packet].
  - apply end_works; [done|by eapply step_reads, side_resolve|].
    apply moves_reads; [done|by eapply read_resolve_timed_out|by eapply (next_side_step (m_pipe (ends p s))), side_resolve].
  - apply end_works; [done|by eapply step_write_callback|by eapply moves_write_callback].
  - apply end_works; [done|by eapply step_read_callback|by eapply moves_read_callback].
  - apply end_works; [done|by eapply step_write_callback_end|by eapply moves_write_callback_end].
  - apply end_works; [done|by eapply step_read_callback_end|by eapply moves_read_callback_end].
  - apply end_works; [done|constructor|by apply moves_timer].
  - apply end_works; [done|by eapply step_timer|by eapply moves_run_timer].
Qed.
(** ** The instances *)
Lemma win_pair_create : pair_inv create_pair.
Proof.
  split; [|done]. intros s. split; simpl; [by apply win_reachable_inv| |apply read_inv_empty].
  split; [|done|..]; intros ? Hin; [by apply elem_of_nil in Hin|intros Hq; by apply elem_of_nil in Hq|by apply elem_of_nil in Hin].
Qed.

Lemma next_read_fresh s p : pair_inv p → next_read s p ∉ read_numbers s p.
Proof.
  intros I. rewrite pair_read_numbers by done. simpl. destruct (takes_read s p).
  - intros Hin%even_odd. apply elem_of_seq in Hin. lia.
  - intros Hin%odd_even. lia.
Qed.

#[export] Program Instance win_pipe_laws : PipeLaws pair := {| pipe_inv := pair_inv |}.
Next Obligation. apply win_pair_create. Qed.
Next Obligation. done. Qed.
Next Obligation. intros s m t p I _. by destruct (pair_write_lawful s m t p I) as (? & ? & _). Qed.
Next Obligation.
  intros s t p I. destruct (pair_read_lawful s t p I) as (? & ? & _). split_and!; [done..|]. by apply next_read_fresh.
Qed.
Next Obligation.
  intros s p I. destruct (pair_invalidate_lawful s p I) as (? & ? & _). split_and!; [done..|]. simpl. rewrite upd_same.
  unfold is_connected, invalidate, invalidate_impl. by destruct (m_pipe (ends p s)) eqn:Hp.
Qed.
Next Obligation. intros p p' I Hw. by destruct (work_lawful p p' I Hw) as (? & ? & _). Qed.

(** The threads, the promises and the callbacks have nothing to do, the system has
    no write, and a read that waits finds no message. *)
Definition at_rest {Op} (s : side Op) : Prop := thread s = [] ∧ resolving s = [] ∧ callbacks s = [].
Definition win_idle p : Prop := ∀ s,
  (at_rest (writes (ends p s)) ∧ ios (writes (ends p s)) = []) ∧
  (at_rest (reads (ends p s)) ∧ Forall (λ i, match i with Pending _ _ => True | Packet _ _ => False end) (ios (reads (ends p s)))) ∧
  (ios (reads (ends p s)) ≠ [] → wire p (negb s) = []).

Lemma at_rest_empty {Op} `{OperationLaws Op} pipe (s : side Op) : side_inv [] pipe s → at_rest s → ios s = [] → m_ops s = [].
Proof.
  intros I (Ht & Hr & Hc) Hi. destruct (m_ops s) as [|d l] eqn:Hq; [done|].
  destruct (si_head _ _ _ I d) as [Hin|[Hin|Hin]]; [by rewrite Hq|..];
    unfold tokens, answered in Hin; rewrite ?Ht, ?Hi, ?Hc in Hin; by apply elem_of_nil in Hin.
Qed.

Lemma win_idle_empty s p : pair_inv p → win_idle p → reading (negb s) p ≠ [] → flight s p = [].
Proof.
  intros I Hidle Hrd. destruct (Hidle s) as ((Hw & Hwi) & _ & _). destruct (Hidle (negb s)) as (_ & (Hr & Hp) & Hwire).
  pose proof (ei_inv _ _ _ _ (pi_ends _ I s)) as [Iw _ _]. pose proof (ei_inv _ _ _ _ (pi_ends _ I (negb s))) as [_ Ir _].
  assert (ios (reads (ends p (negb s))) ≠ []) as Hios.
  { intros Hi. apply Hrd. pose proof (at_rest_empty _ _ Ir Hr Hi) as Hq. destruct Hr as (Ht & Hre & Hc).
    simpl. unfold queued_reads, answered, tokens. by rewrite Ht, Hre, Hc, Hi, Hq. }
  pose proof (at_rest_empty _ _ Iw Hw Hwi) as Hq. destruct Hw as (Hwt & _ & _). destruct Hr as (_ & _ & Hc).
  specialize (Hwire Hios). rewrite negb_involutive in Hwire. simpl. unfold arrived, in_packet, unsent, to_move, to_start, unstarted.
  rewrite Hc, Hwire, Hwi, Hwt, Hq. simpl. destruct (ios (reads (ends p (negb s)))) as [|[] l]; [done| |].
  - by destruct (moved p s).
  - by apply Forall_cons in Hp as [? _].
Qed.

#[export] Program Instance win_lossless : LosslessPipe pair := {| idle := win_idle |}.
Next Obligation. intros s m t p I _. by destruct (pair_write_lawful s m t p I) as (_ & _ & ?). Qed.
Next Obligation. intros s t p I. by destruct (pair_read_lawful s t p I) as (_ & _ & ?). Qed.
Next Obligation. intros s p I. by destruct (pair_invalidate_lawful s p I) as (_ & _ & ?). Qed.
Next Obligation. intros p p' I Hw. by destruct (work_lawful p p' I Hw) as (_ & _ & ?). Qed.
Next Obligation. intros s p I Hi _ Hr. by apply win_idle_empty. Qed.
End WinPipeLaws.
