(* ===== verification/PipeFifo.v ===== *)
(** * Pipes are FIFO channels

    The abstract specification of a pipe is a channel in each direction: what was
    written, in order.  Any pipe with the laws of the interface refines it, so
    the in-memory pipe, the TCP pipe and the Windows pipe do. *)
From S2P Require Import Prelude RpcTypes Timer MemPipe MemPipeFacts MemPipeEnv TcpPipe TcpPipeFacts TcpRoundTrip.
From S2P Require Import WinOperation WinPipe WinPair WinPipeLaws Pipe MemPipeLaws TcpPipeLaws.
Import MemPipeLaws WinPair WinPipeLaws TcpPair.
Local Open Scope Z_scope.

(** ** Runs of a pipe *)
Section runs.
Context {P : Type} `{LosslessPipe P}.
Implicit Types (p : P) (W : bool → list message).

(** An operation of an endpoint or a step of the pipe, with what is written. *)
Inductive pipe_step p : (bool → list message) → P → Prop :=
| do_write s m t : message_ok m → pipe_step p (only s [m]) (write_async s m t p)
| do_read s t : pipe_step p nothing (read_async s t p)
| do_invalidate s : pipe_step p nothing (invalidate s p)
| do_internal p' : internal p p' → pipe_step p nothing p'.

(** [pipe_run W p]: [p] is reached when the side [s] wrote the messages [W s]. *)
Inductive pipe_run : (bool → list message) → P → Prop :=
| run_create : pipe_run nothing pipe_create
| run_step W w p p' : pipe_run W p → pipe_step p w p' → pipe_run (λ s, W s ++ w s) p'.

(** A channel: readers get what was written, in order, none twice; while nothing
    fails, none is missing, and a pipe at rest has delivered everything to a side
    that reads. *)
Definition fifo : Prop := ∀ W p s, pipe_run W p →
  delivered (negb s) p `sublist_of` W s ∧
  (undisturbed p → delivered (negb s) p `prefix_of` W s) ∧
  (undisturbed p → idle p → reading (negb s) p ≠ [] → delivered (negb s) p = W s).

Lemma pipe_step_spec p w p' : pipe_inv p → pipe_step p w p' → pipe_inv p' ∧ (∃ r, evolves p p' w r) ∧ keeps p p' w.
Proof.
  intros I. destruct 1 as [s m t Hm|s t|s|p' Hi].
  - destruct (law_write s m t p I Hm). split_and!; [done|by eexists|by apply keeps_write].
  - destruct (law_read s t p I) as (? & ? & _). split_and!; [done|by eexists|by apply keeps_read].
  - destruct (law_invalidate s p I) as (? & ? & _). split_and!; [done|by eexists|by apply keeps_invalidate].
  - destruct (law_internal p p' I Hi). split_and!; [done|by eexists|by apply keeps_internal].
Qed.

Lemma pipe_run_flow W p : pipe_run W p →
  pipe_inv p ∧ ∀ s, flow s p `sublist_of` W s ∧ (undisturbed p → flow s p = W s).
Proof.
  induction 1 as [|W w p p' _ [I IH] Hst].
  - split; [apply law_create|]. intros s. destruct (law_start s) as (_ & _ & ->). done.
  - destruct (pipe_step_spec p w p' I Hst) as (I' & [r E] & K). split; [done|]. intros s. destruct (IH s) as [Hs He]. split.
    + etrans; [apply (ev_flow _ _ _ _ E)|]. by apply sublist_app.
    + intros U. destruct (K U) as [U0 ->]. by rewrite He.
Qed.

Lemma pipe_fifo : fifo.
Proof.
  intros W p s Hr. destruct (pipe_run_flow W p Hr) as [I Hf]. destruct (Hf s) as [Hs He]. split_and!.
  - etrans; [|exact Hs]. unfold flow. by apply sublist_inserts_r.
  - intros U. rewrite <- He by done. by eexists.
  - intros U Hi Hrd. rewrite <- He by done. unfold flow. rewrite (idle_empty s p I Hi U Hrd). by rewrite app_nil_r.
Qed.
End runs.
Arguments fifo P {_ _ _}.

(** ** Property *)

(** C4: the in-memory pipe, a pair of connected TCP endpoints and the two endpoints
    of a Windows pipe refine a FIFO channel in each direction: under any interleaving
    of writes, reads, timeouts, invalidations, strands or I/O threads, completion
    packets and partial transfers the readers get messages of the writer in order
    and none twice; while nothing fails they get a first part of them, and all of
    them when the pipe is at rest and the side reads. *)
Theorem pipes_are_fifo : fifo MemPipeLaws.buffers ∧ fifo TcpPair.pair ∧ fifo WinPair.pair.
Proof. split_and!; apply pipe_fifo. Qed.

(** ** A message over TCP, cut up on its way *)
Definition tcp_send (s : bool) (m : message) (ns : list nat) (p : TcpPair.pair) : TcpPair.pair :=
  TcpPair.set_end s (write_pieces ns (TcpPipe.write_async m None (TcpPair.ends p s))) p.
Definition tcp_receive (s : bool) (pieces : list (list Z)) (p : TcpPair.pair) : TcpPair.pair :=
  TcpPair.set_end s (read_pieces pieces (TcpPipe.read_async None (TcpPair.ends p s))) p.

Lemma tcp_transfer :
  let p := tcp_receive true [[0; 0]; [0; 2]; [7]; [8]] (tcp_send false [7; 8] [3; 1; 2]%nat pipe_create) in
  delivered true p = [[7; 8]] ∧ flight false p = [] ∧ reading true p = [].
Proof. by vm_compute. Qed.

(** ** A message over a Windows pipe *)
Definition on_writes (s : bool) (f : WinPair.write_side → option WinPair.write_side) (p : WinPair.pair) : WinPair.pair :=
  let e := WinPair.ends p s in
  WinPair.set_end s (WinPipe.with_writes (default (WinPipe.writes e) (f (WinPipe.writes e))) e) p.
Definition on_reads (s : bool) (f : WinPair.read_side → option WinPair.read_side) (p : WinPair.pair) : WinPair.pair :=
  let e := WinPair.ends p s in
  WinPair.set_end s (WinPipe.with_reads (default (WinPipe.reads e) (f (WinPipe.reads e))) e) p.
Definition on_end (s : bool) (f : WinPipe.impl → option WinPipe.impl) (p : WinPair.pair) : WinPair.pair :=
  let e := WinPair.ends p s in WinPair.set_end s (default e (f e)) p.

Definition win_send (s : bool) (m : message) (p : WinPair.pair) : WinPair.pair :=
  let p := on_writes s (WinPipe.run_task true []) (on_writes s (WinPipe.run_task true []) (write_async s m None p)) in
  let p := on_writes s (WinPipe.io_ends (IoSuccess [])) (WinPair.transfer s 0 p) in
  let p := WinPair.set_moved s false (on_writes s WinPipe.run_worker p) in
  on_end s (WinPipe.write_callback_end 0) (on_end s (WinPipe.write_callback 0) p).
Definition win_receive (s : bool) (w : list message) (bytes : list Z) (p : WinPair.pair) : WinPair.pair :=
  let p := on_reads s (WinPipe.run_task true []) (on_reads s (WinPipe.run_task true []) (read_async s None p)) in
  let p := WinPair.set_taken s [] w (on_reads s (WinPipe.io_ends (IoSuccess bytes)) p) in
  let p := on_reads s WinPipe.run_worker p in
  on_end s (WinPipe.read_callback_end 0) (on_end s (WinPipe.read_callback 0) p).

Lemma win_transfer :
  let p := win_receive true [] [7; 8] (win_send false [7; 8] pipe_create) in
  delivered true p = [[7; 8]] ∧ flight false p = [] ∧ reading true p = [].
Proof. by vm_compute. Qed.
