(* ===== verification/ConnectionEffects.v ===== *)
(** * What the operations of a connection may do

    An [effect] bounds an operation: requests only leave the map, a completion
    with [ok] is a response that was received for a request of the map, and what
    is sent and served is appended. *)
From S2P Require Import Prelude RpcTypes BigEndian TransferMessage TransferMessageFacts Timer Connection.
Import Connection.
Local Open Scope Z_scope.

(** A completion with [ok] answers an entry of the map [m] with a message of [M]. *)
Definition answered (M : message → Prop) (m : gmap Z request_data) (x : completion) : Prop :=
  c_result x = RequestResult.ok →
  ∃ n d, m !! n = Some d ∧ c_promise x = promise d ∧
    ((M (c_response x) ∧ read_number_res (c_response x) = Some n) ∨ fail_req_result d = Some RequestResult.ok).

Record effect (M : message → Prop) (c c' : impl) (extra : list send) (srv : list message) : Prop := Effect {
  ef_map n d' : m_request_map c' !! n = Some d' →
    ∃ d, m_request_map c !! n = Some d ∧ promise d' = promise d ∧
         (fail_req_result d' = Some RequestResult.ok → fail_req_result d = Some RequestResult.ok);
  ef_log : ∃ l, log c' = log c ++ l ∧ Forall (answered M (m_request_map c)) l;
  ef_promise : next_promise c' = next_promise c;
  ef_sends : sends c' = sends c ++ extra;
  ef_serving : serving c' = serving c ++ srv;
  ef_receiving : receiving c = true → receiving c' = true;
  ef_service : has_service c' = has_service c
}.

Section effects.
Context (M : message → Prop).
Implicit Types c : impl.

Lemma effect_refl c : effect M c c [] [].
Proof. split; rewrite ?app_nil_r; try done; [|by exists []; rewrite app_nil_r]. intros n d Hd. by exists d. Qed.

Lemma effect_trans c1 c2 c3 e1 e2 s1 s2 :
  effect M c1 c2 e1 s1 → effect M c2 c3 e2 s2 → effect M c1 c3 (e1 ++ e2) (s1 ++ s2).
Proof.
  intros [M1 (l1 & L1 & A1) P1 S1 V1 R1 H1] [M2 (l2 & L2 & A2) P2 S2 V2 R2 H2].
  split; rewrite ?app_assoc; try congruence; [..|by auto].
  - intros n d'' Hd. destruct (M2 n d'' Hd) as (d' & Hd' & E2 & F2). destruct (M1 n d' Hd') as (d & Hd0 & E1 & F1).
    exists d. split_and!; [done|congruence|auto].
  - exists (l1 ++ l2). rewrite L2, L1, app_assoc. split; [done|]. apply Forall_app. split; [done|].
    eapply Forall_impl; [exact A2|]. intros x Hx Hok. destruct (Hx Hok) as (n & d' & Hd' & Ep & Hc).
    destruct (M1 n d' Hd') as (d & Hd & E1 & F1). exists n, d. split_and!; [done|congruence|]. destruct Hc; auto.
Qed.

(** The map and the log are not touched. *)
Lemma effect_frame c c' extra srv :
  m_request_map c' = m_request_map c → log c' = log c → next_promise c' = next_promise c →
  sends c' = sends c ++ extra → serving c' = serving c ++ srv →
  (receiving c = true → receiving c' = true) → has_service c' = has_service c → effect M c c' extra srv.
Proof.
  intros E1 E2 E3 E4 E5 E6 E7. split; try done; [intros n d; rewrite E1; eauto|].
  exists []. by rewrite E2, app_nil_r.
Qed.

(** Requests leave the map, or change no promise. *)
Lemma effect_map m t l c :
  (∀ n d', m !! n = Some d' → ∃ d, m_request_map c !! n = Some d ∧ promise d' = promise d ∧
     (fail_req_result d' = Some RequestResult.ok → fail_req_result d = Some RequestResult.ok)) →
  Forall (answered M (m_request_map c)) l →
  effect M c (with_map m t (log c ++ l) c) [] [].
Proof. intros Hm Hl. split; simpl; rewrite ?app_nil_r; try done. by exists l. Qed.

Lemma effect_complete n r m c :
  (r = RequestResult.ok → M m ∧ read_number_res m = Some n) → effect M c (complete_request n r m c) [] [].
Proof.
  intros Hr. unfold complete_request. destruct (m_request_map c !! n) as [d|] eqn:Hn; [|apply effect_refl].
  apply effect_map; [intros n' d' [_ Hd]%lookup_delete_Some; eauto|]. constructor; [|done].
  intros Hok. exists n, d. auto.
Qed.

Lemma effect_sent n c : effect M c (process_request_sent n c) [] [].
Proof.
  unfold process_request_sent. destruct (m_request_map c !! n) as [d|] eqn:Hn; [|apply effect_refl].
  destruct (fail_req_result d) as [r|] eqn:Ef.
  - apply effect_map; [intros n' d' [_ Hd]%lookup_delete_Some; eauto|]. constructor; [|done].
    simpl. intros Hok. simpl in Hok. exists n, d. split_and!; [done|done|]. right. congruence.
  - split; simpl; rewrite ?app_nil_r; try done; [|by exists []; rewrite app_nil_r].
    intros n' d' [[<- <-]|[_ Hd]]%lookup_insert_Some; [exists d|exists d']; by rewrite ?Ef.
Qed.

Lemma effect_complete_send x r c : effect M c (complete_send x r c) [] [].
Proof. destruct x as [n m|m]; [|apply effect_refl]. destruct r; [apply effect_sent|by apply effect_complete..]. Qed.

Lemma receive_fail_not_ok r : receive_fail_result r ≠ RequestResult.ok.
Proof. unfold receive_fail_result. by case_decide. Qed.

Lemma effect_receive_end r c : effect M c (complete_receive_routine r c) [] [].
Proof.
  pose proof (receive_fail_not_ok r) as Hok. split; simpl; rewrite ?app_nil_r; try done.
  - intros n d'. rewrite lookup_fmap, fmap_Some. intros (d & [Hd _]%map_lookup_filter_Some & ->). exists d.
    split_and!; [done|done|]. simpl. congruence.
  - eexists. split; [done|]. apply Forall_fmap, Forall_true. intros d Hr. done.
Qed.

Lemma effect_start c : effect M c (start c) [] [].
Proof.
  unfold start. case_decide; [|apply effect_refl]. unfold start_watching.
  destruct (PeriodicTimer.start _ _); apply effect_frame; simpl; rewrite ?app_nil_r; done.
Qed.

Lemma effect_watch c : ∃ extra, effect M c (process_watch_event c) extra [] ∧ Forall (SendOther ping =.) extra.
Proof.
  unfold process_watch_event. destruct (ConnectionWatcher.is_connection_not_responding _ _).
  { exists []. split; [|done]. apply effect_frame; simpl; rewrite ?app_nil_r; done. }
  unfold ConnectionWatcher.check_and_drop_activity_flag. destruct (ConnectionWatcher.m_activity_flag _).
  - exists []. split; [|done]. apply effect_frame; simpl; rewrite ?app_nil_r; done.
  - exists [SendOther ping]. split; [|by repeat constructor]. apply effect_frame; simpl; rewrite ?app_nil_r; done.
Qed.

Lemma effect_with_watcher w a c c' extra srv :
  effect M c c' extra srv → effect M c (with_watcher w a c') extra srv.
Proof. intros [E1 E2 E3 E4 E5 E6 E7]. by split. Qed.

Lemma effect_receive m c :
  M m → ∃ extra,
    effect M c (do_receive_async (dispatch_receive_event m c)) extra
      (if has_service c && bool_decide (read_type m = Some MsgType.req) then [m] else []) ∧
    Forall (SendOther pong =.) extra.
Proof.
  intros Hm. assert (∀ c' extra srv, effect M c c' extra srv → effect M c (do_receive_async c') extra srv) as Hdo.
  { intros c' extra srv [E1 E2 E3 E4 E5 E6 E7]. by split. }
  unfold dispatch_receive_event. destruct (read_type m) as [[| | | |b]|] eqn:Et; simpl.
  - exists []. split; [|done]. apply Hdo, effect_with_watcher. unfold handle_received_request.
    rewrite andb_true_r. destruct (has_service c) eqn:Es; [|apply effect_refl].
    apply effect_frame; simpl; rewrite ?app_nil_r; done.
  - exists []. rewrite andb_false_r. split; [|done]. apply Hdo. unfold handle_received_response.
    destruct (read_number_res m) eqn:En; [|apply effect_refl]. apply effect_with_watcher. by apply effect_complete.
  - exists [SendOther pong]. rewrite andb_false_r. split; [|by repeat constructor]. apply Hdo, effect_with_watcher.
    apply effect_frame; simpl; rewrite ?app_nil_r; done.
  - exists []. rewrite andb_false_r. split; [|done]. apply Hdo, effect_with_watcher, effect_refl.
  - exists []. rewrite andb_false_r. split; [|done]. apply Hdo, effect_with_watcher, effect_refl.
  - exists []. rewrite andb_false_r. split; [|done]. apply Hdo, effect_refl.
Qed.
End effects.

(** A response takes its request out of the map. *)
Lemma receive_removes m n c :
  read_type m = Some MsgType.res → read_number_res m = Some n →
  m_request_map (do_receive_async (dispatch_receive_event m c)) !! n = None.
Proof.
  intros Ht Hn. unfold dispatch_receive_event, handle_received_response. rewrite Ht, Hn. simpl.
  unfold complete_request. destruct (m_request_map c !! n) eqn:E; [apply lookup_delete_eq|done].
Qed.
