(* ===== verification/RpcSystem.v ===== *)
(** * Two peers over a pipe

    The whole stack of one connection: on each side an endpoint with its channel,
    connection and service, and between them a pipe that is any instance of the
    interface.  [transport] is the glue: sends are written to the pipe with the
    send timeout, receives read from it without one, [stop] invalidates it. *)
From S2P Require Import Prelude Memory Buffer BufferView RpcTypes TransferMessage TransferMessageFacts Timer.
From S2P Require Import Connection Service Endpoint Pipe.
Local Open Scope Z_scope.

Module RpcSystem.
Section system.
Context {P Msg : Type} `{Pipe P} `{Proto Msg}.
(** A cleared message, the service of each side and the configuration. *)
Context (empty : Msg) (g : bool → option (gservice Msg)) (send_timeout ping_timeout : Z).

(** A request that went to the connection: its promise, number and message. *)
Record call : Type := Call {
  k_promise : nat;
  k_number : Z;
  k_method : Z;
  k_request : Msg;
  k_payload : list Z
}.
Definition frame (k : call) : message := req_frame (k_number k) (u32 (k_method k)) (k_payload k).

(** [outgoing] are the writes whose result the connection has not been told, in
    the order of [Connection.sends], and [read] its read of the pipe.  The rest is
    history: the calls made, the requests answered, the messages written and
    those read. *)
Record peer : Type := Peer {
  endpoint : Endpoint.endpoint;
  outgoing : list (nat * Connection.send);
  read : option nat;
  calls : list call;
  served : list message;
  submitted : list message;
  received : list message
}.
Definition connection (q : peer) : Connection.impl := Endpoint.m_connection (endpoint q).

Record system : Type := System { peers : bool → peer; pipe : P }.

Definition create_peer : peer :=
  Peer (Endpoint.create (Connection.create true ping_timeout)) [] None [] [] [] [].
Definition create : system := System (λ _, create_peer) pipe_create.

(** Field updates. *)
Definition with_connection (c : Connection.impl) (q : peer) : peer :=
  Peer (Endpoint.mk (Endpoint.m_next_req_id (endpoint q)) c (Endpoint.m_on_stop (endpoint q)))
       (outgoing q) (read q) (calls q) (served q) (submitted q) (received q).
Definition with_outgoing (ws : list (nat * Connection.send)) (q : peer) : peer :=
  Peer (endpoint q) ws (read q) (calls q) (served q) (submitted q) (received q).
Definition with_read (r : option nat) (new : list message) (q : peer) : peer :=
  Peer (endpoint q) (outgoing q) r (calls q) (served q) (submitted q) (received q ++ new).
Definition with_served (m : message) (q : peer) : peer :=
  Peer (endpoint q) (outgoing q) (read q) (calls q) (served q ++ [m]) (submitted q) (received q).

(** [transport::is_running] is the state of the pipe. *)
Definition conn (s : bool) (y : system) : Connection.impl :=
  let c := connection (peers y s) in
  if is_connected s (pipe y) then c else Connection.with_state (Connection.m_state c) false c.

Definition data (x : Connection.send) : message :=
  match x with Connection.SendRequest _ m | Connection.SendOther m => m end.

(** The writes of some sends: their numbers and the pipe after them. *)
Fixpoint write_all (s : bool) (xs : list Connection.send) (p : P) : list nat * P :=
  match xs with
  | [] => ([], p)
  | x :: xs =>
      let '(ns, p') := write_all s xs (write_async s (data x) (Some send_timeout) p) in
      (next_write s p :: ns, p')
  end.

(** Sends the pipe has not been given. *)
Definition fresh (q : peer) : list Connection.send :=
  drop (length (outgoing q)) (Connection.sends (connection q)).

(** What an operation of the side [s] that left its peer as [q] asked of the
    transport is done: sends, then the next receive, then [stop]. *)
Definition commit (s : bool) (q : peer) (y : system) : system :=
  let c := connection q in
  let '(ns, p1) := write_all s (fresh q) (pipe y) in
  let '(r, p2) :=
    if Connection.receiving c && bool_decide (read q = None)
    then (Some (next_read s p1), read_async s None p1) else (read q, p1) in
  let p3 := if is_connected s p2 && negb (Connection.is_running c) then invalidate s p2 else p2 in
  let q' := Peer (endpoint q) (outgoing q ++ zip ns (fresh q)) r (calls q) (served q)
                 (submitted q ++ (data <$> fresh q)) (received q) in
  System (λ s', if decide (s' = s) then q' else peers y s') p3.

Definition operate (s : bool) (c : Connection.impl) (y : system) : system :=
  commit s (with_connection c (peers y s)) y.

(** ** Operations *)
Definition make_call (idx : Z) (request : Msg) (pl : list Z) (c : Connection.impl) (q : peer) : peer :=
  let number := Endpoint.m_next_req_id (endpoint q) in
  let '(f, e) := Endpoint.make_request idx pl (Endpoint.mk number c (Endpoint.m_on_stop (endpoint q))) in
  let new := match f with
             | Endpoint.Pending p => [Call p number idx request pl]
             | Endpoint.Ready _ => []
             end in
  Peer e (outgoing q) (read q) (calls q ++ new) (served q) (submitted q) (received q).
Definition call_method (s : bool) (idx : Z) (request : Msg) (pl : list Z) (y : system) : system :=
  commit s (make_call idx request pl (conn s y) (peers y s)) y.

(** The write of [x] ended with [r]; the writes [ws] are left. *)
Definition write_done (s : bool) (x : Connection.send) (r : PipeOpRes.pipe_op_res)
    (ws : list (nat * Connection.send)) (y : system) : system :=
  let c := Connection.complete_send x r (Connection.with_sends ws.*2 (conn s y)) in
  commit s (with_connection c (with_outgoing ws (peers y s))) y.

(** The callback of the read in [do_receive_async]. *)
Definition read_done (s : bool) (m : message) (y : system) : system :=
  let c := Connection.do_receive_async (Connection.dispatch_receive_event m (conn s y)) in
  commit s (with_connection c (with_read None [m] (peers y s))) y.
Definition read_failed (s : bool) (r : PipeOpRes.pipe_op_res) (y : system) : system :=
  let c := Connection.complete_receive_routine r (Connection.with_receiving false (conn s y)) in
  commit s (with_connection c (with_read None [] (peers y s))) y.

(** The service's task for the request [m] ended with the response [res]. *)
Definition service_done (s : bool) (m res : message) (rest : list message) (y : system) : system :=
  let c := Connection.service_done res (Connection.with_serving rest (conn s y)) in
  commit s (with_connection c (with_served m (peers y s))) y.

(** The service of the side [s], run on a buffer with the bytes [m]. *)
Definition answers (s : bool) (m res : message) : Prop :=
  ∃ h req_msg res_msg h',
    CBufferView.views h (CBufferView.of_buffer req_msg) m ∧
    process_request empty (g s) req_msg h = Ok res_msg h' ∧
    CBufferView.views h' (CBufferView.of_buffer res_msg) res.

(** ** Steps *)

(** Timers and the clock of a connection. *)
Inductive background (c : Connection.impl) : Connection.impl → Prop :=
| bg_expire t :
    background c (Connection.with_map (Connection.m_request_map c)
      (MultipleTimer.expire t (Connection.m_multiple_timer c)) (Connection.log c) c)
| bg_timer t fired timer' :
    MultipleTimer.run_handler t (Connection.m_multiple_timer c) = Some (fired, timer') →
    let c' := Connection.with_map (Connection.m_request_map c) timer' (Connection.log c) c in
    background c (match fired with
                  | Some number => Connection.complete_request number RequestResult.timeout [] c'
                  | None => c'
                  end)
| bg_watch_timer t :
    PeriodicTimer.io_step (Connection.m_watcher_timer c) t → PeriodicTimer.m_timer t ≠ PeriodicTimer.InCallback →
    background c (Connection.with_watcher_timer t c)
| bg_watch t :
    PeriodicTimer.handler (Connection.m_watcher_timer c) = Some t → PeriodicTimer.m_timer t = PeriodicTimer.InCallback →
    background c (Connection.process_watch_event (Connection.with_watcher_timer t c))
| bg_tick n : Connection.now c ≤ n → background c (Connection.with_now n c).

Inductive step (y : system) : system → Prop :=
| sys_start s : step y (operate s (Connection.start (conn s y)) y)
| sys_disconnect s : step y (operate s (Connection.deactivate (conn s y)) y)
| sys_call s idx request pl :
    serialize request = Some pl → Endpoint.m_next_req_id (endpoint (peers y s)) < 2 ^ 64 - 1 →
    MultipleTimer.m_next_id (Connection.m_multiple_timer (conn s y)) < 2 ^ 64 - 1 →
    step y (call_method s idx request pl y)
| sys_write s w1 n x w2 r :
    outgoing (peers y s) = w1 ++ (n, x) :: w2 → (n, r) ∈ write_results s (pipe y) →
    step y (write_done s x r (w1 ++ w2) y)
| sys_read s n m :
    read (peers y s) = Some n → (n, PipeOpRes.success, m) ∈ read_results s (pipe y) → step y (read_done s m y)
| sys_read_fail s n r m :
    read (peers y s) = Some n → (n, r, m) ∈ read_results s (pipe y) →
    r = PipeOpRes.canceled ∨ r = PipeOpRes.failed → step y (read_failed s r y)
| sys_serve s s1 m s2 res :
    Connection.serving (conn s y) = s1 ++ m :: s2 → answers s m res → step y (service_done s m res (s1 ++ s2) y)
| sys_background s c : background (conn s y) c → step y (operate s c y)
| sys_pipe p : internal (pipe y) p → step y (System (peers y) p).
End system.
Arguments call : clear implicits.
Arguments peer : clear implicits.
Arguments system : clear implicits.
End RpcSystem.
