(* ===== verification/RpcSystemLemmas.v ===== *)
(** * Commits, reads and answers

    What an operation of one side of the system does to the pipe, what the reads
    of a side say of the messages it was given, and what the services answer. *)
From S2P Require Import Prelude Memory Buffer BufferView RpcTypes BigEndian TransferMessage TransferMessageFacts Timer.
From S2P Require Import Connection ConnectionFacts ConnectionEffects Service ServiceFacts Endpoint Pipe RpcSystem.
Import Memory TransferMessage RpcSystem.
Local Open Scope Z_scope.

(** ** The pipe side of an operation *)
Section commit.
Context {P Msg : Type} `{PipeLaws P} `{Proto Msg}.
Context (send_timeout : Z).
Implicit Types (p : P) (q : peer Msg) (y : system P Msg).

Lemma evolves_only p1 p2 p3 s w1 w2 r1 r2 :
  evolves p1 p2 (only s w1) (only s r1) → evolves p2 p3 (only s w2) (only s r2) →
  evolves p1 p3 (only s (w1 ++ w2)) (only s (r1 ++ r2)).
Proof.
  intros E1 E2. pose proof (evolves_trans _ _ _ _ _ _ _ E1 E2) as [F R N C]. split; try done.
  - intros s'. specialize (F s'). unfold only in *. by case_decide.
  - intros s'. specialize (N s'). unfold only in *. by case_decide.
Qed.

Lemma write_all_spec s xs p :
  pipe_inv p → Forall (λ x, message_ok (data x)) xs →
  let '(ns, p') := write_all send_timeout s xs p in
  pipe_inv p' ∧ evolves p p' (only s (data <$> xs)) (only s []) ∧ length ns = length xs.
Proof.
  revert p. induction xs as [|x xs IH]; intros p Hp Hok; simpl.
  - split_and!; [done| |done]. by apply (evolves_ext p p _ _ _ _ (evolves_refl p)); intros s'; rewrite only_nil.
  - apply Forall_cons in Hok as [Hx Hok]. destruct (law_write s (data x) (Some send_timeout) p Hp Hx) as [Hp1 E1].
    specialize (IH _ Hp1 Hok). destruct (write_all _ _ _ _) as [ns p'] eqn:Ew. destruct IH as (Hp' & E2 & Hl).
    split_and!; [done| |simpl; by rewrite Hl]. eapply (evolves_only p _ p' s [data x] (data <$> xs) [] []); [|exact E2].
    by apply (evolves_ext _ _ _ _ _ _ E1); intros s'; rewrite ?only_nil.
Qed.

(** What a commit does to the pipe and to the peer of its side. *)
Record committed (s : bool) q y y' : Prop := Committed {
  cm_inv : pipe_inv (pipe y');
  cm_other s' : s' ≠ s → peers y' s' = peers y s';
  cm_endpoint : endpoint (peers y' s) = endpoint q;
  cm_outgoing : (outgoing (peers y' s)).*2 = (outgoing q).*2 ++ fresh q;
  cm_calls : calls (peers y' s) = calls q;
  cm_served : served (peers y' s) = served q;
  cm_submitted : submitted (peers y' s) = submitted q ++ (data <$> fresh q);
  cm_received : received (peers y' s) = received q;
  cm_read : ∃ asked,
    evolves (pipe y) (pipe y') (only s (data <$> fresh q)) (only s asked) ∧
    (asked = [] ∧ read (peers y' s) = read q ∨
     read q = None ∧ Connection.receiving (connection q) = true ∧
     ∃ n, asked = [n] ∧ read (peers y' s) = Some n ∧ n ∉ read_numbers s (pipe y));
  cm_stopped : is_connected s (pipe y') → Connection.is_running (connection q) = true
}.

Lemma commit_spec s q y :
  pipe_inv (pipe y) → Forall (λ x, message_ok (data x)) (fresh q) → committed s q y (commit send_timeout s q y).
Proof.
  intros Hp Hok. unfold commit. pose proof (write_all_spec s (fresh q) (pipe y) Hp Hok) as Hw.
  destruct (write_all send_timeout s (fresh q) (pipe y)) as [ns p1]. destruct Hw as (Hp1 & E1 & Hl).
  set (rp := if _ && _ then _ else _).
  assert (pipe_inv rp.2 ∧ ∃ asked, evolves (pipe y) rp.2 (only s (data <$> fresh q)) (only s asked) ∧
    (asked = [] ∧ rp.1 = read q ∨
     read q = None ∧ Connection.receiving (connection q) = true ∧
     ∃ n, asked = [n] ∧ rp.1 = Some n ∧ n ∉ read_numbers s (pipe y))) as (Hp2 & asked & E2 & Hr).
  { unfold rp. destruct (Connection.receiving (connection q)); simpl; [|by split; [|exists []; auto]].
    case_bool_decide as Er; [|by split; [|exists []; auto]]. simpl.
    destruct (law_read s None p1 Hp1) as (Hp2 & E2 & Hn). split; [done|]. exists [next_read s p1]. split.
    - rewrite <- (app_nil_r (data <$> fresh q)). apply (evolves_only _ p1 _ s (data <$> fresh q) [] [] [next_read s p1]); [done|].
      by apply (evolves_ext _ _ _ _ _ _ E2); intros s'; rewrite ?only_nil.
    - right. split_and!; [done|done|]. exists (next_read s p1). split_and!; [done|done|].
      intros Hin. apply Hn. rewrite (ev_reads _ _ _ _ E1 s). apply elem_of_app. by left. }
  destruct rp as [r p2]. simpl in *. set (p3 := if _ && _ then _ else _).
  assert (pipe_inv p3 ∧ evolves (pipe y) p3 (only s (data <$> fresh q)) (only s asked) ∧
          (is_connected s p3 → Connection.is_running (connection q) = true)) as (Hp3 & E3 & Hs3).
  { unfold p3. destruct (Connection.is_running (connection q)); simpl; [rewrite andb_false_r; split_and!; done|].
    rewrite andb_true_r. destruct (is_connected s p2) eqn:Ec; [|by rewrite Ec].
    destruct (law_invalidate s p2 Hp2) as (Hp3 & E3 & Hd). split_and!; [done| |by rewrite Hd].
    rewrite <- (app_nil_r (data <$> fresh q)), <- (app_nil_r asked). apply (evolves_only _ p2); [done|].
    by apply (evolves_ext _ _ _ _ _ _ E3); intros s'; rewrite ?only_nil. }
  split; simpl; rewrite ?decide_True by done; simpl; try done.
  - intros s' Hs. by rewrite decide_False.
  - rewrite fmap_app, snd_zip; [done|lia].
  - by exists asked.
Qed.
End commit.

(** ** Reads of a pipe *)
Section reads.
Context {P : Type} `{PipeLaws P}.
Implicit Types p : P.

(** The side [s], whose read is [rd], was given the messages [rcv]. *)
Definition read_state (s : bool) (rd : option nat) (rcv : list message) p : Prop :=
  NoDup (read_numbers s p) ∧
  ∃ d, d `prefix_of` read_results s p ∧ rcv = omap received_message d ∧
       read_numbers s p ≡ₚ d.*1.*1 ++ option_list rd.

Lemma read_state_evolves s rd rcv p p' w r rd' :
  read_state s rd rcv p → evolves p p' w r →
  r s = [] ∧ rd' = rd ∨ rd = None ∧ (∃ n, r s = [n] ∧ rd' = Some n ∧ n ∉ read_numbers s p) →
  read_state s rd' rcv p'.
Proof.
  intros (Hnd & d & Hd & Hr & Hn) [_ R N _] Hc. specialize (N s). split.
  - rewrite N. destruct Hc as [[-> _]|(_ & n & -> & _ & Hf)]; [by rewrite app_nil_r|].
    apply NoDup_app. split_and!; [done| |apply NoDup_singleton]. intros x Hx ->%list_elem_of_singleton. done.
  - exists d. split_and!; [by etrans|done|]. rewrite N, Hn.
    destruct Hc as [[-> ->]|(-> & n & -> & -> & _)]; simpl; by rewrite ?app_nil_r.
Qed.

(** The result of the read is the last one the pipe has. *)
Lemma read_state_done s n r m rcv p :
  read_state s (Some n) rcv p → (n, r, m) ∈ read_results s p →
  read_state s None (rcv ++ if PipeOpRes.is_success r then [m] else []) p.
Proof.
  intros (Hnd & d & [t Ht] & -> & Hn) Hin. unfold read_numbers in Hn. rewrite Ht, !fmap_app, <- app_assoc in Hn.
  apply Permutation_app_inv_l in Hn. simpl in Hn.
  unfold read_numbers in Hnd. rewrite Ht, !fmap_app, <- !app_assoc, Hn in Hnd.
  rewrite Ht in Hin. apply elem_of_app in Hin as [Hin|Hin].
  { apply NoDup_app in Hnd as (_ & Hnd & _). destruct (Hnd n); [|by left].
    apply list_elem_of_fmap. exists (n, r). split; [done|]. apply list_elem_of_fmap. by exists (n, r, m). }
  apply Permutation_singleton_r in Hn. destruct t as [|x t]; [by apply elem_of_nil in Hin|].
  simpl in Hn. injection Hn as Hx Hnil. apply app_eq_nil in Hnil as [Hnil Hw].
  assert (t = []) as -> by (by destruct t). apply list_elem_of_singleton in Hin as <-.
  split.
  - unfold read_numbers. rewrite Ht, Hw, !fmap_app, app_nil_r. done.
  - exists (d ++ [(n, r, m)]). split_and!; [by rewrite Ht| |].
    + rewrite omap_app. simpl. by destruct (PipeOpRes.is_success r).
    + unfold read_numbers. by rewrite Ht, Hw.
Qed.

Lemma read_state_delivered s rd rcv p : read_state s rd rcv p → rcv `prefix_of` delivered s p.
Proof. intros (_ & d & [t Ht] & -> & _). unfold delivered. rewrite Ht, omap_app. by eexists. Qed.
End reads.

(** ** Answers of the service *)
Section answers.
Context {Msg : Type} `{Proto Msg, !ProtoLaws Msg}.
Context (empty : Msg) (g : bool → option (gservice Msg)).

(** A cleared message and the responses of the methods can be serialized. *)
Record services_ok : Prop := ServicesOk {
  so_empty : is_Some (serialize empty);
  so_small : ByteSizeLong empty ≤ Consts.MaxResponseProtoSize;
  so_methods s g' : g s = Some g' → Z.of_nat (length (methods g')) < 2 ^ 32 ∧
    ∀ method request, method ∈ methods g' → is_Some (serialize (reply_response (method request)))
}.

(** Bytes of a frame. *)
Definition wire (m : message) : Prop := Forall is_byte m ∧ 0 < Z.of_nat (length m) < 2 ^ 31.

Lemma cviews_inj h v xs ys : CBufferView.views h v xs → CBufferView.views h v ys → xs = ys.
Proof.
  intros [Hx Hlx] [Hy Hly]. apply list_eq_same_length with (length xs); [lia|done|].
  intros i x y _ Hi Hj. apply Hx in Hi. apply Hy in Hj. congruence.
Qed.

(** The service answers every message, with what it must. *)
Lemma process_answers s h b m num rc msg pl :
  services_ok → wire m → CBufferView.views h (CBufferView.of_buffer b) m →
  answer empty (g s) m = (num, rc, msg) → payload msg = Some pl →
  ∃ b' h', process_request empty (g s) b h = Ok b' h' ∧
           CBufferView.views h' (CBufferView.of_buffer b') (res_frame num rc pl).
Proof.
  intros [_ Hsm Hme] [Hb Hl] Hv Ea Hpl. eexists _, _. split.
  - apply (process_request_run empty (g s) h b m num rc msg pl); try done; [lia|]. intros g' Hg. by apply (Hme s g').
  - apply CBufferView.cviews_of_buffer. exists (fresh_loc h).
    split_and!; [done|apply lookup_insert_eq|by rewrite length_res_frame].
Qed.

Lemma answers_run s m num rc msg pl :
  services_ok → wire m → answer empty (g s) m = (num, rc, msg) → payload msg = Some pl →
  answers empty g s m (res_frame num rc pl).
Proof.
  intros So Hw Ea Hpl.
  set (h := {[ 1%positive := Some <$> m ]} : heap). set (b := Buffer.mk (Ptr 1 0) (Z.of_nat (length m))).
  assert (CBufferView.views h (CBufferView.of_buffer b) m) as Hv.
  { apply CBufferView.cviews_of_buffer. exists 1%positive. split_and!; [done|apply lookup_singleton_eq|done]. }
  destruct (process_answers s h b m num rc msg pl) as (b' & h' & Hr & Hv'); [done..|]. by exists h, b, b', h'.
Qed.

Lemma answers_frame s m res :
  services_ok → wire m → answers empty g s m res →
  ∃ num rc msg pl, answer empty (g s) m = (num, rc, msg) ∧ payload msg = Some pl ∧ res = res_frame num rc pl ∧
    ResponseResult.valid rc ∧ Z.of_nat (length pl) < 2 ^ 30.
Proof.
  intros So Hw Ha. pose proof So as [[epl He] Hsm Hme].
  destruct (answer empty (g s) m) as [[num rc] msg] eqn:Ea.
  assert (ResponseResult.valid rc ∧ ∃ pl, payload msg = Some pl ∧ Z.of_nat (length pl) < 2 ^ 30) as (Hrc & pl & Hpl & Hlen).
  { unfold Consts.MaxResponseProtoSize in Hsm. pose proof (serialize_length _ _ He) as Hel.
    assert (∃ pl, payload (Some empty) = Some pl ∧ Z.of_nat (length pl) < 2 ^ 30) as Hempty by (exists epl; split; [done|lia]).
    assert (∃ pl, payload (None : option Msg) = Some pl ∧ Z.of_nat (length pl) < 2 ^ 30) as Hnone by (by exists []).
    unfold answer in Ea. destruct (req_valid m); [|by simplify_eq].
    destruct (g s) as [g'|] eqn:Eg; simpl in Ea; [|by simplify_eq].
    destruct (methods g' !! _) as [method|] eqn:Em; [|by simplify_eq]. apply list_elem_of_lookup_2 in Em.
    destruct (parse _) as [req|]; [|by simplify_eq].
    destruct (is_response_proto_too_big _) eqn:Eb; simplify_eq; [done|].
    split; [by destruct (reply_threw _)|]. destruct (Hme s g' Eg) as [_ Hser]. destruct (Hser method req Em) as [pl Hpl].
    exists pl. split; [done|]. unfold is_response_proto_too_big, Consts.MaxResponseProtoSize in Eb.
    apply bool_decide_eq_false in Eb. rewrite (serialize_length _ _ Hpl). lia. }
  exists num, rc, msg, pl. split_and!; try done. destruct Ha as (h & b & b' & h' & Hv & Hrun & Hv').
  destruct (process_answers s h b m num rc msg pl) as (b2 & h2 & Hr & Hv2); [done..|].
  rewrite Hrun in Hr. injection Hr as <- <-. by eapply cviews_inj.
Qed.

(** It is a response. *)
Lemma answers_wire s m res :
  services_ok → wire m → answers empty g s m res → wire res ∧ Connection.read_type res = Some MsgType.res.
Proof.
  intros So Hm Ha. destruct (answers_frame s m res So Hm Ha) as (num & rc & msg & pl & _ & Hpl & -> & Hrc & Hl).
  split; [|done]. split; [by eapply res_frame_bytes, payload_bytes|]. rewrite length_res_frame. lia.
Qed.

(** The response to a frame of a request. *)
Lemma answers_request s num idx request pl res :
  services_ok → serialize request = Some pl → Z.of_nat (length pl) ≤ Consts.MaxRequestProtoSize →
  0 ≤ idx < 2 ^ 32 → 0 ≤ num < 2 ^ 64 → answers empty g s (req_frame num idx pl) res →
  ∃ rc rpl, res = res_frame num rc rpl ∧ ResponseResult.valid rc ∧ Forall is_byte rpl ∧ Z.of_nat (length rpl) < 2 ^ 30 ∧
    (if ResponseResult.is_fail rc then (RequestResult.request_not_processed, empty)
     else match parse rpl with
          | None => (RequestResult.response_parse_error, parse_rest rpl)
          | Some r => (RequestResult.ok, r)
          end) = call_spec empty (g s) idx request.
Proof.
  intros So Hs Hl Hi Hn Ha. unfold Consts.MaxRequestProtoSize in Hl. pose proof So as [[epl He] Hsm Hme].
  assert (wire (req_frame num idx pl)) as Hw.
  { split; [by eapply req_frame_bytes, serialize_bytes|]. rewrite length_req_frame. lia. }
  destruct (answers_frame s _ res So Hw Ha) as (num' & rc & msg & rpl & Ean & Hpl & -> & _ & Hrl30).
  destruct (answer_outcome empty (g s) num idx request pl epl) as (rc' & msg' & rpl' & Ean' & Hpl' & Hrc & Hby & Hrl & Hout);
    [done|done|lia|done| |done|done|].
  { intros g' Hg. destruct (Hme s g' Hg) as [H1 H2]. split; [done|]. intros method Hin. by apply H2. }
  rewrite Ean in Ean'. injection Ean' as -> -> ->. rewrite Hpl in Hpl'. injection Hpl' as ->. exists rc', rpl'. split_and!; [done..|].
  rewrite Hout. unfold call_spec. destruct (is_request_proto_too_big request) eqn:Eb; [|done].
  unfold is_request_proto_too_big, Consts.MaxRequestProtoSize in Eb. apply bool_decide_eq_true in Eb.
  rewrite <- (serialize_length _ _ Hs) in Eb. lia.
Qed.
End answers.
