(* ===== verification/RpcSystemFacts.v ===== *)
(** * Remote calls end to end

    Whatever the pipe, the pool, the timers and the peers do: a call that
    completes with [ok] was answered by the service of the peer, which ran it
    once, and the caller decodes what the method computed. *)
From S2P Require Import Prelude Memory Buffer BufferView RpcTypes BigEndian TransferMessage TransferMessageFacts Timer.
From S2P Require Import Connection ConnectionFacts ConnectionEffects Service ServiceFacts Endpoint Pipe RpcSystem RpcSystemLemmas.
Import Memory TransferMessage RpcSystem.
Local Open Scope Z_scope.

(** ** The books of one side *)
Section books.
Context {Msg : Type} `{Proto Msg, !ProtoLaws Msg}.
Context (empty : Msg) (g : bool → option (gservice Msg)).
Hypothesis So : services_ok empty g.
Implicit Types (q : peer Msg) (c : Connection.impl).

Definition is_req (m : message) : Prop := Connection.read_type m = Some MsgType.req.
#[local] Instance is_req_dec m : Decision (is_req m).
Proof. unfold is_req. apply _. Defined.

(** Everything the side has given to the pipe or is about to. *)
Definition sent q : list message := submitted q ++ (data <$> fresh q).

Record call_ok q (k : call Msg) : Prop := CallOk {
  co_payload : serialize (k_request k) = Some (k_payload k);
  co_size : Z.of_nat (length (k_payload k)) ≤ Consts.MaxRequestProtoSize;
  co_number : 0 ≤ k_number k < Endpoint.m_next_req_id (endpoint q);
  co_promise : (k_promise k < Connection.next_promise (connection q))%nat
}.

(** Requests are calls, responses answer requests that were served, what was
    served was received, and completions with [ok] are responses that were
    received for calls. *)
Record books (s : bool) q : Prop := Books {
  b_next : 0 ≤ Endpoint.m_next_req_id (endpoint q) < 2 ^ 64;
  b_calls : Forall (call_ok q) (calls q);
  b_numbers : NoDup (k_number <$> calls q);
  b_promises : NoDup (k_promise <$> calls q);
  b_wire : Forall wire (sent q ++ received q);
  b_requests : filter is_req (sent q) `sublist_of` (frame <$> calls q);
  b_responses m : m ∈ sent q → Connection.read_type m = Some MsgType.res → ∃ x, x ∈ served q ∧ answers empty g s x m;
  b_served : served q ++ Connection.serving (connection q) ⊆+ filter is_req (received q);
  b_entries n d : Connection.m_request_map (connection q) !! n = Some d →
    (∃ k, k ∈ calls q ∧ k_number k = n ∧ k_promise k = Connection.promise d) ∧
    Connection.fail_req_result d ≠ Some RequestResult.ok;
  b_log x : x ∈ Connection.log (connection q) → Connection.c_result x = RequestResult.ok →
    ∃ k, k ∈ calls q ∧ k_promise k = Connection.c_promise x ∧ Connection.c_response x ∈ received q ∧
         Connection.read_number_res (Connection.c_response x) = Some (k_number k)
}.

Lemma books_create ping s : books s (create_peer ping).
Proof.
  split; simpl; try done; try (by constructor).
  - intros m Hm. by apply elem_of_nil in Hm.
  - intros x Hx. by apply elem_of_nil in Hx.
Qed.

(** What the books see of a peer. *)
Lemma books_ext s q q' :
  endpoint q' = endpoint q → calls q' = calls q → served q' = served q → received q' = received q →
  sent q' = sent q → books s q → books s q'.
Proof.
  intros E1 E2 E3 E4 E5 [H1 H2 H3 H4 H5 H6 H7 H8 H9 H10].
  split; unfold connection; rewrite ?E1, ?E2, ?E3, ?E4, ?E5; try done.
  eapply Forall_impl; [exact H2|]. intros k [K1 K2 K3 K4]. split; unfold connection; by rewrite ?E1.
Qed.

(** Pings and pongs. *)
Lemma quiet_sends extra :
  Forall (λ x, x = Connection.SendOther Connection.ping ∨ x = Connection.SendOther Connection.pong) extra →
  Forall wire (data <$> extra) ∧ filter is_req (data <$> extra) = [] ∧
  ∀ m, m ∈ data <$> extra → Connection.read_type m ≠ Some MsgType.res.
Proof.
  induction 1 as [|x l Hx _ (IH1 & IH2 & IH3)]; [split_and!; [done|done|intros m []%elem_of_nil]|].
  assert (wire (data x) ∧ ¬ is_req (data x) ∧ Connection.read_type (data x) ≠ Some MsgType.res) as (W & R & T).
  { destruct Hx as [-> | ->]; (split; [split; [repeat constructor; by vm_compute|simpl; lia]|done]). }
  rewrite fmap_cons. split_and!.
  - by constructor.
  - by rewrite filter_cons, decide_False.
  - intros m [->|Hm]%elem_of_cons; [done|by apply IH3].
Qed.

(** An operation of the connection while the messages [new] are received. *)
Lemma books_effect s q c c' extra srv new r :
  books s (with_connection c q) → (outgoing q).*2 = Connection.sends c →
  effect (λ m, m ∈ new) c c' extra srv →
  Forall (λ x, x = Connection.SendOther Connection.ping ∨ x = Connection.SendOther Connection.pong) extra →
  Forall wire new → srv ⊆+ filter is_req new →
  books s (with_connection c' (with_read r new q)).
Proof.
  intros [H1 H2 H3 H4 H5 H6 H7 H8 H9 H10] Hout [Em (l & El & Al) Ep Es Ev Er Eh] Hq Hnew Hsrv.
  destruct (quiet_sends extra Hq) as (W & R & T).
  assert (sent (with_connection c' (with_read r new q)) = sent (with_connection c q) ++ (data <$> extra)) as Hsent.
  { unfold sent, fresh, connection. simpl. rewrite Es, <- Hout, <- (length_fmap snd (outgoing q)), drop_app_length, drop_all.
    by rewrite app_nil_r. }
  split; rewrite ?Hsent; unfold connection in *; simpl in *; try done.
  - eapply Forall_impl; [exact H2|]. intros k [K1 K2 K3 K4]. split; unfold connection in *; simpl in *; try done. by rewrite Ep.
  - rewrite !Forall_app in *. tauto.
  - by rewrite filter_app, R, app_nil_r.
  - intros m [Hm|Hm]%elem_of_app Ht; [by apply H7|by destruct (T m Hm)].
  - rewrite Ev, filter_app, app_assoc. by apply submseteq_app.
  - intros n d' Hd. destruct (Em n d' Hd) as (d & Hd0 & Ed & Ef). destruct (H9 n d Hd0) as [(k & Hk & Hn & Hp) Hf].
    split; [exists k; split_and!; congruence|]. intros Hok. by apply Hf, Ef.
  - intros x Hx Hok. rewrite El in Hx. apply elem_of_app in Hx as [Hx|Hx].
    + destruct (H10 x Hx Hok) as (k & Hk & Hp & Hin & Hn). exists k. split_and!; try done. apply elem_of_app. by left.
    + rewrite Forall_forall in Al. destruct (Al x Hx Hok) as (n & d & Hd & Hp & Hc). destruct (H9 n d Hd) as [(k & Hk & Hn & Hkp) Hf].
      destruct Hc as [[Hin Hnum]|Hc]; [|done]. exists k. split_and!; [done|congruence|apply elem_of_app; by right|congruence].
Qed.

(** Without sends that wait, everything sent was submitted. *)
Lemma sent_submitted q c : (outgoing q).*2 = Connection.sends c → sent (with_connection c q) = submitted q.
Proof.
  intros Hout. unfold sent, fresh, connection. simpl. rewrite <- Hout, drop_ge by (by rewrite length_fmap). apply app_nil_r.
Qed.

Lemma books_sends s q c ws :
  books s (with_connection c q) → (outgoing q).*2 = Connection.sends c →
  books s (with_connection (Connection.with_sends ws.*2 c) (with_outgoing ws q)).
Proof.
  intros [H1 H2 H3 H4 H5 H6 H7 H8 H9 H10] Hout. rewrite (sent_submitted q c Hout) in *.
  assert (sent (with_connection (Connection.with_sends ws.*2 c) (with_outgoing ws q)) = submitted q) as Hs.
  { by apply (sent_submitted (with_outgoing ws q)). }
  split; rewrite ?Hs; try done. eapply Forall_impl; [exact H2|]. intros k []. by split.
Qed.

Lemma books_service s q c s1 m s2 res :
  books s (with_connection c q) → (outgoing q).*2 = Connection.sends c →
  Connection.serving c = s1 ++ m :: s2 → answers empty g s m res →
  books s (with_connection (Connection.service_done res (Connection.with_serving (s1 ++ s2) c)) (with_served m q)).
Proof.
  intros [H1 H2 H3 H4 H5 H6 H7 H8 H9 H10] Hout Hsv Ha. rewrite (sent_submitted q c Hout) in *.
  unfold connection in *. simpl in *. rewrite Hsv in H8.
  assert (m ∈ received q) as Hm.
  { assert (m ∈ filter is_req (received q)) as Hm; [|by apply list_elem_of_filter in Hm as [_ ?]].
    eapply elem_of_submseteq; [|exact H8]. rewrite !elem_of_app, elem_of_cons. tauto. }
  pose proof H5 as [_ Hw]%Forall_app. rewrite Forall_forall in Hw.
  destruct (answers_wire empty g s m res So (Hw m Hm) Ha) as [Wr Tr].
  set (q' := with_connection _ _). assert (sent q' = submitted q ++ [res]) as Hs.
  { unfold sent, fresh, connection. simpl. rewrite <- Hout, <- (length_fmap snd (outgoing q)), drop_app_length. done. }
  split; rewrite ?Hs; unfold connection; simpl; try done.
  - eapply Forall_impl; [exact H2|]. intros k []. by split.
  - rewrite !Forall_app in *. destruct H5. split_and!; [done|by constructor|done].
  - rewrite filter_app, filter_cons_False, app_nil_r by (unfold is_req; congruence). done.
  - intros m' [Hm'|Hm']%elem_of_app Ht.
    + destruct (H7 m' Hm' Ht) as (x & Hx & Hax). exists x. split; [apply elem_of_app; by left|done].
    + apply list_elem_of_singleton in Hm' as ->. exists m. split; [apply elem_of_app; right; by constructor|done].
  - etrans; [|exact H8]. apply Permutation_submseteq. solve_Permutation.
Qed.

(** What is sent can be written to a pipe. *)
Lemma fresh_ok s q : books s q → Forall (λ x, message_ok (data x)) (fresh q).
Proof.
  intros B. pose proof (b_wire _ _ B) as [[_ Hw]%Forall_app _]%Forall_app. apply (Forall_fmap data) in Hw.
  eapply Forall_impl; [exact Hw|]. intros x [_ Hx]. unfold message_ok. lia.
Qed.

(** A request for the connection. *)
Lemma request_frame_wire num idx request pl :
  serialize request = Some pl → Z.of_nat (length pl) ≤ Consts.MaxRequestProtoSize →
  wire (req_frame num (u32 idx) pl) ∧ is_req (req_frame num (u32 idx) pl).
Proof.
  intros Hs Hl. split; [|done]. split; [by eapply req_frame_bytes, serialize_bytes|].
  rewrite length_req_frame. unfold Consts.MaxRequestProtoSize in Hl. lia.
Qed.

Lemma books_fresh_number s q c :
  books s (with_connection c q) → Connection.m_request_map c !! Endpoint.m_next_req_id (endpoint q) = None.
Proof.
  intros B. destruct (Connection.m_request_map c !! _) as [d|] eqn:Hn; [|done].
  destruct (b_entries _ _ B _ d Hn) as [(k & Hk & Heq & _) _]. pose proof (b_calls _ _ B) as Hc.
  rewrite Forall_forall in Hc. destruct (Hc k Hk) as [_ _ K _]. simpl in K. lia.
Qed.

Lemma books_call s q c idx request pl :
  books s (with_connection c q) → (outgoing q).*2 = Connection.sends c →
  serialize request = Some pl → Endpoint.m_next_req_id (endpoint q) < 2 ^ 64 - 1 →
  books s (make_call idx request pl c q).
Proof.
  intros B Hout Hs Hnext. pose proof B as [H1 H2 H3 H4 H5 H6 H7 H8 H9 H10]. unfold make_call, Endpoint.make_request.
  simpl in *. case_decide as Hl; simpl.
  { apply (books_ext _ (with_connection c q)); try done. simpl. by rewrite app_nil_r. }
  set (num := Endpoint.m_next_req_id (endpoint q)) in *. set (fr := req_frame num (u32 idx) pl).
  destruct (request_frame_wire num idx request pl Hs ltac:(lia)) as [Wf Rf]. fold fr in Wf, Rf.
  set (k := Call _ num idx request pl). rewrite (sent_submitted q c Hout) in *. unfold connection in *. simpl in *.
  rewrite wrap_small by lia.
  set (q' := Peer _ _ _ _ _ _ _).
  assert (∃ extra, sent q' = submitted q ++ extra ∧ (extra = [] ∨ extra = [fr])) as (extra & Hsent & Hex).
  { unfold sent, fresh, connection, q'. simpl. unfold Connection.request_async. case_match; simpl.
    - exists []. rewrite <- Hout, drop_ge by (by rewrite length_fmap). auto.
    - exists [fr]. rewrite <- Hout, <- (length_fmap snd (outgoing q)), drop_app_length. auto. }
  assert (Connection.next_promise (connection q') = S (Connection.next_promise c) ∧
          Connection.serving (connection q') = Connection.serving c ∧
          (∀ n d, Connection.m_request_map (connection q') !! n = Some d →
             Connection.m_request_map c !! n = Some d ∨
             n = num ∧ Connection.promise d = Connection.next_promise c ∧ Connection.fail_req_result d = None) ∧
          (∀ x, x ∈ Connection.log (connection q') → Connection.c_result x = RequestResult.ok → x ∈ Connection.log c))
    as (Ep & Ev & Em & El).
  { unfold connection, q'. simpl. unfold Connection.request_async. case_match; simpl; split_and!; auto.
    - intros x [Hx|Hx]%elem_of_app; [done|]. by apply list_elem_of_singleton in Hx as ->.
    - intros n d [[<- <-]|[_ Hn]]%lookup_insert_Some; [by right|by left]. }
  split; rewrite ?Hsent; unfold connection in *; simpl in *; rewrite ?Ep, ?Ev; try done; try lia.
  - apply Forall_app. split.
    + eapply Forall_impl; [exact H2|]. intros k' [K1 K2 K3 K4]. unfold connection in *. simpl in *.
      split; unfold connection; simpl; rewrite ?Ep; try done; lia.
    + constructor; [|done]. split; unfold connection; simpl; rewrite ?Ep; try done; lia.
  - rewrite fmap_app. apply NoDup_app. split_and!; [done| |apply NoDup_singleton]. simpl.
    intros x (k' & -> & Hk)%list_elem_of_fmap Hx%list_elem_of_singleton. rewrite Forall_forall in H2.
    destruct (H2 k' Hk) as [_ _ K _]. simpl in K. lia.
  - rewrite fmap_app. apply NoDup_app. split_and!; [done| |apply NoDup_singleton]. simpl.
    intros x (k' & -> & Hk)%list_elem_of_fmap Hx%list_elem_of_singleton. rewrite Forall_forall in H2.
    destruct (H2 k' Hk) as [_ _ _ K]. unfold connection in K. simpl in K. lia.
  - rewrite !Forall_app in *. destruct H5. split_and!; try done. destruct Hex as [-> | ->]; [done|by constructor].
  - rewrite filter_app, fmap_app. apply sublist_app; [done|]. destruct Hex as [-> | ->]; [apply sublist_nil_l|].
    by rewrite filter_cons_True.
  - intros m [Hm|Hm]%elem_of_app Ht; [by apply H7|]. destruct Hex as [-> | ->]; [by apply elem_of_nil in Hm|].
    by apply list_elem_of_singleton in Hm as ->.
  - intros n d Hd. destruct (Em n d Hd) as [Hd'|(-> & Hp & Hf)].
    + destruct (H9 n d Hd') as [(k' & Hk & Hn & Hp) Hf]. split; [|done]. exists k'. split_and!; [|done..].
      apply elem_of_app. by left.
    + rewrite Hf. split; [|done]. exists k. split_and!; [|done..]. apply elem_of_app. right. by constructor.
  - intros x Hx Hok. destruct (H10 x (El x Hx Hok) Hok) as (k' & Hk & Hrest). exists k'. split; [|done].
    apply elem_of_app. by left.
Qed.
End books.

(** ** The invariant of the system *)
Section invariant.
Context {P Msg : Type} `{PipeLaws P} `{Proto Msg, !ProtoLaws Msg}.
Context (empty : Msg) (g : bool → option (gservice Msg)) (send_timeout ping_timeout : Z).
Hypothesis So : services_ok empty g.
Implicit Types (p : P) (q : peer Msg) (y : system P Msg) (c : Connection.impl).
#[local] Existing Instance is_req_dec.
Abbreviation step := (step empty g send_timeout).
Abbreviation books := (books empty g).

Lemma with_connection_id q : with_connection (connection q) q = q.
Proof. by destruct q as [[]]. Qed.

(** A side and the pipe: what flows was submitted, in order, and what was
    received is what the reads were given. *)
Record linked (s : bool) q p : Prop := Linked {
  k_flow : flow s p `sublist_of` submitted q;
  k_read : read_state s (read q) (received q) p;
  k_running : is_connected s p → Connection.is_running (connection q) = true;
  k_sends : (outgoing q).*2 = Connection.sends (connection q);
  k_receiving : is_Some (read q) → Connection.receiving (connection q) = true
}.

Record sys_inv y : Prop := SysInv {
  si_pipe : pipe_inv (pipe y);
  si_books s : books s (peers y s);
  si_linked s : linked s (peers y s) (pipe y)
}.

Lemma linked_evolves s q p p' w r :
  linked s q p → evolves p p' w r → w s = [] → r s = [] → linked s q p'.
Proof.
  intros [F R N O C] E Hw Hr. split; try done.
  - etrans; [apply (ev_flow _ _ _ _ E)|]. by rewrite Hw, app_nil_r.
  - eapply read_state_evolves; [done|exact E|]. by left.
  - intros Hc. by apply N, (ev_connected _ _ _ _ E).
Qed.

(** The connection as the operations of its side see it. *)
Lemma conn_view s y :
  sys_inv y →
  books s (with_connection (conn s y) (peers y s)) ∧
  (outgoing (peers y s)).*2 = Connection.sends (conn s y) ∧
  rtc Connection.step (connection (peers y s)) (conn s y).
Proof.
  intros [Hp B L]. specialize (B s). specialize (L s). unfold conn.
  destruct (is_connected s (pipe y)).
  - rewrite with_connection_id. by split_and!; [|apply L|].
  - split_and!; [|apply L|apply rtc_once, Connection.step_disconnect].
    pose proof (books_effect empty g s (peers y s) (connection (peers y s))
                  (Connection.with_state (Connection.m_state (connection (peers y s))) false (connection (peers y s))) [] [] []) as HB.
    eapply books_ext, (HB (read (peers y s))); simpl; rewrite ?app_nil_r; try done.
    + by rewrite with_connection_id.
    + apply L.
    + apply effect_frame; simpl; rewrite ?app_nil_r; done.
Qed.

Lemma conn_receiving s y : Connection.receiving (conn s y) = Connection.receiving (connection (peers y s)).
Proof. unfold conn. by destruct (is_connected s (pipe y)). Qed.

(** A commit keeps the invariant when the operation kept the books. *)
Lemma inv_commit s q y :
  sys_inv y → books s q → submitted q = submitted (peers y s) →
  (outgoing q).*2 `prefix_of` Connection.sends (connection q) →
  read_state s (read q) (received q) (pipe y) → (is_Some (read q) → Connection.receiving (connection q) = true) →
  sys_inv (commit send_timeout s q y).
Proof.
  intros [Hp B L] Bq Hsub Hout Hrd Hrc.
  assert ((outgoing q).*2 ++ fresh q = Connection.sends (connection q)) as Hfr.
  { destruct Hout as [l Hl]. unfold fresh. by rewrite Hl, <- (length_fmap snd (outgoing q)), drop_app_length. }
  assert (Forall (λ x, message_ok (data x)) (fresh q)) as Hok by (by eapply fresh_ok).
  destruct (commit_spec send_timeout s q y Hp Hok) as [Hp' Ho Ee Eo Ec Es Esub Er (asked & Ev & Hasked) Hst].
  assert (∀ s', s' ≠ s → linked s' (peers (commit send_timeout s q y) s') (pipe (commit send_timeout s q y))) as Hother.
  { intros s' Hs. rewrite Ho by done. eapply linked_evolves; [apply L|exact Ev| |]; by apply only_other. }
  split; [done|..]; intros s'; (destruct (decide (s' = s)) as [->|Hs]; [|first [by apply Hother|rewrite Ho by done; apply B]]).
  - eapply books_ext, Bq; try done. unfold sent, fresh, connection. rewrite Ee, Esub.
    rewrite drop_ge; [by rewrite app_nil_r|]. unfold connection in Hfr.
    rewrite <- Hfr, <- Eo, length_fmap. done.
  - split; unfold connection in *; rewrite ?Ee, ?Er, ?Esub, ?Eo; try done.
    + etrans; [apply (ev_flow _ _ _ _ Ev)|]. rewrite only_same, Hsub.
      apply sublist_app; [apply L|done].
    + eapply read_state_evolves; [exact Hrd|exact Ev|]. rewrite only_same.
      destruct Hasked as [[-> ->]|(Hn & _ & n & -> & -> & Hf)]; [by left|right]. split; [done|]. by exists n.
    + intros Hsome. destruct Hasked as [[_ Heq]|(_ & Hr & _)]; [|done]. rewrite Heq in Hsome. auto.
Qed.

(** The operations that only touch the connection. *)
Lemma inv_operate s c' extra srv y :
  sys_inv y → effect (λ m, m ∈ []) (conn s y) c' extra srv → srv = [] →
  Forall (λ x, x = Connection.SendOther Connection.ping ∨ x = Connection.SendOther Connection.pong) extra →
  sys_inv (operate send_timeout s c' y).
Proof.
  intros I E -> Hx. destruct (conn_view s y I) as (B & Ho & _).
  pose proof (si_linked _ I s) as [F R N O C]. apply inv_commit; simpl; try done.
  - eapply books_ext, (books_effect empty g s _ _ _ _ _ [] (read (peers y s)) B Ho E Hx); simpl; try done.
    by rewrite app_nil_r.
  - unfold connection. simpl. rewrite (ef_sends _ _ _ _ _ E), <- Ho. by eexists.
  - intros Hr. apply (ef_receiving _ _ _ _ _ E). rewrite conn_receiving. auto.
Qed.

Lemma effect_background c c' :
  background c c' → ∃ extra, effect (λ m, m ∈ []) c c' extra [] ∧
  Forall (λ x, x = Connection.SendOther Connection.ping ∨ x = Connection.SendOther Connection.pong) extra.
Proof.
  assert (∀ d, Connection.m_request_map d = Connection.m_request_map c → Connection.log d = Connection.log c →
            Connection.next_promise d = Connection.next_promise c → Connection.sends d = Connection.sends c →
            Connection.serving d = Connection.serving c → Connection.receiving d = Connection.receiving c →
            Connection.has_service d = Connection.has_service c → effect (λ m, m ∈ []) c d [] []) as Hsame.
  { intros d E1 E2 E3 E4 E5 E6 E7. apply effect_frame; rewrite ?app_nil_r; try done. congruence. }
  destruct 1 as [t|t fired timer' Hr c1|t Hio Ht|t Hh Ht|n Hn]; try (by exists []; split; [apply Hsame|constructor]).
  - exists []. split; [|constructor]. destruct fired as [n|]; [|by apply Hsame].
    eapply (effect_trans _ _ c1 _ [] [] [] []); [by apply Hsame|]. by apply effect_complete.
  - destruct (effect_watch (λ m, m ∈ []) (Connection.with_watcher_timer t c)) as (extra & E & Hx).
    exists extra. split; [|eapply Forall_impl; [exact Hx|by intros x <-; left]].
    eapply (effect_trans _ _ (Connection.with_watcher_timer t c) _ [] extra [] []); [by apply Hsame|done].
Qed.

(** A message that is received was sent by the other side. *)
Lemma delivered_submitted s y m : sys_inv y → m ∈ delivered s (pipe y) → m ∈ submitted (peers y (negb s)).
Proof.
  intros I Hm. eapply elem_of_sublist; [|apply (si_linked _ I (negb s))]. unfold flow. rewrite negb_involutive.
  apply elem_of_app. by left.
Qed.

Lemma inv_write_done s w1 n x w2 r y :
  sys_inv y → outgoing (peers y s) = w1 ++ (n, x) :: w2 → sys_inv (write_done send_timeout s x r (w1 ++ w2) y).
Proof.
  intros I Hw. destruct (conn_view s y I) as (B & Ho & _). pose proof (si_linked _ I s) as [F R N O C].
  pose proof (effect_complete_send (λ m, m ∈ []) x r (Connection.with_sends (w1 ++ w2).*2 (conn s y))) as E.
  unfold write_done. apply inv_commit; simpl; try done.
  - pose proof (books_sends empty g s _ _ (w1 ++ w2) B Ho) as B'.
    eapply books_ext, (books_effect empty g s (with_outgoing (w1 ++ w2) (peers y s)) _ _ _ _ [] (read (peers y s)) B'); simpl; try done.
    by rewrite app_nil_r.
  - unfold connection. simpl. rewrite (ef_sends _ _ _ _ _ E). simpl. rewrite app_nil_r. done.
  - intros Hr. apply (ef_receiving _ _ _ _ _ E). simpl. rewrite conn_receiving. auto.
Qed.

Lemma inv_read_done s n m y :
  sys_inv y → read (peers y s) = Some n → (n, PipeOpRes.success, m) ∈ read_results s (pipe y) →
  sys_inv (read_done send_timeout s m y).
Proof.
  intros I Hr Hin. destruct (conn_view s y I) as (B & Ho & _). pose proof (si_linked _ I s) as [F R N O C].
  destruct (effect_receive (λ m', m' ∈ [m]) m (conn s y)) as (extra & E & Hx); [by constructor|].
  assert (Forall wire [m]) as Hm.
  { constructor; [|done]. pose proof (b_wire _ _ _ _ (si_books _ I (negb s))) as [[Hsub _]%Forall_app _]%Forall_app.
    rewrite Forall_forall in Hsub. apply Hsub. apply delivered_submitted; [done|]. unfold delivered.
    apply list_elem_of_omap. eexists. split; [exact Hin|done]. }
  unfold read_done. apply inv_commit; simpl; try done.
  - eapply books_ext, (books_effect empty g s _ _ _ _ _ [m] None B Ho E); try done.
    + eapply Forall_impl; [exact Hx|by intros x <-; right].
    + unfold is_req. rewrite filter_cons. case_bool_decide as Ht; rewrite ?andb_true_r, ?andb_false_r.
      * rewrite decide_True by done. destruct (Connection.has_service _); [done|apply submseteq_nil_l].
      * apply submseteq_nil_l.
  - unfold connection. pose proof (ef_sends _ _ _ _ _ E) as Es. simpl in *. rewrite Es, <- Ho. by eexists.
  - rewrite Hr in R. apply (read_state_done s n PipeOpRes.success m _ _ R Hin).
Qed.

Lemma inv_read_failed s n r m y :
  sys_inv y → read (peers y s) = Some n → (n, r, m) ∈ read_results s (pipe y) →
  r = PipeOpRes.canceled ∨ r = PipeOpRes.failed → sys_inv (read_failed send_timeout s r y).
Proof.
  intros I Hr Hin Hc. destruct (conn_view s y I) as (B & Ho & _). pose proof (si_linked _ I s) as [F R N O C].
  pose proof (effect_receive_end (λ m', m' ∈ []) r (Connection.with_receiving false (conn s y))) as E.
  unfold read_failed. apply inv_commit; simpl; try done.
  - assert (books s (with_connection (Connection.with_receiving false (conn s y)) (peers y s))) as B'.
    { destruct B as [H1' H2' H3 H4 H5 H6 H7 H8 H9 H10]. split; try done. eapply Forall_impl; [exact H2'|]. intros k []. by split. }
    eapply books_ext, (books_effect empty g s _ _ _ _ _ [] None B' Ho E); done.
  - unfold connection. simpl. by rewrite <- Ho.
  - rewrite Hr in R. pose proof (read_state_done s n r m _ _ R Hin) as Hd. by destruct Hc as [-> | ->].
Qed.

Lemma inv_service_done s s1 m s2 res y :
  sys_inv y → Connection.serving (conn s y) = s1 ++ m :: s2 → answers empty g s m res →
  sys_inv (service_done send_timeout s m res (s1 ++ s2) y).
Proof.
  intros I Hs Ha. destruct (conn_view s y I) as (B & Ho & _). pose proof (si_linked _ I s) as [F R N O C].
  unfold service_done. apply inv_commit; simpl; try done.
  - by eapply books_service.
  - unfold connection. simpl. rewrite <- Ho. by eexists.
  - intros Hr. rewrite <- C, <- (conn_receiving s y) by done. done.
Qed.

Lemma make_call_frame idx request pl c q :
  let q' := make_call idx request pl c q in
  outgoing q' = outgoing q ∧ read q' = read q ∧ submitted q' = submitted q ∧ received q' = received q ∧
  served q' = served q ∧ Connection.receiving (connection q') = Connection.receiving c ∧
  Connection.sends c `prefix_of` Connection.sends (connection q').
Proof.
  unfold make_call, Endpoint.make_request, connection. simpl. case_decide; simpl; [by split_and!|].
  unfold Connection.request_async. case_match; simpl; split_and!; try done. by eexists.
Qed.

Lemma inv_call s idx request pl y :
  sys_inv y → serialize request = Some pl → Endpoint.m_next_req_id (endpoint (peers y s)) < 2 ^ 64 - 1 →
  sys_inv (call_method send_timeout s idx request pl y).
Proof.
  intros I Hs Hn. destruct (conn_view s y I) as (B & Ho & _). pose proof (si_linked _ I s) as [F R N O C].
  destruct (make_call_frame idx request pl (conn s y) (peers y s)) as (E1 & E2 & E3 & E4 & E5 & E6 & E7).
  unfold call_method. apply inv_commit; rewrite ?E1, ?E2, ?E4; try done.
  - by apply books_call.
  - by rewrite Ho.
  - rewrite E6, conn_receiving. done.
Qed.

Lemma sys_inv_step y y' : sys_inv y → step y y' → sys_inv y'.
Proof.
  intros I. destruct 1 as [s|s|s idx request pl Hs Hn Ht|s w1 n x w2 r Hw Hr|s n m Hr Hin|s n r m Hr Hin Hc
    |s s1 m s2 res Hs Ha|s c Hb|p Hp].
  - by eapply inv_operate; [done|apply effect_start|..].
  - eapply (inv_operate s _ [] []); try done. by apply effect_frame; simpl; rewrite ?app_nil_r.
  - by apply inv_call.
  - by eapply inv_write_done.
  - by eapply inv_read_done.
  - by eapply inv_read_failed.
  - by apply inv_service_done.
  - destruct (effect_background _ _ Hb) as (extra & E & Hx). by eapply inv_operate.
  - destruct I as [Hp0 B L]. destruct (law_internal _ _ Hp0 Hp) as [Hp' E]. split; [done|done|].
    intros s. by eapply linked_evolves.
Qed.

Lemma sys_inv_create : sys_inv (create ping_timeout).
Proof.
  split; simpl; [apply law_create|intros s; apply books_create|]. intros s. destruct (law_start s) as (Hc & Hr & Hf).
  split; simpl; try done; [by rewrite Hf|]. split; [rewrite Hr; constructor|]. exists []. split_and!; [apply prefix_nil|done|by rewrite Hr].
Qed.

Lemma sys_reachable_inv y : rtc step (create ping_timeout) y → sys_inv y.
Proof. apply rtc_invariant; eauto using sys_inv_create, sys_inv_step. Qed.
End invariant.
