(* ===== verification/RpcEndToEnd.v ===== *)
(** * Remote calls end to end

    Each side of the system runs its connection; what the two sides together
    promise their callers; and a run over the in-memory pipe. *)
From S2P Require Import Prelude Memory Buffer BufferView RpcTypes BigEndian TransferMessage TransferMessageFacts Timer.
From S2P Require Import Connection ConnectionFacts ConnectionEffects Service ServiceFacts Endpoint Pipe RpcSystem RpcSystemLemmas RpcSystemFacts.
Import Memory TransferMessage RpcSystem.
Local Open Scope Z_scope.

(** ** Lists *)
Lemma NoDup_app_cons_not_elem {A} (l1 l2 : list A) x : NoDup (l1 ++ x :: l2) → x ∉ l1 ++ l2.
Proof. rewrite <- Permutation_middle. by intros [? _]%NoDup_cons. Qed.

Lemma submseteq_fmap_inv {A B} (f : A → B) (l : list B) (k : list A) :
  l ⊆+ f <$> k → ∃ k', l ≡ₚ f <$> k' ∧ k' ⊆+ k.
Proof.
  intros (r & Hp)%submseteq_Permutation. symmetry in Hp. apply Permutation_map_inv in Hp as (k2 & Hk & Hp).
  symmetry in Hk. apply fmap_app_inv in Hk as (k1 & kr & Hl & _ & ->). exists k1. rewrite Hl. split; [done|].
  rewrite Hp. by apply submseteq_inserts_r.
Qed.

Section facts.
Context {P Msg : Type} `{PipeLaws P} `{Proto Msg, !ProtoLaws Msg}.
Context (empty : Msg) (g : bool → option (gservice Msg)) (send_timeout ping_timeout : Z).
Hypothesis So : services_ok empty g.
Implicit Types (p : P) (q : peer Msg) (y : system P Msg) (c : Connection.impl).
#[local] Existing Instance is_req_dec.
Abbreviation step := (step empty g send_timeout).
Abbreviation sys_inv := (sys_inv empty g).

(** ** Frames of calls *)
Lemma frame_number_req q k :
  call_ok q k → Endpoint.m_next_req_id (endpoint q) < 2 ^ 64 → Connection.read_number_req (frame k) = Some (k_number k).
Proof.
  intros [_ Hl Hn _] Hm. unfold Consts.MaxRequestProtoSize in Hl. unfold Connection.read_number_req, frame.
  rewrite req_frame_valid by lia. f_equal. apply (frame_number 0 (k_payload k) (k_number k) (be_encode 4 (u32 (k_method k)))); lia.
Qed.

Lemma books_numbers s q k : books empty g s q → k ∈ calls q → Connection.read_number_req (frame k) = Some (k_number k).
Proof.
  intros B Hk. pose proof (b_calls _ _ _ _ B) as Hc. rewrite Forall_forall in Hc. pose proof (b_next _ _ _ _ B).
  by eapply frame_number_req; [apply Hc|lia].
Qed.

(** Calls with the same number are the same. *)
Lemma books_same_number s q k k' : books empty g s q → k ∈ calls q → k' ∈ calls q → k_number k = k_number k' → k = k'.
Proof.
  intros B Hk Hk' Hn. pose proof (b_numbers _ _ _ _ B) as Hnd. apply list_elem_of_lookup in Hk as [i Hi], Hk' as [j Hj].
  assert (i = j) as ->; [|congruence]. eapply NoDup_lookup; [exact Hnd|..]; rewrite list_lookup_fmap, ?Hi, ?Hj; simpl; by rewrite ?Hn.
Qed.

Lemma NoDup_frames s q : books empty g s q → NoDup (frame <$> calls q).
Proof.
  intros B. apply NoDup_fmap_2_strong; [|by eapply NoDup_fmap_1, (b_numbers _ _ _ _ B)].
  intros k k' Hk Hk' Heq. apply (books_same_number s q); try done.
  pose proof (books_numbers s q k B Hk). pose proof (books_numbers s q k' B Hk'). congruence.
Qed.

(** What one side serves are calls of the other. *)
Lemma served_calls y s :
  sys_inv y →
  served (peers y (negb s)) ++ Connection.serving (connection (peers y (negb s))) ⊆+ frame <$> calls (peers y s).
Proof.
  intros I. etrans; [apply (si_books _ _ _ I (negb s))|]. apply sublist_submseteq.
  etrans; [|apply (b_requests _ _ _ _ (si_books _ _ _ I s))]. apply filter_sublist.
  pose proof (read_state_delivered _ _ _ _ (k_read _ _ _ (si_linked _ _ _ I (negb s)))) as Hp.
  destruct Hp as [l Hl]. etrans; [eapply sublist_inserts_r; reflexivity|]. erewrite <- Hl. unfold sent. apply sublist_inserts_r.
  etrans; [|apply (si_linked _ _ _ I s)]. unfold flow. by apply sublist_inserts_r.
Qed.

Lemma response_type m n : Connection.read_number_res m = Some n → Connection.read_type m = Some MsgType.res.
Proof.
  unfold Connection.read_number_res. destruct (res_valid m) eqn:Hv; [|done]. intros _.
  unfold res_valid, frame_valid in Hv. rewrite !andb_true_iff, !bool_decide_eq_true in Hv. tauto.
Qed.

(** The response to a call has its number. *)
Lemma answer_number s q k m :
  books empty g s q → k ∈ calls q → answers empty g (negb s) (frame k) m → Connection.read_number_res m = Some (k_number k).
Proof.
  intros B Hk Ha. pose proof (b_calls _ _ _ _ B) as Hc. rewrite Forall_forall in Hc. destruct (Hc k Hk) as [K1 K2 K3 _].
  pose proof (b_next _ _ _ _ B).
  destruct (answers_request empty g (negb s) (k_number k) (u32 (k_method k)) (k_request k) (k_payload k) m)
    as (rc & rpl & -> & _ & _ & Hl & _); try done; [apply wrap_range; lia|lia|].
  unfold Connection.read_number_res. rewrite res_frame_valid by lia. f_equal.
  apply (frame_number 1 rpl (k_number k) [ResponseResult.to_byte rc]); lia.
Qed.

(** A response that was received answers a call. *)
Lemma response_call y s m n :
  sys_inv y → m ∈ received (peers y s) → Connection.read_number_res m = Some n →
  ∃ k, k ∈ calls (peers y s) ∧ k_number k = n ∧
       frame k ∈ served (peers y (negb s)) ∧ answers empty g (negb s) (frame k) m.
Proof.
  intros I Hm Hn. pose proof (si_books _ _ _ I s) as B. pose proof (si_books _ _ _ I (negb s)) as B'.
  assert (m ∈ delivered s (pipe y)) as Hd.
  { destruct (read_state_delivered _ _ _ _ (k_read _ _ _ (si_linked _ _ _ I s))) as [l ->]. apply elem_of_app. by left. }
  apply (delivered_submitted empty g) in Hd; [|done].
  destruct (b_responses _ _ _ _ B' m) as (x & Hx & Ha); [unfold sent; apply elem_of_app; by left|by eapply response_type|].
  assert (x ∈ frame <$> calls (peers y s)) as (k & -> & Hk)%list_elem_of_fmap.
  { eapply elem_of_submseteq; [|by apply served_calls]. apply elem_of_app. by left. }
  exists k. split_and!; try done. rewrite (answer_number s _ k m B Hk Ha) in Hn. congruence.
Qed.

(** ** The connections of the system *)
Lemma commit_connection s q y s' :
  connection (peers (commit send_timeout s q y) s') = if decide (s' = s) then connection q else connection (peers y s').
Proof.
  unfold commit. destruct (write_all _ _ _ _) as [ns p1]. destruct (if _ && _ then _ else _) as [r p2].
  simpl. by case_decide.
Qed.

Lemma background_step c c' : background c c' → Connection.step c c'.
Proof. destruct 1; by econstructor. Qed.

(** A step of the system is a sequence of steps of each connection. *)
Lemma system_projects y y' s :
  sys_inv y → step y y' → rtc Connection.step (connection (peers y s)) (connection (peers y' s)).
Proof.
  intros I. assert (∀ s0 q, rtc Connection.step (conn s0 y) (connection q) →
    rtc Connection.step (connection (peers y s)) (connection (peers (commit send_timeout s0 q y) s))) as Hc.
  { intros s0 q Hq. rewrite commit_connection. case_decide as Hs; [subst s0|done].
    etrans; [|exact Hq]. by apply (conn_view empty g). }
  destruct 1 as [s0|s0|s0 idx request pl Hs Hn Ht|s0 w1 n x w2 r Hw Hr|s0 n m Hr Hin|s0 n r m Hr Hin Hf
    |s0 s1 m s2 res Hs Ha|s0 c Hb|p Hp]; try apply Hc.
  - apply rtc_once, Connection.step_start.
  - apply rtc_once, Connection.step_deactivate.
  - destruct (conn_view empty g s0 y I) as (B & Ho & _). unfold make_call, Endpoint.make_request, connection. simpl.
    case_decide as Hl; simpl; [done|]. apply rtc_once, Connection.step_request; [by apply (books_fresh_number empty g s0)| |done].
    unfold Consts.MaxRequestProtoSize in Hl. pose proof (b_next _ _ _ _ B) as Hb. simpl in Hb.
    unfold Connection.read_number_req. rewrite req_frame_valid by lia. f_equal.
    apply (frame_number 0 pl _ (be_encode 4 (u32 idx))); lia.
  - destruct (conn_view empty g s0 y I) as (_ & Ho & _). apply rtc_once. unfold connection. simpl. rewrite fmap_app.
    eapply Connection.step_send. rewrite <- Ho, Hw, fmap_app. done.
  - apply rtc_once, Connection.step_receive. rewrite conn_receiving. apply (k_receiving _ _ _ (si_linked _ _ _ I s0)). by rewrite Hr.
  - apply rtc_once, Connection.step_receive_fail; [|done]. rewrite conn_receiving. apply (k_receiving _ _ _ (si_linked _ _ _ I s0)). by rewrite Hr.
  - by eapply rtc_once, Connection.step_service.
  - by apply rtc_once, background_step.
  - done.
Qed.

Lemma system_connection y s :
  rtc step (create ping_timeout) y → rtc Connection.step (Connection.create true ping_timeout) (connection (peers y s)).
Proof.
  assert (∀ y0, sys_inv y0 → rtc step y0 y → rtc Connection.step (connection (peers y0 s)) (connection (peers y s))) as Hgen.
  { intros y0 I0 Hr. induction Hr as [|y1 y2 y3 H12 _ IH]; [done|].
    etrans; [by apply system_projects|]. by apply IH, (sys_inv_step empty g send_timeout So y1). }
  intros Hr. by apply (Hgen _ (sys_inv_create empty g ping_timeout)).
Qed.

(** The answer to a call is decoded to what the method computes. *)
Lemma answer_decoded s q k m h b ctl :
  books empty g s q → k ∈ calls q → answers empty g (negb s) (frame k) m → CBufferView.views h (CBufferView.of_buffer b) m →
  ∃ ctl', on_response empty (k_number k) RequestResult.ok b ctl h = Ok ctl' h ∧
          (m_request_result ctl', m_response ctl') = call_spec empty (g (negb s)) (u32 (k_method k)) (k_request k).
Proof.
  intros B Hk Ha Hv. pose proof (b_calls _ _ _ _ B) as Hc. rewrite Forall_forall in Hc. destruct (Hc k Hk) as [K1 K2 K3 _].
  pose proof (b_next _ _ _ _ B).
  destruct (answers_request empty g (negb s) (k_number k) (u32 (k_method k)) (k_request k) (k_payload k) m)
    as (rc & rpl & -> & Hrc & Hby & Hl & Hspec); try done; [apply wrap_range; lia|lia|].
  rewrite (on_response_run empty h b (k_number k) rc rpl (k_number k) ctl) by (done || lia).
  eexists. split; [done|]. rewrite decide_False by (intros Hne; by apply Hne). rewrite <- Hspec.
  destruct (ResponseResult.is_fail rc); [done|]. by destruct (parse rpl).
Qed.
End facts.

(** ** Properties *)
Section properties.
Context {P Msg : Type} `{PipeLaws P} `{Proto Msg, !ProtoLaws Msg}.

(** C1: over any pipe and under any interleaving, when the promise of a request
    is completed with [ok] then the service of the peer ran this request,
    exactly once, the message is its answer, and the channel decodes from it
    what the call must return. *)
Theorem rpc_ok_executed (empty : Msg) g send_timeout ping_timeout (y : system P Msg) s x :
  services_ok empty g → rtc (step empty g send_timeout) (create ping_timeout) y →
  x ∈ Connection.log (connection (peers y s)) → Connection.c_result x = RequestResult.ok →
  ∃ k, k ∈ calls (peers y s) ∧ k_promise k = Connection.c_promise x ∧
    (∃ l1 l2, served (peers y (negb s)) = l1 ++ frame k :: l2 ∧ frame k ∉ l1 ++ l2) ∧
    answers empty g (negb s) (frame k) (Connection.c_response x) ∧
    ∀ h b ctl, CBufferView.views h (CBufferView.of_buffer b) (Connection.c_response x) →
      ∃ ctl', on_response empty (k_number k) RequestResult.ok b ctl h = Ok ctl' h ∧
        (m_request_result ctl', m_response ctl') = call_spec empty (g (negb s)) (u32 (k_method k)) (k_request k).
Proof.
  intros So Hr Hx Hok. pose proof (sys_reachable_inv empty g send_timeout ping_timeout So y Hr) as I.
  pose proof (si_books _ _ _ I s) as B. destruct (b_log _ _ _ _ B x Hx Hok) as (k & Hk & Hp & Hm & Hn).
  destruct (response_call empty g So y s _ _ I Hm Hn) as (k' & Hk' & Heq & Hs & Ha).
  assert (k' = k) as -> by (by eapply books_same_number). exists k. split_and!; try done.
  - apply list_elem_of_split in Hs as (l1 & l2 & Hs). exists l1, l2. split; [done|].
    assert (NoDup (served (peers y (negb s)))) as Hnd.
    { eapply submseteq_NoDup; [|by eapply (NoDup_frames empty g s)].
      etrans; [|by apply (served_calls empty g y s I)]. by apply submseteq_inserts_r. }
    rewrite Hs in Hnd. by apply NoDup_app_cons_not_elem in Hnd.
  - intros h b ctl Hv. by eapply (answer_decoded empty g So s (peers y s)).
Qed.

(** C2: a request is served at most once, and only if it was made: what the
    service of a side has answered or works on are different calls of its peer,
    and the promise of every call is completed at most once. *)
Theorem rpc_at_most_once (empty : Msg) g send_timeout ping_timeout (y : system P Msg) s :
  services_ok empty g → rtc (step empty g send_timeout) (create ping_timeout) y →
  (∃ ks, served (peers y (negb s)) ++ Connection.serving (connection (peers y (negb s))) ≡ₚ frame <$> ks ∧
         ks ⊆+ calls (peers y s)) ∧
  NoDup (served (peers y (negb s)) ++ Connection.serving (connection (peers y (negb s)))) ∧
  NoDup (k_promise <$> calls (peers y s)) ∧
  ∀ k, k ∈ calls (peers y s) →
    (occ (k_promise k) (Connection.c_promise <$> Connection.log (connection (peers y s)))
     + pend (k_promise k) (Connection.m_request_map (connection (peers y s))) = 1)%nat.
Proof.
  intros So Hr. pose proof (sys_reachable_inv empty g send_timeout ping_timeout So y Hr) as I.
  pose proof (si_books _ _ _ I s) as B. pose proof (served_calls empty g y s I) as Hs. split_and!.
  - apply submseteq_fmap_inv. exact Hs.
  - eapply submseteq_NoDup, (NoDup_frames empty g s); done.
  - apply B.
  - intros k Hk. pose proof (b_calls _ _ _ _ B) as Hc. rewrite Forall_forall in Hc. destruct (Hc k Hk) as [_ _ _ K].
    pose proof (inv_once _ (conn_reachable_inv true ping_timeout _
      (system_connection empty g send_timeout ping_timeout So y s Hr)) (k_promise k)) as Ho.
    rewrite decide_True in Ho by done. done.
Qed.
End properties.
