(* ===== verification/RpcQuiescence.v ===== *)
(** * No call is left behind

    Over a pipe that loses nothing, a system with nothing left to do has
    completed every call: the request reached the peer, the peer answered, and
    the answer came back. *)
From S2P Require Import Prelude Memory Buffer BufferView RpcTypes BigEndian TransferMessage TransferMessageFacts Timer.
From S2P Require Import Connection ConnectionFacts ConnectionEffects Service ServiceFacts Endpoint Pipe RpcSystem RpcSystemLemmas RpcSystemFacts.
From S2P Require Import RpcEndToEnd.
Import Memory TransferMessage RpcSystem.
Local Open Scope Z_scope.

(** ** The ledger of one side

    Where the books say that nothing is made up, the ledger says that nothing is
    lost: open requests were sent, requests received are served or being served,
    what was served was answered, and a response closes its request. *)
Section ledger.
Context {Msg : Type} `{Proto Msg, !ProtoLaws Msg}.
Context (empty : Msg) (g : bool → option (gservice Msg)).
Implicit Types (q : peer Msg) (c : Connection.impl).
#[local] Existing Instance is_req_dec.

Record ledger (s : bool) q : Prop := Ledger {
  l_sent n d : Connection.m_request_map (connection q) !! n = Some d →
    ∃ k, k ∈ calls q ∧ k_number k = n ∧ frame k ∈ sent q;
  l_service : Connection.has_service (connection q) = true;
  l_served m : m ∈ received q → is_req m → m ∈ served q ++ Connection.serving (connection q);
  l_answered x : x ∈ served q → ∃ m, m ∈ sent q ∧ answers empty g s x m;
  l_closed n m : m ∈ received q → Connection.read_number_res m = Some n →
    Connection.m_request_map (connection q) !! n = None
}.

Lemma ledger_create ping s : ledger s (create_peer ping).
Proof. split; simpl; try done; intros x; try (intros m; by rewrite elem_of_nil); by rewrite elem_of_nil. Qed.

Lemma ledger_ext s q q' :
  endpoint q' = endpoint q → calls q' = calls q → served q' = served q → received q' = received q →
  sent q' = sent q → ledger s q → ledger s q'.
Proof.
  intros E1 E2 E3 E4 E5 [H1 H2 H3 H4 H5]. split; unfold connection; rewrite ?E1, ?E2, ?E3, ?E4, ?E5; done.
Qed.

Lemma ledger_effect s q c c' extra srv new r M :
  ledger s (with_connection c q) → (outgoing q).*2 = Connection.sends c → effect M c c' extra srv →
  (∀ m, m ∈ new → is_req m → m ∈ srv) →
  (∀ n m, m ∈ new → Connection.read_number_res m = Some n → Connection.m_request_map c' !! n = None) →
  ledger s (with_connection c' (with_read r new q)).
Proof.
  intros [H1 H2 H3 H4 H5] Hout [Em _ Ep Es Ev Er Eh] Hsrv Hnew.
  assert (sent (with_connection c' (with_read r new q)) = sent (with_connection c q) ++ (data <$> extra)) as Hsent.
  { unfold sent, fresh, connection. simpl. rewrite Es, <- Hout, <- (length_fmap snd (outgoing q)), drop_app_length, drop_all.
    by rewrite app_nil_r. }
  assert (∀ n, Connection.m_request_map c !! n = None → Connection.m_request_map c' !! n = None) as Hmap.
  { intros n Hn. destruct (Connection.m_request_map c' !! n) as [d|] eqn:Hd; [|done].
    destruct (Em n d Hd) as (d0 & Hd0 & _). congruence. }
  split; rewrite ?Hsent; unfold connection in *; simpl in *.
  - intros n d' Hd. destruct (Em n d' Hd) as (d & Hd0 & _). destruct (H1 n d Hd0) as (k & Hk & Hn & Hin).
    exists k. split_and!; [done..|]. apply elem_of_app. by left.
  - congruence.
  - intros m [Hm|Hm]%elem_of_app Hreq; rewrite Ev, app_assoc; apply elem_of_app; [left|right]; auto.
  - intros x Hx. destruct (H4 x Hx) as (m & Hm & Ha). exists m. split; [|done]. apply elem_of_app. by left.
  - intros n m [Hm|Hm]%elem_of_app Hn; [|by eapply Hnew]. apply Hmap. by eapply H5.
Qed.

(** Nothing is received. *)
Lemma ledger_quiet s q c c' extra srv r :
  ledger s (with_connection c q) → (outgoing q).*2 = Connection.sends c → effect (λ m, m ∈ []) c c' extra srv →
  ledger s (with_connection c' (with_read r [] q)) ∧ ledger s (with_connection c' q).
Proof.
  intros L Ho E. assert (ledger s (with_connection c' (with_read r [] q))) as L'.
  { eapply (ledger_effect s q c c' extra srv [] r _ L Ho E); [intros m Hm|intros n m Hm]; by apply elem_of_nil in Hm. }
  split; [done|]. eapply ledger_ext, L'; simpl; try done. by rewrite app_nil_r.
Qed.

Lemma ledger_sends s q c ws :
  ledger s (with_connection c q) → (outgoing q).*2 = Connection.sends c →
  ledger s (with_connection (Connection.with_sends ws.*2 c) (with_outgoing ws q)).
Proof.
  intros [H1 H2 H3 H4 H5] Hout. rewrite (sent_submitted q c Hout) in *.
  assert (sent (with_connection (Connection.with_sends ws.*2 c) (with_outgoing ws q)) = submitted q) as Hs.
  { by apply (sent_submitted (with_outgoing ws q)). }
  split; rewrite ?Hs; done.
Qed.

Lemma ledger_service s q c s1 m s2 res :
  ledger s (with_connection c q) → (outgoing q).*2 = Connection.sends c →
  Connection.serving c = s1 ++ m :: s2 → answers empty g s m res →
  ledger s (with_connection (Connection.service_done res (Connection.with_serving (s1 ++ s2) c)) (with_served m q)).
Proof.
  intros [H1 H2 H3 H4 H5] Hout Hsv Ha. rewrite (sent_submitted q c Hout) in *.
  unfold connection in *. simpl in *.
  set (q' := with_connection _ _). assert (sent q' = submitted q ++ [res]) as Hs.
  { unfold sent, fresh, connection. simpl. rewrite <- Hout, <- (length_fmap snd (outgoing q)), drop_app_length. done. }
  split; rewrite ?Hs; unfold connection; simpl; try done.
  - intros n d Hd. destruct (H1 n d Hd) as (k & Hk & Hn & Hin). exists k. split_and!; [done..|]. apply elem_of_app. by left.
  - intros x Hx Hreq. specialize (H3 x Hx Hreq). rewrite Hsv in H3.
    rewrite !elem_of_app, !elem_of_cons in *. rewrite elem_of_nil. tauto.
  - intros x [Hx|Hx]%elem_of_app.
    + destruct (H4 x Hx) as (m' & Hm & Hax). exists m'. split; [apply elem_of_app; by left|done].
    + apply list_elem_of_singleton in Hx as ->. exists res. split; [apply elem_of_app; right; by constructor|done].
Qed.

Lemma ledger_call s q c idx request pl :
  ledger s (with_connection c q) → (outgoing q).*2 = Connection.sends c →
  (∀ m, m ∈ received q → Connection.read_number_res m ≠ Some (Endpoint.m_next_req_id (endpoint q))) →
  ledger s (make_call idx request pl c q).
Proof.
  intros L Hout Hfresh. pose proof L as [H1 H2 H3 H4 H5]. unfold make_call, Endpoint.make_request.
  simpl in *. case_decide as Hl; simpl.
  { apply (ledger_ext _ (with_connection c q)); try done. simpl. by rewrite app_nil_r. }
  set (num := Endpoint.m_next_req_id (endpoint q)) in *. set (fr := req_frame num (u32 idx) pl).
  set (k := Call _ num idx request pl). rewrite (sent_submitted q c Hout) in *. unfold connection in *. simpl in *.
  set (q' := Peer _ _ _ _ _ _ _).
  assert (∃ extra, sent q' = submitted q ++ extra ∧
    ∀ n d, Connection.m_request_map (connection q') !! n = Some d →
      (∃ d, Connection.m_request_map c !! n = Some d) ∨ n = num ∧ extra = [fr]) as (extra & Hsent & Hmap).
  { unfold sent, fresh, connection, q'. simpl. unfold Connection.request_async. case_match; simpl.
    - exists []. rewrite <- Hout, drop_ge by (by rewrite length_fmap). eauto.
    - exists [fr]. rewrite <- Hout, <- (length_fmap snd (outgoing q)), drop_app_length. split; [done|].
      intros n d [[<- _]|[_ Hn]]%lookup_insert_Some; eauto. }
  assert (Connection.serving (connection q') = Connection.serving c ∧
          Connection.has_service (connection q') = Connection.has_service c) as [Ev Eh].
  { unfold connection, q'. simpl. unfold Connection.request_async. by case_match. }
  split; rewrite ?Hsent; unfold connection in *; simpl in *; rewrite ?Ev, ?Eh; try done.
  - intros n d Hd. destruct (Hmap n d Hd) as [[d0 Hd0]|[-> ->]].
    + destruct (H1 n d0 Hd0) as (k' & Hk & Hn & Hin). exists k'. split_and!; [apply elem_of_app; by left|done|apply elem_of_app; by left].
    + exists k. split_and!; [apply elem_of_app; right; by constructor|done|apply elem_of_app; right; by constructor].
  - intros x Hx. destruct (H4 x Hx) as (m & Hm & Ha). exists m. split; [apply elem_of_app; by left|done].
  - intros n m Hm Hn. destruct (Connection.m_request_map _ !! n) as [d|] eqn:Hd; [|done]. exfalso.
    destruct (Hmap n d Hd) as [[d0 Hd0]|[-> _]]; [rewrite (H5 n m Hm Hn) in Hd0; done|by apply (Hfresh m)].
Qed.
End ledger.

(** ** The system over a pipe that loses nothing *)
Section lossless.
Context {P Msg : Type} `{LosslessPipe P} `{Proto Msg, !ProtoLaws Msg}.
Context (empty : Msg) (g : bool → option (gservice Msg)) (send_timeout ping_timeout : Z).
Hypothesis So : services_ok empty g.
Implicit Types (p : P) (q : peer Msg) (y : system P Msg) (c : Connection.impl).
#[local] Existing Instance is_req_dec.
Abbreviation step := (step empty g send_timeout).
Abbreviation ledger := (ledger empty g).

Lemma keeps_trans p1 p2 p3 w1 w2 : keeps p1 p2 w1 → keeps p2 p3 w2 → keeps p1 p3 (λ s, w1 s ++ w2 s).
Proof.
  intros K1 K2 U3. destruct (K2 U3) as [U2 E2]. destruct (K1 U2) as [U1 E1]. split; [done|].
  intros s. by rewrite E2, E1, app_assoc.
Qed.

Lemma keeps_ext p1 p2 w w' : keeps p1 p2 w → (∀ s, w s = w' s) → keeps p1 p2 w'.
Proof. intros K Hw U. destruct (K U) as [U' E]. split; [done|]. intros s. by rewrite <- Hw. Qed.

Lemma keeps_refl p : keeps p p nothing.
Proof. intros U. split; [done|]. intros s. symmetry. apply app_nil_r. Qed.

Lemma write_all_keeps s xs p :
  pipe_inv p → Forall (λ x, message_ok (data x)) xs → keeps p (write_all send_timeout s xs p).2 (only s (data <$> xs)).
Proof.
  revert p. induction xs as [|x xs IH]; intros p Hp Hok; simpl.
  - eapply keeps_ext; [apply keeps_refl|]. intros s'. by rewrite only_nil.
  - apply Forall_cons in Hok as [Hx Hok]. destruct (law_write s (data x) (Some send_timeout) p Hp Hx) as [Hp1 _].
    pose proof (keeps_write s (data x) (Some send_timeout) p Hp Hx) as K1. specialize (IH _ Hp1 Hok).
    destruct (write_all _ _ _ _) as [ns p']. simpl in *. eapply keeps_ext; [by eapply keeps_trans|].
    intros s'. unfold only. by case_decide.
Qed.

Lemma commit_keeps s q y :
  pipe_inv (pipe y) → Forall (λ x, message_ok (data x)) (fresh q) →
  keeps (pipe y) (pipe (commit send_timeout s q y)) (only s (data <$> fresh q)).
Proof.
  intros Hp Hok. unfold commit. pose proof (write_all_spec send_timeout s (fresh q) (pipe y) Hp Hok) as Hw.
  pose proof (write_all_keeps s (fresh q) (pipe y) Hp Hok) as K1.
  destruct (write_all send_timeout s (fresh q) (pipe y)) as [ns p1]. destruct Hw as (Hp1 & _ & _).
  set (rp := if _ && _ then _ else _). assert (pipe_inv rp.2 ∧ keeps p1 rp.2 nothing) as [Hp2 K2].
  { unfold rp. destruct (_ && _); simpl.
    - split; [by apply law_read|by apply keeps_read].
    - split; [done|apply keeps_refl]. }
  destruct rp as [r p2]. simpl in *. set (p3 := if _ && _ then _ else _).
  assert (keeps p2 p3 nothing) as K3.
  { unfold p3. destruct (_ && _); [by apply keeps_invalidate|apply keeps_refl]. }
  eapply keeps_ext; [eapply keeps_trans; [exact K1|eapply keeps_trans; [exact K2|exact K3]]|].
  intros s'. unfold nothing. simpl. by rewrite app_nil_r.
Qed.

Record lossless_inv y : Prop := LosslessInv {
  li_inv : sys_inv empty g y;
  li_ledger s : ledger s (peers y s);
  li_flow s : undisturbed (pipe y) → flow s (pipe y) = submitted (peers y s)
}.

Lemma commit_submitted s q y : submitted (peers (commit send_timeout s q y) s) = submitted q ++ (data <$> fresh q).
Proof.
  unfold commit. destruct (write_all _ _ _ _) as [ns p1]. destruct (if _ && _ then _ else _) as [r p2].
  simpl. by rewrite decide_True.
Qed.

Lemma lossless_commit s q y :
  lossless_inv y → sys_inv empty g (commit send_timeout s q y) → ledger s q → submitted q = submitted (peers y s) →
  lossless_inv (commit send_timeout s q y).
Proof.
  intros [I L F] I' Lq Hsub. pose proof (si_pipe _ _ _ I) as Hp.
  assert (Forall (λ x, message_ok (data x)) (fresh q)) as Hok.
  { pose proof (b_wire _ _ _ _ (si_books _ _ _ I' s)) as [[Hw _]%Forall_app _]%Forall_app.
    rewrite commit_submitted in Hw. apply Forall_app in Hw as [_ Hw]. apply (Forall_fmap data) in Hw.
    eapply Forall_impl; [exact Hw|]. intros x [_ Hx]. unfold message_ok. lia. }
  pose proof (commit_keeps s q y Hp Hok) as K. pose proof (k_sends _ _ _ (si_linked _ _ _ I' s)) as Hsends.
  destruct (commit_spec send_timeout s q y Hp Hok) as [Hp' Ho Ee Eo Ec Es Esub Er _ _].
  split; [done|..]; intros s'; (destruct (decide (s' = s)) as [->|Hs]; [|rewrite Ho by done]).
  - eapply ledger_ext, Lq; try done. unfold sent at 1. unfold fresh.
    rewrite <- Hsends, drop_ge by (by rewrite length_fmap). by rewrite app_nil_r, Esub.
  - apply L.
  - intros U. destruct (K U) as [U0 ->]. rewrite F, only_same, Esub, Hsub by done. done.
  - intros U. destruct (K U) as [U0 ->]. rewrite F, only_other, app_nil_r by done. done.
Qed.

Lemma ledger_view s y : lossless_inv y → ledger s (with_connection (conn s y) (peers y s)).
Proof.
  intros [I L _]. specialize (L s). unfold conn. destruct (is_connected s (pipe y)); [by rewrite with_connection_id|].
  destruct L as [H1' H2' H3 H4 H5]. by split.
Qed.

Lemma ledger_operation s c' extra srv y :
  lossless_inv y → effect (λ m, m ∈ []) (conn s y) c' extra srv → ledger s (with_connection c' (peers y s)).
Proof.
  intros LI E. destruct (conn_view empty g s y (li_inv _ LI)) as (_ & Ho & _).
  by apply (ledger_quiet empty g s _ _ _ _ _ None (ledger_view s y LI) Ho E).
Qed.

Lemma lossless_step y y' : lossless_inv y → step y y' → lossless_inv y'.
Proof.
  intros LI Hst. pose proof LI as [I L F]. pose proof (sys_inv_step empty g send_timeout So y y' I Hst) as I'.
  destruct Hst as [s|s|s idx request pl Hs Hn Ht|s w1 n x w2 r Hw Hr|s n m Hr Hin|s n r m Hr Hin Hc
    |s s1 m s2 res Hs Ha|s c Hb|p Hp];
    try (apply lossless_commit; [done|done| |try done]);
    try (pose proof (ledger_view s y LI) as Lv; destruct (conn_view empty g s y I) as (B & Ho & _)).
  - by eapply ledger_operation; [|apply effect_start].
  - eapply (ledger_operation s _ [] []); [done|]. by apply effect_frame; simpl; rewrite ?app_nil_r.
  - apply ledger_call; [done|done|]. intros m Hm Hnum.
    destruct (response_call empty g So y s m _ I Hm Hnum) as (k & Hk & Heq & _).
    pose proof (b_calls _ _ _ _ B) as Hcs. rewrite Forall_forall in Hcs. destruct (Hcs k Hk) as [_ _ K _]. simpl in K. lia.
  - by apply make_call_frame.
  - pose proof (ledger_sends empty g s _ _ (w1 ++ w2) Lv Ho) as L'.
    pose proof (effect_complete_send (λ m, m ∈ []) x r (Connection.with_sends (w1 ++ w2).*2 (conn s y))) as E.
    by apply (ledger_quiet empty g s (with_outgoing (w1 ++ w2) (peers y s)) _ _ _ _ None L' eq_refl E).
  - destruct (effect_receive (λ m', m' ∈ [m]) m (conn s y)) as (extra & E & Hx); [by constructor|].
    eapply ledger_ext, (ledger_effect empty g s _ _ _ _ _ [m] None _ Lv Ho E); try done.
    + intros m' ->%list_elem_of_singleton Hreq. pose proof (l_service _ _ _ _ Lv) as Hsv. unfold connection in Hsv. simpl in Hsv.
      rewrite Hsv. unfold is_req in Hreq. rewrite bool_decide_eq_true_2 by done. by constructor.
    + intros n' m' ->%list_elem_of_singleton Hnum. apply receive_removes; [by eapply response_type|done].
  - pose proof (effect_receive_end (λ m', m' ∈ []) r (Connection.with_receiving false (conn s y))) as E.
    assert (ledger s (with_connection (Connection.with_receiving false (conn s y)) (peers y s))) as L' by (by destruct Lv; split).
    by apply (ledger_quiet empty g s _ _ _ _ _ None L' Ho E).
  - by eapply ledger_service.
  - destruct (effect_background _ _ Hb) as (extra & E & Hx). by eapply ledger_operation.
  - split; [done|done|]. intros s U. destruct (keeps_internal _ _ (si_pipe _ _ _ I) Hp U) as [U0 E].
    etrans; [apply E|]. rewrite F by done. apply app_nil_r.
Qed.

Lemma lossless_reachable y : rtc step (create ping_timeout) y → lossless_inv y.
Proof.
  apply rtc_invariant; eauto using lossless_step. split; [by apply sys_inv_create|intros s; apply ledger_create|].
  intros s _. simpl. by destruct (law_start s) as (_ & _ & ->).
Qed.

(** A read that waits: the side was given nothing it has not seen. *)
Lemma reading_received s n rcv p : read_state s (Some n) rcv p → n ∈ reading s p → rcv = delivered s p.
Proof.
  intros (_ & d & [t Ht] & -> & Hn) Hin. unfold delivered. unfold read_numbers in Hn.
  rewrite Ht, !fmap_app, <- app_assoc in Hn. apply Permutation_app_inv_l, Permutation_singleton_r in Hn.
  assert (t = []) as ->; [|by rewrite Ht, app_nil_r].
  destruct t as [|a t]; [done|]. simpl in Hn. injection Hn as _ Hnil. apply app_eq_nil in Hnil as [_ Hr].
  rewrite Hr in Hin. by apply elem_of_nil in Hin.
Qed.
End lossless.

(** ** Property *)

(** C3: no call is left behind: over a pipe that loses nothing, when both sides
    are connected and no write or read failed, the pipe has nothing left to do, both
    sides wait for a message and the services have no request, then the request
    map of both connections is empty, so every call was completed. *)
Theorem rpc_quiescent {P Msg} `{LosslessPipe P, Proto Msg, !ProtoLaws Msg}
    (empty : Msg) g send_timeout ping_timeout (y : system P Msg) :
  services_ok empty g → rtc (step empty g send_timeout) (create ping_timeout) y →
  idle (pipe y) → undisturbed (pipe y) →
  (∀ s, Connection.serving (connection (peers y s)) = [] ∧
        ∃ n, read (peers y s) = Some n ∧ n ∈ reading s (pipe y)) →
  ∀ s, Connection.m_request_map (connection (peers y s)) = ∅ ∧
       ∀ k, k ∈ calls (peers y s) → k_promise k ∈ Connection.c_promise <$> Connection.log (connection (peers y s)).
Proof.
  intros So Hr Hi U Hq s. pose proof (lossless_reachable empty g send_timeout ping_timeout So y Hr) as [I L F].
  assert (∀ s, received (peers y s) = submitted (peers y (negb s))) as Hall.
  { intros s0. destruct (Hq s0) as (_ & n & Hn & Hin).
    pose proof (k_read _ _ _ (si_linked _ _ _ I s0)) as Hrd. rewrite Hn in Hrd.
    rewrite (reading_received _ _ _ _ Hrd Hin), <- F by done. unfold flow. rewrite negb_involutive.
    rewrite (idle_empty (negb s0)); rewrite ?app_nil_r, ?negb_involutive; try done; [apply I|].
    intros Hnil. rewrite Hnil in Hin. by apply elem_of_nil in Hin. }
  assert (∀ s, sent (peers y s) = submitted (peers y s)) as Hsent.
  { intros s0. pose proof (k_sends _ _ _ (si_linked _ _ _ I s0)) as Hs.
    unfold sent, fresh. rewrite <- Hs, drop_ge by (by rewrite length_fmap). apply app_nil_r. }
  assert (Connection.m_request_map (connection (peers y s)) = ∅) as Hmap.
  { apply map_empty. intros n. destruct (Connection.m_request_map _ !! n) as [d|] eqn:Hd; [exfalso|done].
    destruct (l_sent _ _ _ _ (L s) n d Hd) as (k & Hk & Hnum & Hf). rewrite Hsent in Hf.
    assert (frame k ∈ received (peers y (negb s))) as Hf' by (by rewrite Hall, negb_involutive).
    apply (l_served _ _ _ _ (L (negb s))) in Hf'; [|done].
    destruct (Hq (negb s)) as (Hsv & _). rewrite Hsv, app_nil_r in Hf'.
    destruct (l_answered _ _ _ _ (L (negb s)) _ Hf') as (m & Hm & Ha). rewrite Hsent, <- Hall in Hm.
    pose proof (answer_number empty g So s _ k m (si_books _ _ _ I s) Hk Ha) as Hn.
    rewrite Hnum in Hn. rewrite (l_closed _ _ _ _ (L s) n m Hm Hn) in Hd. done. }
  split; [done|]. intros k Hk. pose proof (b_calls _ _ _ _ (si_books _ _ _ I s)) as Hc. rewrite Forall_forall in Hc.
  destruct (Hc k Hk) as [_ _ _ K].
  pose proof (inv_once _ (conn_reachable_inv true ping_timeout _
    (system_connection empty g send_timeout ping_timeout So y s Hr)) (k_promise k)) as Ho.
  rewrite decide_True, Hmap, pend_empty in Ho by done. apply occ_pos. lia.
Qed.
