(* ===== verification/RpcRun.v ===== *)
(** * A call over the in-memory pipe

    A client calls a service that reverses its argument: the run from two fresh
    peers to rest, and the end-to-end theorems for it. *)
From S2P Require Import Prelude Memory Buffer BufferView RpcTypes BigEndian TransferMessage TransferMessageFacts Timer.
From S2P Require Import MemPipe MemPipeEnv Connection ConnectionFacts Service ServiceFacts Endpoint Pipe MemPipeLaws RpcSystem RpcSystemLemmas.
From S2P Require Import RpcSystemFacts RpcEndToEnd RpcQuiescence.
Import Memory TransferMessage RpcSystem MemPipeLaws.
Local Open Scope Z_scope.

Definition mirror : gservice ByteProto.msg :=
  GService [λ req, Reply ((λ b, b mod 256) <$> reverse req) false; λ _, Reply [] true].
Definition mirrors (_ : bool) : option (gservice ByteProto.msg) := Some mirror.

Lemma mirrors_ok : services_ok ([] : ByteProto.msg) mirrors.
Proof.
  split; [by eexists|by vm_compute|]. intros s g' [= <-]. split; [by vm_compute|]. intros method request Hin.
  assert (∀ l : list Z, Forall is_byte ((λ b, b mod 256) <$> l)) as Hb.
  { intros l. apply Forall_fmap, Forall_true. intros b. unfold is_byte. simpl. apply Z.mod_pos_bound. lia. }
  repeat (apply elem_of_cons in Hin as [->|Hin]); [..|by apply elem_of_nil in Hin]; simpl.
  - rewrite decide_True by apply Hb. by eexists.
  - by eexists.
Qed.

Abbreviation sys := (system buffers ByteProto.msg).
Abbreviation sstep := (step ([] : ByteProto.msg) mirrors 1000).
Abbreviation reached := (rtc sstep (create 10000)).

(** One task of the read or write strand of the direction the side [s] writes to. *)
Definition set_outgoing (s : bool) (b : MemBuffer.mem_buffer message) (m : buffers) : buffers :=
  if s then MemBuffers.mk (MemBuffers.m_client_to_server m) b (MemBuffers.m_invalidated m)
              (MemBuffers.m_on_invalidate m) (MemBuffers.executed m)
  else MemBuffers.mk b (MemBuffers.m_server_to_client m) (MemBuffers.m_invalidated m)
         (MemBuffers.m_on_invalidate m) (MemBuffers.executed m).
Definition run_read (s : bool) (y : sys) : sys :=
  match MemBuffer.run_read_strand (MemPipeEndpoint.outgoing s (pipe y)) with
  | Some b => System (peers y) (set_outgoing s b (pipe y))
  | None => y
  end.
Definition run_write (s : bool) (y : sys) : sys :=
  match MemBuffer.run_write_strand (MemPipeEndpoint.outgoing s (pipe y)) with
  | Some b => System (peers y) (set_outgoing s b (pipe y))
  | None => y
  end.

Lemma reach_work (y : sys) s b :
  reached y → BufferLaws.work (MemPipeEndpoint.outgoing s (pipe y)) b → reached (System (peers y) (set_outgoing s b (pipe y))).
Proof. intros Hr Hw. eapply rtc_r; [exact Hr|]. apply sys_pipe. simpl. destruct s; simpl in *; by constructor. Qed.

Lemma reach_read (y : sys) s :
  reached y →
  MemBuffer.m_next_read_promise_id (MemPipeEndpoint.outgoing s (pipe y)) < 2 ^ 64 - 1 ∧
  MultipleTimer.m_next_id (MemBuffer.m_timer (MemPipeEndpoint.outgoing s (pipe y))) < 2 ^ 64 - 1 →
  reached (run_read s y).
Proof.
  intros Hr [H1 H2]. unfold run_read. destruct (MemBuffer.run_read_strand _) as [b|] eqn:E; [|done].
  apply reach_work; [done|]. by apply BufferLaws.work_read.
Qed.

Lemma reach_write (y : sys) s : reached y → reached (run_write s y).
Proof.
  intros Hr. unfold run_write. destruct (MemBuffer.run_write_strand _) as [b|] eqn:E; [|done].
  apply reach_work; [done|]. by apply BufferLaws.work_write.
Qed.

(** ** The run *)
Definition request : message := req_frame 0 0 [1; 2; 3].
Definition response : message := res_frame 0 ResponseResult.ok [3; 2; 1].

Definition start_side (s : bool) (y : sys) : sys := operate 1000 s (Connection.start (conn s y)) y.

Definition y_started : sys := run_read true (run_read false (start_side true (start_side false (create 10000)))).
Definition y_called : sys := call_method 1000 false 0 [1; 2; 3] [1; 2; 3] y_started.
Definition y_arrived : sys := run_write false (run_write false y_called).
Definition y_serving : sys := read_done 1000 true request y_arrived.
Definition y_served : sys := service_done 1000 true request response [] y_serving.
Definition y_returned : sys := run_write true (run_write true y_served).
Definition y_done : sys := run_read true (run_read false (read_done 1000 false response y_returned)).

Ltac computed := first [by vm_compute|apply (bool_decide_unpack _); by vm_compute].

Lemma y_started_reached : reached y_started.
Proof.
  unfold y_started. do 2 (apply reach_read; [|split; computed]).
  eapply rtc_r; [|apply sys_start]. eapply rtc_r; [|apply sys_start]. done.
Qed.

Lemma y_called_reached : reached y_called.
Proof. eapply rtc_r; [apply y_started_reached|]. apply (sys_call _ _ _ _ false); computed. Qed.

Lemma y_arrived_reached : reached y_arrived.
Proof. unfold y_arrived. do 2 apply reach_write. apply y_called_reached. Qed.

Lemma y_serving_reached : reached y_serving.
Proof. eapply rtc_r; [apply y_arrived_reached|]. apply (sys_read _ _ _ y_arrived true 0); computed. Qed.

Lemma request_answered : answers ([] : ByteProto.msg) mirrors true request response.
Proof.
  apply (answers_run [] mirrors true request 0 ResponseResult.ok (Some [3; 2; 1])); [apply mirrors_ok|split; computed|computed..].
Qed.

Lemma y_served_reached : reached y_served.
Proof.
  eapply rtc_r; [apply y_serving_reached|].
  apply (sys_serve _ _ _ y_serving true [] request [] response); [computed|apply request_answered].
Qed.

Lemma y_returned_reached : reached y_returned.
Proof. unfold y_returned. do 2 apply reach_write. apply y_served_reached. Qed.

Lemma y_done_reached : reached y_done.
Proof.
  unfold y_done. do 2 (apply reach_read; [|split; computed]).
  eapply rtc_r; [apply y_returned_reached|]. apply (sys_read _ _ _ y_returned false 0); computed.
Qed.

Lemma y_done_log :
  Connection.log (connection (peers y_done false)) = [Connection.Completion 0 RequestResult.ok response].
Proof. by vm_compute. Qed.

Lemma rpc_ok_executed_witness :
  ∃ k, k ∈ calls (peers y_done false) ∧ answers ([] : ByteProto.msg) mirrors true (frame k) response.
Proof.
  destruct (rpc_ok_executed ([] : ByteProto.msg) mirrors 1000 10000 y_done false (Connection.Completion 0 RequestResult.ok response))
    as (k & Hk & _ & _ & Ha & _); [apply mirrors_ok|apply y_done_reached|rewrite y_done_log; by constructor|done|].
  by exists k.
Defined.

Lemma rpc_at_most_once_witness : NoDup (served (peers y_done true)).
Proof.
  pose proof (proj1 (proj2 (rpc_at_most_once ([] : ByteProto.msg) mirrors 1000 10000 y_done false mirrors_ok y_done_reached))) as Hn.
  by apply NoDup_app in Hn as [Hn _].
Defined.

Lemma rpc_quiescent_witness :
  Connection.m_request_map (connection (peers y_done false)) = ∅ ∧
  ∀ k, k ∈ calls (peers y_done false) → k_promise k ∈ Connection.c_promise <$> Connection.log (connection (peers y_done false)).
Proof.
  apply (rpc_quiescent ([] : ByteProto.msg) mirrors 1000 10000 y_done mirrors_ok y_done_reached).
  - intros [|]; by vm_compute.
  - intros [|]; split_and!; computed.
  - intros [|]; (split; [computed|]); exists 2%nat; split; computed.
Defined.
