(* ===== verification/App.v ===== *)
(** * The console application

    The example of the repository ([src/example/rpc-example]): a loop that
    parses lines of the console into commands, keeps a map of clients and a
    server, and sends messages through them.  The grammar of the commands and a
    session of them are the specification of the loop.  The calls themselves are those of
    [Client] and [Server]; here the result of a call is a parameter.  What the
    application writes to the console is a list of messages. *)
From S2P Require Import Prelude RpcTypes.
From stdpp Require Import strings.
From Stdlib Require Import Ascii.
Local Open Scope Z_scope.

Module App.
Abbreviation text := (list ascii).
Definition str (s : string) : text := String.list_ascii_of_string s.

Inductive command_type : Type :=
| unknown | help | exit | info | add_client | remove_client | send_to_server | send_to_client
| send_to_all_clients.
Inductive transport_type : Type := memory_pipe | win_pipe | tcp | unknown_transport.
#[global] Instance transport_type_eq_dec : EqDecision transport_type.
Proof. solve_decision. Defined.
#[global] Instance command_type_eq_dec : EqDecision command_type.
Proof. solve_decision. Defined.

Definition s_help_command : text := str "help".
Definition s_exit_command : text := str "exit".
Definition s_info_command : text := str "info".
Definition s_add_client_command : text := str "add client".
Definition s_remove_client_command_begin : text := str "remove client".
Definition s_send_to_server_command_begin : text := str "send to server".
Definition s_send_to_client_command_begin : text := str "send to client".
Definition s_send_to_all_clients_command_begin : text := str "send to all clients".

(** ** Scanning *)
Definition byte_of (c : ascii) : Z := Z.of_N (N_of_ascii c).
Definition is_whitespace (c : ascii) : bool :=
  let b := byte_of c in (b =? 32) || (b =? 9) || (b =? 13) || (b =? 10).
Definition is_digit (c : ascii) : bool := let b := byte_of c in (48 <=? b) && (b <=? 57).

(** The loops [while(pos < line.size() && f(line[pos])) ++pos]. *)
Fixpoint scan (f : ascii → bool) (line : text) (pos : nat) (fuel : nat) : nat :=
  match fuel with
  | O => pos
  | S fuel =>
      match line !! pos with
      | Some c => if f c then scan f line (S pos) fuel else pos
      | None => pos
      end
  end.
Definition skip_whitespace (line : text) (pos : nat) : nat := scan is_whitespace line pos (length line).
Definition skip_digits (line : text) (pos : nat) : nat := scan is_digit line pos (length line).

(** [line[first, last)]. *)
Definition slice (line : text) (first last : nat) : text := take (last - first) (drop first line).

(** [std::from_chars] of an [uint64_t] on digits: a value that does not fit is
    an error. *)
Definition digits_value (ds : text) : Z := foldl (λ v c, 10 * v + (byte_of c - 48)) 0 ds.
Definition from_chars (ds : text) : option Z :=
  let v := digits_value ds in if v <? 2 ^ 64 then Some v else None.

Definition extract_number_after_command (line command : text) (require_end : bool) : option Z :=
  if bool_decide (length line ≤ length command)%nat
     || (skip_whitespace line (length command) =? length command)%nat then None
  else
    let number_begin := skip_whitespace line (length command) in
    let number_end := skip_digits line number_begin in
    if (number_begin =? number_end)%nat
       || (bool_decide (number_end < length line)%nat && (skip_whitespace line number_end =? number_end)%nat)
    then None
    else
      number ← from_chars (slice line number_begin number_end);
      if require_end && negb (skip_whitespace line number_end =? length line)%nat then None
      else Some number.

Definition extract_message_after_number (line command : text) : option text :=
  if bool_decide (length line ≤ length command)%nat
     || (skip_whitespace line (length command) =? length command)%nat then None
  else
    let number_begin := skip_whitespace line (length command) in
    let number_end := skip_digits line number_begin in
    if (number_begin =? number_end)%nat || (number_end =? length line)%nat
       || (skip_whitespace line number_end =? number_end)%nat then None
    else
      let message_begin := skip_whitespace line number_end in
      if (message_begin =? length line)%nat then None else Some (drop message_begin line).

Definition extract_message_after_command (line command : text) : option text :=
  if bool_decide (length line ≤ length command)%nat
     || (skip_whitespace line (length command) =? length command)%nat then None
  else
    let message_begin := skip_whitespace line (length command) in
    if (message_begin =? length line)%nat then None else Some (drop message_begin line).

Definition extract_client_id_to_remove (line : text) : option Z :=
  extract_number_after_command line s_remove_client_command_begin true.
Definition extract_client_id_to_send_from (line : text) : option Z :=
  extract_number_after_command line s_send_to_server_command_begin false.
Definition extract_message_to_send_from_client (line : text) : option text :=
  extract_message_after_number line s_send_to_server_command_begin.

(** ** The application *)
Section app.
(** Boost's [trim] and [starts_with]; the build is for Windows or not; the
    results of what the clients and the server are asked for, with the
    exceptions of the calls and of their futures, and the exceptions of their
    constructors. *)
Context (trim : text → text) (starts_with : text → text → bool) (win32 : bool).
Context (new_server : transport_type → option exn) (new_client : transport_type → Z → option exn).
Context (client_request : Z → text → exn + RequestResult.request_result * text).
Context (server_request : Z → text → exn + RequestResult.request_result * text).
Context (server_request_all : text → exn + list (Z * (exn + RequestResult.request_result * text))).
Context (active_connections : nat).

Definition parse_chosen_transport (line : text) : transport_type :=
  if bool_decide (line = str "0") then memory_pipe
  else if win32 && bool_decide (line = str "1") then win_pipe
  else if bool_decide (line = str "2") then tcp
  else unknown_transport.

Definition parse_command (line : text) : command_type :=
  if bool_decide (line = s_help_command) then help
  else if bool_decide (line = s_exit_command) then exit
  else if bool_decide (line = s_info_command) then info
  else if bool_decide (line = s_add_client_command) then add_client
  else if starts_with line s_remove_client_command_begin then remove_client
  else if starts_with line s_send_to_server_command_begin then send_to_server
  else if starts_with line s_send_to_client_command_begin then send_to_client
  else if starts_with line s_send_to_all_clients_command_begin then send_to_all_clients
  else unknown.

(** What is written to the console, a constructor per message of the source. *)
Inductive output : Type :=
| ChooseTransport | Prompt | UnknownCommand | Help | Finish | Error (e : exn)
| Info (client_ids : list Z) (server_connections : nat)
| ClientCreated (id : Z) | ClientFailed (e : exn) | ClientRemoved (id : Z) | NoClient
| BadIdToRemove | BadIdToSendFrom | BadMessageFromClient | BadConnectionId | BadMessageToClient
| BadMessageToAll
| ClientSent (id : Z) (answer : text) | ClientNotSent (id : Z) (r : RequestResult.request_result)
| ServerSent (id : Z) (answer : text) | ServerNotSent (id : Z) (r : RequestResult.request_result).

Record app : Type := mk { m_transport : transport_type; m_next_client_id : Z; m_clients : gset Z }.

(** What a call writes, and what it throws. *)
Definition outcome : Type := list output * option exn.
Definition no_throw (out : list output) : outcome := (out, None).

Definition client_send (id : Z) (msg : text) : outcome :=
  match client_request id msg with
  | inl e => ([], Some e)
  | inr (r, m) => no_throw [if RequestResult.is_success r then ClientSent id m else ClientNotSent id r]
  end.
Definition server_report (id : Z) (a : exn + RequestResult.request_result * text) : outcome :=
  match a with
  | inl e => ([], Some e)
  | inr (r, m) => no_throw [if RequestResult.is_success r then ServerSent id m else ServerNotSent id r]
  end.
Definition server_send (id : Z) (msg : text) : outcome := server_report id (server_request id msg).
(** The futures are asked one after the other; one that throws ends the loop. *)
Fixpoint server_reports (futures : list (Z * (exn + RequestResult.request_result * text))) : outcome :=
  match futures with
  | [] => no_throw []
  | (id, a) :: futures =>
      match server_report id a with
      | (out, Some e) => (out, Some e)
      | (out, None) => let '(out', e) := server_reports futures in (out ++ out', e)
      end
  end.
Definition server_send_all (msg : text) : outcome :=
  match server_request_all msg with
  | inl e => ([], Some e)
  | inr futures => server_reports futures
  end.
Definition print_info (a : app) : output := Info (elements (m_clients a)) active_connections.

(** [m_clients.emplace] makes the client first; an id that is there keeps its
    client. *)
Definition exec_add_client (a : app) : app * list output :=
  let id := m_next_client_id a in
  let a := mk (m_transport a) ((id + 1) mod 2 ^ 64) (m_clients a) in
  match new_client (m_transport a) id with
  | None => (mk (m_transport a) (m_next_client_id a) ({[id]} ∪ m_clients a), [ClientCreated id])
  | Some e => (a, [ClientFailed e])
  end.

(** The body of the command loop for a trimmed line. *)
Definition exec (line : text) (a : app) : app * outcome :=
  match parse_command line with
  | unknown => (a, no_throw [UnknownCommand])
  | help => (a, no_throw [Help])
  | info => (a, no_throw [print_info a])
  | exit => (a, no_throw [Finish])
  | add_client => let '(a, out) := exec_add_client a in (a, no_throw out)
  | remove_client =>
      match extract_client_id_to_remove line with
      | None => (a, no_throw [BadIdToRemove])
      | Some id =>
          if decide (id ∈ m_clients a)
          then (mk (m_transport a) (m_next_client_id a) (m_clients a ∖ {[id]}), no_throw [ClientRemoved id])
          else (a, no_throw [NoClient])
      end
  | send_to_server =>
      match extract_client_id_to_send_from line with
      | None => (a, no_throw [BadIdToSendFrom])
      | Some id =>
          if decide (id ∈ m_clients a) then
            match extract_message_to_send_from_client line with
            | None => (a, no_throw [BadMessageFromClient])
            | Some msg => (a, client_send id msg)
            end
          else (a, no_throw [NoClient])
      end
  | send_to_client =>
      match extract_number_after_command line s_send_to_client_command_begin false with
      | None => (a, no_throw [BadConnectionId])
      | Some id =>
          match extract_message_after_number line s_send_to_client_command_begin with
          | None => (a, no_throw [BadMessageToClient])
          | Some msg => (a, server_send id msg)
          end
      end
  | send_to_all_clients =>
      match extract_message_after_command line s_send_to_all_clients_command_begin with
      | None => (a, no_throw [BadMessageToAll])
      | Some msg => (a, server_send_all msg)
      end
  end.

(** The command loop; the lines end when the console does.  An exception of a
    command ends the loop: the handler of [run] reports it. *)
Fixpoint commands (lines : list text) (a : app) : Z * app * list output :=
  match lines with
  | [] => (1, a, [Prompt; Error runtime_error])
  | line :: lines =>
      let line := trim line in
      match exec line a with
      | (a, (out, Some e)) => (1, a, Prompt :: out ++ [Error e])
      | (a, (out, None)) =>
          if decide (parse_command line = exit) then (0, a, Prompt :: out)
          else let '(code, a, out') := commands lines a in (code, a, Prompt :: out ++ out')
      end
  end.

Fixpoint choose_transport (lines : list text) : option (transport_type * list text) * list output :=
  match lines with
  | [] => (None, [ChooseTransport; Prompt])
  | line :: lines =>
      let t := parse_chosen_transport (trim line) in
      if decide (t = unknown_transport)
      then let '(r, out) := choose_transport lines in (r, ChooseTransport :: Prompt :: out)
      else (Some (t, lines), [ChooseTransport; Prompt])
  end.

Definition run (lines : list text) : Z * list output :=
  match choose_transport lines with
  | (None, out) => (1, out ++ [Error runtime_error])
  | (Some (t, lines), out) =>
      match new_server t with
      | Some e => (1, out ++ [Error e])
      | None => let '(code, _, out') := commands lines (mk t 0 ∅) in (code, out ++ out')
      end
  end.
End app.
End App.
Import App.

(** ** The grammar of the commands *)
Definition all (f : ascii → bool) (l : text) : Prop := Forall (λ c, f c = true) l.
(** A run of [f] stops before [l]. *)
Definition stops (f : ascii → bool) (l : text) : Prop :=
  match l with [] => True | c :: _ => f c = false end.
Definition blank (l : text) : Prop := l ≠ [] ∧ all is_whitespace l.
Definition numeral (l : text) (n : Z) : Prop := l ≠ [] ∧ all is_digit l ∧ n = digits_value l ∧ n < 2 ^ 64.
Definition message (l : text) : Prop := l ≠ [] ∧ stops is_whitespace l.

Inductive command : Type :=
| CHelp | CExit | CInfo | CAdd | CRemove (id : Z) | CSendToServer (id : Z) (msg : text)
| CSendToClient (id : Z) (msg : text) | CSendToAll (msg : text).

Inductive reads : text → command → Prop :=
| reads_help : reads s_help_command CHelp
| reads_exit : reads s_exit_command CExit
| reads_info : reads s_info_command CInfo
| reads_add : reads s_add_client_command CAdd
| reads_remove ws ds ws' id :
    blank ws → numeral ds id → all is_whitespace ws' →
    reads (s_remove_client_command_begin ++ ws ++ ds ++ ws') (CRemove id)
| reads_to_server ws ds ws' id msg :
    blank ws → numeral ds id → blank ws' → message msg →
    reads (s_send_to_server_command_begin ++ ws ++ ds ++ ws' ++ msg) (CSendToServer id msg)
| reads_to_client ws ds ws' id msg :
    blank ws → numeral ds id → blank ws' → message msg →
    reads (s_send_to_client_command_begin ++ ws ++ ds ++ ws' ++ msg) (CSendToClient id msg)
| reads_to_all ws msg :
    blank ws → message msg → reads (s_send_to_all_clients_command_begin ++ ws ++ msg) (CSendToAll msg).

(** ** Spans *)
Fixpoint span (f : ascii → bool) (l : text) : text * text :=
  match l with
  | [] => ([], [])
  | c :: l' => if f c then let '(b, r) := span f l' in (c :: b, r) else ([], l)
  end.

Lemma span_spec f l b c : span f l = (b, c) ↔ l = b ++ c ∧ all f b ∧ stops f c.
Proof.
  revert b c. induction l as [|x l IH]; intros b c; simpl.
  - split; [intros [= <- <-]; repeat split; constructor|].
    intros (H & _ & _). symmetry in H. apply app_nil in H as [-> ->]. done.
  - destruct (f x) eqn:Ex.
    + destruct (span f l) as [b0 c0] eqn:E. pose proof (proj1 (IH b0 c0) eq_refl) as (Hl & Hb & Hc). split.
      * intros [= <- <-]. split; [by rewrite Hl|]. split; [by constructor|done].
      * intros (H & Hb' & Hc'). destruct b as [|y b]; simplify_eq/=; [congruence|].
        inversion Hb'; subst.
        assert (Heq : (b0, c0) = (b, c)) by (by apply IH). by simplify_eq.
    + split; [intros [= <- <-]; repeat split; [constructor|done]|].
      intros (H & Hb' & Hc'). destruct b as [|y b]; simplify_eq/=; [done|]. inversion Hb'; congruence.
Qed.

Lemma span_eq f l : l = (span f l).1 ++ (span f l).2.
Proof. destruct (span f l) as [b c] eqn:E. by apply span_spec in E as [-> _]. Qed.

Lemma scan_span f a l fuel :
  (length l ≤ fuel)%nat → scan f (a ++ l) (length a) fuel = (length a + length (span f l).1)%nat.
Proof.
  revert a fuel. induction l as [|x l IH]; intros a fuel Hf; destruct fuel as [|fuel]; simpl in *; try lia.
  - rewrite lookup_ge_None_2; [lia|]. rewrite app_nil_r. lia.
  - rewrite (list_lookup_middle a l x (length a)) by done. destruct (f x); [|simpl; lia].
    replace (a ++ x :: l) with ((a ++ [x]) ++ l) by (by rewrite <-app_assoc).
    replace (S (length a)) with (length (a ++ [x])) by (rewrite length_app; simpl; lia).
    rewrite IH by lia. destruct (span f l) as [b r]. rewrite length_app. simpl. lia.
Qed.

Lemma skip_span f a l : scan f (a ++ l) (length a) (length (a ++ l)) = (length a + length (span f l).1)%nat.
Proof. apply scan_span. rewrite length_app. lia. Qed.

(** The extractions in terms of spans. *)
Definition is_nil {A} (l : list A) : bool := match l with [] => true | _ => false end.

Lemma skip_command command tail :
  skip_whitespace (command ++ tail) (length command) = length (command ++ (span is_whitespace tail).1).
Proof. unfold skip_whitespace. by rewrite skip_span, length_app. Qed.

Lemma no_argument command tail :
  bool_decide (length (command ++ tail) ≤ length command)%nat
  || (skip_whitespace (command ++ tail) (length command) =? length command)%nat
  = is_nil (span is_whitespace tail).1.
Proof.
  rewrite skip_command. pose proof (span_eq is_whitespace tail) as E.
  destruct (span is_whitespace tail) as [ws t1]; simpl in *. subst tail. rewrite !length_app.
  destruct ws as [|x ws]; simpl.
  - rewrite orb_true_iff. right. apply Nat.eqb_eq. lia.
  - apply orb_false_iff. split; [apply bool_decide_eq_false|apply Nat.eqb_neq]; lia.
Qed.

Lemma add_eqb n (l : text) : (n =? n + length l)%nat = is_nil l ∧ (n + length l =? n)%nat = is_nil l.
Proof. destruct l; simpl; split; (apply Nat.eqb_eq || apply Nat.eqb_neq); lia. Qed.

Lemma skip_end f (a l : text) :
  (length (a ++ (span f l).1) =? length (a ++ l))%nat = is_nil (span f l).2.
Proof.
  pose proof (span_eq f l) as E. destruct (span f l) as [b c]; simpl in *. subst l.
  rewrite app_assoc, (length_app _ c). apply add_eqb.
Qed.

Lemma extract_number_span command tail req :
  extract_number_after_command (command ++ tail) command req =
  let '(ws, t1) := span is_whitespace tail in
  let '(ds, t2) := span is_digit t1 in
  let '(ws', rest) := span is_whitespace t2 in
  if is_nil ws || is_nil ds || (negb (is_nil t2) && is_nil ws') then None
  else n ← from_chars ds; if req && negb (is_nil rest) then None else Some n.
Proof.
  unfold extract_number_after_command. rewrite no_argument, skip_command.
  pose proof (span_eq is_whitespace tail) as E1.
  destruct (span is_whitespace tail) as [ws t1]; simpl in *. destruct (is_nil ws); [by repeat case_match|].
  subst tail. rewrite (app_assoc command ws t1). set (a := command ++ ws). simpl.
  unfold skip_digits. rewrite skip_span. pose proof (span_eq is_digit t1) as E2.
  destruct (span is_digit t1) as [ds t2]; simpl in *. subst t1.
  rewrite (proj1 (add_eqb _ ds)). destruct (is_nil ds); [by repeat case_match|].
  assert (Hs : slice (a ++ ds ++ t2) (length a) (length a + length ds) = ds).
  { unfold slice. rewrite drop_app_length. replace (length a + length ds - length a)%nat with (length ds) by lia.
    by rewrite take_app_length. }
  rewrite Hs. rewrite <-length_app, app_assoc. unfold skip_whitespace. rewrite skip_span, <-length_app.
  rewrite skip_end. destruct (span is_whitespace t2) as [ws' rest]; simpl.
  rewrite (length_app _ ws'), (proj2 (add_eqb _ ws')).
  assert (Hb : bool_decide (length (a ++ ds) < length ((a ++ ds) ++ t2))%nat = negb (is_nil t2)).
  { rewrite (length_app _ t2). destruct t2; simpl; [apply bool_decide_eq_false|apply bool_decide_eq_true]; lia. }
  rewrite Hb. done.
Qed.

Lemma extract_message_span command tail :
  extract_message_after_number (command ++ tail) command =
  let '(ws, t1) := span is_whitespace tail in
  let '(ds, t2) := span is_digit t1 in
  let '(ws', rest) := span is_whitespace t2 in
  if is_nil ws || is_nil ds || is_nil t2 || is_nil ws' || is_nil rest then None else Some rest.
Proof.
  unfold extract_message_after_number. rewrite no_argument, skip_command.
  pose proof (span_eq is_whitespace tail) as E1.
  destruct (span is_whitespace tail) as [ws t1]; simpl in *. destruct (is_nil ws); [by repeat case_match|].
  subst tail. rewrite (app_assoc command ws t1). set (a := command ++ ws). simpl.
  unfold skip_digits. rewrite skip_span. pose proof (span_eq is_digit t1) as E2.
  destruct (span is_digit t1) as [ds t2]; simpl in *. subst t1.
  rewrite (proj1 (add_eqb _ ds)). destruct (is_nil ds); [by repeat case_match|].
  rewrite <-length_app, app_assoc. unfold skip_whitespace. rewrite skip_span, <-length_app, skip_end.
  rewrite (length_app (a ++ ds) t2), (proj1 (add_eqb _ t2)).
  pose proof (span_eq is_whitespace t2) as E3.
  destruct (span is_whitespace t2) as [ws' rest]; simpl in *.
  rewrite (length_app _ ws'), (proj2 (add_eqb _ ws')). subst t2.
  rewrite (app_assoc (a ++ ds) ws' rest), <-length_app, drop_app_length.
  by destruct (is_nil (ws' ++ rest)), (is_nil ws').
Qed.

Lemma extract_rest_span command tail :
  extract_message_after_command (command ++ tail) command =
  let '(ws, rest) := span is_whitespace tail in
  if is_nil ws || is_nil rest then None else Some rest.
Proof.
  unfold extract_message_after_command. rewrite no_argument, skip_command, skip_end.
  pose proof (span_eq is_whitespace tail) as E.
  destruct (span is_whitespace tail) as [ws rest]; simpl in *. subst tail.
  rewrite (app_assoc command), drop_app_length. by destruct (is_nil ws).
Qed.

Lemma digit_not_blank c : is_digit c = true → is_whitespace c = false.
Proof. unfold is_digit, is_whitespace. lia. Qed.

Lemma is_nil_true {A} (l : list A) : is_nil l = true ↔ l = [].
Proof. by destruct l. Qed.
Lemma is_nil_false {A} (l : list A) : is_nil l = false ↔ l ≠ [].
Proof. by destruct l. Qed.

(** A blank, a numeral and what follows are found by the spans. *)
Lemma argument_spans ws ds t :
  blank ws → ds ≠ [] → all is_digit ds → stops is_digit t →
  span is_whitespace (ws ++ ds ++ t) = (ws, ds ++ t) ∧ span is_digit (ds ++ t) = (ds, t).
Proof.
  intros [_ Hw] Hd0 Hd Ht. split; apply span_spec; [|done].
  split; [done|]. split; [done|]. destruct ds as [|d ds]; [done|]. inversion Hd; subst. by apply digit_not_blank.
Qed.

Lemma blank_stops (ws l : text) : blank ws → stops is_digit (ws ++ l).
Proof.
  intros [H0 H]. destruct ws as [|c ws]; [done|]. inversion H; subst. simpl.
  destruct (is_digit c) eqn:E; [|done]. apply digit_not_blank in E. congruence.
Qed.

Lemma from_chars_numeral ds n : ds ≠ [] → all is_digit ds → from_chars ds = Some n ↔ numeral ds n.
Proof.
  intros H0 Hd. unfold from_chars, numeral. destruct (digits_value ds <? 2 ^ 64) eqn:E.
  - apply Z.ltb_lt in E. split; [intros [= <-]; by repeat split|by intros (_ & _ & -> & _)].
  - apply Z.ltb_ge in E. split; [done|]. intros (_ & _ & -> & ?). lia.
Qed.

Lemma number_iff command tail req n :
  extract_number_after_command (command ++ tail) command req = Some n ↔
  ∃ ws ds ws' rest, tail = ws ++ ds ++ ws' ++ rest ∧ blank ws ∧ numeral ds n ∧
    all is_whitespace ws' ∧ stops is_whitespace rest ∧ (ws' = [] → rest = []) ∧ (req = true → rest = []).
Proof.
  rewrite extract_number_span. split.
  - destruct (span is_whitespace tail) as [ws t1] eqn:E1. apply span_spec in E1 as (-> & Hw & _).
    destruct (span is_digit t1) as [ds t2] eqn:E2. apply span_spec in E2 as (-> & Hd & _).
    destruct (span is_whitespace t2) as [ws' rest] eqn:E3. apply span_spec in E3 as (-> & Hw' & Hs).
    destruct (is_nil ws || _ || _) eqn:En; [done|].
    apply orb_false_iff in En as [[Hn1 Hn2]%orb_false_iff Hn3]. rewrite is_nil_false in Hn1, Hn2.
    destruct (from_chars ds) as [n'|] eqn:Ef; simpl; [|done]. apply from_chars_numeral in Ef; [|done..].
    destruct (req && _) eqn:Er; [done|]. intros [= <-]. exists ws, ds, ws', rest.
    split_and!; try done.
    + intros ->. simpl in Hn3. by destruct rest.
    + intros ->. by destruct rest.
  - intros (ws & ds & ws' & rest & -> & Hw & Hd & Hw' & Hs & Hr & Hq).
    assert (Ht : stops is_digit (ws' ++ rest)).
    { destruct ws' as [|c ws']; [by rewrite Hr|]. by apply blank_stops. }
    destruct (argument_spans ws ds _ Hw (proj1 Hd) (proj1 (proj2 Hd)) Ht) as [-> ->].
    rewrite (proj2 (span_spec is_whitespace (ws' ++ rest) ws' rest)) by done.
    destruct Hw as [Hw0 _]. apply is_nil_false in Hw0 as ->. pose proof Hd as (Hd0 & Hd1 & _).
    apply (from_chars_numeral _ _ Hd0 Hd1) in Hd as ->. apply is_nil_false in Hd0 as ->. simpl.
    destruct ws' as [|c ws']; simpl.
    + rewrite Hr by done. simpl. by rewrite andb_false_r.
    + destruct req; simpl; [|done]. by rewrite Hq.
Qed.

Lemma message_iff command tail m :
  extract_message_after_number (command ++ tail) command = Some m ↔
  ∃ ws ds ws', tail = ws ++ ds ++ ws' ++ m ∧ blank ws ∧ ds ≠ [] ∧ all is_digit ds ∧ blank ws' ∧ message m.
Proof.
  rewrite extract_message_span. split.
  - destruct (span is_whitespace tail) as [ws t1] eqn:E1. apply span_spec in E1 as (-> & Hw & _).
    destruct (span is_digit t1) as [ds t2] eqn:E2. apply span_spec in E2 as (-> & Hd & _).
    destruct (span is_whitespace t2) as [ws' rest] eqn:E3. apply span_spec in E3 as (-> & Hw' & Hs).
    destruct (is_nil ws || _ || _ || _ || _) eqn:En; [done|]. intros [= <-].
    rewrite !orb_false_iff, !is_nil_false in En. exists ws, ds, ws'. unfold blank, message. tauto.
  - intros (ws & ds & ws' & -> & Hw & Hd0 & Hd & Hw' & Hm0 & Hm).
    destruct (argument_spans ws ds (ws' ++ m) Hw Hd0 Hd) as [-> ->]; [by apply blank_stops|].
    destruct Hw as [Hw0 _], Hw' as [Hw0' Hw'].
    rewrite (proj2 (span_spec is_whitespace _ ws' m)) by done.
    by destruct ws, ds, ws', m.
Qed.

Lemma rest_iff command tail m :
  extract_message_after_command (command ++ tail) command = Some m ↔
  ∃ ws, tail = ws ++ m ∧ blank ws ∧ message m.
Proof.
  rewrite extract_rest_span. split.
  - destruct (span is_whitespace tail) as [ws t1] eqn:E1. apply span_spec in E1 as (-> & Hw & Hs).
    destruct (is_nil ws || _) eqn:En; [done|]. intros [= <-]. rewrite !orb_false_iff, !is_nil_false in En.
    exists ws. unfold blank, message. tauto.
  - intros (ws & -> & [Hw0 Hw] & Hm0 & Hm).
    rewrite (proj2 (span_spec is_whitespace _ ws m)) by done. by destruct ws, m.
Qed.

Lemma number_message_iff command tail n m :
  extract_number_after_command (command ++ tail) command false = Some n ∧
  extract_message_after_number (command ++ tail) command = Some m ↔
  ∃ ws ds ws', tail = ws ++ ds ++ ws' ++ m ∧ blank ws ∧ numeral ds n ∧ blank ws' ∧ message m.
Proof.
  split.
  - rewrite message_iff. intros [Hn (ws & ds & ws' & -> & Hw & Hd0 & Hd & Hw' & Hm)].
    exists ws, ds, ws'. split_and!; try done. rewrite extract_number_span in Hn.
    destruct (argument_spans ws ds (ws' ++ m) Hw Hd0 Hd) as [E1 E2]; [by apply blank_stops|].
    rewrite E1, E2 in Hn.
    destruct (span is_whitespace (ws' ++ m)). destruct (is_nil ws || _ || _); [done|].
    destruct (from_chars ds) eqn:Ef; [|done]. simplify_eq/=. by apply from_chars_numeral.
  - intros (ws & ds & ws' & -> & Hw & Hd & Hw' & Hm). pose proof Hd as (Hd0 & Hd1 & _). split.
    + apply number_iff. exists ws, ds, ws', m. split_and!; try done; [by destruct Hw'|by destruct Hm|].
      intros ->. by destruct Hw'.
    + apply message_iff. exists ws, ds, ws'. by split_and!.
Qed.

(** ** The commands *)
Section commands.
Context (starts_with : text → text → bool) (new_client : transport_type → Z → option exn).
Context (client_request server_request : Z → text → exn + RequestResult.request_result * text).
Context (server_request_all : text → exn + list (Z * (exn + RequestResult.request_result * text))).
Context (active_connections : nat).
Hypothesis starts_with_spec : ∀ l p, starts_with l p = true ↔ p `prefix_of` l.
Abbreviation exec := (exec starts_with new_client client_request server_request server_request_all active_connections).

(** What a command does. *)
Definition effect (c : command) (a : app) : app * outcome :=
  match c with
  | CHelp => (a, no_throw [Help])
  | CExit => (a, no_throw [Finish])
  | CInfo => (a, no_throw [Info (elements (m_clients a)) active_connections])
  | CAdd => let '(a, out) := exec_add_client new_client a in (a, no_throw out)
  | CRemove id =>
      if decide (id ∈ m_clients a)
      then (mk (m_transport a) (m_next_client_id a) (m_clients a ∖ {[id]}), no_throw [ClientRemoved id])
      else (a, no_throw [NoClient])
  | CSendToServer id msg =>
      (a, if decide (id ∈ m_clients a) then client_send client_request id msg else no_throw [NoClient])
  | CSendToClient id msg => (a, server_send server_request id msg)
  | CSendToAll msg => (a, server_send_all server_request_all msg)
  end.

(** The messages about lines that are not commands. *)
Definition complaint (o : output) : Prop :=
  o ∈ [UnknownCommand; NoClient; BadIdToRemove; BadIdToSendFrom; BadMessageFromClient;
       BadConnectionId; BadMessageToClient; BadMessageToAll].

Ltac not_prefix := apply not_true_iff_false; rewrite starts_with_spec; intros [? ?]; discriminate.

Lemma parse_prefix t :
  parse_command starts_with (s_remove_client_command_begin ++ t) = remove_client ∧
  parse_command starts_with (s_send_to_server_command_begin ++ t) = send_to_server ∧
  parse_command starts_with (s_send_to_client_command_begin ++ t) = send_to_client ∧
  parse_command starts_with (s_send_to_all_clients_command_begin ++ t) = send_to_all_clients.
Proof.
  unfold parse_command. split_and!; rewrite !bool_decide_eq_false_2 by discriminate.
  - by rewrite (proj2 (starts_with_spec _ _) (prefix_app_r _ _ _ (reflexivity _))).
  - replace (starts_with _ s_remove_client_command_begin) with false by (symmetry; not_prefix).
    by rewrite (proj2 (starts_with_spec _ _) (prefix_app_r _ _ _ (reflexivity _))).
  - replace (starts_with _ s_remove_client_command_begin) with false by (symmetry; not_prefix).
    replace (starts_with _ s_send_to_server_command_begin) with false by (symmetry; not_prefix).
    by rewrite (proj2 (starts_with_spec _ _) (prefix_app_r _ _ _ (reflexivity _))).
  - replace (starts_with _ s_remove_client_command_begin) with false by (symmetry; not_prefix).
    replace (starts_with _ s_send_to_server_command_begin) with false by (symmetry; not_prefix).
    replace (starts_with _ s_send_to_client_command_begin) with false by (symmetry; not_prefix).
    by rewrite (proj2 (starts_with_spec _ _) (prefix_app_r _ _ _ (reflexivity _))).
Qed.

Lemma parse_inv line :
  match parse_command starts_with line with
  | unknown => True
  | help => line = s_help_command
  | exit => line = s_exit_command
  | info => line = s_info_command
  | add_client => line = s_add_client_command
  | remove_client => ∃ t, line = s_remove_client_command_begin ++ t
  | send_to_server => ∃ t, line = s_send_to_server_command_begin ++ t
  | send_to_client => ∃ t, line = s_send_to_client_command_begin ++ t
  | send_to_all_clients => ∃ t, line = s_send_to_all_clients_command_begin ++ t
  end.
Proof.
  unfold parse_command. repeat case_bool_decide; try done.
  repeat case_match; try done; by apply starts_with_spec.
Qed.

(** The command of a line. *)
Definition read (line : text) : option command :=
  match parse_command starts_with line with
  | unknown => None
  | help => Some CHelp
  | exit => Some CExit
  | info => Some CInfo
  | add_client => Some CAdd
  | remove_client => CRemove <$> extract_client_id_to_remove line
  | send_to_server =>
      id ← extract_client_id_to_send_from line;
      CSendToServer id <$> extract_message_to_send_from_client line
  | send_to_client =>
      id ← extract_number_after_command line s_send_to_client_command_begin false;
      CSendToClient id <$> extract_message_after_number line s_send_to_client_command_begin
  | send_to_all_clients =>
      CSendToAll <$> extract_message_after_command line s_send_to_all_clients_command_begin
  end.

Lemma reads_read line c : reads line c → read line = Some c.
Proof.
  unfold read. destruct 1 as [| | | |ws ds ws' id Hw Hd Hw'|ws ds ws' id msg Hw Hd Hw' Hm
    |ws ds ws' id msg Hw Hd Hw' Hm|ws msg Hw Hm]; try reflexivity.
  - rewrite (proj1 (parse_prefix _)). unfold extract_client_id_to_remove.
    rewrite (proj2 (number_iff s_remove_client_command_begin (ws ++ ds ++ ws') true id)); [done|].
    exists ws, ds, ws', []. rewrite app_nil_r. by split_and!.
  - rewrite (proj1 (proj2 (parse_prefix _))).
    unfold extract_client_id_to_send_from, extract_message_to_send_from_client.
    destruct (proj2 (number_message_iff s_send_to_server_command_begin (ws ++ ds ++ ws' ++ msg) id msg)) as [-> ->];
      [by exists ws, ds, ws'|done].
  - rewrite (proj1 (proj2 (proj2 (parse_prefix _)))).
    destruct (proj2 (number_message_iff s_send_to_client_command_begin (ws ++ ds ++ ws' ++ msg) id msg)) as [-> ->];
      [by exists ws, ds, ws'|done].
  - rewrite (proj2 (proj2 (proj2 (parse_prefix _)))).
    rewrite (proj2 (rest_iff s_send_to_all_clients_command_begin (ws ++ msg) msg)); [done|by exists ws].
Qed.

Lemma read_reads line c : read line = Some c → reads line c.
Proof.
  unfold read. pose proof (parse_inv line) as Hp. destruct (parse_command starts_with line);
    try (intros [= <-]; subst; by constructor); destruct Hp as [t ->].
  - intros (id & E & ->)%fmap_Some. apply number_iff in E as (ws & ds & ws' & rest & -> & Hw & Hd & Hw' & _ & _ & Hr).
    rewrite Hr, app_nil_r by done. by constructor.
  - intros (id & E1 & (msg & E2 & ->)%fmap_Some)%bind_Some.
    destruct (proj1 (number_message_iff _ _ _ _) (conj E1 E2)) as (ws & ds & ws' & -> & Hw & Hd & Hw' & Hm).
    by constructor.
  - intros (id & E1 & (msg & E2 & ->)%fmap_Some)%bind_Some.
    destruct (proj1 (number_message_iff _ _ _ _) (conj E1 E2)) as (ws & ds & ws' & -> & Hw & Hd & Hw' & Hm).
    by constructor.
  - intros (msg & E & ->)%fmap_Some. apply rest_iff in E as (ws & -> & Hw & Hm). by constructor.
Qed.

Lemma exec_read line c a : read line = Some c → exec line a = effect c a.
Proof.
  unfold read, exec. destruct (parse_command starts_with line); try (by intros [= <-]).
  - by intros (id & -> & ->)%fmap_Some.
  - intros (id & -> & (msg & -> & ->)%fmap_Some)%bind_Some. simpl. by case_decide.
  - by intros (id & -> & (msg & -> & ->)%fmap_Some)%bind_Some.
  - by intros (msg & -> & ->)%fmap_Some.
Qed.

Lemma exec_complains line a : read line = None → ∃ o, complaint o ∧ exec line a = (a, no_throw [o]).
Proof.
  unfold read, exec, complaint. destruct (parse_command starts_with line); try done; intros E;
    repeat case_match; simplify_option_eq; try done; eexists; (split; [|reflexivity]); set_solver.
Qed.

Lemma exit_reads line : parse_command starts_with line = exit ↔ reads line CExit.
Proof.
  split; [intros E; pose proof (parse_inv line) as H; rewrite E in H; subst; constructor|].
  by inversion 1.
Qed.

(** ** The specification of the command loop *)
Context (trim : text → text).

(** A session: every line is a command of the grammar and has its effect, or is
    answered by a complaint; it ends with the command [exit], code 0, or, with
    code 1 and the error, with the console or the first exception of a call. *)
Inductive session : app → list text → Z → app → list output → Prop :=
| session_eof a : session a [] 1 a [Prompt; Error runtime_error]
| session_exit a line lines :
    reads (trim line) CExit → session a (line :: lines) 0 a [Prompt; Finish]
| session_command a line lines c a1 out1 code a' out :
    reads (trim line) c → c ≠ CExit → effect c a = (a1, (out1, None)) → session a1 lines code a' out →
    session a (line :: lines) code a' (Prompt :: out1 ++ out)
| session_throws a line lines c a1 out1 e :
    reads (trim line) c → effect c a = (a1, (out1, Some e)) →
    session a (line :: lines) 1 a1 (Prompt :: out1 ++ [Error e])
| session_complaint a line lines o code a' out :
    (∀ c, ¬ reads (trim line) c) → complaint o → session a lines code a' out →
    session a (line :: lines) code a' (Prompt :: o :: out).

(** C40: With Boost's [starts_with], and whatever the calls answer or throw, the
    command loop is the session of the grammar: a line that is a command of the
    help text, its parts separated by blanks and its numbers below 2^64, has its
    effect; any other line changes nothing and is answered by one complaint;
    [exit] ends the loop with code 0, the end of the console and an exception
    with code 1, after everything that was written before. *)
Theorem commands_follow_grammar lines a :
  let '(code, a', out) := commands trim starts_with new_client client_request server_request
                            server_request_all active_connections lines a in
  session a lines code a' out.
Proof.
  revert a. induction lines as [|line lines IH]; intros a; simpl; [constructor|].
  destruct (read (trim line)) as [c|] eqn:E.
  - rewrite (exec_read _ c a E). pose proof (read_reads _ _ E) as Hr.
    destruct (effect c a) as [a1 [out1 [e|]]] eqn:Ee; [by eapply session_throws|].
    destruct (decide (parse_command starts_with (trim line) = exit)) as [Ex|Ex].
    + apply exit_reads in Ex. apply reads_read in Ex. simplify_eq. injection Ee as <- <-. by constructor.
    + specialize (IH a1). destruct (commands _ _ _ _ _ _ _ lines a1) as [[code a'] out'].
      eapply session_command; [done| |done|done]. intros ->. apply Ex. by apply exit_reads.
  - destruct (exec_complains _ a E) as (o & Ho & ->). simpl.
    rewrite decide_False by (intros Ex%exit_reads%reads_read; congruence). specialize (IH a).
    destruct (commands _ _ _ _ _ _ _ lines a) as [[code a'] out']. constructor; [|done..].
    intros c Hc%reads_read. congruence.
Qed.
End commands.

(** A client is made, sends a message and is removed, two lines are wrong, and a
    call that throws ends the loop. *)
Definition demo_starts_with (l p : text) : bool := bool_decide (p `prefix_of` l).
Definition demo_request (id : Z) (m : text) : exn + RequestResult.request_result * text :=
  inr (RequestResult.ok, str "server processed message").
Definition demo_request_all (m : text) : exn + list (Z * (exn + RequestResult.request_result * text)) :=
  inr [(7, demo_request 7 m); (8, inl logic_error); (9, demo_request 9 m)].
Definition demo_lines : list text :=
  str <$> ["add client"; "send to server 0 hi"; "send to server 18446744073709551616 hi"; "info";
           "remove client 1"; "remove client 0"; "send to all clients hi"; "never read"]%string.

Lemma demo_starts_with_spec l p : demo_starts_with l p = true ↔ p `prefix_of` l.
Proof. apply bool_decide_eq_true. Qed.

Lemma commands_follow_grammar_witness :
  session (λ _ _, None) demo_request demo_request demo_request_all 1 id (mk tcp 0 ∅) demo_lines 1 (mk tcp 1 ∅)
    [Prompt; ClientCreated 0; Prompt; ClientSent 0 (str "server processed message"); Prompt; BadIdToSendFrom;
     Prompt; Info [0] 1; Prompt; NoClient; Prompt; ClientRemoved 0;
     Prompt; ServerSent 7 (str "server processed message"); Error logic_error].
Proof.
  exact (commands_follow_grammar demo_starts_with (λ _ _, None) demo_request demo_request demo_request_all 1
           demo_starts_with_spec id demo_lines (mk tcp 0 ∅)).
Defined.
